(* ===== verification/_CoqProject ===== *)
-Q . S2P
Prelude.v
CString.v
Util.v
Glob.v
Sds.v
Args.v
Vector.v
Queue.v
Keys.v
Cluster.v
Serialize.v
Filter.v
FilterSpec.v
Dict.v
DictSpec.v
DictOps.v
DictScan.v
DictRandom.v
Hash.v
Ziplist.v
ZiplistSpec.v
ZiplistOps.v
Lzf.v
LzfSpec.v
Intset.v
HashObj.v
Db.v
Meta.v
Table.v
Invariant.v
Config.v
Write.v
WriteSpec.v
Scan.v
ScanSpec.v
Tiering.v
TieringSpec.v
PersistSpec.v
Commands.v
System.v
FreeMemory.v
Keyspace.v
Multi.v
MultiSpec.v
Faults.v
