(* ===== verification/Prelude.v ===== *)
(** ADDB: a verification development for the relational layer of the server.

    * The program

    ADDB is a fork of Redis 4 that stores tables.  A client writes whole rows with
    FPWRITE and reads columns with FPSCAN; METAKEYS lists the partitions of a table
    that satisfy a filter.  A partition of a table is a sequence of row groups of at
    most [rowgroup_size] rows.  A row group is one key of the keyspace whose value is
    a dictionary of column vectors, each with the values of one column for
    [columnvector_size] rows.  A second dictionary per database, Metadict, holds a
    hash per partition with the number of the last row group and the number of rows
    of each.  When memory runs short, full row groups are taken from an eviction
    queue, marked FLUSH, handed to a background thread that writes them to RocksDB
    in a batch and marks them PERSISTED, and released from a second queue once they
    are.  Scans read each row group from where it is.  Below the layer are the data
    structures of Redis that it stores its contents in (dictionaries, hash objects,
    ziplists) and beside it the commands and services of the same server that meet its
    keys: DEL and FLUSHALL, transactions, cluster slots, compression.

    * The files and the code they model (under src/src/)

    - Prelude (this file): outcomes of C code, machine integers, byte strings, the
      tactics and lemmas that all files share.
    - CString: the C library functions on strings that the sources call.
    - Util, Glob: util.c (numbers and text; stringmatchlen).
    - Sds, Args: sds.c (formatting, splitting, joining; trimming, quoting, argument
      lines).
    - Vector: stl.c (Vector and Stack).  Queue: circular_queue.c, with the heap of
      dictionary entries that the queues point to.
    - Keys: the textual keys of addb_relational.c.  Serialize: the stored form of a
      column vector, stl.c and the scan iterator of addb_relational.c.
    - Filter: the partition filters of addb_relational.c (parser, evaluation,
      release).  FilterSpec: their meaning, and that Filter computes it.
    - Dict: the two tables of dict.c with their chains, incremental rehashing, growing
      and shrinking, safe iterators.  DictSpec, DictOps: they implement a finite map.
      DictScan: dictScan and its cursor.  DictRandom: random entries and samples.
    - Ziplist: ziplist.c on the bytes of the list.  ZiplistSpec: their layout.
      ZiplistOps: they implement a list of entries.  Intset: intset.c on its packed
      array.  Lzf, LzfSpec: lzf_c.c and lzf_d.c.
    - Hash: the hash objects of t_hash.c as Metadict uses them, on entries, with the
      string encodings of object.c.  HashObj: the same functions on the bytes of a
      ziplist and on the tables of a dictionary.  Meta: the counters in Metadict.
    - Cluster: crc16.c and keyHashSlot of cluster.c.
    - Db: the keyspace (db.c, lazyfree.c), the state of the server, and RocksDB as a
      class of operations with their laws.  Config: the settings (config.c,
      server.c).
    - Write: FPWRITE (addb_table.c).  Scan: FPSCAN (addb_table.c,
      addb_relational.c).  Tiering: eviction, the background jobs, freeMemoryIfNeeded,
      emptyDb (evict.c, bio.c, lazyfree.c, db.c).  Commands: METAKEYS and the commands
      that inspect the queues and row groups (addb_table.c).
    - Table, Invariant: the contents of a table independent of where they are, and
      the invariant that ties the state to them.  WriteSpec, ScanSpec, TieringSpec,
      PersistSpec: each operation against the invariant.
    - System: the server as a sequence of operations, against an abstract server
      that is a map from tables to rows.  FreeMemory: what eviction achieves.
      Keyspace: DEL, UNLINK, EXISTS, FLUSHDB, FLUSHALL (db.c) and what they do to the
      queues.  Multi: transactions (multi.c, processCommand of server.c), for any
      commands, given as a class [DataModel].  MultiSpec: against a specification
      without flag words and watcher lists.  Faults: where the code fails.

    * How C is represented

    An [int] is a [Z] with its wrap-around written out ([to_int], [to_size_t]).  A C
    string is a list of bytes; [cstr] cuts it at NUL.  A function that may stop the
    process returns [res]: [Ok], or [Fault] with the reason, undefined behaviour
    included.  State is passed explicitly.  Dictionary entries live in a heap and are
    shared by address between the dictionary, the queues and the jobs, so an entry
    that was released and is still queued is represented as such.  The two steps of a
    background job (write, mark) are separate steps that may interleave with the main
    thread.  In the layer a dictionary is a finite map, which is what DictOps shows the
    tables to implement; a walk over it has the order of [map_to_list].  Ziplists, integer
    sets and the buffers of the compressor are lists of byte values with offsets for
    pointers, and an access outside is the fault [OutOfBounds]; bytes and table slots
    that are not initialised are parameters.

    * What the theorems show

    - The whole layer: [System.server_refines_tables] and [System.server_invariant].
      For every interleaving of client commands, eviction, background steps, queue
      commands and clock ticks the answers are those of the abstract server.
    - Memory: which entries an eviction takes, which entry a round releases, that
      freeMemoryIfNeeded returns when the queues hold enough and the background thread
      gets its turn, and that it never returns when the queues are empty and the rest
      of the data takes too much ([FreeMemory]).
    - Commands: METAKEYS by pattern and by filter ([Commands]), refused writes and
      the inputs on which the code faults ([Faults]), and which configurations, with
      the files they include, set the sizes that the layer needs ([Config]).
    - Components as abstract data: Vector as a list, Stack, the circular queue as a
      first-in first-out queue while it is not full, the row counters; a dictionary as a
      finite map for every hash function and wherever rehashing happens
      ([DictOps.dict_refines_map]), a ziplist as a list ([ZiplistOps]), a hash object as a
      finite map across its conversion ([HashObj], [Hash]), an integer set as a finite set
      ([Intset]).  dictScan passes on every key that stays, and when it does not
      ([DictScan]).
    - Other services: transactions as their specification, and what WATCH promises
      ([MultiSpec]); compression and decompression as inverses inside their buffers
      ([LzfSpec]); crc16 as the bit-by-bit code, and one slot for the keys of a partition
      ([Cluster]); deletions and flushes, what they leave in the queues, and the
      race of an asynchronous flush with the lazy-free thread ([Keyspace]).
    - Texts: round trips of keys, of stored column vectors, of integers, of quoted
      arguments; equivalence of the glob matcher and of the filter evaluator with
      their reference semantics; the exact language of integers and dates; bounds of
      the key buffers; termination of the parsers.

    * Assumptions

    RocksDB is a parameter: class [RocksDB] with [RocksDBLaws] (a get after a batch
    returns the last value the batch puts, other keys keep theirs), and in the
    theorems on the whole layer the hypothesis that it reports no write error; finite
    maps are an instance.  The commands of these theorems are well formed: whole rows
    of values without the bytes that the stored form uses as delimiters, keys that
    fit the 128-byte parse buffer, at most 100 columns, and fewer than 2^29 writes,
    half of what the queues can hold.  The excluded cases are the ones of [Faults].
    The memory that the allocator reports and the schedule of the background thread are
    parameters of freeMemoryIfNeeded; the thread runs between two rounds of its loop.  What
    the lazy-free thread has released when emptyDb reads the queues is a parameter of
    emptyDb.  The directives of a configuration file other than those of the layer are a
    parameter of Config, and so are the files.  Why processCommand refuses a command is
    given with the command in Multi.  A
    dictionary of DictOps holds fewer than 2^29 entries and an integer set of Intset fewer
    than 2^28, so that the products with their element sizes do not overflow; a ziplist
    stays below 4 GB, the range of its header, and so does the input of the compressor.

    * Fuel

    Loops without a structural measure take fuel, and [Fault OutOfFuel] marks that it
    ran out; theorems that claim a result exclude it.  String loops get the length of
    their input (each round consumes a byte), number formatting 20 rounds (the digits
    of a 64-bit number), the loop over the eviction queue its capacity.  The loop of
    freeMemoryIfNeeded takes its fuel as an argument: [freeMemoryIfNeeded_returns]
    gives a bound, [freeMemoryIfNeeded_spins] holds for every amount.  The fuel of
    loadServerConfig is the depth of nested includes.  The loops of dict.c
    get the sizes of the tables, those of ziplist.c and the decompressor the length of the
    buffer, the compressor the length of its input (each round consumes a byte), the
    binary search of intset.c the number of elements.

    * Not modelled

    persistent_store.c and RocksDB itself (a library); the hash functions of dict.c (the
    theorems hold for every one), its unsafe iterators with their fingerprint and its
    statistics; the headers of sds.c; the older read path _cachedScanOnRocksDB and
    functions without a caller (checkQueueFordeQueue, dbPersistOrClear, dbPersist_,
    getCandidatedictEntry); the LRU and LFU estimates; the HSET family of commands and
    the other Redis commands and data types (strings, lists, sets, sorted sets,
    quicklist.c, rax.c, HyperLogLog, geo, scripting, modules) that do not touch the
    relational layer; networking, replication, the cluster bus, sentinel, rdb and aof,
    which are input and output. *)

From Stdlib Require Export ZArith Lia Ascii.
From stdpp Require Export base tactics numbers option list gmap strings.

#[global] Open Scope Z_scope.

(** * Outcomes of C code

    A C function either returns or stops the process.  [Fault] records why it
    stops: a failed [assert]/[serverAssert], a [serverPanic], a division by
    zero, or an access that C leaves undefined (dereferencing NULL, reading or
    writing outside an object, reading an object that was never written or was
    already released, using a [void *] as a pointer to another type than
    it is).  [OutOfFuel] is never produced by the C code: it marks a loop whose fuel
    ran out, and every theorem that claims a result excludes it. *)

Inductive fault :=
| AssertFail
| Panic
| NullDeref
| OutOfBounds
| Uninitialised
| UseAfterFree
| DivByZero
| BadCast
| OutOfFuel.

#[export] Instance fault_eq_dec : EqDecision fault.
Proof. solve_decision. Defined.

Inductive res (A : Type) :=
| Ok (a : A)
| Fault (f : fault).
Arguments Ok {A} a.
Arguments Fault {A} f.

#[export] Instance res_eq_dec `{EqDecision A} : EqDecision (res A).
Proof. solve_decision. Defined.

#[export] Instance res_ret : MRet res := fun A a => Ok a.
#[export] Instance res_bind : MBind res := fun A B f m =>
  match m with Ok a => f a | Fault e => Fault e end.
#[export] Instance res_fmap : FMap res := fun A B f m =>
  match m with Ok a => Ok (f a) | Fault e => Fault e end.

(** The status codes [C_OK] and [C_ERR] of server.h. *)
Inductive rc := C_OK | C_ERR.
#[export] Instance rc_eq_dec : EqDecision rc.
Proof. solve_decision. Defined.

(** [assert(b)], [serverAssert(b)]. *)
Definition assert (b : bool) : res unit := if b then Ok tt else Fault AssertFail.

(** Dereference of a pointer that may be NULL. *)
Definition deref {A} (p : option A) : res A :=
  match p with Some a => Ok a | None => Fault NullDeref end.

(** Read of slot [i] of an array of known extent. *)
Definition at_index {A} (l : list A) (i : nat) : res A :=
  match l !! i with Some a => Ok a | None => Fault OutOfBounds end.

Lemma Ok_inj {A} (a b : A) : Ok a = Ok b → a = b.
Proof. congruence. Qed.

Lemma bind_Ok {A B} (m : res A) (f : A → res B) b :
  m ≫= f = Ok b ↔ ∃ a, m = Ok a ∧ f a = Ok b.
Proof.
  destruct m as [x|e]; simpl; split.
  - intros E. by exists x.
  - by intros (y & [= ->] & E).
  - done.
  - by intros (y & ? & ?).
Qed.

Lemma bind_Ok_l {A B} (a : A) (f : A → res B) : Ok a ≫= f = f a.
Proof. done. Qed.

(** Run the next bind of a computation whose first part is known. *)
Ltac res_step := rewrite bind_Ok_l; cbv beta iota.

Lemma assert_Ok b u : assert b = Ok u ↔ b = true.
Proof. destruct b, u; simpl; naive_solver. Qed.

Lemma deref_Ok {A} (p : option A) a : deref p = Ok a ↔ p = Some a.
Proof. destruct p; simpl; naive_solver. Qed.

Lemma at_index_Ok {A} (l : list A) i a : at_index l i = Ok a ↔ l !! i = Some a.
Proof. unfold at_index. case_match; naive_solver. Qed.

(** Break every [Ok] equation about the monad into its parts. *)
Ltac res_inv :=
  repeat match goal with
  | H : mbind _ _ = Ok _ |- _ => apply bind_Ok in H as (? & ? & ?)
  | H : assert _ = Ok _ |- _ => apply assert_Ok in H
  | H : deref _ = Ok _ |- _ => apply deref_Ok in H
  | H : at_index _ _ = Ok _ |- _ => apply at_index_Ok in H
  | H : mret _ = Ok _ |- _ => cbv [mret res_ret] in H
  | H : Ok _ = Ok _ |- _ => injection H as H
  | H : Fault _ = Ok _ |- _ => discriminate H
  end; simplify_eq/=.

(** * Bytes and byte strings *)

Abbreviation bytes := (list ascii).

(** The bytes of a C string literal (without its terminating NUL). *)
Definition lit (s : string) : bytes := String.list_ascii_of_string s.

Definition NUL : ascii := Ascii.zero.

(** A byte as [unsigned char] and as (signed) [char]. *)
Definition code (c : ascii) : Z := Z.of_N (N_of_ascii c).
Definition schar (c : ascii) : Z := if code c <? 128 then code c else code c - 256.
Definition chr (z : Z) : ascii := ascii_of_N (Z.to_N z).

Lemma code_range c : 0 ≤ code c < 256.
Proof.
  unfold code. pose proof (N_ascii_bounded c). lia.
Qed.

Lemma chr_code c : chr (code c) = c.
Proof. unfold chr, code. rewrite N2Z.id. apply ascii_N_embedding. Qed.

Lemma code_chr z : 0 ≤ z < 256 → code (chr z) = z.
Proof.
  intros H. unfold chr, code. rewrite N_ascii_embedding by lia.
  apply Z2N.id. lia.
Qed.

Lemma code_inj c d : code c = code d → c = d.
Proof. intros H. by rewrite <- (chr_code c), <- (chr_code d), H. Qed.

(** The C string held in a buffer: everything before the first NUL. *)
Fixpoint cstr (s : bytes) : bytes :=
  match s with
  | [] => []
  | c :: s' => if decide (c = NUL) then [] else c :: cstr s'
  end.

(** A byte string that C can hold as a string: no NUL inside. *)
Definition nonul (s : bytes) : Prop := NUL ∉ s.

#[export] Instance nonul_dec s : Decision (nonul s).
Proof. unfold nonul. apply _. Defined.

Lemma cstr_nonul s : nonul s → cstr s = s.
Proof.
  unfold nonul. induction s as [|c s IH]; simpl; [done|].
  intros [? ?]%not_elem_of_cons. rewrite decide_False by done. by rewrite IH.
Qed.

Lemma cstr_app s t : nonul s → cstr (s ++ t) = s ++ cstr t.
Proof.
  unfold nonul. induction s as [|c s IH]; simpl; [done|].
  intros [? ?]%not_elem_of_cons. rewrite decide_False by done. by rewrite IH.
Qed.

Lemma cstr_app_nul s t : nonul s → cstr (s ++ NUL :: t) = s.
Proof.
  unfold nonul. induction s as [|c s IH]; simpl; [done|].
  intros [? ?]%not_elem_of_cons. rewrite decide_False by done. by rewrite IH.
Qed.

Lemma nonul_app s t : nonul (s ++ t) ↔ nonul s ∧ nonul t.
Proof. unfold nonul. rewrite elem_of_app. tauto. Qed.

Lemma nonul_cons c s : nonul (c :: s) ↔ c ≠ NUL ∧ nonul s.
Proof. unfold nonul. rewrite not_elem_of_cons. split; intros [? ?]; split; congruence. Qed.

(** * C integers *)

Definition INT_MAX : Z := 2147483647.
Definition INT_MIN : Z := -2147483648.
Definition LLONG_MAX : Z := 9223372036854775807.
Definition LLONG_MIN : Z := -9223372036854775808.
Definition ULLONG_MAX : Z := 18446744073709551615.
Definition SIZE_MAX : Z := ULLONG_MAX.

(** Conversion to an unsigned or two's-complement type of [w] bits. *)
Definition to_unsigned (w z : Z) : Z := z mod 2 ^ w.
Definition to_signed (w z : Z) : Z :=
  let r := z mod 2 ^ w in if r <? 2 ^ (w - 1) then r else r - 2 ^ w.

Definition to_int : Z → Z := to_signed 32.
Definition to_size_t : Z → Z := to_unsigned 64.

(** Bits that do not overlap add up. *)
Lemma lor_add k x y : 0 ≤ k → 0 ≤ y < 2 ^ k → Z.lor (x * 2 ^ k) y = x * 2 ^ k + y.
Proof.
  intros Hk Hy. rewrite Z.add_nocarry_lor; [done|]. apply Z.bits_inj'. intros i Hi. rewrite Z.land_spec, Z.bits_0.
  destruct (Z.lt_ge_cases i k); [by rewrite Z.mul_pow2_bits_low|].
  rewrite <- (Z.mod_small y (2 ^ k)), Z.mod_pow2_bits_high, andb_false_r by lia. done.
Qed.

Lemma to_signed_id w z : 0 < w → - 2 ^ (w - 1) ≤ z < 2 ^ (w - 1) → to_signed w z = z.
Proof.
  intros Hw Hz. unfold to_signed. assert (2 ^ w = 2 * 2 ^ (w - 1)) as E by (rewrite <- Z.pow_succ_r by lia; f_equal; lia).
  destruct (decide (0 ≤ z)).
  - rewrite Z.mod_small by lia. case_match; lia.
  - rewrite <- (Z_mod_plus_full z 1), Z.mod_small by lia. case_match; lia.
Qed.

Lemma to_int_id z : INT_MIN ≤ z ≤ INT_MAX → to_int z = z.
Proof.
  unfold to_int, to_signed, INT_MIN, INT_MAX. intros H.
  change (2 ^ 32) with 4294967296. change (2 ^ (32 - 1)) with 2147483648.
  destruct (decide (0 ≤ z)).
  - rewrite Z.mod_small by lia. case_match; lia.
  - rewrite <- (Z_mod_plus_full z 1). rewrite Z.mod_small by lia. case_match; lia.
Qed.

Lemma to_int_range z : INT_MIN ≤ to_int z ≤ INT_MAX.
Proof.
  unfold to_int, to_signed, INT_MIN, INT_MAX.
  change (2 ^ 32) with 4294967296. change (2 ^ (32 - 1)) with 2147483648.
  pose proof (Z.mod_pos_bound z 4294967296). case_match; lia.
Qed.

Lemma to_size_t_id z : 0 ≤ z ≤ SIZE_MAX → to_size_t z = z.
Proof.
  unfold to_size_t, to_unsigned, SIZE_MAX, ULLONG_MAX. intros H.
  change (2 ^ 64) with 18446744073709551616. apply Z.mod_small. lia.
Qed.

(** * Lists *)

Section lists.
  Context {A : Type}.
  Implicit Types (l k : list A) (P : A → Prop).

  (** Longest prefix whose elements satisfy [P], and the rest. *)
Fixpoint span P `{∀ x, Decision (P x)} (l : list A) : list A * list A :=
    match l with
    | [] => ([], [])
    | x :: l' => if decide (P x) then let '(a, b) := span P l' in (x :: a, b) else ([], l)
    end.

Lemma span_app P `{∀ x, Decision (P x)} l : (span P l).1 ++ (span P l).2 = l.
  Proof.
    induction l as [|x l IH]; simpl; [done|]. case_decide; [|done].
    destruct (span P l). simpl in *. by rewrite IH.
  Qed.

Lemma span_all P `{∀ x, Decision (P x)} l k :
    Forall P l → span P (l ++ k) = (l ++ (span P k).1, (span P k).2).
  Proof.
    induction 1 as [|x l ? ? IH]; simpl; [by destruct (span P k)|].
    rewrite decide_True by done. by rewrite IH.
  Qed.

Lemma span_stop P `{∀ x, Decision (P x)} l x k :
    Forall P l → ¬ P x → span P (l ++ x :: k) = (l, x :: k).
  Proof.
    intros. rewrite span_all by done. simpl. rewrite decide_False by done.
    simpl. by rewrite app_nil_r.
  Qed.

Lemma span_full P `{∀ x, Decision (P x)} l : Forall P l → span P l = (l, []).
  Proof.
    intros. pose proof (span_all P l [] H0) as E. rewrite !app_nil_r in E. exact E.
  Qed.
End lists.

Lemma Forall_not_elem {A} (x : A) l : x ∉ l ↔ Forall (.≠ x) l.
Proof. rewrite Forall_forall. set_solver. Qed.

(** A separator that occurs in neither prefix splits a text in one way only. *)
Lemma app_sep_inj {A} (c : A) a b r r' :
  c ∉ a → c ∉ b → a ++ c :: r = b ++ c :: r' → a = b ∧ r = r'.
Proof.
  revert b. induction a as [|x a IH]; intros [|y b] Ha Hb E; simpl in *; simplify_eq.
  - done.
  - set_solver.
  - set_solver.
  - destruct (IH b) as [-> ->]; [set_solver|set_solver|done|done].
Qed.

Lemma not_elem_of_rev {A} (c : A) l : c ∉ l → c ∉ rev l.
Proof. by rewrite (list_elem_of_In (rev l)), <- in_rev, <- list_elem_of_In. Qed.

Lemma app_sep_inj_r {A} (c : A) a b a' b' :
  c ∉ b → c ∉ b' → a ++ c :: b = a' ++ c :: b' → a = a' ∧ b = b'.
Proof.
  intros Hb Hb' E. apply (f_equal (@rev _)) in E. rewrite !rev_app_distr in E. cbn [rev] in E.
  rewrite <- !app_assoc in E. cbn [app] in E.
  apply (app_sep_inj c) in E as [Eb Ea]; [|by apply not_elem_of_rev..].
  split; [rewrite <- (rev_involutive a), Ea|rewrite <- (rev_involutive b), Eb]; apply rev_involutive.
Qed.

Lemma lookup_app_mid {A} (l k : list A) x : (l ++ x :: k) !! length l = Some x.
Proof. by rewrite list_lookup_middle. Qed.

Lemma Forall2_snoc {A B} (P : A → B → Prop) l k x y :
  Forall2 P (l ++ [x]) (k ++ [y]) ↔ Forall2 P l k ∧ P x y.
Proof.
  split.
  - intros HF. pose proof (Forall2_length _ _ _ HF) as Hl. rewrite !length_app in Hl. simpl in Hl.
    apply Forall2_app_inv in HF as [? Hxy]; [|lia]. split; [done|]. by inversion Hxy.
  - intros [? ?]. apply Forall2_app; [done|]. by constructor.
Qed.

(** Distinct addresses below a bound are fewer than the bound. *)
Lemma nodup_pos_length (l : list positive) (n : positive) :
  NoDup l → Forall (fun a => (a < n)%positive) l → Z.of_nat (length l) < Z.pos n.
Proof.
  intros Hnd Hl.
  assert (H : (length (map Pos.to_nat l) ≤ length (seq 1 (Pos.to_nat n - 1)))%nat).
  { apply submseteq_length, NoDup_submseteq; [by apply (NoDup_fmap_2 _)|].
    intros k (a & -> & Ha)%list_elem_of_fmap. rewrite Forall_forall in Hl. specialize (Hl a Ha).
    apply elem_of_seq. lia. }
  rewrite length_map, length_seq in H. lia.
Qed.

(** * Automation *)

(** Decide the integer comparisons of a boolean goal, then arithmetic. *)
Ltac blia :=
  rewrite ?Z.geb_leb, ?Z.gtb_ltb;
  repeat match goal with
  | |- context [?a <? ?b] => destruct (Z.ltb_spec a b)
  | |- context [?a <=? ?b] => destruct (Z.leb_spec a b)
  | |- context [?a =? ?b] => destruct (Z.eqb_spec a b)
  | |- context [(?a <? ?b)%nat] => destruct (Nat.ltb_spec a b)
  | |- context [(?a <=? ?b)%nat] => destruct (Nat.leb_spec a b)
  | |- context [(?a =? ?b)%nat] => destruct (Nat.eqb_spec a b)
  end; simpl; try done; try lia.

Create HintDb addb discriminated.
#[export] Hint Resolve code_range to_int_range : addb.
