(* ===== verification/CString.v ===== *)
(** The C library functions on strings that the sources call: [strtok_r],
    [strcmp]/[strcasecmp], [memcmp], [atoi] and the [%d]/[%llu] conversions of
    [sprintf], with the facts about decimal numerals that the key, filter and
    serialization files rely on. *)

From S2P Require Import Prelude.

(** * strcmp, strcasecmp, memcmp *)

(** [strcmp(a, b) == 0] on NUL-terminated buffers. *)
Definition strcmp_eq (a b : bytes) : bool := bool_decide (cstr a = cstr b).

(** [tolower] in the C locale. *)
Definition tolower (c : ascii) : ascii :=
  if (65 <=? code c) && (code c <=? 90) then chr (code c + 32) else c.

(** [strcasecmp(a, b) == 0]. *)
Definition strcasecmp_eq (a b : bytes) : bool :=
  bool_decide (map tolower (cstr a) = map tolower (cstr b)).

(** The sign of [memcmp(a, b, n)] when both objects hold at least [n] bytes. *)
Fixpoint memcmp (a b : bytes) (n : nat) : Z :=
  match n, a, b with
  | S n', c :: a', d :: b' =>
      if code c =? code d then memcmp a' b' n' else code c - code d
  | _, _, _ => 0
  end.

(** * strtok_r *)

(** One call of [strtok_r] on the string that starts at the current position:
    the token (or NULL) and the new [*saveptr].  Bytes of [delim] are skipped,
    the token runs to the next byte of [delim], and that byte is consumed. *)
Definition strtok_r (s delim : bytes) : option bytes * bytes :=
  let '(_, s1) := span (.∈ delim) s in
  match s1 with
  | [] => (None, [])
  | _ =>
      let '(tok, s2) := span (.∉ delim) s1 in
      (Some tok, match s2 with [] => [] | _ :: s3 => s3 end)
  end.

Lemma strtok_r_skip d delim s : d ∈ delim → strtok_r (d :: s) delim = strtok_r s delim.
Proof.
  intros Hd. unfold strtok_r. simpl. rewrite decide_True by done.
  by destruct (span _ s).
Qed.

Lemma strtok_r_token tok d rest delim :
  tok ≠ [] → Forall (.∉ delim) tok → d ∈ delim →
  strtok_r (tok ++ d :: rest) delim = (Some tok, rest).
Proof.
  intros Hne Htok Hd. unfold strtok_r. destruct tok as [|c tok]; [done|].
  inversion Htok as [|? ? Hc Htok']; subst.
  change ((c :: tok) ++ d :: rest) with (c :: (tok ++ d :: rest)).
  cbn [span]. rewrite (decide_False _ _ Hc).
  change (c :: (tok ++ d :: rest)) with ((c :: tok) ++ d :: rest).
  rewrite span_stop; [done|done|]. simpl. tauto.
Qed.

Lemma strtok_r_last tok delim :
  tok ≠ [] → Forall (.∉ delim) tok → strtok_r tok delim = (Some tok, []).
Proof.
  intros Hne Htok. unfold strtok_r. destruct tok as [|c tok]; [done|].
  inversion Htok; subst. cbn [span]. rewrite decide_False by done.
  by rewrite (span_full (.∉ delim) (c :: tok)).
Qed.

Lemma strtok_r_nil delim : strtok_r [] delim = (None, []).
Proof. done. Qed.

(** A token is never empty and holds no delimiter, and each call consumes at
    least the token. *)
Lemma strtok_r_some s delim tok rest :
  strtok_r s delim = (Some tok, rest) →
  tok ≠ [] ∧ Forall (.∉ delim) tok ∧ (length tok + length rest ≤ length s)%nat.
Proof.
  unfold strtok_r. destruct (span (.∈ delim) s) as [a s1] eqn:E1.
  pose proof (span_app (.∈ delim) s) as A1. rewrite E1 in A1. simpl in A1.
  assert (Hs1 : match s1 with [] => True | c :: _ => c ∉ delim end).
  { clear A1. revert a s1 E1. induction s as [|c s IH]; simpl; intros a s1.
    - intros [= <- <-]. done.
    - case_decide.
      + destruct (span _ s) as [a' b'] eqn:E. intros [= <- <-]. by eapply IH.
      + intros [= <- <-]. done. }
  destruct s1 as [|c s1]; [done|].
  destruct (span (.∉ delim) (c :: s1)) as [tk s2] eqn:E2.
  pose proof (span_app (.∉ delim) (c :: s1)) as A2. rewrite E2 in A2. simpl in A2.
  intros [= <- <-].
  assert (Htk : Forall (.∉ delim) tk).
  { clear -E2. revert tk s2 E2. induction (c :: s1) as [|d l IH]; intros tk s2; cbn [span].
    - intros [= <- <-]. done.
    - case_decide.
      + destruct (span _ l) eqn:E. intros [= <- <-]. constructor; [done|]. by eapply IH.
      + intros [= <- <-]. done. }
  split_and!.
  - intros ->. cbn [span] in E2. rewrite (decide_True _ _ Hs1) in E2.
    by destruct (span _ s1).
  - done.
  - apply (f_equal length) in A1, A2. rewrite length_app in A1, A2. simpl in *.
    destruct s2; simpl in *; lia.
Qed.

Lemma span_incl {A} (P : A → Prop) `{∀ x, Decision (P x)} l x :
  x ∈ (span P l).1 ∨ x ∈ (span P l).2 → x ∈ l.
Proof. intros Hx. rewrite <- (span_app P l). by apply elem_of_app. Qed.

(** Token and rest are made of bytes of the string, and the rest is shorter. *)
Lemma strtok_r_incl s delim tok rest :
  strtok_r s delim = (tok, rest) →
  (length rest ≤ length s)%nat ∧ (∀ c, c ∈ rest → c ∈ s) ∧ (∀ t c, tok = Some t → c ∈ t → c ∈ s).
Proof.
  unfold strtok_r. pose proof (span_incl (.∈ delim) s) as H1. pose proof (span_app (.∈ delim) s) as A1.
  destruct (span (.∈ delim) s) as [a s1]. simpl in H1, A1. apply (f_equal length) in A1.
  rewrite length_app in A1.
  destruct s1 as [|d s1]; [intros [= <- <-]; simpl in *; split_and!; [lia|set_solver|done]|].
  pose proof (span_incl (.∉ delim) (d :: s1)) as H2. pose proof (span_app (.∉ delim) (d :: s1)) as A2.
  destruct (span (.∉ delim) (d :: s1)) as [tk s2]. simpl in H2, A2. apply (f_equal length) in A2.
  rewrite length_app in A2. simpl in A2. intros [= <- <-].
  assert (Hin : ∀ c, c ∈ tk ∨ c ∈ s2 → c ∈ s) by (intros c Hc; apply H1; right; by apply H2).
  split_and!.
  - destruct s2; simpl in *; lia.
  - intros c Hc. apply Hin. right. destruct s2; [set_solver|by right].
  - intros t c [= ->] Hc. apply Hin. by left.
Qed.

(** * Decimal numerals *)

Definition is_digit (c : ascii) : bool := (48 <=? code c) && (code c <=? 57).
Definition digit (d : Z) : ascii := chr (48 + d).
Definition digit_val (c : ascii) : Z := code c - 48.

(** [%llu]: the decimal digits of [n], most significant first.  A decimal digit
    consumes more than one bit, so [log2 n] bounds the number of rounds. *)
Fixpoint u2s_aux (fuel : nat) (n : Z) : bytes :=
  match fuel with
  | O => []
  | S f => if n <? 10 then [digit n] else u2s_aux f (n / 10) ++ [digit (n mod 10)]
  end.
Definition u2s (n : Z) : bytes := u2s_aux (S (Z.to_nat (Z.log2 n))) n.

(** [%d]. *)
Definition d2s (z : Z) : bytes := if z <? 0 then "-"%char :: u2s (- z) else u2s z.

(** The value a digit string denotes. *)
Definition dval (s : bytes) : Z := fold_left (fun a c => 10 * a + digit_val c) s 0.

Lemma is_digit_digit d : 0 ≤ d < 10 → is_digit (digit d) = true.
Proof. intros. unfold is_digit, digit. rewrite code_chr by lia. lia. Qed.

Lemma digit_val_digit d : 0 ≤ d < 10 → digit_val (digit d) = d.
Proof. intros. unfold digit_val, digit. rewrite code_chr by lia. lia. Qed.

Lemma digit_digit_val c : is_digit c = true → digit (digit_val c) = c.
Proof.
  unfold is_digit, digit, digit_val. intros. rewrite <- (chr_code c) at 2. f_equal. lia.
Qed.

Lemma digit_val_range c : is_digit c = true → 0 ≤ digit_val c < 10.
Proof. unfold is_digit, digit_val. lia. Qed.

Lemma dval_snoc s c : dval (s ++ [c]) = 10 * dval s + digit_val c.
Proof. unfold dval. by rewrite fold_left_app. Qed.

Lemma u2s_fuel_enough n f :
  0 ≤ n → n < 2 ^ Z.of_nat f → u2s_aux (S f) n = u2s_aux f n ∨ f = O.
Proof.
  intros Hn. revert n Hn. induction f as [|f IH]; intros n Hn Hlt; [by right|left].
  cbn [u2s_aux]. destruct (n <? 10) eqn:E; [done|].
  destruct (IH (n / 10)) as [IH'| ->].
  - apply Z.div_pos; lia.
  - rewrite Nat2Z.inj_succ, Z.pow_succ_r in Hlt by lia.
    apply Z.div_lt_upper_bound; lia.
  - by rewrite <- IH'.
  - simpl in Hlt. lia.
Qed.

Lemma u2s_aux_mono n f g :
  0 ≤ n → n < 2 ^ Z.of_nat f → (0 < f ≤ g)%nat → u2s_aux g n = u2s_aux f n.
Proof.
  intros Hn Hlt Hg. induction g as [|g IH]; [lia|].
  destruct (decide (f = S g)) as [->|]; [done|].
  rewrite <- IH by lia. destruct (u2s_fuel_enough n g Hn) as [E| ->]; [|done|lia].
  eapply Z.lt_le_trans; [done|]. apply Z.pow_le_mono_r; lia.
Qed.

Lemma u2s_eq n :
  0 ≤ n → u2s n = if n <? 10 then [digit n] else u2s (n / 10) ++ [digit (n mod 10)].
Proof.
  intros Hn. unfold u2s at 1. cbn [u2s_aux]. destruct (n <? 10) eqn:E; [done|]. f_equal.
  unfold u2s. assert (H10 : 0 < n / 10) by (apply Z.div_str_pos; lia).
  symmetry. assert (Hl : Z.log2 (n / 10) < Z.log2 n).
  { apply Z.log2_lt_pow2; [lia|]. apply Z.div_lt_upper_bound; [lia|].
    pose proof (Z.log2_spec n ltac:(lia)) as [_ H]. rewrite Z.pow_succ_r in H by apply Z.log2_nonneg.
    lia. }
  pose proof (Z.log2_nonneg (n / 10)).
  symmetry. apply u2s_aux_mono; [lia| |lia].
  rewrite Nat2Z.inj_succ, Z2Nat.id by lia. apply Z.log2_spec. lia.
Qed.

(** Induction over the decimal representation. *)
Lemma decimal_ind (P : Z → Prop) :
  (∀ n, 0 ≤ n < 10 → P n) → (∀ n, 10 ≤ n → P (n / 10) → P n) → ∀ n, 0 ≤ n → P n.
Proof.
  intros Hb Hs n Hn.
  apply (Z_lt_induction (fun n => 0 ≤ n → P n)) with (x := n); [|done..].
  clear n Hn. intros n IH Hn. destruct (decide (n < 10)); [apply Hb; lia|].
  apply Hs; [lia|]. apply IH; [|apply Z.div_pos; lia]. split; [apply Z.div_pos; lia|].
  apply Z.div_lt; lia.
Qed.

Lemma dval_u2s n : 0 ≤ n → dval (u2s n) = n.
Proof.
  revert n. apply (decimal_ind (fun n => dval (u2s n) = n)); intros n Hn.
  - rewrite u2s_eq by lia. replace (n <? 10) with true by lia.
    unfold dval. simpl. rewrite digit_val_digit by lia. lia.
  - intros IH. rewrite u2s_eq by lia. replace (n <? 10) with false by lia.
    rewrite dval_snoc, IH, digit_val_digit by (apply Z.mod_pos_bound; lia).
    pose proof (Z.div_mod n 10). lia.
Qed.

Lemma u2s_digits n : 0 ≤ n → Forall (fun c => is_digit c = true) (u2s n).
Proof.
  revert n. apply (decimal_ind (fun n => Forall _ (u2s n))); intros n Hn.
  - rewrite u2s_eq by lia. replace (n <? 10) with true by lia.
    repeat constructor. apply is_digit_digit. lia.
  - intros IH. rewrite u2s_eq by lia. replace (n <? 10) with false by lia.
    apply Forall_app; split; [done|]. repeat constructor.
    apply is_digit_digit, Z.mod_pos_bound. lia.
Qed.

Lemma u2s_nonempty n : 0 ≤ n → u2s n ≠ [].
Proof.
  intros. rewrite u2s_eq by lia. case_match; [done|]. by destruct (u2s (n / 10)).
Qed.

Lemma u2s_inj m n : 0 ≤ m → 0 ≤ n → u2s m = u2s n → m = n.
Proof. intros Hm Hn E. by rewrite <- (dval_u2s m), E, dval_u2s. Qed.

(** The leading digit of a number with more than one digit is not zero. *)
Lemma u2s_head n : 0 < n → ∃ d s, u2s n = digit d :: s ∧ 1 ≤ d < 10.
Proof.
  intros Hn. assert (H0 : 0 ≤ n) by lia. revert Hn. revert H0. revert n.
  apply (decimal_ind (fun n => 0 < n → ∃ d s, u2s n = digit d :: s ∧ 1 ≤ d < 10)).
  - intros n ? ?. rewrite u2s_eq by lia. replace (n <? 10) with true by lia.
    exists n, []. split; [done|lia].
  - intros n Hn IH _. destruct IH as (d & s & E & ?); [apply Z.div_str_pos; lia|].
    rewrite u2s_eq by lia. replace (n <? 10) with false by lia. rewrite E.
    eexists d, _. split; [done|lia].
Qed.

(** * atoi *)

Definition is_space (c : ascii) : bool := (code c =? 32) || ((9 <=? code c) && (code c <=? 13)).

(** glibc's [atoi]: [strtol] in base 10 (white space, sign, digits, saturating at
    the bounds of [long]) converted to [int]. *)
Definition clamp_long (z : Z) : Z := Z.max LLONG_MIN (Z.min LLONG_MAX z).
Definition atoi (buf : bytes) : Z :=
  let s := cstr buf in
  let '(_, s1) := span (fun c => is_space c = true) s in
  let '(neg, s2) :=
    match s1 with
    | c :: s' => if decide (c = "-"%char) then (true, s')
                 else if decide (c = "+"%char) then (false, s') else (false, s1)
    | [] => (false, s1)
    end in
  let '(ds, _) := span (fun c => is_digit c = true) s2 in
  to_int (clamp_long (if neg then - dval ds else dval ds)).

(** The bytes of a numeral: digits and a leading minus sign. *)
Definition numeral_byte (c : ascii) : bool := is_digit c || bool_decide (c = "-"%char).

Lemma d2s_numeral z : Forall (fun c => numeral_byte c = true) (d2s z).
Proof.
  assert (H : ∀ n, 0 ≤ n → Forall (fun c => numeral_byte c = true) (u2s n)).
  { intros n Hn. eapply Forall_impl; [by apply u2s_digits|].
    intros c Hc. unfold numeral_byte. by rewrite Hc. }
  unfold d2s. destruct (z <? 0) eqn:E; [constructor; [done|]|]; apply H; lia.
Qed.

Lemma d2s_avoid z (delim : bytes) :
  forallb (fun c => negb (numeral_byte c)) delim = true → Forall (.∉ delim) (d2s z).
Proof.
  intros Hd. eapply Forall_impl; [apply d2s_numeral|]. intros c Hc Hin.
  rewrite forallb_forall in Hd. apply list_elem_of_In in Hin. apply Hd in Hin.
  by rewrite Hc in Hin.
Qed.

Lemma d2s_nonempty z : d2s z ≠ [].
Proof. unfold d2s. destruct (z <? 0) eqn:E; [done|]. apply u2s_nonempty. lia. Qed.

Lemma d2s_nonul z : nonul (d2s z).
Proof.
  unfold nonul. intros Hin. pose proof (d2s_avoid z [NUL] eq_refl) as H.
  rewrite Forall_forall in H. apply (H NUL Hin). set_solver.
Qed.

Lemma d2s_inj y z : d2s y = d2s z → y = z.
Proof.
  assert (Hd : ∀ n, 0 ≤ n → ∀ s, u2s n ≠ "-"%char :: s).
  { intros n Hn s E. pose proof (u2s_digits n Hn) as H. rewrite E in H.
    by inversion H. }
  unfold d2s. destruct (y <? 0) eqn:Ey, (z <? 0) eqn:Ez; intros E.
  - injection E as E. apply u2s_inj in E; lia.
  - symmetry in E. by apply Hd in E; [|lia].
  - by apply Hd in E; [|lia].
  - apply u2s_inj in E; lia.
Qed.

Definition no_digit_head (s : bytes) : Prop :=
  match s with [] => True | c :: _ => is_digit c = false end.

Lemma no_digit_head_cstr s : no_digit_head s → no_digit_head (cstr s).
Proof. destruct s as [|c s]; simpl; [done|]. by case_decide. Qed.

Lemma span_digits ds s :
  Forall (fun c => is_digit c = true) ds → no_digit_head s →
  span (fun c => is_digit c = true) (ds ++ s) = (ds, s).
Proof.
  intros Hds Hs. rewrite span_all by done. destruct s as [|c s]; simpl in *.
  - by rewrite app_nil_r.
  - rewrite decide_False by congruence. simpl. by rewrite app_nil_r.
Qed.

(** [atoi] reads back what [%d] printed, whatever non-digit follows. *)
Lemma atoi_d2s z s :
  INT_MIN ≤ z ≤ INT_MAX → no_digit_head s → atoi (d2s z ++ s) = z.
Proof.
  intros Hz Hs. unfold atoi. rewrite cstr_app by apply d2s_nonul.
  pose proof (no_digit_head_cstr s Hs) as Hs'. revert Hs'. generalize (cstr s). clear s Hs.
  intros s Hs.
  assert (Hc : clamp_long z = z) by (unfold clamp_long, LLONG_MIN, LLONG_MAX, INT_MIN, INT_MAX in *; lia).
  unfold d2s. destruct (z <? 0) eqn:E.
  - cbn [app span]. rewrite decide_False by done. rewrite decide_True by done.
    rewrite span_digits; [|apply u2s_digits; lia|done].
    rewrite dval_u2s by lia. rewrite Z.opp_involutive, Hc. by apply to_int_id.
  - pose proof (u2s_digits z ltac:(lia)) as Hd. pose proof (u2s_nonempty z ltac:(lia)) as Hne.
    pose proof (dval_u2s z ltac:(lia)) as Hv.
    destruct (u2s z) as [|c ds]; [done|]. apply Forall_cons in Hd as Hd'. destruct Hd' as [Hc0 Hd'].
    cbn [app span]. rewrite decide_False; last first.
    { revert Hc0. unfold is_digit, is_space. lia. }
    rewrite decide_False by (intros ->; done). rewrite decide_False by (intros ->; done).
    change (c :: ds ++ s) with ((c :: ds) ++ s). rewrite span_digits by done.
    rewrite Hv, Hc. by apply to_int_id.
Qed.

Lemma atoi_d2s_nil z : INT_MIN ≤ z ≤ INT_MAX → atoi (d2s z) = z.
Proof. intros. rewrite <- (app_nil_r (d2s z)). by apply atoi_d2s. Qed.

#[export] Hint Resolve d2s_nonempty d2s_nonul u2s_nonempty : addb.
