(* ===== verification/Util.v ===== *)
(** src/src/util.c: number/string conversions ([digits10], [sdigits10],
    [ll2string], [string2ll], [string2l]), glob matching ([stringmatchlen],
    [stringmatch]) and the POSIX regular expression that recognises dates. *)

From S2P Require Import Prelude CString.

(** * digits10, sdigits10 *)

(** [uint32_t digits10(uint64_t v)].  One division by 10^12 brings any 64-bit
    value below 10^12, so two rounds are enough. *)
Fixpoint digits10_rounds (rounds : nat) (v : Z) : Z :=
  match rounds with
  | O => 0
  | S r =>
      if v <? 10 then 1
      else if v <? 100 then 2
      else if v <? 1000 then 3
      else if v <? 1000000000000 then
        if v <? 100000000 then
          if v <? 1000000 then
            if v <? 10000 then 4
            else 5 + (if v >=? 100000 then 1 else 0)
          else 7 + (if v >=? 10000000 then 1 else 0)
        else if v <? 10000000000 then
          9 + (if v >=? 1000000000 then 1 else 0)
        else 11 + (if v >=? 100000000000 then 1 else 0)
      else 12 + digits10_rounds r (v / 1000000000000)
  end.
Definition digits10 (v : Z) : Z := digits10_rounds 2 v.

(** [uint32_t sdigits10(int64_t v)]. *)
Definition sdigits10 (v : Z) : Z :=
  if v <? 0 then
    let uv := if v =? LLONG_MIN then LLONG_MAX + 1 else - v in
    digits10 uv + 1
  else digits10 v.

(** * ll2string *)

Definition digits_table : bytes := lit
  "00010203040506070809101112131415161718192021222324252627282930313233343536373839404142434445464748495051525354555657585960616263646566676869707172737475767778798081828384858687888990919293949596979899".

(** A write [dst[i] = c] into a buffer of known extent. *)
Definition put (dst : bytes) (i : Z) (c : ascii) : res bytes :=
  if (0 <=? i) && (i <? Z.of_nat (length dst)) then Ok (<[Z.to_nat i := c]> dst)
  else Fault OutOfBounds.

Definition table_at (i : Z) : res ascii := at_index digits_table (Z.to_nat i).

(** The loop that stores two digits per round, least significant first. *)
Fixpoint ll2string_loop (fuel : nat) (dst : bytes) (next value : Z) : res (bytes * Z * Z) :=
  match fuel with
  | O => Fault OutOfFuel
  | S f =>
      if value >=? 100 then
        let i := (value mod 100) * 2 in
        c1 ← table_at (i + 1);
        dst1 ← put dst next c1;
        c0 ← table_at i;
        dst2 ← put dst1 (next - 1) c0;
        ll2string_loop f dst2 (next - 2) (value / 100)
      else Ok (dst, next, value)
  end.

(** [int ll2string(char *dst, size_t dstlen, long long svalue)]: the returned
    length and the new contents of [dst] ([dstlen] is its extent). *)
Definition ll2string (dst : bytes) (svalue : Z) : res (Z * bytes) :=
  let '(value, negative) :=
    if svalue <? 0 then
      ((if svalue =? LLONG_MIN then LLONG_MAX + 1 else - svalue), 1)
    else (svalue, 0) in
  let length_ := digits10 value + negative in
  if length_ >=? Z.of_nat (length dst) then Ok (0, dst)
  else
    dst ← put dst length_ NUL;
    '(dst, next, value) ← ll2string_loop 10 dst (length_ - 1) value;
    dst ← (if value <? 10 then put dst next (digit value)
           else
             let i := value * 2 in
             c1 ← table_at (i + 1);
             dst ← put dst next c1;
             c0 ← table_at i;
             put dst (next - 1) c0);
    dst ← (if negative =? 1 then put dst 0 "-"%char else Ok dst);
    Ok (length_, dst).

Example ll2string_ex :
  snd <$> ll2string (replicate 12 "x"%char) (-12345) =
    Ok (lit "-12345" ++ [NUL] ++ lit "xxxxx").
Proof. vm_compute. reflexivity. Qed.

(** * string2ll, string2l *)

(** The accumulation loop over the digits after the first one; returns the
    value and the number of bytes that are left. *)
Fixpoint string2ll_loop (p : bytes) (v : Z) : option (Z * nat) :=
  match p with
  | [] => Some (v, 0%nat)
  | c :: p' =>
      if is_digit c then
        if v >? ULLONG_MAX / 10 then None
        else
          let v := v * 10 in
          if v >? ULLONG_MAX - digit_val c then None
          else string2ll_loop p' (v + digit_val c)
      else Some (v, length p)
  end.

(** [int string2ll(const char *s, size_t slen, long long *value)]: [Some value]
    when the C function returns 1. *)
Definition string2ll (s : bytes) : option Z :=
  match s with
  | [] => None
  | c :: s' =>
      if (length s =? 1)%nat && bool_decide (c = "0"%char) then Some 0
      else
        let '(negative, p) :=
          if decide (c = "-"%char) then (true, s') else (false, s) in
        match p with
        | [] => None
        | d :: p' =>
            if (49 <=? code d) && (code d <=? 57) then
              match string2ll_loop p' (digit_val d) with
              | None => None
              | Some (v, unread) =>
                  if (0 <? unread)%nat then None
                  else if negative : bool then
                    if v >? LLONG_MAX + 1 then None
                    else Some (to_signed 64 (to_unsigned 64 (- v)))
                  else if v >? LLONG_MAX then None else Some v
              end
            else if bool_decide (d = "0"%char) && (length s =? 1)%nat then Some 0
            else None
        end
  end.

(** [int string2l(const char *s, size_t slen, long *lval)] ([long] has 64 bits). *)
Definition string2l (s : bytes) : option Z :=
  match string2ll s with
  | None => None
  | Some llval => if (llval <? LLONG_MIN) || (llval >? LLONG_MAX) then None else Some llval
  end.

Example string2ll_ex1 : string2ll (lit "-9223372036854775808") = Some LLONG_MIN.
Proof. vm_compute. reflexivity. Qed.
Example string2ll_ex2 : string2ll (lit "9223372036854775808") = None.
Proof. vm_compute. reflexivity. Qed.
Example string2ll_ex3 : string2ll (lit "007") = None.
Proof. vm_compute. reflexivity. Qed.

(** ** digits10 counts decimal digits *)

Ltac split_ltb :=
  repeat match goal with
  | |- context [?a <? ?b] => destruct (Z.ltb_spec a b)
  | |- context [?a >=? ?b] => rewrite Z.geb_leb; destruct (Z.leb_spec b a)
  end.

Lemma digits10_rounds_bounds r v :
  0 ≤ v → v < 10 ^ (12 * Z.of_nat r) → (0 < r)%nat →
  1 ≤ digits10_rounds r v ∧
  (v = 0 ∨ 10 ^ (digits10_rounds r v - 1) ≤ v) ∧ v < 10 ^ digits10_rounds r v.
Proof.
  revert v. induction r as [|r IH]; intros v Hv Hlt Hr; [lia|].
  cbn [digits10_rounds].
  destruct (Z.ltb_spec v 1000000000000) as [Hs|Hb].
  { split_ltb; simpl; lia. }
  assert (Hd : 0 < v / 1000000000000) by (apply Z.div_str_pos; lia).
  split_ltb; try lia.
  assert (Hp : 10 ^ (12 * Z.of_nat (S r)) = 1000000000000 * 10 ^ (12 * Z.of_nat r)).
  { replace (12 * Z.of_nat (S r)) with (12 + 12 * Z.of_nat r) by lia.
    rewrite Z.pow_add_r by lia. done. }
  destruct r as [|r'].
  { rewrite Hp in Hlt. simpl in Hlt. lia. }
  destruct (IH (v / 1000000000000)) as (Hk1 & Hk2 & Hk3); [lia| |lia|].
  { apply Z.div_lt_upper_bound; lia. }
  set (k := digits10_rounds (S r') (v / 1000000000000)) in *.
  split; [lia|]. split.
  - right. destruct Hk2 as [Hk2|Hk2]; [lia|].
    replace (12 + k - 1) with (12 + (k - 1)) by lia.
    rewrite Z.pow_add_r by lia. change (10 ^ 12) with 1000000000000.
    apply (Z.mul_le_mono_nonneg_l _ _ 1000000000000) in Hk2; [|lia].
    pose proof (Z.mul_div_le v 1000000000000). lia.
  - rewrite Z.pow_add_r by lia. change (10 ^ 12) with 1000000000000.
    pose proof (Z.mul_succ_div_gt v 1000000000000). nia.
Qed.

Lemma length_u2s_bounds n :
  0 < n → 10 ^ (Z.of_nat (length (u2s n)) - 1) ≤ n < 10 ^ Z.of_nat (length (u2s n)).
Proof.
  intros Hn. assert (H0 : 0 ≤ n) by lia. revert Hn. pattern n. revert n H0.
  apply decimal_ind.
  - intros n ? ?. rewrite u2s_eq by lia. replace (n <? 10) with true by lia. simpl. lia.
  - intros n Hn IH _. rewrite u2s_eq by lia. replace (n <? 10) with false by lia.
    rewrite length_app. simpl length.
    assert (Hd : 0 < n / 10) by (apply Z.div_str_pos; lia). specialize (IH Hd).
    set (k := Z.of_nat (length (u2s (n / 10)))) in *.
    assert (Hk : 1 ≤ k).
    { subst k. pose proof (u2s_nonempty (n / 10) ltac:(lia)).
      destruct (u2s (n / 10)); simpl; [done|lia]. }
    replace (Z.of_nat (length (u2s (n / 10)) + 1) - 1) with (1 + (k - 1)) by lia.
    replace (Z.of_nat (length (u2s (n / 10)) + 1)) with (1 + k) by lia.
    rewrite !Z.pow_add_r by lia. change (10 ^ 1) with 10.
    pose proof (Z.mul_div_le n 10). pose proof (Z.mul_succ_div_gt n 10). nia.
Qed.

Lemma pow10_unique a b n :
  0 ≤ a → 0 ≤ b → 10 ^ a ≤ n < 10 ^ (a + 1) → 10 ^ b ≤ n < 10 ^ (b + 1) → a = b.
Proof.
  intros Ha Hb [H1 H2] [H3 H4].
  destruct (Z.lt_trichotomy a b) as [H|[H|H]]; [|done|].
  - pose proof (Z.pow_le_mono_r 10 (a + 1) b). lia.
  - pose proof (Z.pow_le_mono_r 10 (b + 1) a). lia.
Qed.

Lemma digits10_u2s v : 0 ≤ v ≤ ULLONG_MAX → digits10 v = Z.of_nat (length (u2s v)).
Proof.
  unfold ULLONG_MAX. intros Hv. unfold digits10.
  destruct (digits10_rounds_bounds 2 v) as (H1 & H2 & H3); [lia|simpl; lia|lia|].
  destruct (decide (v = 0)) as [->|]; [done|].
  pose proof (length_u2s_bounds v ltac:(lia)) as Hl.
  pose proof (u2s_nonempty v ltac:(lia)) as Hne.
  assert (1 ≤ Z.of_nat (length (u2s v))) by (destruct (u2s v); simpl; [done|lia]).
  enough (digits10_rounds 2 v - 1 = Z.of_nat (length (u2s v)) - 1) by lia.
  apply (pow10_unique _ _ v); [lia|lia| |].
  - split; [lia|]. replace (_ - 1 + 1) with (digits10_rounds 2 v) by lia. lia.
  - replace (_ - 1 + 1) with (Z.of_nat (length (u2s v))) by lia. lia.
Qed.

Lemma sdigits10_d2s v : LLONG_MIN ≤ v ≤ LLONG_MAX → sdigits10 v = Z.of_nat (length (d2s v)).
Proof.
  intros Hv. unfold sdigits10, d2s. destruct (Z.ltb_spec v 0) as [H|H].
  - replace (if v =? LLONG_MIN then LLONG_MAX + 1 else - v) with (- v)
      by (unfold LLONG_MIN, LLONG_MAX in *; destruct (Z.eqb_spec v (-9223372036854775808)); lia).
    rewrite digits10_u2s by (unfold LLONG_MIN, LLONG_MAX, ULLONG_MAX in *; lia). simpl. lia.
  - apply digits10_u2s. unfold LLONG_MIN, LLONG_MAX, ULLONG_MAX in *; lia.
Qed.

(** ** string2ll accepts exactly the canonical numerals *)

Definition dval_from (v : Z) (s : bytes) : Z :=
  fold_left (fun a c => 10 * a + digit_val c) s v.

Lemma dval_from_ge s v :
  Forall (fun c => is_digit c = true) s → 0 ≤ v → v ≤ dval_from v s.
Proof.
  intros Hs. revert v. induction Hs as [|c s Hc Hs IH]; intros v Hv; simpl; [lia|].
  pose proof (digit_val_range c Hc). unfold dval_from in *. simpl.
  specialize (IH (10 * v + digit_val c)). lia.
Qed.

Lemma string2ll_loop_digits s v :
  Forall (fun c => is_digit c = true) s → 0 ≤ v ≤ ULLONG_MAX →
  string2ll_loop s v =
    if dval_from v s <=? ULLONG_MAX then Some (dval_from v s, 0%nat) else None.
Proof.
  intros Hs. revert v. induction Hs as [|c s Hc Hs IH]; intros v Hv; simpl.
  { destruct (Z.leb_spec v ULLONG_MAX); [done|lia]. }
  rewrite Hc. pose proof (digit_val_range c Hc) as Hd.
  pose proof (dval_from_ge s (10 * v + digit_val c) Hs ltac:(lia)) as Hge.
  unfold dval_from in *. simpl. rewrite !Z.gtb_ltb.
  destruct (Z.ltb_spec (ULLONG_MAX / 10) v).
  { destruct (Z.leb_spec (fold_left (fun a c => 10 * a + digit_val c) s (10 * v + digit_val c)) ULLONG_MAX); [|done].
    pose proof (Z.mul_succ_div_gt ULLONG_MAX 10). lia. }
  destruct (Z.ltb_spec (ULLONG_MAX - digit_val c) (v * 10)).
  { destruct (Z.leb_spec (fold_left (fun a c => 10 * a + digit_val c) s (10 * v + digit_val c)) ULLONG_MAX); [lia|done]. }
  replace (v * 10 + digit_val c) with (10 * v + digit_val c) by lia.
  rewrite IH by lia. done.
Qed.

Lemma string2ll_loop_read s v x : string2ll_loop s v = Some (x, 0%nat) →
  Forall (fun c => is_digit c = true) s.
Proof.
  revert v. induction s as [|c s IH]; intros v; simpl; [done|].
  destruct (is_digit c) eqn:Hc; [|intros [=]].
  repeat (case_match; [done|]). intros. constructor; eauto.
Qed.

Lemma u2s_dval s d :
  Forall (fun c => is_digit c = true) s → is_digit d = true → 1 ≤ digit_val d →
  u2s (dval (d :: s)) = d :: s.
Proof.
  intros Hs Hd H1. induction s as [|c s IH] using rev_ind.
  - unfold dval. simpl. pose proof (digit_val_range d Hd).
    rewrite u2s_eq by lia. replace (_ <? 10) with true by lia.
    f_equal. by apply digit_digit_val.
  - apply Forall_app in Hs as [Hs Hc]. rewrite Forall_singleton in Hc. specialize (IH Hs).
    change (d :: s ++ [c]) with ((d :: s) ++ [c]). rewrite dval_snoc.
    pose proof (digit_val_range c Hc).
    assert (Hge : 1 ≤ dval (d :: s)).
    { change (dval (d :: s)) with (dval_from (10 * 0 + digit_val d) s).
      pose proof (dval_from_ge s (10 * 0 + digit_val d) Hs). lia. }
    rewrite u2s_eq by lia. replace (_ <? 10) with false by lia.
    replace ((10 * dval (d :: s) + digit_val c) / 10) with (dval (d :: s)).
    2:{ rewrite (Z.mul_comm 10), Z.div_add_l by lia. rewrite Z.div_small by lia. lia. }
    replace ((10 * dval (d :: s) + digit_val c) mod 10) with (digit_val c).
    2:{ rewrite (Z.mul_comm 10), Z.add_comm, Z_mod_plus_full. by rewrite Z.mod_small by lia. }
    rewrite IH. by rewrite digit_digit_val.
Qed.

Lemma to_signed64_neg v : 0 ≤ v ≤ LLONG_MAX + 1 → to_signed 64 (to_unsigned 64 (- v)) = - v.
Proof.
  unfold LLONG_MAX, to_signed, to_unsigned. intros H.
  change (2 ^ 64) with 18446744073709551616. change (2 ^ (64 - 1)) with 9223372036854775808.
  rewrite Z.mod_mod by lia. destruct (decide (v = 0)) as [->|]; [done|].
  rewrite <- (Z_mod_plus_full (- v) 1), Z.mod_small by lia.
  case_match; lia.
Qed.

Lemma string2ll_sound s z : string2ll s = Some z → s = d2s z ∧ LLONG_MIN ≤ z ≤ LLONG_MAX.
Proof.
  destruct s as [|c s]; simpl; [done|].
  destruct ((length s =? 0)%nat && bool_decide (c = "0"%char)) eqn:E0.
  { apply andb_true_iff in E0 as [E1%Nat.eqb_eq E2%bool_decide_eq_true]. intros [= <-]. subst.
    destruct s; [|done]. split; [done|]. unfold LLONG_MIN, LLONG_MAX; lia. }
  assert (Hmain : ∀ (neg : bool) d p,
    ((49 <=? code d) && (code d <=? 57)) = true →
    match string2ll_loop p (digit_val d) with
    | None => None
    | Some (v, unread) =>
        if (0 <? unread)%nat then None
        else if neg then
          if v >? LLONG_MAX + 1 then None else Some (to_signed 64 (to_unsigned 64 (- v)))
        else if v >? LLONG_MAX then None else Some v
    end = Some z →
    (if neg then "-"%char :: d :: p else d :: p) = d2s z ∧ LLONG_MIN ≤ z ≤ LLONG_MAX).
  { intros neg d p Hd. assert (Hdig : is_digit d = true) by (unfold is_digit; lia).
    assert (1 ≤ digit_val d < 10) by (unfold digit_val; lia).
    destruct (string2ll_loop p (digit_val d)) as [[v [|n]]|] eqn:El; [|done|done]. simpl.
    pose proof (string2ll_loop_read _ _ _ El) as Hp.
    rewrite string2ll_loop_digits in El by (done || unfold ULLONG_MAX; lia).
    destruct (Z.leb_spec (dval_from (digit_val d) p) ULLONG_MAX); [|done].
    injection El as El.
    assert (Hv : dval (d :: p) = v) by (rewrite <- El; done).
    pose proof (dval_from_ge p (digit_val d) Hp ltac:(lia)).
    pose proof (u2s_dval p d Hp Hdig ltac:(lia)) as Hu. rewrite Hv in Hu.
    rewrite !Z.gtb_ltb. destruct neg.
    - destruct (Z.ltb_spec (LLONG_MAX + 1) v); [done|]. intros [= <-].
      rewrite to_signed64_neg by lia. unfold d2s. replace (- v <? 0) with true by lia.
      rewrite Z.opp_involutive, Hu. unfold LLONG_MIN, LLONG_MAX in *. split; [done|lia].
    - destruct (Z.ltb_spec LLONG_MAX v); [done|]. intros [= <-].
      unfold d2s. replace (v <? 0) with false by lia. rewrite Hu.
      unfold LLONG_MIN, LLONG_MAX in *. split; [done|lia]. }
  destruct (decide (c = "-"%char)) as [Ec|Ec].
  - destruct s as [|d s]; [done|]. cbv beta iota. destruct ((49 <=? code d) && (code d <=? 57)) eqn:Ed.
    + intros Hz. destruct (Hmain true d s Ed Hz) as [E HB]. subst c. done.
    + simpl. destruct (bool_decide (d = "0"%char)); done.
  - cbv beta iota. destruct ((49 <=? code c) && (code c <=? 57)) eqn:Ed.
    + intros Hz. apply (Hmain false c s Ed Hz).
    + rewrite andb_comm. simpl in E0. rewrite E0. done.
Qed.

Lemma string2ll_complete z : LLONG_MIN ≤ z ≤ LLONG_MAX → string2ll (d2s z) = Some z.
Proof.
  intros Hz.
  destruct (decide (z = 0)) as [->|Hnz]; [done|].
  destruct (u2s_head (Z.abs z) ltac:(lia)) as (k & ds & Eu & Hk).
  pose proof (dval_u2s (Z.abs z) ltac:(lia)) as Hv. rewrite Eu in Hv.
  pose proof (u2s_digits (Z.abs z) ltac:(lia)) as Hd. rewrite Eu in Hd.
  apply Forall_cons in Hd as [_ Hds].
  assert (Hc : code (digit k) = 48 + k) by (unfold digit; apply code_chr; lia).
  assert (Hloop : string2ll_loop ds (digit_val (digit k)) = Some (Z.abs z, 0%nat)).
  { rewrite string2ll_loop_digits.
    - change (dval_from (digit_val (digit k)) ds) with (dval (digit k :: ds)). rewrite Hv.
      destruct (Z.leb_spec (Z.abs z) ULLONG_MAX); [done|].
      unfold ULLONG_MAX, LLONG_MIN, LLONG_MAX in *; lia.
    - done.
    - rewrite digit_val_digit by lia. unfold ULLONG_MAX; lia. }
  assert (H19 : (49 <=? code (digit k)) && (code (digit k) <=? 57) = true) by (rewrite Hc; lia).
  assert (Hn0 : digit k ≠ "0"%char) by (intros E; rewrite E in Hc; change (code "0") with 48 in Hc; lia).
  assert (Hnm : digit k ≠ "-"%char) by (intros E; rewrite E in Hc; change (code "-") with 45 in Hc; lia).
  unfold d2s. destruct (Z.ltb_spec z 0).
  - replace (- z) with (Z.abs z) by lia. rewrite Eu. unfold string2ll.
    replace (bool_decide ("-"%char = "0"%char)) with false by done. rewrite andb_false_r.
    rewrite decide_True by done. rewrite H19, Hloop. simpl. rewrite Z.gtb_ltb.
    destruct (Z.ltb_spec (LLONG_MAX + 1) (Z.abs z)).
    + unfold LLONG_MIN, LLONG_MAX in *; lia.
    + rewrite to_signed64_neg by lia. f_equal. lia.
  - replace z with (Z.abs z) at 1 by lia. rewrite Eu. unfold string2ll.
    rewrite (bool_decide_eq_false_2 _ Hn0), andb_false_r.
    rewrite decide_False by done. rewrite H19, Hloop. simpl. rewrite Z.gtb_ltb.
    destruct (Z.ltb_spec LLONG_MAX (Z.abs z)); [lia|]. f_equal. lia.
Qed.

Lemma string2ll_iff s z :
  string2ll s = Some z ↔ s = d2s z ∧ LLONG_MIN ≤ z ≤ LLONG_MAX.
Proof.
  split; [apply string2ll_sound|]. intros [-> ?]. by apply string2ll_complete.
Qed.

Lemma string2l_string2ll s : string2l s = string2ll s.
Proof.
  unfold string2l. destruct (string2ll s) as [z|] eqn:E; [|done].
  apply string2ll_sound in E as [_ ?].
  destruct (Z.ltb_spec z LLONG_MIN); [lia|]. rewrite Z.gtb_ltb.
  destruct (Z.ltb_spec LLONG_MAX z); [lia|done].
Qed.

(** ** ll2string writes the canonical numeral *)

Lemma put_mid (l k : bytes) x i c : i = Z.of_nat (length l) → put (l ++ x :: k) i c = Ok (l ++ c :: k).
Proof.
  intros ->. unfold put. rewrite length_app. simpl length.
  replace ((0 <=? Z.of_nat (length l)) &&
    (Z.of_nat (length l) <? Z.of_nat (length l + S (length k)))) with true by blia.
  rewrite Nat2Z.id. rewrite insert_app_r_alt by lia. by rewrite Nat.sub_diag.
Qed.

Lemma table_digits k : 0 ≤ k < 100 →
  table_at (k * 2) = Ok (digit (k / 10)) ∧ table_at (k * 2 + 1) = Ok (digit (k mod 10)).
Proof.
  intros Hk.
  assert (H : Forall (fun k => table_at (k * 2) = Ok (digit (k / 10)) ∧
    table_at (k * 2 + 1) = Ok (digit (k mod 10))) (seqZ 0 100)).
  { vm_compute. repeat constructor. }
  rewrite Forall_forall in H. apply H, elem_of_seqZ. lia.
Qed.

Lemma u2s_two v : 10 ≤ v → u2s v =
  (if v <? 100 then [] else u2s (v / 100)) ++ [digit (v mod 100 / 10); digit (v mod 100 mod 10)].
Proof.
  intros Hv. rewrite u2s_eq by lia. replace (v <? 10) with false by lia.
  assert (E1 : v mod 100 mod 10 = v mod 10).
  { apply Z.mod_mod_divide. by exists 10. }
  assert (E2 : v mod 100 / 10 = (v / 10) mod 10).
  { pose proof (Z.div_mod v 100 ltac:(lia)). pose proof (Z.mod_pos_bound v 100 ltac:(lia)).
    pose proof (Z.div_mod (v mod 100) 10 ltac:(lia)). pose proof (Z.mod_pos_bound (v mod 100) 10 ltac:(lia)).
    pose proof (Z.div_mod v 10 ltac:(lia)). pose proof (Z.mod_pos_bound v 10 ltac:(lia)).
    rewrite E1 in *. assert (v / 10 = 10 * (v / 100) + v mod 100 / 10) as -> by lia.
    rewrite (Z.mul_comm 10), Z.add_comm, Z_mod_plus_full. symmetry. apply Z.mod_small.
    split; [apply Z.div_pos; lia|apply Z.div_lt_upper_bound; lia]. }
  rewrite E1, E2. destruct (Z.ltb_spec v 100).
  - rewrite (u2s_eq (v / 10)) by (apply Z.div_pos; lia).
    assert (v / 10 < 10) by (apply Z.div_lt_upper_bound; lia).
    replace (v / 10 <? 10) with true by lia.
    rewrite (Z.mod_small (v / 10)); [done|]. split; [apply Z.div_pos; lia|lia].
  - rewrite (u2s_eq (v / 10)) by (apply Z.div_pos; lia).
    assert (10 ≤ v / 10) by (apply Z.div_le_lower_bound; lia).
    replace (v / 10 <? 10) with false by lia.
    rewrite Z.div_div by lia. change (10 * 10) with 100. by rewrite <- app_assoc.
Qed.

Lemma snoc2_inv {A} (l : list A) : (2 ≤ length l)%nat → ∃ l' x y, l = l' ++ [x; y].
Proof.
  intros H. destruct l as [|y l _] using rev_ind; [simpl in H; lia|].
  destruct l as [|x l _] using rev_ind; [simpl in H; lia|].
  exists l, x, y. by rewrite <- app_assoc.
Qed.

Lemma ll2string_loop_spec fuel pre suf v neg :
  0 ≤ v → v < 100 ^ Z.of_nat (S fuel) → length pre = (length (u2s v) + neg)%nat →
  ∃ pre' ds v', 0 ≤ v' < 100 ∧ u2s v = u2s v' ++ ds ∧
    length pre' = (length (u2s v') + neg)%nat ∧
    ll2string_loop (S fuel) (pre ++ suf) (Z.of_nat (length pre) - 1) v =
      Ok (pre' ++ ds ++ suf, Z.of_nat (length pre') - 1, v').
Proof.
  revert pre suf v. induction fuel as [|fuel IH]; intros pre suf v Hv Hlt Hlen;
    cbn [ll2string_loop]; rewrite Z.geb_leb; destruct (Z.leb_spec 100 v) as [H100|H100];
    try (exists pre, [], v; split_and!; [lia|lia|by rewrite app_nil_r|done|done]).
  { change (100 ^ Z.of_nat 1) with 100 in Hlt. lia. }
  pose proof (u2s_two v ltac:(lia)) as Eu. replace (v <? 100) with false in Eu by lia.
  rewrite Eu, length_app in Hlen. simpl length in Hlen.
  destruct (snoc2_inv pre ltac:(lia)) as (l & x & y & ->).
  rewrite length_app in Hlen. simpl length in Hlen.
  destruct (table_digits (v mod 100)) as [T0 T1]; [apply Z.mod_pos_bound; lia|].
  rewrite T1. simpl mbind. rewrite <- app_assoc. simpl app.
  rewrite length_app. simpl length.
  replace (l ++ x :: y :: suf) with ((l ++ [x]) ++ y :: suf) by (by rewrite <- app_assoc).
  rewrite put_mid by (rewrite length_app; simpl; lia). simpl mbind. rewrite T0. simpl mbind.
  rewrite <- app_assoc. simpl app. rewrite put_mid by lia. simpl mbind.
  replace (Z.of_nat (length l + 2) - 1 - 2) with (Z.of_nat (length l) - 1) by lia.
  edestruct (IH l (digit (v mod 100 / 10) :: digit (v mod 100 mod 10) :: suf) (v / 100))
    as (pre' & ds & v' & Hv' & Eds & Hl' & Eloop).
  - apply Z.div_pos; lia.
  - rewrite Nat2Z.inj_succ, Z.pow_succ_r in Hlt by lia. apply Z.div_lt_upper_bound; lia.
  - lia.
  - cbn [ll2string_loop] in Eloop. exists pre', (ds ++ [digit (v mod 100 / 10); digit (v mod 100 mod 10)]), v'.
    split_and!; [lia|lia| |done|].
    + by rewrite Eu, Eds, <- app_assoc.
    + rewrite Eloop. by rewrite <- app_assoc.
Qed.

Lemma snoc1_inv {A} (l : list A) n : length l = S n → ∃ l' y, l = l' ++ [y] ∧ length l' = n.
Proof.
  intros H. destruct l as [|y l _] using rev_ind; [done|].
  exists l, y. rewrite length_app in H. simpl in H. split; [done|lia].
Qed.

(** What [ll2string] leaves in a buffer large enough for the numeral. *)
Definition ll2string_result (dst : bytes) (v : Z) : Z * bytes :=
  let s := d2s v in
  if (length dst <=? length s)%nat then (0, dst)
  else (Z.of_nat (length s), s ++ NUL :: drop (S (length s)) dst).

Lemma ll2string_spec dst v : LLONG_MIN ≤ v ≤ LLONG_MAX →
  ll2string dst v = Ok (ll2string_result dst v).
Proof.
  intros Hv. unfold ll2string, ll2string_result.
  set (value := Z.abs v). set (neg := if v <? 0 then 1%nat else 0%nat).
  replace (if v <? 0 then ((if v =? LLONG_MIN then LLONG_MAX + 1 else - v), 1) else (v, 0))
    with (value, Z.of_nat neg).
  2:{ subst value neg. unfold LLONG_MIN, LLONG_MAX in *.
      destruct (Z.ltb_spec v 0); [|f_equal; lia].
      destruct (Z.eqb_spec v (-9223372036854775808)); f_equal; lia. }
  assert (Hval : 0 ≤ value ≤ LLONG_MAX + 1) by (subst value; unfold LLONG_MIN, LLONG_MAX in *; lia).
  assert (Hd2s : d2s v = replicate neg "-"%char ++ u2s value).
  { subst value neg. unfold d2s. destruct (Z.ltb_spec v 0); simpl; [do 2 f_equal|f_equal]; lia. }
  assert (Hlen : length (d2s v) = (length (u2s value) + neg)%nat)
    by (rewrite Hd2s, length_app, length_replicate; lia).
  rewrite digits10_u2s by (unfold ULLONG_MAX, LLONG_MAX in *; lia).
  replace (Z.of_nat (length (u2s value)) + Z.of_nat neg) with (Z.of_nat (length (d2s v))) by lia.
  rewrite Z.geb_leb. destruct (Nat.leb_spec (length dst) (length (d2s v))) as [Hfit|Hfit].
  { replace (Z.of_nat (length dst) <=? Z.of_nat (length (d2s v))) with true by lia. done. }
  replace (Z.of_nat (length dst) <=? Z.of_nat (length (d2s v))) with false by lia.
  assert (Hsplit : ∃ pre y, dst = pre ++ y :: drop (S (length (d2s v))) dst ∧ length pre = length (d2s v)).
  { exists (take (length (d2s v)) dst). destruct (lookup_lt_is_Some_2 dst _ Hfit) as [y Hy].
    exists y. split; [|rewrite length_take; lia].
    rewrite <- (take_drop (length (d2s v)) dst) at 1. f_equal. by apply drop_S. }
  destruct Hsplit as (pre & y & Edst & Hpre). set (tl := drop (S (length (d2s v))) dst) in *.
  rewrite Edst. rewrite put_mid by lia. res_step.
  destruct (ll2string_loop_spec 9 pre (NUL :: tl) value neg)
    as (pre' & ds & v' & Hv' & Eds & Hl' & Eloop); [lia| |lia|].
  { unfold LLONG_MAX in *. change (100 ^ Z.of_nat (S 9)) with 100000000000000000000. lia. }
  replace (Z.of_nat (length (d2s v))) with (Z.of_nat (length pre)) at 1 by lia.
  rewrite Eloop. res_step.
  assert (Hfin : ∀ q x, length q = neg →
    (if Z.of_nat neg =? 1 then put (q ++ x ++ ds ++ NUL :: tl) 0 "-"%char
     else Ok (q ++ x ++ ds ++ NUL :: tl))
    = Ok (replicate neg "-"%char ++ x ++ ds ++ NUL :: tl)).
  { intros q x Hq. subst neg. destruct (v <? 0).
    - by destruct q as [|q0 [|]].
    - destruct q; done. }
  rewrite Hd2s, Eds. destruct (Z.ltb_spec v' 10) as [H10|H10].
  - assert (E1 : u2s v' = [digit v']) by (rewrite u2s_eq by lia; by replace (v' <? 10) with true by lia).
    rewrite E1 in Hl'. destruct (snoc1_inv pre' neg Hl') as (q & z & -> & Hq).
    rewrite <- app_assoc. simpl app. rewrite put_mid by (rewrite length_app; simpl; lia).
    res_step. pose proof (Hfin q [digit v'] Hq) as Hf.
    simpl app in Hf. rewrite Hf, E1. res_step.
    by rewrite <- !app_assoc.
  - pose proof (u2s_two v' ltac:(lia)) as E2. replace (v' <? 100) with true in E2 by lia.
    simpl app in E2. rewrite Z.mod_small in E2 by lia.
    rewrite E2 in Hl'. simpl length in Hl'.
    destruct (snoc2_inv pre' ltac:(lia)) as (q & z1 & z2 & ->).
    rewrite length_app in Hl'. simpl length in Hl'.
    destruct (table_digits v' ltac:(lia)) as [T0 T1]. rewrite T1. res_step.
    rewrite <- app_assoc. simpl app.
    replace (q ++ z1 :: z2 :: ds ++ NUL :: tl) with ((q ++ [z1]) ++ z2 :: ds ++ NUL :: tl)
      by (by rewrite <- app_assoc).
    rewrite put_mid by (rewrite !length_app; simpl; lia). res_step.
    rewrite T0. res_step. rewrite <- app_assoc. simpl app.
    rewrite put_mid by (rewrite !length_app; simpl; lia). res_step.
    pose proof (Hfin q [digit (v' / 10); digit (v' mod 10)] ltac:(lia)) as Hf.
    simpl app in Hf. rewrite Hf, E2. res_step.
    by rewrite <- !app_assoc.
Qed.

(** * Properties *)

(** C30: [string2ll] accepts exactly the canonical decimal numerals of the [long
    long] range (no leading zeros, spaces or plus sign) and returns their value. *)
Theorem string2ll_exact s z :
  string2ll s = Some z ↔ s = d2s z ∧ LLONG_MIN ≤ z ≤ LLONG_MAX.
Proof. apply string2ll_iff. Qed.

(** [ll2string] never writes outside the destination: if the numeral and its
    terminator do not fit it returns 0 and leaves the buffer unchanged, otherwise
    it writes the numeral and a NUL and returns its length, and [string2ll] reads
    the same number back. *)
Theorem ll2string_roundtrip dst v :
  LLONG_MIN ≤ v ≤ LLONG_MAX →
  ll2string dst v =
    Ok (if (length dst <=? length (d2s v))%nat then (0, dst)
        else (Z.of_nat (length (d2s v)), d2s v ++ NUL :: drop (S (length (d2s v))) dst)) ∧
  string2ll (d2s v) = Some v.
Proof.
  intros Hv. split; [by apply ll2string_spec|by apply string2ll_iff].
Qed.

Lemma ll2string_roundtrip_witness :
  ll2string (replicate 21 NUL) (-9223372036854775808) =
    Ok (20, lit "-9223372036854775808" ++ [NUL]) ∧
  string2ll (lit "-9223372036854775808") = Some (-9223372036854775808).
Proof.
  pose proof (ll2string_roundtrip (replicate 21 NUL) (-9223372036854775808)) as H.
  destruct H as [H1 H2]; [unfold LLONG_MIN, LLONG_MAX; lia|].
  split; [rewrite H1|]; vm_compute; reflexivity.
Defined.
