(* ===== verification/Glob.v ===== *)
(** src/src/util.c: glob matching ([stringmatchlen], [stringmatch]) and the
    regular-expression test [stringmatchregex] for the date pattern of
    src/src/addb_relational.h. *)

From S2P Require Import Prelude CString.

(** * stringmatchlen

    A C pointer into a NUL-terminated buffer is the list of bytes from the
    pointer to the end of the buffer, terminator included; [p[0]] past the
    terminator is an out-of-bounds read.  [patternLen] and [stringLen] are kept
    apart from the pointers, as in the source, because the code lets them go
    out of step. *)

Definition at0 (p : bytes) : res ascii :=
  match p with c :: _ => Ok c | [] => Fault OutOfBounds end.
Definition at1 (p : bytes) : res ascii :=
  match p with _ :: c :: _ => Ok c | _ => Fault OutOfBounds end.

(** The loop that advances [pattern] while [pattern[1]] is a star. *)
Fixpoint skip_stars (p : bytes) (plen : Z) : res (bytes * Z) :=
  match p with
  | _ :: ((c1 :: _) as p') =>
      if decide (c1 = "*"%char) then skip_stars p' (plen - 1) else Ok (p, plen)
  | _ => Fault OutOfBounds
  end.

(** The loop that drops the stars left at [pattern] once the string is used up;
    only [patternLen] is used afterwards. *)
Fixpoint trailing_stars (p : bytes) (plen : Z) : res Z :=
  match p with
  | [] => Fault OutOfBounds
  | c :: p' => if decide (c = "*"%char) then trailing_stars p' (plen - 1) else Ok plen
  end.

Definition fold_case (nocase : bool) (c : ascii) : ascii := if nocase then tolower c else c.

(** [start <= c <= end] after the swap and the case folding of the range case. *)
Definition in_range (nocase : bool) (lo hi c : ascii) : bool :=
  let '(lo, hi) := if schar lo >? schar hi then (hi, lo) else (lo, hi) in
  let '(lo, hi, c) := if nocase then (tolower lo, tolower hi, tolower c) else (lo, hi, c) in
  (schar lo <=? schar c) && (schar c <=? schar hi).

(** The [while (1)] loop of a character class, from the byte after '[' (and
    after '^').  Returns the pointer and length as they are after the class has
    been left and the common [pattern++; patternLen--] has run, with [match]. *)
Fixpoint class_loop (nocase : bool) (p : bytes) (plen : Z) (s : bytes) (matched : bool)
    : res (bytes * Z * bool) :=
  match p with
  | [] => Fault OutOfBounds
  | c0 :: p1 =>
      if decide (c0 = "\"%char) then
        match p1 with
        | [] => Fault OutOfBounds
        | c1 :: p2 =>
            s0 ← at0 s;
            class_loop nocase p2 (plen - 2) s (matched || bool_decide (c1 = s0))
        end
      else if decide (c0 = "]"%char) then Ok (p1, plen - 1, matched)
      else if plen =? 0 then Ok (p, plen, matched)
      else
        c1 ← at0 p1;
        match p1 with
        | _ :: c2 :: p3 =>
            if bool_decide (c1 = "-"%char) && (plen >=? 3) then
              s0 ← at0 s;
              class_loop nocase p3 (plen - 3) s (matched || in_range nocase c0 c2 s0)
            else
              s0 ← at0 s;
              class_loop nocase p1 (plen - 1) s
                (matched || bool_decide (fold_case nocase c0 = fold_case nocase s0))
        | _ =>
            if bool_decide (c1 = "-"%char) && (plen >=? 3) then Fault OutOfBounds
            else
              s0 ← at0 s;
              class_loop nocase p1 (plen - 1) s
                (matched || bool_decide (fold_case nocase c0 = fold_case nocase s0))
        end
  end.

(** [while (stringLen) { if (stringmatchlen(...)) return 1; string++; stringLen--; }
    return 0;] *)
Fixpoint star_loop (rec : bytes → Z → res bool) (s : bytes) (slen : Z) : res bool :=
  if slen =? 0 then Ok false
  else
    r ← rec s slen;
    if r : bool then Ok true
    else match s with
         | [] => Fault OutOfBounds
         | _ :: s' => star_loop rec s' (slen - 1)
         end.

(** One run of the outer loop per unit of fuel; every round consumes at least
    one pattern byte, so [length p] rounds are enough ([stringmatchlen_fuel]). *)
Fixpoint smatch (fuel : nat) (nocase : bool) (p : bytes) (plen : Z) (s : bytes) (slen : Z)
    : res bool :=
  match fuel with
  | O => Fault OutOfFuel
  | S f =>
      if plen =? 0 then Ok (slen =? 0)
      else
        let next (p : bytes) (plen : Z) (s : bytes) (slen : Z) : res bool :=
          if slen =? 0 then
            plen ← trailing_stars p plen;
            Ok ((plen =? 0) && (slen =? 0))
          else smatch f nocase p plen s slen in
        let literal (p : bytes) (plen : Z) : res bool :=
          c ← at0 p;
          s0 ← at0 s;
          if decide (fold_case nocase c = fold_case nocase s0)
          then next (tail p) (plen - 1) (tail s) (slen - 1)
          else Ok false in
        c ← at0 p;
        if decide (c = "*"%char) then
          '(p, plen) ← skip_stars p plen;
          if plen =? 1 then Ok true
          else star_loop (smatch f nocase (tail p) (plen - 1)) s slen
        else if decide (c = "?"%char) then
          if slen =? 0 then Ok false else next (tail p) (plen - 1) (tail s) (slen - 1)
        else if decide (c = "["%char) then
          c1 ← at0 (tail p);
          let neg := bool_decide (c1 = "^"%char) in
          '(p', plen', matched) ←
            (if neg then class_loop nocase (tail (tail p)) (plen - 2) s false
             else class_loop nocase (tail p) (plen - 1) s false);
          if xorb neg matched then next p' plen' (tail s) (slen - 1) else Ok false
        else if bool_decide (c = "\"%char) && (plen >=? 2) then literal (tail p) (plen - 1)
        else literal p plen
  end.

(** [stringmatchlen(pattern, patternLen, string, stringLen, nocase)] on two
    NUL-terminated buffers whose lengths are passed by the callers. *)
Definition stringmatchlen (pattern string : bytes) (nocase : bool) : res bool :=
  smatch (S (length pattern)) nocase
    (pattern ++ [NUL]) (Z.of_nat (length pattern)) (string ++ [NUL]) (Z.of_nat (length string)).

(** [stringmatch]: the lengths are [strlen] of both arguments. *)
Definition stringmatch (pattern string : bytes) (nocase : bool) : res bool :=
  stringmatchlen (cstr pattern) (cstr string) nocase.

Example smatch1 : stringmatchlen (lit "M:{100:*}") (lit "M:{100:2:0}") false = Ok true.
Proof. vm_compute. reflexivity. Qed.
Example smatch2 : stringmatchlen (lit "[a-c]?[^x]\*") (lit "bqz*") false = Ok true.
Proof. vm_compute. reflexivity. Qed.
Example smatch3 : stringmatchlen (lit "a*b**c") (lit "axxbyyc") false = Ok true.
Proof. vm_compute. reflexivity. Qed.
Example smatch4 : stringmatchlen (lit "[ab") (lit "b") false = Ok true.
Proof. vm_compute. reflexivity. Qed.
(** A class that ends in an escape runs past the end of the pattern. *)
Example smatch_overrun : stringmatchlen (lit "[\") (lit "a") false = Fault OutOfBounds.
Proof. vm_compute. reflexivity. Qed.

(** ** Reference semantics

    The tokens of a glob pattern, how a pattern is read as tokens, and the strings
    that tokens match. *)

Inductive citem :=
| CEsc (c : ascii)
| CChar (c : ascii)
| CRange (lo hi : ascii).

Inductive token :=
| TStar
| TAny
| TLit (c : ascii)
| TClass (neg : bool) (items : list citem).

#[export] Instance citem_eq_dec : EqDecision citem.
Proof. solve_decision. Defined.
#[export] Instance token_eq_dec : EqDecision token.
Proof. solve_decision. Defined.

(** The members of a class, up to a closing bracket or the end of the pattern, and
    the rest.  A range takes three bytes, a closing bracket as its end included.  A
    class that ends in a lone backslash is not a pattern. *)
Fixpoint class_items (p : bytes) : option (list citem * bytes) :=
  match p with
  | [] => Some ([], [])
  | c0 :: p1 =>
      if decide (c0 = "]"%char) then Some ([], p1)
      else if decide (c0 = "\"%char) then
        match p1 with
        | [] => None
        | c1 :: p2 => '(items, rest) ← class_items p2; Some (CEsc c1 :: items, rest)
        end
      else
        match p1 with
        | c1 :: (c2 :: p3) =>
            if decide (c1 = "-"%char)
            then '(items, rest) ← class_items p3; Some (CRange c0 c2 :: items, rest)
            else '(items, rest) ← class_items p1; Some (CChar c0 :: items, rest)
        | _ => '(items, rest) ← class_items p1; Some (CChar c0 :: items, rest)
        end
  end.

Definition class_token (p : bytes) : option (token * bytes) :=
  let neg := bool_decide (head p = Some "^"%char) in
  '(items, rest) ← class_items (if neg then tail p else p); Some (TClass neg items, rest).

(** The first token of a pattern; a backslash at its end stands for itself. *)
Definition first_token (p : bytes) : option (token * bytes) :=
  match p with
  | [] => None
  | c :: p1 =>
      if decide (c = "*"%char) then Some (TStar, p1)
      else if decide (c = "?"%char) then Some (TAny, p1)
      else if decide (c = "["%char) then
        class_token p1
      else if decide (c = "\"%char) then
        match p1 with d :: p2 => Some (TLit d, p2) | [] => Some (TLit c, []) end
      else Some (TLit c, p1)
  end.

Fixpoint tokens_of (n : nat) (p : bytes) : option (list token) :=
  match p, n with
  | [], _ => Some []
  | _, O => None
  | _, S n => '(t, rest) ← first_token p; ts ← tokens_of n rest; Some (t :: ts)
  end.
Definition glob_tokens (p : bytes) : option (list token) := tokens_of (length p) p.

(** A range holds what lies between its two ends, whichever is the smaller. *)
Definition range_ok (nocase : bool) (lo hi c : ascii) : bool :=
  let v x := schar (fold_case nocase x) in
  if bool_decide (schar lo ≤ schar hi) then bool_decide (v lo ≤ v c ≤ v hi) else bool_decide (v hi ≤ v c ≤ v lo).

(** Case is ignored except for an escaped member of a class. *)
Definition item_ok (nocase : bool) (c : ascii) (i : citem) : bool :=
  match i with
  | CEsc d => bool_decide (d = c)
  | CChar d => bool_decide (fold_case nocase d = fold_case nocase c)
  | CRange lo hi => range_ok nocase lo hi c
  end.

Definition tok_ok (nocase : bool) (t : token) (c : ascii) : bool :=
  match t with
  | TStar | TAny => true
  | TLit d => bool_decide (fold_case nocase d = fold_case nocase c)
  | TClass neg items => xorb neg (existsb (item_ok nocase c) items)
  end.

(** [m] holds of some suffix of [s]. *)
Fixpoint some_suffix (m : bytes → bool) (s : bytes) : bool :=
  m s || match s with [] => false | _ :: s' => some_suffix m s' end.

Fixpoint tmatch (nocase : bool) (ts : list token) (s : bytes) : bool :=
  match ts with
  | [] => bool_decide (s = [])
  | TStar :: ts' => some_suffix (tmatch nocase ts') s
  | t :: ts' => match s with [] => false | c :: s' => tok_ok nocase t c && tmatch nocase ts' s' end
  end.

(** A pattern that starts with a class or with a NUL byte reads the terminator of an
    empty string as a byte of it. *)
Definition reads_terminator (ts : list token) : bool :=
  match ts with TClass _ _ :: _ => true | TLit d :: _ => bool_decide (d = NUL) | _ => false end.

Fixpoint strip (ts : list token) : list token :=
  match ts with TStar :: ts' => strip ts' | _ => ts end.

Lemma strip_head ts : match strip ts with TStar :: _ => False | _ => True end.
Proof. induction ts as [|[] ts IH]; simpl; done. Qed.

Lemma strip_idem ts : strip (strip ts) = strip ts.
Proof. induction ts as [|[] ts IH]; simpl; done. Qed.

Lemma some_suffix_idem m s : some_suffix (some_suffix m) s = some_suffix m s.
Proof.
  induction s as [|c s IH]; simpl; [by rewrite !orb_false_r|].
  rewrite IH. destruct (m (c :: s)); simpl; [done|]. by rewrite orb_diag.
Qed.

Lemma some_suffix_ext m m' s : (∀ x, m x = m' x) → some_suffix m s = some_suffix m' s.
Proof. intros E. induction s as [|c s IH]; simpl; by rewrite E, ?IH. Qed.

Lemma some_suffix_nil s : some_suffix (fun x => bool_decide (x = [])) s = true.
Proof. induction s as [|c s IH]; simpl; [done|]. by rewrite IH, ?orb_true_r. Qed.

Lemma tmatch_strip nocase ts s : tmatch nocase (TStar :: ts) s = tmatch nocase (TStar :: strip ts) s.
Proof.
  induction ts as [|t ts IH]; [done|]. destruct t; try done.
  simpl strip. rewrite <- IH. simpl. apply some_suffix_idem.
Qed.

Lemma tmatch_nil nocase ts : tmatch nocase ts [] = bool_decide (strip ts = []).
Proof. induction ts as [|[] ts IH]; simpl; try done. by rewrite orb_false_r, IH. Qed.

(** ** Reading a pattern *)

Inductive reads : bytes → list token → Prop :=
| reads_nil : reads [] []
| reads_cons p t rest ts : first_token p = Some (t, rest) → reads rest ts → reads p (t :: ts).

Lemma tokens_of_reads n : ∀ p ts, tokens_of n p = Some ts → reads p ts.
Proof.
  induction n as [|n IH]; intros [|c p] ts E; cbn [tokens_of] in E; try done;
    try (injection E as <-; constructor).
  destruct (first_token (c :: p)) as [[t rest]|] eqn:Et; [|done]. cbn in E.
  destruct (tokens_of n rest) as [ts'|] eqn:Ets; [|done]. injection E as <-. econstructor; eauto.
Qed.

Lemma class_items_length n : ∀ p items rest, (length p ≤ n)%nat → class_items p = Some (items, rest) → (length rest ≤ length p)%nat.
Proof.
  induction n as [|n IH]; intros [|c0 p1] items rest Hn E; cbn [length class_items] in *; try lia;
    try (injection E as _ <-; done).
  assert (Hgo : ∀ q mk, (length q ≤ n)%nat → ('(items, rest) ← class_items q; Some (mk :: items, rest)) = Some (items, rest) →
    (length rest ≤ length q)%nat).
  { intros q mk Hq Eq. destruct (class_items q) as [[its r]|] eqn:E'; [|done]. cbn in Eq. injection Eq as _ <-. by eapply IH. }
  case_decide; [injection E as _ <-; lia|]. case_decide.
  - destruct p1 as [|c1 p2]; [done|]. cbn [length] in *. apply Hgo in E; lia.
  - destruct p1 as [|c1 [|c2 p3]]; [apply Hgo in E; cbn [length] in *; lia..|].
    case_decide; apply Hgo in E; cbn [length] in *; lia.
Qed.

Lemma class_token_inv p t rest : class_token p = Some (t, rest) →
  ∃ items, let neg := bool_decide (head p = Some "^"%char) in
    class_items (if neg then tail p else p) = Some (items, rest) ∧ t = TClass neg items.
Proof.
  unfold class_token. destruct (class_items _) as [[items r]|]; [|done]. cbn. intros [= <- <-]. by exists items.
Qed.

Lemma first_token_length p t rest : first_token p = Some (t, rest) → (length rest < length p)%nat.
Proof.
  destruct p as [|c p1]; [done|]. unfold first_token. cbn [length].
  case_decide; [intros [= _ <-]; lia|]. case_decide; [intros [= _ <-]; lia|]. case_decide.
  - intros (items & E & _)%class_token_inv. apply (class_items_length _ _ _ _ (le_n _)) in E.
    destruct (bool_decide _); [destruct p1; cbn in *; lia|lia].
  - case_decide; [|intros [= _ <-]; lia]. destruct p1; intros [= _ <-]; cbn; lia.
Qed.

Lemma first_token_star p t rest : first_token p = Some (t, rest) →
  (t = TStar ∧ p = "*"%char :: rest) ∨ (t ≠ TStar ∧ ∃ c q, p = c :: q ∧ c ≠ "*"%char).
Proof.
  destruct p as [|c p1]; [done|]. unfold first_token. case_decide as Hs; [intros [= <- <-]; subst; by left|].
  intros E. right. split; [|by eauto]. intros ->. repeat case_decide; try done.
  - by apply class_token_inv in E as (items & _ & ?).
  - by destruct p1.
Qed.

(** The stars at the head of a pattern. *)
Fixpoint strip_stars (p : bytes) : bytes :=
  match p with c :: p' => if decide (c = "*"%char) then strip_stars p' else p | [] => [] end.

Lemma strip_stars_length p : (length (strip_stars p) ≤ length p)%nat.
Proof. induction p as [|c p IH]; cbn; [done|]. case_decide; cbn; lia. Qed.

Lemma reads_strip p ts : reads p ts → reads (strip_stars p) (strip ts).
Proof.
  induction 1 as [|p t rest ts E Hr IH]; [constructor|].
  destruct (first_token_star _ _ _ E) as [[-> ->]|(Hne & c & q & -> & Hc)].
  - cbn [strip_stars strip]. by rewrite decide_True.
  - cbn [strip_stars]. rewrite decide_False by done. destruct t; try done; cbn [strip]; by econstructor.
Qed.

Lemma reads_empty p ts : reads p ts → (p = [] ↔ ts = []).
Proof. destruct 1 as [|p t rest ts E]; [done|]. split; [by intros ->|done]. Qed.

Lemma skip_stars_star c q plen :
  skip_stars (c :: "*"%char :: q) plen = skip_stars ("*"%char :: q) (plen - 1).
Proof. done. Qed.

Lemma skip_stars_ok p n :
  skip_stars ("*"%char :: p ++ [NUL]) (n + Z.of_nat (length p)) =
    Ok ("*"%char :: strip_stars p ++ [NUL], n + Z.of_nat (length (strip_stars p))).
Proof.
  induction p as [|c p IH]; [done|]. destruct (decide (c = "*"%char)) as [->|Hc].
  - cbn [app strip_stars]. rewrite decide_True, skip_stars_star by done.
    by replace (n + Z.of_nat (length ("*"%char :: p)) - 1) with (n + Z.of_nat (length p)) by (cbn [length]; lia).
  - cbn [app skip_stars strip_stars]. by rewrite !decide_False by done.
Qed.

Lemma trailing_stars_ok p n :
  trailing_stars (p ++ [NUL]) (n + Z.of_nat (length p)) = Ok (n + Z.of_nat (length (strip_stars p))).
Proof.
  induction p as [|c p IH]; [done|]. cbn [app trailing_stars strip_stars]. case_decide; [|done].
  by replace (n + Z.of_nat (length (c :: p)) - 1) with (n + Z.of_nat (length p)) by (cbn [length]; lia).
Qed.

(** ** Classes *)

Lemma in_range_ok nocase lo hi c : in_range nocase lo hi c = range_ok nocase lo hi c.
Proof.
  unfold in_range, range_ok, fold_case. rewrite Z.gtb_ltb. destruct (Z.ltb_spec (schar hi) (schar lo)).
  - rewrite (bool_decide_false (schar lo ≤ schar hi)) by lia. destruct nocase; symmetry;
      rewrite bool_decide_decide; case_decide; blia.
  - rewrite (bool_decide_true (schar lo ≤ schar hi)) by lia. destruct nocase; symmetry;
      rewrite bool_decide_decide; case_decide; blia.
Qed.

Lemma class_loop_ok nocase n : ∀ q items rest c s m,
  (length q ≤ n)%nat → class_items q = Some (items, rest) →
  class_loop nocase (q ++ [NUL]) (Z.of_nat (length q)) (c :: s) m =
    Ok (rest ++ [NUL], Z.of_nat (length rest), m || existsb (item_ok nocase c) items).
Proof.
  induction n as [|n IH]; intros [|c0 p1] items rest c s m Hn E; cbn [length] in Hn; try lia;
    try (injection E as <- <-; cbn; by rewrite orb_false_r).
  assert (Hgo : ∀ q i, (length q ≤ n)%nat → ('(items, rest) ← class_items q; Some (i :: items, rest)) = Some (items, rest) →
    class_loop nocase (q ++ [NUL]) (Z.of_nat (length q)) (c :: s) (m || item_ok nocase c i) =
      Ok (rest ++ [NUL], Z.of_nat (length rest), m || existsb (item_ok nocase c) items)).
  { intros q i Hq Eq. destruct (class_items q) as [[its r]|] eqn:E'; [|done]. cbn in Eq. injection Eq as <- <-.
    rewrite (IH q its r c s _ Hq E'). cbn [existsb]. by rewrite orb_assoc. }
  cbn [app class_loop class_items length] in *. destruct (decide (c0 = "]"%char)) as [->|Hb].
  { rewrite decide_False by done. injection E as <- <-. cbn [existsb]. rewrite orb_false_r. do 3 f_equal. lia. }
  destruct (decide (c0 = "\"%char)) as [->|He].
  { destruct p1 as [|c1 p2]; [done|]. cbn [app at0 length] in *. res_step.
    replace (Z.of_nat (S (S (length p2))) - 2) with (Z.of_nat (length p2)) by lia. by apply (Hgo p2 (CEsc c1)); [lia|]. }
  replace (Z.of_nat (S (length p1)) =? 0) with false by blia.
  replace (Z.of_nat (S (length p1)) - 1) with (Z.of_nat (length p1)) by lia.
  destruct p1 as [|c1 [|c2 p3]].
  - cbn [app at0]. res_step. cbn [andb]. rewrite andb_false_r by done. cbn [at0]. res_step. by apply (Hgo [] (CChar c0)); [cbn; lia|].
  - cbn [app at0 length]. res_step. rewrite andb_false_r. cbn [at0]. res_step. by apply (Hgo [c1] (CChar c0)); [cbn in *; lia|].
  - cbn [app at0 length] in *. res_step. replace (Z.of_nat (S (S (S (length p3)))) >=? 3) with true by blia. rewrite andb_true_r.
    destruct (decide (c1 = "-"%char)) as [->|Hd].
    + rewrite bool_decide_true by done. res_step. rewrite in_range_ok.
      replace (Z.of_nat (S (S (S (length p3)))) - 3) with (Z.of_nat (length p3)) by lia. by apply (Hgo p3 (CRange c0 c2)); [lia|].
    + rewrite bool_decide_false by done. res_step. by apply (Hgo (c1 :: c2 :: p3) (CChar c0)); [cbn; lia|].
Qed.

(** ** The loop *)

Section equivalence.
  (** What the induction gives for the rest [p] of the pattern. *)
  Context (nocase : bool) (f : nat) (p : bytes) (ts : list token) (Hreads : reads p ts).
  Hypothesis rest_ok : ∀ s, s ≠ [] →
    smatch f nocase (p ++ [NUL]) (Z.of_nat (length p)) (s ++ [NUL]) (Z.of_nat (length s)) = Ok (tmatch nocase ts s).

  (** The end of a round: the string is used up, or the loop goes on. *)
Lemma round_end c s :
  (if Z.of_nat (length (c :: s)) - 1 =? 0 then
     plen ← trailing_stars (p ++ [NUL]) (Z.of_nat (length p));
     Ok ((plen =? 0) && (Z.of_nat (length (c :: s)) - 1 =? 0))
   else smatch f nocase (p ++ [NUL]) (Z.of_nat (length p)) (s ++ [NUL]) (Z.of_nat (length (c :: s)) - 1)) = Ok (tmatch nocase ts s).
Proof.
  replace (Z.of_nat (length (c :: s)) - 1) with (Z.of_nat (length s)) by (cbn [length]; lia).
  destruct s as [|d s]; [|by rewrite rest_ok]. cbn [length]. change (Z.of_nat 0 =? 0) with true. cbv iota.
  pose proof (trailing_stars_ok p 0) as Ht. rewrite Z.add_0_l in Ht. rewrite Ht. res_step.
  rewrite tmatch_nil, andb_true_r, Z.add_0_l. f_equal. apply reads_strip in Hreads as Hs. apply reads_empty in Hs.
  destruct (strip_stars p); case_bool_decide; naive_solver.
Qed.

Lemma literal_round d s : (s = [] → d ≠ NUL) →
  (c ← at0 (d :: p ++ [NUL]); s0 ← at0 (s ++ [NUL]);
   if decide (fold_case nocase c = fold_case nocase s0) then
     (if Z.of_nat (length s) - 1 =? 0 then
        plen ← trailing_stars (tail (d :: p ++ [NUL])) (Z.of_nat (length p));
        Ok ((plen =? 0) && (Z.of_nat (length s) - 1 =? 0))
      else smatch f nocase (tail (d :: p ++ [NUL])) (Z.of_nat (length p)) (tail (s ++ [NUL])) (Z.of_nat (length s) - 1))
   else Ok false) = Ok (tmatch nocase (TLit d :: ts) s).
Proof.
  intros Hd. cbn [at0 tail]. res_step. destruct s as [|c s]; cbn [app at0 tail tmatch tok_ok]; res_step.
  - rewrite decide_False; [done|]. specialize (Hd eq_refl). destruct nocase; [|done].
    change (fold_case true NUL) with NUL. unfold fold_case, tolower. destruct (_ && _) eqn:E; [|done]. intros Hn.
    apply (f_equal code) in Hn. apply andb_true_iff in E as [E1%Z.leb_le E2%Z.leb_le]. rewrite code_chr in Hn by lia.
    change (code NUL) with 0 in Hn. lia.
  - case_decide as Hc; [rewrite bool_decide_true by done; apply round_end|by rewrite bool_decide_false].
Qed.

Lemma star_loop_ok s : strip ts = ts → ts ≠ [] →
  star_loop (smatch f nocase (p ++ [NUL]) (Z.of_nat (length p))) (s ++ [NUL]) (Z.of_nat (length s)) =
    Ok (some_suffix (tmatch nocase ts) s).
Proof.
  intros Hstrip Hne. induction s as [|c s IH].
  - cbn -[tmatch]. rewrite tmatch_nil, Hstrip. by rewrite bool_decide_eq_false_2.
  - cbn [app star_loop]. replace (Z.of_nat (length (c :: s)) =? 0) with false by (cbn [length]; blia).
    change (c :: s ++ [NUL]) with ((c :: s) ++ [NUL]). rewrite rest_ok by done. res_step.
    cbn [some_suffix]. destruct (tmatch nocase ts (c :: s)); [done|].
    replace (Z.of_nat (length (c :: s)) - 1) with (Z.of_nat (length s)) by (cbn [length]; lia). by rewrite IH.
Qed.

Lemma class_round p1 neg items s0 s : class_token p1 = Some (TClass neg items, p) →
  (c1 ← at0 (p1 ++ [NUL]);
   let neg := bool_decide (c1 = "^"%char) in
   '(p', plen', matched) ←
     (if neg then class_loop nocase (tail (p1 ++ [NUL])) (Z.of_nat (S (length p1)) - 2) ((s0 :: s) ++ [NUL]) false
      else class_loop nocase (p1 ++ [NUL]) (Z.of_nat (S (length p1)) - 1) ((s0 :: s) ++ [NUL]) false);
   if xorb neg matched then
     (if Z.of_nat (length (s0 :: s)) - 1 =? 0 then
        plen ← trailing_stars p' plen'; Ok ((plen =? 0) && (Z.of_nat (length (s0 :: s)) - 1 =? 0))
      else smatch f nocase p' plen' (tail ((s0 :: s) ++ [NUL])) (Z.of_nat (length (s0 :: s)) - 1))
   else Ok false) = Ok (tmatch nocase (TClass neg items :: ts) (s0 :: s)).
Proof.
  intros (items' & E & [= -> <-])%class_token_inv. cbn [tmatch tok_ok].
  assert (Hend : ∀ b : bool, (if b then
     (if Z.of_nat (length (s0 :: s)) - 1 =? 0 then
        plen ← trailing_stars (p ++ [NUL]) (Z.of_nat (length p)); Ok ((plen =? 0) && (Z.of_nat (length (s0 :: s)) - 1 =? 0))
      else smatch f nocase (p ++ [NUL]) (Z.of_nat (length p)) (tail ((s0 :: s) ++ [NUL])) (Z.of_nat (length (s0 :: s)) - 1))
   else Ok false) = Ok (b && tmatch nocase ts s)) by (intros []; [apply round_end|done]).
  destruct p1 as [|c1 q].
  - cbn [app at0]. res_step. cbn [head] in *. rewrite (bool_decide_false (None = _)) in * by done.
    rewrite (bool_decide_false (NUL = _)) by done. cbv zeta.
    pose proof (class_loop_ok nocase _ [] _ _ s0 (s ++ [NUL]) false (le_n _) E) as Hl. cbn [app length] in *.
    change (Z.of_nat 1 - 1) with (Z.of_nat 0). rewrite Hl. res_step. cbn [orb]. apply Hend.
  - cbn [app at0 head] in *. res_step. destruct (decide (c1 = "^"%char)) as [->|Hne].
    + rewrite !bool_decide_true in * by done. cbn [tail length app] in *. cbv zeta.
      replace (Z.of_nat (S (S (length q))) - 2) with (Z.of_nat (length q)) by lia.
      rewrite (class_loop_ok nocase _ q _ _ s0 (s ++ [NUL]) false (le_n _) E). res_step. cbn [orb]. apply Hend.
    + rewrite (bool_decide_false (Some c1 = _)), (bool_decide_false (c1 = _)) in * by congruence. cbv zeta.
      replace (Z.of_nat (S (length (c1 :: q))) - 1) with (Z.of_nat (length (c1 :: q))) by lia.
      change (c1 :: q ++ [NUL]) with ((c1 :: q) ++ [NUL]).
      rewrite (class_loop_ok nocase _ (c1 :: q) _ _ s0 (s ++ [NUL]) false (le_n _) E). res_step. cbn [orb]. apply Hend.
Qed.
End equivalence.

Definition smatch_correct (nocase : bool) (p : bytes) : Prop := ∀ ts s fuel,
  reads p ts → (length p < fuel)%nat → (s = [] → reads_terminator ts = false) →
  smatch fuel nocase (p ++ [NUL]) (Z.of_nat (length p)) (s ++ [NUL]) (Z.of_nat (length s)) = Ok (tmatch nocase ts s).

Lemma smatch_star nocase p : smatch_correct nocase (strip_stars p) → smatch_correct nocase ("*"%char :: p).
Proof.
  intros IH ts0 s fuel Hr Hf _. destruct fuel as [|f]; [lia|].
  inversion Hr as [|? t rest ts E Hrest]; subst. injection E as <- <-.
  rewrite tmatch_strip. cbn [smatch length]. replace (Z.of_nat (S (length p)) =? 0) with false by blia.
  cbn [app at0]. res_step. rewrite decide_True by done. pose proof (skip_stars_ok p 1) as Hskip.
  replace (Z.of_nat (S (length p))) with (1 + Z.of_nat (length p)) by lia. rewrite Hskip. res_step. cbn [length] in Hf.
  apply reads_strip in Hrest. pose proof (strip_stars_length p) as Hle. pose proof (reads_empty _ _ Hrest) as Hemp.
  destruct (Z.eqb_spec (1 + Z.of_nat (length (strip_stars p))) 1) as [E|E].
  - assert (strip_stars p = []) as E0 by (apply nil_length_inv; lia). apply Hemp in E0 as ->. cbn [tmatch]. by rewrite some_suffix_nil.
  - cbn [tail]. replace (1 + Z.of_nat (length (strip_stars p)) - 1) with (Z.of_nat (length (strip_stars p))) by lia.
    apply star_loop_ok; [|apply strip_idem|intros E0; apply Hemp in E0; rewrite E0 in E; done].
    intros s' Hs'. apply IH; [done|lia|done].
Qed.

Lemma smatch_char nocase p t rest :
  first_token p = Some (t, rest) → t ≠ TStar → smatch_correct nocase rest → smatch_correct nocase p.
Proof.
  intros Et Ht IH ts0 s fuel Hr Hf Hnul. destruct fuel as [|f]; [lia|].
  inversion Hr as [|? t' rest' ts E Hrest]; subst; [done|]. rewrite Et in E. injection E as <- <-.
  pose proof (first_token_length _ _ _ Et) as Hlt. destruct p as [|c p1]; [done|].
  assert (Hnext : ∀ s', s' ≠ [] →
    smatch f nocase (rest ++ [NUL]) (Z.of_nat (length rest)) (s' ++ [NUL]) (Z.of_nat (length s')) = Ok (tmatch nocase ts s')).
  { intros s' Hs'. apply IH; [done|lia|done]. }
  cbn [smatch length]. replace (Z.of_nat (S (length p1)) =? 0) with false by blia. cbn [app at0]. res_step.
  unfold first_token in Et. destruct (decide (c = "*"%char)); [congruence|]. destruct (decide (c = "?"%char)).
  { injection Et as <- <-. destruct s as [|s0 s]; [done|].
    replace (Z.of_nat (length (s0 :: s)) =? 0) with false by (cbn [length]; blia).
    replace (Z.of_nat (S (length p1)) - 1) with (Z.of_nat (length p1)) by lia. cbn [tail app tmatch tok_ok andb].
    by apply round_end. }
  destruct (decide (c = "["%char)).
  { pose proof Et as (items & _ & ->)%class_token_inv. destruct s as [|s0 s]; [by specialize (Hnul eq_refl)|].
    cbn [tail]. by apply (class_round nocase f rest ts Hrest Hnext). }
  destruct (decide (c = "\"%char)) as [->|Hbs].
  - rewrite bool_decide_true by done. destruct p1 as [|d p2]; injection Et as <- <-.
    + change (_ >=? 2) with false. cbn [andb]. change (Z.of_nat (S (length [])) - 1) with (Z.of_nat (length (@nil ascii))).
      by apply (literal_round nocase f [] ts Hrest Hnext).
    + replace (Z.of_nat (S (length (d :: p2))) >=? 2) with true by (cbn [length]; blia). cbn [andb tail app].
      replace (Z.of_nat (S (length (d :: p2))) - 1 - 1) with (Z.of_nat (length p2)) by (cbn [length]; lia).
      apply (literal_round nocase f p2 ts Hrest Hnext). intros ->. by specialize (Hnul eq_refl); apply bool_decide_eq_false in Hnul.
  - rewrite bool_decide_false by done. cbn [andb]. injection Et as <- <-.
    replace (Z.of_nat (S (length p1)) - 1) with (Z.of_nat (length p1)) by lia.
    apply (literal_round nocase f p1 ts Hrest Hnext). intros ->. by specialize (Hnul eq_refl); apply bool_decide_eq_false in Hnul.
Qed.

Lemma smatch_ok nocase n : ∀ p, (length p ≤ n)%nat → smatch_correct nocase p.
Proof.
  induction n as [|n IH]; intros [|c p] Hn ts s fuel Hr Hf Hnul; cbn [length] in Hn; try lia.
  1, 2: inversion Hr; [subst|done]; destruct fuel; [lia|]; by destruct s.
  inversion Hr as [|? t rest ts' E Hrest]; subst. destruct (first_token_star _ _ _ E) as [[-> [= -> ->]]|(Ht & _)].
  - apply (smatch_star nocase rest); [apply IH; pose proof (strip_stars_length rest); lia|done..].
  - apply first_token_length in E as Hlt. apply (smatch_char nocase _ t rest E Ht); [apply IH; cbn [length] in Hlt; lia|done..].
Qed.

Lemma stringmatchlen_reads nocase p ts s :
  reads p ts → (s = [] → reads_terminator ts = false) → stringmatchlen p s nocase = Ok (tmatch nocase ts s).
Proof. intros Hr Hnul. by apply (smatch_ok nocase (length p)); [|done|lia|]. Qed.

(** Bytes that stand for themselves. *)
Definition special (c : ascii) : bool :=
  bool_decide (c = "*"%char) || bool_decide (c = "?"%char) ||
  bool_decide (c = "["%char) || bool_decide (c = "\"%char).

Lemma reads_star p ts : reads p ts → reads ("*"%char :: p) (TStar :: ts).
Proof. by apply reads_cons. Qed.

Lemma reads_lits s p ts :
  forallb (fun c => negb (special c)) s = true → reads p ts → reads (s ++ p) (map TLit s ++ ts).
Proof.
  intros Hs Hr. induction s as [|c s IH]; [done|]. cbn in Hs. apply andb_true_iff in Hs as [Hc Hs].
  cbn [app map]. apply (reads_cons _ _ (s ++ p)); [|by apply IH]. unfold special in Hc. unfold first_token.
  repeat (case_decide; [by subst|]). done.
Qed.

(** C18: [stringmatchlen] implements the glob language, with and without regard to case.  A
    pattern is read as stars, question marks, (escaped) bytes and bracket classes with
    plain, escaped and range members, closed or ended by the end of the pattern; the
    function returns, without reading outside its arguments, whether the string is
    matched.  Excluded are a class that ends in a lone backslash, and the empty string
    with a pattern that starts with a class or a NUL byte. *)
Theorem stringmatchlen_correct nocase p ts s :
  glob_tokens p = Some ts → (s = [] → reads_terminator ts = false) →
  stringmatchlen p s nocase = Ok (tmatch nocase ts s).
Proof. intros E%tokens_of_reads. by apply stringmatchlen_reads. Qed.

Lemma stringmatchlen_correct_witness :
  stringmatchlen (lit "A*[^x-zb\C]?[ab") (lit "acc.cqB") true = Ok true.
Proof.
  apply (stringmatchlen_correct true (lit "A*[^x-zb\C]?[ab")
    [TLit "A"; TStar; TClass true [CRange "x" "z"; CChar "b"; CEsc "C"]; TAny; TClass false [CChar "a"; CChar "b"]] (lit "acc.cqB")).
  - vm_compute. reflexivity.
  - discriminate.
Defined.
