(* ===== verification/Sds.v ===== *)
(** src/src/sds.c: the sds library functions that the relational code uses, at
    the level of the byte string an sds holds: number formatting, [sdscatfmt],
    comparison, splitting and joining. *)

From S2P Require Import Prelude CString.

(** * sdsll2str, sdsull2str *)

(** The [do ... while (v)] loop: the digits of [v], least significant first.
    A 64-bit value has at most 20 digits. *)
Fixpoint rev_digits (fuel : nat) (v : Z) : bytes :=
  match fuel with
  | O => []
  | S f => digit (v mod 10) :: (if v / 10 =? 0 then [] else rev_digits f (v / 10))
  end.

(** The in-place reversal: swap [s[i]] and [s[j]] while [i < j]. *)
Fixpoint reverse_loop (fuel : nat) (s : bytes) (i j : nat) : bytes :=
  match fuel with
  | O => s
  | S f =>
      if (i <? j)%nat then
        match s !! i, s !! j with
        | Some a, Some b => reverse_loop f (<[j := a]> (<[i := b]> s)) (S i) (pred j)
        | _, _ => s
        end
      else s
  end.
Definition reverse_in_place (s : bytes) : bytes := reverse_loop (length s) s 0 (length s - 1).

(** [int sdsll2str(char *s, long long value)]: the string left in [s] (its
    length is the returned value). *)
Definition sdsll2str (value : Z) : bytes :=
  let v := to_unsigned 64 (if value <? 0 then to_signed 64 (- value) else value) in
  reverse_in_place (rev_digits 20 v ++ (if value <? 0 then ["-"%char] else [])).

(** [int sdsull2str(char *s, unsigned long long v)]. *)
Definition sdsull2str (v : Z) : bytes := reverse_in_place (rev_digits 20 v).

(** [sds sdsfromlonglong(long long value)]. *)
Definition sdsfromlonglong (value : Z) : bytes := sdsll2str value.

Example sdsll2str_ex : sdsll2str (-1203) = lit "-1203".
Proof. vm_compute. reflexivity. Qed.
Example sdsll2str_min : sdsll2str LLONG_MIN = lit "-9223372036854775808".
Proof. vm_compute. reflexivity. Qed.

(** * sdscatfmt *)

Inductive fmtarg :=
| FStr (s : bytes)
| FSds (s : bytes)
| FInt (z : Z)
| FUint (z : Z).

(** [sdscatfmt(s, fmt, ...)] on the bytes of [fmt] before its NUL; an argument
    that is missing or of another type than the conversion asks for is undefined
    behaviour of [va_arg].  After a ['%'] that ends the format the loop steps
    over the terminating NUL and reads beyond the format. *)
Fixpoint sdscatfmt (s : bytes) (fmt : bytes) (args : list fmtarg) : res bytes :=
  match fmt with
  | [] => Ok s
  | c :: f =>
      if decide (c = "%"%char) then
        match f with
        | [] => Fault OutOfBounds
        | next :: f' =>
            if decide (next = "s"%char) then
              match args with
              | FStr str :: args' => sdscatfmt (s ++ cstr str) f' args'
              | _ => Fault Uninitialised
              end
            else if decide (next = "S"%char) then
              match args with
              | FSds str :: args' => sdscatfmt (s ++ str) f' args'
              | _ => Fault Uninitialised
              end
            else if decide (next = "i"%char ∨ next = "I"%char) then
              match args with
              | FInt z :: args' => sdscatfmt (s ++ sdsll2str z) f' args'
              | _ => Fault Uninitialised
              end
            else if decide (next = "u"%char ∨ next = "U"%char) then
              match args with
              | FUint z :: args' => sdscatfmt (s ++ sdsull2str z) f' args'
              | _ => Fault Uninitialised
              end
            else sdscatfmt (s ++ [next]) f' args
        end
      else sdscatfmt (s ++ [c]) f args
  end.

(** * sdscmp *)

Definition sdscmp (s1 s2 : bytes) : Z :=
  let l1 := length s1 in
  let l2 := length s2 in
  let cmp := memcmp s1 s2 (Nat.min l1 l2) in
  if cmp =? 0 then Z.of_nat l1 - Z.of_nat l2 else cmp.

(** * sdssplitlen, sdsjoinsds *)

Definition slice (s : bytes) (start len : nat) : bytes := take len (drop start s).

(** The [for] loop of [sdssplitlen] followed by the final element. *)
Fixpoint split_loop (fuel : nat) (s sep : bytes) (j start : nat) (tokens : list bytes)
    : list bytes :=
  match fuel with
  | O => tokens
  | S f =>
      if (j + length sep <=? length s)%nat then
        if bool_decide (slice s j (length sep) = sep) then
          split_loop f s sep (j + length sep) (j + length sep)
            (tokens ++ [slice s start (j - start)])
        else split_loop f s sep (S j) start tokens
      else tokens ++ [slice s start (length s - start)]
  end.

(** [sdssplitlen(s, len, sep, seplen, &count)]: NULL for an empty separator. *)
Definition sdssplitlen (s sep : bytes) : option (list bytes) :=
  if (length sep <? 1)%nat then None
  else if (length s =? 0)%nat then Some []
  else Some (split_loop (S (length s)) s sep 0 0 []).

(** [sdssplit(s, sep, &count)]. *)
Definition sdssplit (s sep : bytes) : option (list bytes) := sdssplitlen s (cstr sep).

(** [sdsjoinsds(argv, argc, sep, seplen)]. *)
Fixpoint joinsds_loop (join : bytes) (argv : list bytes) (sep : bytes) : bytes :=
  match argv with
  | [] => join
  | [a] => join ++ a
  | a :: argv' => joinsds_loop (join ++ a ++ sep) argv' sep
  end.
Definition sdsjoinsds (argv : list bytes) (sep : bytes) : bytes := joinsds_loop [] argv sep.

Example sdssplit_ex : sdssplit (lit "foo_-_bar") (lit "_-_") = Some [lit "foo"; lit "bar"].
Proof. vm_compute. reflexivity. Qed.
Example sdssplit_ex2 : sdssplit (lit "2,,4") (lit ",") = Some [lit "2"; []; lit "4"].
Proof. vm_compute. reflexivity. Qed.

(** * Facts *)

(** One conversion of [sdscatfmt] at a time. *)
Lemma sdscatfmt_str s f a args :
  sdscatfmt s ("%"%char :: "s"%char :: f) (FStr a :: args) = sdscatfmt (s ++ cstr a) f args.
Proof. done. Qed.
Lemma sdscatfmt_sds s f a args :
  sdscatfmt s ("%"%char :: "S"%char :: f) (FSds a :: args) = sdscatfmt (s ++ a) f args.
Proof. done. Qed.
Lemma sdscatfmt_int s f z args :
  sdscatfmt s ("%"%char :: "i"%char :: f) (FInt z :: args) = sdscatfmt (s ++ sdsll2str z) f args.
Proof. done. Qed.
Lemma sdscatfmt_nil s args : sdscatfmt s [] args = Ok s.
Proof. done. Qed.
Lemma sdscatfmt_lit s c f args :
  bool_decide (c = "%"%char) = false → sdscatfmt s (c :: f) args = sdscatfmt (s ++ [c]) f args.
Proof. intros H%bool_decide_eq_false. cbn [sdscatfmt]. by rewrite decide_False. Qed.
Create Rewrite HintDb fmt.
#[export] Hint Rewrite sdscatfmt_str sdscatfmt_sds sdscatfmt_int sdscatfmt_nil : fmt.
#[export] Hint Rewrite sdscatfmt_lit using reflexivity : fmt.

(** Evaluate a call of [sdscatfmt] with a literal format. *)
Ltac catfmt := cbn [lit String.list_ascii_of_string]; autorewrite with fmt; cbn [app].

Lemma rev_digits_u2s fuel v :
  0 ≤ v → v < 10 ^ Z.of_nat fuel → (0 < fuel)%nat → rev (rev_digits fuel v) = u2s v.
Proof.
  revert v. induction fuel as [|fuel IH]; intros v Hv Hlt Hf; [lia|].
  cbn [rev_digits]. rewrite u2s_eq by lia.
  destruct (Z.ltb_spec v 10) as [H|H].
  - rewrite Z.div_small by lia. simpl. by rewrite Z.mod_small by lia.
  - assert (0 < v / 10) by (apply Z.div_str_pos; lia).
    destruct (Z.eqb_spec (v / 10) 0); [lia|]. cbn [rev]. f_equal. apply IH; [lia| |].
    + rewrite Nat2Z.inj_succ, Z.pow_succ_r in Hlt by lia. apply Z.div_lt_upper_bound; lia.
    + destruct fuel; [|lia]. simpl in Hlt. lia.
Qed.

Lemma reverse_loop_rev fuel pre mid post :
  (length mid ≤ 2 * fuel + 1)%nat →
  reverse_loop fuel (pre ++ mid ++ post) (length pre) (length pre + length mid - 1) =
    pre ++ rev mid ++ post.
Proof.
  revert pre mid post. induction fuel as [|fuel IH]; intros pre mid post Hlen.
  { cbn [reverse_loop]. destruct mid as [|a [|b mid]]; simpl in *; [done|done|lia]. }
  cbn [reverse_loop]. destruct (Nat.ltb_spec (length pre) (length pre + length mid - 1)) as [Hlt|Hge].
  2:{ destruct mid as [|a [|b mid]]; simpl in *; [done|done|lia]. }
  destruct mid as [|a mid]; [simpl in *; lia|].
  destruct mid as [|b mid _] using rev_ind; [simpl in *; lia|].
  assert (Ej : (length pre + length (a :: mid ++ [b]) - 1)%nat = (length (pre ++ a :: mid))%nat)
    by (rewrite !length_app; simpl; rewrite length_app; simpl; lia).
  rewrite Ej. replace (pre ++ (a :: mid ++ [b]) ++ post) with ((pre ++ a :: mid) ++ b :: post)
    by (by rewrite <- !app_assoc; simpl; rewrite <- app_assoc).
  rewrite lookup_app_mid. rewrite <- app_assoc. cbn [app]. rewrite lookup_app_mid.
  rewrite (insert_app_r_alt pre) by lia. rewrite Nat.sub_diag. cbn [insert list_insert].
  replace (length (pre ++ a :: mid)) with (length (pre ++ b :: mid)) by (rewrite !length_app; done).
  replace (pre ++ b :: mid ++ b :: post) with ((pre ++ b :: mid) ++ b :: post) by (by rewrite <- app_assoc).
  rewrite insert_app_r_alt by lia. rewrite Nat.sub_diag. cbn [insert list_insert].
  specialize (IH (pre ++ [b]) mid (a :: post)).
  replace (length (pre ++ [b])) with (S (length pre)) in IH by (rewrite length_app; simpl; lia).
  replace (pred (length (pre ++ b :: mid))) with (S (length pre) + length mid - 1)%nat
    by (rewrite length_app; simpl; lia).
  rewrite <- !app_assoc. rewrite <- !app_assoc in IH. cbn [app] in *. rewrite IH.
  - cbn [rev]. rewrite rev_app_distr. cbn. by rewrite <- !app_assoc.
  - simpl in Hlen. rewrite length_app in Hlen. simpl in Hlen. lia.
Qed.

Lemma reverse_in_place_rev s : reverse_in_place s = rev s.
Proof.
  unfold reverse_in_place. pose proof (reverse_loop_rev (length s) [] s []) as H.
  cbn [app length Nat.add] in H. rewrite !app_nil_r in H. apply H. lia.
Qed.

Lemma sdsull2str_u2s v : 0 ≤ v ≤ ULLONG_MAX → sdsull2str v = u2s v.
Proof.
  intros Hv. unfold sdsull2str. rewrite reverse_in_place_rev. apply rev_digits_u2s; [lia| |lia].
  unfold ULLONG_MAX in *. change (10 ^ Z.of_nat 20) with 100000000000000000000. lia.
Qed.

Lemma sdsll2str_d2s z : LLONG_MIN ≤ z ≤ LLONG_MAX → sdsll2str z = d2s z.
Proof.
  intros Hz. unfold sdsll2str, d2s. rewrite reverse_in_place_rev.
  assert (H20 : 10 ^ Z.of_nat 20 = 100000000000000000000) by done.
  unfold LLONG_MIN, LLONG_MAX in *. destruct (Z.ltb_spec z 0) as [H|H].
  - assert (E : to_unsigned 64 (to_signed 64 (- z)) = - z).
    { unfold to_unsigned, to_signed. change (2 ^ 64) with 18446744073709551616.
      change (2 ^ (64 - 1)) with 9223372036854775808.
      rewrite (Z.mod_small (- z)) by lia. destruct (Z.ltb_spec (- z) 9223372036854775808).
      - by rewrite Z.mod_small by lia.
      - replace z with (-9223372036854775808) by lia. done. }
    rewrite E, rev_app_distr. cbn [rev app]. f_equal. apply rev_digits_u2s; lia.
  - rewrite app_nil_r. unfold to_unsigned. rewrite Z.mod_small by lia. apply rev_digits_u2s; lia.
Qed.

Lemma rev_digits_length fuel v k :
  0 ≤ v < 10 ^ Z.of_nat k → (0 < k)%nat → (length (rev_digits fuel v) ≤ k)%nat.
Proof.
  revert v k. induction fuel as [|fuel IH]; intros v k Hv Hk; simpl; [lia|].
  destruct (Z.eqb_spec (v / 10) 0) as [|Hne]; simpl; [lia|].
  assert (0 < v / 10) by (pose proof (Z.div_pos v 10); lia).
  destruct k as [|k]; [lia|]. rewrite Nat2Z.inj_succ, Z.pow_succ_r in Hv by lia.
  assert (v / 10 < 10 ^ Z.of_nat k) by (apply Z.div_lt_upper_bound; lia).
  assert (k ≠ O) by (intros ->; simpl in *; lia).
  specialize (IH (v / 10) k). lia.
Qed.

(** The two formatting routines stay inside [char buf[SDS_LLSTR_SIZE]], which
    has 21 bytes including the terminator. *)
Lemma sdsll2str_length z : LLONG_MIN ≤ z ≤ LLONG_MAX → (length (sdsll2str z) < 21)%nat.
Proof.
  intros Hz. unfold sdsll2str. rewrite reverse_in_place_rev, length_rev, length_app.
  unfold LLONG_MIN, LLONG_MAX in *.
  assert (H19 : 10 ^ Z.of_nat 19 = 10000000000000000000) by done.
  assert (Hv : 0 ≤ to_unsigned 64 (if z <? 0 then to_signed 64 (- z) else z) ≤ 9223372036854775808).
  { destruct (Z.ltb_spec z 0) as [H|H]; unfold to_unsigned, to_signed;
      change (2 ^ 64) with 18446744073709551616;
      change (2 ^ (64 - 1)) with 9223372036854775808; [|rewrite Z.mod_small; lia].
    rewrite (Z.mod_small (- z)) by lia. destruct (Z.ltb_spec (- z) 9223372036854775808).
    - rewrite Z.mod_small; lia.
    - replace z with (-9223372036854775808) by lia. vm_compute. split; discriminate. }
  revert Hv. generalize (to_unsigned 64 (if z <? 0 then to_signed 64 (- z) else z)). intros v Hv.
  assert (length (rev_digits 20 v) ≤ 19)%nat by (apply rev_digits_length; lia).
  destruct (z <? 0); cbn [length]; lia.
Qed.

(** ** Splitting and joining *)

Definition sep_all (sep : bytes) (l : list bytes) : bytes := concat (map (.++ sep) l).

Lemma joinsds_loop_app join argv sep :
  joinsds_loop join argv sep = join ++ joinsds_loop [] argv sep.
Proof.
  revert join. induction argv as [|a argv IH]; intros join; simpl; [by rewrite app_nil_r|].
  destruct argv as [|b argv]; [done|]. rewrite IH, (IH (a ++ sep)).
  by rewrite <- !app_assoc.
Qed.

Lemma sdsjoinsds_cons a argv sep :
  argv ≠ [] → sdsjoinsds (a :: argv) sep = a ++ sep ++ sdsjoinsds argv sep.
Proof.
  intros Hne. unfold sdsjoinsds. destruct argv as [|b argv]; [done|].
  change (joinsds_loop [] (a :: b :: argv) sep)
    with (joinsds_loop ([] ++ a ++ sep) (b :: argv) sep).
  rewrite joinsds_loop_app. cbn [app]. by rewrite <- app_assoc.
Qed.

Lemma sdsjoinsds_snoc l a sep : sdsjoinsds (l ++ [a]) sep = sep_all sep l ++ a.
Proof.
  induction l as [|b l IH]; [done|]. rewrite <- app_comm_cons, sdsjoinsds_cons.
  - rewrite IH. unfold sep_all. cbn. by rewrite <- !app_assoc.
  - by destruct l.
Qed.

Lemma sdsjoinsds_nonul l sep : Forall nonul l → nonul sep → nonul (sdsjoinsds l sep).
Proof.
  intros Hl Hs. induction Hl as [|x l Hx _ IH]; [by apply (bool_decide_unpack _)|].
  destruct (decide (l = [])) as [->|Hne]; [done|]. by rewrite sdsjoinsds_cons, !nonul_app by done.
Qed.

Lemma sep_all_snoc sep l a : sep_all sep (l ++ [a]) = sep_all sep l ++ a ++ sep.
Proof. unfold sep_all. rewrite map_app, concat_app. cbn. by rewrite app_nil_r. Qed.

Lemma slice_take (s : bytes) start j :
  (start ≤ j)%nat → take j s = take start s ++ slice s start (j - start).
Proof.
  intros H. unfold slice. rewrite take_drop_commute.
  replace (start + (j - start))%nat with j by lia.
  rewrite <- (take_drop start (take j s)) at 1. rewrite take_take.
  by replace (start `min` j)%nat with start by lia.
Qed.

Lemma split_loop_join fuel s sep j start tokens :
  sep ≠ [] → (start ≤ j)%nat → (j ≤ length s)%nat → (length s < fuel + j)%nat →
  sep_all sep tokens = take start s →
  sdsjoinsds (split_loop fuel s sep j start tokens) sep = s.
Proof.
  intros Hsep. assert (Hl : (0 < length sep)%nat) by (destruct sep; simpl; [done|lia]).
  revert j start tokens. induction fuel as [|fuel IH]; intros j start tokens H1 H2 H3 Htok; [lia|].
  cbn [split_loop]. destruct (Nat.leb_spec (j + length sep) (length s)).
  - case_bool_decide as Heq; [|apply IH; (done || lia)].
    apply IH; [lia|lia|lia|]. rewrite sep_all_snoc, Htok, app_assoc, <- slice_take by done.
    rewrite (slice_take s j (j + length sep)) by lia.
    by replace (j + length sep - j)%nat with (length sep) by lia; rewrite Heq.
  - rewrite sdsjoinsds_snoc, Htok, <- slice_take by lia. by rewrite take_ge.
Qed.

(** No occurrence of a one-byte separator before the end of the text: the loop
    runs to the end and adds the final element. *)
Lemma split_loop_last fuel c pre cur x tokens :
  (length x < fuel)%nat → c ∉ x →
  split_loop fuel (pre ++ cur ++ x) [c] (length (pre ++ cur)) (length pre) tokens =
    tokens ++ [cur ++ x].
Proof.
  revert cur x. induction fuel as [|fuel IH]; intros cur x Hf Hx; [lia|].
  cbn [split_loop]. simpl length. rewrite !length_app.
  destruct x as [|d x]; simpl.
  - destruct (Nat.leb_spec (length pre + length cur + 1) (length pre + (length cur + 0))); [lia|].
    rewrite app_nil_r. unfold slice. rewrite drop_app_length. do 2 f_equal. apply take_ge. lia.
  - destruct (Nat.leb_spec (length pre + length cur + 1) (length pre + (length cur + S (length x)))); [|lia].
    apply not_elem_of_cons in Hx as [Hd Hx].
    rewrite bool_decide_false.
    + specialize (IH (cur ++ [d]) x). rewrite <- app_assoc in IH. cbn [app] in IH.
      replace (S (length pre + length cur)) with (length (pre ++ cur ++ [d]))
        by (rewrite !length_app; simpl; lia).
      replace (length pre + length cur)%nat with (length (pre ++ cur)) by (by rewrite length_app).
      rewrite IH; [done|simpl in Hf; lia|done].
    + unfold slice. rewrite app_assoc. rewrite <- length_app, drop_app_length. simpl. congruence.
Qed.

Lemma split_loop_token fuel c pre cur x rest tokens :
  (length x < fuel)%nat → c ∉ x →
  split_loop fuel (pre ++ cur ++ x ++ c :: rest) [c] (length (pre ++ cur)) (length pre) tokens =
    split_loop (fuel - S (length x)) ((pre ++ cur ++ x ++ [c]) ++ rest) [c]
      (length (pre ++ cur ++ x ++ [c])) (length (pre ++ cur ++ x ++ [c]))
      (tokens ++ [cur ++ x]).
Proof.
  revert fuel cur. induction x as [|d x IH]; intros fuel cur Hf Hx;
    (destruct fuel as [|fuel]; [simpl in Hf; lia|]); cbn [split_loop]; simpl length.
  - rewrite !length_app. simpl.
    destruct (Nat.leb_spec (length pre + length cur + 1) (length pre + (length cur + S (length rest)))); [|lia].
    rewrite bool_decide_true.
    + rewrite app_nil_r. rewrite Nat.sub_0_r. rewrite <- !app_assoc. cbn [app].
      replace (length pre + (length cur + 1))%nat with (length pre + length cur + 1)%nat by lia.
      f_equal. f_equal. f_equal. unfold slice. rewrite drop_app_length.
      replace (length pre + length cur - length pre)%nat with (length cur) by lia.
      by rewrite take_app_length.
    + unfold slice. rewrite app_assoc, <- length_app, drop_app_length. done.
  - apply not_elem_of_cons in Hx as [Hd Hx]. simpl in Hf.
    cbn [app]. match goal with |- context [Nat.leb ?a ?b] => destruct (Nat.leb_spec a b) as [_|Hle] end;
      [|rewrite !length_app in Hle; simpl in Hle; rewrite !length_app in Hle; simpl in Hle; lia].
    rewrite bool_decide_false.
    + specialize (IH fuel (cur ++ [d])). rewrite <- !app_assoc in IH. cbn [app] in IH.
      replace (S (length (pre ++ cur))) with (length (pre ++ cur ++ [d]))
        by (rewrite !length_app; simpl; lia).
      rewrite IH by (done || lia). by rewrite <- !app_assoc; cbn [app]; rewrite <- app_assoc.
    + unfold slice. rewrite app_assoc, drop_app_length. simpl. congruence.
Qed.

Lemma split_loop_join_inv c xs : ∀ fuel pre tokens,
  xs ≠ [] → Forall (fun x => c ∉ x) xs → (length (sdsjoinsds xs [c]) < fuel)%nat →
  split_loop fuel (pre ++ sdsjoinsds xs [c]) [c] (length pre) (length pre) tokens = tokens ++ xs.
Proof.
  induction xs as [|x xs IH]; intros fuel pre tokens Hne Hxs Hf; [done|].
  inversion Hxs as [|? ? Hx Hxs']; subst. destruct (decide (xs = [])) as [->|Hxs0].
  - change (sdsjoinsds [x] [c]) with x in *.
    pose proof (split_loop_last fuel c pre [] x tokens Hf Hx) as E.
    rewrite app_nil_r in E. exact E.
  - rewrite sdsjoinsds_cons in * by done. rewrite !length_app in Hf. simpl in Hf.
    pose proof (split_loop_token fuel c pre [] x (sdsjoinsds xs [c]) tokens ltac:(lia) Hx) as E.
    cbn [app] in *. rewrite app_nil_r in E. rewrite E, IH by (done || lia).
    by rewrite <- app_assoc.
Qed.

Lemma sdssplitlen_join xs c :
  xs ≠ [] → Forall (fun x => c ∉ x) xs → sdsjoinsds xs [c] ≠ [] →
  sdssplitlen (sdsjoinsds xs [c]) [c] = Some xs.
Proof.
  intros Hne Hxs Hj. unfold sdssplitlen. cbn [length Nat.ltb Nat.leb].
  destruct (Nat.eqb_spec (length (sdsjoinsds xs [c])) 0); [by destruct (sdsjoinsds xs [c])|].
  f_equal. apply (split_loop_join_inv c xs _ [] []); [done|done|lia].
Qed.

(** * Properties *)

(** [sdssplitlen] loses nothing: whatever the (non-empty) separator, joining
    the pieces of a non-empty string with the separator gives the string back. *)
Theorem join_of_split s sep :
  s ≠ [] → sep ≠ [] →
  ∃ tokens, sdssplitlen s sep = Some tokens ∧ sdsjoinsds tokens sep = s.
Proof.
  intros Hs Hsep. unfold sdssplitlen.
  destruct (Nat.ltb_spec (length sep) 1); [destruct sep; [done|simpl in *; lia]|].
  destruct (Nat.eqb_spec (length s) 0); [by destruct s|].
  eexists. split; [done|]. apply split_loop_join; [done|lia|lia|lia|done].
Qed.

Lemma join_of_split_witness :
  ∃ tokens, sdssplitlen (lit "a,,b,") (lit ",") = Some tokens ∧ sdsjoinsds tokens (lit ",") = lit "a,,b,".
Proof. apply (join_of_split (lit "a,,b,") (lit ",")); discriminate. Defined.

(** splitting a joined list at a one-byte separator gives the list back, if no
    element holds the separator and the joined text is not empty. *)
Theorem split_of_join xs c :
  xs ≠ [] → Forall (fun x => c ∉ x) xs → sdsjoinsds xs [c] ≠ [] →
  sdssplitlen (sdsjoinsds xs [c]) [c] = Some xs.
Proof. apply sdssplitlen_join. Qed.

Lemma split_of_join_witness :
  sdssplitlen (lit "1,,25") (lit ",") = Some [lit "1"; []; lit "25"].
Proof.
  apply (split_of_join [lit "1"; []; lit "25"] ","%char); [discriminate| |discriminate].
  by apply (bool_decide_unpack _).
Defined.

(** [sdsll2str] writes the decimal numeral of any [long long], the smallest one
    included, and needs at most 20 of the 21 bytes of its callers' buffers. *)
Theorem sdsll2str_exact z :
  LLONG_MIN ≤ z ≤ LLONG_MAX → sdsll2str z = d2s z ∧ (length (sdsll2str z) < 21)%nat.
Proof. intros Hz. split; [by apply sdsll2str_d2s|by apply sdsll2str_length]. Qed.

Lemma sdsll2str_exact_witness :
  sdsll2str LLONG_MIN = lit "-9223372036854775808" ∧ (length (sdsll2str LLONG_MIN) < 21)%nat.
Proof.
  destruct (sdsll2str_exact LLONG_MIN) as [H1 H2]; [unfold LLONG_MIN, LLONG_MAX; lia|].
  split; [rewrite H1; vm_compute; reflexivity|exact H2].
Defined.
