(* ===== verification/Args.v ===== *)
(** src/src/sds.c: [sdstrim], [sdstolower], [sdscatrepr] and [sdssplitargs], the
    reader of configuration lines and inline commands.  What [sdscatrepr] quotes
    [sdssplitargs] reads back, for all byte strings. *)

From S2P Require Import Prelude CString Sds.

(** * Trimming and case *)

(** [strchr(cset, c)] also finds the terminator of [cset]. *)
Definition strchr (cset : bytes) (c : ascii) : bool := bool_decide (c ∈ cset ++ [NUL]).

Fixpoint trim_start (cset s : bytes) : bytes :=
  match s with c :: s' => if strchr cset c then trim_start cset s' else s | [] => [] end.

(** The end pointer does not pass the start pointer, so one byte of a remainder
    always stays; after [trim_start] it is not in [cset]. *)
Definition sdstrim (s cset : bytes) : bytes :=
  match trim_start cset s with
  | [] => []
  | c :: s' => c :: rev (trim_start cset (rev s'))
  end.

Definition sdstolower (s : bytes) : bytes := map tolower s.

(** * Quoting *)

Definition isprint (c : ascii) : bool := (32 <=? code c) && (code c <=? 126).

(** [%02x]. *)
Definition hex_char (n : Z) : ascii := if n <? 10 then chr (48 + n) else chr (87 + n).
Definition hex2 (c : ascii) : bytes := [hex_char (code c / 16); hex_char (code c mod 16)].

Definition DQUOTE : ascii := "034"%char.
Definition SQUOTE : ascii := "039"%char.
Definition BACKSLASH : ascii := "092"%char.

Definition repr_char (c : ascii) : bytes :=
  if bool_decide (c = BACKSLASH ∨ c = DQUOTE) then [BACKSLASH; c]
  else if bool_decide (c = "010"%char) then [BACKSLASH; "n"%char]
  else if bool_decide (c = "013"%char) then [BACKSLASH; "r"%char]
  else if bool_decide (c = "009"%char) then [BACKSLASH; "t"%char]
  else if bool_decide (c = "007"%char) then [BACKSLASH; "a"%char]
  else if bool_decide (c = "008"%char) then [BACKSLASH; "b"%char]
  else if isprint c then [c]
  else BACKSLASH :: "x"%char :: hex2 c.

Fixpoint repr_loop (s p : bytes) : bytes :=
  match p with [] => s | c :: p' => repr_loop (s ++ repr_char c) p' end.

Definition sdscatrepr (s p : bytes) : bytes := repr_loop (s ++ [DQUOTE]) p ++ [DQUOTE].

(** * Splitting *)

Definition is_hex_digit (c : ascii) : bool :=
  ((48 <=? code c) && (code c <=? 57)) || ((97 <=? code c) && (code c <=? 102))
  || ((65 <=? code c) && (code c <=? 70)).

Definition hex_digit_to_int (c : ascii) : Z :=
  if (48 <=? code c) && (code c <=? 57) then code c - 48
  else if (97 <=? code c) && (code c <=? 102) then code c - 87
  else if (65 <=? code c) && (code c <=? 70) then code c - 55
  else 0.

Definition unescape (c : ascii) : ascii :=
  if bool_decide (c = "n"%char) then "010"%char
  else if bool_decide (c = "r"%char) then "013"%char
  else if bool_decide (c = "t"%char) then "009"%char
  else if bool_decide (c = "b"%char) then "008"%char
  else if bool_decide (c = "a"%char) then "007"%char
  else c.

(** The flags [inq] and [insq]. *)
Inductive quoting := Unquoted | InDouble | InSingle.

(** The byte [p[i]]; the string ends with NUL. *)
Definition peek (p : bytes) (i : nat) : ascii := default NUL (p !! i).

(** The closing quote is at the end or before a blank. *)
Definition closes (p : bytes) : bool := match p with [] => true | c :: _ => is_space c end.

(** The loop of one token: the token and the rest of the line, [None] for the jump
    to [err]. *)
Fixpoint split_token (p : bytes) (q : quoting) (current : bytes) : option (bytes * bytes) :=
  match q with
  | InDouble =>
      match p with
      | [] => None
      | c :: p1 =>
          if bool_decide (c = BACKSLASH) then
            match p1 with
            | [] => split_token p1 q (current ++ [c])
            | d :: p2 =>
                if bool_decide (d = "x"%char) && is_hex_digit (peek p2 0) && is_hex_digit (peek p2 1) then
                  match p2 with
                  | h :: l :: p4 =>
                      split_token p4 q (current ++ [chr (hex_digit_to_int h * 16 + hex_digit_to_int l)])
                  | _ => None
                  end
                else split_token p2 q (current ++ [unescape d])
            end
          else if bool_decide (c = DQUOTE) then (if closes p1 then Some (current, p1) else None)
          else split_token p1 q (current ++ [c])
      end
  | InSingle =>
      match p with
      | [] => None
      | c :: p1 =>
          if bool_decide (c = BACKSLASH) && bool_decide (peek p1 0 = SQUOTE) then
            match p1 with d :: p2 => split_token p2 q (current ++ [SQUOTE]) | [] => None end
          else if bool_decide (c = SQUOTE) then (if closes p1 then Some (current, p1) else None)
          else split_token p1 q (current ++ [c])
      end
  | Unquoted =>
      match p with
      | [] => Some (current, [])
      | c :: p1 =>
          if bool_decide (c ∈ [" "; "010"; "013"; "009"]%char) then Some (current, p1)
          else if bool_decide (c = DQUOTE) then split_token p1 InDouble current
          else if bool_decide (c = SQUOTE) then split_token p1 InSingle current
          else split_token p1 q (current ++ [c])
      end
  end.

Fixpoint skip_blanks (p : bytes) : bytes :=
  match p with c :: p' => if is_space c then skip_blanks p' else p | [] => [] end.

Fixpoint args_loop (fuel : nat) (p : bytes) (vector : list bytes) : res (option (list bytes)) :=
  match skip_blanks p with
  | [] => Ok (Some vector)
  | p1 =>
      match fuel with
      | O => Fault OutOfFuel
      | S f =>
          match split_token p1 Unquoted [] with
          | None => Ok None
          | Some (current, p2) => args_loop f p2 (vector ++ [current])
          end
      end
  end.

(** Each token takes at least one byte of the line. *)
Definition sdssplitargs (line : bytes) : res (option (list bytes)) :=
  args_loop (length (cstr line)) (cstr line) [].

Example splitargs_ex :
  sdssplitargs (lit "a 'b c' " ++ [DQUOTE] ++ lit "\x41\n" ++ [DQUOTE]) =
    Ok (Some [lit "a"; lit "b c"; lit "A" ++ ["010"%char]]).
Proof. vm_compute. reflexivity. Qed.

(** * Termination *)

Lemma skip_blanks_le p : (length (skip_blanks p) ≤ length p)%nat.
Proof. induction p as [|c p IH]; cbn; [done|]. destruct (is_space c); cbn; lia. Qed.

Lemma split_token_shorter p : ∀ q cur tok rest,
  split_token p q cur = Some (tok, rest) →
  (length rest ≤ length p)%nat ∧ (p ≠ [] → length rest < length p)%nat.
Proof.
  induction p as [p IH] using (induction_ltof1 _ (@length ascii)). unfold ltof in IH.
  intros q cur tok rest. destruct p as [|c p1]; [destruct q; cbn; [intros [= <- <-]; done|done..]|].
  assert (H1 : ∀ p' q' cur', (length p' ≤ length p1)%nat → split_token p' q' cur' = Some (tok, rest) →
    (length rest ≤ length (c :: p1))%nat ∧ (c :: p1 ≠ [] → length rest < length (c :: p1))%nat).
  { intros p' q' cur' Hl E. apply IH in E as [E _]; cbn [length]; lia. }
  assert (H0 : ∀ cur', Some (cur', p1) = Some (tok, rest) →
    (length rest ≤ length (c :: p1))%nat ∧ (c :: p1 ≠ [] → length rest < length (c :: p1))%nat)
    by (intros cur' [= _ ->]; cbn [length]; lia).
  destruct q; cbn [split_token]; intros E.
  - repeat case_match; first [by eapply H0|by eapply H1; [|exact E]].
  - repeat case_match; try done; first [by eapply H0|eapply H1; [|exact E]; subst; cbn [length]; lia].
  - repeat case_match; try done; first [by eapply H0|eapply H1; [|exact E]; subst; cbn [length]; lia].
Qed.

Lemma args_loop_ok fuel : ∀ p v, (length p ≤ fuel)%nat → ∃ r, args_loop fuel p v = Ok r.
Proof.
  induction fuel as [|fuel IH]; intros p v Hl; unfold args_loop; fold args_loop;
    pose proof (skip_blanks_le p); destruct (skip_blanks p) as [|c p1] eqn:E; eauto; [cbn in *; lia|].
  destruct (split_token (c :: p1) Unquoted []) as [[tok p2]|] eqn:Et; [|eauto].
  apply split_token_shorter in Et as [_ Ht]. apply IH. specialize (Ht ltac:(done)). cbn in *. lia.
Qed.

(** * Reading what was quoted *)

(** Inside double quotes, the text of a byte gives that byte. *)
Lemma split_token_repr c rest cur :
  split_token (repr_char c ++ rest) InDouble cur = split_token rest InDouble (cur ++ [c]).
Proof. destruct c as [[] [] [] [] [] [] [] []]; reflexivity. Qed.

Lemma repr_loop_app p : ∀ s, repr_loop s p = s ++ concat (map repr_char p).
Proof. induction p as [|c p IH]; intros s; cbn; [by rewrite app_nil_r|]. by rewrite IH, <- app_assoc. Qed.

Lemma split_token_reprs p : ∀ rest cur,
  closes rest = true →
  split_token (concat (map repr_char p) ++ DQUOTE :: rest) InDouble cur = Some (cur ++ p, rest).
Proof.
  induction p as [|c p IH]; intros rest cur Hc; cbn [map concat app].
  - cbn. by rewrite Hc, app_nil_r.
  - rewrite <- app_assoc, split_token_repr, IH by done. by rewrite <- app_assoc.
Qed.

Lemma sdscatrepr_token s rest :
  closes rest = true → split_token (sdscatrepr [] s ++ rest) Unquoted [] = Some (s, rest).
Proof.
  intros Hc. unfold sdscatrepr. rewrite repr_loop_app. cbn [app]. rewrite <- app_assoc. cbn [app].
  change (split_token (DQUOTE :: ?x) Unquoted []) with (split_token x InDouble []). by apply split_token_reprs.
Qed.

Lemma repr_char_nonul c : nonul (repr_char c).
Proof. destruct c as [[] [] [] [] [] [] [] []]; by apply (bool_decide_unpack _). Qed.

Lemma sdscatrepr_nonul s : nonul (sdscatrepr [] s).
Proof.
  unfold sdscatrepr. rewrite repr_loop_app. cbn [app]. apply nonul_cons. split; [done|].
  rewrite nonul_app. split; [|by apply (bool_decide_unpack _)].
  induction s as [|c s IH]; cbn; [by apply (bool_decide_unpack _)|]. rewrite nonul_app. split; [apply repr_char_nonul|done].
Qed.

(** Arguments as one line, quoted and separated by blanks. *)
Definition quoted_line (args : list bytes) : bytes := sdsjoinsds (map (sdscatrepr []) args) (lit " ").

Lemma quoted_line_cons a args :
  ∃ rest, quoted_line (a :: args) = sdscatrepr [] a ++ rest ∧ closes rest = true ∧
    skip_blanks rest = skip_blanks (quoted_line args) ∧ (length (quoted_line args) ≤ length rest)%nat.
Proof.
  unfold quoted_line. cbn [map]. destruct args as [|b args].
  - exists []. split; [by rewrite app_nil_r|]. done.
  - exists (lit " " ++ sdsjoinsds (map (sdscatrepr []) (b :: args)) (lit " ")).
    rewrite sdsjoinsds_cons by done. split_and!; try done. rewrite length_app. cbn. lia.
Qed.

Lemma args_loop_quoted args : ∀ fuel p v,
  skip_blanks p = skip_blanks (quoted_line args) → (length (quoted_line args) ≤ fuel)%nat →
  args_loop fuel p v = Ok (Some (v ++ args)).
Proof.
  induction args as [|a args IH]; intros fuel p v Hp Hl.
  - destruct fuel; unfold args_loop; rewrite Hp; cbn; by rewrite app_nil_r.
  - destruct (quoted_line_cons a args) as (rest & E & Hc & Hs & Hlen). rewrite E in Hp, Hl.
    assert (Hd : sdscatrepr [] a = DQUOTE :: concat (map repr_char a) ++ [DQUOTE])
      by (unfold sdscatrepr; by rewrite repr_loop_app).
    rewrite length_app, Hd in Hl. destruct fuel as [|fuel]; [cbn in Hl; lia|].
    unfold args_loop; fold args_loop. rewrite Hp.
    replace (skip_blanks (sdscatrepr [] a ++ rest)) with (sdscatrepr [] a ++ rest) by (by rewrite Hd).
    pose proof (sdscatrepr_token a rest Hc) as Et. rewrite Hd in *. cbn [app] in *. rewrite Et.
    rewrite IH; [by rewrite <- app_assoc|done|cbn in Hl; lia].
Qed.

(** * Properties *)

(** C28: what [sdscatrepr] writes, [sdssplitargs] reads: splitting the quoted forms of
    any byte strings, NUL bytes, quotes and line breaks included, returns these
    strings. *)
Theorem splitargs_reads_repr args : sdssplitargs (quoted_line args) = Ok (Some args).
Proof.
  unfold sdssplitargs. rewrite cstr_nonul; [by apply (args_loop_quoted args _ _ [])|].
  apply sdsjoinsds_nonul; [|by apply (bool_decide_unpack _)].
  apply Forall_forall. intros x (s & -> & _)%list_elem_of_fmap. apply sdscatrepr_nonul.
Qed.
