(* ===== verification/Vector.v ===== *)
(** src/src/stl.c, src/src/stl.h: the growable [Vector] and the [Stack] built on
    it.  A vector is its four fields; [data] is NULL or an array of slots, and a
    slot that was allocated but never written is [None].  [size] and [count] are
    64-bit [size_t] values with their wrap-around.  The theorems relate a
    well-formed vector to the list of pointers it holds. *)

From S2P Require Import Prelude.

Definition STL_TYPE_DEFAULT : Z := 0.
Definition STL_TYPE_SDS : Z := 1.
Definition STL_TYPE_LONG : Z := 2.
Definition STL_TYPE_ROBJ : Z := 3.
Definition INIT_VECTOR_SIZE : Z := 10.

Section vector.
  Context {A : Type}.

(** A datum: NULL or a pointer to an [A]. *)
#[local] Abbreviation ptr := (option A).

Record Vector := mkVector {
  v_type : Z;
  v_data : option (list (option ptr));
  v_size : Z;
  v_count : Z;
}.

(** Every type that fits in the two-bit field has 8-byte data; the panic of the
    last branch is kept. *)
Definition _vectorGetDatumSize (v : Vector) : res Z :=
  if v_type v =? STL_TYPE_DEFAULT then Ok 8
  else if v_type v =? STL_TYPE_LONG then Ok 8
  else if v_type v =? STL_TYPE_SDS then Ok 8
  else if v_type v =? STL_TYPE_ROBJ then Ok 8
  else Fault Panic.

(** The slots of an allocation of [bytes] bytes. *)
Definition slots (bytes : Z) : nat := Z.to_nat (to_size_t bytes / 8).
Definition zmalloc_slots (bytes : Z) : list (option ptr) := replicate (slots bytes) None.
Definition zrealloc_slots (old : list (option ptr)) (bytes : Z) : list (option ptr) :=
  take (slots bytes) old ++ replicate (slots bytes - length old) None.

Definition vectorInit : Vector := mkVector STL_TYPE_DEFAULT None 0 0.

(** The assignment to the bit field [unsigned type:2] keeps two bits. *)
Definition vectorTypeInit (type : Z) : Vector :=
  mkVector (type mod 4) (v_data vectorInit) (v_size vectorInit) (v_count vectorInit).

Definition vectorTypeInitWithSize (type size : Z) : res Vector :=
  let v := vectorTypeInit type in
  sz ← _vectorGetDatumSize v;
  Ok (mkVector (v_type v) (Some (zmalloc_slots (sz * size))) size (v_count v)).

Definition vectorCreate (type size : Z) : res Vector := vectorTypeInitWithSize type size.

Definition vectorCount (v : Vector) : Z := v_count v.

Definition vectorGet (v : Vector) (index : Z) : res ptr :=
  if v_count v <=? index then Ok None
  else data ← deref (v_data v);
       slot ← at_index data (Z.to_nat index);
       match slot with Some p => Ok p | None => Fault Uninitialised end.

Definition vectorSet (v : Vector) (index : Z) (datum : ptr) : res (rc * Vector) :=
  if v_count v <=? index then Ok (C_ERR, v)
  else if (v_type v =? STL_TYPE_DEFAULT) || (v_type v =? STL_TYPE_LONG)
          || (v_type v =? STL_TYPE_SDS) || (v_type v =? STL_TYPE_ROBJ) then
    data ← deref (v_data v);
    _ ← at_index data (Z.to_nat index);
    Ok (C_OK, mkVector (v_type v) (Some (<[Z.to_nat index := Some datum]> data))
                (v_size v) (v_count v))
  else Ok (C_ERR, v).

(** [vectorFreeDatum]: the pointer released, if any.  [zfree] and [sdsfree]
    ignore NULL, [decrRefCount] dereferences it; a [long] is not released. *)
Definition vectorFreeDatum (v : Vector) (datum : ptr) : res (list A) :=
  if (v_type v =? STL_TYPE_DEFAULT) || (v_type v =? STL_TYPE_SDS) then
    Ok (match datum with Some a => [a] | None => [] end)
  else if v_type v =? STL_TYPE_ROBJ then a ← deref datum; Ok [a]
  else Ok [].

Definition vectorFree (v : Vector) : rc * Vector :=
  match v_data v with
  | None => (C_ERR, v)
  | Some _ => (C_OK, mkVector (v_type v) None 0 0)
  end.

(** The loop of [vectorFreeDeep] over the indexes [i .. i + n - 1]. *)
Fixpoint free_loop (n : nat) (v : Vector) (i : Z) : res (list A) :=
  match n with
  | O => Ok []
  | S n' => p ← vectorGet v i; fr ← vectorFreeDatum v p;
            frs ← free_loop n' v (i + 1); Ok (fr ++ frs)
  end.

(** Returns the status, the vector and the data that were released. *)
Definition vectorFreeDeep (v : Vector) : res (rc * Vector * list A) :=
  match v_data v with
  | None => Ok (C_ERR, v, [])
  | Some _ => frs ← free_loop (Z.to_nat (v_count v)) v 0; Ok (C_OK, (vectorFree v).2, frs)
  end.

Definition _vectorResizeIfNeeded (v : Vector) : res Vector :=
  v1 ← (if v_size v =? 0 then
          r ← vectorFreeDeep v;
          let v' := r.1.2 in
          sz ← _vectorGetDatumSize v';
          Ok (mkVector (v_type v') (Some (zmalloc_slots (sz * INIT_VECTOR_SIZE)))
                INIT_VECTOR_SIZE (v_count v'))
        else Ok v);
  if v_size v1 <=? v_count v1 then
    let size := to_size_t (v_size v1 + INIT_VECTOR_SIZE) in
    sz ← _vectorGetDatumSize v1;
    Ok (mkVector (v_type v1)
          (Some (zrealloc_slots (default [] (v_data v1)) (sz * size))) size (v_count v1))
  else Ok v1.

Definition vectorAdd (v : Vector) (datum : ptr) : res (rc * Vector) :=
  v1 ← _vectorResizeIfNeeded v;
  let index := v_count v1 in
  let v2 := mkVector (v_type v1) (v_data v1) (v_size v1) (to_size_t (v_count v1 + 1)) in
  vectorSet v2 index datum.

(** The copying loop of [vectorDelete] and [vectorUnlink]: [n] rounds from [i],
    writing to [newArray[j]] everything but the element at [index]. *)
Fixpoint copy_loop (n i j index : nat) (data newArray : list (option ptr))
    : res (list (option ptr)) :=
  match n with
  | O => Ok newArray
  | S n' =>
      if (i =? index)%nat then copy_loop n' (S i) j index data newArray
      else x ← at_index data i;
           _ ← at_index newArray j;
           copy_loop n' (S i) (S j) index data (<[j := x]> newArray)
  end.

Definition vectorDelete (v : Vector) (index : Z) : res (rc * Vector * list A) :=
  if v_count v <=? index then Ok (C_ERR, v, [])
  else
    sz ← _vectorGetDatumSize v;
    data ← deref (v_data v);
    p ← vectorGet v index;
    fr ← vectorFreeDatum v p;
    newArray ← copy_loop (Z.to_nat (v_count v)) 0 0 (Z.to_nat index) data
                 (zmalloc_slots (sz * v_size v));
    Ok (C_OK, mkVector (v_type v) (Some newArray) (v_size v) (to_size_t (v_count v - 1)), fr).

Definition vectorUnlink (v : Vector) (index : Z) : res (ptr * Vector) :=
  if v_count v <=? index then Ok (None, v)
  else
    sz ← _vectorGetDatumSize v;
    data ← deref (v_data v);
    target ← vectorGet v index;
    newArray ← copy_loop (Z.to_nat (v_count v)) 0 0 (Z.to_nat index) data
                 (zmalloc_slots (sz * v_size v));
    Ok (target, mkVector (v_type v) (Some newArray) (v_size v) (to_size_t (v_count v - 1))).

Definition vectorPop (v : Vector) : res (ptr * Vector) :=
  target ← vectorGet v (to_size_t (v_count v - 1));
  r ← vectorSet v (to_size_t (v_count v - 1)) None;
  let v' := r.2 in
  Ok (target, mkVector (v_type v') (v_data v') (v_size v') (to_size_t (v_count v' - 1))).

(** * Stack *)

Record Stack := mkStack { s_type : Z; s_data : Vector }.

Definition stackInit : Stack := mkStack STL_TYPE_DEFAULT vectorInit.
Definition stackTypeInit (type : Z) : Stack :=
  let s := stackInit in
  mkStack (type mod 4)
    (mkVector (type mod 4) (v_data (s_data s)) (v_size (s_data s)) (v_count (s_data s))).
Definition stackCount (s : Stack) : Z := v_count (s_data s).
Definition stackPush (s : Stack) (datum : ptr) : res (rc * Stack) :=
  r ← vectorAdd (s_data s) datum; Ok (r.1, mkStack (s_type s) r.2).
Definition stackPop (s : Stack) : res (ptr * Stack) :=
  r ← vectorPop (s_data s); Ok (r.1, mkStack (s_type s) r.2).
Definition stackFree (s : Stack) : rc * Stack :=
  let '(c, v) := vectorFree (s_data s) in (c, mkStack (s_type s) v).
Definition stackFreeDeep (s : Stack) : res (rc * Stack * list A) :=
  r ← vectorFreeDeep (s_data s); Ok (r.1.1, mkStack (s_type s) r.1.2, r.2).

(** * Well-formedness and contents *)

(** [count] elements are in use; the array has room for [size] of them. *)
Definition vector_rep (v : Vector) (l : list ptr) : Prop :=
  0 ≤ v_type v < 4 ∧
  v_count v = Z.of_nat (length l) ∧
  v_size v < 2 ^ 60 ∧
  match v_data v with
  | None => v_size v = 0 ∧ l = []
  | Some data =>
      v_size v = Z.of_nat (length data) ∧
      ∃ rest, data = map Some l ++ rest
  end.

#[local] Ltac vlia := unfold to_size_t, to_unsigned, INIT_VECTOR_SIZE in *;
  change (2 ^ 60) with 1152921504606846976 in * |- *;
  change (2 ^ 64) with 18446744073709551616 in *; try lia.

(** A vector holds one list only. *)
Lemma vector_rep_inj v l l' : vector_rep v l → vector_rep v l' → l = l'.
Proof.
  intros (_ & Hc & _ & Hd) (_ & Hc' & _ & Hd'). destruct (v_data v) as [data|].
  - destruct Hd as (_ & rest & ->), Hd' as (_ & rest' & E).
    apply (app_inj_1 (map Some l)) in E as [E _]; [|rewrite !length_map; lia]. by apply (inj (map Some)) in E.
  - destruct Hd as [_ ->], Hd' as [_ ->]. done.
Qed.

Lemma datum_size_rep v l : vector_rep v l → _vectorGetDatumSize v = Ok 8.
Proof.
  intros (Ht & _). unfold _vectorGetDatumSize, STL_TYPE_DEFAULT, STL_TYPE_LONG, STL_TYPE_SDS,
    STL_TYPE_ROBJ. blia.
Qed.

Lemma type_ok v l :
  vector_rep v l →
  ((v_type v =? STL_TYPE_DEFAULT) || (v_type v =? STL_TYPE_LONG)
     || (v_type v =? STL_TYPE_SDS) || (v_type v =? STL_TYPE_ROBJ)) = true.
Proof.
  intros (Ht & _). unfold STL_TYPE_DEFAULT, STL_TYPE_LONG, STL_TYPE_SDS, STL_TYPE_ROBJ. blia.
Qed.

Lemma slots_mul n : 0 ≤ n < 2 ^ 60 → slots (8 * n) = Z.to_nat n.
Proof.
  intros H. unfold slots. vlia. rewrite (Z.mod_small (8 * n)) by lia.
  by rewrite (Z.mul_comm 8), Z.div_mul by lia.
Qed.

Lemma vectorTypeInit_rep type : vector_rep (vectorTypeInit type) [].
Proof.
  unfold vectorTypeInit, vector_rep; simpl. pose proof (Z.mod_pos_bound type 4). change (2 ^ 60) with 1152921504606846976. split_and!; (done || lia).
Qed.

Lemma vectorTypeInitWithSize_rep type size :
  0 ≤ size < 2 ^ 60 →
  ∃ v, vectorTypeInitWithSize type size = Ok v ∧ vector_rep v [] ∧ v_type v = type mod 4.
Proof.
  intros Hs. unfold vectorTypeInitWithSize. rewrite (datum_size_rep _ [] (vectorTypeInit_rep type)).
  res_step. eexists. split; [done|]. split; [|done].
  unfold vector_rep; simpl. pose proof (Z.mod_pos_bound type 4).
  split_and!; [lia|lia|done|lia| |eauto].
  unfold zmalloc_slots. rewrite slots_mul by done. rewrite length_replicate. lia.
Qed.

Lemma vectorGet_rep v l (i : nat) :
  vector_rep v l → vectorGet v (Z.of_nat i) = Ok (default None (l !! i)).
Proof.
  intros (Ht & Hc & Hs & Hd). unfold vectorGet. rewrite Hc.
  destruct (Z.leb_spec (Z.of_nat (length l)) (Z.of_nat i)).
  { by rewrite lookup_ge_None_2 by lia. }
  destruct (v_data v) as [data|]; [|destruct Hd as [_ ->]; simpl in *; lia].
  destruct Hd as (_ & rest & ->). simpl. unfold at_index. rewrite Nat2Z.id.
  destruct (lookup_lt_is_Some_2 l i) as [p Hp]; [lia|].
  rewrite lookup_app_l by (rewrite length_map; lia).
  rewrite list_lookup_fmap, Hp. done.
Qed.

Lemma vectorSet_rep v l (i : nat) d :
  vector_rep v l → (i < length l)%nat →
  ∃ v', vectorSet v (Z.of_nat i) d = Ok (C_OK, v') ∧ vector_rep v' (<[i := d]> l)
        ∧ v_type v' = v_type v ∧ v_size v' = v_size v.
Proof.
  intros Hr Hi. pose proof (type_ok _ _ Hr) as Hty. destruct Hr as (Ht & Hc & Hs & Hd).
  unfold vectorSet. rewrite Hc, Hty. destruct (Z.leb_spec (Z.of_nat (length l)) (Z.of_nat i)); [lia|].
  destruct (v_data v) as [data|]; [|destruct Hd as [_ ->]; simpl in *; lia].
  destruct Hd as (Hsz & rest & ->). cbn [deref]. res_step. rewrite Nat2Z.id. unfold at_index.
  destruct (lookup_lt_is_Some_2 (map Some l ++ rest) i) as [p Hp];
    [rewrite length_app, length_map; lia|].
  rewrite Hp. res_step. eexists. split; [done|]. split; [|done].
  unfold vector_rep; simpl. rewrite !length_insert.
  split_and!; try lia. exists rest.
  rewrite insert_app_l by (rewrite length_map; lia). by rewrite list_fmap_insert.
Qed.

Lemma vectorSet_err v l i d : vector_rep v l → Z.of_nat (length l) ≤ i → vectorSet v i d = Ok (C_ERR, v).
Proof. intros (_ & Hc & _) Hi. unfold vectorSet. rewrite Hc. blia. Qed.

(** ** vectorAdd *)

(** After the resize step there is a free slot at [count]. *)
Lemma resize_rep v l :
  vector_rep v l → Z.of_nat (length l) + 10 < 2 ^ 60 →
  ∃ v', _vectorResizeIfNeeded v = Ok v' ∧ vector_rep v' l ∧ v_type v' = v_type v
        ∧ v_count v' < v_size v' ∧ is_Some (v_data v').
Proof.
  intros Hr Hl. pose proof Hr as (Ht & Hc & Hs & Hd). unfold _vectorResizeIfNeeded.
  destruct (Z.eqb_spec (v_size v) 0) as [H0|H0].
  - assert (l = []) as ->.
    { destruct (v_data v) as [data|]; [|by destruct Hd].
      destruct Hd as (Hsz & rest & ->). destruct l; [done|]. simpl in Hsz. lia. }
    assert (∃ r, vectorFreeDeep v = Ok r ∧ vector_rep r.1.2 [] ∧ v_type r.1.2 = v_type v) as (r & -> & Hr' & Ht').
    { unfold vectorFreeDeep. destruct (v_data v) as [data|] eqn:Ed.
      - rewrite Hc. simpl. eexists. split; [done|]. unfold vectorFree. rewrite Ed. simpl.
        unfold vector_rep; simpl. change (2 ^ 60) with 1152921504606846976. split_and!; (done || lia).
      - eexists. split; [done|]. done. }
    res_step. rewrite (datum_size_rep _ _ Hr'). res_step. res_step. cbn [v_size v_count v_type].
    pose proof Hr' as (_ & Hc' & _). rewrite Hc'. simpl.
    eexists. split; [done|]. cbn [v_size v_count v_type v_data]. split_and!; [|done| |eauto].
    + unfold vector_rep; cbn [v_size v_count v_type v_data]. rewrite Ht'. vlia.
      split_and!; [lia|lia|done|lia|done|by eexists].
    + done.
  - rewrite bind_Ok_l. cbv beta.
    assert (∃ data, v_data v = Some data) as [data Ed].
    { destruct (v_data v); [eauto|]. destruct Hd; lia. }
    rewrite Ed in Hd. destruct Hd as (Hsz & rest & Hdata).
    destruct (Z.leb_spec (v_size v) (v_count v)) as [Hfull|Hroom].
    + rewrite (datum_size_rep _ _ Hr). res_step. eexists. split; [done|].
      assert (Hszl : v_size v = Z.of_nat (length l)).
      { subst data. rewrite length_app, length_map in Hsz. lia. }
      assert (Esz : to_size_t (v_size v + INIT_VECTOR_SIZE) = v_size v + 10) by (apply Z.mod_small; vlia).
      rewrite !Esz, Ed. cbn [from_option id v_size v_count v_type v_data].
      unfold zrealloc_slots. rewrite slots_mul by lia.
      rewrite take_ge by lia. split_and!; [|done|cbn; lia|eauto].
      unfold vector_rep; cbn [v_size v_count v_type v_data].
      split_and!; [lia|lia|lia|lia| |].
      * rewrite length_app, length_replicate. lia.
      * subst data. rewrite <- app_assoc. by eexists.
    + eexists. split; [done|]. split_and!; [exact Hr|done|lia|eauto].
Qed.

Lemma vectorAdd_rep v l d :
  vector_rep v l → Z.of_nat (length l) + 10 < 2 ^ 60 →
  ∃ v', vectorAdd v d = Ok (C_OK, v') ∧ vector_rep v' (l ++ [d]) ∧ v_type v' = v_type v.
Proof.
  intros Hr Hl. unfold vectorAdd.
  destruct (resize_rep v l Hr Hl) as (v1 & -> & Hr1 & Hty & Hroom & data & Ed). res_step.
  pose proof (type_ok _ _ Hr1) as Htok. destruct Hr1 as (Ht & Hc & Hs & Hd).
  rewrite Ed in Hd. destruct Hd as (Hsz & rest & Hdata).
  assert (Ec : to_size_t (v_count v1 + 1) = Z.of_nat (length l) + 1) by (rewrite Hc; apply Z.mod_small; vlia).
  unfold vectorSet. cbn [v_size v_count v_type v_data]. rewrite Htok, Ec, Ed, Hc.
  destruct (Z.leb_spec (Z.of_nat (length l) + 1) (Z.of_nat (length l))); [lia|].
  cbn [deref]. res_step. rewrite Nat2Z.id. unfold at_index.
  destruct (lookup_lt_is_Some_2 data (length l)) as [p Hp]; [lia|]. rewrite Hp. res_step.
  eexists. split; [done|]. split; [|done]. unfold vector_rep; cbn [v_size v_count v_type v_data].
  split_and!; [lia|lia|rewrite length_app; simpl; lia|lia|by rewrite length_insert|].
  subst data. destruct rest as [|x rest]; [rewrite app_nil_r, length_map in *; lia|].
  exists rest. rewrite insert_app_r_alt by (by rewrite length_map).
  rewrite length_map, Nat.sub_diag, map_app. simpl. by rewrite <- app_assoc.
Qed.

(** ** vectorUnlink, vectorDelete, vectorPop *)

Lemma copy_loop_spec n : ∀ i j index (pre xs post pre' post' : list (option ptr)),
  length pre = i → length xs = n → length pre' = j → (n ≤ length post')%nat →
  let kept := if (i <=? index)%nat then delete (index - i)%nat xs else xs in
  copy_loop n i j index (pre ++ xs ++ post) (pre' ++ post') =
    Ok (pre' ++ kept ++ drop (length kept) post').
Proof.
  induction n as [|n IH]; intros i j index pre xs post pre' post' Hi Hn Hj Hp; cbn [copy_loop]; cbv zeta.
  - destruct xs; [|done]. by destruct (i <=? index)%nat.
  - destruct xs as [|x xs]; [done|]. injection Hn as Hn. destruct (Nat.eqb_spec i index) as [->|Hne].
    + rewrite Nat.leb_refl, Nat.sub_diag. simpl.
      specialize (IH (S index) j index (pre ++ [x]) xs post pre' post').
      rewrite <- app_assoc in IH. cbn [app] in IH. rewrite IH; [|rewrite length_app; simpl; lia|done|done|lia].
      by destruct (Nat.leb_spec (S index) index); [lia|].
    + destruct post' as [|y post']; [simpl in Hp; lia|].
      unfold at_index. subst i j. cbn [app]. rewrite !lookup_app_mid. res_step. res_step.
      rewrite insert_app_r_alt by lia. rewrite Nat.sub_diag. cbn [insert list_insert].
      specialize (IH (S (length pre)) (S (length pre')) index (pre ++ [x]) xs post (pre' ++ [x]) post').
      rewrite <- !app_assoc in IH. cbn [app] in IH. rewrite IH;
        [|rewrite length_app; simpl; lia|done|rewrite length_app; simpl; lia|simpl in Hp; lia].
      destruct (Nat.leb_spec (length pre) index), (Nat.leb_spec (S (length pre)) index); try lia.
      * replace (index - length pre)%nat with (S (index - S (length pre))) by lia.
        cbn [delete list_delete]. by rewrite <- !app_assoc.
      * by rewrite <- !app_assoc.
Qed.

Lemma remove_rep v l (i : nat) :
  vector_rep v l → (i < length l)%nat →
  ∃ data new, v_data v = Some data ∧
    copy_loop (Z.to_nat (v_count v)) 0 0 i data (zmalloc_slots (8 * v_size v)) = Ok new ∧
    vector_rep (mkVector (v_type v) (Some new) (v_size v) (to_size_t (v_count v - 1))) (delete i l).
Proof.
  intros (Ht & Hc & Hs & Hd) Hi.
  destruct (v_data v) as [data|]; [|destruct Hd as [_ ->]; simpl in *; lia].
  destruct Hd as (Hsz & rest & ->). rewrite length_app, length_map in Hsz.
  unfold zmalloc_slots. rewrite slots_mul by lia. rewrite Hc, Nat2Z.id.
  pose proof (copy_loop_spec (length l) 0 0 i [] (map Some l) rest []
    (replicate (Z.to_nat (v_size v)) None)) as E.
  cbn [app Nat.leb] in E. rewrite Nat.sub_0_r in E.
  do 2 eexists. split; [done|]. split.
  { apply E; [done|apply length_map|done|rewrite length_replicate; lia]. }
  assert (Hdel : delete i (map Some l) = map Some (delete i l)) by (symmetry; apply list_fmap_delete).
  pose proof (length_delete l i ltac:(by apply lookup_lt_is_Some_2)) as Hld.
  unfold vector_rep; cbn [v_size v_count v_type v_data].
  rewrite Hdel, length_app, length_drop, length_map, length_replicate, Hld.
  split_and!; [lia|lia| |lia|lia|by eexists]. vlia. rewrite Z.mod_small by lia. lia.
Qed.

Lemma vectorUnlink_rep v l (i : nat) :
  vector_rep v l → (i < length l)%nat →
  ∃ v', vectorUnlink v (Z.of_nat i) = Ok (default None (l !! i), v') ∧ vector_rep v' (delete i l).
Proof.
  intros Hr Hi. destruct (remove_rep v l i Hr Hi) as (data & new & Ed & Ec & Hr').
  unfold vectorUnlink. rewrite (datum_size_rep _ _ Hr), (vectorGet_rep _ _ _ Hr), Ed.
  rewrite Nat2Z.id. destruct (Z.leb_spec (v_count v) (Z.of_nat i)) as [H|_].
  { destruct Hr as (_ & Hc & _). lia. }
  cbn [deref]. do 3 res_step. rewrite Ec. res_step. eauto.
Qed.

(** Releasing a datum never faults, except for a NULL entry of an object vector. *)
Definition releasable (v : Vector) (p : ptr) : Prop := v_type v = STL_TYPE_ROBJ → is_Some p.
Definition released (v : Vector) (p : ptr) : list A :=
  if v_type v =? STL_TYPE_LONG then [] else match p with Some a => [a] | None => [] end.

Lemma vectorFreeDatum_rep v l p :
  vector_rep v l → releasable v p → vectorFreeDatum v p = Ok (released v p).
Proof.
  intros (Ht & _) Hp. unfold vectorFreeDatum, releasable, released, STL_TYPE_DEFAULT, STL_TYPE_LONG,
    STL_TYPE_SDS, STL_TYPE_ROBJ in *. blia. by destruct (Hp e) as [a ->].
Qed.

Lemma vectorDelete_rep v l (i : nat) :
  vector_rep v l → (i < length l)%nat → releasable v (default None (l !! i)) →
  ∃ v', vectorDelete v (Z.of_nat i) = Ok (C_OK, v', released v (default None (l !! i)))
        ∧ vector_rep v' (delete i l).
Proof.
  intros Hr Hi Hp. destruct (remove_rep v l i Hr Hi) as (data & new & Ed & Ec & Hr').
  unfold vectorDelete. rewrite (datum_size_rep _ _ Hr), (vectorGet_rep _ _ _ Hr), Ed.
  rewrite Nat2Z.id. destruct (Z.leb_spec (v_count v) (Z.of_nat i)) as [H|_].
  { destruct Hr as (_ & Hc & _). lia. }
  cbn [deref]. do 3 res_step. rewrite (vectorFreeDatum_rep _ _ _ Hr Hp). res_step.
  rewrite Ec. res_step. eauto.
Qed.

Lemma vector_rep_take v l d :
  vector_rep v (l ++ [d]) →
  vector_rep (mkVector (v_type v) (v_data v) (v_size v) (to_size_t (v_count v - 1))) l.
Proof.
  intros (Ht & Hc & Hs & Hd). rewrite length_app in Hc. simpl in Hc.
  unfold vector_rep; cbn [v_size v_count v_type v_data].
  destruct (v_data v) as [data|]; [|destruct Hd as [_ ?]; by destruct l].
  destruct Hd as (Hsz & rest & ->). rewrite !length_app, length_map, length_app in Hsz. simpl in Hsz.
  split_and!; [lia|lia| |lia|rewrite !length_app, length_map, length_app; simpl; lia|].
  - vlia. rewrite Z.mod_small; lia.
  - exists (Some d :: rest). rewrite map_app, <- app_assoc. done.
Qed.

Lemma vectorPop_rep v l d :
  vector_rep v (l ++ [d]) → ∃ v', vectorPop v = Ok (d, v') ∧ vector_rep v' l.
Proof.
  intros Hr. unfold vectorPop. pose proof Hr as (Ht & Hc & Hs & Hd).
  assert (Hlen : Z.of_nat (length l) < 2 ^ 60).
  { destruct (v_data v) as [data|]; [|destruct Hd as [_ ?]; by destruct l].
    destruct Hd as (Hsz & rest & ->). rewrite !length_app, length_map, length_app in Hsz. lia. }
  assert (E : to_size_t (v_count v - 1) = Z.of_nat (length l)).
  { rewrite Hc, length_app. simpl. vlia. rewrite Z.mod_small; lia. }
  rewrite E, (vectorGet_rep _ _ _ Hr), lookup_app_mid. res_step. cbn [from_option id].
  destruct (vectorSet_rep v (l ++ [d]) (length l) None Hr) as (v2 & -> & Hr2 & _ & _);
    [rewrite length_app; simpl; lia|]. res_step.
  eexists. split; [done|]. apply vector_rep_take with (d := None).
  rewrite insert_app_r_alt in Hr2 by lia. by rewrite Nat.sub_diag in Hr2.
Qed.

Lemma vectorPop_empty v : vector_rep v [] → ∃ v', vectorPop v = Ok (None, v') ∧ v_count v' = SIZE_MAX.
Proof.
  intros (Ht & Hc & Hs & Hd). unfold vectorPop, vectorGet, vectorSet. rewrite Hc.
  change (to_size_t (Z.of_nat (length (@nil ptr)) - 1)) with SIZE_MAX. simpl.
  eexists. split; [done|]. simpl. rewrite Hc. done.
Qed.

(** ** vectorFreeDeep *)

Lemma free_loop_rep v l k n :
  vector_rep v l → Forall (releasable v) l → (k + n = length l)%nat →
  free_loop n v (Z.of_nat k) = Ok (concat (map (released v) (drop k l))).
Proof.
  intros Hr Hl. revert k. induction n as [|n IH]; intros k Hk; cbn [free_loop].
  - by rewrite drop_ge by lia.
  - rewrite (vectorGet_rep _ _ _ Hr). destruct (lookup_lt_is_Some_2 l k) as [p Hp]; [lia|].
    rewrite Hp. res_step. cbn [from_option id].
    rewrite (vectorFreeDatum_rep _ _ _ Hr) by (by eapply Forall_lookup_1 in Hl). res_step.
    replace (Z.of_nat k + 1) with (Z.of_nat (S k)) by lia. rewrite IH by lia. res_step.
    by rewrite (drop_S l p k Hp).
Qed.

Lemma vectorFreeDeep_rep v l :
  vector_rep v l → Forall (releasable v) l →
  ∃ c v', vectorFreeDeep v = Ok (c, v', concat (map (released v) l)) ∧ vector_rep v' []
          ∧ v_data v' = None.
Proof.
  intros Hr Hl. unfold vectorFreeDeep. pose proof Hr as (Ht & Hc & Hs & Hd).
  destruct (v_data v) as [data|] eqn:Ed.
  - rewrite Hc, Nat2Z.id. change 0 with (Z.of_nat 0). rewrite (free_loop_rep _ l) by (done || lia).
    res_step. unfold vectorFree. rewrite Ed. do 2 eexists. split; [done|].
    unfold vector_rep; simpl. done.
  - destruct Hd as [_ ->]. do 2 eexists. split; [done|]. split; [exact Hr|done].
Qed.

(** ** Sequences of operations *)

Fixpoint vectorAddAll (v : Vector) (ds : list ptr) : res Vector :=
  match ds with
  | [] => Ok v
  | d :: ds' => r ← vectorAdd v d; vectorAddAll r.2 ds'
  end.

Lemma vectorAddAll_rep v l ds :
  vector_rep v l → Z.of_nat (length l + length ds) + 10 < 2 ^ 60 →
  ∃ v', vectorAddAll v ds = Ok v' ∧ vector_rep v' (l ++ ds) ∧ v_type v' = v_type v.
Proof.
  revert v l. induction ds as [|d ds IH]; intros v l Hr Hl; simpl in *.
  - exists v. by rewrite app_nil_r.
  - destruct (vectorAdd_rep v l d Hr) as (v1 & -> & Hr1 & Ht1); [lia|]. res_step.
    destruct (IH v1 (l ++ [d]) Hr1) as (v2 & E & Hr2 & Ht2); [rewrite length_app; simpl; lia|].
    exists v2. rewrite <- app_assoc in Hr2. split_and!; [done|done|congruence].
Qed.

Fixpoint stackPushAll (s : Stack) (ds : list ptr) : res Stack :=
  match ds with
  | [] => Ok s
  | d :: ds' => r ← stackPush s d; stackPushAll r.2 ds'
  end.
Fixpoint stackPopAll (n : nat) (s : Stack) : res (list ptr * Stack) :=
  match n with
  | O => Ok ([], s)
  | S n' => r ← stackPop s; r' ← stackPopAll n' r.2; Ok (r.1 :: r'.1, r'.2)
  end.

Lemma stackPushAll_rep s l ds :
  vector_rep (s_data s) l → Z.of_nat (length l + length ds) + 10 < 2 ^ 60 →
  ∃ s', stackPushAll s ds = Ok s' ∧ vector_rep (s_data s') (l ++ ds).
Proof.
  revert s l. induction ds as [|d ds IH]; intros s l Hr Hl; simpl in *.
  - exists s. by rewrite app_nil_r.
  - unfold stackPush. destruct (vectorAdd_rep _ l d Hr) as (v1 & -> & Hr1 & Ht1); [lia|]. simpl.
    destruct (IH (mkStack (s_type s) v1) (l ++ [d]) Hr1) as (v2 & E & Hr2); [rewrite length_app; simpl; lia|].
    exists v2. by rewrite <- app_assoc in Hr2.
Qed.

Lemma stackPopAll_rep s l ds :
  vector_rep (s_data s) (l ++ ds) →
  ∃ s', stackPopAll (length ds) s = Ok (rev ds, s') ∧ vector_rep (s_data s') l.
Proof.
  revert s. induction ds as [|d ds IH] using rev_ind; intros s Hr.
  - rewrite app_nil_r in Hr. by exists s.
  - rewrite app_assoc in Hr. destruct (vectorPop_rep _ _ _ Hr) as (v' & E & Hr').
    rewrite length_app, Nat.add_comm. cbn [length Nat.add stackPopAll]. unfold stackPop. rewrite E.
    res_step. cbn [fst snd]. res_step. destruct (IH (mkStack (s_type s) v') Hr') as (s' & E' & Hr'').
    cbn [snd fst]. rewrite E'. res_step. exists s'. rewrite rev_app_distr. done.
Qed.
(** ** Simulation of arbitrary sequences of operations *)

Inductive vop :=
| OAdd (d : ptr)
| OSet (i : nat) (d : ptr)
| OGet (i : nat)
| OUnlink (i : nat)
| ODelete (i : nat)
| OPop.

(** What the caller observes: a status, a pointer, or a status and the data
    that were released. *)
Inductive vout :=
| RStatus (c : rc)
| RPtr (p : ptr)
| RFreed (c : rc) (l : list A).

Definition vstep (v : Vector) (o : vop) : res (vout * Vector) :=
  match o with
  | OAdd d => r ← vectorAdd v d; Ok (RStatus r.1, r.2)
  | OSet i d => r ← vectorSet v (Z.of_nat i) d; Ok (RStatus r.1, r.2)
  | OGet i => p ← vectorGet v (Z.of_nat i); Ok (RPtr p, v)
  | OUnlink i => r ← vectorUnlink v (Z.of_nat i); Ok (RPtr r.1, r.2)
  | ODelete i => r ← vectorDelete v (Z.of_nat i); Ok (RFreed r.1.1 r.2, r.1.2)
  | OPop => r ← vectorPop v; Ok (RPtr r.1, r.2)
  end.

(** The same operations on the list of pointers; [long_data] says that the data
    are integers, which are not released. *)
Definition lstep (long_data : bool) (l : list ptr) (o : vop) : vout * list ptr :=
  match o with
  | OAdd d => (RStatus C_OK, l ++ [d])
  | OSet i d => (RStatus (if (i <? length l)%nat then C_OK else C_ERR), <[i := d]> l)
  | OGet i => (RPtr (default None (l !! i)), l)
  | OUnlink i => (RPtr (default None (l !! i)), delete i l)
  | ODelete i =>
      (RFreed (if (i <? length l)%nat then C_OK else C_ERR)
         (match l !! i with Some (Some a) => if long_data then [] else [a] | _ => [] end),
       delete i l)
  | OPop => (RPtr (default None (last l)), take (length l - 1) l)
  end.

(** [vectorPop] needs an element; deleting a NULL object dereferences it. *)
Definition lsafe (obj_data : bool) (l : list ptr) (o : vop) : Prop :=
  match o with
  | OPop => l ≠ []
  | ODelete i => obj_data = true → l !! i ≠ Some None
  | _ => True
  end.

Fixpoint vrun (v : Vector) (os : list vop) : res (list vout * Vector) :=
  match os with
  | [] => Ok ([], v)
  | o :: os' => r ← vstep v o; r' ← vrun r.2 os'; Ok (r.1 :: r'.1, r'.2)
  end.
Fixpoint lrun (ld : bool) (l : list ptr) (os : list vop) : list vout * list ptr :=
  match os with
  | [] => ([], l)
  | o :: os' => let r := lstep ld l o in let r' := lrun ld r.2 os' in (r.1 :: r'.1, r'.2)
  end.
Fixpoint lsafe_all (od ld : bool) (l : list ptr) (os : list vop) : Prop :=
  match os with
  | [] => True
  | o :: os' => lsafe od l o ∧ lsafe_all od ld (lstep ld l o).2 os'
  end.

Lemma list_delete_ge (l : list ptr) i : (length l ≤ i)%nat → delete i l = l.
Proof. intros H. rewrite delete_take_drop, take_ge, drop_ge, app_nil_r by lia. done. Qed.

Lemma vstep_sim v l o :
  vector_rep v l → Z.of_nat (length l) + 10 < 2 ^ 60 →
  lsafe (v_type v =? STL_TYPE_ROBJ) l o →
  ∃ v', vstep v o = Ok ((lstep (v_type v =? STL_TYPE_LONG) l o).1, v')
    ∧ vector_rep v' (lstep (v_type v =? STL_TYPE_LONG) l o).2 ∧ v_type v' = v_type v.
Proof.
  intros Hr Hl Hs. pose proof Hr as (_ & Hc & _). destruct o as [d|i d|i|i|i|]; simpl in *.
  - destruct (vectorAdd_rep v l d Hr Hl) as (v' & -> & ? & ?). simpl. eauto.
  - destruct (Nat.ltb_spec i (length l)).
    + destruct (vectorSet_rep v l i d Hr) as (v' & -> & ? & ? & _); [done|]. simpl. eauto.
    + rewrite (vectorSet_err v l) by (done || lia). simpl. rewrite list_insert_ge by lia. eauto.
  - rewrite (vectorGet_rep _ _ _ Hr). simpl. eauto.
  - destruct (decide (i < length l)%nat).
    + destruct (vectorUnlink_rep v l i Hr) as (v' & E & ?); [done|]. rewrite E. simpl.
      eexists. split_and!; [done|done|]. unfold vectorUnlink in E. case_match; by res_inv.
    + unfold vectorUnlink. rewrite lookup_ge_None_2, list_delete_ge by lia.
      destruct (Z.leb_spec (v_count v) (Z.of_nat i)); [|lia]. simpl. eauto.
  - destruct (Nat.ltb_spec i (length l)).
    + destruct (lookup_lt_is_Some_2 l i) as [p Hp]; [lia|].
      destruct (vectorDelete_rep v l i Hr) as (v' & E & ?); [done| |].
      { rewrite Hp. simpl. intros Hty. destruct p; [eauto|]. rewrite Hty in Hs. by destruct Hs. }
      assert (v_type v' = v_type v) by (unfold vectorDelete in E; case_match; by res_inv).
      rewrite E, Hp. simpl. unfold released.
      exists v'. split_and!; [|done|done]. by destruct p, (v_type v =? STL_TYPE_LONG).
    + unfold vectorDelete. rewrite lookup_ge_None_2, list_delete_ge by lia.
      destruct (Z.leb_spec (v_count v) (Z.of_nat i)); [|lia]. simpl. eauto.
  - destruct l as [|d l _] using rev_ind; [done|].
    destruct (vectorPop_rep v l d Hr) as (v' & E & ?). rewrite E. simpl.
    rewrite last_snoc, length_app, Nat.add_sub, take_app_length. exists v'. split_and!; [done|done|].
    unfold vectorPop, vectorSet in E. res_inv. repeat case_match; by res_inv.
Qed.

Lemma lstep_length ld l o : (length (lstep ld l o).2 ≤ S (length l))%nat.
Proof.
  destruct o; simpl; rewrite ?length_app, ?length_insert, ?length_take; simpl; try lia.
  all: destruct (decide (i < length l)%nat);
    [rewrite length_delete by (by apply lookup_lt_is_Some_2)|rewrite list_delete_ge by lia]; lia.
Qed.

(** every sequence of [Vector] operations behaves as the same operations on
    a list of pointers: the results seen by the caller agree, and the final
    vector is well formed ([count] initialised slots inside an array of [size])
    and holds the final list.  The sequence may not pop an empty vector nor
    delete a NULL entry of an object vector. *)
Theorem vector_refines_list v l os :
  vector_rep v l → Z.of_nat (length l + length os) + 10 < 2 ^ 60 →
  lsafe_all (v_type v =? STL_TYPE_ROBJ) (v_type v =? STL_TYPE_LONG) l os →
  ∃ v', vrun v os = Ok ((lrun (v_type v =? STL_TYPE_LONG) l os).1, v')
        ∧ vector_rep v' (lrun (v_type v =? STL_TYPE_LONG) l os).2.
Proof.
  revert v l. induction os as [|o os IH]; intros v l Hr Hl Hs; [by exists v|].
  cbn [lsafe_all vrun lrun length] in *. destruct Hs as [Hs Hs'].
  destruct (vstep_sim v l o Hr) as (v1 & -> & Hr1 & Ht1); [lia|done|]. res_step. cbn [fst snd].
  rewrite <- Ht1 in *. pose proof (lstep_length (v_type v1 =? STL_TYPE_LONG) l o).
  destruct (IH v1 _ Hr1) as (v2 & -> & Hr2); [lia|done|]. res_step. eauto.
Qed.

(** a [Stack] is last-in first-out: after pushing [ds] on a fresh stack of
    any type, as many pops return [ds] in reverse order and leave it empty. *)
Theorem stack_lifo type ds :
  Z.of_nat (length ds) + 10 < 2 ^ 60 →
  ∃ s s', stackPushAll (stackTypeInit type) ds = Ok s ∧
          stackCount s = Z.of_nat (length ds) ∧
          stackPopAll (length ds) s = Ok (rev ds, s') ∧ stackCount s' = 0.
Proof.
  intros Hl. destruct (stackPushAll_rep (stackTypeInit type) [] ds) as (s & E & Hr).
  { apply vectorTypeInit_rep. }
  { done. }
  destruct (stackPopAll_rep s [] ds Hr) as (s' & E' & Hr'). exists s, s'.
  destruct Hr as (_ & Hc & _), Hr' as (_ & Hc' & _). done.
Qed.

(** popping a fresh, empty vector returns NULL and wraps [count] to
    [SIZE_MAX]; the next [vectorAdd] then stores nothing and returns [C_ERR]. *)
Theorem vectorPop_empty_loses_next type d :
  ∃ v v', vectorPop (vectorTypeInit type) = Ok (None, v) ∧ v_count v = SIZE_MAX ∧
          vectorAdd v d = Ok (C_ERR, v') ∧ v_count v' = 0.
Proof.
  unfold vectorPop, vectorAdd, vectorGet, vectorSet, vectorTypeInit, _vectorResizeIfNeeded, vectorFreeDeep.
  pose proof (Z.mod_pos_bound type 4 ltac:(lia)). unfold _vectorGetDatumSize. cbn [v_type].
  assert (type mod 4 = 0 ∨ type mod 4 = 1 ∨ type mod 4 = 2 ∨ type mod 4 = 3) as [E|[E|[E|E]]] by lia;
    rewrite E; exists (mkVector (type mod 4) None 0 SIZE_MAX),
      (mkVector (type mod 4) (Some (replicate 20 None)) 20 0); rewrite E; split_and!; reflexivity.
Qed.
End vector.

Lemma vector_refines_list_witness :
  ∃ v', vrun (vectorTypeInit 1) [OAdd (Some 7); OAdd (Some 8); ODelete 0; OGet 0; OPop] =
          Ok ([RStatus C_OK; RStatus C_OK; RFreed C_OK [7]; RPtr (Some 8); RPtr (Some 8)], v')
        ∧ vector_rep v' [].
Proof.
  apply (vector_refines_list (vectorTypeInit 1) []
           [OAdd (Some 7); OAdd (Some 8); ODelete 0; OGet 0; OPop]).
  - apply vectorTypeInit_rep.
  - simpl. lia.
  - vm_compute. repeat split; discriminate.
Defined.

Lemma stack_lifo_witness :
  ∃ s s', stackPushAll (stackTypeInit 0) [Some 1; None; Some 3] = Ok s ∧ stackCount s = 3 ∧
          stackPopAll 3 s = Ok ([Some 3; None; Some 1], s') ∧ stackCount s' = 0.
Proof. apply (stack_lifo 0 [Some 1; None; Some 3]). simpl. lia. Defined.
Arguments Vector A : clear implicits.
Arguments Stack A : clear implicits.
