(* ===== verification/Queue.v ===== *)
(** src/src/circular_queue.c, src/src/circular_queue.h: the growable circular
    queue of dictionary entries behind [EvictQueue] and [FreeQueue].  Entries
    live in a heap that maps addresses to a key and a value object, so that an
    entry that was released is seen as such when a queue still points to it.
    The theorems relate a queue to the list of entries it holds, oldest first. *)

From S2P Require Import Prelude.

(** * Dictionary entries and their heap *)

Definition LOCATION_REDIS_ONLY : Z := 0.
Definition LOCATION_PERSISTED : Z := 1.
Definition LOCATION_FLUSH : Z := 2.

(** The value object of an entry: its [location] field and the data it holds. *)
Record robj (V : Type) := mkRobj { location : Z; robj_ptr : V }.
Arguments mkRobj {V} _ _.
Arguments location {V} _.
Arguments robj_ptr {V} _.

Record dictEntry (V : Type) := mkEntry { de_key : bytes; de_val : option (robj V) }.
Arguments mkEntry {V} _ _.
Arguments de_key {V} _.
Arguments de_val {V} _.

Abbreviation addr := positive.
Abbreviation heap V := (gmap addr (dictEntry V)).

(** Dereference of a [dictEntry *]: fails once the entry is released. *)
Definition load {V} (h : heap V) (a : addr) : res (dictEntry V) :=
  match h !! a with Some e => Ok e | None => Fault UseAfterFree end.

(** [obj->location = loc] for the value object of entry [a]. *)
Definition set_location {V} (h : heap V) (a : addr) (loc : Z) : res (heap V) :=
  e ← load h a;
  o ← deref (de_val e);
  Ok (<[a := mkEntry (de_key e) (Some (mkRobj loc (robj_ptr o)))]> h).

(** * The queue *)

Definition QUEUE_MAX : Z := 2147483647 - 1.
Definition DEFAULT_ARRAY_QUEUE_SIZE : Z := 100000.
Definition DEFAULT_FREE_QUEUE_SIZE : Z := 64.

(** A slot of [buf] is [None] until it is written, then holds NULL or an entry. *)
Record Queue := mkQueue {
  rear : Z;
  front : Z;
  max : Z;
  key_offset : Z;
  size : Z;
  buf : list (option (option addr));
}.

Definition createArrayQueue (capacity : Z) : Queue :=
  mkQueue 0 0 capacity 0 0 (replicate (Z.to_nat capacity) None).

(** [a % b] of C on [int] operands. *)
Definition cmod (a b : Z) : res Z := if b =? 0 then Fault DivByZero else Ok (Z.rem a b).

Definition read_slot (q : Queue) (i : Z) : res (option addr) :=
  if i <? 0 then Fault OutOfBounds
  else slot ← at_index (buf q) (Z.to_nat i);
       match slot with Some p => Ok p | None => Fault Uninitialised end.

Definition write_slot (q : Queue) (i : Z) (p : option addr) : res Queue :=
  if i <? 0 then Fault OutOfBounds
  else _ ← at_index (buf q) (Z.to_nat i);
       Ok (mkQueue (rear q) (front q) (max q) (key_offset q) (size q)
             (<[Z.to_nat i := Some p]> (buf q))).

(** The extension of a full queue, lines 34-56. *)
Definition extend (q : Queue) : res Queue :=
  newCapacity ← (if max q =? QUEUE_MAX then Fault AssertFail
                 else if QUEUE_MAX - max q <? max q then Ok QUEUE_MAX
                 else Ok (max q * 2));
  let buf' := take (Z.to_nat newCapacity) (buf q)
                ++ replicate (Z.to_nat newCapacity - length (buf q)) None in
  rear' ← cmod (rear q) newCapacity;
  Ok (mkQueue rear' (max q - 1) newCapacity (key_offset q) (size q) buf').

Definition enqueue (q : Queue) (entry : option addr) : res (Z * Queue) :=
  match entry with
  | None => Ok (0, q)
  | Some _ =>
      m ← cmod (front q + 1) (max q);
      q1 ← (if m =? rear q then extend q else Ok q);
      q2 ← write_slot q1 (front q1) entry;
      front' ← cmod (front q2 + 1) (max q2);
      Ok (1, mkQueue (rear q2) front' (max q2) (key_offset q2) (to_int (size q2 + 1)) (buf q2))
  end.

(** The common tail of the three dequeue functions: clear the slot at [rear],
    advance [rear] and decrement [size]. *)
Definition drop_rear (q : Queue) : res Queue :=
  q1 ← write_slot q (rear q) None;
  rear' ← cmod (rear q1 + 1) (max q1);
  Ok (mkQueue rear' (front q1) (max q1) (key_offset q1) (to_int (size q1 - 1)) (buf q1)).

Definition isEmpty (q : Queue) : bool := rear q =? front q.

Section ops.
  Context {V : Type}.
  Implicit Types h : heap V.

Definition dequeue h (q : Queue) : res (option addr * Queue) :=
  if rear q =? front q then Ok (None, q)
  else retVal ← read_slot q (rear q);
       match retVal with
       | None => Ok (None, q)
       | Some a =>
           e ← load h a;
           _ ← assert (bool_decide (is_Some (de_val e)));
           q' ← drop_rear q;
           Ok (Some a, q')
       end.

Definition dequeueForClear h (q : Queue) : res (option addr * Queue) :=
  retVal ← read_slot q (rear q);
  match retVal with
  | None => Fault AssertFail
  | Some a =>
      e ← load h a;
      _ ← assert (bool_decide (is_Some (de_val e)));
      obj ← deref (de_val e);
      _ ← assert (negb (location obj =? LOCATION_REDIS_ONLY));
      if negb (location obj =? LOCATION_PERSISTED) then Ok (None, q)
      else q' ← drop_rear q; Ok (Some a, q')
  end.

Definition forceDequeue h (q : Queue) : res (option addr * Queue) :=
  if rear q =? front q then Ok (None, q)
  else retVal ← read_slot q (rear q);
       match retVal with
       | None => Fault AssertFail
       | Some a =>
           e ← load h a;
           _ ← assert (bool_decide (is_Some (de_val e)));
           q' ← drop_rear q;
           Ok (Some a, q')
       end.

(** The [for] loop of [initializeQueue], [n] rounds. *)
Fixpoint force_loop (n : nat) h (q : Queue) : res Queue :=
  match n with
  | O => Ok q
  | S n' => r ← forceDequeue h q; force_loop n' h r.2
  end.

Definition initializeQueue h (q : Queue) : res Queue :=
  q' ← force_loop (Z.to_nat (front q - rear q + 1)) h q;
  Ok (mkQueue 0 0 (max q') 0 (size q') (buf q')).

Definition entry_obj h (p : option addr) : res (robj V) :=
  a ← deref p; e ← load h a; deref (de_val e).

Definition chooseBestKeyFromQueue h (q : Queue) : res (option addr * Queue) :=
  if front q =? rear q then Ok (None, q)
  else
    best ← read_slot q (key_offset q);
    obj ← entry_obj h best;
    r ← (if (location obj =? LOCATION_PERSISTED) && negb (key_offset q =? front q) then
           k ← cmod (key_offset q + 1) (max q);
           let q1 := mkQueue (rear q) (front q) (max q) k (size q) (buf q) in
           best1 ← read_slot q1 k;
           obj1 ← entry_obj h best1;
           Ok (best1, obj1, q1)
         else Ok (best, obj, q));
    let '(best', obj', q') := r in
    _ ← assert (negb (negb (location obj' =? LOCATION_PERSISTED)
                      && negb (location obj' =? LOCATION_REDIS_ONLY)));
    _ ← assert (location obj' =? LOCATION_REDIS_ONLY);
    Ok (best', q').

Definition chooseClearKeyFromQueue_ h (q : Queue) : res (option addr * Queue) :=
  dequeueForClear h q.

(** Returns the victim, the heap with its location changed, and both queues. *)
Definition chooseBestKeyFromQueue_ h (q freequeue : Queue)
    : res (option addr * heap V * Queue * Queue) :=
  r ← dequeue h q;
  let '(cand, q') := r in
  obj ← entry_obj h cand;
  _ ← assert (location obj =? LOCATION_REDIS_ONLY);
  a ← deref cand;
  h' ← set_location h a LOCATION_FLUSH;
  e ← enqueue freequeue cand;
  Ok (cand, h', q', e.2).

Definition RearEntry (q : Queue) : res (option addr) := read_slot q (rear q).
End ops.

(** * The list a queue holds *)

(** [l] is stored from [rear] on, circularly, and [front] is just after it. *)
Definition queue_elems (q : Queue) (l : list addr) : Prop :=
  0 < max q ≤ QUEUE_MAX ∧ Z.of_nat (length (buf q)) = max q ∧
  0 ≤ rear q < max q ∧ Z.of_nat (length l) < max q ∧
  front q = (rear q + Z.of_nat (length l)) mod max q ∧
  ∀ (i : nat) (a : addr), l !! i = Some a →
    buf q !! Z.to_nat ((rear q + Z.of_nat i) mod max q) = Some (Some (Some a)).

(** ... and [size] is its length. *)
Definition queue_rep (q : Queue) (l : list addr) : Prop :=
  queue_elems q l ∧ size q = Z.of_nat (length l).

(** Every entry of the list is live and has a value. *)
Definition live {V} (h : heap V) (a : addr) : Prop :=
  ∃ e o, h !! a = Some e ∧ de_val e = Some o.

Lemma createArrayQueue_rep capacity :
  0 < capacity ≤ QUEUE_MAX → queue_rep (createArrayQueue capacity) [].
Proof.
  intros H. unfold queue_rep, queue_elems; simpl.
  rewrite length_replicate, Z.mod_0_l by lia. split_and!; try lia. done.
Qed.

Lemma cmod_nonneg a b : 0 ≤ a → 0 < b → cmod a b = Ok (a mod b).
Proof. intros. unfold cmod. destruct (Z.eqb_spec b 0); [lia|]. by rewrite Z.rem_mod_nonneg. Qed.

Lemma mod_add_l_succ a i m : 0 < m → ((a + 1) mod m + i) mod m = (a + (i + 1)) mod m.
Proof. intros. rewrite Z.add_mod_idemp_l by lia. f_equal. lia. Qed.

(** Two positions less than [m] apart map to different slots. *)
Lemma mod_slot_inj m r i j :
  0 < m → 0 ≤ i < m → 0 ≤ j < m → (r + i) mod m = (r + j) mod m → i = j.
Proof.
  intros Hm Hi Hj E.
  assert (E' : ((r + i) - (r + j)) mod m = 0).
  { rewrite Zminus_mod, E, Z.sub_diag. by apply Z.mod_0_l; lia. }
  replace (r + i - (r + j)) with (i - j) in E' by lia.
  apply Z.mod_divide in E' as [k Hk]; [|lia].
  assert (-1 < k) by (apply (Z.mul_lt_mono_pos_r m); lia).
  assert (k < 1) by (apply (Z.mul_lt_mono_pos_r m); lia). nia.
Qed.

Lemma queue_front_range q l : queue_elems q l → 0 ≤ front q < max q.
Proof. intros (? & _ & _ & _ & -> & _). apply Z.mod_pos_bound; lia. Qed.

Lemma queue_empty_iff q l : queue_elems q l → (rear q =? front q) = bool_decide (l = []).
Proof.
  intros (Hm & _ & Hr & Hl & Hf & _). rewrite Hf. case_bool_decide as H.
  - subst. simpl. rewrite Z.add_0_r, Z.mod_small by lia. apply Z.eqb_refl.
  - apply Z.eqb_neq. intros E. assert (length l ≠ 0)%nat by (by destruct l).
    assert (E' : (rear q + 0) mod max q = (rear q + Z.of_nat (length l)) mod max q)
      by (by rewrite Z.add_0_r, (Z.mod_small (rear q)) by lia).
    apply mod_slot_inj in E'; lia.
Qed.

Lemma queue_full_iff q l :
  queue_elems q l → ((front q + 1) mod max q =? rear q) = (Z.of_nat (length l) =? max q - 1).
Proof.
  intros (Hm & _ & Hr & Hl & Hf & _). rewrite Hf, Z.add_mod_idemp_l by lia.
  destruct (Z.eqb_spec (Z.of_nat (length l)) (max q - 1)) as [E|E].
  - rewrite E. replace (rear q + (max q - 1) + 1) with (rear q + 1 * max q) by lia.
    rewrite Z.mod_add, Z.mod_small by lia. apply Z.eqb_refl.
  - apply Z.eqb_neq. intros E'.
    assert (E'' : (rear q + (Z.of_nat (length l) + 1)) mod max q = (rear q + 0) mod max q)
      by (by rewrite Z.add_0_r, (Z.mod_small (rear q)), Z.add_assoc by lia).
    apply mod_slot_inj in E''; lia.
Qed.

(** A queue holds one list only. *)
Lemma queue_elems_inj q l l' : queue_elems q l → queue_elems q l' → l = l'.
Proof.
  intros (Hm & _ & Hr & Hl & Hf & Hi) (_ & _ & _ & Hl' & Hf' & Hi').
  assert (Hlen : length l = length l').
  { rewrite Hf in Hf'. apply mod_slot_inj in Hf'; lia. }
  apply list_eq_same_length with (n := length l); [done|done|]. intros i x y _ Hx Hy.
  specialize (Hi i x Hx). specialize (Hi' i y Hy). congruence.
Qed.

Lemma read_slot_ok q i p :
  0 ≤ i → buf q !! Z.to_nat i = Some (Some p) → read_slot q i = Ok p.
Proof.
  intros Hi E. unfold read_slot, at_index. destruct (Z.ltb_spec i 0); [lia|]. by rewrite E.
Qed.

Lemma write_slot_ok q i p :
  0 ≤ i < Z.of_nat (length (buf q)) →
  write_slot q i p = Ok (mkQueue (rear q) (front q) (max q) (key_offset q) (size q)
                           (<[Z.to_nat i := Some p]> (buf q))).
Proof.
  intros Hi. unfold write_slot, at_index. destruct (Z.ltb_spec i 0); [lia|].
  destruct (lookup_lt_is_Some_2 (buf q) (Z.to_nat i)) as [x ->]; [lia|]. done.
Qed.

(** ** enqueue *)

(** The part of [enqueue] after the capacity check appends to the list. *)
Lemma append_elems q l a :
  queue_elems q l → Z.of_nat (length l) + 1 < max q →
  ∃ buf', write_slot q (front q) (Some a) =
            Ok (mkQueue (rear q) (front q) (max q) (key_offset q) (size q) buf') ∧
    ∀ k s, queue_elems (mkQueue (rear q) ((front q + 1) mod max q) (max q) k s buf') (l ++ [a]).
Proof.
  intros Hq Hl. pose proof (queue_front_range _ _ Hq) as Hfr.
  destruct Hq as (Hm & Hb & Hr & Hl' & Hf & Hnth).
  rewrite write_slot_ok by lia. eexists. split; [done|]. intros k s.
  unfold queue_elems; simpl. rewrite length_insert, length_app. simpl. split_and!; try lia.
  - rewrite Hf, Z.add_mod_idemp_l by lia. f_equal. lia.
  - intros i b Hi. destruct (decide (i < length l)%nat) as [Hlt|Hge].
    + rewrite lookup_app_l in Hi by done. rewrite list_lookup_insert_ne; [by apply Hnth|].
      intros E. apply (f_equal Z.of_nat) in E.
      pose proof (Z.mod_pos_bound (rear q + Z.of_nat i) (max q)).
      rewrite !Z2Nat.id, Hf in E by lia. apply mod_slot_inj in E; lia.
    + rewrite lookup_app_r in Hi by lia.
      assert (i = length l) as -> by (apply lookup_lt_Some in Hi; simpl in Hi; lia).
      rewrite Nat.sub_diag in Hi. injection Hi as <-. rewrite <- Hf.
      apply list_lookup_insert_eq. lia.
Qed.

Lemma enqueue_room q l a :
  queue_elems q l → Z.of_nat (length l) + 1 < max q →
  ∃ q', enqueue q (Some a) = Ok (1, q') ∧ queue_elems q' (l ++ [a]) ∧
        size q' = to_int (size q + 1) ∧ max q' = max q ∧ rear q' = rear q.
Proof.
  intros Hq Hl. pose proof (queue_front_range _ _ Hq) as Hfr. unfold enqueue.
  pose proof (queue_full_iff _ _ Hq) as Hfull.
  destruct (append_elems q l a Hq Hl) as (buf' & Ew & Hel).
  assert (Hm : 0 < max q) by (destruct Hq; lia).
  rewrite cmod_nonneg by lia. res_step. rewrite Hfull.
  destruct (Z.eqb_spec (Z.of_nat (length l)) (max q - 1)); [lia|]. res_step. rewrite Ew. res_step.
  cbn [front max rear key_offset size buf]. rewrite cmod_nonneg by lia. res_step. eauto 6.
Qed.

(** What [extend] does to a full queue: the entries from [rear] up to the end of
    the old array, without the last one, remain. *)
Lemma extend_elems q l :
  queue_elems q l → Z.of_nat (length l) = max q - 1 → max q < QUEUE_MAX →
  ∃ q', extend q = Ok q' ∧ front q' = max q - 1 ∧ rear q' = rear q ∧ max q < max q' ∧
        max q' ≤ 2 * max q ∧
        size q' = size q ∧ queue_elems q' (take (Z.to_nat (max q - 1 - rear q)) l).
Proof.
  intros (Hm & Hb & Hr & _ & Hf & Hnth) Hl Hmax. unfold extend.
  destruct (Z.eqb_spec (max q) QUEUE_MAX); [lia|].
  assert (∃ c, (if QUEUE_MAX - max q <? max q then Ok QUEUE_MAX else Ok (max q * 2)) = Ok c
               ∧ max q < c ≤ QUEUE_MAX ∧ c ≤ 2 * max q) as (c & -> & Hc & Hc2).
  { destruct (Z.ltb_spec (QUEUE_MAX - max q) (max q)); eexists; (split; [done|lia]). }
  res_step. rewrite cmod_nonneg, Z.mod_small by lia. res_step. eexists. split; [done|].
  cbn [front max rear key_offset size buf]. split_and!; try lia.
  unfold queue_elems; cbn [front max rear key_offset size buf].
  rewrite length_app, take_ge, length_replicate, length_take by lia. split_and!; try lia.
  - rewrite Z.mod_small; lia.
  - intros i b Hi. pose proof (lookup_lt_Some _ _ _ Hi) as Hlt. rewrite length_take in Hlt.
    rewrite lookup_take_lt in Hi by lia.
    rewrite Z.mod_small by lia. specialize (Hnth i b Hi). rewrite Z.mod_small in Hnth by lia.
    rewrite lookup_app_l by lia. done.
Qed.

Lemma enqueue_full q l a :
  queue_elems q l → Z.of_nat (length l) = max q - 1 → max q < QUEUE_MAX →
  ∃ q', enqueue q (Some a) = Ok (1, q') ∧
        queue_elems q' (take (Z.to_nat (max q - 1 - rear q)) l ++ [a]) ∧
        size q' = to_int (size q + 1) ∧ max q' ≤ 2 * max q.
Proof.
  intros Hq Hl Hmax. pose proof (queue_front_range _ _ Hq) as Hfr. unfold enqueue.
  pose proof (queue_full_iff _ _ Hq) as Hfull.
  assert (Hm : 0 < max q) by (destruct Hq; lia).
  rewrite cmod_nonneg by lia. res_step. rewrite Hfull, Hl, Z.eqb_refl.
  destruct (extend_elems q l Hq Hl Hmax) as (q1 & -> & Hf1 & Hr1 & Hm1 & Hm2 & Hs1 & Hq1). res_step.
  destruct (append_elems q1 _ a Hq1) as (buf' & Ew & Hel).
  { rewrite length_take. lia. }
  rewrite Ew. res_step. cbn [front max rear key_offset size buf].
  pose proof (queue_front_range _ _ Hq1). rewrite cmod_nonneg by lia. res_step.
  eexists. split; [done|]. rewrite <- Hs1. split_and!; [apply Hel|done|done].
Qed.

(** ** dequeue, forceDequeue *)

Lemma drop_rear_elems q a l :
  queue_elems q (a :: l) →
  ∃ q', drop_rear q = Ok q' ∧ queue_elems q' l ∧ size q' = to_int (size q - 1) ∧
        front q' = front q ∧ max q' = max q ∧ rear q' = (rear q + 1) mod max q.
Proof.
  intros (Hm & Hb & Hr & Hl & Hf & Hnth). unfold drop_rear. simpl in Hl.
  rewrite write_slot_ok by lia. res_step. cbn [front max rear key_offset size buf].
  rewrite cmod_nonneg by lia. res_step. eexists. split; [done|].
  cbn [front max rear key_offset size buf]. split_and!; try done.
  unfold queue_elems; cbn [front max rear key_offset size buf]. rewrite length_insert.
  pose proof (Z.mod_pos_bound (rear q + 1) (max q)).
  split_and!; try lia.
  - rewrite Hf, mod_add_l_succ by lia. f_equal. simpl. lia.
  - intros i b Hi. rewrite mod_add_l_succ by lia.
    replace (Z.of_nat i + 1) with (Z.of_nat (S i)) by lia.
    rewrite list_lookup_insert_ne; [by apply Hnth|].
    intros E. apply (f_equal Z.of_nat) in E. pose proof (lookup_lt_Some _ _ _ Hi).
    pose proof (Z.mod_pos_bound (rear q + Z.of_nat (S i)) (max q)).
    rewrite !Z2Nat.id in E by lia.
    assert (E' : (rear q + 0) mod max q = (rear q + Z.of_nat (S i)) mod max q)
      by (by rewrite Z.add_0_r, (Z.mod_small (rear q)) by lia).
    apply mod_slot_inj in E'; lia.
Qed.

Lemma read_rear q a l : queue_elems q (a :: l) → read_slot q (rear q) = Ok (Some a).
Proof.
  intros (Hm & Hb & Hr & Hl & Hf & Hnth). apply read_slot_ok; [lia|].
  specialize (Hnth 0%nat a eq_refl). by rewrite Z.add_0_r, Z.mod_small in Hnth by lia.
Qed.

Section dequeue.
  Context {V : Type} (h : heap V).

Lemma load_live a : live h a → ∃ e o, load h a = Ok e ∧ de_val e = Some o.
Proof. intros (e & o & E & Eo). exists e, o. unfold load. by rewrite E. Qed.

Lemma dequeue_nil q : queue_elems q [] → dequeue h q = Ok (None, q).
Proof. intros Hq. unfold dequeue. by rewrite (queue_empty_iff _ _ Hq). Qed.

Lemma dequeue_cons q a l :
  queue_elems q (a :: l) → live h a →
  ∃ q', dequeue h q = Ok (Some a, q') ∧ queue_elems q' l ∧ size q' = to_int (size q - 1) ∧ max q' = max q.
Proof.
  intros Hq Ha. unfold dequeue. rewrite (queue_empty_iff _ _ Hq). simpl bool_decide. cbv iota.
  rewrite (read_rear _ _ _ Hq). res_step. destruct (load_live a Ha) as (e & o & -> & Eo). res_step.
  rewrite Eo. cbn. destruct (drop_rear_elems _ _ _ Hq) as (q' & -> & ? & ? & _ & ? & _). res_step. eauto 6.
Qed.

Lemma dequeue_dangling q a l :
  queue_elems q (a :: l) → h !! a = None → dequeue h q = Fault UseAfterFree.
Proof.
  intros Hq Ha. unfold dequeue. rewrite (queue_empty_iff _ _ Hq). simpl bool_decide. cbv iota.
  rewrite (read_rear _ _ _ Hq). res_step. unfold load. by rewrite Ha.
Qed.

Lemma forceDequeue_nil q : queue_elems q [] → forceDequeue h q = Ok (None, q).
Proof. intros Hq. unfold forceDequeue. by rewrite (queue_empty_iff _ _ Hq). Qed.

Lemma forceDequeue_cons q a l :
  queue_elems q (a :: l) → live h a →
  ∃ q', forceDequeue h q = Ok (Some a, q') ∧ queue_elems q' l ∧ size q' = to_int (size q - 1) ∧
        max q' = max q.
Proof.
  intros Hq Ha. unfold forceDequeue. rewrite (queue_empty_iff _ _ Hq). simpl bool_decide. cbv iota.
  rewrite (read_rear _ _ _ Hq). res_step. destruct (load_live a Ha) as (e & o & -> & Eo). res_step.
  rewrite Eo. cbn. destruct (drop_rear_elems _ _ _ Hq) as (q' & -> & ? & ? & ? & ? & _). res_step.
  eauto 6.
Qed.

Lemma force_loop_elems n q l :
  queue_elems q l → Forall (live h) l →
  ∃ q', force_loop n h q = Ok q' ∧ queue_elems q' (drop n l) ∧ max q' = max q ∧
        (size q = Z.of_nat (length l) → size q' = Z.of_nat (length (drop n l))).
Proof.
  revert q l. induction n as [|n IH]; intros q l Hq Hl; cbn [force_loop].
  { exists q. by rewrite drop_0. }
  destruct l as [|a l].
  - rewrite (forceDequeue_nil _ Hq). res_step. destruct (IH q [] Hq Hl) as (q' & E & H).
    rewrite drop_nil in H. eauto.
  - inversion Hl as [|? ? Ha Hl']; subst.
    destruct (forceDequeue_cons _ _ _ Hq Ha) as (q1 & -> & Hq1 & Hs1 & Hm1). res_step.
    destruct (IH q1 l Hq1 Hl') as (q' & E & ? & ? & Hsize).
    exists q'. split_and!; [done|done|congruence|]. intros Hs. apply Hsize. rewrite Hs1, Hs.
    simpl length. destruct Hq as (? & _ & _ & ? & _). simpl length in *.
    unfold QUEUE_MAX in *. rewrite to_int_id; unfold INT_MIN, INT_MAX; lia.
Qed.

Lemma initializeQueue_elems q l :
  queue_elems q l → Forall (live h) l →
  ∃ q', initializeQueue h q = Ok q' ∧ queue_elems q' [] ∧ max q' = max q ∧
        (size q = Z.of_nat (length l) →
         size q' = if rear q <=? front q then 0 else Z.of_nat (length l)).
Proof.
  intros Hq Hl. unfold initializeQueue.
  destruct (force_loop_elems (Z.to_nat (front q - rear q + 1)) q l Hq Hl)
    as (q1 & -> & (? & ? & ? & _) & Hm1 & Hs1). res_step. eexists. split; [done|].
  split; [unfold queue_elems; cbn [front max rear key_offset size buf]; split_and!; try (simpl; lia); done|].
  split; [done|]. intros Hs. cbn [size]. rewrite (Hs1 Hs). destruct Hq as (Hm & _ & Hr & Hlen & Hf & _).
  destruct (Z.leb_spec (rear q) (front q)) as [Hle|Hgt].
  - destruct (decide (rear q + Z.of_nat (length l) < max q)).
    + rewrite Z.mod_small in Hf by lia. rewrite drop_ge by lia. done.
    + replace (rear q + Z.of_nat (length l))
        with (rear q + Z.of_nat (length l) - max q + 1 * max q) in Hf by lia.
      rewrite Z.mod_add, Z.mod_small in Hf by lia. lia.
  - replace (Z.to_nat (front q - rear q + 1)) with 0%nat by lia. by rewrite drop_0.
Qed.
End dequeue.

(** ** Moving entries between the queues *)

Lemma set_location_ok {V} (h : heap V) a e o loc :
  h !! a = Some e → de_val e = Some o →
  set_location h a loc = Ok (<[a := mkEntry (de_key e) (Some (mkRobj loc (robj_ptr o)))]> h).
Proof. intros E Eo. unfold set_location, load. rewrite E. res_step. by rewrite Eo. Qed.

(** [enqueue] of an entry, whether or not the queue has room: what is kept of the
    list is a prefix, and the entry comes last; a queue only grows when full. *)
Lemma enqueue_any q l a :
  queue_elems q l → max q < QUEUE_MAX →
  ∃ q' l', enqueue q (Some a) = Ok (1, q') ∧ queue_elems q' (l' ++ [a]) ∧ l' `prefix_of` l ∧
    max q' ≤ Z.max (max q) (2 * (Z.of_nat (length l) + 1)).
Proof.
  intros Hq Hmax. pose proof Hq as (_ & _ & _ & Hl & _).
  destruct (decide (Z.of_nat (length l) + 1 < max q)) as [Hr|Hf].
  - destruct (enqueue_room q l a Hq Hr) as (q' & E & Hq' & _ & Hm & _). exists q', l. split_and!; [done..|lia].
  - destruct (enqueue_full q l a Hq) as (q' & E & Hq' & _ & Hm); [lia|done|].
    exists q', (take (Z.to_nat (max q - 1 - rear q)) l). split_and!; [done|done|apply prefix_take|lia].
Qed.

Lemma choose_best_cons {V} (h : heap V) q fq fq' a l e o :
  queue_elems q (a :: l) → enqueue fq (Some a) = Ok (1, fq') →
  h !! a = Some e → de_val e = Some o → location o = LOCATION_REDIS_ONLY →
  ∃ q', chooseBestKeyFromQueue_ h q fq =
      Ok (Some a, <[a := mkEntry (de_key e) (Some (mkRobj LOCATION_FLUSH (robj_ptr o)))]> h, q', fq')
    ∧ queue_elems q' l ∧ max q' = max q.
Proof.
  intros Hq Hfq He Ho Hloc. unfold chooseBestKeyFromQueue_.
  destruct (dequeue_cons h q a l Hq) as (q' & -> & ? & _ & ?); [by exists e, o|]. res_step.
  assert (entry_obj h (Some a) = Ok o) as ->.
  { unfold entry_obj. cbn [deref]. res_step. unfold load. rewrite He. res_step. by rewrite Ho. }
  res_step. rewrite Hloc, Z.eqb_refl. cbn [assert deref]. do 2 res_step.
  rewrite (set_location_ok h a e o) by done. res_step.
  rewrite Hfq. res_step. eauto.
Qed.

Lemma dequeueForClear_cons {V} (h : heap V) q a l e o :
  queue_elems q (a :: l) → h !! a = Some e → de_val e = Some o →
  location o ≠ LOCATION_REDIS_ONLY →
  if location o =? LOCATION_PERSISTED
  then ∃ q', dequeueForClear h q = Ok (Some a, q') ∧ queue_elems q' l ∧ max q' = max q
  else dequeueForClear h q = Ok (None, q).
Proof.
  intros Hq He Ho Hloc. unfold dequeueForClear. rewrite (read_rear _ _ _ Hq). res_step.
  unfold load. rewrite He. res_step. rewrite Ho.
  rewrite bool_decide_true by eauto. cbn [assert deref]. do 2 res_step.
  apply Z.eqb_neq in Hloc. rewrite Hloc. cbn [negb assert]. res_step.
  destruct (location o =? LOCATION_PERSISTED); [|done]. cbn [negb].
  destruct (drop_rear_elems _ _ _ Hq) as (q' & -> & ? & _ & _ & ? & _). res_step. eauto.
Qed.

(** * Properties *)

Inductive qop := QEnq (a : addr) | QDeq.

Section sequences.
  Context {V : Type} (h : heap V).

(** A sequence of operations on the queue, with the results of the dequeues. *)
Fixpoint qrun (q : Queue) (os : list qop) : res (list (option addr) * Queue) :=
  match os with
  | [] => Ok ([], q)
  | QEnq a :: os' => r ← enqueue q (Some a); qrun r.2 os'
  | QDeq :: os' => r ← dequeue h q; r' ← qrun r.2 os'; Ok (r.1 :: r'.1, r'.2)
  end.

(** The same sequence on a first-in first-out list. *)
Fixpoint frun (l : list addr) (os : list qop) : list (option addr) * list addr :=
  match os with
  | [] => ([], l)
  | QEnq a :: os' => frun (l ++ [a]) os'
  | QDeq :: os' => let r := frun (tail l) os' in (head l :: r.1, r.2)
  end.

(** No enqueue finds the queue full, and every entry is live. *)
Fixpoint froom (cap : Z) (l : list addr) (os : list qop) : Prop :=
  match os with
  | [] => True
  | QEnq a :: os' => Z.of_nat (length l) + 1 < cap ∧ live h a ∧ froom cap (l ++ [a]) os'
  | QDeq :: os' => froom cap (tail l) os'
  end.

(** C20: on any sequence of [enqueue] and [dequeue] calls that never finds the
    array full, the circular queue is a first-in first-out queue: each dequeue
    returns the oldest entry (NULL when empty), nothing faults, and [size] counts
    the entries that remain. *)
Theorem queue_fifo q l os :
  queue_rep q l → Forall (live h) l → froom (max q) l os →
  ∃ q', qrun q os = Ok ((frun l os).1, q') ∧ queue_rep q' (frun l os).2.
Proof.
  revert q l. induction os as [|[a|] os IH]; intros q l [Hq Hs] Hl Hroom; cbn [qrun frun froom] in *.
  - by exists q.
  - destruct Hroom as (Hlt & Ha & Hroom).
    destruct (enqueue_room q l a Hq Hlt) as (q1 & -> & Hq1 & Hs1 & Hm1 & _). res_step. cbn [fst snd].
    apply IH; [|by apply Forall_app_2; [|constructor]|by rewrite Hm1].
    split; [done|]. rewrite Hs1, Hs, length_app. simpl. destruct Hq as (? & _).
    unfold QUEUE_MAX in *. rewrite to_int_id; unfold INT_MIN, INT_MAX; lia.
  - destruct l as [|a l].
    + rewrite (dequeue_nil h _ Hq). res_step. cbn [fst snd tail head] in *.
      destruct (IH q [] ltac:(done) Hl Hroom) as (q' & -> & ?). res_step. eauto.
    + inversion Hl as [|? ? Ha Hl']; subst.
      destruct (dequeue_cons h _ _ _ Hq Ha) as (q1 & -> & Hq1 & Hs1 & Hm1). res_step. cbn [fst snd tail head] in *.
      destruct (IH q1 l) as (q' & -> & ?); [|done|congruence|].
      { split; [done|]. rewrite Hs1, Hs. destruct Hq as (? & _ & _ & ? & _). simpl length in *.
        unfold QUEUE_MAX in *. rewrite to_int_id; unfold INT_MIN, INT_MAX; lia. }
      res_step. eauto.
Qed.
End sequences.

Lemma queue_fifo_witness :
  let h : heap unit := {[1%positive := mkEntry (lit "a") (Some (mkRobj 0 tt));
                         2%positive := mkEntry (lit "b") (Some (mkRobj 0 tt))]} in
  ∃ q', qrun h (createArrayQueue 3) [QEnq 1%positive; QEnq 2%positive; QDeq; QEnq 1%positive; QDeq; QDeq; QDeq] =
          Ok ([Some 1%positive; Some 2%positive; Some 1%positive; None], q') ∧ queue_rep q' [].
Proof.
  intros h. apply (queue_fifo h (createArrayQueue 3) []
    [QEnq 1%positive; QEnq 2%positive; QDeq; QEnq 1%positive; QDeq; QDeq; QDeq]).
  - apply createArrayQueue_rep. unfold QUEUE_MAX. lia.
  - constructor.
  - cbn. repeat (split || lia || (do 2 eexists; split; reflexivity) || exact I).
Defined.

(** C39: when [enqueue] finds the array full it grows it (up to [QUEUE_MAX]), but
    keeps only the entries stored from [rear] to the end of the old array, the
    last of them excepted: with [rear = 0] the new entry is appended, otherwise
    [rear] entries are lost while [size] still counts them. *)
Theorem enqueue_full_keeps q l a :
  queue_rep q l → Z.of_nat (length l) = max q - 1 → max q < QUEUE_MAX →
  ∃ q', enqueue q (Some a) = Ok (1, q') ∧
        queue_elems q' (take (Z.to_nat (max q - 1 - rear q)) l ++ [a]) ∧
        size q' = Z.of_nat (length l) + 1 ∧
        Z.of_nat (length (take (Z.to_nat (max q - 1 - rear q)) l ++ [a])) = size q' - rear q.
Proof.
  intros [Hq Hs] Hl Hmax. destruct (enqueue_full q l a Hq Hl Hmax) as (q' & E & Hq' & Hs' & _).
  exists q'. destruct Hq as (Hm & _ & Hr & _). unfold QUEUE_MAX in *.
  rewrite Hs, to_int_id in Hs' by (unfold INT_MIN, INT_MAX; lia).
  split_and!; [done|done|done|]. rewrite length_app, length_take, Hs'. simpl. lia.
Qed.

Lemma enqueue_full_keeps_witness :
  let h : heap unit := {[1%positive := mkEntry (lit "a") (Some (mkRobj 0 tt))]} in
  let q := match qrun h (createArrayQueue 3)
                   [QEnq 1%positive; QDeq; QEnq 2%positive; QEnq 3%positive]
           with Ok (_, q) => q | _ => createArrayQueue 1 end in
  queue_rep q [2%positive; 3%positive] ∧
  ∃ q', enqueue q (Some 4%positive) = Ok (1, q') ∧
        queue_elems q' [2%positive; 4%positive] ∧ size q' = 3 ∧ 2 = size q' - rear q.
Proof.
  intros h q.
  assert (Hq : queue_rep q [2%positive; 3%positive]).
  { vm_compute. repeat split; try discriminate.
    intros [|[|i]] a; vm_compute; [congruence|congruence|destruct i; discriminate]. }
  split; [exact Hq|].
  apply (enqueue_full_keeps q [2%positive; 3%positive] 4%positive Hq);
    [reflexivity|vm_compute; reflexivity].
Defined.

(** [initializeQueue] leaves a queue that holds nothing, for every queue of
    live entries; [size] is reset only if the entries did not wrap around the end
    of the array ([rear <= front]), otherwise it keeps its old value. *)
Theorem initializeQueue_empties {V} (h : heap V) q l :
  queue_rep q l → Forall (live h) l →
  ∃ q', initializeQueue h q = Ok q' ∧ queue_elems q' [] ∧
        size q' = (if rear q <=? front q then 0 else Z.of_nat (length l)).
Proof.
  intros [Hq Hs] Hl. destruct (initializeQueue_elems h q l Hq Hl) as (q' & E & Hq' & _ & Hsize). eauto.
Qed.

Lemma initializeQueue_empties_witness :
  let h : heap unit := {[1%positive := mkEntry (lit "a") (Some (mkRobj 0 tt))]} in
  let q := mkQueue 2 1 3 0 2 [Some (Some 1%positive); None; Some (Some 1%positive)] in
  ∃ q', initializeQueue h q = Ok q' ∧ queue_elems q' [] ∧ size q' = 2.
Proof.
  intros h q. apply (initializeQueue_empties h q [1%positive; 1%positive]).
  - vm_compute. repeat split; try discriminate.
    intros [|[|i]] a; vm_compute; [congruence|congruence|destruct i; discriminate].
  - repeat constructor; do 2 eexists; split; reflexivity.
Defined.
