(* ===== verification/Keys.v ===== *)
(** src/src/addb_relational.c (keys), src/src/global.h: the textual keys of the
    relational layer.  A row group of a table partition is stored under the data
    key [D:{table:partition}:G:rowgroup], its counters under the meta key
    [M:{table:partition}], and each column vector under the RocksDB key
    [datakey:F:row:column].  The parsers work on fixed-size buffers with
    [strtok_r], the generators with [sprintf]. *)

From S2P Require Import Prelude CString Util Sds.

Definition RELMODEL_DELIMITER : bytes := lit ":".
Definition RELMODEL_DATA_PREFIX : bytes := lit "D".
Definition RELMODEL_META_PREFIX : bytes := lit "M".
Definition RELMODEL_INDEX_PREFIX : bytes := lit "I".
Definition RELMODEL_BRACE_PREFIX : bytes := lit "{".
Definition RELMODEL_BRACE_SUFFIX : bytes := lit "}".
Definition RELMODEL_ROWGROUPID_PREFIX : bytes := lit "G:".
Definition RELMODEL_COLUMN_DELIMITER : bytes := lit ",".
Definition REL_MODEL_FIELD_PREFIX : bytes := lit "F:".

Definition MAX_TMPBUF_SIZE : nat := 128.
Definition DATA_KEY_MAX_SIZE : nat := 256.
Definition PARTITION_KEY_MAX_SIZE : nat := 256.
Definition PARTITION_KEY_MAX_CNT : nat := 32.

(** The union [Partition] with its tag [isPartitionString]; the integer form
    holds [partitionCnt] 64-bit values. *)
Inductive Partition :=
| PartitionString (s : bytes)
| PartitionInt (l : list Z).

Record NewDataKeyInfo := mkKeyInfo {
  tableId : Z;
  rowGroupId : Z;
  row_number : Z;
  partitionInfo : Partition;
}.

Record MetaKeyInfo := mkMetaKeyInfo {
  mk_tableId : Z;
  mk_partitionInfo : Partition;
}.

#[export] Instance Partition_eq_dec : EqDecision Partition.
Proof. solve_decision. Defined.
#[export] Instance NewDataKeyInfo_eq_dec : EqDecision NewDataKeyInfo.
Proof. solve_decision. Defined.
#[export] Instance MetaKeyInfo_eq_dec : EqDecision MetaKeyInfo.
Proof. solve_decision. Defined.

Definition set_rowGroupId (k : NewDataKeyInfo) (g : Z) : NewDataKeyInfo :=
  mkKeyInfo (tableId k) g (row_number k) (partitionInfo k).
Definition set_row_number (k : NewDataKeyInfo) (n : Z) : NewDataKeyInfo :=
  mkKeyInfo (tableId k) (rowGroupId k) n (partitionInfo k).

(** * Parsing *)

(** [token + strlen("{")] on a token, which holds at least one byte. *)
Definition skip_brace (token : bytes) : bytes := drop (length RELMODEL_BRACE_PREFIX) token.

(** [parsingDataKeyInfo]: the asserts of the size checks, NULL for a broken key. *)
Definition parsingDataKeyInfo (dataKeyString : bytes) : res (option NewDataKeyInfo) :=
  let size := S (length dataKeyString) in
  _ ← assert (size =? S (length (cstr dataKeyString)))%nat;
  _ ← assert (size <? MAX_TMPBUF_SIZE)%nat;
  let '(token, saveptr) := strtok_r dataKeyString RELMODEL_DELIMITER in
  match token with
  | None => Ok None
  | Some token =>
      let saveptr := if strcasecmp_eq token RELMODEL_INDEX_PREFIX
                     then (strtok_r saveptr RELMODEL_DELIMITER).2 else saveptr in
      let '(token, saveptr) := strtok_r saveptr RELMODEL_DELIMITER in
      match token with
      | None => Ok None
      | Some token =>
          let tableId := atoi (skip_brace token) in
          let '(token, saveptr) := strtok_r saveptr RELMODEL_BRACE_SUFFIX in
          match token with
          | None => Ok None
          | Some token =>
              _ ← assert (S (length token) <=? PARTITION_KEY_MAX_SIZE)%nat;
              let rowGroupId :=
                match (strtok_r saveptr RELMODEL_ROWGROUPID_PREFIX).1 with
                | Some token => atoi token
                | None => 0
                end in
              Ok (Some (mkKeyInfo tableId rowGroupId 0 (PartitionString token)))
          end
      end
  end.

Definition parseMetaKeyInfo (metakey : bytes) : res (option MetaKeyInfo) :=
  let size := S (length metakey) in
  _ ← assert (size =? S (length (cstr metakey)))%nat;
  _ ← assert (size <? MAX_TMPBUF_SIZE)%nat;
  let '(token, savePtr) := strtok_r metakey RELMODEL_DELIMITER in
  match token with
  | None => Ok None
  | Some token =>
      if negb (strcmp_eq token (lit "M")) then Ok None
      else
        let '(token, savePtr) := strtok_r savePtr RELMODEL_DELIMITER in
        match token with
        | None => Ok None
        | Some token =>
            let tableId := atoi (skip_brace token) in
            let '(token, savePtr) := strtok_r savePtr RELMODEL_BRACE_SUFFIX in
            match token with
            | None => Ok None
            | Some token =>
                _ ← assert (S (length token) <=? PARTITION_KEY_MAX_SIZE)%nat;
                Ok (Some (mkMetaKeyInfo tableId (PartitionString token)))
            end
        end
  end.

(** The bytes that [%s] prints for [partitionInfo.partitionString]; when the
    union holds integers its bytes are not a string. *)
Definition partition_chars (p : Partition) : res bytes :=
  match p with PartitionString s => Ok (cstr s) | PartitionInt _ => Fault Uninitialised end.

Definition toMetaKey (dataKey : bytes) : res (rc * option (bytes * Z)) :=
  info ← parsingDataKeyInfo dataKey;
  match info with
  | None => Ok (C_ERR, None)
  | Some info =>
      part ← partition_chars (partitionInfo info);
      metaKey ← sdscatfmt [] (lit "%s%s%s%i%s%s%s")
        [FStr RELMODEL_META_PREFIX; FStr RELMODEL_DELIMITER; FStr RELMODEL_BRACE_PREFIX;
         FInt (tableId info); FStr RELMODEL_DELIMITER; FStr part; FStr RELMODEL_BRACE_SUFFIX];
      Ok (C_OK, Some (metaKey, rowGroupId info))
  end.

(** * Generating *)

(** A [char buf[n]] on the stack with its current bytes. *)
Definition sprintf_at (buf : bytes) (p : nat) (text : bytes) : res bytes :=
  if (p + length text <? length buf)%nat
  then Ok (take p buf ++ text ++ [NUL] ++ drop (S (p + length text)) buf)
  else Fault OutOfBounds.

Definition new_buf (n : nat) : bytes := replicate n NUL.

(** The loop that prints [":%llu"] for each integer of the partition. *)
Fixpoint sprintf_parts (buf : bytes) (p : nat) (l : list Z) : res (bytes * nat) :=
  match l with
  | [] => Ok (buf, p)
  | v :: l' =>
      buf ← sprintf_at buf p (lit ":" ++ u2s v);
      sprintf_parts buf (p + Z.to_nat (digits10 v) + 1) l'
  end.

(** The common shape of the generators: [prefix:{table:partition}suffix] printed
    into a buffer of [DATA_KEY_MAX_SIZE] bytes.  For an integer partition the
    write position is advanced by [digits10] of each number; [digits10] takes a
    [uint64_t], so a negative table id is counted as its 20-digit conversion. *)
Definition sprintf_key (prefix : bytes) (info : NewDataKeyInfo) (suffix : bytes) : res bytes :=
  let buf := new_buf DATA_KEY_MAX_SIZE in
  match partitionInfo info with
  | PartitionString s =>
      buf ← sprintf_at buf 0
        (prefix ++ lit ":{" ++ d2s (tableId info) ++ lit ":" ++ cstr s ++ lit "}" ++ suffix);
      Ok (cstr buf)
  | PartitionInt l =>
      buf ← sprintf_at buf 0 (prefix ++ lit ":{" ++ d2s (tableId info));
      let p := (length prefix + 2 + Z.to_nat (digits10 (to_unsigned 64 (tableId info))))%nat in
      r ← sprintf_parts buf p l;
      buf ← sprintf_at r.1 r.2 (lit "}" ++ suffix);
      Ok (cstr buf)
  end.

Definition generateRgIdKeyForRowgroup (info : NewDataKeyInfo) : res bytes :=
  sprintf_key RELMODEL_META_PREFIX info [].

Definition generateDataKeySds (info : NewDataKeyInfo) : res bytes :=
  sprintf_key RELMODEL_DATA_PREFIX info (lit ":" ++ RELMODEL_ROWGROUPID_PREFIX ++ d2s (rowGroupId info)).

Definition generateDataKey (info : NewDataKeyInfo) : res bytes := generateDataKeySds info.

Definition generateDataKeyForFirstEntry (info : NewDataKeyInfo) : res bytes :=
  sprintf_key RELMODEL_DATA_PREFIX info (lit ":" ++ RELMODEL_ROWGROUPID_PREFIX ++ d2s 1).

Definition generatePrevDataKey (info : NewDataKeyInfo) : res bytes :=
  sprintf_key RELMODEL_DATA_PREFIX info
    (lit ":" ++ RELMODEL_ROWGROUPID_PREFIX ++ d2s (to_int (rowGroupId info - 1))).

Definition getDataFieldSds (rowId columnId : Z) : res bytes :=
  buf ← sprintf_at (new_buf DATA_KEY_MAX_SIZE) 0 (d2s rowId ++ lit ":" ++ d2s columnId);
  Ok (cstr buf).
Definition getDataField (row column : Z) : res bytes := getDataFieldSds row column.

Definition generateDataRocksKeySds (info : NewDataKeyInfo) (rowId columnId : Z) : res bytes :=
  dataKey ← generateDataKeySds info;
  fieldKey ← getDataFieldSds rowId columnId;
  buf ← sprintf_at (new_buf DATA_KEY_MAX_SIZE) 0
          (cstr dataKey ++ lit ":" ++ REL_MODEL_FIELD_PREFIX ++ cstr fieldKey);
  Ok (cstr buf).
Definition generateDataRocksKey (info : NewDataKeyInfo) (rowId columnId : Z) : res bytes :=
  generateDataRocksKeySds info rowId columnId.

(** The loop of [setMetaKeyForRowgroup] that converts an integer partition. *)
Fixpoint print_parts (l : list Z) : bytes :=
  match l with
  | [] => []
  | [v] => u2s v
  | v :: l' => u2s v ++ lit ":" ++ print_parts l'
  end.

(** [setMetaKeyForRowgroup(dataKeyInfo, key)]: the key written into the buffer
    and the structure, whose partition is now a string. *)
Definition setMetaKeyForRowgroup (info : NewDataKeyInfo) : res (bytes * NewDataKeyInfo) :=
  part ← (match partitionInfo info with
          | PartitionString s => Ok s
          | PartitionInt l =>
              if (PARTITION_KEY_MAX_CNT <? length l)%nat then Fault OutOfBounds
              else if (PARTITION_KEY_MAX_SIZE <? S (length (print_parts l)))%nat
              then Fault OutOfBounds
              else Ok (print_parts l)
          end);
  let info' := mkKeyInfo (tableId info) (rowGroupId info) (row_number info) (PartitionString part) in
  let key := RELMODEL_META_PREFIX ++ lit ":{" ++ d2s (tableId info) ++ lit ":" ++ cstr part ++ lit "}" in
  _ ← assert (length key <? DATA_KEY_MAX_SIZE)%nat;
  Ok (key, info').

Example parse_ex :
  parsingDataKeyInfo (lit "D:{100:1:2}:G:1") =
    Ok (Some (mkKeyInfo 100 1 0 (PartitionString (lit "1:2")))).
Proof. vm_compute. reflexivity. Qed.
Example toMetaKey_ex :
  toMetaKey (lit "D:{100:1:2}:G:1") = Ok (C_OK, Some (lit "M:{100:1:2}", 1)).
Proof. vm_compute. reflexivity. Qed.
Example generate_ex :
  generateDataRocksKeySds (mkKeyInfo 7 3 0 (PartitionInt [10; 2])) 1 4 = Ok (lit "D:{7:10:2}:G:3:F:1:4").
Proof. vm_compute. reflexivity. Qed.

(** * Text of the keys *)

Definition key_text (prefix : bytes) (table : Z) (part suffix : bytes) : bytes :=
  prefix ++ lit ":{" ++ d2s table ++ lit ":" ++ part ++ lit "}" ++ suffix.
Definition meta_key (table : Z) (part : bytes) : bytes := key_text RELMODEL_META_PREFIX table part [].
Definition data_key (table : Z) (part : bytes) (rg : Z) : bytes :=
  key_text RELMODEL_DATA_PREFIX table part (lit ":G:" ++ d2s rg).
Definition data_field (row col : Z) : bytes := d2s row ++ lit ":" ++ d2s col.
Definition rocks_key (datakey field : bytes) : bytes := datakey ++ lit ":F:" ++ field.

(** A partition text that the parsers give back: a non-empty C string without
    the closing brace. *)
Definition wf_part (p : bytes) : Prop := p ≠ [] ∧ nonul p ∧ "}"%char ∉ p.

#[export] Instance wf_part_dec p : Decision (wf_part p).
Proof. unfold wf_part. apply _. Defined.

(** The partition of a key, as text. *)
Definition part_text (p : Partition) : bytes :=
  match p with PartitionString s => s | PartitionInt l => print_parts l end.

(** A structure whose partition text is well formed; an integer partition holds
    at least one 64-bit value and goes with a non-negative table id. *)
Definition wf_info (k : NewDataKeyInfo) : Prop :=
  INT_MIN ≤ tableId k ≤ INT_MAX ∧ INT_MIN ≤ rowGroupId k ≤ INT_MAX ∧
  match partitionInfo k with
  | PartitionString s => wf_part s
  | PartitionInt l =>
      l ≠ [] ∧ (length l ≤ PARTITION_KEY_MAX_CNT)%nat ∧ 0 ≤ tableId k ∧
      Forall (fun v => 0 ≤ v ≤ ULLONG_MAX) l
  end.

Lemma sprintf_at_0 n text :
  (length text < n)%nat →
  sprintf_at (new_buf n) 0 text = Ok (text ++ NUL :: drop (S (length text)) (new_buf n)).
Proof.
  intros H. unfold sprintf_at, new_buf at 1. rewrite length_replicate. cbn [Nat.add].
  by destruct (Nat.ltb_spec (length text) n); [|lia].
Qed.

(** Printing on from the NUL that ended the text printed before. *)
Lemma sprintf_at_next buf text text' :
  (∃ rest, buf = text ++ NUL :: rest) → (length text + length text' < length buf)%nat →
  ∃ buf', sprintf_at buf (length text) text' = Ok buf' ∧ length buf' = length buf ∧
          ∃ rest, buf' = (text ++ text') ++ NUL :: rest.
Proof.
  intros [rest ->] H. unfold sprintf_at.
  destruct (Nat.ltb_spec (length text + length text') (length (text ++ NUL :: rest))); [|lia].
  rewrite take_app_length. eexists. split; [done|]. split.
  - rewrite !length_app, length_drop in *. simpl in *. rewrite length_app in *. simpl in *. lia.
  - eexists. rewrite <- app_assoc. done.
Qed.

Lemma nonul_lit_key table part prefix suffix :
  nonul prefix → nonul part → nonul suffix → nonul (key_text prefix table part suffix).
Proof.
  intros. unfold key_text. rewrite !nonul_app.
  split_and!; try done; try apply d2s_nonul; by apply (bool_decide_unpack _).
Qed.

Lemma print_parts_cons v l :
  lit ":" ++ print_parts (v :: l) = lit ":" ++ u2s v ++ concat (map (fun v => lit ":" ++ u2s v) l).
Proof.
  revert v. induction l as [|w l IH]; intros v; [by rewrite app_nil_r|].
  change (print_parts (v :: w :: l)) with (u2s v ++ lit ":" ++ print_parts (w :: l)).
  rewrite IH. simpl. done.
Qed.

Lemma parts_nonul l :
  Forall (fun v => 0 ≤ v ≤ ULLONG_MAX) l → nonul (concat (map (fun v => lit ":" ++ u2s v) l)).
Proof.
  induction 1 as [|w l Hw Hl IH]; [by apply (bool_decide_unpack _)|].
  cbn [map concat]. rewrite !nonul_app. split_and!; [by apply (bool_decide_unpack _)| |done].
  replace (u2s w) with (d2s w); [apply d2s_nonul|]. unfold d2s. destruct (Z.ltb_spec w 0); [lia|done].
Qed.

Lemma sprintf_parts_ok l : ∀ buf text,
  Forall (fun v => 0 ≤ v ≤ ULLONG_MAX) l → (∃ rest, buf = text ++ NUL :: rest) →
  (length text + length (concat (map (fun v => lit ":" ++ u2s v) l)) < length buf)%nat →
  ∃ buf', sprintf_parts buf (length text) l =
            Ok (buf', length (text ++ concat (map (fun v => lit ":" ++ u2s v) l))) ∧
          length buf' = length buf ∧
          ∃ rest, buf' = (text ++ concat (map (fun v => lit ":" ++ u2s v) l)) ++ NUL :: rest.
Proof.
  induction l as [|v l IH]; intros buf text Hl Hb Hlen; cbn [sprintf_parts map concat] in *.
  - rewrite app_nil_r. eauto.
  - inversion Hl as [|? ? Hv Hl']; subst. rewrite length_app in Hlen.
    destruct (sprintf_at_next buf text (lit ":" ++ u2s v) Hb) as (buf1 & -> & Hl1 & Hb1); [lia|].
    res_step. rewrite (digits10_u2s v) by done. rewrite Nat2Z.id.
    replace (length text + length (u2s v) + 1)%nat with (length (text ++ lit ":" ++ u2s v))
      by (rewrite !length_app; cbn [lit length String.list_ascii_of_string]; lia).
    destruct (IH buf1 (text ++ lit ":" ++ u2s v) Hl' Hb1) as (buf2 & -> & Hl2 & Hb2).
    { rewrite Hl1, length_app. lia. }
    exists buf2. rewrite <- !app_assoc in *. cbn [app] in *. split_and!; [done|congruence|done].
Qed.

(** Both branches of the generators print the same text, and the write position
    of the integer branch is always at the end of what was printed so far. *)
Lemma sprintf_key_ok prefix info suffix :
  wf_info info → nonul prefix → nonul suffix →
  (length (key_text prefix (tableId info) (part_text (partitionInfo info)) suffix) < DATA_KEY_MAX_SIZE)%nat →
  sprintf_key prefix info suffix =
    Ok (key_text prefix (tableId info) (part_text (partitionInfo info)) suffix).
Proof.
  intros (Ht & _ & Hp) Hpre Hsuf Hlen. unfold sprintf_key. destruct (partitionInfo info) as [s|l]; simpl part_text in *.
  - destruct Hp as (_ & Hn & _). rewrite (cstr_nonul s Hn). rewrite sprintf_at_0 by done. res_step.
    rewrite cstr_app_nul; [done|]. by apply nonul_lit_key.
  - destruct Hp as (Hne & _ & Ht0 & Hl). destruct l as [|v l]; [done|].
    assert (E : key_text prefix (tableId info) (print_parts (v :: l)) suffix =
      ((prefix ++ lit ":{" ++ d2s (tableId info)) ++ concat (map (fun v => lit ":" ++ u2s v) (v :: l)))
        ++ lit "}" ++ suffix).
    { unfold key_text. rewrite (app_assoc (lit ":")), print_parts_cons. cbn [map concat].
      by rewrite <- !app_assoc. }
    rewrite E in *. clear E. set (t0 := prefix ++ lit ":{" ++ d2s (tableId info)) in *.
    set (mid := concat (map (fun v => lit ":" ++ u2s v) (v :: l))) in *.
    rewrite !length_app in Hlen.
    rewrite sprintf_at_0 by lia. res_step.
    replace (length prefix + 2 + Z.to_nat (digits10 (to_unsigned 64 (tableId info))))%nat with (length t0).
    2:{ unfold to_unsigned, INT_MAX in *. rewrite Z.mod_small by (change (2 ^ 64) with 18446744073709551616; lia).
        rewrite digits10_u2s by (unfold ULLONG_MAX; lia). rewrite Nat2Z.id. subst t0.
        rewrite !length_app. unfold d2s. destruct (Z.ltb_spec (tableId info) 0); [lia|].
        cbn [lit length String.list_ascii_of_string]. lia. }
    assert (Hlb : length (t0 ++ NUL :: drop (S (length t0)) (new_buf DATA_KEY_MAX_SIZE)) = DATA_KEY_MAX_SIZE).
    { rewrite length_app. cbn [length]. rewrite length_drop. unfold new_buf. rewrite length_replicate. lia. }
    destruct (sprintf_parts_ok (v :: l)
      (t0 ++ NUL :: drop (S (length t0)) (new_buf DATA_KEY_MAX_SIZE)) t0 Hl) as (buf1 & -> & Hl1 & Hb1).
    { by eexists. }
    { rewrite Hlb. fold mid. lia. }
    res_step. cbn [fst snd]. fold mid in Hb1 |- *.
    destruct (sprintf_at_next buf1 (t0 ++ mid) (lit "}" ++ suffix) Hb1) as (buf2 & -> & _ & rest & ->).
    { rewrite Hl1, Hlb, !length_app. lia. }
    res_step. rewrite cstr_app_nul; [done|]. subst t0 mid. rewrite !nonul_app. split_and!; try done.
    + by apply (bool_decide_unpack _).
    + apply d2s_nonul.
    + by apply parts_nonul.
    + by apply (bool_decide_unpack _).
Qed.

Lemma wf_part_text info : wf_info info → wf_part (part_text (partitionInfo info)).
Proof.
  intros (_ & _ & Hp). destruct (partitionInfo info) as [s|l]; [done|].
  destruct Hp as (Hne & _ & _ & Hl). destruct l as [|v l]; [done|].
  inversion Hl as [|? ? Hv Hl']; subst.
  assert (Hu : ∀ w, 0 ≤ w → nonul (u2s w) ∧ "}"%char ∉ u2s w).
  { intros w Hw. assert (E : u2s w = d2s w) by (unfold d2s; destruct (Z.ltb_spec w 0); [lia|done]).
    rewrite E. split; [apply d2s_nonul|]. pose proof (d2s_avoid w (lit "}") eq_refl) as Ha.
    rewrite Forall_forall in Ha. intros Hin. apply (Ha _ Hin). set_solver. }
  split.
  { simpl. destruct l; [apply u2s_nonempty; lia|]. intros [? _]%app_eq_nil.
    by apply (u2s_nonempty v ltac:(lia)). }
  change (nonul (print_parts (v :: l)) ∧ "}"%char ∉ print_parts (v :: l)). clear Hne Hl.
  revert v Hv. induction Hl' as [|w l Hw Hl' IH]; intros v Hv; [apply Hu; lia|].
  change (print_parts (v :: w :: l)) with (u2s v ++ lit ":" ++ print_parts (w :: l)).
  destruct (IH w Hw), (Hu v ltac:(lia)). rewrite !nonul_app, !not_elem_of_app.
  split_and!; try done; by apply (bool_decide_unpack _).
Qed.

(** The first two tokens of a key, whatever its prefix letter. *)
Lemma strtok_prefix c table part suffix :
  c ≠ ":"%char →
  strtok_r (key_text [c] table part suffix) RELMODEL_DELIMITER =
    (Some [c], lit "{" ++ d2s table ++ lit ":" ++ part ++ lit "}" ++ suffix).
Proof.
  intros Hc. apply (strtok_r_token [c] ":"%char (lit "{" ++ d2s table ++ lit ":" ++ part ++ lit "}" ++ suffix));
    [done| |set_solver].
  constructor; [|constructor]. unfold RELMODEL_DELIMITER. set_solver.
Qed.

Lemma strtok_table table part suffix :
  strtok_r (lit "{" ++ d2s table ++ lit ":" ++ part ++ lit "}" ++ suffix) RELMODEL_DELIMITER =
    (Some (lit "{" ++ d2s table), part ++ lit "}" ++ suffix).
Proof.
  rewrite app_assoc. apply (strtok_r_token (lit "{" ++ d2s table) ":"%char); [done| |set_solver].
  apply Forall_app; split; [|by apply d2s_avoid]. repeat constructor. unfold RELMODEL_DELIMITER. set_solver.
Qed.

Lemma strtok_part part suffix :
  wf_part part →
  strtok_r (part ++ lit "}" ++ suffix) RELMODEL_BRACE_SUFFIX = (Some part, suffix).
Proof.
  intros (Hne & _ & Hb). apply strtok_r_token; [done| |set_solver].
  apply Forall_forall. intros c Hc Hin. unfold RELMODEL_BRACE_SUFFIX in Hin. set_solver.
Qed.

Lemma strtok_rowgroup rg :
  strtok_r (lit ":G:" ++ d2s rg) RELMODEL_ROWGROUPID_PREFIX = (Some (d2s rg), []).
Proof.
  cbn [lit String.list_ascii_of_string app]. rewrite !strtok_r_skip by (by apply (bool_decide_unpack _)).
  apply strtok_r_last; [apply d2s_nonempty|by apply d2s_avoid].
Qed.

Lemma parse_data_key table part rg :
  INT_MIN ≤ table ≤ INT_MAX → INT_MIN ≤ rg ≤ INT_MAX → wf_part part →
  (S (length (data_key table part rg)) < MAX_TMPBUF_SIZE)%nat →
  parsingDataKeyInfo (data_key table part rg) =
    Ok (Some (mkKeyInfo table rg 0 (PartitionString part))).
Proof.
  intros Ht Hg Hp Hlen. pose proof Hp as (Hne & Hn & _). unfold parsingDataKeyInfo.
  assert (Hnk : nonul (data_key table part rg)).
  { apply nonul_lit_key; [by apply (bool_decide_unpack _)|done|].
    apply nonul_app; split; [by apply (bool_decide_unpack _)|apply d2s_nonul]. }
  rewrite (cstr_nonul _ Hnk), Nat.eqb_refl. cbn [assert]. res_step.
  destruct (Nat.ltb_spec (S (length (data_key table part rg))) MAX_TMPBUF_SIZE); [|lia].
  cbn [assert]. res_step. unfold data_key.
  change RELMODEL_DATA_PREFIX with ["D"%char].
  rewrite strtok_prefix by done. cbn [strcasecmp_eq]. change (strcasecmp_eq ["D"%char] RELMODEL_INDEX_PREFIX) with false.
  cbv iota. rewrite strtok_table, (strtok_part _ _ Hp), strtok_rowgroup.
  assert (Hlp : (length part < MAX_TMPBUF_SIZE)%nat).
  { unfold data_key, key_text in Hlen. rewrite !length_app in Hlen. lia. }
  destruct (Nat.leb_spec (S (length part)) PARTITION_KEY_MAX_SIZE);
    [|unfold MAX_TMPBUF_SIZE, PARTITION_KEY_MAX_SIZE in *; lia].
  cbn [assert]. res_step. cbn [fst].
  change (skip_brace (lit "{" ++ d2s table)) with (d2s table).
  rewrite !atoi_d2s_nil by done. done.
Qed.

Lemma parse_meta_key table part :
  INT_MIN ≤ table ≤ INT_MAX → wf_part part →
  (S (length (meta_key table part)) < MAX_TMPBUF_SIZE)%nat →
  parseMetaKeyInfo (meta_key table part) = Ok (Some (mkMetaKeyInfo table (PartitionString part))).
Proof.
  intros Ht Hp Hlen. pose proof Hp as (Hne & Hn & _). unfold parseMetaKeyInfo.
  assert (Hnk : nonul (meta_key table part)).
  { apply nonul_lit_key; [by apply (bool_decide_unpack _)|done|by apply (bool_decide_unpack _)]. }
  rewrite (cstr_nonul _ Hnk), Nat.eqb_refl. cbn [assert]. res_step.
  destruct (Nat.ltb_spec (S (length (meta_key table part))) MAX_TMPBUF_SIZE); [|lia].
  cbn [assert]. res_step. unfold meta_key.
  change RELMODEL_META_PREFIX with ["M"%char].
  rewrite strtok_prefix by done. change (negb (strcmp_eq ["M"%char] (lit "M"))) with false.
  cbv iota. rewrite strtok_table, (strtok_part _ _ Hp).
  assert (Hlp : (length part < MAX_TMPBUF_SIZE)%nat).
  { unfold meta_key, key_text in Hlen. rewrite !length_app in Hlen. lia. }
  destruct (Nat.leb_spec (S (length part)) PARTITION_KEY_MAX_SIZE);
    [|unfold MAX_TMPBUF_SIZE, PARTITION_KEY_MAX_SIZE in *; lia].
  cbn [assert]. res_step. change (skip_brace (lit "{" ++ d2s table)) with (d2s table).
  by rewrite atoi_d2s_nil by done.
Qed.

Lemma generateDataKeySds_ok info :
  wf_info info →
  (length (data_key (tableId info) (part_text (partitionInfo info)) (rowGroupId info)) < DATA_KEY_MAX_SIZE)%nat →
  generateDataKeySds info = Ok (data_key (tableId info) (part_text (partitionInfo info)) (rowGroupId info)).
Proof.
  intros Hw Hlen. apply sprintf_key_ok; [done|by apply (bool_decide_unpack _)| |done].
  change (lit ":" ++ RELMODEL_ROWGROUPID_PREFIX ++ d2s (rowGroupId info)) with (lit ":G:" ++ d2s (rowGroupId info)).
  apply nonul_app; split; [by apply (bool_decide_unpack _)|apply d2s_nonul].
Qed.

Lemma generateRgIdKey_ok info :
  wf_info info →
  (length (meta_key (tableId info) (part_text (partitionInfo info))) < DATA_KEY_MAX_SIZE)%nat →
  generateRgIdKeyForRowgroup info = Ok (meta_key (tableId info) (part_text (partitionInfo info))).
Proof.
  intros Hw Hlen. apply sprintf_key_ok; [done|by apply (bool_decide_unpack _)|by apply (bool_decide_unpack _)|done].
Qed.

Lemma setMetaKey_ok info :
  wf_info info →
  (length (meta_key (tableId info) (part_text (partitionInfo info))) < DATA_KEY_MAX_SIZE)%nat →
  setMetaKeyForRowgroup info =
    Ok (meta_key (tableId info) (part_text (partitionInfo info)),
        mkKeyInfo (tableId info) (rowGroupId info) (row_number info)
          (PartitionString (part_text (partitionInfo info)))).
Proof.
  intros Hw Hlen. pose proof (wf_part_text _ Hw) as (_ & Hn & _).
  unfold setMetaKeyForRowgroup. unfold meta_key, key_text in *. rewrite app_nil_r in *.
  assert (Hlp : (length (part_text (partitionInfo info)) < DATA_KEY_MAX_SIZE)%nat)
    by (rewrite !length_app in Hlen; lia).
  destruct Hw as (_ & _ & Hw). destruct (partitionInfo info) as [s|l]; cbn [part_text] in *.
  - res_step. rewrite (cstr_nonul _ Hn). rewrite (proj2 (Nat.ltb_lt _ _) Hlen). done.
  - destruct Hw as (_ & Hc & _).
    destruct (Nat.ltb_spec PARTITION_KEY_MAX_CNT (length l)); [lia|].
    destruct (Nat.ltb_spec PARTITION_KEY_MAX_SIZE (S (length (print_parts l))));
      [unfold PARTITION_KEY_MAX_SIZE, DATA_KEY_MAX_SIZE in *; lia|].
    res_step. rewrite (cstr_nonul _ Hn). rewrite (proj2 (Nat.ltb_lt _ _) Hlen). done.
Qed.

(** A meta key is no longer than a data key of the same partition. *)
Lemma meta_key_shorter table part rg :
  (length (meta_key table part) < length (data_key table part rg))%nat.
Proof.
  unfold meta_key, data_key, key_text. rewrite !length_app.
  cbn [lit length String.list_ascii_of_string RELMODEL_META_PREFIX RELMODEL_DATA_PREFIX]. lia.
Qed.

Lemma d2s_no c z : numeral_byte c = false → c ∉ d2s z.
Proof.
  intros Hc Hin. pose proof (d2s_numeral z) as H. rewrite Forall_forall in H.
  by rewrite (H c Hin) in Hc.
Qed.

Lemma data_key_inj t p g t' p' g' :
  "}"%char ∉ p → "}"%char ∉ p' → data_key t p g = data_key t' p' g' → t = t' ∧ p = p' ∧ g = g'.
Proof.
  intros Hp Hp' E. unfold data_key, key_text in E. apply app_inv_head, app_inv_head in E.
  apply (app_sep_inj ":"%char) in E as [Et E]; [|by apply d2s_no..].
  apply (app_sep_inj "}"%char) in E as [Ep E]; [|done..].
  apply app_inv_head in E. split_and!; [by apply d2s_inj|done|by apply d2s_inj].
Qed.

Lemma data_field_inj r c r' c' : data_field r c = data_field r' c' → r = r' ∧ c = c'.
Proof.
  unfold data_field. intros E. apply (app_sep_inj ":"%char) in E as [Er E]; [|by apply d2s_no..].
  split; by apply d2s_inj.
Qed.

(** The field is what follows the last ["F:"]. *)
Lemma rocks_key_inj k f k' f' :
  "F"%char ∉ f → "F"%char ∉ f' → rocks_key k f = rocks_key k' f' → k = k' ∧ f = f'.
Proof.
  intros Hf Hf' E. unfold rocks_key in E.
  change (lit ":F:") with ([":"%char] ++ "F"%char :: [":"%char]) in E.
  rewrite <- !(app_assoc [":"%char]), !(app_assoc k), !(app_assoc k') in E. cbn [app] in E.
  apply app_sep_inj_r in E as [Ek Ef]; [|set_solver..].
  apply app_inj_tail in Ek as [-> _]. by injection Ef as ->.
Qed.

Lemma data_field_no_F r c : "F"%char ∉ data_field r c.
Proof.
  unfold data_field. rewrite !not_elem_of_app. split_and!; try by apply d2s_no.
  by apply (bool_decide_unpack _).
Qed.

(** * Sizes *)

Lemma d2s_int_length z : INT_MIN ≤ z ≤ INT_MAX → (length (d2s z) ≤ 11)%nat.
Proof.
  intros Hz. unfold INT_MIN, INT_MAX in *.
  rewrite <- sdsll2str_d2s by (unfold LLONG_MIN, LLONG_MAX; lia).
  unfold sdsll2str. rewrite reverse_in_place_rev, length_rev, length_app.
  assert (Hv : 0 ≤ to_unsigned 64 (if z <? 0 then to_signed 64 (- z) else z) ≤ 2147483648).
  { destruct (Z.ltb_spec z 0); unfold to_unsigned, to_signed;
      change (2 ^ 64) with 18446744073709551616; change (2 ^ (64 - 1)) with 9223372036854775808;
      [|rewrite Z.mod_small; lia].
    rewrite (Z.mod_small (- z)) by lia. destruct (Z.ltb_spec (- z) 9223372036854775808); [|lia].
    rewrite Z.mod_small; lia. }
  revert Hv. generalize (to_unsigned 64 (if z <? 0 then to_signed 64 (- z) else z)). intros v Hv.
  assert (H10 : 10 ^ Z.of_nat 10 = 10000000000) by done.
  assert (length (rev_digits 20 v) ≤ 10)%nat by (apply rev_digits_length; lia).
  destruct (z <? 0); cbn [length]; lia.
Qed.

Lemma data_key_length table part rg :
  INT_MIN ≤ table ≤ INT_MAX → INT_MIN ≤ rg ≤ INT_MAX →
  (length (data_key table part rg) ≤ length part + 30)%nat.
Proof.
  intros Ht Hg. pose proof (d2s_int_length table Ht). pose proof (d2s_int_length rg Hg).
  unfold data_key, key_text. rewrite !length_app.
  cbn [lit length String.list_ascii_of_string RELMODEL_DATA_PREFIX]. lia.
Qed.

Lemma data_field_length r c :
  INT_MIN ≤ r ≤ INT_MAX → INT_MIN ≤ c ≤ INT_MAX → (length (data_field r c) ≤ 23)%nat.
Proof.
  intros Hr Hc. pose proof (d2s_int_length r Hr). pose proof (d2s_int_length c Hc).
  unfold data_field. rewrite !length_app. cbn [lit length String.list_ascii_of_string]. lia.
Qed.

Lemma getDataFieldSds_ok r c :
  INT_MIN ≤ r ≤ INT_MAX → INT_MIN ≤ c ≤ INT_MAX → getDataFieldSds r c = Ok (data_field r c).
Proof.
  intros Hr Hc. unfold getDataFieldSds. pose proof (data_field_length r c Hr Hc).
  fold (data_field r c). rewrite sprintf_at_0 by (unfold DATA_KEY_MAX_SIZE; lia). res_step.
  rewrite cstr_app_nul; [done|]. unfold data_field. rewrite !nonul_app.
  split_and!; try apply d2s_nonul. by apply (bool_decide_unpack _).
Qed.

Lemma data_key_nonul t p g : nonul p → nonul (data_key t p g).
Proof.
  intros. apply nonul_lit_key; [by apply (bool_decide_unpack _)|done|].
  apply nonul_app; split; [by apply (bool_decide_unpack _)|apply d2s_nonul].
Qed.

Lemma data_field_nonul r c : nonul (data_field r c).
Proof.
  unfold data_field. rewrite !nonul_app. split_and!; try apply d2s_nonul.
  by apply (bool_decide_unpack _).
Qed.

(** Everything fits when the partition text has at most 126 bytes, as it does
    when it was parsed from a key. *)
Lemma generateDataRocksKeySds_ok info r c :
  wf_info info → (length (part_text (partitionInfo info)) ≤ 126)%nat →
  INT_MIN ≤ r ≤ INT_MAX → INT_MIN ≤ c ≤ INT_MAX →
  generateDataRocksKeySds info r c =
    Ok (rocks_key (data_key (tableId info) (part_text (partitionInfo info)) (rowGroupId info)) (data_field r c)).
Proof.
  intros Hw Hlp Hr Hc. pose proof (wf_part_text _ Hw) as (_ & Hn & _).
  pose proof Hw as (Ht & Hg & _).
  pose proof (data_key_length (tableId info) (part_text (partitionInfo info)) (rowGroupId info) Ht Hg).
  pose proof (data_field_length r c Hr Hc).
  unfold generateDataRocksKeySds. rewrite generateDataKeySds_ok by (done || unfold DATA_KEY_MAX_SIZE; lia).
  res_step. rewrite getDataFieldSds_ok by done. res_step.
  rewrite (cstr_nonul _ (data_key_nonul _ _ _ Hn)), (cstr_nonul _ (data_field_nonul r c)).
  change (lit ":" ++ REL_MODEL_FIELD_PREFIX ++ data_field r c) with (lit ":F:" ++ data_field r c).
  fold (rocks_key (data_key (tableId info) (part_text (partitionInfo info)) (rowGroupId info)) (data_field r c)).
  rewrite sprintf_at_0.
  - res_step. rewrite cstr_app_nul; [done|]. unfold rocks_key. rewrite !nonul_app. split_and!.
    + by apply data_key_nonul.
    + by apply (bool_decide_unpack _).
    + apply data_field_nonul.
  - unfold rocks_key. rewrite !length_app. cbn [lit length String.list_ascii_of_string].
    unfold DATA_KEY_MAX_SIZE. lia.
Qed.

Lemma cstr_full s : length s = length (cstr s) → nonul s.
Proof.
  induction s as [|c s IH]; simpl; intros H; [by apply (bool_decide_unpack _)|].
  case_decide; [done|]. injection H as H. apply nonul_cons. auto.
Qed.

Lemma atoi_range s : INT_MIN ≤ atoi s ≤ INT_MAX.
Proof. unfold atoi. repeat case_match; apply to_int_range. Qed.

Lemma toMetaKey_ok table part rg :
  INT_MIN ≤ table ≤ INT_MAX → INT_MIN ≤ rg ≤ INT_MAX → wf_part part →
  (S (length (data_key table part rg)) < MAX_TMPBUF_SIZE)%nat →
  toMetaKey (data_key table part rg) = Ok (C_OK, Some (meta_key table part, rg)).
Proof.
  intros Ht Hg Hp Hlen. unfold toMetaKey. rewrite parse_data_key by done. res_step.
  cbn [partition_chars partitionInfo]. res_step. cbn [tableId rowGroupId].
  destruct Hp as (_ & Hn & _). rewrite (cstr_nonul _ Hn).
  catfmt.
  rewrite (cstr_nonul _ Hn), sdsll2str_d2s by (unfold INT_MIN, INT_MAX, LLONG_MIN, LLONG_MAX in *; lia).
  res_step. unfold meta_key, key_text. cbn [cstr RELMODEL_META_PREFIX RELMODEL_DELIMITER
    RELMODEL_BRACE_PREFIX RELMODEL_BRACE_SUFFIX lit String.list_ascii_of_string].
  rewrite !decide_False by done. cbn [app]. by rewrite <- !app_assoc.
Qed.

(** What the parser accepts is a well-formed structure with a short partition. *)
Lemma parsing_wf key info :
  parsingDataKeyInfo key = Ok (Some info) →
  wf_info info ∧ row_number info = 0 ∧ (length (part_text (partitionInfo info)) ≤ 126)%nat
  ∧ ∃ p, partitionInfo info = PartitionString p.
Proof.
  unfold parsingDataKeyInfo. intros H. res_inv.
  match goal with H : (_ <? MAX_TMPBUF_SIZE)%nat = true |- _ => apply Nat.ltb_lt in H; rename H into Hsz end.
  match goal with H : (_ =? _)%nat = true |- _ => apply Nat.eqb_eq in H; rename H into Hnul end.
  apply cstr_full in Hnul as Hk. unfold MAX_TMPBUF_SIZE in Hsz.
  destruct (strtok_r key RELMODEL_DELIMITER) as [[tok1|] s1] eqn:E1; [|done].
  set (s2 := if strcasecmp_eq tok1 RELMODEL_INDEX_PREFIX then (strtok_r s1 RELMODEL_DELIMITER).2 else s1) in *.
  destruct (strtok_r s2 RELMODEL_DELIMITER) as [[tok2|] s3] eqn:E2; [|done].
  destruct (strtok_r s3 RELMODEL_BRACE_SUFFIX) as [[tok3|] s4] eqn:E3; [|done]. res_inv.
  apply strtok_r_incl in E1 as (L1 & I1 & _), E2 as (L2 & I2 & _).
  assert (H2 : (length s2 ≤ length s1)%nat ∧ ∀ c, c ∈ s2 → c ∈ s1).
  { subst s2. destruct (strcasecmp_eq _ _); [|done].
    destruct (strtok_r s1 RELMODEL_DELIMITER) as [t r] eqn:E. apply strtok_r_incl in E. tauto. }
  pose proof (strtok_r_incl _ _ _ _ E3) as (_ & _ & I3). apply strtok_r_some in E3 as (Hne & Hd & L3).
  cbn [part_text row_number partitionInfo]. split_and!; [|done|lia|eauto].
  unfold wf_info; cbn [tableId rowGroupId partitionInfo]. split_and!; try apply atoi_range.
  1-2: case_match; [apply atoi_range|unfold INT_MIN, INT_MAX; lia].
  split_and!; [done| |].
  - intros Hin. apply Hk. apply I1, H2, I2. by eapply I3.
  - intros Hin. rewrite Forall_forall in Hd. apply (Hd _ Hin). by apply (bool_decide_unpack _).
Qed.

(** * Properties *)

(** C25: what [generateDataKeySds] prints for a key structure, with its partition
    given as a string or as integers, [parsingDataKeyInfo] reads back: same
    table, same row group, and the partition as text. *)
Theorem data_key_roundtrip info :
  wf_info info →
  (S (length (data_key (tableId info) (part_text (partitionInfo info)) (rowGroupId info))) < MAX_TMPBUF_SIZE)%nat →
  ∃ key, generateDataKeySds info = Ok key ∧
    parsingDataKeyInfo key =
      Ok (Some (mkKeyInfo (tableId info) (rowGroupId info) 0
                  (PartitionString (part_text (partitionInfo info))))).
Proof.
  intros Hw Hlen. pose proof (wf_part_text _ Hw) as Hp. pose proof Hw as (Ht & Hg & _).
  eexists. split.
  - apply generateDataKeySds_ok; [done|]. unfold DATA_KEY_MAX_SIZE, MAX_TMPBUF_SIZE in *. lia.
  - by apply parse_data_key.
Qed.

Lemma data_key_roundtrip_witness :
  ∃ key, generateDataKeySds (mkKeyInfo 100 2 5 (PartitionInt [3; 10000])) = Ok key ∧
    parsingDataKeyInfo key = Ok (Some (mkKeyInfo 100 2 0 (PartitionString (lit "3:10000")))).
Proof.
  apply (data_key_roundtrip (mkKeyInfo 100 2 5 (PartitionInt [3; 10000]))).
  - unfold wf_info, INT_MIN, INT_MAX, ULLONG_MAX, PARTITION_KEY_MAX_CNT. simpl. split_and!; try lia; [done|].
    repeat constructor; lia.
  - vm_compute. lia.
Defined.

(** the three ways of naming the metadata of a row group agree: converting
    its data key with [toMetaKey], printing it with [generateRgIdKeyForRowgroup]
    and with [setMetaKeyForRowgroup] give the same key, which
    [parseMetaKeyInfo] splits into the table and the partition. *)
Theorem meta_key_agree info :
  wf_info info →
  (S (length (data_key (tableId info) (part_text (partitionInfo info)) (rowGroupId info))) < MAX_TMPBUF_SIZE)%nat →
  ∃ key mkey, generateDataKeySds info = Ok key ∧
    toMetaKey key = Ok (C_OK, Some (mkey, rowGroupId info)) ∧
    generateRgIdKeyForRowgroup info = Ok mkey ∧
    (∃ info', setMetaKeyForRowgroup info = Ok (mkey, info') ∧
              partitionInfo info' = PartitionString (part_text (partitionInfo info))) ∧
    parseMetaKeyInfo mkey =
      Ok (Some (mkMetaKeyInfo (tableId info) (PartitionString (part_text (partitionInfo info))))).
Proof.
  intros Hw Hlen. pose proof (wf_part_text _ Hw) as Hp. pose proof Hw as (Ht & Hg & _).
  pose proof (meta_key_shorter (tableId info) (part_text (partitionInfo info)) (rowGroupId info)) as Hsh.
  exists (data_key (tableId info) (part_text (partitionInfo info)) (rowGroupId info)),
    (meta_key (tableId info) (part_text (partitionInfo info))).
  unfold MAX_TMPBUF_SIZE in Hlen. split_and!.
  - apply generateDataKeySds_ok; [done|]. unfold DATA_KEY_MAX_SIZE. lia.
  - by apply toMetaKey_ok.
  - apply generateRgIdKey_ok; [done|]. unfold DATA_KEY_MAX_SIZE. lia.
  - eexists. split; [apply setMetaKey_ok; [done|unfold DATA_KEY_MAX_SIZE; lia]|done].
  - apply parse_meta_key; [done|done|]. unfold MAX_TMPBUF_SIZE. lia.
Qed.

Lemma meta_key_agree_witness :
  let info := mkKeyInfo 100 1 0 (PartitionString (lit "1:2")) in
  ∃ key mkey, generateDataKeySds info = Ok key ∧ toMetaKey key = Ok (C_OK, Some (mkey, 1)) ∧
    generateRgIdKeyForRowgroup info = Ok mkey ∧
    (∃ info', setMetaKeyForRowgroup info = Ok (mkey, info') ∧
              partitionInfo info' = PartitionString (lit "1:2")) ∧
    parseMetaKeyInfo mkey = Ok (Some (mkMetaKeyInfo 100 (PartitionString (lit "1:2")))).
Proof.
  apply (meta_key_agree (mkKeyInfo 100 1 0 (PartitionString (lit "1:2")))).
  - unfold wf_info, INT_MIN, INT_MAX. simpl. split_and!; try lia. by apply (bool_decide_unpack _).
  - vm_compute. lia.
Defined.

(** C21: for every key that the parser accepts, the data key, the meta key and the
    RocksDB key of any row group, row and column are generated inside their
    256-byte buffers, and two RocksDB keys are equal only if table, partition,
    row group, row and column are: no two column vectors share a key. *)
Theorem rocks_keys_fit_and_distinct key info key' info' g r c g' r' c' :
  parsingDataKeyInfo key = Ok (Some info) → parsingDataKeyInfo key' = Ok (Some info') →
  (∀ z, z ∈ [g; r; c; g'; r'; c'] → INT_MIN ≤ z ≤ INT_MAX) →
  ∃ k k', generateDataRocksKeySds (set_rowGroupId info g) r c = Ok k ∧
    generateDataRocksKeySds (set_rowGroupId info' g') r' c' = Ok k' ∧
    (k = k' → tableId info = tableId info' ∧ partitionInfo info = partitionInfo info' ∧
              g = g' ∧ r = r' ∧ c = c').
Proof.
  intros H H' Hz.
  apply parsing_wf in H as (Hw & _ & Hl & p & Ep), H' as (Hw' & _ & Hl' & p' & Ep').
  rewrite Ep, Ep' in *. cbn [part_text] in *.
  assert (Hws : wf_info (set_rowGroupId info g)).
  { destruct Hw as (? & _ & ?). split_and!; [apply H|apply H|apply Hz; set_solver|apply Hz; set_solver|done]. }
  assert (Hws' : wf_info (set_rowGroupId info' g')).
  { destruct Hw' as (? & _ & ?). split_and!; [apply H|apply H|apply Hz; set_solver|apply Hz; set_solver|done]. }
  do 2 eexists. split; [apply generateDataRocksKeySds_ok; [done|by cbn; rewrite Ep|apply Hz; set_solver..]|].
  split; [apply generateDataRocksKeySds_ok; [done|by cbn; rewrite Ep'|apply Hz; set_solver..]|].
  cbn [set_rowGroupId tableId rowGroupId partitionInfo]. rewrite Ep, Ep'. cbn [part_text]. intros E.
  apply rocks_key_inj in E as [Ek Ef]; [|apply data_field_no_F..]. apply data_field_inj in Ef as [-> ->].
  destruct Hw as (_ & _ & Hw), Hw' as (_ & _ & Hw'). rewrite Ep in Hw. rewrite Ep' in Hw'.
  apply data_key_inj in Ek as (-> & -> & ->); [done|apply Hw|apply Hw'].
Qed.

Lemma rocks_keys_fit_and_distinct_witness :
  ∃ k k', generateDataRocksKeySds (mkKeyInfo 100 3 0 (PartitionString (lit "1:2"))) 1 4 = Ok k ∧
    generateDataRocksKeySds (mkKeyInfo 100 3 0 (PartitionString (lit "1:2"))) 1 5 = Ok k' ∧
    (k = k' → 100 = 100 ∧ PartitionString (lit "1:2") = PartitionString (lit "1:2") ∧
              3 = 3 ∧ 1 = 1 ∧ 4 = 5).
Proof.
  apply (rocks_keys_fit_and_distinct (lit "D:{100:1:2}:G:1") (mkKeyInfo 100 1 0 (PartitionString (lit "1:2")))
    (lit "D:{100:1:2}") (mkKeyInfo 100 0 0 (PartitionString (lit "1:2"))) 3 1 4 3 1 5).
  - vm_compute. reflexivity.
  - vm_compute. reflexivity.
  - apply (proj1 (Forall_forall _ _)). unfold INT_MIN, INT_MAX. repeat constructor; lia.
Defined.

(** With integer partitions a negative table id misplaces the rest of the key:
    the text ends after the table id. *)
Example negative_table_cut :
  generateRgIdKeyForRowgroup (mkKeyInfo (-5) 1 0 (PartitionInt [3])) = Ok (lit "M:{-5").
Proof. vm_compute. reflexivity. Qed.
