(* ===== verification/Cluster.v ===== *)
(** src/src/crc16.c and [keyHashSlot] of src/src/cluster.c: the hash slot of a key.  The
    theorems show that the table driven checksum is the bit by bit one, and that the braces
    in the keys of the relational layer keep a partition in one slot. *)
From S2P Require Import Prelude CString Util Keys.
Local Open Scope Z_scope.

(** * crc16.c *)

Definition crc16tab : list Z :=
  [0; 4129; 8258; 12387; 16516; 20645; 24774; 28903; 33032; 37161; 41290; 45419; 49548; 53677; 57806; 61935;
   4657; 528; 12915; 8786; 21173; 17044; 29431; 25302; 37689; 33560; 45947; 41818; 54205; 50076; 62463; 58334;
   9314; 13379; 1056; 5121; 25830; 29895; 17572; 21637; 42346; 46411; 34088; 38153; 58862; 62927; 50604; 54669;
   13907; 9842; 5649; 1584; 30423; 26358; 22165; 18100; 46939; 42874; 38681; 34616; 63455; 59390; 55197; 51132;
   18628; 22757; 26758; 30887; 2112; 6241; 10242; 14371; 51660; 55789; 59790; 63919; 35144; 39273; 43274; 47403;
   23285; 19156; 31415; 27286; 6769; 2640; 14899; 10770; 56317; 52188; 64447; 60318; 39801; 35672; 47931; 43802;
   27814; 31879; 19684; 23749; 11298; 15363; 3168; 7233; 60846; 64911; 52716; 56781; 44330; 48395; 36200; 40265;
   32407; 28342; 24277; 20212; 15891; 11826; 7761; 3696; 65439; 61374; 57309; 53244; 48923; 44858; 40793; 36728;
   37256; 33193; 45514; 41451; 53516; 49453; 61774; 57711; 4224; 161; 12482; 8419; 20484; 16421; 28742; 24679;
   33721; 37784; 41979; 46042; 49981; 54044; 58239; 62302; 689; 4752; 8947; 13010; 16949; 21012; 25207; 29270;
   46570; 42443; 38312; 34185; 62830; 58703; 54572; 50445; 13538; 9411; 5280; 1153; 29798; 25671; 21540; 17413;
   42971; 47098; 34713; 38840; 59231; 63358; 50973; 55100; 9939; 14066; 1681; 5808; 26199; 30326; 17941; 22068;
   55628; 51565; 63758; 59695; 39368; 35305; 47498; 43435; 22596; 18533; 30726; 26663; 6336; 2273; 14466; 10403;
   52093; 56156; 60223; 64286; 35833; 39896; 43963; 48026; 19061; 23124; 27191; 31254; 2801; 6864; 10931; 14994;
   64814; 60687; 56684; 52557; 48554; 44427; 40424; 36297; 31782; 27655; 23652; 19525; 15522; 11395; 7392; 3265;
   61215; 65342; 53085; 57212; 44955; 49082; 36825; 40952; 28183; 32310; 20053; 24180; 11923; 16050; 3793; 7920].

(** One round; [crc] is a [uint16_t], and only the low byte of [*buf] counts. *)
Definition crc16_round (crc : Z) (c : ascii) : Z :=
  to_unsigned 16 (Z.lxor (Z.shiftl crc 8) (nth (Z.to_nat (Z.land (Z.lxor (Z.shiftr crc 8) (code c)) 255)) crc16tab 0)).
Definition crc16 (buf : bytes) : Z := foldl crc16_round 0 buf.

(** * keyHashSlot *)

(** The first index from [i] on that holds [c], or the length. *)
Fixpoint index_from (c : ascii) (key : bytes) : nat :=
  match key with
  | [] => 0%nat
  | x :: key => if bool_decide (x = c) then 0%nat else S (index_from c key)
  end.

Definition keyHashSlot (key : bytes) : Z :=
  let keylen := length key in
  let s := index_from "{"%char key in
  if (s =? keylen)%nat then Z.land (crc16 key) 16383
  else
    let e := (S s + index_from "}"%char (drop (S s) key))%nat in
    if (e =? keylen)%nat || (e =? S s)%nat then Z.land (crc16 key) 16383
    else Z.land (crc16 (take (e - s - 1) (drop (S s) key))) 16383.

(** * The checksum bit by bit *)

(** One bit of the division by x^16 + x^12 + x^5 + 1. *)
Definition crc_bit (r : Z) : Z := Z.lxor (to_unsigned 16 (Z.shiftl r 1)) (if Z.testbit r 15 then 4129 else 0).
Definition crc_byte (r : Z) (c : ascii) : Z := Nat.iter 8 crc_bit (Z.lxor r (Z.shiftl (code c) 8)).
Definition crc_reference (buf : bytes) : Z := foldl crc_byte 0 buf.

Lemma crc_bit_xor a b : crc_bit (Z.lxor a b) = Z.lxor (crc_bit a) (crc_bit b).
Proof.
  unfold crc_bit, to_unsigned. rewrite Z.shiftl_lxor, <- !Z.land_ones by lia.
  assert (E : Z.land (Z.lxor (Z.shiftl a 1) (Z.shiftl b 1)) (Z.ones 16) = Z.lxor (Z.land (Z.shiftl a 1) (Z.ones 16)) (Z.land (Z.shiftl b 1) (Z.ones 16))).
  { apply Z.bits_inj'. intros n _. rewrite Z.land_spec, !Z.lxor_spec, !Z.land_spec. by destruct (Z.testbit (Z.shiftl a 1) n), (Z.testbit (Z.shiftl b 1) n), (Z.testbit (Z.ones 16) n). }
  rewrite E, Z.lxor_spec. set (x := Z.land _ _). set (y := Z.land _ _).
  destruct (Z.testbit a 15), (Z.testbit b 15); cbn [xorb]; apply Z.bits_inj'; intros n _; rewrite !Z.lxor_spec, ?Z.bits_0;
    destruct (Z.testbit x n), (Z.testbit y n), (Z.testbit 4129 n); done.
Qed.

Lemma crc_bits_xor n a b : Nat.iter n crc_bit (Z.lxor a b) = Z.lxor (Nat.iter n crc_bit a) (Nat.iter n crc_bit b).
Proof. induction n as [|n IH]; [done|]. rewrite !Nat.iter_succ. by rewrite IH, crc_bit_xor. Qed.

Lemma byte_cases (P : Z → Prop) : Forall P (seqZ 0 256) → ∀ z, 0 ≤ z < 256 → P z.
Proof. intros HP z Hz. eapply Forall_forall; [done|]. apply elem_of_seqZ. lia. Qed.

(** Eight bits of the high byte come from the table, the low byte moves up. *)
Lemma crc_high h : 0 ≤ h < 256 → Nat.iter 8 crc_bit (Z.shiftl h 8) = nth (Z.to_nat h) crc16tab 0 ∧ 0 ≤ nth (Z.to_nat h) crc16tab 0 < 65536.
Proof. revert h. apply byte_cases. apply (bool_decide_unpack _). vm_compute. exact I. Qed.
Lemma crc_low l : 0 ≤ l < 256 → Nat.iter 8 crc_bit l = Z.shiftl l 8.
Proof. revert l. apply byte_cases. apply (bool_decide_unpack _). vm_compute. exact I. Qed.

Lemma to_unsigned_lxor a b : to_unsigned 16 (Z.lxor a b) = Z.lxor (to_unsigned 16 a) (to_unsigned 16 b).
Proof.
  unfold to_unsigned. rewrite <- !Z.land_ones by lia. apply Z.bits_inj'. intros n _.
  rewrite Z.land_spec, !Z.lxor_spec, !Z.land_spec. by destruct (Z.testbit a n), (Z.testbit b n), (Z.testbit (Z.ones 16) n).
Qed.

Lemma u16_small z : 0 ≤ z < 65536 → to_unsigned 16 z = z.
Proof. intros. by apply Z.mod_small. Qed.

Lemma split_bytes r : 0 ≤ r < 65536 → r = Z.lxor (Z.shiftl (Z.shiftr r 8) 8) (Z.land r 255) ∧ 0 ≤ Z.shiftr r 8 < 256 ∧ 0 ≤ Z.land r 255 < 256.
Proof.
  intros Hr. change 255 with (Z.ones 8). split_and!.
  - apply Z.bits_inj'. intros n Hn. rewrite Z.lxor_spec, Z.land_spec. destruct (Z.lt_ge_cases n 8).
    + rewrite Z.shiftl_spec_low, Z.ones_spec_low by lia. by rewrite andb_true_r, xorb_false_l.
    + rewrite Z.shiftl_spec, Z.shiftr_spec, Z.ones_spec_high by lia. rewrite andb_false_r, xorb_false_r. f_equal. lia.
  - apply Z.shiftr_nonneg. lia.
  - rewrite Z.shiftr_div_pow2 by lia. apply Z.div_lt_upper_bound; lia.
  - apply Z.land_nonneg. lia.
  - rewrite Z.land_ones by lia. by apply Z.mod_pos_bound.
Qed.

Lemma lxor_byte a b : 0 ≤ a < 256 → 0 ≤ b < 256 → 0 ≤ Z.lxor a b < 256.
Proof.
  intros Ha Hb. assert (E : Z.lxor a b = Z.land (Z.lxor a b) (Z.ones 8)).
  { apply Z.bits_inj'. intros n Hn. rewrite Z.land_spec. destruct (Z.lt_ge_cases n 8); [by rewrite Z.ones_spec_low, andb_true_r by lia|].
    rewrite Z.lxor_spec. rewrite <- (Z.mod_small a (2 ^ 8)), <- (Z.mod_small b (2 ^ 8)) by lia. by rewrite !Z.mod_pow2_bits_high by lia. }
  rewrite E, Z.land_ones by lia. by apply Z.mod_pos_bound.
Qed.

Lemma crc16_round_byte r c : 0 ≤ r < 65536 → crc16_round r c = crc_byte r c ∧ 0 ≤ crc16_round r c < 65536.
Proof.
  intros Hr. destruct (split_bytes r Hr) as (Er & Hh & Hl). pose proof (code_range c) as Hc.
  pose proof (lxor_byte _ _ Hh Hc) as Hx. destruct (crc_high _ Hx) as [Et Htab]. split.
  - unfold crc16_round, crc_byte. change 255 with (Z.ones 8) in *. rewrite (Z.land_ones (Z.lxor _ _)), Z.mod_small by lia.
    rewrite to_unsigned_lxor, (u16_small (nth _ _ _)), <- Et by done.
    assert (Hlow : to_unsigned 16 (Z.shiftl r 8) = Z.shiftl (Z.land r (Z.ones 8)) 8).
    { rewrite Er at 1. rewrite Z.shiftl_lxor, to_unsigned_lxor, Z.shiftl_shiftl by lia.
      rewrite (u16_small (Z.shiftl (Z.land _ _) 8)) by (rewrite Z.shiftl_mul_pow2 by lia; lia).
      unfold to_unsigned. rewrite (Z.shiftl_mul_pow2 (Z.shiftr r 8)) by lia. change (8 + 8) with 16. by rewrite Z.mod_mul, Z.lxor_0_l by lia. }
    rewrite Hlow, <- crc_low by done. rewrite <- crc_bits_xor. f_equal. rewrite Z.shiftl_lxor. rewrite Er at 3.
    rewrite <- Z.lxor_assoc. by rewrite (Z.lxor_comm (Z.land _ _)).
  - unfold crc16_round. by apply Z.mod_pos_bound.
Qed.

(** C24: The checksum computed from the table is the remainder computed bit by bit, with the
    polynomial x^16 + x^12 + x^5 + 1 and a register that starts at 0. *)
Theorem crc16_bit_by_bit buf : crc16 buf = crc_reference buf ∧ 0 ≤ crc16 buf < 65536.
Proof.
  unfold crc16, crc_reference. assert (Hg : ∀ r, 0 ≤ r < 65536 → foldl crc16_round r buf = foldl crc_byte r buf ∧ 0 ≤ foldl crc16_round r buf < 65536); [|by apply Hg].
  induction buf as [|c buf IH]; intros r Hr; [done|]. cbn [foldl]. destruct (crc16_round_byte r c Hr) as [<- Hr']. by apply IH.
Qed.

Example crc16_check : crc16 (lit "123456789") = 12739.
Proof. vm_compute. reflexivity. Qed.

(** * The keys of a partition *)

Lemma index_from_app c a b : c ∉ a → index_from c (a ++ c :: b) = length a.
Proof.
  intros Ha. induction a as [|x a IH]; cbn; [by rewrite bool_decide_true|]. apply not_elem_of_cons in Ha as [Hx Ha].
  rewrite bool_decide_false by done. by rewrite IH.
Qed.

(** The slot of a key with a first [{] and a [}] somewhere behind it does not depend on what
    surrounds the braces. *)
Lemma slot_of_braces pre tag post pre' post' : "{"%char ∉ pre → "{"%char ∉ pre' → tag ≠ [] → (∀ t, tag ≠ "}"%char :: t) →
  keyHashSlot (pre ++ "{"%char :: tag ++ "}"%char :: post) = keyHashSlot (pre' ++ "{"%char :: tag ++ "}"%char :: post').
Proof.
  assert (Htag : ∃ k, ∀ pre post, "{"%char ∉ pre → tag ≠ [] → (∀ t, tag ≠ "}"%char :: t) →
    keyHashSlot (pre ++ "{"%char :: tag ++ "}"%char :: post) = Z.land (crc16 (take k tag)) 16383).
  { exists (index_from "}"%char (tag ++ ["}"%char])). intros p q Hp Hne Hfirst. unfold keyHashSlot. rewrite index_from_app by done.
    rewrite !length_app. cbn [length]. rewrite length_app. cbn [length].
    destruct (Nat.eqb_spec (length p) (length p + S (length tag + S (length q)))); [lia|].
    replace (drop (S (length p)) (p ++ "{"%char :: tag ++ "}"%char :: q)) with (tag ++ "}"%char :: q).
    2: { rewrite drop_app_ge by lia. by replace (S (length p) - length p)%nat with 1%nat by lia. }
    assert (Hi : ∀ q, index_from "}"%char (tag ++ "}"%char :: q) = index_from "}"%char (tag ++ ["}"%char]) ∧ (index_from "}"%char (tag ++ ["}"%char]) ≤ length tag)%nat).
    { clear. intros q. induction tag as [|x t [IH1 IH2]]; cbn; [done|]. destruct (bool_decide _); [cbn; lia|]. rewrite IH1. cbn. lia. }
    destruct (Hi q) as [-> Hle]. set (k := index_from "}"%char (tag ++ ["}"%char])) in *.
    assert (Hk : k ≠ 0%nat). { subst k. destruct tag as [|x t]; [done|]. cbn. rewrite bool_decide_false; [done|]. intros ->. by eapply Hfirst. }
    destruct (Nat.eqb_spec (S (length p) + k) (length p + S (length tag + S (length q)))); [lia|].
    destruct (Nat.eqb_spec (S (length p) + k) (S (length p))); [lia|]. cbn [orb].
    replace (S (length p) + k - length p - 1)%nat with k by lia. by rewrite take_app_le by lia. }
  intros Hp Hp' Hne Hf. destruct Htag as [k Hk]. by rewrite !Hk.
Qed.

(** C23: In a cluster the row groups of a partition and its counters are in one slot: the keys
    that the layer prints for a table and a partition have the same hash slot, whatever the
    row group. *)
Theorem partition_in_one_slot info g :
  wf_info info → INT_MIN ≤ g ≤ INT_MAX →
  (length (data_key (tableId info) (part_text (partitionInfo info)) INT_MIN) < DATA_KEY_MAX_SIZE)%nat →
  ∃ slot key key' mkey, 0 ≤ slot < 16384 ∧
    generateDataKeySds info = Ok key ∧ keyHashSlot key = slot ∧
    generateDataKeySds (set_rowGroupId info g) = Ok key' ∧ keyHashSlot key' = slot ∧
    generateRgIdKeyForRowgroup info = Ok mkey ∧ keyHashSlot mkey = slot.
Proof.
  intros Hw Hg Hlen. assert (Hw' : wf_info (set_rowGroupId info g)) by (destruct Hw as (? & _ & ?); done). pose proof Hw as (_ & Hrg & _).
  set (t := tableId info) in *. set (p := part_text (partitionInfo info)) in *.
  assert (Hmin : length (d2s INT_MIN) = 11%nat) by (vm_compute; reflexivity).
  assert (Hl : ∀ z, INT_MIN ≤ z ≤ INT_MAX → (length (data_key t p z) < DATA_KEY_MAX_SIZE)%nat).
  { intros z Hz. pose proof (d2s_int_length z Hz). unfold data_key, key_text in *. rewrite !length_app in *. lia. }
  assert (Hm : (length (meta_key t p) < DATA_KEY_MAX_SIZE)%nat).
  { unfold meta_key, data_key, key_text in *. rewrite !length_app in *. cbn [length] in *. change (length RELMODEL_META_PREFIX) with (length RELMODEL_DATA_PREFIX). lia. }
  exists (keyHashSlot (meta_key t p)), (data_key t p (rowGroupId info)), (data_key t p g), (meta_key t p).
  assert (Hslot : ∀ z, keyHashSlot (data_key t p z) = keyHashSlot (meta_key t p)).
  { intros z. unfold data_key, meta_key, key_text.
    replace (RELMODEL_DATA_PREFIX ++ lit ":{" ++ d2s t ++ lit ":" ++ p ++ lit "}" ++ lit ":G:" ++ d2s z) with
      (lit "D:" ++ "{"%char :: (d2s t ++ lit ":" ++ p) ++ "}"%char :: (lit ":G:" ++ d2s z)) by (by rewrite <- !app_assoc).
    replace (RELMODEL_META_PREFIX ++ lit ":{" ++ d2s t ++ lit ":" ++ p ++ lit "}" ++ []) with
      (lit "M:" ++ "{"%char :: (d2s t ++ lit ":" ++ p) ++ "}"%char :: []) by (by rewrite <- !app_assoc).
    apply slot_of_braces; [by apply (bool_decide_unpack _)|by apply (bool_decide_unpack _)| |].
    - pose proof (d2s_nonempty t). by destruct (d2s t).
    - intros l E. pose proof (d2s_nonempty t) as Hn. pose proof (d2s_avoid t ["}"%char] eq_refl) as Hf.
      destruct (d2s t) as [|c d]; [done|]. cbn in E. injection E as -> _. apply Forall_cons in Hf as [Hf _]. apply Hf. by left. }
  split_and!; [|..|by rewrite (generateDataKeySds_ok info Hw (Hl _ Hrg))|done|by rewrite (generateDataKeySds_ok _ Hw' (Hl g Hg))|done|by rewrite (generateRgIdKey_ok info Hw Hm)|done].
  - unfold keyHashSlot. repeat case_match; apply Z.land_nonneg; lia.
  - assert (Hb : ∀ z, Z.land z 16383 < 16384) by (intros z; change 16383 with (Z.ones 14); rewrite Z.land_ones by lia; by apply Z.mod_pos_bound).
    unfold keyHashSlot. repeat case_match; apply Hb.
Qed.

Lemma partition_in_one_slot_witness :
  ∃ slot key key' mkey, 0 ≤ slot < 16384 ∧
    generateDataKeySds (mkKeyInfo 100 2 5 (PartitionInt [3; 10000])) = Ok key ∧ keyHashSlot key = slot ∧
    generateDataKeySds (mkKeyInfo 100 17 5 (PartitionInt [3; 10000])) = Ok key' ∧ keyHashSlot key' = slot ∧
    generateRgIdKeyForRowgroup (mkKeyInfo 100 2 5 (PartitionInt [3; 10000])) = Ok mkey ∧ keyHashSlot mkey = slot.
Proof.
  apply (partition_in_one_slot (mkKeyInfo 100 2 5 (PartitionInt [3; 10000])) 17).
  - unfold wf_info, INT_MIN, INT_MAX, ULLONG_MAX, PARTITION_KEY_MAX_CNT. simpl. split_and!; try lia; [done|]. repeat constructor; lia.
  - unfold INT_MIN, INT_MAX. lia.
  - vm_compute. lia.
Defined.
