(* ===== verification/Serialize.v ===== *)
(** src/src/stl.c (serialization): the text form of a column vector that is
    stored in RocksDB, [V:{T:type:N:count}:D:[v1:v2:...]], its writer
    [vectorSerialize], the in-place iterator that scans use to read it back
    without building a vector, and the two [strtok_r]-based readers. *)

From S2P Require Import Prelude CString Sds Keys Vector.

Definition RELMODEL_VECTOR_PREFIX : bytes := lit "V:".
Definition RELMODEL_VECTOR_COUNT_PREFIX : bytes := lit "N:".
Definition RELMODEL_VECTOR_TYPE_PREFIX : bytes := lit "T:".
Definition RELMODEL_VECTOR_DATA_PREFIX : bytes := lit "D:[".
Definition VECTOR_DATA_PREFIX : bytes := lit "[".
Definition VECTOR_DATA_SUFFIX : bytes := lit "]".

(** * vectorToSds, vectorSerialize *)

(** The element loops: [n] rounds from index [i]; the separator follows every
    element but the last one of [count]. *)
Fixpoint cat_elements (n : nat) (v : Vector bytes) (i : Z) (last : Z) (sep acc : bytes) : res bytes :=
  match n with
  | O => Ok acc
  | S n' =>
      p ← vectorGet v i;
      element ← deref p;
      let acc := acc ++ element in
      cat_elements n' v (i + 1) last sep (if i <? last then acc ++ sep else acc)
  end.

Definition vectorToSds (v : Vector bytes) : res bytes :=
  cat_elements (Z.to_nat (vectorCount v)) v 0 (vectorCount v - 1) (lit " ") [].

Definition vectorSerialize (v : Vector bytes) : res bytes :=
  let v_type := v_type v in
  let v_count := to_int (v_count v) in
  serial_buf ← sdscatfmt [] (lit "%s{%s%i:%s%i}:%s:%s")
    [FStr RELMODEL_VECTOR_PREFIX; FStr RELMODEL_VECTOR_TYPE_PREFIX; FInt v_type;
     FStr RELMODEL_VECTOR_COUNT_PREFIX; FInt v_count; FStr RELMODEL_DATA_PREFIX;
     FStr VECTOR_DATA_PREFIX];
  serial_buf ← cat_elements (Z.to_nat v_count) v 0 (v_count - 1) RELMODEL_DELIMITER serial_buf;
  Ok (serial_buf ++ VECTOR_DATA_SUFFIX).

(** * The token scanner *)

Inductive token_mode := INCLUDE_END_POINT | EXCLUDE_END_POINT_ALL | EXCLUDE_END_POINT_ON_TOKEN.
#[export] Instance token_mode_eq_dec : EqDecision token_mode.
Proof. solve_decision. Defined.

(** The scanning loop from [*i]: [None] if it runs to the end of [col_v], else
    the position and size at the end point and whether it overflowed. *)
Fixpoint token_loop (fuel : nat) (col_v : bytes) (i : nat) (end_point : ascii)
    (mode : token_mode) (reverse : bool) (token_size : nat) : option (nat * nat * bool) * nat :=
  match fuel with
  | O => (None, i)
  | S f =>
      if (length col_v <=? i)%nat then (None, i)
      else
        match col_v !! (if reverse then length col_v - 1 - i else i)%nat with
        | None => (None, i)
        | Some ch =>
            if decide (ch = end_point) then
              match reverse, mode with
              | false, INCLUDE_END_POINT => (Some (S i, S token_size, false), S i)
              | false, EXCLUDE_END_POINT_ON_TOKEN => (Some (S i, token_size, false), S i)
              | false, EXCLUDE_END_POINT_ALL => (Some (i, token_size, false), i)
              | true, INCLUDE_END_POINT => (Some (i, S token_size, false), i)
              | true, _ => match i with
                           | O => (Some (i, token_size, true), i)
                           | S i' => (Some (i', token_size, false), i')
                           end
              end
            else token_loop f col_v (S i) end_point mode reverse (S token_size)
        end
  end.

(** [_getTargetToken(col_v, &i, end_point, mode, reverse)]: the token or NULL, and
    the new value of [*i]. *)
Definition _getTargetToken (col_v : bytes) (i : nat) (end_point : ascii)
    (mode : token_mode) (reverse : bool) : option bytes * nat :=
  match token_loop (S (length col_v)) col_v i end_point mode reverse 0 with
  | (None, i') => (None, i')
  | (Some (i', token_size, overflowed), _) =>
      if overflowed : bool then (None, i')
      else if reverse then
        let token := slice col_v (length col_v - 1 - i') token_size in
        (Some token, match mode with
                     | INCLUDE_END_POINT => i' + 1
                     | EXCLUDE_END_POINT_ON_TOKEN => i' + 2
                     | EXCLUDE_END_POINT_ALL => i'
                     end)%nat
      else (Some (slice col_v i token_size), i')
  end.

(** A token that the caller passes to [sdslen] (in the log call) and [strcmp]. *)
Definition used_token (r : option bytes * nat) : res (bytes * nat) :=
  t ← deref r.1; Ok (t, r.2).

(** Returns the status, the position, the type and the count. *)
Definition _preprocessMakeColumnVectorIter (col_v : bytes) (i : nat)
    : res (rc * (nat * Z * Z)) :=
  t ← used_token (_getTargetToken col_v i "{" INCLUDE_END_POINT false);
  if negb (strcmp_eq t.1 (lit "V:{")) then Ok (C_ERR, (t.2, -1, -1))
  else
  t ← used_token (_getTargetToken col_v t.2 ":" INCLUDE_END_POINT false);
  if negb (strcmp_eq t.1 (lit "T:")) then Ok (C_ERR, (t.2, -1, -1))
  else
  t ← used_token (_getTargetToken col_v t.2 ":" EXCLUDE_END_POINT_ON_TOKEN false);
  let v_type := atoi t.1 in
  t ← used_token (_getTargetToken col_v t.2 ":" INCLUDE_END_POINT false);
  if negb (strcmp_eq t.1 (lit "N:")) then Ok (C_ERR, (t.2, v_type, -1))
  else
  t ← used_token (_getTargetToken col_v t.2 "}" EXCLUDE_END_POINT_ON_TOKEN false);
  let v_count := atoi t.1 in
  let t := _getTargetToken col_v t.2 "D" EXCLUDE_END_POINT_ALL false in
  Ok (C_OK, (t.2, v_type, v_count)).

Record ColumnVectorIter := mkIter {
  it_col_v : bytes;
  it_type : Z;
  it_count : Z;
  it_i : Z;
  it_pos : nat;
}.

(** [makeColumnVectorIter(col_v, &begin, &end)] with non-NULL [begin] and [end];
    on [C_ERR] the iterators are not (completely) written. *)
Definition makeColumnVectorIter (col_v : option bytes)
    : res (option (ColumnVectorIter * ColumnVectorIter)) :=
  match col_v with
  | None => Ok None
  | Some col_v =>
      if (length col_v =? 0)%nat then Ok None
      else
        r ← _preprocessMakeColumnVectorIter col_v 0;
        match r with
        | (C_ERR, _) => Ok None
        | (C_OK, (i, v_type, v_count)) =>
            t ← used_token (_getTargetToken col_v i "[" INCLUDE_END_POINT false);
            if negb (strcmp_eq t.1 (lit "D:[")) then Ok None
            else
              let begin_pos := t.2 in
              t ← used_token (_getTargetToken col_v 0 "]" INCLUDE_END_POINT true);
              if negb (strcmp_eq t.1 (lit "]")) then Ok None
              else
                let delimiter := if v_count <=? 1 then "["%char else ":"%char in
                t ← used_token (_getTargetToken col_v t.2 delimiter EXCLUDE_END_POINT_ALL true);
                let type := v_type mod 4 in
                let count := to_size_t v_count in
                Ok (Some (mkIter col_v type count 0 begin_pos,
                          mkIter col_v type count (to_size_t (v_count - 1)) (length col_v - 1 - t.2)))
        end
  end.

(** Both iterators come from the same [col_v], compared as a pointer. *)
Definition columnVectorIterIsEqual (first second : ColumnVectorIter) : bool :=
  bool_decide (it_col_v first = it_col_v second) && (it_count first =? it_count second)
  && (it_type first =? it_type second)
  && (it_i first =? it_i second) && (it_pos first =? it_pos second)%nat.

(** Returns the iterator and whether the end was reached ([*eoi]). *)
Definition columnVectorIterNext (it : ColumnVectorIter) : ColumnVectorIter * bool :=
  if it_i it =? to_size_t (it_count it - 1) then (it, true)
  else
    let '(_, i) := _getTargetToken (it_col_v it) (it_pos it) ":" INCLUDE_END_POINT false in
    (mkIter (it_col_v it) (it_type it) (it_count it) (to_size_t (it_i it + 1)) i, false).

Definition columnVectorIterGet (it : ColumnVectorIter) : option bytes :=
  if it_i it =? to_size_t (it_count it - 1)
  then (_getTargetToken (it_col_v it) (it_pos it) "]" EXCLUDE_END_POINT_ON_TOKEN false).1
  else (_getTargetToken (it_col_v it) (it_pos it) ":" EXCLUDE_END_POINT_ON_TOKEN false).1.

(** The [while] loop looks at bytes up to and including the terminating NUL. *)
Fixpoint nocopy_loop (rest : bytes) (delimiter : ascii) (len : nat) : res nat :=
  match rest with
  | [] => Fault OutOfBounds
  | c :: rest' => if decide (c = delimiter) then Ok len else nocopy_loop rest' delimiter (S len)
  end.

(** The bytes [*start .. *start + *size). *)
Definition columnVectorIterGetNoCopy (it : ColumnVectorIter) : res bytes :=
  let delimiter := if it_i it =? to_size_t (it_count it - 1) then "]"%char else ":"%char in
  len ← nocopy_loop (drop (it_pos it) (it_col_v it ++ [NUL])) delimiter 0;
  Ok (slice (it_col_v it) (it_pos it) len).

(** * The strtok_r readers *)

(** The element loop of [vectorDeserialize] from index [i] to [vector_count - 1]:
    the first element ends at a byte of ["D:["], the last one at ["]"], the others
    at [":"]. *)
Fixpoint deserialize_loop (n : nat) (i last_index : Z) (saveptr : bytes) (v : Vector bytes)
    : res (rc * Vector bytes) :=
  match n with
  | O => Ok (C_OK, v)
  | S n' =>
      let delim := if i =? 0 then RELMODEL_VECTOR_DATA_PREFIX
                   else if i =? last_index then VECTOR_DATA_SUFFIX else RELMODEL_DELIMITER in
      match strtok_r saveptr delim with
      | (None, _) => Ok (C_ERR, v)
      | (Some token, saveptr) =>
          r ← vectorAdd v (Some (cstr token));
          deserialize_loop n' (i + 1) last_index saveptr r.2
      end
  end.

(** [vectorDeserialize(rawRocksDBVector, &result)]: the status and the vector, if
    one was created.  For one element the second [strtok_r] is given [saveptr]
    where it expects [&saveptr]: it stores an 8-byte pointer at the position
    [saveptr] points to, inside the string being parsed. *)
Definition vectorDeserialize (raw : option bytes) : res (rc * option (Vector bytes)) :=
  match raw with
  | None => Ok (C_ERR, None)
  | Some raw =>
      match strtok_r (cstr raw) RELMODEL_VECTOR_PREFIX with
      | (None, _) => Ok (C_ERR, None)
      | (Some token, saveptr) =>
          let saveptr := if strcmp_eq token RELMODEL_VECTOR_PREFIX
                         then (strtok_r saveptr RELMODEL_BRACE_PREFIX).2 else saveptr in
          match strtok_r saveptr RELMODEL_VECTOR_TYPE_PREFIX with
          | (None, _) => Ok (C_ERR, None)
          | (Some token, saveptr) =>
              let vector_type := atoi token in
              match strtok_r saveptr RELMODEL_VECTOR_COUNT_PREFIX with
              | (None, _) => Ok (C_ERR, None)
              | (Some token, saveptr) =>
                  let vector_count := atoi token in
                  v ← vectorTypeInitWithSize vector_type (to_size_t vector_count);
                  if vector_count =? 1 then
                    match strtok_r saveptr RELMODEL_VECTOR_DATA_PREFIX with
                    | (None, _) => Ok (C_ERR, Some v)
                    | (Some token, saveptr) =>
                        if (length saveptr + (length raw - length (cstr raw)) + 1 <? 8)%nat
                        then Fault OutOfBounds
                        else
                          match strtok_r token VECTOR_DATA_SUFFIX with
                          | (None, _) => Ok (C_ERR, Some v)
                          | (Some token, _) =>
                              r ← vectorAdd v (Some (cstr token)); Ok (C_OK, Some r.2)
                          end
                    end
                  else
                    r ← deserialize_loop (Z.to_nat vector_count) 0 (vector_count - 1) saveptr v;
                    Ok (r.1, Some r.2)
              end
          end
      end
  end.

(** [VectordeSerialize(VectorString)], the older reader, works on a copy in
    [char str_buf[1024]] and asserts instead of returning [C_ERR].  The pointer
    that the second [strtok_r] stores through [saveptr] falls into that buffer. *)
Definition VectordeSerialize (VectorString : bytes) : res (Vector bytes) :=
  let str := cstr VectorString in
  if (1024 <? S (length str))%nat then Fault OutOfBounds
  else
    match strtok_r str RELMODEL_VECTOR_PREFIX with
    | (None, _) => Fault AssertFail
    | (Some token, saveptr) =>
        let saveptr := if strcasecmp_eq token RELMODEL_VECTOR_PREFIX
                       then (strtok_r saveptr RELMODEL_BRACE_PREFIX).2 else saveptr in
        match strtok_r saveptr RELMODEL_VECTOR_TYPE_PREFIX with
        | (None, _) => Fault AssertFail
        | (Some token, saveptr) =>
            let vector_type := atoi token in
            match strtok_r saveptr RELMODEL_VECTOR_COUNT_PREFIX with
            | (None, _) => Fault AssertFail
            | (Some token, saveptr) =>
                let vector_count := atoi token in
                v ← vectorTypeInitWithSize vector_type (to_size_t vector_count);
                _ ← assert (v_size v =? to_size_t vector_count);
                _ ← assert (v_count v =? 0);
                if vector_count =? 1 then
                  match strtok_r saveptr RELMODEL_VECTOR_DATA_PREFIX with
                  | (None, _) => Fault AssertFail
                  | (Some token, saveptr) =>
                      if (1024 <? length str - length saveptr + 8)%nat then Fault OutOfBounds
                      else
                        match strtok_r token VECTOR_DATA_SUFFIX with
                        | (None, _) => Fault AssertFail
                        | (Some token, _) => r ← vectorAdd v (Some (cstr token)); Ok r.2
                        end
                  end
                else
                  r ← deserialize_loop (Z.to_nat vector_count) 0 (vector_count - 1) saveptr v;
                  match r.1 with C_OK => Ok r.2 | C_ERR => Fault AssertFail end
            end
        end
    end.

(** * Facts about the scanner *)

(** The text of a column vector. *)
Definition head_text (type : Z) (n : nat) : bytes :=
  lit "V:{T:" ++ d2s type ++ lit ":N:" ++ d2s (Z.of_nat n) ++ lit "}:D:[".
Definition serial_text (type : Z) (xs : list bytes) : bytes :=
  head_text type (length xs) ++ sdsjoinsds xs (lit ":") ++ lit "]".

Lemma token_loop_fwd fuel pre cur tok e post mode :
  (length tok < fuel)%nat → e ∉ tok →
  token_loop fuel (pre ++ cur ++ tok ++ e :: post) (length (pre ++ cur)) e mode false (length cur) =
    (let p := length (pre ++ cur ++ tok) in
     match mode with
     | INCLUDE_END_POINT => (Some (S p, S (length (cur ++ tok)), false), S p)
     | EXCLUDE_END_POINT_ON_TOKEN => (Some (S p, length (cur ++ tok), false), S p)
     | EXCLUDE_END_POINT_ALL => (Some (p, length (cur ++ tok), false), p)
     end).
Proof.
  revert fuel cur. induction tok as [|c tok IH]; intros fuel cur Hf He;
    (destruct fuel as [|fuel]; [simpl in Hf; lia|]); cbn [token_loop].
  - match goal with |- context [(?a <=? ?b)%nat] => destruct (Nat.leb_spec a b) as [Hle|_] end.
    { rewrite !length_app in Hle. simpl in Hle. lia. }
    rewrite (app_assoc pre cur). cbn [app]. rewrite lookup_app_mid, decide_True by done.
    rewrite !app_nil_r. done.
  - apply not_elem_of_cons in He as [Hc He].
    match goal with |- context [(?a <=? ?b)%nat] => destruct (Nat.leb_spec a b) as [Hle|_] end.
    { rewrite !length_app in Hle. simpl in Hle. lia. }
    rewrite (app_assoc pre cur). cbn [app]. rewrite lookup_app_mid, decide_False by congruence.
    specialize (IH fuel (cur ++ [c])). rewrite <- !app_assoc in IH. cbn [app] in IH.
    replace (S (length (pre ++ cur))) with (length (pre ++ cur ++ [c]))
      by (rewrite !length_app; simpl; lia).
    replace (S (length cur)) with (length (cur ++ [c])) by (rewrite length_app; simpl; lia).
    rewrite <- app_assoc. simpl in Hf. rewrite IH by (done || lia).
    done.
Qed.

Lemma slice_mid (pre tok post : bytes) : slice (pre ++ tok ++ post) (length pre) (length tok) = tok.
Proof. unfold slice. by rewrite drop_app_length, take_app_length. Qed.

Lemma token_fwd pre tok e post mode :
  e ∉ tok →
  _getTargetToken (pre ++ tok ++ e :: post) (length pre) e mode false =
    match mode with
    | INCLUDE_END_POINT => (Some (tok ++ [e]), S (length (pre ++ tok)))
    | EXCLUDE_END_POINT_ON_TOKEN => (Some tok, S (length (pre ++ tok)))
    | EXCLUDE_END_POINT_ALL => (Some tok, length (pre ++ tok))
    end.
Proof.
  intros He. unfold _getTargetToken.
  pose proof (token_loop_fwd (S (length (pre ++ tok ++ e :: post))) pre [] tok e post mode) as H.
  cbn [app length] in H. rewrite app_nil_r in H. rewrite H; [|rewrite !length_app; simpl; lia|done].
  destruct mode; cbv zeta iota; do 2 f_equal; try apply slice_mid.
  replace (S (length tok)) with (length (tok ++ [e])) by (rewrite length_app; simpl; lia).
  replace (pre ++ tok ++ e :: post) with (pre ++ (tok ++ [e]) ++ post) by (by rewrite <- (app_assoc tok)).
  apply slice_mid.
Qed.

Lemma token_loop_rev fuel pre tok cur post e mode :
  (length tok < fuel)%nat → e ∉ tok →
  mode = INCLUDE_END_POINT ∨ (0 < length cur + length tok + length post)%nat →
  token_loop fuel (pre ++ e :: tok ++ cur ++ post) (length cur + length post) e mode true (length cur) =
    (let p := (length tok + length cur + length post)%nat in
     match mode with
     | INCLUDE_END_POINT => (Some (p, S (length tok + length cur), false), p)
     | _ => (Some (p - 1, length tok + length cur, false), p - 1)
     end)%nat.
Proof.
  revert fuel cur. induction tok as [|c tok IH] using rev_ind; intros fuel cur Hf He Hp;
    (destruct fuel as [|fuel]; [simpl in Hf; lia|]); cbn [token_loop].
  - match goal with |- context [(?a <=? ?b)%nat] => destruct (Nat.leb_spec a b) as [Hle|_] end.
    { rewrite !length_app in Hle. simpl in Hle. rewrite !length_app in Hle. lia. }
    replace (length (pre ++ e :: [] ++ cur ++ post) - 1 - (length cur + length post))%nat with (length pre)
      by (rewrite !length_app; simpl; rewrite length_app; lia).
    rewrite lookup_app_mid, decide_True by done. cbn [length Nat.add].
    destruct Hp as [->|Hp]; [done|].
    destruct (length cur + length post)%nat as [|p] eqn:E; [simpl in Hp; lia|].
    destruct mode; [done|..]; by rewrite Nat.sub_succ, Nat.sub_0_r.
  - rewrite not_elem_of_app in He. destruct He as [He Hc].
    match goal with |- context [(?a <=? ?b)%nat] => destruct (Nat.leb_spec a b) as [Hle|_] end.
    { rewrite !length_app in Hle. simpl in Hle. rewrite !length_app in Hle. simpl in Hle. lia. }
    rewrite !length_app. cbn [length]. rewrite !length_app. cbn [length].
    replace (length pre + S (length tok + 1 + (length cur + length post)) - 1 - (length cur + length post))%nat
      with (length (pre ++ e :: tok)) by (rewrite length_app; simpl; lia).
    rewrite <- (app_assoc tok). cbn [app].
    replace (pre ++ e :: tok ++ c :: cur ++ post) with ((pre ++ e :: tok) ++ c :: cur ++ post)
      by (by rewrite <- app_assoc).
    rewrite lookup_app_mid, decide_False by set_solver. rewrite <- app_assoc. cbn [app].
    specialize (IH fuel (c :: cur)). cbn [length app] in IH.
    replace (S (length cur + length post)) with (S (length cur) + length post)%nat by lia.
    rewrite length_app in Hf. simpl in Hf. rewrite IH; [|lia|done|right; lia]. cbv zeta.
    replace (length tok + S (length cur))%nat with (length tok + 1 + length cur)%nat by lia. done.
Qed.

Lemma token_rev pre tok post e mode :
  e ∉ tok → mode = INCLUDE_END_POINT ∨ (0 < length tok + length post)%nat →
  _getTargetToken (pre ++ e :: tok ++ post) (length post) e mode true =
    match mode with
    | INCLUDE_END_POINT => (Some (e :: tok), length tok + length post + 1)
    | EXCLUDE_END_POINT_ON_TOKEN => (Some tok, length tok + length post + 1)
    | EXCLUDE_END_POINT_ALL => (Some tok, length tok + length post - 1)
    end%nat.
Proof.
  intros He Hp. unfold _getTargetToken.
  pose proof (token_loop_rev (S (length (pre ++ e :: tok ++ post))) pre tok [] post e mode) as H.
  cbn [app length Nat.add] in H. rewrite H; [|rewrite !length_app; simpl; rewrite length_app; lia|done|done].
  assert (Hi : slice (pre ++ e :: tok ++ post) (length pre) (S (length tok)) = e :: tok)
    by apply (slice_mid pre (e :: tok) post).
  assert (Hx : slice (pre ++ e :: tok ++ post) (S (length pre)) (length tok) = tok).
  { replace (S (length pre)) with (length (pre ++ [e])) by (rewrite length_app; simpl; lia).
    replace (pre ++ e :: tok ++ post) with ((pre ++ [e]) ++ tok ++ post) by (by rewrite <- app_assoc).
    apply slice_mid. }
  assert (HL : length (pre ++ e :: tok ++ post) = (length pre + S (length tok + length post))%nat)
    by (rewrite length_app; simpl; by rewrite length_app).
  rewrite !Nat.add_0_r. destruct mode; cbv zeta iota; rewrite HL;
    [|destruct Hp as [|Hp]; [done|]..].
  - replace (length pre + S (length tok + length post) - 1 - (length tok + length post))%nat
      with (length pre) by lia. by rewrite Hi.
  - replace (length pre + S (length tok + length post) - 1 - (length tok + length post - 1))%nat
      with (S (length pre)) by lia. by rewrite Hx.
  - replace (length pre + S (length tok + length post) - 1 - (length tok + length post - 1))%nat
      with (S (length pre)) by lia. rewrite Hx. f_equal. lia.
Qed.

Lemma token_fwd_at col i pre tok e post mode :
  col = pre ++ tok ++ e :: post → i = length pre → e ∉ tok →
  _getTargetToken col i e mode false =
    match mode with
    | INCLUDE_END_POINT => (Some (tok ++ [e]), S (length (pre ++ tok)))
    | EXCLUDE_END_POINT_ON_TOKEN => (Some tok, S (length (pre ++ tok)))
    | EXCLUDE_END_POINT_ALL => (Some tok, length (pre ++ tok))
    end.
Proof. intros -> ->. apply token_fwd. Qed.

Lemma used_token_Some t i : used_token (Some t, i) = Ok (t, i).
Proof. done. Qed.

(** Normalise concatenations of literals and variables. *)
Ltac app_norm :=
  cbn [lit String.list_ascii_of_string app]; rewrite <- ?app_assoc; cbn [app];
  rewrite <- ?app_assoc; cbn [app]; rewrite <- ?app_assoc; cbn [app].

(** Read the next token: its prefix, text and rest are given. *)
Ltac read_token pre tok post :=
  erewrite (token_fwd_at _ _ pre tok _ post);
  [| app_norm; reflexivity
   | rewrite ?length_app; cbn [length lit String.list_ascii_of_string]; rewrite ?length_app;
     cbn [length]; lia
   | first [by apply (bool_decide_unpack _)|by apply d2s_no]].

Lemma preprocess_head type n body :
  INT_MIN ≤ type ≤ INT_MAX → Z.of_nat n ≤ INT_MAX →
  _preprocessMakeColumnVectorIter (head_text type n ++ body) 0 =
    Ok (C_OK, (length (lit "V:{T:" ++ d2s type ++ lit ":N:" ++ d2s (Z.of_nat n) ++ lit "}:"),
               type, Z.of_nat n)).
Proof.
  intros Ht Hn. unfold _preprocessMakeColumnVectorIter, head_text.
  set (dn := d2s (Z.of_nat n)). set (dt := d2s type).
  read_token (@nil ascii) (lit "V:") (lit "T:" ++ dt ++ lit ":N:" ++ dn ++ lit "}:D:[" ++ body).
  rewrite used_token_Some. res_step. cbn [fst snd].
  change (negb (strcmp_eq (lit "V:" ++ ["{"%char]) (lit "V:{"))) with false. cbv iota. cbn [snd].
  read_token (lit "V:{") (lit "T") (dt ++ lit ":N:" ++ dn ++ lit "}:D:[" ++ body).
  rewrite used_token_Some. res_step. cbn [fst snd].
  change (negb (strcmp_eq (lit "T" ++ [":"%char]) (lit "T:"))) with false. cbv iota. cbn [snd].
  read_token (lit "V:{T:") dt (lit "N:" ++ dn ++ lit "}:D:[" ++ body).
  rewrite used_token_Some. res_step. cbn [fst snd]. cbn [fst snd].
  read_token (lit "V:{T:" ++ dt ++ lit ":") (lit "N") (dn ++ lit "}:D:[" ++ body).
  rewrite used_token_Some. res_step. cbn [fst snd].
  change (negb (strcmp_eq (lit "N" ++ [":"%char]) (lit "N:"))) with false. cbv iota. cbn [snd].
  read_token (lit "V:{T:" ++ dt ++ lit ":N:") dn (lit ":D:[" ++ body).
  rewrite used_token_Some. res_step. cbn [fst snd]. cbn [fst snd].
  read_token (lit "V:{T:" ++ dt ++ lit ":N:" ++ dn ++ lit "}") (lit ":") (lit ":[" ++ body).
  cbn [snd]. subst dn dt. rewrite !atoi_d2s_nil by (unfold INT_MIN, INT_MAX in *; lia).
  do 4 f_equal. by app_norm.
Qed.

(** * The iterator *)

(** Values that the text form can hold: no separator inside, and no closing
    bracket in the last one. *)
Definition wf_values (xs : list bytes) : Prop :=
  Forall (fun x => ":"%char ∉ x) xs ∧ (∀ x, last xs = Some x → "]"%char ∉ x).

Lemma wf_values_cons x xs : wf_values (x :: xs) → xs ≠ [] → wf_values xs.
Proof.
  intros [H Hl] Hne. inversion H; subst. split; [done|]. intros y Hy. apply Hl.
  destruct xs; [done|]. done.
Qed.

Fixpoint iter_collect (n : nat) (it : ColumnVectorIter) : res (list bytes) :=
  match n with
  | O => Ok []
  | S n' => x ← columnVectorIterGetNoCopy it;
            xs ← iter_collect n' (columnVectorIterNext it).1; Ok (x :: xs)
  end.

(** The iterator that stands at the first of the remaining values [ys]. *)
Definition iter_at (pre : bytes) (ys : list bytes) (z : bytes) (type : Z) (n : nat)
    : ColumnVectorIter :=
  mkIter (pre ++ sdsjoinsds ys (lit ":") ++ lit "]" ++ z) type (Z.of_nat n)
    (Z.of_nat (n - length ys)) (length pre).

Lemma nocopy_loop_ok tok e post k :
  e ∉ tok → nocopy_loop (tok ++ e :: post) e k = Ok (k + length tok)%nat.
Proof.
  revert k. induction tok as [|c tok IH]; intros k He; simpl.
  - rewrite decide_True by done. f_equal. lia.
  - apply not_elem_of_cons in He as [Hc He]. rewrite decide_False by congruence.
    rewrite IH by done. f_equal. lia.
Qed.

(** Whether the iterator stands at the last value. *)
Lemma iter_last_iff n (ys : list bytes) :
  (length ys ≤ n)%nat → ys ≠ [] → Z.of_nat n ≤ INT_MAX →
  (Z.of_nat (n - length ys) =? to_size_t (Z.of_nat n - 1)) = (length ys =? 1)%nat.
Proof.
  intros Hle Hne Hn. unfold INT_MAX in *. assert (length ys ≠ 0)%nat by (by destruct ys).
  rewrite to_size_t_id by (unfold SIZE_MAX, ULLONG_MAX; lia). blia.
Qed.

Lemma iter_get pre y ys z type n :
  (length (y :: ys) ≤ n)%nat → Z.of_nat n ≤ INT_MAX → wf_values (y :: ys) →
  columnVectorIterGetNoCopy (iter_at pre (y :: ys) z type n) = Ok y ∧
  columnVectorIterGet (iter_at pre (y :: ys) z type n) = Some y.
Proof.
  intros Hle Hn [Hw Hl]. inversion Hw as [|? ? Hy Hw']; subst.
  unfold columnVectorIterGetNoCopy, columnVectorIterGet, iter_at. cbn [it_i it_count it_pos it_col_v].
  rewrite iter_last_iff by done. rewrite <- (app_assoc pre), drop_app_length.
  destruct ys as [|y' ys].
  - change (sdsjoinsds [y] (lit ":")) with y. cbn [length Nat.eqb]. assert ("]"%char ∉ y) by (by apply Hl).
    split.
    + rewrite <- app_assoc. cbn [lit String.list_ascii_of_string app].
      rewrite nocopy_loop_ok by done. res_step. f_equal. rewrite Nat.add_0_l. apply slice_mid.
    + by rewrite (token_fwd pre y "]"%char z).
  - rewrite sdsjoinsds_cons by done. cbn [length Nat.eqb]. split.
    + rewrite <- !app_assoc. cbn [lit String.list_ascii_of_string app].
      rewrite nocopy_loop_ok by done. res_step. f_equal. rewrite Nat.add_0_l. apply slice_mid.
    + rewrite <- !app_assoc. cbn [lit String.list_ascii_of_string app]. by rewrite token_fwd.
Qed.

Lemma iter_next pre y ys z type n :
  (length (y :: ys) ≤ n)%nat → Z.of_nat n ≤ INT_MAX → wf_values (y :: ys) → ys ≠ [] →
  columnVectorIterNext (iter_at pre (y :: ys) z type n) =
    (iter_at (pre ++ y ++ lit ":") ys z type n, false).
Proof.
  intros Hle Hn [Hw Hl] Hne. inversion Hw as [|? ? Hy Hw']; subst.
  unfold columnVectorIterNext, iter_at. cbn [it_i it_count it_pos it_col_v it_type].
  rewrite iter_last_iff by done. assert (length ys ≠ 0)%nat by (by destruct ys).
  replace (length (y :: ys) =? 1)%nat with false by (simpl; blia).
  rewrite sdsjoinsds_cons by done. rewrite <- !app_assoc. cbn [lit String.list_ascii_of_string app].
  rewrite token_fwd by done. f_equal. f_equal.
  - unfold INT_MAX in *. rewrite to_size_t_id by (unfold SIZE_MAX, ULLONG_MAX; lia). simpl length in *. lia.
  - rewrite !length_app. simpl. lia.
Qed.

Lemma iter_next_last pre y z type n :
  (1 ≤ n)%nat → Z.of_nat n ≤ INT_MAX →
  columnVectorIterNext (iter_at pre [y] z type n) = (iter_at pre [y] z type n, true).
Proof.
  intros Hle Hn. unfold columnVectorIterNext, iter_at at 1 2. cbn [it_i it_count].
  by rewrite (iter_last_iff n [y]).
Qed.

Lemma iter_collect_ok ys : ∀ pre z type n,
  (length ys ≤ n)%nat → Z.of_nat n ≤ INT_MAX → wf_values ys →
  iter_collect (length ys) (iter_at pre ys z type n) = Ok ys.
Proof.
  induction ys as [|y ys IH]; intros pre z type n Hle Hn Hw; [done|].
  cbn [length iter_collect]. destruct (iter_get pre y ys z type n) as [-> _]; [done..|]. res_step.
  destruct (decide (ys = [])) as [->|Hne]; [done|].
  rewrite iter_next by done. cbn [fst]. rewrite IH; [done|simpl in Hle; lia|done|by eapply wf_values_cons].
Qed.

(** Advance an iterator [n] times. *)
Fixpoint iter_advance (n : nat) (it : ColumnVectorIter) : ColumnVectorIter :=
  match n with O => it | S n' => iter_advance n' (columnVectorIterNext it).1 end.

Lemma iter_advance_last ys : ∀ pre y z type n,
  (S (length ys) ≤ n)%nat → Z.of_nat n ≤ INT_MAX → wf_values (ys ++ [y]) →
  iter_advance (length ys) (iter_at pre (ys ++ [y]) z type n) =
    iter_at (pre ++ sep_all (lit ":") ys) [y] z type n.
Proof.
  induction ys as [|x ys IH]; intros pre y z type n Hle Hn Hw.
  - cbn [length iter_advance app]. unfold sep_all. cbn. by rewrite app_nil_r.
  - cbn [length iter_advance app]. rewrite iter_next; [|rewrite <- ?app_comm_cons in *; simpl in *;
      rewrite ?length_app; simpl; lia|done|done|by destruct ys].
    cbn [fst]. rewrite IH; [|simpl in Hle; lia|done|eapply wf_values_cons; [done|by destruct ys]].
    f_equal. unfold sep_all. cbn. by rewrite <- !app_assoc.
Qed.

(** What the iterator gives after [i] steps, and whether it is at its end. *)
Lemma iter_advance_get xs : ∀ pre z type n i x,
  (length xs ≤ n)%nat → Z.of_nat n ≤ INT_MAX → wf_values xs → xs !! i = Some x →
  let it := iter_advance i (iter_at pre xs z type n) in
  columnVectorIterGetNoCopy it = Ok x ∧ columnVectorIterGet it = Some x ∧
  (columnVectorIterNext it).2 = (S i =? length xs)%nat.
Proof.
  induction xs as [|y ys IH]; intros pre z type n i x Hle Hn Hw Hi; [done|]. destruct i as [|i].
  - injection Hi as <-. cbn [iter_advance]. destruct (iter_get pre y ys z type n) as [-> ->]; [done..|].
    split_and!; [done..|]. destruct (decide (ys = [])) as [->|Hne].
    + by rewrite iter_next_last by (simpl in Hle; lia || done).
    + rewrite iter_next by done. by destruct ys.
  - cbn [lookup list_lookup] in Hi. assert (Hne : ys ≠ []) by (by destruct ys). cbn [iter_advance]. rewrite iter_next by done. cbn [fst].
    apply IH; [simpl in Hle; lia|done|by eapply wf_values_cons|done].
Qed.

(** The text before the last value ends with the delimiter that
    [makeColumnVectorIter] looks for from the end. *)
Lemma before_last_value h ys n :
  n = S (length ys) →
  ∃ a, (h ++ lit "D:[") ++ sep_all (lit ":") ys =
         a ++ [if Z.of_nat n <=? 1 then "["%char else ":"%char].
Proof.
  intros En. destruct ys as [|x ys _] using rev_ind.
  - replace (Z.of_nat n <=? 1) with true by (rewrite En; done). exists (h ++ lit "D:"). by app_norm.
  - replace (Z.of_nat n <=? 1) with false by (rewrite En, length_app; simpl; blia).
    rewrite sep_all_snoc. exists ((h ++ lit "D:[") ++ sep_all (lit ":") ys ++ x). by app_norm.
Qed.

(** The iterators made from a serialized vector: [begin] stands at the first
    value; [end] at the last one, provided a single value holds no ["["]. *)
Lemma makeIter_ok type ys y z :
  0 ≤ type < 4 → Z.of_nat (S (length ys)) ≤ INT_MAX → z = [] ∨ z = [NUL] →
  ":"%char ∉ y →
  ∃ e, makeColumnVectorIter (Some (serial_text type (ys ++ [y]) ++ z)) =
         Ok (Some (iter_at (head_text type (length (ys ++ [y]))) (ys ++ [y]) z type (length (ys ++ [y])), e)) ∧
       ((ys = [] → "["%char ∉ y) →
        e = iter_at (head_text type (length (ys ++ [y])) ++ sep_all (lit ":") ys) [y] z type (length (ys ++ [y]))).
Proof.
  intros Ht Hn Hz Hy. set (n := length (ys ++ [y])).
  assert (En : n = S (length ys)) by (subst n; rewrite length_app; simpl; lia).
  unfold makeColumnVectorIter, serial_text. fold n.
  set (head := head_text type n). rewrite sdsjoinsds_snoc. set (body := sep_all (lit ":") ys).
  assert (Ehead : ∃ h, head = h ++ lit "D:[" ∧
    h = lit "V:{T:" ++ d2s type ++ lit ":N:" ++ d2s (Z.of_nat n) ++ lit "}:").
  { eexists. split; [|reflexivity]. subst head. unfold head_text. by app_norm. }
  destruct Ehead as (h & Eh & Eh'). rewrite <- !app_assoc. rewrite length_app.
  destruct (Nat.eqb_spec (length head + length (body ++ y ++ lit "]" ++ z)) 0) as [H0|_].
  { rewrite Eh, !length_app in H0. simpl in H0. lia. }
  subst head. rewrite preprocess_head by (unfold INT_MIN, INT_MAX in *; lia). res_step.
  rewrite <- Eh'. fold (head_text type n). rewrite Eh.
  rewrite (token_fwd_at _ _ h (lit "D:") "["%char (body ++ y ++ lit "]" ++ z)); 
    [|by app_norm|done|by apply (bool_decide_unpack _)].
  rewrite used_token_Some. res_step. cbn [fst snd].
  change (negb (strcmp_eq (lit "D:" ++ ["["%char]) (lit "D:["))) with false. cbv iota.
  assert (Hz1 : "]"%char ∉ z) by (destruct Hz as [-> | ->]; by apply (bool_decide_unpack _)).
  replace ((h ++ lit "D:[") ++ body ++ y ++ lit "]" ++ z)
    with (((h ++ lit "D:[") ++ body ++ y) ++ "]"%char :: z) by (by app_norm).
  pose proof (token_rev ((h ++ lit "D:[") ++ body ++ y) z [] "]"%char INCLUDE_END_POINT Hz1
    (or_introl eq_refl)) as E1.
  rewrite app_nil_r in E1. cbn [length] in E1. rewrite E1, used_token_Some. res_step. cbn [fst snd].
  replace (negb (strcmp_eq ("]"%char :: z) (lit "]"))) with false by (by destruct Hz as [-> | ->]).
  cbv iota. set (delim := if Z.of_nat n <=? 1 then "["%char else ":"%char).
  destruct (before_last_value h ys n En) as [a Ha]. fold body delim in Ha.
  destruct (list_elem_of_split_r ((h ++ lit "D:[") ++ body ++ y) delim) as (b & w & Ebw & Hw).
  { rewrite app_assoc, Ha. set_solver. }
  rewrite Ebw. pose proof (token_rev b w ("]"%char :: z) delim EXCLUDE_END_POINT_ALL Hw) as E2.
  cbn [length] in E2. rewrite <- app_assoc. cbn [app].
  replace (length z + 0 + 1)%nat with (S (length z)) by lia.
  rewrite E2 by (right; lia). rewrite used_token_Some. res_step. cbn [snd].
  assert (Ecol : b ++ delim :: w ++ "]"%char :: z =
                 (h ++ lit "D:[") ++ sdsjoinsds (ys ++ [y]) (lit ":") ++ lit "]" ++ z).
  { rewrite sdsjoinsds_snoc. fold body. rewrite (app_comm_cons w), app_assoc, <- Ebw. by app_norm. }
  rewrite !to_size_t_id by (unfold INT_MAX, SIZE_MAX, ULLONG_MAX in *; lia).
  rewrite (Z.mod_small type 4) by lia. eexists. split.
  - do 3 f_equal. unfold iter_at. rewrite Ecol, Nat.sub_diag. f_equal. rewrite !length_app. simpl. lia.
  - intros Hbr. unfold iter_at. rewrite Ecol.
    assert (Hdy : delim ∉ y).
    { subst delim. destruct ys as [|x ys]; [rewrite En; by apply Hbr|].
      replace (Z.of_nat n <=? 1) with false by (rewrite En; simpl; blia). done. }
    assert (Hwy : w = y).
    { rewrite app_assoc, Ha, <- app_assoc in Ebw. cbn [app] in Ebw.
      by apply app_sep_inj_r in Ebw as [_ ->]. }
    subst w. f_equal.
    + change (sdsjoinsds [y] (lit ":")) with y. rewrite sdsjoinsds_snoc. fold body. by app_norm.
    + rewrite En. simpl length. lia.
    + rewrite !length_app. cbn [lit length String.list_ascii_of_string]. lia.
Qed.

(** * vectorSerialize *)

Lemma cat_elements_ok v xs sep : ∀ ys k acc,
  vector_rep v (map Some xs) → drop k xs = ys →
  cat_elements (length ys) v (Z.of_nat k) (Z.of_nat (length xs) - 1) sep acc =
    Ok (acc ++ sdsjoinsds ys sep).
Proof.
  induction ys as [|y ys IH]; intros k acc Hr Hd; cbn [length cat_elements].
  { unfold sdsjoinsds. cbn. by rewrite app_nil_r. }
  assert (Hk : xs !! k = Some y) by (rewrite <- (Nat.add_0_r k), <- lookup_drop, Hd; done).
  assert (Hd' : drop (S k) xs = ys).
  { pose proof (drop_S xs y k Hk) as E. rewrite Hd in E. by injection E. }
  assert (Hlen : (length xs = S k + length ys)%nat).
  { pose proof (length_drop xs (S k)) as E. rewrite Hd' in E. apply lookup_lt_Some in Hk. lia. }
  rewrite (vectorGet_rep _ _ _ Hr), list_lookup_fmap, Hk. res_step. cbn [fmap option_fmap option_map from_option id deref].
  res_step. replace (Z.of_nat k + 1) with (Z.of_nat (S k)) by lia. rewrite IH by done.
  destruct (Z.ltb_spec (Z.of_nat k) (Z.of_nat (length xs) - 1)) as [Hlt|Hge].
  - rewrite sdsjoinsds_cons by (by destruct ys; [simpl in *; lia|]). by rewrite <- !app_assoc.
  - destruct ys; [|simpl in *; lia]. unfold sdsjoinsds. cbn. by rewrite app_nil_r.
Qed.

Lemma vectorSerialize_ok v xs :
  vector_rep v (map Some xs) → Z.of_nat (length xs) ≤ INT_MAX →
  vectorSerialize v = Ok (serial_text (v_type v) xs).
Proof.
  intros Hr Hn. pose proof Hr as (Ht & Hc & _). rewrite length_map in Hc.
  unfold vectorSerialize. catfmt. res_step. rewrite Hc, to_int_id by (unfold INT_MIN; lia).
  rewrite Nat2Z.id, (cat_elements_ok v xs (lit ":") xs 0) by done. res_step.
  rewrite !sdsll2str_d2s by (unfold INT_MAX, LLONG_MIN, LLONG_MAX in *; lia).
  f_equal. unfold serial_text, head_text.
  change (cstr RELMODEL_VECTOR_PREFIX) with (lit "V:"). change (cstr RELMODEL_VECTOR_TYPE_PREFIX) with (lit "T:").
  change (cstr RELMODEL_VECTOR_COUNT_PREFIX) with (lit "N:"). change (cstr RELMODEL_DATA_PREFIX) with (lit "D").
  change (cstr VECTOR_DATA_PREFIX) with (lit "["). change VECTOR_DATA_SUFFIX with (lit "]"). by app_norm.
Qed.

(** * vectorDeserialize *)

(** Values that the [strtok_r] reader gives back: non-empty C strings; the first
    one holds no byte of ["D:["], the last one no closing bracket, and the others
    no separator. *)
Definition wf_strtok (first : bytes) (mid : list bytes) (lst : bytes) : Prop :=
  Forall (fun x => x ≠ [] ∧ nonul x) (first :: mid ++ [lst]) ∧
  Forall (.∉ RELMODEL_VECTOR_DATA_PREFIX) first ∧
  Forall (fun x => ":"%char ∉ x) mid ∧ "]"%char ∉ lst.

Lemma serial_text_nonul type xs : Forall nonul xs → nonul (serial_text type xs).
Proof.
  intros Hx. unfold serial_text, head_text. rewrite !nonul_app.
  split_and!; try apply d2s_nonul; try by apply (bool_decide_unpack _).
  by apply sdsjoinsds_nonul; [|apply (bool_decide_unpack _)].
Qed.

Lemma sdsjoinsds_app_last (mid : list bytes) lst :
  sdsjoinsds (mid ++ [lst]) (lit ":") = sep_all (lit ":") mid ++ lst.
Proof. apply sdsjoinsds_snoc. Qed.

Lemma deserialize_mid n mid lst : ∀ i v l,
  Forall (fun x => x ≠ [] ∧ nonul x) (mid ++ [lst]) → Forall (fun x => ":"%char ∉ x) mid →
  "]"%char ∉ lst → (0 < i)%nat → (i + length mid = n)%nat →
  vector_rep v l → Z.of_nat (length l + length mid) + 20 < 2 ^ 60 →
  ∃ v', deserialize_loop (S (length mid)) (Z.of_nat i) (Z.of_nat n)
          (sep_all (lit ":") mid ++ lst ++ lit "]") v = Ok (C_OK, v')
        ∧ vector_rep v' (l ++ map Some (mid ++ [lst])) ∧ v_type v' = v_type v.
Proof.
  induction mid as [|x mid IH]; intros i v l Hne Hsep Hl Hi Hn Hr Hlen; cbn [length deserialize_loop].
  - replace (Z.of_nat i =? 0) with false by blia. replace (Z.of_nat i =? Z.of_nat n) with true by (simpl in *; blia).
    unfold sep_all. cbn [map concat app]. inversion Hne as [|? ? [Hx Hnx] _]; subst.
    rewrite (strtok_r_token lst "]"%char []); [|done| |set_solver].
    2:{ apply Forall_forall. intros c Hc Hin. unfold VECTOR_DATA_SUFFIX in Hin. set_solver. }
    rewrite (cstr_nonul _ Hnx). destruct (vectorAdd_rep v l (Some lst) Hr) as (v1 & -> & Hr1 & Ht1); [lia|].
    res_step. cbn [snd]. eauto.
  - cbn [app] in Hne. inversion Hne as [|? ? [Hx Hnx] Hne']; subst. inversion Hsep as [|? ? Hsx Hsep']; subst.
    replace (Z.of_nat i =? 0) with false by blia.
    replace (Z.of_nat i =? Z.of_nat (i + length (x :: mid))) with false by (simpl; blia).
    unfold sep_all. cbn [map concat]. rewrite <- !app_assoc. cbn [lit String.list_ascii_of_string app].
    rewrite strtok_r_token; [|done| |set_solver].
    2:{ apply Forall_forall. intros c Hc Hin. unfold RELMODEL_DELIMITER in Hin. set_solver. }
    rewrite (cstr_nonul _ Hnx). simpl in Hlen.
    destruct (vectorAdd_rep v l (Some x) Hr) as (v1 & -> & Hr1 & Ht1); [lia|]. res_step. cbn [snd].
    replace (Z.of_nat i + 1) with (Z.of_nat (S i)) by lia.
    destruct (IH (S i) v1 (l ++ [Some x])) as (v2 & E & Hr2 & Ht2); try done; try lia.
    { simpl. lia. }
    { rewrite length_app. simpl. lia. }
    exists v2. rewrite <- app_assoc in Hr2. split_and!; [exact E|done|congruence].
Qed.

Lemma deserialize_first n last saveptr v :
  deserialize_loop (S n) 0 last saveptr v =
    match strtok_r saveptr RELMODEL_VECTOR_DATA_PREFIX with
    | (None, _) => Ok (C_ERR, v)
    | (Some token, saveptr) =>
        r ← vectorAdd v (Some (cstr token)); deserialize_loop n 1 last saveptr r.2
    end.
Proof. done. Qed.

(** The header as [vectorDeserialize] reads it. *)
Lemma deserialize_header type n body :
  INT_MIN ≤ type ≤ INT_MAX → Z.of_nat n ≤ INT_MAX → nonul body →
  vectorDeserialize (Some (head_text type n ++ body ++ [NUL])) =
    (v ← vectorTypeInitWithSize type (Z.of_nat n);
     if Z.of_nat n =? 1 then
       match strtok_r (lit "D:[" ++ body) RELMODEL_VECTOR_DATA_PREFIX with
       | (None, _) => Ok (C_ERR, Some v)
       | (Some token, saveptr) =>
           if (length saveptr + 1 + 1 <? 8)%nat then Fault OutOfBounds
           else match strtok_r token VECTOR_DATA_SUFFIX with
                | (None, _) => Ok (C_ERR, Some v)
                | (Some token, _) => r ← vectorAdd v (Some (cstr token)); Ok (C_OK, Some r.2)
                end
       end
     else
       r ← deserialize_loop n 0 (Z.of_nat n - 1) (lit "D:[" ++ body) v; Ok (r.1, Some r.2)).
Proof.
  intros Ht Hn Hb. unfold vectorDeserialize.
  assert (Hnl : nonul (head_text type n ++ body)).
  { unfold head_text. rewrite !nonul_app. split_and!; try done; try apply d2s_nonul; by apply (bool_decide_unpack _). }
  rewrite app_assoc, cstr_app_nul by done.
  replace (length ((head_text type n ++ body) ++ [NUL]) - length (head_text type n ++ body))%nat with 1%nat
    by (rewrite !length_app; simpl; lia).
  unfold head_text. set (dn := d2s (Z.of_nat n)). set (dt := d2s type).
  replace ((lit "V:{T:" ++ dt ++ lit ":N:" ++ dn ++ lit "}:D:[") ++ body)
    with (lit "V:" ++ lit "{T" ++ ":"%char :: dt ++ lit ":N:" ++ dn ++ lit "}:D:[" ++ body) by (by app_norm).
  change (lit "V:" ++ ?x) with ("V"%char :: ":"%char :: x).
  rewrite !strtok_r_skip by (by apply (bool_decide_unpack _)).
  rewrite (strtok_r_token (lit "{T") ":"%char); [|done|by apply (bool_decide_unpack _)|by apply (bool_decide_unpack _)].
  change (strcmp_eq (lit "{T") RELMODEL_VECTOR_PREFIX) with false. cbv iota.
  change (lit ":N:" ++ ?x) with (":"%char :: lit "N:" ++ x).
  rewrite (strtok_r_token dt ":"%char); [|apply d2s_nonempty|by apply d2s_avoid|by apply (bool_decide_unpack _)].
  change (lit "N:" ++ ?x) with ("N"%char :: ":"%char :: x).
  rewrite !strtok_r_skip by (by apply (bool_decide_unpack _)).
  replace (dn ++ lit "}:D:[" ++ body) with ((dn ++ lit "}") ++ ":"%char :: lit "D:[" ++ body) by (by app_norm).
  rewrite strtok_r_token; [|by destruct dn| |by apply (bool_decide_unpack _)].
  2:{ apply Forall_app; split; [by apply d2s_avoid|by apply (bool_decide_unpack _)]. }
  subst dn dt. rewrite atoi_d2s_nil, atoi_d2s by (done || unfold INT_MIN, INT_MAX in *; lia).
  rewrite to_size_t_id by (unfold INT_MAX, SIZE_MAX, ULLONG_MAX in *; lia).
  rewrite Nat2Z.id. done.
Qed.

(** * Properties *)

(** C15: a column vector of at least one value is read back from its RocksDB text
    by the scan iterator: [vectorSerialize] succeeds, and on its text followed by
    the stored NUL, [makeColumnVectorIter] gives an iterator that yields exactly
    the values in order: after [i] steps [columnVectorIterGetNoCopy] and the copying
    [columnVectorIterGet] both give value [i], and [columnVectorIterNext] reports
    the end at the last one only; there the iterator equals the end iterator, and a
    further step leaves it.
    The values may not hold [":"], nor the last one ["]"] (nor a single one
    ["["]). *)
Theorem serialize_iterate_roundtrip v ys y :
  vector_rep v (map Some (ys ++ [y])) → Z.of_nat (length (ys ++ [y])) ≤ INT_MAX →
  wf_values (ys ++ [y]) → (ys = [] → "["%char ∉ y) →
  ∃ text b e, vectorSerialize v = Ok text ∧
    makeColumnVectorIter (Some (text ++ [NUL])) = Ok (Some (b, e)) ∧
    iter_collect (length (ys ++ [y])) b = Ok (ys ++ [y]) ∧
    (∀ i x, (ys ++ [y]) !! i = Some x →
       columnVectorIterGetNoCopy (iter_advance i b) = Ok x ∧ columnVectorIterGet (iter_advance i b) = Some x ∧
       (columnVectorIterNext (iter_advance i b)).2 = (S i =? length (ys ++ [y]))%nat) ∧
    columnVectorIterIsEqual (iter_advance (length ys) b) e = true ∧
    columnVectorIterNext e = (e, true) ∧ columnVectorIterGet e = Some y.
Proof.
  intros Hr Hn Hw Hbr. pose proof Hr as (Ht & _). pose proof Hw as [Hsep Hlast].
  rewrite Forall_app, Forall_singleton in Hsep. destruct Hsep as [_ Hy].
  destruct (makeIter_ok (v_type v) ys y [NUL] Ht) as (e & E & He);
    [rewrite length_app in Hn; simpl in Hn; lia|by right|done|].
  specialize (He Hbr). subst e.
  do 3 eexists. split; [by apply vectorSerialize_ok|]. split; [exact E|].
  assert (Hone : (1 ≤ length (ys ++ [y]))%nat) by (rewrite length_app; simpl; lia).
  split_and!.
  - by apply iter_collect_ok.
  - intros i x Hi. by apply iter_advance_get.
  - rewrite iter_advance_last; [|rewrite length_app; simpl; lia|done|done].
    unfold columnVectorIterIsEqual. rewrite bool_decide_true, !Z.eqb_refl, Nat.eqb_refl; done.
  - by apply iter_next_last.
  - apply iter_get; [done|done|]. split; [by constructor|]. intros x [= <-]. apply Hlast. apply last_snoc.
Qed.

Lemma serialize_iterate_roundtrip_witness :
  ∃ v, vectorAddAll (vectorTypeInit 1) [Some (lit "ab"); Some []; Some (lit "x")] = Ok v ∧
  ∃ text b e, vectorSerialize v = Ok text ∧
    makeColumnVectorIter (Some (text ++ [NUL])) = Ok (Some (b, e)) ∧
    iter_collect 3 b = Ok [lit "ab"; []; lit "x"] ∧
    (∀ i x, [lit "ab"; []; lit "x"] !! i = Some x →
       columnVectorIterGetNoCopy (iter_advance i b) = Ok x ∧ columnVectorIterGet (iter_advance i b) = Some x ∧
       (columnVectorIterNext (iter_advance i b)).2 = (S i =? 3)%nat) ∧
    columnVectorIterIsEqual (iter_advance 2 b) e = true ∧
    columnVectorIterNext e = (e, true) ∧ columnVectorIterGet e = Some (lit "x").
Proof.
  destruct (vectorAddAll_rep (vectorTypeInit 1) [] [Some (lit "ab"); Some []; Some (lit "x")])
    as (v & E & Hr & _); [apply vectorTypeInit_rep|simpl; lia|].
  exists v. split; [exact E|].
  apply (serialize_iterate_roundtrip v [lit "ab"; []] (lit "x")).
  - exact Hr.
  - unfold INT_MAX. simpl. lia.
  - split; [by apply (bool_decide_unpack _)|]. intros z [= <-]. by apply (bool_decide_unpack _).
  - discriminate.
Defined.

(** [vectorDeserialize] rebuilds a vector of two or more values from its
    stored text: it returns [C_OK] and a vector of the same type that holds the
    same values, provided they are non-empty strings, the first has no byte of
    ["D:["], the last no ["]"] and the others no [":"]. *)
Theorem deserialize_roundtrip v first mid lst :
  vector_rep v (map Some (first :: mid ++ [lst])) →
  Z.of_nat (length (first :: mid ++ [lst])) ≤ INT_MAX → wf_strtok first mid lst →
  ∃ text v', vectorSerialize v = Ok text ∧
    vectorDeserialize (Some (text ++ [NUL])) = Ok (C_OK, Some v') ∧
    vector_rep v' (map Some (first :: mid ++ [lst])) ∧ v_type v' = v_type v.
Proof.
  intros Hr Hn (Hne & Hfst & Hmid & Hlst). pose proof Hr as (Ht & _).
  set (xs := first :: mid ++ [lst]) in *. assert (Hlen : length xs = S (S (length mid))).
  { subst xs. simpl. rewrite length_app. simpl. lia. }
  exists (serial_text (v_type v) xs).
  assert (Htext : serial_text (v_type v) xs ++ [NUL] =
    head_text (v_type v) (length xs) ++ (sdsjoinsds xs (lit ":") ++ lit "]") ++ [NUL])
    by (unfold serial_text; by rewrite <- app_assoc).
  rewrite Htext, deserialize_header; [|unfold INT_MIN, INT_MAX; lia|done|].
  2:{ rewrite nonul_app. split; [|by apply (bool_decide_unpack _)].
      apply sdsjoinsds_nonul; [|by apply (bool_decide_unpack _)]. eapply Forall_impl; [exact Hne|]. by intros x [_ ?]. }
  unfold INT_MAX in Hn.
  destruct (vectorTypeInitWithSize_rep (A := bytes) (v_type v) (Z.of_nat (length xs)))
    as (v0 & -> & Hr0 & Ht0); [lia|]. res_step.
  replace (Z.of_nat (length xs) =? 1) with false by (rewrite Hlen; blia).
  rewrite Hlen, deserialize_first.
  change (lit "D:[" ++ ?x) with ("D"%char :: ":"%char :: "["%char :: x).
  rewrite !strtok_r_skip by (by apply (bool_decide_unpack _)). subst xs.
  rewrite sdsjoinsds_cons by (by destruct mid). rewrite <- !app_assoc.
  inversion Hne as [|? ? [Hf1 Hf2] Hne']; subst.
  change (lit ":" ++ ?x) with (":"%char :: x).
  rewrite strtok_r_token; [|done|done|by apply (bool_decide_unpack _)]. rewrite (cstr_nonul _ Hf2).
  destruct (vectorAdd_rep v0 [] (Some first) Hr0) as (v1 & -> & Hr1 & Ht1); [simpl; lia|]. res_step. cbn [snd].
  rewrite sdsjoinsds_snoc, <- app_assoc.
  destruct (deserialize_mid (S (length mid)) mid lst 1 v1 [Some first]) as (v2 & E & Hr2 & Ht2);
    try done; try lia; [simpl; lia|].
  change (Z.of_nat 1) with 1 in E.
  replace (Z.of_nat (S (S (length mid))) - 1) with (Z.of_nat (S (length mid))) by lia.
  rewrite E. res_step. exists v2. split; [|split; [done|split; [done|]]].
  - rewrite vectorSerialize_ok with (xs := first :: mid ++ [lst]);
      [done|done|unfold INT_MAX; lia].
  - rewrite Ht2, Ht1, Ht0. by rewrite Z.mod_small.
Qed.

Lemma deserialize_roundtrip_witness :
  ∃ v, vectorAddAll (vectorTypeInit 1) [Some (lit "a"); Some (lit "b[D"); Some (lit "c:d")] = Ok v ∧
  ∃ text v', vectorSerialize v = Ok text ∧
    vectorDeserialize (Some (text ++ [NUL])) = Ok (C_OK, Some v') ∧
    vector_rep v' [Some (lit "a"); Some (lit "b[D"); Some (lit "c:d")] ∧ v_type v' = v_type v.
Proof.
  destruct (vectorAddAll_rep (vectorTypeInit 1) [] [Some (lit "a"); Some (lit "b[D"); Some (lit "c:d")])
    as (v & E & Hr & _); [apply vectorTypeInit_rep|simpl; lia|].
  exists v. split; [exact E|].
  apply (deserialize_roundtrip v (lit "a") [lit "b[D"] (lit "c:d")).
  - exact Hr.
  - unfold INT_MAX. simpl. lia.
  - split_and!; by apply (bool_decide_unpack _).
Defined.

(** on the stored text of a vector with one value, [vectorDeserialize] writes
    a pointer past the end of the string (it passes [saveptr] where [&saveptr] is
    meant), for every value without a byte of ["D:["]. *)
Theorem deserialize_single_overruns v x :
  vector_rep v [Some x] → nonul x → Forall (.∉ RELMODEL_VECTOR_DATA_PREFIX) x →
  ∃ text, vectorSerialize v = Ok text ∧
          vectorDeserialize (Some (text ++ [NUL])) = Fault OutOfBounds.
Proof.
  intros Hr Hx Hd. pose proof Hr as (Ht & _). exists (serial_text (v_type v) [x]).
  split; [by apply (vectorSerialize_ok v [x])|].
  unfold serial_text. rewrite <- app_assoc, deserialize_header.
  - destruct (vectorTypeInitWithSize_rep (A := bytes) (v_type v) (Z.of_nat (length [x])))
      as (v0 & -> & _); [simpl; lia|]. res_step. cbn [length Z.of_nat Z.eqb Pos.eqb Pos.of_succ_nat].
    change (lit "D:[" ++ ?x) with ("D"%char :: ":"%char :: "["%char :: x).
    rewrite !strtok_r_skip by (by apply (bool_decide_unpack _)).
    change (sdsjoinsds [x] (lit ":")) with x. rewrite strtok_r_last; [done|by destruct x|].
    apply Forall_app; split; [done|by apply (bool_decide_unpack _)].
  - unfold INT_MIN, INT_MAX. lia.
  - unfold INT_MAX. simpl. lia.
  - rewrite nonul_app. split; [done|by apply (bool_decide_unpack _)].
Qed.

Lemma deserialize_single_overruns_witness :
  ∃ v, vectorAddAll (vectorTypeInit 1) [Some (lit "42")] = Ok v ∧
  ∃ text, vectorSerialize v = Ok text ∧ vectorDeserialize (Some (text ++ [NUL])) = Fault OutOfBounds.
Proof.
  destruct (vectorAddAll_rep (vectorTypeInit 1) [] [Some (lit "42")]) as (v & E & Hr & _);
    [apply vectorTypeInit_rep|simpl; lia|].
  exists v. split; [exact E|]. apply (deserialize_single_overruns v (lit "42") Hr).
  - by apply (bool_decide_unpack _).
  - by apply (bool_decide_unpack _).
Defined.

(** The older reader gives a single value back. *)
Example VectordeSerialize_single :
  ∃ v, VectordeSerialize (lit "V:{T:1:N:1}:D:[42]") = Ok v ∧ vectorGet v 0 = Ok (Some (lit "42")).
Proof. eexists. split; vm_compute; reflexivity. Qed.
