(* ===== verification/Filter.v ===== *)
(** src/src/addb_relational.c and src/src/addb_relational.h (partition filter),
    src/src/util.c ([stringmatchregex]): parsing of the postfix filter statement
    that METAKEYS receives, parsing of the partition values in a meta key, and
    the evaluation of the filter on them. *)

From S2P Require Import Prelude CString Util Glob Sds Vector Keys.

(** * Dates *)

(** The extended regular expressions of ADDB_DATE_PARTITION_PATTERN: bracket
    sets, concatenation and alternation. *)
Inductive ere :=
| ESet (ranges : list (ascii * ascii))
| EEps
| ECat (a b : ere)
| EAlt (a b : ere).

Fixpoint erep (n : nat) (r : ere) : ere :=
  match n with O => EEps | S n' => ECat r (erep n' r) end.

Definition in_set (ranges : list (ascii * ascii)) (c : ascii) : bool :=
  existsb (fun r => (code r.1 <=? code c) && (code c <=? code r.2)) ranges.

(** The rests of [s] after each prefix that the expression matches. *)
Fixpoint ere_rests (r : ere) (s : bytes) : list bytes :=
  match r with
  | ESet ranges => match s with c :: s' => if in_set ranges c then [s'] else [] | [] => [] end
  | EEps => [s]
  | ECat a b => concat (map (ere_rests b) (ere_rests a s))
  | EAlt a b => ere_rests a s ++ ere_rests b s
  end.

(** [stringmatchregex("^r$", str)] for an expression that [regcomp] accepts: 1 if
    it matches the whole string, else 0. *)
Definition stringmatchregex (r : ere) (str : bytes) : Z :=
  if existsb (fun t => bool_decide (t = [])) (ere_rests r (cstr str)) then 1 else 0.

Definition E1 (c : ascii) : ere := ESet [(c, c)].
Definition ADDB_DATE_PARTITION_PATTERN : ere :=
  ECat (erep 4 (ESet [("0"%char, "9"%char)]))
  (ECat (E1 "-")
  (ECat (EAlt (ECat (E1 "0") (ESet [("1"%char, "9"%char)]))
              (ECat (E1 "1") (ESet [("0"%char, "2"%char)])))
  (ECat (E1 "-")
        (EAlt (ECat (E1 "0") (ESet [("1"%char, "9"%char)]))
        (EAlt (ECat (ESet [("1"%char, "1"%char); ("2"%char, "2"%char)]) (ESet [("0"%char, "9"%char)]))
              (ECat (E1 "3") (ESet [("0"%char, "0"%char); ("1"%char, "1"%char)]))))))).
Definition ADDB_DATE_PARTITION_TOKEN : bytes := lit "-".

(** [dateStrToInteger(dateStr, &result)]: the result, or [None] for [C_ERR]. *)
Definition dateStrToInteger (dateStr : bytes) : option Z :=
  if stringmatchregex ADDB_DATE_PARTITION_PATTERN dateStr =? 0 then None
  else
    match sdssplit (cstr dateStr) ADDB_DATE_PARTITION_TOKEN with
    | None => None
    | Some tokens =>
        if negb (length tokens =? 3)%nat then None
        else string2l (sdsjoinsds tokens [])
    end.

Example date_ex1 : dateStrToInteger (lit "1995-05-15") = Some 19950515.
Proof. vm_compute. reflexivity. Qed.
Example date_ex2 : dateStrToInteger (lit "I am not date") = None.
Proof. vm_compute. reflexivity. Qed.
Example date_ex3 : dateStrToInteger (lit "0995-05-15") = None.
Proof. vm_compute. reflexivity. Qed.

(** * Operators *)

Definition CONDITION_OP_TYPE_AND : Z := 1.
Definition CONDITION_OP_TYPE_OR : Z := 2.
Definition CONDITION_OP_TYPE_NOT : Z := 3.
Definition CONDITION_OP_TYPE_EQ : Z := 4.
Definition CONDITION_OP_TYPE_LT : Z := 5.
Definition CONDITION_OP_TYPE_LTE : Z := 6.
Definition CONDITION_OP_TYPE_GT : Z := 7.
Definition CONDITION_OP_TYPE_GTE : Z := 8.
Definition CONDITION_OP_TYPE_IS_NULL : Z := 9.
Definition CONDITION_OP_TYPE_IS_NOT_NULL : Z := 10.
Definition CONDITION_OP_TYPE_STRING_CONTAINS : Z := 11.
Definition CONDITION_OP_TYPE_STRING_ENDS_WITH : Z := 12.
Definition CONDITION_OP_TYPE_STRING_STARTS_WITH : Z := 13.

Definition _getOperatorType (operator : bytes) : Z :=
  if strcmp_eq operator (lit "And") then CONDITION_OP_TYPE_AND
  else if strcmp_eq operator (lit "Or") then CONDITION_OP_TYPE_OR
  else if strcmp_eq operator (lit "Not") then CONDITION_OP_TYPE_NOT
  else if strcmp_eq operator (lit "EqualTo") then CONDITION_OP_TYPE_EQ
  else if strcmp_eq operator (lit "LessThan") then CONDITION_OP_TYPE_LT
  else if strcmp_eq operator (lit "LessThanOrEqual") then CONDITION_OP_TYPE_LTE
  else if strcmp_eq operator (lit "GreaterThan") then CONDITION_OP_TYPE_GT
  else if strcmp_eq operator (lit "GreaterThanOrEqual") then CONDITION_OP_TYPE_GTE
  else if strcmp_eq operator (lit "IsNull") then CONDITION_OP_TYPE_IS_NULL
  else if strcmp_eq operator (lit "IsNotNull") then CONDITION_OP_TYPE_IS_NOT_NULL
  else if strcmp_eq operator (lit "StringContains") then CONDITION_OP_TYPE_STRING_CONTAINS
  else if strcmp_eq operator (lit "StringEndsWith") then CONDITION_OP_TYPE_STRING_ENDS_WITH
  else if strcmp_eq operator (lit "StringStartsWith") then CONDITION_OP_TYPE_STRING_STARTS_WITH
  else -1.

Definition _getOperatorStr (optype : Z) : option bytes :=
  if optype =? CONDITION_OP_TYPE_AND then Some (lit "And")
  else if optype =? CONDITION_OP_TYPE_OR then Some (lit "Or")
  else if optype =? CONDITION_OP_TYPE_NOT then Some (lit "Not")
  else if optype =? CONDITION_OP_TYPE_EQ then Some (lit "EqualTo")
  else if optype =? CONDITION_OP_TYPE_LT then Some (lit "LessThan")
  else if optype =? CONDITION_OP_TYPE_LTE then Some (lit "LessThanOrEqual")
  else if optype =? CONDITION_OP_TYPE_GT then Some (lit "GreaterThan")
  else if optype =? CONDITION_OP_TYPE_GTE then Some (lit "GreaterThanOrEqual")
  else if optype =? CONDITION_OP_TYPE_IS_NULL then Some (lit "IsNull")
  else if optype =? CONDITION_OP_TYPE_IS_NOT_NULL then Some (lit "IsNotNull")
  else if optype =? CONDITION_OP_TYPE_STRING_CONTAINS then Some (lit "StringContains")
  else if optype =? CONDITION_OP_TYPE_STRING_ENDS_WITH then Some (lit "StringEndsWith")
  else if optype =? CONDITION_OP_TYPE_STRING_STARTS_WITH then Some (lit "StringStartsWith")
  else None.

Definition _getOperatorOperandCount (optype : Z) : Z :=
  if (optype <? CONDITION_OP_TYPE_AND) || (optype >? CONDITION_OP_TYPE_STRING_STARTS_WITH) then -1
  else if (optype =? CONDITION_OP_TYPE_NOT) || (optype =? CONDITION_OP_TYPE_IS_NULL)
          || (optype =? CONDITION_OP_TYPE_IS_NOT_NULL) then 1
  else 2.

(** * Conditions *)

(** [struct _Condition] and [struct _ConditionChild]: the tag of a child
    ([CONDITION_CHILD_VALUE_TYPE_*]) is its constructor. *)
Inductive Condition :=
| mkCond (op : Z) (opCount : Z) (isLeaf : bool) (first second : option ConditionChild)
with ConditionChild :=
| ChildCond (c : Condition)
| ChildLong (l : Z)
| ChildSds (s : bytes).

(** The parser's stack holds pointers to both structures. *)
Inductive item :=
| ItemChild (c : ConditionChild)
| ItemCond (c : Condition).

(** The classification of an operand or partition value: a date or an integer is
    a [long], anything else a string. *)
Inductive value := VLong (l : Z) | VSds (s : bytes).
#[export] Instance value_eq_dec : EqDecision value.
Proof. solve_decision. Defined.

Definition classify (token : bytes) : value :=
  match dateStrToInteger token with
  | Some l => VLong l
  | None => match string2l (cstr token) with Some l => VLong l | None => VSds (cstr token) end
  end.
Definition child_of (v : value) : ConditionChild :=
  match v with VLong l => ChildLong l | VSds s => ChildSds s end.

Definition PARTITION_FILTER_OPERAND_DELIMITER : bytes := lit "*".
Definition PARTITION_FILTER_OPERATOR_DELIMITER : bytes := lit ":".

(** The operand loop of [createCondition]: while text remains after the current
    token, push it as a child. *)
Fixpoint operand_loop (fuel : nat) (token : option bytes) (savePtr : bytes)
    (s : Stack item) (leafOperandCount : Z) : res (option bytes * Stack item * Z) :=
  match savePtr with
  | [] => Ok (token, s, leafOperandCount)
  | _ =>
      match fuel with
      | O => Fault OutOfFuel
      | S f =>
          tok ← deref token;
          r ← stackPush s (Some (ItemChild (child_of (classify tok))));
          let '(token', savePtr') := strtok_r savePtr PARTITION_FILTER_OPERAND_DELIMITER in
          operand_loop f token' savePtr' r.2 (leafOperandCount + 1)
      end
  end.

Definition pop_child (s : Stack item) : res (option ConditionChild * Stack item) :=
  r ← stackPop s;
  match r.1 with
  | None => Ok (None, r.2)
  | Some (ItemChild c) => Ok (Some c, r.2)
  | Some (ItemCond _) => Fault BadCast
  end.
Definition pop_cond (s : Stack item) : res (option Condition * Stack item) :=
  r ← stackPop s;
  match r.1 with
  | None => Ok (None, r.2)
  | Some (ItemCond c) => Ok (Some c, r.2)
  | Some (ItemChild _) => Fault BadCast
  end.

(** [createCondition(rawConditionStr, s, &cond)]: the condition on [C_OK]. *)
Definition createCondition (rawConditionStr : bytes) (s : Stack item)
    : res (option Condition * Stack item) :=
  if (MAX_TMPBUF_SIZE <? S (length rawConditionStr))%nat then Fault OutOfBounds
  else
    let '(token, savePtr) := strtok_r rawConditionStr PARTITION_FILTER_OPERAND_DELIMITER in
    r ← operand_loop (length rawConditionStr) token savePtr s 0;
    let '(token, s, leafOperandCount) := r in
    tok ← deref token;
    let optype := _getOperatorType tok in
    if optype =? -1 then Fault Panic
    else
      let opCount := _getOperatorOperandCount optype in
      if leafOperandCount >? 0 then
        if negb (leafOperandCount =? opCount) then Ok (None, s)
        else
          r ← pop_child s;
          let '(p, s) := r in
          first ← deref p;
          match first with
          | ChildLong _ =>
              r ← (if opCount =? 2 then pop_child s else Ok (None, s));
              Ok (Some (mkCond optype opCount true (Some first) r.1), r.2)
          | _ => Ok (None, s)
          end
      else if opCount >? to_int (stackCount s) then Ok (None, s)
      else
        r ← pop_cond s;
        let '(p, s) := r in
        c1 ← deref p;
        r ← (if opCount =? 2 then
               r ← pop_cond s; c2 ← deref r.1; Ok (Some (ChildCond c2), r.2)
             else Ok (None, s));
        Ok (Some (mkCond optype opCount false (Some (ChildCond c1)) r.1), r.2).

(** The token loop of [parseStatement]: [None] for [C_ERR]. *)
Fixpoint statement_loop (fuel : nat) (token : option bytes) (savePtr : bytes) (s : Stack item)
    : res (option (Stack item)) :=
  match token with
  | None => Ok (Some s)
  | Some tok =>
      match fuel with
      | O => Fault OutOfFuel
      | S f =>
          r ← createCondition tok s;
          match r with
          | (None, _) => Ok None
          | (Some cond, s) =>
              r ← stackPush s (Some (ItemCond cond));
              let '(token', savePtr') := strtok_r savePtr PARTITION_FILTER_OPERATOR_DELIMITER in
              statement_loop f token' savePtr' r.2
          end
      end
  end.

Definition parseStatement (rawStatementStr : bytes) : res (rc * option Condition) :=
  if (MAX_TMPBUF_SIZE <? S (length rawStatementStr))%nat then Fault OutOfBounds
  else
    let '(token, savePtr) := strtok_r (cstr rawStatementStr) PARTITION_FILTER_OPERATOR_DELIMITER in
    r ← statement_loop (S (length rawStatementStr)) token savePtr stackInit;
    match r with
    | None => Ok (C_ERR, None)
    | Some s =>
        if negb (stackCount s =? 1) then Ok (C_ERR, None)
        else
          r ← pop_cond s;
          Ok (C_OK, r.1)
    end.

(** * Partitions *)

Record PartitionParameter := mkParam { columnId : Z; pvalue : value }.

Fixpoint partition_loop (fuel : nat) (token : option bytes) (savePtr : bytes)
    (v : Vector PartitionParameter) : res (rc * Vector PartitionParameter) :=
  match savePtr with
  | [] => Ok (C_OK, v)
  | _ =>
      match fuel with
      | O => Fault OutOfFuel
      | S f =>
          tok ← deref token;
          let col := atoi tok in
          match strtok_r savePtr RELMODEL_DELIMITER with
          | (None, _) => Ok (C_ERR, v)
          | (Some tok, savePtr) =>
              r ← vectorAdd v (Some (mkParam col (classify tok)));
              let '(token', savePtr') := strtok_r savePtr RELMODEL_DELIMITER in
              partition_loop f token' savePtr' r.2
          end
      end
  end.

Definition parsePartitions (partitionInfo : bytes) (v : Vector PartitionParameter)
    : res (rc * Vector PartitionParameter) :=
  let str := cstr partitionInfo in
  _ ← assert (S (length str) <? MAX_TMPBUF_SIZE)%nat;
  let '(token, savePtr) := strtok_r str RELMODEL_DELIMITER in
  partition_loop (length str) token savePtr v.

(** * Evaluation *)

Definition convertLikeStatementToGlobPattern (optype : Z) (likeStatement : bytes)
    : res (option bytes) :=
  if optype =? CONDITION_OP_TYPE_STRING_CONTAINS then
    s ← sdscatfmt [] (lit "%s%S%s") [FStr (lit "*"); FSds likeStatement; FStr (lit "*")]; Ok (Some s)
  else if optype =? CONDITION_OP_TYPE_STRING_ENDS_WITH then
    s ← sdscatfmt [] (lit "%s%S") [FStr (lit "*"); FSds likeStatement]; Ok (Some s)
  else if optype =? CONDITION_OP_TYPE_STRING_STARTS_WITH then
    s ← sdscatfmt [] (lit "%S%s") [FSds likeStatement; FStr (lit "*")]; Ok (Some s)
  else Ok None.

Definition is_like (optype : Z) : bool :=
  (optype =? CONDITION_OP_TYPE_STRING_CONTAINS) || (optype =? CONDITION_OP_TYPE_STRING_ENDS_WITH)
  || (optype =? CONDITION_OP_TYPE_STRING_STARTS_WITH).

Definition is_leaf_op (optype : Z) : bool :=
  (optype =? CONDITION_OP_TYPE_EQ) || (optype =? CONDITION_OP_TYPE_LT)
  || (optype =? CONDITION_OP_TYPE_LTE) || (optype =? CONDITION_OP_TYPE_GT)
  || (optype =? CONDITION_OP_TYPE_GTE) || (optype =? CONDITION_OP_TYPE_IS_NULL)
  || (optype =? CONDITION_OP_TYPE_IS_NOT_NULL) || is_like optype.

(** The comparisons of integers, with the panic on any other operator. *)
Definition compare_long (optype : Z) (p s : Z) : res bool :=
  if optype =? CONDITION_OP_TYPE_LT then Ok (p <? s)
  else if optype =? CONDITION_OP_TYPE_LTE then Ok (p <=? s)
  else if optype =? CONDITION_OP_TYPE_GT then Ok (p >? s)
  else if optype =? CONDITION_OP_TYPE_GTE then Ok (p >=? s)
  else Fault Panic.

(** One round of the loop of [_evaluateLeafOperator]: a result, or [None] to
    continue with the next partition value. *)
Definition leaf_round (optype : Z) (first second : option ConditionChild)
    (param : PartitionParameter) : res (option bool) :=
  match first with
  | Some (ChildLong col) =>
      if negb (col =? columnId param) then Ok None
      else if optype =? CONDITION_OP_TYPE_IS_NULL then Ok (Some false)
      else if optype =? CONDITION_OP_TYPE_IS_NOT_NULL then Ok (Some true)
      else
        match second with
        | Some (ChildLong l) =>
            match pvalue param with
            | VSds _ => Ok None
            | VLong pl =>
                if optype =? CONDITION_OP_TYPE_EQ then Ok (Some (l =? pl))
                else if is_like optype then Ok (Some false)
                else b ← compare_long optype pl l; Ok (Some b)
            end
        | Some (ChildSds s) =>
            match pvalue param with
            | VLong _ => Ok None
            | VSds ps =>
                if optype =? CONDITION_OP_TYPE_EQ then Ok (Some (sdscmp s ps =? 0))
                else if is_like optype then
                  converted ← convertLikeStatementToGlobPattern optype s;
                  pat ← deref converted;
                  b ← stringmatch pat ps false;
                  Ok (Some b)
                else Ok (Some false)
            end
        | _ => Ok (Some false)
        end
  | _ => Ok (Some false)
  end.

Fixpoint leaf_loop (n : nat) (i : Z) (optype : Z) (first second : option ConditionChild)
    (partitions : Vector PartitionParameter) : res bool :=
  match n with
  | O => Ok true
  | S n' =>
      p ← vectorGet partitions i;
      param ← deref p;
      r ← leaf_round optype first second param;
      match r with
      | Some b => Ok b
      | None => leaf_loop n' (i + 1) optype first second partitions
      end
  end.

(** The partitions argument is the address of a local and never NULL. *)
Definition _evaluateLeafOperator (optype : Z) (first second : option ConditionChild)
    (partitions : Vector PartitionParameter) : res bool :=
  if negb (is_leaf_op optype) then Ok false
  else leaf_loop (Z.to_nat (vectorCount partitions)) 0 optype first second partitions.

Definition _evaluateNonleafOperator (eval : Condition → res bool) (optype : Z)
    (first second : option ConditionChild) : res bool :=
  if negb ((optype =? CONDITION_OP_TYPE_OR) || (optype =? CONDITION_OP_TYPE_AND)
           || (optype =? CONDITION_OP_TYPE_NOT)) then Ok false
  else
    match first with
    | Some (ChildCond c1) =>
        if optype =? CONDITION_OP_TYPE_NOT then b ← eval c1; Ok (negb b)
        else
          match second with
          | Some (ChildCond c2) =>
              b ← eval c1;
              if optype =? CONDITION_OP_TYPE_OR then (if b : bool then Ok true else eval c2)
              else (if b : bool then eval c2 else Ok false)
          | _ => Ok false
          end
    | _ => Ok false
    end.

Fixpoint _evaluateCondition (cond : Condition) (partitions : Vector PartitionParameter) : res bool :=
  match cond with
  | mkCond op _ isLeaf first second =>
      if isLeaf then _evaluateLeafOperator op first second partitions
      else _evaluateNonleafOperator (fun c => _evaluateCondition c partitions) op first second
  end.

Definition evaluateCondition (root : Condition) (metakey : bytes) : res bool :=
  info ← parseMetaKeyInfo metakey;
  metaKeyInfo ← deref info;
  match mk_partitionInfo metaKeyInfo with
  | PartitionInt _ => Ok false
  | PartitionString s =>
      r ← parsePartitions s vectorInit;
      match r with
      | (C_ERR, _) => Ok false
      | (C_OK, partitions) => _evaluateCondition root partitions
      end
  end.

(** * Release *)

(** What [freeConditions] releases. *)
Inductive freed := FreedCond | FreedChild | FreedSds (s : bytes).

(** For the second child, the tag of the first one is read (line 1691), after it
    was released. *)
Fixpoint freeConditions (cond : Condition) : res (list freed) :=
  match cond with
  | mkCond _ _ _ first second =>
      f1 ← match first with
           | None => Ok []
           | Some (ChildCond c) => l ← freeConditions c; Ok (l ++ [FreedChild])
           | Some (ChildSds s) => Ok [FreedSds s; FreedChild]
           | Some (ChildLong _) => Ok [FreedChild]
           end;
      f2 ← match second with
           | None => Ok []
           | Some (ChildCond c) => l ← freeConditions c; Ok (l ++ [FreedChild])
           | Some _ => Fault (match first with None => NullDeref | Some _ => UseAfterFree end)
           end;
      Ok (f1 ++ f2 ++ [FreedCond])
  end.

Example parse_eval_ex :
  (r ← parseStatement (lit "30*2*EqualTo:1995-01-01*3*GreaterThan:And");
   c ← deref r.2;
   evaluateCondition c (lit "M:{100:2:30:3:1995-05-15}")) = Ok true.
Proof. vm_compute. reflexivity. Qed.

(** * Dates: what the pattern accepts *)

(** The language of an expression. *)
Fixpoint ere_lang (r : ere) (w : bytes) : Prop :=
  match r with
  | ESet ranges => ∃ c, w = [c] ∧ in_set ranges c = true
  | EEps => w = []
  | ECat a b => ∃ w1 w2, w = w1 ++ w2 ∧ ere_lang a w1 ∧ ere_lang b w2
  | EAlt a b => ere_lang a w ∨ ere_lang b w
  end.

Lemma ere_rests_spec r : ∀ s t, t ∈ ere_rests r s ↔ ∃ w, s = w ++ t ∧ ere_lang r w.
Proof.
  induction r as [ranges| |a IHa b IHb|a IHa b IHb]; intros s t; cbn [ere_rests ere_lang].
  - destruct s as [|c s].
    + split; [by intros ?%elem_of_nil|]. by intros (w & ? & c & -> & _).
    + destruct (in_set ranges c) eqn:E.
      * rewrite list_elem_of_singleton. split; [intros ->; by exists [c]; eauto|].
        intros (w & Ew & d & -> & _). by injection Ew as _ ->.
      * split; [by intros ?%elem_of_nil|]. intros (w & Ew & d & -> & Hd). injection Ew as -> _. congruence.
  - rewrite list_elem_of_singleton. split; [intros ->; by exists []|]. by intros (w & -> & ->).
  - rewrite list_elem_of_In, in_concat. split.
    + intros (l & Hl & Ht). apply in_map_iff in Hl as (u & <- & Hu).
      rewrite <- list_elem_of_In in Hu, Ht. apply IHa in Hu as (w1 & -> & H1). apply IHb in Ht as (w2 & -> & H2).
      exists (w1 ++ w2). rewrite <- app_assoc. eauto 6.
    + intros (w & -> & w1 & w2 & -> & H1 & H2). exists (ere_rests b (w2 ++ t)). split.
      * apply in_map_iff. exists (w2 ++ t). split; [done|]. rewrite <- list_elem_of_In. apply IHa.
        exists w1. by rewrite <- app_assoc.
      * rewrite <- list_elem_of_In. apply IHb. eauto.
  - rewrite elem_of_app, IHa, IHb. naive_solver.
Qed.

Lemma stringmatchregex_spec r s : stringmatchregex r s = 1 ↔ ere_lang r (cstr s).
Proof.
  unfold stringmatchregex.
  assert (H : existsb (fun t => bool_decide (t = [])) (ere_rests r (cstr s)) = true ↔ ere_lang r (cstr s)).
  { rewrite existsb_exists. split.
    - intros (t & Ht & E). apply bool_decide_eq_true in E as ->. rewrite <- list_elem_of_In in Ht.
      apply ere_rests_spec in Ht as (w & -> & Hw). by rewrite app_nil_r.
    - intros Hw. exists []. split; [|done]. rewrite <- list_elem_of_In. apply ere_rests_spec.
      exists (cstr s). by rewrite app_nil_r. }
  rewrite <- H. destruct (existsb _ _); naive_solver.
Qed.

Definition pad2 (n : Z) : bytes := [digit (n / 10); digit (n mod 10)].
Definition pad4 (n : Z) : bytes := pad2 (n / 100) ++ pad2 (n mod 100).
(** ["%04d-%02d-%02d"]. *)
Definition date_text (y m d : Z) : bytes := pad4 y ++ lit "-" ++ pad2 m ++ lit "-" ++ pad2 d.

Lemma in_set_range lo hi c :
  in_set [(lo, hi)] c = true ↔ code lo ≤ code c ≤ code hi.
Proof. unfold in_set. cbn [existsb fst snd]. rewrite orb_false_r, andb_true_iff, !Z.leb_le. done. Qed.

Lemma digit_of_code c lo hi :
  code lo ≤ code c ≤ code hi → 48 ≤ code lo → code hi ≤ 57 →
  ∃ k, c = digit k ∧ code lo - 48 ≤ k ≤ code hi - 48.
Proof.
  intros H Hl Hh. exists (code c - 48). unfold digit. split; [|lia].
  replace (48 + (code c - 48)) with (code c) by lia. by rewrite chr_code.
Qed.

Lemma eset_digit lo hi w :
  ere_lang (ESet [(lo, hi)]) w → 48 ≤ code lo → code hi ≤ 57 →
  ∃ k, w = [digit k] ∧ code lo - 48 ≤ k ≤ code hi - 48.
Proof.
  intros (c & -> & Hc) Hl Hh. apply in_set_range in Hc.
  destruct (digit_of_code c lo hi Hc Hl Hh) as (k & -> & ?). eauto.
Qed.

Lemma eset_digit_conv lo hi k :
  0 ≤ k ≤ 9 → code lo - 48 ≤ k ≤ code hi - 48 → ere_lang (ESet [(lo, hi)]) [digit k].
Proof.
  intros Hk H. exists (digit k). split; [done|]. apply in_set_range.
  unfold digit. rewrite code_chr by lia. lia.
Qed.

Lemma e1_digit c w : ere_lang (E1 c) w → w = [c].
Proof. intros (d & -> & Hd). apply in_set_range in Hd. f_equal. apply code_inj. lia. Qed.
Lemma e1_conv c : ere_lang (E1 c) [c].
Proof. exists c. split; [done|]. apply in_set_range. lia. Qed.

Lemma eset2_digit a b w :
  ere_lang (ESet [(a, a); (b, b)]) w → w = [a] ∨ w = [b].
Proof.
  intros (c & -> & Hc). unfold in_set in Hc. cbn [existsb fst snd] in Hc.
  rewrite orb_false_r, orb_true_iff, !andb_true_iff, !Z.leb_le in Hc.
  destruct Hc as [Hc|Hc]; [left|right]; f_equal; apply code_inj; lia.
Qed.

Definition ere_month : ere :=
  EAlt (ECat (E1 "0") (ESet [("1"%char, "9"%char)])) (ECat (E1 "1") (ESet [("0"%char, "2"%char)])).
Definition ere_day : ere :=
  EAlt (ECat (E1 "0") (ESet [("1"%char, "9"%char)]))
  (EAlt (ECat (ESet [("1"%char, "1"%char); ("2"%char, "2"%char)]) (ESet [("0"%char, "9"%char)]))
        (ECat (E1 "3") (ESet [("0"%char, "0"%char); ("1"%char, "1"%char)]))).

Lemma pad2_split a b : 0 ≤ b < 10 → pad2 (10 * a + b) = [digit a; digit b].
Proof.
  intros Hb. unfold pad2.
  by rewrite <- (Z.div_unique (10 * a + b) 10 a b), <- (Z.mod_unique (10 * a + b) 10 a b) by lia.
Qed.

(** Two fixed first digits and a range of second digits. *)
Lemma two_digits_lang a lo hi w :
  ere_lang (ECat (E1 (digit a)) (ESet [(digit lo, digit hi)])) w →
  0 ≤ a → 0 ≤ lo → hi ≤ 9 → lo ≤ 9 → 0 ≤ hi →
  ∃ n, 10 * a + lo ≤ n ≤ 10 * a + hi ∧ w = pad2 n.
Proof.
  intros (w1 & w2 & -> & H1 & H2) Ha Hlo Hhi Hlo9 Hhi0. apply e1_digit in H1 as ->.
  unfold digit at 1 2 in H2. apply eset_digit in H2 as (k & -> & Hk); rewrite ?code_chr in * by lia; [|lia..].
  exists (10 * a + k). split; [lia|]. by rewrite pad2_split by lia.
Qed.

Lemma two_digits_conv a lo hi n :
  0 ≤ lo → hi ≤ 9 → 10 * a + lo ≤ n ≤ 10 * a + hi →
  ere_lang (ECat (E1 (digit a)) (ESet [(digit lo, digit hi)])) (pad2 n).
Proof.
  intros Hlo Hhi Hn. replace n with (10 * a + (n - 10 * a)) by lia. rewrite pad2_split by lia.
  exists [digit a], [digit (n - 10 * a)]. split_and!; [done|apply e1_conv|].
  apply eset_digit_conv; [lia|]. unfold digit. rewrite !code_chr by lia. lia.
Qed.

Lemma month_spec w : ere_lang ere_month w ↔ ∃ m, 1 ≤ m ≤ 12 ∧ w = pad2 m.
Proof.
  unfold ere_month.
  change (ECat (E1 "0") (ESet [("1"%char, "9"%char)])) with (ECat (E1 (digit 0)) (ESet [(digit 1, digit 9)])).
  change (ECat (E1 "1") (ESet [("0"%char, "2"%char)])) with (ECat (E1 (digit 1)) (ESet [(digit 0, digit 2)])).
  split.
  - intros [H|H]; apply two_digits_lang in H as (n & Hn & ->); try lia; exists n; (split; [lia|done]).
  - intros (m & Hm & ->). destruct (decide (m ≤ 9)); [left|right]; apply two_digits_conv; lia.
Qed.

Lemma day_spec w : ere_lang ere_day w ↔ ∃ d, 1 ≤ d ≤ 31 ∧ w = pad2 d.
Proof.
  unfold ere_day.
  change (ECat (E1 "0") (ESet [("1"%char, "9"%char)])) with (ECat (E1 (digit 0)) (ESet [(digit 1, digit 9)])).
  split.
  - intros [H|[(w1 & w2 & -> & H1 & H2)|(w1 & w2 & -> & H1 & H2)]].
    + apply two_digits_lang in H as (n & Hn & ->); try lia. exists n. split; [lia|done].
    + apply eset_digit in H2 as (k & -> & Hk); [|done..]. change (code "0") with 48 in Hk.
      change (code "9") with 57 in Hk.
      apply eset2_digit in H1 as [-> | ->]; [exists (10 * 1 + k)|exists (10 * 2 + k)];
        (split; [lia|]); by rewrite pad2_split by lia.
    + apply e1_digit in H1 as ->. apply eset2_digit in H2 as [-> | ->]; [exists 30|exists 31]; (split; [lia|done]).
  - intros (d & Hd & ->). destruct (decide (d ≤ 9)).
    { left. apply two_digits_conv; lia. }
    right. destruct (decide (d ≤ 29)).
    + left. destruct (decide (d ≤ 19)).
      * replace d with (10 * 1 + (d - 10)) by lia. rewrite pad2_split by lia.
        exists [digit 1], [digit (d - 10)]. split_and!; [done|by exists "1"%char|].
        apply eset_digit_conv; [lia|]. change (code "0") with 48. change (code "9") with 57. lia.
      * replace d with (10 * 2 + (d - 20)) by lia. rewrite pad2_split by lia.
        exists [digit 2], [digit (d - 20)]. split_and!; [done|by exists "2"%char|].
        apply eset_digit_conv; [lia|]. change (code "0") with 48. change (code "9") with 57. lia.
    + right. assert (d = 30 ∨ d = 31) as [-> | ->] by lia.
      * exists (lit "3"), (lit "0"). split_and!; [done|by exists "3"%char|by exists "0"%char].
      * exists (lit "3"), (lit "1"). split_and!; [done|by exists "3"%char|by exists "1"%char].
Qed.

Lemma year_spec w :
  ere_lang (erep 4 (ESet [("0"%char, "9"%char)])) w ↔ ∃ y, 0 ≤ y ≤ 9999 ∧ w = pad4 y.
Proof.
  cbn [erep ere_lang]. split.
  - intros (w1 & r1 & -> & H1 & w2 & r2 & -> & H2 & w3 & r3 & -> & H3 & w4 & r4 & -> & H4 & ->).
    fold (ere_lang (ESet [("0"%char, "9"%char)]) w1) in H1. fold (ere_lang (ESet [("0"%char, "9"%char)]) w2) in H2.
    fold (ere_lang (ESet [("0"%char, "9"%char)]) w3) in H3. fold (ere_lang (ESet [("0"%char, "9"%char)]) w4) in H4.
    apply eset_digit in H1 as (a & -> & Ha), H2 as (b & -> & Hb), H3 as (c & -> & Hc), H4 as (d & -> & Hd); [|done..].
    change (code "0") with 48 in *. change (code "9") with 57 in *.
    exists (100 * (10 * a + b) + (10 * c + d)). split; [lia|]. unfold pad4.
    rewrite <- (Z.div_unique (100 * (10 * a + b) + (10 * c + d)) 100 (10 * a + b) (10 * c + d)),
      <- (Z.mod_unique (100 * (10 * a + b) + (10 * c + d)) 100 (10 * a + b) (10 * c + d)) by lia.
    rewrite !pad2_split by lia. done.
  - intros (y & Hy & ->). pose proof (Z.div_pos y 100). pose proof (Z.mod_pos_bound y 100).
    assert (y / 100 ≤ 99) by (apply Z.lt_succ_r, Z.div_lt_upper_bound; lia).
    assert (Hd : ∀ n, 0 ≤ n ≤ 99 → 0 ≤ n / 10 ≤ 9 ∧ 0 ≤ n mod 10 ≤ 9).
    { intros n Hn. pose proof (Z.div_pos n 10). pose proof (Z.mod_pos_bound n 10).
      assert (n / 10 < 10) by (apply Z.div_lt_upper_bound; lia). lia. }
    destruct (Hd (y / 100)), (Hd (y mod 100)); [lia..|].
    assert (Hk : ∀ k, 0 ≤ k ≤ 9 → ∃ c, [digit k] = [c] ∧ in_set [("0"%char, "9"%char)] c = true).
    { intros k Hk. apply (eset_digit_conv "0"%char "9"%char k Hk).
      change (code "0") with 48. change (code "9") with 57. lia. }
    unfold pad4, pad2. cbn [app].
    eexists [_], _. split; [reflexivity|]. split; [by apply Hk|].
    eexists [_], _. split; [reflexivity|]. split; [by apply Hk|].
    eexists [_], _. split; [reflexivity|]. split; [by apply Hk|].
    eexists [_], _. split; [reflexivity|]. split; [by apply Hk|done].
Qed.

Lemma date_pattern_spec w :
  ere_lang ADDB_DATE_PARTITION_PATTERN w ↔
  ∃ y m d, 0 ≤ y ≤ 9999 ∧ 1 ≤ m ≤ 12 ∧ 1 ≤ d ≤ 31 ∧ w = date_text y m d.
Proof.
  unfold ADDB_DATE_PARTITION_PATTERN. fold ere_month ere_day. split.
  - intros (wy & w1 & -> & Hy & wa & w2 & -> & Ha & wm & w3 & -> & Hm & wb & wd & -> & Hb & Hd).
    apply year_spec in Hy as (y & ? & ->). apply month_spec in Hm as (m & ? & ->).
    apply day_spec in Hd as (d & ? & ->). apply e1_digit in Ha as ->. apply e1_digit in Hb as ->.
    by exists y, m, d.
  - intros (y & m & d & Hy & Hm & Hd & ->).
    exists (pad4 y), (lit "-" ++ pad2 m ++ lit "-" ++ pad2 d). split; [done|].
    split; [apply year_spec; eauto|]. exists (lit "-"), (pad2 m ++ lit "-" ++ pad2 d). split; [done|].
    split; [apply e1_conv|]. exists (pad2 m), (lit "-" ++ pad2 d). split; [done|].
    split; [apply month_spec; eauto|]. exists (lit "-"), (pad2 d). split; [done|].
    split; [apply e1_conv|apply day_spec; eauto].
Qed.

Lemma u2s_snoc n k : 1 ≤ n → 0 ≤ k < 10 → u2s (10 * n + k) = u2s n ++ [digit k].
Proof.
  intros Hn Hk. rewrite u2s_eq by lia. destruct (Z.ltb_spec (10 * n + k) 10); [lia|].
  by rewrite <- (Z.div_unique (10 * n + k) 10 n k), <- (Z.mod_unique (10 * n + k) 10 n k) by lia.
Qed.

Lemma u2s_pad2 n k : 1 ≤ n → 0 ≤ k < 100 → u2s (100 * n + k) = u2s n ++ pad2 k.
Proof.
  intros Hn Hk. pose proof (Z.div_mod k 10). pose proof (Z.mod_pos_bound k 10).
  assert (0 ≤ k / 10 < 10) by (split; [apply Z.div_pos; lia|apply Z.div_lt_upper_bound; lia]).
  replace (100 * n + k) with (10 * (10 * n + k / 10) + k mod 10) by lia.
  rewrite !u2s_snoc by lia. by rewrite <- app_assoc.
Qed.

Lemma pad2_u2s n : 10 ≤ n < 100 → pad2 n = u2s n.
Proof.
  intros Hn. pose proof (Z.div_mod n 10). pose proof (Z.mod_pos_bound n 10).
  assert (1 ≤ n / 10 < 10) by (split; [apply Z.div_le_lower_bound; lia|apply Z.div_lt_upper_bound; lia]).
  rewrite u2s_eq by lia. destruct (Z.ltb_spec n 10); [lia|]. rewrite u2s_eq by lia.
  by destruct (Z.ltb_spec (n / 10) 10); [|lia].
Qed.

Lemma date_digits y m d :
  1000 ≤ y ≤ 9999 → 0 ≤ m < 100 → 0 ≤ d < 100 →
  pad4 y ++ pad2 m ++ pad2 d = d2s (10000 * y + 100 * m + d).
Proof.
  intros Hy Hm Hd. unfold d2s. destruct (Z.ltb_spec (10000 * y + 100 * m + d) 0); [lia|].
  replace (10000 * y + 100 * m + d) with (100 * (100 * y + m) + d) by lia. rewrite !u2s_pad2 by lia.
  pose proof (Z.div_mod y 100). pose proof (Z.mod_pos_bound y 100).
  assert (10 ≤ y / 100 < 100) by (split; [apply Z.div_le_lower_bound; lia|apply Z.div_lt_upper_bound; lia]).
  replace y with (100 * (y / 100) + y mod 100) at 2 by lia. rewrite u2s_pad2 by lia.
  unfold pad4. rewrite pad2_u2s by lia. by rewrite <- !app_assoc.
Qed.

Lemma pad2_no n c : 0 ≤ n < 100 → numeral_byte c = false ∨ c = "-"%char → c ∉ pad2 n.
Proof.
  intros Hn Hc Hin. unfold pad2 in Hin.
  assert (0 ≤ n / 10 < 10) by (split; [apply Z.div_pos; lia|apply Z.div_lt_upper_bound; lia]).
  pose proof (Z.mod_pos_bound n 10).
  assert (Hd : is_digit c = true).
  { rewrite elem_of_cons, list_elem_of_singleton in Hin.
    destruct Hin as [-> | ->]; apply is_digit_digit; lia. }
  destruct Hc as [Hc| ->]; [|done]. unfold numeral_byte in Hc. by rewrite Hd in Hc.
Qed.

Lemma pad4_no n c : 0 ≤ n ≤ 9999 → numeral_byte c = false ∨ c = "-"%char → c ∉ pad4 n.
Proof.
  intros Hn Hc. pose proof (Z.mod_pos_bound n 100). unfold pad4. rewrite elem_of_app. intros [H'|H']; revert H'.
  - apply pad2_no; [|done]. split; [apply Z.div_pos; lia|apply Z.div_lt_upper_bound; lia].
  - apply pad2_no; [lia|done].
Qed.

Lemma date_text_nonul y m d :
  0 ≤ y ≤ 9999 → 0 ≤ m < 100 → 0 ≤ d < 100 → nonul (date_text y m d).
Proof.
  intros Hy Hm Hd. unfold date_text, nonul. rewrite !not_elem_of_app.
  split_and!; [apply pad4_no|by apply (bool_decide_unpack _)|apply pad2_no|by apply (bool_decide_unpack _)|apply pad2_no];
    (done || lia || by left).
Qed.

Lemma split_date y m d :
  0 ≤ y ≤ 9999 → 0 ≤ m < 100 → 0 ≤ d < 100 →
  sdssplit (date_text y m d) ADDB_DATE_PARTITION_TOKEN = Some [pad4 y; pad2 m; pad2 d].
Proof.
  intros Hy Hm Hd. unfold sdssplit, sdssplitlen. change (cstr ADDB_DATE_PARTITION_TOKEN) with ["-"%char].
  assert (E : date_text y m d = sdsjoinsds [pad4 y; pad2 m; pad2 d] ["-"%char])
    by (by rewrite !sdsjoinsds_cons by done).
  cbn [length Nat.ltb Nat.leb]. destruct (Nat.eqb_spec (length (date_text y m d)) 0) as [H0|_].
  { unfold date_text, pad4, pad2 in H0. simpl in H0. lia. }
  f_equal. rewrite E. apply (split_loop_join_inv "-"%char [pad4 y; pad2 m; pad2 d] _ [] []); [done| |lia].
  repeat constructor; [apply pad4_no|apply pad2_no|apply pad2_no]; (lia || by right).
Qed.

(** The join of the three parts is a numeral exactly when the year has no
    leading zero. *)
Lemma string2l_date y m d :
  0 ≤ y ≤ 9999 → 0 ≤ m < 100 → 0 ≤ d < 100 →
  string2l (pad4 y ++ pad2 m ++ pad2 d) =
    (if y <? 1000 then None else Some (10000 * y + 100 * m + d)).
Proof.
  intros Hy Hm Hd. rewrite string2l_string2ll. destruct (Z.ltb_spec y 1000) as [Hlt|Hge].
  - destruct (string2ll _) as [z|] eqn:E; [|done]. apply string2ll_iff in E as [E _]. exfalso.
    assert (Hh : pad4 y = digit 0 :: tail (pad4 y)).
    { unfold pad4, pad2. cbn [tail app]. do 2 f_equal. rewrite Z.div_div by lia. apply Z.div_small. lia. }
    rewrite Hh in E. cbn [app] in E. unfold d2s in E. destruct (Z.ltb_spec z 0) as [Hz|Hz]; [discriminate E|].
    destruct (decide (z = 0)) as [->|Hz0]; [discriminate E|].
    destruct (u2s_head z) as (k & t & Ek & Hk); [lia|]. rewrite Ek in E. injection E as E _.
    apply (f_equal digit_val) in E. rewrite !digit_val_digit in E by lia. lia.
  - rewrite date_digits by lia. apply string2ll_iff. split; [done|]. unfold LLONG_MIN, LLONG_MAX. lia.
Qed.

Lemma dateStrToInteger_spec s z :
  dateStrToInteger s = Some z ↔
  ∃ y m d, 1000 ≤ y ≤ 9999 ∧ 1 ≤ m ≤ 12 ∧ 1 ≤ d ≤ 31 ∧ cstr s = date_text y m d ∧
           z = 10000 * y + 100 * m + d.
Proof.
  unfold dateStrToInteger.
  assert (Hdate : ∀ y m d, 0 ≤ y ≤ 9999 → 1 ≤ m ≤ 12 → 1 ≤ d ≤ 31 → cstr s = date_text y m d →
    match sdssplit (cstr s) ADDB_DATE_PARTITION_TOKEN with
    | None => None
    | Some tokens => if negb (length tokens =? 3)%nat then None else string2l (sdsjoinsds tokens [])
    end = (if y <? 1000 then None else Some (10000 * y + 100 * m + d))).
  { intros y m d Hy Hm Hd ->. rewrite split_date by lia. cbn [length Nat.eqb negb].
    rewrite !sdsjoinsds_cons by done. change (sdsjoinsds [pad2 d] []) with (pad2 d). cbn [app].
    apply string2l_date; lia. }
  destruct (Z.eqb_spec (stringmatchregex ADDB_DATE_PARTITION_PATTERN s) 0) as [H0|H1].
  - split; [done|]. intros (y & m & d & Hy & Hm & Hd & E & _). exfalso.
    assert (stringmatchregex ADDB_DATE_PARTITION_PATTERN s = 1); [|lia].
    apply stringmatchregex_spec, date_pattern_spec. exists y, m, d. split_and!; (done || lia).
  - assert (Hm1 : stringmatchregex ADDB_DATE_PARTITION_PATTERN s = 1).
    { unfold stringmatchregex in *. by destruct (existsb _ _). }
    apply stringmatchregex_spec, date_pattern_spec in Hm1 as (y & m & d & Hy & Hm & Hd & E).
    rewrite (Hdate y m d) by done. destruct (Z.ltb_spec y 1000) as [Hlt|Hge].
    + split; [done|]. intros (y' & m' & d' & Hy' & Hm' & Hd' & E' & _). exfalso.
      rewrite E in E'. unfold date_text in E'.
      apply (f_equal (take 4)) in E'. change (pad4 y = pad4 y') in E'.
      pose proof (string2l_date y 1 1 Hy ltac:(lia) ltac:(lia)) as S1.
      rewrite E', string2l_date in S1 by lia.
      destruct (Z.ltb_spec y' 1000), (Z.ltb_spec y 1000); (lia || discriminate S1).
    + split; [intros [= <-]; exists y, m, d; split_and!; (done || lia)|].
      intros (y' & m' & d' & Hy' & Hm' & Hd' & E' & ->).
      pose proof (Hdate y m d Hy Hm Hd E) as A. rewrite (Hdate y' m' d') in A by (done || lia).
      by destruct (Z.ltb_spec y' 1000), (Z.ltb_spec y 1000); [lia..|].
Qed.

(** A numeral is not a date, so it is classified by its value. *)
Lemma classify_d2s z : LLONG_MIN ≤ z ≤ LLONG_MAX → classify (d2s z) = VLong z.
Proof.
  intros Hz. unfold classify. destruct (dateStrToInteger (d2s z)) as [l|] eqn:E.
  - exfalso. apply dateStrToInteger_spec in E as (y & m & d & Hy & _ & _ & E & _).
    rewrite (cstr_nonul _ (d2s_nonul z)) in E.
    assert (H4 : d2s z !! 4%nat = Some "-"%char) by (by rewrite E).
    unfold d2s in H4. destruct (Z.ltb_spec z 0) as [H|H]; [cbn [lookup list_lookup] in H4|];
      apply list_elem_of_lookup_2 in H4;
      (pose proof (u2s_digits (Z.abs z) ltac:(lia)) as Hu; rewrite Forall_forall in Hu).
    + replace (Z.abs z) with (- z) in Hu by lia. by apply Hu in H4.
    + replace (Z.abs z) with z in Hu by lia. by apply Hu in H4.
  - rewrite (cstr_nonul _ (d2s_nonul z)), string2l_string2ll.
    assert (string2ll (d2s z) = Some z) as ->; [by apply string2ll_iff|done].
Qed.
