(* ===== verification/FilterSpec.v ===== *)
(** What a partition filter means: filter expressions, the statement text they
    are sent as, and their value on the partition values of a meta key.  The
    parser and the evaluator of [Filter] are proved to implement it. *)

From S2P Require Import Prelude CString Util Glob Sds Vector Keys Filter.

(** * Filter expressions *)

Inductive cmp := CEq | CLt | CLte | CGt | CGte | CContains | CEndsWith | CStartsWith.

Inductive fexpr :=
| FAnd (a b : fexpr)
| FOr (a b : fexpr)
| FNot (a : fexpr)
| FIsNull (col : Z)
| FIsNotNull (col : Z)
| FCmp (c : cmp) (col : Z) (tok : bytes).

Definition cmp_op (c : cmp) : Z :=
  match c with
  | CEq => CONDITION_OP_TYPE_EQ
  | CLt => CONDITION_OP_TYPE_LT
  | CLte => CONDITION_OP_TYPE_LTE
  | CGt => CONDITION_OP_TYPE_GT
  | CGte => CONDITION_OP_TYPE_GTE
  | CContains => CONDITION_OP_TYPE_STRING_CONTAINS
  | CEndsWith => CONDITION_OP_TYPE_STRING_ENDS_WITH
  | CStartsWith => CONDITION_OP_TYPE_STRING_STARTS_WITH
  end.

Definition op_name (op : Z) : bytes := default [] (_getOperatorStr op).

(** The statement: postfix, one condition between colons, operands and operator
    of a condition between stars. *)
Fixpoint fstmts (e : fexpr) : list bytes :=
  match e with
  | FAnd a b => fstmts a ++ fstmts b ++ [lit "And"]
  | FOr a b => fstmts a ++ fstmts b ++ [lit "Or"]
  | FNot a => fstmts a ++ [lit "Not"]
  | FIsNull col => [d2s col ++ lit "*IsNull"]
  | FIsNotNull col => [d2s col ++ lit "*IsNotNull"]
  | FCmp c col tok => [tok ++ lit "*" ++ d2s col ++ lit "*" ++ op_name (cmp_op c)]
  end.
Definition ftext (e : fexpr) : bytes := sdsjoinsds (fstmts e) (lit ":").

(** The tree the parser builds. *)
Fixpoint compile (e : fexpr) : Condition :=
  match e with
  | FAnd a b => mkCond CONDITION_OP_TYPE_AND 2 false (Some (ChildCond (compile b))) (Some (ChildCond (compile a)))
  | FOr a b => mkCond CONDITION_OP_TYPE_OR 2 false (Some (ChildCond (compile b))) (Some (ChildCond (compile a)))
  | FNot a => mkCond CONDITION_OP_TYPE_NOT 1 false (Some (ChildCond (compile a))) None
  | FIsNull col => mkCond CONDITION_OP_TYPE_IS_NULL 1 true (Some (ChildLong col)) None
  | FIsNotNull col => mkCond CONDITION_OP_TYPE_IS_NOT_NULL 1 true (Some (ChildLong col)) None
  | FCmp c col tok =>
      mkCond (cmp_op c) 2 true (Some (ChildLong col)) (Some (child_of (classify tok)))
  end.

(** Operands: non-empty strings without the two separators. *)
Definition wf_operand (t : bytes) : Prop := t ≠ [] ∧ nonul t ∧ ("*"%char ∉ t) ∧ (":"%char ∉ t).

(** The pattern operators take their operand literally when it holds no glob
    character. *)
Definition plain (t : bytes) : Prop := forallb (fun c => negb (special c)) t = true.

Fixpoint wf_expr (e : fexpr) : Prop :=
  match e with
  | FAnd a b | FOr a b => wf_expr a ∧ wf_expr b
  | FNot a => wf_expr a
  | FIsNull col | FIsNotNull col => LLONG_MIN ≤ col ≤ LLONG_MAX
  | FCmp c col tok =>
      LLONG_MIN ≤ col ≤ LLONG_MAX ∧ wf_operand tok ∧
      match c with CContains | CEndsWith | CStartsWith => plain tok | _ => True end
  end.

(** * Meaning *)

Definition same_type (v w : value) : bool :=
  match v, w with VLong _, VLong _ | VSds _, VSds _ => true | _, _ => false end.

Definition starts_with (s t : bytes) : bool := bool_decide (s `prefix_of` t).
Definition ends_with (s t : bytes) : bool := bool_decide (s `suffix_of` t).
Definition contains (s t : bytes) : bool := some_suffix (starts_with s) t.

(** [p] is the value of the partition, [v] the operand of the filter. *)
Definition fcmp (c : cmp) (p v : value) : bool :=
  match p, v with
  | VLong a, VLong b =>
      match c with
      | CEq => a =? b | CLt => a <? b | CLte => a <=? b | CGt => b <? a | CGte => b <=? a
      | _ => false
      end
  | VSds a, VSds b =>
      match c with
      | CEq => bool_decide (a = b)
      | CContains => contains b a
      | CEndsWith => ends_with b a
      | CStartsWith => starts_with b a
      | _ => false
      end
  | _, _ => false
  end.

(** A leaf is decided by the first partition value of its column (and, for a
    comparison, of the operand's type); without one it does not exclude the
    partition. *)
Fixpoint feval (e : fexpr) (ps : list PartitionParameter) : bool :=
  match e with
  | FAnd a b => feval a ps && feval b ps
  | FOr a b => feval a ps || feval b ps
  | FNot a => negb (feval a ps)
  | FIsNull col => negb (existsb (fun p => columnId p =? col) ps)
  | FIsNotNull col => true
  | FCmp c col tok =>
      match find (fun p => (columnId p =? col) && same_type (pvalue p) (classify tok)) ps with
      | None => true
      | Some p => fcmp c (pvalue p) (classify tok)
      end
  end.

(** The partition of a key: column ids and value texts. *)
Definition ptokens (ps : list (Z * bytes)) : list bytes :=
  concat (map (fun p => [d2s p.1; p.2]) ps).
Definition ptext (ps : list (Z * bytes)) : bytes := sdsjoinsds (ptokens ps) (lit ":").
Definition param_of (p : Z * bytes) : PartitionParameter := mkParam p.1 (classify p.2).
Definition wf_ps (ps : list (Z * bytes)) : Prop :=
  ps ≠ [] ∧
  Forall (fun p => INT_MIN ≤ p.1 ≤ INT_MAX ∧ p.2 ≠ [] ∧ nonul p.2 ∧ (":"%char ∉ p.2) ∧ ("}"%char ∉ p.2)) ps.

(** * The stack *)

Definition stack_rep (s : Stack item) (l : list item) : Prop := vector_rep (s_data s) (map Some l).

Lemma stackPush_rep s l d :
  stack_rep s l → Z.of_nat (length l) + 10 < 2 ^ 60 →
  ∃ s', stackPush s (Some d) = Ok (C_OK, s') ∧ stack_rep s' (l ++ [d]).
Proof.
  intros Hr Hl. unfold stackPush.
  destruct (vectorAdd_rep _ _ (Some d) Hr) as (v & -> & Hr' & _); [by rewrite length_map|].
  res_step. eexists. split; [done|]. unfold stack_rep. cbn [s_data]. by rewrite map_app.
Qed.

Lemma stackPop_rep s l d :
  stack_rep s (l ++ [d]) → ∃ s', stackPop s = Ok (Some d, s') ∧ stack_rep s' l.
Proof.
  unfold stack_rep. rewrite map_app. intros Hr. unfold stackPop.
  destruct (vectorPop_rep _ _ _ Hr) as (v & -> & Hr'). res_step. eexists. by split.
Qed.

Lemma stackCount_rep s l : stack_rep s l → stackCount s = Z.of_nat (length l).
Proof. intros (_ & Hc & _). unfold stackCount. by rewrite Hc, length_map. Qed.

Lemma pop_child_rep s l c :
  stack_rep s (l ++ [ItemChild c]) → ∃ s', pop_child s = Ok (Some c, s') ∧ stack_rep s' l.
Proof.
  intros Hr. unfold pop_child. destruct (stackPop_rep _ _ _ Hr) as (s' & -> & Hr').
  res_step. cbn [fst snd]. eauto.
Qed.
Lemma pop_cond_rep s l c :
  stack_rep s (l ++ [ItemCond c]) → ∃ s', pop_cond s = Ok (Some c, s') ∧ stack_rep s' l.
Proof.
  intros Hr. unfold pop_cond. destruct (stackPop_rep _ _ _ Hr) as (s' & -> & Hr').
  res_step. cbn [fst snd]. eauto.
Qed.

Lemma stackInit_rep : stack_rep stackInit [].
Proof. unfold stack_rep. exact (vectorTypeInit_rep 0). Qed.

(** * Parsing one condition *)

Lemma no_star_avoid t : "*"%char ∉ t → Forall (.∉ PARTITION_FILTER_OPERAND_DELIMITER) t.
Proof. intros H. apply Forall_forall. intros c Hc Hin. unfold PARTITION_FILTER_OPERAND_DELIMITER in Hin. set_solver. Qed.
Lemma no_colon_avoid t : ":"%char ∉ t → Forall (.∉ PARTITION_FILTER_OPERATOR_DELIMITER) t.
Proof. intros H. apply Forall_forall. intros c Hc Hin. unfold PARTITION_FILTER_OPERATOR_DELIMITER in Hin. set_solver. Qed.

Lemma operand_loop_step f tok rest s l cnt :
  rest ≠ [] → stack_rep s l → Z.of_nat (length l) + 10 < 2 ^ 60 →
  ∃ s', stack_rep s' (l ++ [ItemChild (child_of (classify tok))]) ∧
    operand_loop (S f) (Some tok) rest s cnt =
      (let '(token', savePtr') := strtok_r rest PARTITION_FILTER_OPERAND_DELIMITER in
       operand_loop f token' savePtr' s' (cnt + 1)).
Proof.
  intros Hne Hr Hl. destruct (stackPush_rep s l (ItemChild (child_of (classify tok))) Hr Hl) as (s' & E & Hr').
  exists s'. split; [done|]. cbn [operand_loop]. destruct rest; [done|]. cbn [deref]. res_step.
  rewrite E. res_step. done.
Qed.

Lemma op_name_facts op :
  op ∈ [1; 2; 3; 4; 5; 6; 7; 8; 9; 10; 11; 12; 13] →
  op_name op ≠ [] ∧ nonul (op_name op) ∧ ("*"%char ∉ op_name op) ∧ (":"%char ∉ op_name op) ∧
  _getOperatorType (op_name op) = op.
Proof.
  revert op. apply (proj1 (Forall_forall _ _)).
  repeat constructor; by apply (bool_decide_unpack _).
Qed.

Lemma cmp_op_in c : cmp_op c ∈ [1; 2; 3; 4; 5; 6; 7; 8; 9; 10; 11; 12; 13].
Proof. destruct c; by apply (bool_decide_unpack _). Qed.

Lemma strtok_star tok rest :
  tok ≠ [] → "*"%char ∉ tok →
  strtok_r (tok ++ lit "*" ++ rest) PARTITION_FILTER_OPERAND_DELIMITER = (Some tok, rest).
Proof. intros Hne Hs. apply strtok_r_token; [done|by apply no_star_avoid|set_solver]. Qed.

Lemma strtok_star_last tok :
  tok ≠ [] → "*"%char ∉ tok → strtok_r tok PARTITION_FILTER_OPERAND_DELIMITER = (Some tok, []).
Proof. intros Hne Hs. apply strtok_r_last; [done|by apply no_star_avoid]. Qed.

(** The part of [createCondition] after the operand loop. *)
Lemma createCondition_binary op col tok s l :
  op ∈ [4; 5; 6; 7; 8; 11; 12; 13] → LLONG_MIN ≤ col ≤ LLONG_MAX → wf_operand tok →
  (length (tok ++ lit "*" ++ d2s col ++ lit "*" ++ op_name op) < MAX_TMPBUF_SIZE)%nat →
  stack_rep s l → Z.of_nat (length l) + 20 < 2 ^ 60 →
  ∃ s', createCondition (tok ++ lit "*" ++ d2s col ++ lit "*" ++ op_name op) s =
          Ok (Some (mkCond op 2 true (Some (ChildLong col)) (Some (child_of (classify tok)))), s')
        ∧ stack_rep s' l.
Proof.
  intros Hop Hcol (Hne & _ & Hstar & _) Hlen Hr Hl.
  destruct (op_name_facts op) as (Hn1 & _ & Hn2 & _ & Hty); [set_solver|].
  unfold createCondition. match goal with |- context [(MAX_TMPBUF_SIZE <? ?n)%nat] =>
    destruct (Nat.ltb_spec MAX_TMPBUF_SIZE n) as [H|_]; [lia|] end.
  rewrite strtok_star by done. revert Hlen. set (raw := tok ++ lit "*" ++ d2s col ++ lit "*" ++ op_name op).
  intros Hlen. assert (Hfuel : ∃ f, length raw = S (S f)).
  { exists (length raw - 2)%nat. subst raw. rewrite !length_app. simpl.
    pose proof (d2s_nonempty col). destruct (d2s col); simpl; [done|lia]. }
  destruct Hfuel as [f ->].
  destruct (operand_loop_step (S f) tok (d2s col ++ lit "*" ++ op_name op) s l 0) as (s1 & Hr1 & ->);
    [pose proof (d2s_nonempty col); by destruct (d2s col)|done|lia|].
  rewrite strtok_star by (apply d2s_nonempty || by apply d2s_no).
  destruct (operand_loop_step f (d2s col) (op_name op) s1 _ (0 + 1) Hn1 Hr1) as (s2 & Hr2 & ->);
    [rewrite length_app; simpl; lia|].
  rewrite strtok_star_last by done.
  replace (operand_loop f (Some (op_name op)) [] s2 (0 + 1 + 1)) with (Ok (Some (op_name op), s2, 2))
    by (by destruct f).
  res_step. cbn [deref]. res_step. rewrite Hty.
  assert (Hc : _getOperatorOperandCount op = 2 ∧ (op =? -1) = false).
  { revert op Hop Hn1 Hn2 Hty Hr2 raw Hlen. clear. intros op Hop _ _ _ _ _ _. revert op Hop.
    apply (proj1 (Forall_forall _ _)). repeat constructor. }
  destruct Hc as [-> ->]. cbn [Z.gtb Z.compare Z.eqb negb Pos.eqb].
  rewrite classify_d2s in Hr2 by done. cbn [child_of] in Hr2.
  destruct (pop_child_rep _ _ _ Hr2) as (s3 & -> & Hr3). res_step. cbn [deref]. res_step.
  destruct (pop_child_rep _ _ _ Hr3) as (s4 & -> & Hr4). res_step. eauto.
Qed.

Lemma createCondition_null op col s l :
  op ∈ [9; 10] → LLONG_MIN ≤ col ≤ LLONG_MAX →
  (length (d2s col ++ lit "*" ++ op_name op) < MAX_TMPBUF_SIZE)%nat →
  stack_rep s l → Z.of_nat (length l) + 20 < 2 ^ 60 →
  ∃ s', createCondition (d2s col ++ lit "*" ++ op_name op) s =
          Ok (Some (mkCond op 1 true (Some (ChildLong col)) None), s')
        ∧ stack_rep s' l.
Proof.
  intros Hop Hcol Hlen Hr Hl.
  destruct (op_name_facts op) as (Hn1 & _ & Hn2 & _ & Hty); [set_solver|].
  unfold createCondition. match goal with |- context [(MAX_TMPBUF_SIZE <? ?n)%nat] =>
    destruct (Nat.ltb_spec MAX_TMPBUF_SIZE n) as [H|_]; [lia|] end.
  rewrite strtok_star by (apply d2s_nonempty || by apply d2s_no).
  destruct (length (d2s col ++ lit "*" ++ op_name op)) as [|f] eqn:Ef.
  { pose proof (d2s_nonempty col). by destruct (d2s col). }
  destruct (operand_loop_step f (d2s col) (op_name op) s l 0 Hn1 Hr) as (s2 & Hr2 & ->); [lia|].
  rewrite strtok_star_last by done.
  replace (operand_loop f (Some (op_name op)) [] s2 (0 + 1)) with (Ok (Some (op_name op), s2, 1))
    by (by destruct f).
  res_step. cbn [deref]. res_step. rewrite Hty.
  assert (Hc : _getOperatorOperandCount op = 1 ∧ (op =? -1) = false)
    by (clear -Hop; revert op Hop; apply (proj1 (Forall_forall _ _)); repeat constructor).
  destruct Hc as [-> ->]. cbn [Z.gtb Z.compare Z.eqb negb Pos.eqb].
  rewrite classify_d2s in Hr2 by done. cbn [child_of] in Hr2.
  destruct (pop_child_rep _ _ _ Hr2) as (s3 & -> & Hr3). res_step. cbn [deref]. res_step.
  res_step. eauto.
Qed.

(** The connectives: no operands in the text, conditions on the stack. *)
Lemma createCondition_connective op s l (cs : list Condition) :
  op ∈ [1; 2; 3] → length cs = Z.to_nat (_getOperatorOperandCount op) →
  stack_rep s (l ++ map ItemCond cs) → Z.of_nat (length l) + 20 < 2 ^ 31 →
  ∃ s', createCondition (op_name op) s =
          Ok (match cs with
              | [a; b] => Some (mkCond op 2 false (Some (ChildCond b)) (Some (ChildCond a)))
              | [a] => Some (mkCond op 1 false (Some (ChildCond a)) None)
              | _ => None
              end, s')
        ∧ stack_rep s' l.
Proof.
  intros Hop Hcs Hr Hl.
  destruct (op_name_facts op) as (Hn1 & _ & Hn2 & _ & Hty); [set_solver|].
  unfold createCondition. rewrite strtok_star_last by done.
  assert (Hc : (_getOperatorOperandCount op = 1 ∨ _getOperatorOperandCount op = 2) ∧ (op =? -1) = false
               ∧ (MAX_TMPBUF_SIZE <? S (length (op_name op)))%nat = false).
  { clear -Hop. revert op Hop. apply (proj1 (Forall_forall _ _)). by apply (bool_decide_unpack _). }
  destruct Hc as (Hcnt & Hm1 & ->).
  replace (operand_loop (length (op_name op)) (Some (op_name op)) [] s 0) with (Ok (Some (op_name op), s, 0))
    by (by destruct (length (op_name op))).
  res_step. cbn [deref]. res_step. rewrite Hty, Hm1. cbn [Z.gtb Z.compare].
  pose proof (stackCount_rep _ _ Hr) as Hsc. rewrite length_app, length_map in Hsc.
  rewrite Hsc, to_int_id by (unfold INT_MIN, INT_MAX; lia).
  destruct Hcnt as [Hcnt|Hcnt]; rewrite Hcnt in *;
    (match goal with |- context [Z.gtb ?a ?b] => destruct (Z.gtb_spec a b) as [H|_]; [lia|] end).
  - destruct cs as [|a [|b cs]]; [done| |done]. cbn [map] in Hr.
    destruct (pop_cond_rep _ _ _ Hr) as (s1 & -> & Hr1). res_step. cbn [deref]. res_step. cbn [Z.eqb Pos.eqb]. res_step. eauto.
  - destruct cs as [|a [|b [|c cs]]]; try done. cbn [map] in Hr.
    change [ItemCond a; ItemCond b] with ([ItemCond a] ++ [ItemCond b]) in Hr. rewrite app_assoc in Hr.
    destruct (pop_cond_rep _ _ _ Hr) as (s1 & -> & Hr1). res_step. cbn [deref]. res_step.
    cbn [Z.eqb Pos.eqb]. destruct (pop_cond_rep _ _ _ Hr1) as (s2 & -> & Hr2). res_step. cbn [fst snd deref].
    res_step. res_step. eauto.
Qed.

(** * Parsing the statement *)

(** The conditions of a statement, one after the other. *)
Fixpoint stmts_run (ts : list bytes) (s : Stack item) : res (option (Stack item)) :=
  match ts with
  | [] => Ok (Some s)
  | t :: ts' =>
      r ← createCondition t s;
      match r with
      | (None, _) => Ok None
      | (Some c, s) => r ← stackPush s (Some (ItemCond c)); stmts_run ts' r.2
      end
  end.

Lemma stmts_run_app a b s :
  stmts_run (a ++ b) s = (r ← stmts_run a s; match r with Some s => stmts_run b s | None => Ok None end).
Proof.
  revert s. induction a as [|t a IH]; intros s; cbn [app stmts_run]; [done|].
  destruct (createCondition t s) as [[[c|] s1]|]; [|done|done]. rewrite !bind_Ok_l. cbv beta iota.
  destruct (stackPush s1 (Some (ItemCond c))) as [[? s2]|]; [|done]. rewrite !bind_Ok_l. apply IH.
Qed.

Lemma statement_loop_run ts : ∀ fuel s,
  Forall (fun t => t ≠ [] ∧ ":"%char ∉ t) ts → (length ts ≤ fuel)%nat →
  (let '(tok, sp) := strtok_r (sdsjoinsds ts (lit ":")) PARTITION_FILTER_OPERATOR_DELIMITER in
   statement_loop fuel tok sp s) = stmts_run ts s.
Proof.
  induction ts as [|t ts IH]; intros fuel s Hts Hf.
  { change (sdsjoinsds [] (lit ":")) with (@nil ascii). rewrite strtok_r_nil. by destruct fuel. }
  inversion Hts as [|? ? [Hne Hc] Hts']; subst. destruct fuel as [|fuel]; [simpl in Hf; lia|].
  assert (E : strtok_r (sdsjoinsds (t :: ts) (lit ":")) PARTITION_FILTER_OPERATOR_DELIMITER =
              (Some t, sdsjoinsds ts (lit ":"))).
  { destruct (decide (ts = [])) as [->|Hts0].
    - change (sdsjoinsds [t] (lit ":")) with t. apply strtok_r_last; [done|by apply no_colon_avoid].
    - rewrite sdsjoinsds_cons by done. apply strtok_r_token; [done|by apply no_colon_avoid|set_solver]. }
  rewrite E. cbn [statement_loop stmts_run].
  destruct (createCondition t s) as [[[c|] s1]|]; [|done|done]. rewrite !bind_Ok_l. cbv beta iota.
  destruct (stackPush s1 (Some (ItemCond c))) as [[? s2]|]; [|done]. rewrite !bind_Ok_l.
  apply IH; [done|simpl in Hf; lia].
Qed.

Lemma fstmts_wf e : wf_expr e → Forall (fun t => t ≠ [] ∧ nonul t ∧ (":"%char ∉ t)) (fstmts e).
Proof.
  assert (Hcol : ∀ c, ":"%char ∉ d2s c) by (intros c; by apply d2s_no).
  induction e as [a IHa b IHb|a IHa b IHb|a IHa|col|col|c col tok]; intros Hw; cbn [fstmts wf_expr] in *.
  1-2: destruct Hw; repeat apply Forall_app_2; auto; repeat constructor; by apply (bool_decide_unpack _).
  1: apply Forall_app_2; [auto|]; repeat constructor; by apply (bool_decide_unpack _).
  1-2: constructor; [|done]; split_and!;
    [pose proof (d2s_nonempty col); by destruct (d2s col)
    |rewrite nonul_app; split; [apply d2s_nonul|by apply (bool_decide_unpack _)]
    |rewrite not_elem_of_app; split; [done|by apply (bool_decide_unpack _)]].
  destruct Hw as (_ & (Hne & Hnul & _ & Hc) & _).
  destruct (op_name_facts _ (cmp_op_in c)) as (_ & Hn & _ & Hoc & _).
  constructor; [|done]. rewrite !nonul_app, !not_elem_of_app.
  split_and!; try done; try apply d2s_nonul; try by apply (bool_decide_unpack _). by destruct tok.
Qed.

Lemma stmts_run_expr e : ∀ s l,
  wf_expr e → Forall (fun t => (length t < MAX_TMPBUF_SIZE)%nat) (fstmts e) →
  stack_rep s l → Z.of_nat (length l + length (fstmts e)) + 20 < 2 ^ 31 →
  ∃ s', stmts_run (fstmts e) s = Ok (Some s') ∧ stack_rep s' (l ++ [ItemCond (compile e)]).
Proof.
  assert (Hbin : ∀ op a b s l,
    op ∈ [1; 2] →
    (∀ s l, stack_rep s l → Z.of_nat (length l + length (fstmts a)) + 20 < 2 ^ 31 →
       ∃ s', stmts_run (fstmts a) s = Ok (Some s') ∧ stack_rep s' (l ++ [ItemCond (compile a)])) →
    (∀ s l, stack_rep s l → Z.of_nat (length l + length (fstmts b)) + 20 < 2 ^ 31 →
       ∃ s', stmts_run (fstmts b) s = Ok (Some s') ∧ stack_rep s' (l ++ [ItemCond (compile b)])) →
    stack_rep s l → Z.of_nat (length l + length (fstmts a ++ fstmts b ++ [op_name op])) + 20 < 2 ^ 31 →
    ∃ s', stmts_run (fstmts a ++ fstmts b ++ [op_name op]) s = Ok (Some s') ∧
      stack_rep s' (l ++ [ItemCond (mkCond op 2 false (Some (ChildCond (compile b))) (Some (ChildCond (compile a))))])).
  { intros op a b s l Hop IHa IHb Hr Hl. rewrite !length_app in Hl. simpl in Hl. rewrite !stmts_run_app.
    destruct (IHa s l Hr) as (s1 & -> & Hr1); [lia|]. res_step. rewrite stmts_run_app.
    destruct (IHb s1 _ Hr1) as (s2 & -> & Hr2); [rewrite length_app; simpl; lia|]. res_step.
    rewrite <- app_assoc in Hr2. cbn [stmts_run].
    destruct (createCondition_connective op s2 l [compile a; compile b]) as (s3 & -> & Hr3);
      [set_solver|by clear -Hop; revert op Hop; apply (proj1 (Forall_forall _ _)); repeat constructor|done|lia|].
    res_step. destruct (stackPush_rep s3 l
      (ItemCond (mkCond op 2 false (Some (ChildCond (compile b))) (Some (ChildCond (compile a)))))) as (s4 & -> & Hr4);
      [done|lia|]. res_step. eauto. }
  induction e as [a IHa b IHb|a IHa b IHb|a IHa|col|col|c col tok]; intros s l Hw Hlen Hr Hl;
    cbn [fstmts wf_expr compile] in *.
  - destruct Hw. rewrite !Forall_app in Hlen. destruct Hlen as (? & ? & _). apply (Hbin 1); auto. set_solver.
  - destruct Hw. rewrite !Forall_app in Hlen. destruct Hlen as (? & ? & _). apply (Hbin 2); auto. set_solver.
  - rewrite !Forall_app in Hlen. destruct Hlen as (? & _). rewrite length_app in Hl. simpl in Hl.
    rewrite stmts_run_app. destruct (IHa s l) as (s1 & -> & Hr1); [done|done|done|lia|]. res_step. cbn [stmts_run].
    destruct (createCondition_connective 3 s1 l [compile a]) as (s3 & E & Hr3); [set_solver|done|done|lia|].
    change (op_name 3) with (lit "Not") in E. rewrite E. res_step.
    destruct (stackPush_rep s3 l (ItemCond (mkCond 3 1 false (Some (ChildCond (compile a))) None))) as (s4 & -> & Hr4);
      [done|lia|]. res_step. eauto.
  - inversion Hlen as [|? ? Hlt _]; subst. cbn [stmts_run].
    destruct (createCondition_null 9 col s l) as (s1 & E & Hr1); [set_solver|done|done|done|lia|].
    change (lit "*" ++ op_name 9) with (lit "*IsNull") in E. rewrite E. res_step.
    destruct (stackPush_rep s1 l (ItemCond (mkCond 9 1 true (Some (ChildLong col)) None))) as (s2 & -> & ?);
      [done|lia|]. res_step. eauto.
  - inversion Hlen as [|? ? Hlt _]; subst. cbn [stmts_run].
    destruct (createCondition_null 10 col s l) as (s1 & E & Hr1); [set_solver|done|done|done|lia|].
    change (lit "*" ++ op_name 10) with (lit "*IsNotNull") in E. rewrite E. res_step.
    destruct (stackPush_rep s1 l (ItemCond (mkCond 10 1 true (Some (ChildLong col)) None))) as (s2 & -> & ?);
      [done|lia|]. res_step. eauto.
  - inversion Hlen as [|? ? Hlt _]; subst. cbn [stmts_run]. destruct Hw as (Hcol & Htok & _).
    destruct (createCondition_binary (cmp_op c) col tok s l) as (s1 & -> & Hr1);
      [destruct c; set_solver|done|done|done|done|lia|]. res_step.
    destruct (stackPush_rep s1 l (ItemCond (mkCond (cmp_op c) 2 true (Some (ChildLong col))
      (Some (child_of (classify tok)))))) as (s2 & -> & ?); [done|lia|]. res_step. eauto.
Qed.

Lemma joined_lengths (ts : list bytes) sep :
  sep ≠ [] → Forall (fun t => (length t ≤ length (sdsjoinsds ts sep))%nat) ts ∧
  (length ts ≤ S (length (sdsjoinsds ts sep)))%nat.
Proof.
  intros Hs. assert (Hl : (0 < length sep)%nat) by (destruct sep; [done|simpl; lia]).
  induction ts as [|t ts [IH1 IH2]]; [split; [constructor|simpl; lia]|].
  destruct (decide (ts = [])) as [->|Hne].
  - split; [repeat constructor|]; simpl; lia.
  - rewrite sdsjoinsds_cons by done. rewrite !length_app. split; [|simpl; lia].
    constructor; [lia|]. eapply Forall_impl; [exact IH1|]. simpl. lia.
Qed.

Lemma ftext_nonul e : wf_expr e → nonul (ftext e).
Proof.
  intros Hts%fstmts_wf. unfold ftext.
  induction Hts as [|t ts (Hne & Ht & _) Hts IH]; [by apply (bool_decide_unpack _)|].
  destruct (decide (ts = [])) as [->|Hts0]; [done|]. rewrite sdsjoinsds_cons, !nonul_app by done.
  split_and!; [done|by apply (bool_decide_unpack _)|done].
Qed.

Lemma parseStatement_ok e :
  wf_expr e → (S (length (ftext e)) ≤ MAX_TMPBUF_SIZE)%nat →
  parseStatement (ftext e) = Ok (C_OK, Some (compile e)).
Proof.
  intros Hw Hlen. unfold parseStatement.
  destruct (Nat.ltb_spec MAX_TMPBUF_SIZE (S (length (ftext e)))); [lia|].
  pose proof (fstmts_wf e Hw) as Hts. destruct (joined_lengths (fstmts e) (lit ":")) as [HL1 HL2]; [done|].
  fold (ftext e) in HL1, HL2.
  rewrite (cstr_nonul _ (ftext_nonul _ Hw)).
  pose proof (statement_loop_run (fstmts e) (S (length (ftext e))) stackInit) as E.
  fold (ftext e) in E. destruct (strtok_r (ftext e) PARTITION_FILTER_OPERATOR_DELIMITER) as [tok sp].
  unfold MAX_TMPBUF_SIZE in Hlen. rewrite E; [|eapply Forall_impl; [exact Hts|]; naive_solver|lia].
  destruct (stmts_run_expr e stackInit [] Hw) as (s & -> & Hr).
  { eapply Forall_impl; [exact HL1|]. unfold MAX_TMPBUF_SIZE. simpl. lia. }
  { apply stackInit_rep. }
  { simpl. lia. }
  res_step. rewrite (stackCount_rep _ _ Hr). cbn [app length Z.of_nat Z.eqb Pos.of_succ_nat Pos.eqb negb].
  destruct (pop_cond_rep _ _ _ Hr) as (s' & -> & _). done.
Qed.

(** * Parsing the partition values *)

Lemma strtok_colon tok rest :
  tok ≠ [] → ":"%char ∉ tok → strtok_r (tok ++ lit ":" ++ rest) RELMODEL_DELIMITER = (Some tok, rest).
Proof.
  intros Hne Hc. apply strtok_r_token; [done| |set_solver].
  apply Forall_forall. intros c Hin Hd. unfold RELMODEL_DELIMITER in Hd. set_solver.
Qed.
Lemma strtok_colon_last tok :
  tok ≠ [] → ":"%char ∉ tok → strtok_r tok RELMODEL_DELIMITER = (Some tok, []).
Proof.
  intros Hne Hc. apply strtok_r_last; [done|].
  apply Forall_forall. intros c Hin Hd. unfold RELMODEL_DELIMITER in Hd. set_solver.
Qed.

Lemma ptext_cons p ps :
  ps ≠ [] → ptext (p :: ps) = d2s p.1 ++ lit ":" ++ p.2 ++ lit ":" ++ ptext ps.
Proof.
  intros Hne. unfold ptext, ptokens. cbn [map concat app].
  rewrite sdsjoinsds_cons by done. rewrite sdsjoinsds_cons; [done|].
  destruct ps as [|q ps]; [done|]. done.
Qed.
Lemma ptext_single p : ptext [p] = d2s p.1 ++ lit ":" ++ p.2.
Proof. unfold ptext, ptokens. cbn [map concat app]. by rewrite sdsjoinsds_cons. Qed.

Lemma partition_loop_step f tok rest v :
  rest ≠ [] →
  partition_loop (S f) (Some tok) rest v =
    match strtok_r rest RELMODEL_DELIMITER with
    | (None, _) => Ok (C_ERR, v)
    | (Some val, savePtr) =>
        r ← vectorAdd v (Some (mkParam (atoi tok) (classify val)));
        let '(token', savePtr') := strtok_r savePtr RELMODEL_DELIMITER in
        partition_loop f token' savePtr' r.2
    end.
Proof. by destruct rest. Qed.

Lemma partition_loop_ok ps : ∀ fuel v l,
  Forall (fun p => INT_MIN ≤ p.1 ≤ INT_MAX ∧ p.2 ≠ [] ∧ (":"%char ∉ p.2)) ps →
  (length ps < fuel)%nat → vector_rep v (map Some l) → Z.of_nat (length l + length ps) + 20 < 2 ^ 60 →
  ps ≠ [] →
  ∃ v', (let '(tok, sp) := strtok_r (ptext ps) RELMODEL_DELIMITER in partition_loop fuel tok sp v)
          = Ok (C_OK, v') ∧ vector_rep v' (map Some (l ++ map param_of ps)).
Proof.
  induction ps as [|p ps IH]; intros fuel v l Hps Hf Hr Hl Hne; [done|].
  inversion Hps as [|? ? (Hi & Hv & Hc) Hps']; subst. destruct fuel as [|fuel]; [simpl in Hf; lia|].
  assert (Hcol : ":"%char ∉ d2s p.1) by (by apply d2s_no).
  simpl in Hl, Hf. destruct (decide (ps = [])) as [->|Hps0].
  - rewrite ptext_single, strtok_colon by (done || apply d2s_nonempty).
    rewrite partition_loop_step, strtok_colon_last, atoi_d2s_nil by done.
    destruct (vectorAdd_rep v _ (Some (param_of p)) Hr) as (v1 & E1 & Hr1 & _); [rewrite length_map; simpl; lia|].
    unfold param_of in E1 at 1. rewrite E1. res_step. cbn [snd]. rewrite strtok_r_nil. exists v1. split; [by destruct fuel|].
    rewrite map_app. done.
  - rewrite ptext_cons, strtok_colon by (done || apply d2s_nonempty).
    rewrite partition_loop_step, strtok_colon, atoi_d2s_nil by (done || by destruct p.2).
    destruct (vectorAdd_rep v _ (Some (param_of p)) Hr) as (v1 & E1 & Hr1 & _); [rewrite length_map; simpl; lia|].
    unfold param_of in E1 at 1. rewrite E1. res_step. cbn [snd].
    destruct (IH fuel v1 (l ++ [param_of p])) as (v2 & E2 & Hr2);
      [done|lia|by rewrite map_app|rewrite length_app; simpl; lia|done|].
    exists v2. split; [exact E2|]. rewrite <- app_assoc in Hr2. done.
Qed.

Lemma ptext_wf ps : wf_ps ps → wf_part (ptext ps).
Proof.
  intros [Hne Hps]. destruct ps as [|p ps]; [done|]. clear Hne.
  assert (Hd : ∀ c, nonul (d2s c) ∧ ("}"%char ∉ d2s c)) by (intros c; split; [apply d2s_nonul|by apply d2s_no]).
  split.
  { destruct (decide (ps = [])) as [->|Hn0]; [rewrite ptext_single|rewrite ptext_cons by done];
      (pose proof (d2s_nonempty p.1); by destruct (d2s p.1)). }
  revert p Hps. induction ps as [|q ps IH]; intros p Hps; inversion Hps as [|? ? (_ & _ & Hn & _ & Hb) Hps']; subst.
  - rewrite ptext_single, !nonul_app, !not_elem_of_app. destruct (Hd p.1).
    split_and!; try done; by apply (bool_decide_unpack _).
  - rewrite ptext_cons by done. destruct (IH q Hps'), (Hd p.1). rewrite !nonul_app, !not_elem_of_app.
    split_and!; try done; by apply (bool_decide_unpack _).
Qed.

Lemma ptext_length ps : (length ps ≤ length (ptext ps))%nat.
Proof.
  induction ps as [|p ps IH]; [simpl; lia|]. destruct (decide (ps = [])) as [->|Hne].
  - rewrite ptext_single, !length_app. simpl. lia.
  - rewrite ptext_cons, !length_app by done. simpl. lia.
Qed.

Lemma parsePartitions_ok ps :
  wf_ps ps → (S (length (ptext ps)) < MAX_TMPBUF_SIZE)%nat →
  ∃ v, parsePartitions (ptext ps) vectorInit = Ok (C_OK, v) ∧ vector_rep v (map Some (map param_of ps)).
Proof.
  intros Hw Hlen. pose proof (ptext_wf ps Hw) as (Hne0 & Hn & _). destruct Hw as [Hne Hps].
  unfold parsePartitions. rewrite (cstr_nonul _ Hn).
  destruct (Nat.ltb_spec (S (length (ptext ps))) MAX_TMPBUF_SIZE); [|lia]. cbn [assert]. res_step.
  pose proof (ptext_length ps). unfold MAX_TMPBUF_SIZE in *.
  (** One more than the number of values is below the length of the text. *)
  assert (Hlt : (length ps < length (ptext ps))%nat).
  { destruct ps as [|p ps]; [done|]. pose proof (ptext_length ps).
    destruct (decide (ps = [])) as [->|Hn0]; [rewrite ptext_single|rewrite ptext_cons by done];
      rewrite !length_app; pose proof (d2s_nonempty p.1); destruct (d2s p.1); [done| |done|]; simpl; lia. }
  destruct (partition_loop_ok ps (length (ptext ps)) vectorInit []) as (v & E & Hr).
  - eapply Forall_impl; [exact Hps|]. naive_solver.
  - done.
  - exact (vectorTypeInit_rep 0).
  - simpl. lia.
  - done.
  - exists v. split; [exact E|exact Hr].
Qed.

(** * Evaluation *)

Lemma memcmp_refl s n : memcmp s s n = 0.
Proof. revert n. induction s as [|c s IH]; intros [|n]; simpl; try done. by rewrite Z.eqb_refl. Qed.

Lemma sdscmp_eq a b : (sdscmp a b =? 0) = bool_decide (a = b).
Proof.
  unfold sdscmp. case_bool_decide as H.
  - subst. by rewrite memcmp_refl, Z.eqb_refl, Z.sub_diag.
  - destruct (Z.eqb_spec (memcmp a b (length a `min` length b)) 0) as [E|E]; [|by apply Z.eqb_neq].
    apply Z.eqb_neq. intros Hl. apply H. assert (Hlen : length a = length b) by lia. clear H Hl.
    revert b E Hlen. induction a as [|c a IH]; intros [|d b] E Hlen; try done. simpl in E.
    destruct (Z.eqb_spec (code c) (code d)) as [Ec|Ec].
    + apply code_inj in Ec as ->. f_equal. apply IH; [done|by injection Hlen].
    + lia.
Qed.

Lemma tmatch_prefix s t : tmatch false (map TLit s ++ [TStar]) t = starts_with s t.
Proof.
  revert t. induction s as [|c s IH]; intros t; cbn [map app].
  - cbn [tmatch]. rewrite some_suffix_nil. symmetry. apply bool_decide_eq_true. apply prefix_nil.
  - cbn [tmatch]. unfold starts_with in *. destruct t as [|d t].
    + symmetry. apply bool_decide_eq_false. by intros ?%prefix_nil_inv.
    + rewrite IH. cbn [tok_ok fold_case]. destruct (decide (c = d)) as [->|Hne].
      * rewrite bool_decide_true by done. apply bool_decide_ext.
        split; [apply prefix_cons|apply prefix_cons_inv_2].
      * rewrite bool_decide_false by done. symmetry. apply bool_decide_eq_false.
        by intros ?%prefix_cons_inv_1.
Qed.

Lemma tmatch_exact s t : tmatch false (map TLit s) t = bool_decide (t = s).
Proof.
  revert t. induction s as [|c s IH]; intros t; cbn [map]; [by apply bool_decide_ext|]. cbn [tmatch].
  destruct t as [|d t]; [done|]. rewrite IH. cbn [tok_ok fold_case]. repeat case_bool_decide; naive_solver.
Qed.

Lemma tmatch_suffix s t : tmatch false (TStar :: map TLit s) t = ends_with s t.
Proof.
  cbn [tmatch]. rewrite (some_suffix_ext _ (fun u => bool_decide (u = s))) by (intros; apply tmatch_exact).
  unfold ends_with. induction t as [|c t IH]; cbn [some_suffix].
  - rewrite orb_false_r. apply bool_decide_ext. split; [by intros <-|]. by intros ?%suffix_nil_inv.
  - rewrite IH. destruct (decide (c :: t = s)) as [<-|Hne].
    + rewrite (bool_decide_true (c :: t = c :: t)) by done. symmetry. apply bool_decide_eq_true. reflexivity.
    + rewrite (bool_decide_false (c :: t = s)) by done. apply bool_decide_ext. split; [apply suffix_cons_r|].
      destruct s as [|d s]; [intros _; apply suffix_nil|]. intros [?|?]%suffix_cons_inv; congruence.
Qed.

Lemma tmatch_contains s t : tmatch false (TStar :: map TLit s ++ [TStar]) t = contains s t.
Proof. cbn [tmatch]. apply some_suffix_ext. intros u. apply tmatch_prefix. Qed.

(** The glob pattern of a plain operand means what the operator's name says. *)
Lemma like_ok c s t :
  plain s → nonul s → nonul t → c ∈ [CContains; CEndsWith; CStartsWith] →
  ∃ pat, convertLikeStatementToGlobPattern (cmp_op c) s = Ok (Some pat) ∧
         stringmatch pat t false = Ok (fcmp c (VSds t) (VSds s)).
Proof.
  intros Hp Hs Ht Hc.
  assert (Hstar : nonul (lit "*")) by (by apply (bool_decide_unpack _)).
  assert (Hlits : reads (s ++ lit "*") (map TLit s ++ [TStar])) by (apply reads_lits; [done|apply reads_star, reads_nil]).
  assert (Hpat : ∀ p ts, reads p ts → reads_terminator ts = false → nonul p → stringmatch p t false = Ok (tmatch false ts t)).
  { intros p ts Hr Hh Hn. unfold stringmatch. rewrite !cstr_nonul by done. by apply stringmatchlen_reads. }
  rewrite !elem_of_cons, elem_of_nil in Hc. destruct Hc as [-> | [-> | [-> | []]]];
    unfold convertLikeStatementToGlobPattern; cbn [cmp_op Z.eqb Pos.eqb]; catfmt; res_step; eexists; (split; [done|]);
    cbn [fcmp]; change (cstr ["*"%char]) with (lit "*").
  - rewrite <- tmatch_contains. apply Hpat; [by apply reads_star|done|by rewrite !nonul_app].
  - rewrite <- tmatch_suffix. apply Hpat; [|done|by rewrite nonul_app].
    apply reads_star. rewrite <- (app_nil_r s), <- (app_nil_r (map TLit s)) at 1. by apply reads_lits; [|apply reads_nil].
  - rewrite <- tmatch_prefix. apply Hpat; [done| |by rewrite nonul_app].
    destruct s as [|d s]; [done|]. apply nonul_cons in Hs as [Hd _]. by apply bool_decide_false.
Qed.

(** A partition value as the parser makes it. *)
Definition good_param (p : PartitionParameter) : Prop :=
  match pvalue p with VSds s => nonul s | VLong _ => True end.

Lemma classify_nonul t : match classify t with VSds s => nonul s | VLong _ => True end.
Proof.
  unfold classify. repeat case_match; try done; simplify_eq.
  clear. induction t as [|c t IH]; [by apply (bool_decide_unpack _)|]. simpl. case_decide; [by apply (bool_decide_unpack _)|].
  by apply nonul_cons.
Qed.

Lemma classify_sds tok s : nonul tok → classify tok = VSds s → s = tok.
Proof. intros Hn. unfold classify. repeat case_match; intros [= <-]; try done. by apply cstr_nonul. Qed.

(** One round of the leaf loop for a comparison. *)
Lemma leaf_round_cmp c col tok p :
  wf_expr (FCmp c col tok) → good_param p →
  leaf_round (cmp_op c) (Some (ChildLong col)) (Some (child_of (classify tok))) p =
    Ok (if (columnId p =? col) && same_type (pvalue p) (classify tok)
        then Some (fcmp c (pvalue p) (classify tok)) else None).
Proof.
  intros (_ & (Hne & Hnul & _) & Hpl) Hgp. unfold leaf_round. rewrite (Z.eqb_sym col).
  destruct (columnId p =? col); [|done]. cbn [negb andb].
  assert (E9 : (cmp_op c =? CONDITION_OP_TYPE_IS_NULL) = false) by (by destruct c).
  assert (E10 : (cmp_op c =? CONDITION_OP_TYPE_IS_NOT_NULL) = false) by (by destruct c).
  rewrite E9, E10. unfold good_param in Hgp.
  destruct (classify tok) as [l|s] eqn:Ec; cbn [child_of]; destruct (pvalue p) as [pl|ps]; try done.
  - destruct c; cbn [same_type fcmp cmp_op]; try done.
    + by rewrite (Z.eqb_sym l).
    + cbn. by rewrite Z.gtb_ltb.
    + cbn. by rewrite Z.geb_leb.
  - apply classify_sds in Ec as ->; [|done]. cbn [same_type].
    destruct c; try done; cbn [cmp_op Z.eqb Pos.eqb is_like orb].
    + cbn [fcmp]. rewrite sdscmp_eq. do 2 f_equal. apply bool_decide_ext. naive_solver.
    + destruct (like_ok CContains tok ps) as (pat & E & E'); [done..|set_solver|].
      cbn [cmp_op] in E. rewrite E. res_step. cbn [deref]. res_step. rewrite E'. done.
    + destruct (like_ok CEndsWith tok ps) as (pat & E & E'); [done..|set_solver|].
      cbn [cmp_op] in E. rewrite E. res_step. cbn [deref]. res_step. rewrite E'. done.
    + destruct (like_ok CStartsWith tok ps) as (pat & E & E'); [done..|set_solver|].
      cbn [cmp_op] in E. rewrite E. res_step. cbn [deref]. res_step. rewrite E'. done.
Qed.

(** The leaf loop runs the rounds over the partition values. *)
Fixpoint leaf_list (op : Z) (first second : option ConditionChild) (ps : list PartitionParameter) : res bool :=
  match ps with
  | [] => Ok true
  | p :: ps' => r ← leaf_round op first second p;
                match r with Some b => Ok b | None => leaf_list op first second ps' end
  end.

Lemma leaf_loop_list op first second v ps : ∀ qs k,
  vector_rep v (map Some ps) → drop k ps = qs →
  leaf_loop (length qs) (Z.of_nat k) op first second v = leaf_list op first second qs.
Proof.
  induction qs as [|q qs IH]; intros k Hr Hd; cbn [length leaf_loop leaf_list]; [done|].
  assert (Hk : ps !! k = Some q) by (rewrite <- (Nat.add_0_r k), <- lookup_drop, Hd; done).
  rewrite (vectorGet_rep _ _ _ Hr), list_lookup_fmap, Hk. res_step. cbn [fmap option_fmap option_map from_option id deref].
  res_step. destruct (leaf_round op first second q) as [[b|]|]; [done| |done]. rewrite !bind_Ok_l. cbv iota.
  replace (Z.of_nat k + 1) with (Z.of_nat (S k)) by lia. apply IH; [done|].
  pose proof (drop_S ps q k Hk) as E. rewrite Hd in E. by injection E.
Qed.

Lemma leaf_list_cmp c col tok ps :
  wf_expr (FCmp c col tok) → Forall good_param ps →
  leaf_list (cmp_op c) (Some (ChildLong col)) (Some (child_of (classify tok))) ps = Ok (feval (FCmp c col tok) ps).
Proof.
  intros Hw. induction 1 as [|p ps Hp Hps IH]; [done|]. cbn [leaf_list].
  rewrite leaf_round_cmp by done. res_step. cbn [feval find] in *.
  destruct ((columnId p =? col) && same_type (pvalue p) (classify tok)); done.
Qed.

Lemma leaf_list_null col ps :
  leaf_list CONDITION_OP_TYPE_IS_NULL (Some (ChildLong col)) None ps = Ok (feval (FIsNull col) ps) ∧
  leaf_list CONDITION_OP_TYPE_IS_NOT_NULL (Some (ChildLong col)) None ps = Ok (feval (FIsNotNull col) ps).
Proof.
  induction ps as [|p ps [IH1 IH2]]; [done|]. cbn [leaf_list feval existsb leaf_round].
  rewrite (Z.eqb_sym col). destruct (columnId p =? col); done.
Qed.

Lemma evaluateCondition_ok e v ps :
  wf_expr e → Forall good_param ps → vector_rep v (map Some ps) →
  _evaluateCondition (compile e) v = Ok (feval e ps).
Proof.
  intros Hw Hps Hr. pose proof Hr as (_ & Hc & _). rewrite length_map in Hc.
  assert (Hleaf : ∀ op first second,
    leaf_loop (Z.to_nat (vectorCount v)) 0 op first second v = leaf_list op first second ps).
  { intros op first second. unfold vectorCount. rewrite Hc, Nat2Z.id.
    exact (leaf_loop_list op first second v ps ps 0 Hr eq_refl). }
  induction e as [a IHa b IHb|a IHa b IHb|a IHa|col|col|c col tok]; cbn [compile _evaluateCondition wf_expr feval] in *.
  - destruct Hw. unfold _evaluateNonleafOperator. cbn. rewrite IHb by done. cbn. rewrite IHa by done.
    destruct (feval b ps); [by rewrite andb_true_r|by rewrite andb_false_r].
  - destruct Hw. unfold _evaluateNonleafOperator. cbn. rewrite IHb by done. cbn. rewrite IHa by done.
    destruct (feval b ps); [by rewrite orb_true_r|by rewrite orb_false_r].
  - unfold _evaluateNonleafOperator. cbn. by rewrite IHa.
  - unfold _evaluateLeafOperator. cbn [negb is_leaf_op orb Z.eqb Pos.eqb]. rewrite Hleaf. apply leaf_list_null.
  - unfold _evaluateLeafOperator. cbn [negb is_leaf_op orb Z.eqb Pos.eqb]. rewrite Hleaf. apply leaf_list_null.
  - unfold _evaluateLeafOperator. replace (is_leaf_op (cmp_op c)) with true by (by destruct c). cbn [negb].
    rewrite Hleaf. by apply leaf_list_cmp.
Qed.

(** The compiled filter on the meta key of a partition. *)
Lemma evaluate_meta_key e ps table :
  wf_expr e → wf_ps ps → INT_MIN ≤ table ≤ INT_MAX →
  (S (length (meta_key table (ptext ps))) < MAX_TMPBUF_SIZE)%nat →
  evaluateCondition (compile e) (meta_key table (ptext ps)) = Ok (feval e (map param_of ps)).
Proof.
  intros Hw Hps Ht Hl2. unfold evaluateCondition. rewrite parse_meta_key; [|done|by apply ptext_wf|done].
  res_step. cbn [deref]. res_step. cbn [mk_partitionInfo].
  destruct (parsePartitions_ok ps Hps) as (v & -> & Hr).
  { unfold meta_key, key_text in Hl2. rewrite !length_app in Hl2. lia. }
  res_step. apply evaluateCondition_ok; [done| |done].
  apply Forall_forall. intros p Hp. apply list_elem_of_fmap in Hp as (q & -> & _).
  apply classify_nonul.
Qed.

(** Whether a filter has a comparison. *)
Fixpoint has_cmp (e : fexpr) : bool :=
  match e with
  | FAnd a b | FOr a b => has_cmp a || has_cmp b
  | FNot a => has_cmp a
  | FCmp _ _ _ => true
  | _ => false
  end.

(** The release of a compiled filter. *)
Lemma freeConditions_compile e :
  if has_cmp e then freeConditions (compile e) = Fault UseAfterFree
  else ∃ l, freeConditions (compile e) = Ok l.
Proof.
  induction e as [a IHa b IHb|a IHa b IHb|a IHa|col|col|c col tok]; cbn [has_cmp compile freeConditions].
  1-2: destruct (has_cmp b); [rewrite IHb, orb_true_r; done|];
    destruct IHb as [lb Eb]; rewrite Eb; destruct (has_cmp a); [by rewrite IHa|];
    destruct IHa as [la Ea]; rewrite Ea; by eexists.
  - destruct (has_cmp a); [by rewrite IHa|]. destruct IHa as [la Ea]. rewrite Ea. by eexists.
  - by eexists.
  - by eexists.
  - by destruct (classify tok).
Qed.

(** * Termination *)

(** A computation that does not stop because its fuel ran out. *)
Definition fuelled {A} (m : res A) : Prop := m ≠ Fault OutOfFuel.

Lemma fuelled_bind {A B} (m : res A) (f : A → res B) :
  fuelled m → (∀ a, m = Ok a → fuelled (f a)) → fuelled (m ≫= f).
Proof. unfold fuelled. destruct m as [a|e]; simpl; intros Hm Hf; [by apply Hf|congruence]. Qed.
Lemma fuelled_Ok {A} (a : A) : fuelled (Ok a).
Proof. done. Qed.
Lemma fuelled_deref {A} (p : option A) : fuelled (deref p).
Proof. by destruct p. Qed.
Lemma fuelled_assert b : fuelled (assert b).
Proof. by destruct b. Qed.
Lemma fuelled_at_index {A} (l : list A) i : fuelled (at_index l i).
Proof. unfold at_index. by case_match. Qed.

Create HintDb fuel discriminated.
#[local] Hint Resolve fuelled_Ok fuelled_deref fuelled_assert fuelled_at_index : fuel.
#[local] Ltac fuel_step :=
  repeat first
    [ progress cbv beta zeta
    | solve [auto with fuel]
    | match goal with
      | |- fuelled (mbind _ _) => apply fuelled_bind; [|intros ? ?]
      | |- fuelled (match ?x with _ => _ end) => destruct x eqn:?
      end
    | done ].

Section fuel.
  Context {A : Type}.
  Implicit Types (v : Vector A).

Lemma fuelled_datum_size v : fuelled (_vectorGetDatumSize v).
Proof. unfold _vectorGetDatumSize. fuel_step. Qed.
Lemma fuelled_vectorGet v i : fuelled (vectorGet v i).
Proof. unfold vectorGet. fuel_step. Qed.
Lemma fuelled_vectorSet v i d : fuelled (vectorSet v i d).
Proof. unfold vectorSet. fuel_step. Qed.
Lemma fuelled_freeDatum v d : fuelled (vectorFreeDatum v d).
Proof. unfold vectorFreeDatum. fuel_step. Qed.
#[local] Hint Resolve fuelled_datum_size fuelled_vectorGet fuelled_vectorSet fuelled_freeDatum : fuel.
Lemma fuelled_free_loop n v i : fuelled (free_loop n v i).
Proof. revert i. induction n as [|n IH]; intros i; cbn [free_loop]; fuel_step. Qed.
#[local] Hint Resolve fuelled_free_loop : fuel.
Lemma fuelled_vectorAdd v d : fuelled (vectorAdd v d).
Proof. unfold vectorAdd, _vectorResizeIfNeeded, vectorFreeDeep. fuel_step. Qed.
Lemma fuelled_vectorPop v : fuelled (vectorPop v).
Proof. unfold vectorPop. fuel_step. Qed.
End fuel.
#[local] Hint Resolve fuelled_vectorAdd fuelled_vectorPop fuelled_vectorGet : fuel.

Lemma fuelled_stackPush (s : Stack item) d : fuelled (stackPush s d).
Proof. unfold stackPush. fuel_step. Qed.
Lemma fuelled_pop_child s : fuelled (pop_child s).
Proof. unfold pop_child, stackPop. fuel_step. Qed.
Lemma fuelled_pop_cond s : fuelled (pop_cond s).
Proof. unfold pop_cond, stackPop. fuel_step. Qed.
#[local] Hint Resolve fuelled_stackPush fuelled_pop_child fuelled_pop_cond : fuel.

(** Each [strtok_r] call on remaining text consumes at least one byte. *)
Lemma strtok_r_shorter c s delim tok rest :
  strtok_r (c :: s) delim = (tok, rest) → (length rest ≤ length s)%nat.
Proof.
  destruct tok as [tok|]; intros E.
  - apply strtok_r_some in E as (Hne & _ & Hl). destruct tok; [done|]. simpl in Hl. lia.
  - unfold strtok_r in E. destruct (span (.∈ delim) (c :: s)) as [? [|d s1]]; [injection E as <-; simpl; lia|].
    by destruct (span (.∉ delim) (d :: s1)).
Qed.

Lemma fuelled_operand_loop fuel : ∀ tok sp s n,
  (length sp ≤ fuel)%nat → fuelled (operand_loop fuel tok sp s n).
Proof.
  induction fuel as [|fuel IH]; intros tok sp s n Hl; (destruct sp as [|c sp]; [done|]); [simpl in Hl; lia|].
  cbn [operand_loop]. fuel_step. apply IH.
  match goal with H : strtok_r _ _ = _ |- _ => apply strtok_r_shorter in H end. simpl in Hl. lia.
Qed.

Lemma fuelled_createCondition raw s : fuelled (createCondition raw s).
Proof.
  unfold createCondition. destruct (_ <? _)%nat; [done|].
  destruct (strtok_r raw PARTITION_FILTER_OPERAND_DELIMITER) as [tok sp] eqn:E.
  apply strtok_r_incl in E as [Hl _]. apply fuelled_bind; [by apply fuelled_operand_loop|].
  intros [[t s'] n] _. fuel_step.
Qed.
#[local] Hint Resolve fuelled_createCondition : fuel.

Lemma fuelled_statement_loop fuel : ∀ tok sp s,
  (length sp < fuel)%nat ∨ tok = None → fuelled (statement_loop fuel tok sp s).
Proof.
  induction fuel as [|fuel IH]; intros tok sp s Hl; (destruct tok as [tok|]; [|done]);
    (destruct Hl as [Hl|Hl]; [|done]); [lia|].
  cbn [statement_loop]. apply fuelled_bind; [auto with fuel|]. intros [[c|] s1] _; [|done].
  apply fuelled_bind; [auto with fuel|]. intros r _.
  destruct (strtok_r sp PARTITION_FILTER_OPERATOR_DELIMITER) as [tok' sp'] eqn:E. apply IH.
  destruct sp as [|d sp]; [rewrite strtok_r_nil in E; injection E as <- <-; by right|].
  left. apply strtok_r_shorter in E. simpl in Hl. lia.
Qed.

Lemma fuelled_partition_loop fuel : ∀ tok sp v,
  (length sp ≤ fuel)%nat → fuelled (partition_loop fuel tok sp v).
Proof.
  induction fuel as [|fuel IH]; intros tok sp v Hl; (destruct sp as [|c sp]; [done|]); [simpl in Hl; lia|].
  cbn [partition_loop]. apply fuelled_bind; [auto with fuel|]. intros t _.
  destruct (strtok_r (c :: sp) RELMODEL_DELIMITER) as [[val|] sp1] eqn:E1; [|done].
  apply fuelled_bind; [auto with fuel|]. intros r _.
  destruct (strtok_r sp1 RELMODEL_DELIMITER) as [tok' sp2] eqn:E2. apply IH.
  apply strtok_r_shorter in E1. apply strtok_r_incl in E2 as [? _]. simpl in Hl. lia.
Qed.

(** * Properties *)

(** C9: a well-formed filter expression, written as the statement that METAKEYS
    receives, is parsed without error, and evaluating the result on the meta key
    of a partition gives the meaning of the expression on the partition's
    values: dates and integers compare as numbers, other values as strings, a
    leaf whose column is not in the partition does not exclude it.  The statement
    and the key must fit the 128-byte buffers. *)
Theorem filter_correct e ps table :
  wf_expr e → wf_ps ps → INT_MIN ≤ table ≤ INT_MAX →
  (S (length (ftext e)) ≤ MAX_TMPBUF_SIZE)%nat →
  (S (length (meta_key table (ptext ps))) < MAX_TMPBUF_SIZE)%nat →
  ∃ c, parseStatement (ftext e) = Ok (C_OK, Some c) ∧
       evaluateCondition c (meta_key table (ptext ps)) = Ok (feval e (map param_of ps)).
Proof.
  intros Hw Hps Ht Hl1 Hl2. exists (compile e). split; [by apply parseStatement_ok|].
  by apply evaluate_meta_key.
Qed.

Lemma filter_correct_witness :
  let e := FAnd (FCmp CGt 3 (lit "1995-01-01")) (FNot (FCmp CStartsWith 5 (lit "ab"))) in
  let ps := [(3, lit "1995-05-15"); (5, lit "xab")] in
  ∃ c, parseStatement (ftext e) = Ok (C_OK, Some c) ∧
       evaluateCondition c (meta_key 100 (ptext ps)) = Ok true.
Proof.
  apply (filter_correct (FAnd (FCmp CGt 3 (lit "1995-01-01")) (FNot (FCmp CStartsWith 5 (lit "ab"))))
    [(3, lit "1995-05-15"); (5, lit "xab")] 100).
  - cbn [wf_expr]. unfold LLONG_MIN, LLONG_MAX, wf_operand, plain.
    split_and!; (lia || done || by apply (bool_decide_unpack _)).
  - split; [done|]. unfold INT_MIN, INT_MAX. repeat constructor; cbn [fst snd];
      (lia || done || by apply (bool_decide_unpack _)).
  - unfold INT_MIN, INT_MAX. lia.
  - vm_compute. lia.
  - vm_compute. lia.
Defined.

(** C31: [dateStrToInteger] accepts exactly the strings YYYY-MM-DD with a year from
    1000 to 9999, a month from 01 to 12 and a day from 01 to 31, and returns the
    number YYYYMMDD; years with a leading zero match the pattern but are refused. *)
Theorem dateStrToInteger_exact s z :
  dateStrToInteger s = Some z ↔
  ∃ y m d, 1000 ≤ y ≤ 9999 ∧ 1 ≤ m ≤ 12 ∧ 1 ≤ d ≤ 31 ∧ cstr s = date_text y m d ∧
           z = 10000 * y + 100 * m + d.
Proof. apply dateStrToInteger_spec. Qed.

(** the parsers of filter statements and of partition texts always stop: on no
    input does their [strtok_r] loop run out of the fuel given by the length of
    the text. *)
Theorem filter_parsers_terminate statement part (v : Vector PartitionParameter) :
  parseStatement statement ≠ Fault OutOfFuel ∧ parsePartitions part v ≠ Fault OutOfFuel.
Proof.
  split.
  - unfold parseStatement. destruct (_ <? _)%nat; [done|].
    destruct (strtok_r (cstr statement) PARTITION_FILTER_OPERATOR_DELIMITER) as [tok sp] eqn:E.
    apply strtok_r_incl in E as [Hl _].
    assert (Hc : (length (cstr statement) ≤ length statement)%nat).
    { clear. induction statement; simpl; [lia|]. case_decide; simpl; lia. }
    apply fuelled_bind; [apply fuelled_statement_loop; left; lia|]. intros [s|] _; fuel_step.
  - unfold parsePartitions. apply fuelled_bind; [auto with fuel|]. intros _ _.
    destruct (strtok_r (cstr part) RELMODEL_DELIMITER) as [tok sp] eqn:E.
    apply strtok_r_incl in E as [Hl _]. by apply fuelled_partition_loop.
Qed.

(** releasing the tree of a filter that contains a comparison reads the first
    operand after it was released; the trees of all other filters are released
    without fault. *)
Theorem freeConditions_faults e :
  if has_cmp e then freeConditions (compile e) = Fault UseAfterFree
  else ∃ l, freeConditions (compile e) = Ok l.
Proof. apply freeConditions_compile. Qed.
