(* ===== verification/Dict.v ===== *)
(** src/src/dict.c, src/src/dict.h: the hash tables behind every dictionary of the
    server, with incremental rehashing.  A chain of entries is a list, the bucket
    array a list of chains; the hash function is a parameter.  The theorems relate a
    dictionary to the finite map it stands for. *)

From S2P Require Import Prelude.

Definition DICT_HT_INITIAL_SIZE : Z := 4.
Definition dict_force_resize_ratio : Z := 5.
Definition LONG_MAX : Z := 9223372036854775807.
Inductive dict_status := DICT_OK | DICT_ERR.

(** [(unsigned int) z]. *)
Definition to_uint : Z → Z := to_unsigned 32.

(** A node of a chain: its key and its value. *)
Abbreviation entry K V := (prod K V).
Abbreviation chain K V := (list (prod K V)).

Section dict.
  Context {K V : Type} `{EqDecision K}.

Record dictht := mkHt { table : option (list (chain K V)); size : Z; sizemask : Z; used : Z }.

Record dict := mkDict { ht0 : dictht; ht1 : dictht; rehashidx : Z; iterators : Z }.

Definition _dictReset : dictht := mkHt None 0 0 0.

Definition _dictInit : dict := mkDict _dictReset _dictReset (-1) 0.
Definition dictCreate : dict := _dictInit.

Definition dictIsRehashing (d : dict) : bool := negb (rehashidx d =? -1).
Definition dictSize (d : dict) : Z := to_size_t (used (ht0 d) + used (ht1 d)).

(** Table [0] or [1]. *)
Definition ht (d : dict) (t : bool) : dictht := if t then ht1 d else ht0 d.
Definition set_ht (d : dict) (t : bool) (h : dictht) : dict :=
  if t then mkDict (ht0 d) h (rehashidx d) (iterators d) else mkDict h (ht1 d) (rehashidx d) (iterators d).

(** [h->table[i]]: read and write. *)
Definition bucket (h : dictht) (i : Z) : res (chain K V) := tb ← deref (table h); at_index tb (Z.to_nat i).
Definition set_bucket (h : dictht) (i : Z) (c : (chain K V)) (used' : Z) : res dictht :=
  tb ← deref (table h);
  _ ← at_index tb (Z.to_nat i);
  Ok (mkHt (Some (<[Z.to_nat i := c]> tb)) (size h) (sizemask h) (to_size_t used')).

(** ** Growing *)

Fixpoint next_power (fuel : nat) (i sz : Z) : res Z :=
  if i >=? sz then Ok i
  else match fuel with O => Fault OutOfFuel | S f => next_power f (to_size_t (i * 2)) sz end.

Definition _dictNextPower (sz : Z) : res Z :=
  if sz >=? LONG_MAX then Ok LONG_MAX else next_power 64 DICT_HT_INITIAL_SIZE sz.

Definition dictExpand (d : dict) (sz : Z) : res (dict_status * dict) :=
  realsize ← _dictNextPower sz;
  if dictIsRehashing d || (used (ht0 d) >? sz) then Ok (DICT_ERR, d)
  else if realsize =? size (ht0 d) then Ok (DICT_ERR, d)
  else
    let n := mkHt (Some (replicate (Z.to_nat realsize) [])) realsize (realsize - 1) 0 in
    match table (ht0 d) with
    | None => Ok (DICT_OK, mkDict n (ht1 d) (rehashidx d) (iterators d))
    | Some _ => Ok (DICT_OK, mkDict (ht0 d) n 0 (iterators d))
    end.

(** [minimal] is an [int]. *)
Definition dictResize (can_resize : bool) (d : dict) : res (dict_status * dict) :=
  if negb can_resize || dictIsRehashing d then Ok (DICT_ERR, d)
  else
    let minimal := to_int (used (ht0 d)) in
    let minimal := if minimal <? DICT_HT_INITIAL_SIZE then DICT_HT_INITIAL_SIZE else minimal in
    dictExpand d (to_size_t minimal).

Definition _dictExpandIfNeeded (can_resize : bool) (d : dict) : res (dict_status * dict) :=
  if dictIsRehashing d then Ok (DICT_OK, d)
  else if size (ht0 d) =? 0 then dictExpand d DICT_HT_INITIAL_SIZE
  else if (used (ht0 d) >=? size (ht0 d))
          && (can_resize || (used (ht0 d) / size (ht0 d) >? dict_force_resize_ratio)) then
    dictExpand d (to_size_t (used (ht0 d) * 2))
  else Ok (DICT_OK, d).

(** ** Rehashing *)

Section hashed.
  Context (hashFunction : K → Z).

(** The loop over empty buckets of table 0: the next index and the empty visits left,
    or [None] when they are used up; the index reached is stored in any case. *)
Fixpoint skip_empty (fuel : nat) (h : dictht) (idx empty_visits : Z) : res (Z * option Z) :=
  c ← bucket h idx;
  match c with
  | _ :: _ => Ok (idx, Some empty_visits)
  | [] =>
      if empty_visits - 1 =? 0 then Ok (idx + 1, None)
      else match fuel with
           | O => Fault OutOfFuel
           | S f => skip_empty f h (idx + 1) (empty_visits - 1)
           end
  end.

(** The entries of a chain move to the heads of the chains of table 1. *)
Fixpoint move_chain (c : (chain K V)) (h0 h1 : dictht) : res (dictht * dictht) :=
  match c with
  | [] => Ok (h0, h1)
  | de :: c' =>
      let h := to_uint (Z.land (hashFunction de.1) (sizemask h1)) in
      b ← bucket h1 h;
      h1 ← set_bucket h1 h (de :: b) (used h1 + 1);
      move_chain c' (mkHt (table h0) (size h0) (sizemask h0) (to_size_t (used h0 - 1))) h1
  end.

(** The entries of bucket [idx] of table 0 move to table 1. *)
Definition rehash_bucket (d : dict) (idx : Z) : res dict :=
  c ← bucket (ht0 d) idx;
  '(h0, h1) ← move_chain c (ht0 d) (ht1 d);
  h0 ← set_bucket h0 idx [] (used h0);
  Ok (mkDict h0 h1 (idx + 1) (iterators d)).

(** At most [n] buckets; whether the function returned from inside the loop. *)
Fixpoint rehash_loop (n : nat) (empty_visits : Z) (d : dict) : res (bool * dict) :=
  match n with
  | O => Ok (false, d)
  | S n' =>
      if used (ht0 d) =? 0 then Ok (false, d)
      else
        _ ← assert (size (ht0 d) >? to_size_t (rehashidx d));
        '(idx, ev) ← skip_empty (Z.to_nat (size (ht0 d))) (ht0 d) (rehashidx d) empty_visits;
        match ev with
        | None => Ok (true, mkDict (ht0 d) (ht1 d) idx (iterators d))
        | Some ev => d ← rehash_bucket d idx; rehash_loop n' ev d
        end
  end.

(** Returns whether there is more to do. *)
Definition dictRehash (n : nat) (d : dict) : res (bool * dict) :=
  if negb (dictIsRehashing d) then Ok (false, d)
  else
    '(more, d) ← rehash_loop n (Z.of_nat n * 10) d;
    if more : bool then Ok (true, d)
    else if used (ht0 d) =? 0 then Ok (false, mkDict (ht1 d) _dictReset (-1) (iterators d))
    else Ok (true, d).

(** [now i] is the clock at its [i]-th reading; returns the buckets asked for. *)
Fixpoint rehash_ms (fuel : nat) (now : nat → Z) (i : nat) (start ms : Z) (d : dict) (rehashes : Z) : res (Z * dict) :=
  '(more, d) ← dictRehash 100 d;
  if more : bool then
    let rehashes := to_int (rehashes + 100) in
    if now i - start >? ms then Ok (rehashes, d)
    else match fuel with
         | O => Fault OutOfFuel
         | S f => rehash_ms f now (S i) start ms d rehashes
         end
  else Ok (rehashes, d).
Definition dictRehashMilliseconds (now : nat → Z) (d : dict) (ms : Z) : res (Z * dict) :=
  rehash_ms (Z.to_nat (size (ht0 d))) now 1 (now 0%nat) ms d 0.

Definition _dictRehashStep (d : dict) : res dict :=
  if iterators d =? 0 then r ← dictRehash 1 d; Ok r.2 else Ok d.

Definition rehash_step_if (d : dict) : res dict := if dictIsRehashing d then _dictRehashStep d else Ok d.

(** ** Lookup *)

Fixpoint find_chain (key : K) (c : (chain K V)) : option (entry K V) :=
  match c with
  | [] => None
  | he :: c' => if decide (key = he.1) then Some he else find_chain key c'
  end.

(** [h & d->ht[t].sizemask] for the truncated hash. *)
Definition index_of (key : K) (h : dictht) : Z := Z.land (to_uint (hashFunction key)) (sizemask h).

(** The loop over the two tables: the table, the index and the entry found. *)
Definition find_tables (d : dict) (key : K) : res (option (bool * Z * (entry K V))) :=
  let i0 := index_of key (ht0 d) in
  c0 ← bucket (ht0 d) i0;
  match find_chain key c0 with
  | Some he => Ok (Some (false, i0, he))
  | None =>
      if negb (dictIsRehashing d) then Ok None
      else
        let i1 := index_of key (ht1 d) in
        c1 ← bucket (ht1 d) i1;
        Ok (match find_chain key c1 with Some he => Some (true, i1, he) | None => None end)
  end.

Definition dictFind (d : dict) (key : K) : res (option (entry K V) * dict) :=
  if dictSize d =? 0 then Ok (None, d)
  else
    d ← rehash_step_if d;
    r ← find_tables d key;
    Ok (option_map snd r, d).

Definition dictFetchValue (d : dict) (key : K) : res (option V * dict) :=
  '(he, d) ← dictFind d key; Ok (option_map snd he, d).

(** ** Insertion *)

(** The index for a new entry in the table that takes it, or [None] for -1, with the
    place of the entry that exists. *)
Definition _dictKeyIndex (can_resize : bool) (d : dict) (key : K)
    : res (option Z * option (bool * Z * (entry K V)) * dict) :=
  '(st, d) ← _dictExpandIfNeeded can_resize d;
  match st with
  | DICT_ERR => Ok (None, None, d)
  | DICT_OK =>
      r ← find_tables d key;
      match r with
      | Some p => Ok (None, Some p, d)
      | None => Ok (Some (index_of key (ht d (dictIsRehashing d))), None, d)
      end
  end.

(** [dictAddRaw]; [val] is what the caller stores in the new entry.  Returns the new
    entry, or NULL and the place of the entry that exists. *)
Definition dictAddRaw (can_resize : bool) (d : dict) (key : K) (val : V)
    : res (option (entry K V) * option (bool * Z * (entry K V)) * dict) :=
  d ← rehash_step_if d;
  '(index, existing, d) ← _dictKeyIndex can_resize d key;
  match index with
  | None => Ok (None, existing, d)
  | Some index =>
      let t := dictIsRehashing d in
      c ← bucket (ht d t) index;
      h ← set_bucket (ht d t) index ((key, val) :: c) (used (ht d t) + 1);
      Ok (Some (key, val), None, set_ht d t h)
  end.

Definition dictAdd (can_resize : bool) (d : dict) (key : K) (val : V) : res (dict_status * dict) :=
  '(e, _, d) ← dictAddRaw can_resize d key val;
  Ok (match e with None => DICT_ERR | Some _ => DICT_OK end, d).

(** The entry of the key, added with a value that is still to be set when it is new. *)
Definition dictAddOrFind (can_resize : bool) (d : dict) (key : K) (val : V) : res (option (entry K V) * dict) :=
  '(e, existing, d) ← dictAddRaw can_resize d key val;
  Ok (match e with Some e => Some e | None => option_map snd existing end, d).

(** The assignment of a value to the entry with key [key]. *)
Fixpoint set_value (key : K) (val : V) (c : (chain K V)) : (chain K V) :=
  match c with
  | [] => []
  | he :: c' => if decide (key = he.1) then (he.1, val) :: c' else he :: set_value key val c'
  end.

(** The entry is the one with key [key] of bucket [i] of table [t]. *)
Definition dictSetVal (d : dict) (t : bool) (i : Z) (key : K) (val : V) : res dict :=
  c ← bucket (ht d t) i;
  h ← set_bucket (ht d t) i (set_value key val c) (used (ht d t));
  Ok (set_ht d t h).

(** Returns whether the key was added, and the value that was released. *)
Definition dictReplace (can_resize : bool) (d : dict) (key : K) (val : V) : res (bool * option V * dict) :=
  '(e, existing, d) ← dictAddRaw can_resize d key val;
  match e with
  | Some _ => Ok (true, None, d)
  | None =>
      p ← deref existing;
      let '(t, i, he) := p in
      d ← dictSetVal d t i key val;
      Ok (false, Some he.2, d)
  end.

(** ** Deletion *)

Fixpoint unlink_chain (key : K) (c : (chain K V)) : (chain K V) :=
  match c with
  | [] => []
  | he :: c' => if decide (key = he.1) then c' else he :: unlink_chain key c'
  end.

(** Returns the entry unlinked. *)
Definition dictGenericDelete (d : dict) (key : K) : res (option (entry K V) * dict) :=
  if (used (ht0 d) =? 0) && (used (ht1 d) =? 0) then Ok (None, d)
  else
    d ← rehash_step_if d;
    r ← find_tables d key;
    match r with
    | None => Ok (None, d)
    | Some (t, i, he) =>
        c ← bucket (ht d t) i;
        h ← set_bucket (ht d t) i (unlink_chain key c) (used (ht d t) - 1);
        Ok (Some he, set_ht d t h)
    end.

Definition dictDelete (d : dict) (key : K) : res (dict_status * dict) :=
  '(he, d) ← dictGenericDelete d key;
  Ok (match he with Some _ => DICT_OK | None => DICT_ERR end, d).

Definition dictUnlink (d : dict) (key : K) : res (option (entry K V) * dict) := dictGenericDelete d key.
End hashed.

(** [_dictClear]: the entries released, bucket by bucket while some are left. *)
Fixpoint clear_loop (tb : list (chain K V)) (used' : Z) : list (entry K V) * Z :=
  match tb with
  | [] => ([], used')
  | c :: tb' =>
      if used' >? 0 then
        let '(l, u) := clear_loop tb' (to_size_t (used' - Z.of_nat (length c))) in (c ++ l, u)
      else ([], used')
  end.
Definition _dictClear (h : dictht) : list (entry K V) * dictht :=
  ((clear_loop (default [] (table h)) (used h)).1, _dictReset).

(** Returns the entries released. *)
Definition dictEmpty (d : dict) : list (entry K V) * dict :=
  let '(l0, h0) := _dictClear (ht0 d) in
  let '(l1, h1) := _dictClear (ht1 d) in
  (l0 ++ l1, mkDict h0 h1 (-1) 0).

(** What [dictRelease] frees. *)
Definition dictRelease (d : dict) : list (entry K V) := (_dictClear (ht0 d)).1 ++ (_dictClear (ht1 d)).1.

(** ** Iterators *)

(** A safe iterator.  [it_entry] is [None] for a NULL [entry], and otherwise the chain
    at [nextEntry]. *)
Record dictIterator := mkIter { it_index : Z; it_table : bool; it_entry : option (chain K V) }.

Definition dictGetSafeIterator : dictIterator := mkIter (-1) false None.

Definition set_iterators (d : dict) (n : Z) : dict := mkDict (ht0 d) (ht1 d) (rehashidx d) n.

Fixpoint next_loop (fuel : nat) (d : dict) (it : dictIterator) : res (option (entry K V) * dictIterator * dict) :=
  '(c, it, d, stop) ←
    (match it_entry it with
     | Some c => Ok (c, it, d, false)
     | None =>
         let d := if (it_index it =? -1) && negb (it_table it)
                  then set_iterators d (to_size_t (iterators d + 1)) else d in
         let index := it_index it + 1 in
         if index >=? to_signed 64 (size (ht d (it_table it))) then
           if dictIsRehashing d && negb (it_table it) then
             c ← bucket (ht1 d) 0; Ok (c, mkIter 0 true None, d, false)
           else Ok ([], mkIter index (it_table it) None, d, true)
         else c ← bucket (ht d (it_table it)) index; Ok (c, mkIter index (it_table it) None, d, false)
     end);
  if stop : bool then Ok (None, it, d)
  else match c with
       | e :: c' => Ok (Some e, mkIter (it_index it) (it_table it) (Some c'), d)
       | [] =>
           match fuel with
           | O => Fault OutOfFuel
           | S f => next_loop f d (mkIter (it_index it) (it_table it) None)
           end
       end.

(** Each round without an entry goes to the next bucket. *)
Definition dictNext (d : dict) (it : dictIterator) : res (option (entry K V) * dictIterator * dict) :=
  next_loop (Z.to_nat (size (ht0 d)) + Z.to_nat (size (ht1 d)) + 2) d it.

Definition dictReleaseIterator (d : dict) (it : dictIterator) : dict :=
  if negb ((it_index it =? -1) && negb (it_table it)) then set_iterators d (to_size_t (iterators d - 1)) else d.
End dict.
Arguments dictht K V : clear implicits.
Arguments dict K V : clear implicits.
Arguments dictIterator K V : clear implicits.

(** ** dictScan *)

(** [rev]: the bits of an [unsigned long] in reverse order, by swapping halves. *)
Definition ULONG_BITS : Z := 64.
Definition ulnot (v : Z) : Z := to_size_t (Z.lnot v).
Fixpoint rev_loop (fuel : nat) (s mask v : Z) : Z :=
  match fuel with
  | O => v
  | S f =>
      let s := Z.shiftr s 1 in
      if s >? 0 then
        let mask := Z.lxor mask (to_size_t (Z.shiftl mask s)) in
        let v := Z.lor (Z.land (Z.shiftr v s) mask) (Z.land (to_size_t (Z.shiftl v s)) (ulnot mask)) in
        rev_loop f s mask v
      else v
  end.
Definition revbits (v : Z) : Z := rev_loop 7 ULONG_BITS (ulnot 0) v.

Section scan.
  Context {K V : Type}.
  Implicit Types d : dict K V.

(** The loop over the expansions of the cursor in the larger table. *)
Fixpoint expansions (fuel : nat) (t1 : dictht K V) (m0 m1 v : Z) : res (list (entry K V) * Z) :=
  c ← bucket t1 (Z.land v m1);
  let v := Z.lor (Z.land (to_size_t (Z.lor v m0 + 1)) (ulnot m0)) (Z.land v m0) in
  if negb (Z.land v (Z.lxor m0 m1) =? 0) then
    match fuel with
    | O => Fault OutOfFuel
    | S f => '(l, v) ← expansions f t1 m0 m1 v; Ok (c ++ l, v)
    end
  else Ok (c, v).

(** The entries passed to [fn], and the next cursor. *)
Definition dictScan d (v : Z) : res (list (entry K V) * Z) :=
  if dictSize d =? 0 then Ok ([], 0)
  else
    '(l, v, m0) ←
      (if negb (dictIsRehashing d) then
         let m0 := sizemask (ht0 d) in
         c ← bucket (ht0 d) (Z.land v m0); Ok (c, v, m0)
       else
         let '(t0, t1) := if size (ht0 d) >? size (ht1 d) then (ht1 d, ht0 d) else (ht0 d, ht1 d) in
         let m0 := sizemask t0 in
         let m1 := sizemask t1 in
         c ← bucket t0 (Z.land v m0);
         '(l, v) ← expansions (Z.to_nat (size t1)) t1 m0 m1 v;
         Ok (c ++ l, v, m0));
    let v := Z.lor v (ulnot m0) in
    let v := revbits v in
    let v := to_size_t (v + 1) in
    Ok (l, revbits v).
End scan.

Example rev_ex : revbits 6 = 6917529027641081856.
Proof. vm_compute. reflexivity. Qed.
