(* ===== verification/DictSpec.v ===== *)
(** What the hash tables of Dict.v promise: a dictionary stands for a finite map, and
    rehashing, growing and shrinking do not change it; a walk visits every entry
    once. *)

From S2P Require Import Prelude Dict.

(** Dictionaries of at most this many entries; their tables have at most twice as
    many buckets, so that an index fits in [int]. *)
Definition MAX_ELEMS : Z := 2 ^ 29.

Lemma land_mask z n : 0 ≤ n → Z.land z (2 ^ n - 1) = z mod 2 ^ n.
Proof. intros. rewrite <- Z.land_ones by done. by rewrite Z.ones_equiv, Z.sub_1_r. Qed.

Lemma mod_pow_mod z n m : 0 ≤ n ≤ m → (z mod 2 ^ m) mod 2 ^ n = z mod 2 ^ n.
Proof.
  intros. apply Z.mod_mod_divide.
  exists (2 ^ (m - n)). rewrite <- Z.pow_add_r by lia. f_equal. lia.
Qed.

Lemma pow2_pos n : 0 ≤ n → 0 < 2 ^ n.
Proof. intros. apply Z.pow_pos_nonneg; lia. Qed.

(** Replacing one list in a list of lists. *)
Lemma concat_insert {A} (tb : list (list A)) i c :
  tb !! i = Some c → ∃ rest, concat tb ≡ₚ c ++ rest ∧ ∀ c', concat (<[i := c']> tb) ≡ₚ c' ++ rest.
Proof.
  intros Hi. exists (concat (take i tb) ++ concat (drop (S i) tb)). split.
  - rewrite <- (take_drop_middle tb i c Hi) at 1. rewrite concat_app. cbn. rewrite !app_assoc.
    apply Permutation_app_tail, Permutation_app_comm.
  - intros c'. rewrite insert_take_drop by (by eapply lookup_lt_Some). rewrite concat_app. cbn. rewrite !app_assoc.
    apply Permutation_app_tail, Permutation_app_comm.
Qed.

Lemma concat_replicate_nil {A} k : concat (replicate k ([] : list A)) = [].
Proof. by induction k. Qed.

(** ** _dictNextPower *)

Lemma next_power_ok fuel : ∀ n sz,
  0 ≤ n → sz ≤ 2 ^ (n + Z.of_nat fuel) → n + Z.of_nat fuel ≤ 62 →
  ∃ k, n ≤ k ≤ n + Z.of_nat fuel ∧ next_power fuel (2 ^ n) sz = Ok (2 ^ k) ∧ sz ≤ 2 ^ k ∧ (k = n ∨ 2 ^ (k - 1) < sz).
Proof.
  induction fuel as [|fuel IH]; intros n sz Hn Hsz Hf.
  - exists n. rewrite Z.add_0_r in Hsz. cbn. rewrite Z.geb_leb. destruct (Z.leb_spec sz (2 ^ n)); [|lia].
    split_and!; try done; try lia.
  - cbn [next_power]. rewrite Z.geb_leb. destruct (Z.leb_spec sz (2 ^ n)) as [Hle|Hgt].
    { exists n. split_and!; try done; try lia. }
    assert (E : to_size_t (2 ^ n * 2) = 2 ^ (n + 1)).
    { rewrite to_size_t_id; [rewrite Z.pow_add_r by lia; lia|]. pose proof (pow2_pos n Hn).
      assert (2 ^ n ≤ 2 ^ 62) by (apply Z.pow_le_mono_r; lia). unfold SIZE_MAX, ULLONG_MAX.
      change (2 ^ 62) with 4611686018427387904 in *. lia. }
    rewrite E. destruct (IH (n + 1) sz) as (k & Hk & -> & Hsz' & Hmin); [lia|by replace (n + 1 + Z.of_nat fuel) with (n + Z.of_nat (S fuel)) by lia|lia|].
    exists k. split_and!; [lia|lia|done|done|]. right. destruct Hmin as [->|?]; [|done]. by replace (n + 1 - 1) with n by lia.
Qed.

Lemma next_power_mono a b sz f : ∀ i, next_power a i sz = Ok f → next_power (a + b) i sz = Ok f.
Proof.
  induction a as [|a IH]; intros i; cbn.
  - destruct b; cbn; by destruct (i >=? sz).
  - destruct (i >=? sz); [done|]. apply IH.
Qed.

Lemma dictNextPower_ok sz : sz ≤ 2 ^ 30 →
  ∃ n, 2 ≤ n ≤ 30 ∧ _dictNextPower sz = Ok (2 ^ n) ∧ sz ≤ 2 ^ n.
Proof.
  intros Hsz. unfold _dictNextPower, LONG_MAX. change (2 ^ 30) with 1073741824 in Hsz.
  rewrite Z.geb_leb. destruct (Z.leb_spec 9223372036854775807 sz); [lia|].
  change DICT_HT_INITIAL_SIZE with (2 ^ 2).
  destruct (next_power_ok 28 2 sz) as (k & Hk & E & Hle & _); [lia|change (2 ^ (2 + Z.of_nat 28)) with 1073741824; lia|lia|].
  exists k. split_and!; [lia|lia|by apply (next_power_mono 28 36)|done].
Qed.

Section spec.
  Context {K V : Type} `{Countable K} (hash : K → Z).
  Implicit Types (h : dictht K V) (d : dict K V) (tb : list (chain K V)) (m : gmap K V) (c : chain K V).

(** ** Well-formed tables *)

Record ht_ok h (n : Z) tb : Prop := {
  ho_table : table h = Some tb;
  ho_n : 2 ≤ n ≤ 30;
  ho_size : size h = 2 ^ n;
  ho_mask : sizemask h = 2 ^ n - 1;
  ho_length : Z.of_nat (length tb) = 2 ^ n;
  ho_used : used h = Z.of_nat (length (concat tb));
  ho_bound : used h ≤ 2 * MAX_ELEMS;
  ho_hash : ∀ i c e, tb !! i = Some c → e ∈ c → hash e.1 mod 2 ^ n = Z.of_nat i;
}.

(** Nothing allocated; one table; or a rehashing whose buckets before [rehashidx] are
    empty already. *)
Inductive dict_ok d : Prop :=
| ok_new : rehashidx d = -1 → ht0 d = _dictReset → ht1 d = _dictReset → dict_ok d
| ok_one n tb : rehashidx d = -1 → ht_ok (ht0 d) n tb → ht1 d = _dictReset → dict_ok d
| ok_two n0 tb0 n1 tb1 : 0 ≤ rehashidx d ≤ 2 ^ n0 → ht_ok (ht0 d) n0 tb0 → ht_ok (ht1 d) n1 tb1 →
    (∀ i c, tb0 !! i = Some c → Z.of_nat i < rehashidx d → c = []) → dict_ok d.

Definition ht_entries h : list (entry K V) := concat (default [] (table h)).
Definition entries d : list (entry K V) := ht_entries (ht0 d) ++ ht_entries (ht1 d).

(** Dictionary [d] stands for map [m]. *)
Definition dict_rep d m : Prop :=
  dict_ok d ∧ entries d ≡ₚ map_to_list m ∧ Z.of_nat (stdpp.base.size m) ≤ MAX_ELEMS.

Lemma ht_ok_not_reset h n tb : ht_ok h n tb → h ≠ _dictReset.
Proof. intros [Ht] ->. done. Qed.

Lemma ht_entries_ok h n tb : ht_ok h n tb → ht_entries h = concat tb.
Proof. intros []. unfold ht_entries. by rewrite ho_table0. Qed.

Lemma index_of_ok h n tb key : ht_ok h n tb → index_of hash key h = hash key mod 2 ^ n.
Proof.
  intros []. unfold index_of, to_uint, to_unsigned. rewrite ho_mask0, land_mask, mod_pow_mod by lia. done.
Qed.

Lemma move_index_ok h n tb key : ht_ok h n tb → to_uint (Z.land (hash key) (sizemask h)) = hash key mod 2 ^ n.
Proof.
  intros []. unfold to_uint, to_unsigned. rewrite ho_mask0, land_mask by lia. apply Z.mod_small.
  pose proof (Z.mod_pos_bound (hash key) (2 ^ n) (pow2_pos n ltac:(lia))).
  assert (2 ^ n ≤ 2 ^ 32) by (apply Z.pow_le_mono_r; lia). lia.
Qed.

Lemma bucket_ok h n tb i : ht_ok h n tb → 0 ≤ i < 2 ^ n → ∃ c, tb !! Z.to_nat i = Some c ∧ bucket h i = Ok c.
Proof.
  intros Hh Hi. destruct (lookup_lt_is_Some_2 tb (Z.to_nat i)) as [c Hc].
  { pose proof (ho_length _ _ _ Hh). lia. }
  exists c. split; [done|]. unfold bucket. rewrite (ho_table _ _ _ Hh). cbn [deref]. res_step. by apply at_index_Ok.
Qed.

(** Replacing the chain at [i]. *)
Lemma set_bucket_ok h n tb i c c' u :
  ht_ok h n tb → tb !! Z.to_nat i = Some c → 0 ≤ i →
  Z.of_nat (length c') + used h = Z.of_nat (length c) + u → u ≤ 2 * MAX_ELEMS →
  (∀ e, e ∈ c' → hash e.1 mod 2 ^ n = i) →
  ∃ h', set_bucket h i c' u = Ok h' ∧ ht_ok h' n (<[Z.to_nat i := c']> tb).
Proof.
  intros Hh Hc Hi0 Hlen Hu Hhash. unfold set_bucket. rewrite (ho_table _ _ _ Hh). cbn [deref]. res_step.
  unfold at_index. rewrite Hc. res_step. eexists. split; [done|].
  destruct (concat_insert tb (Z.to_nat i) c Hc) as (rest & Hp & Hp').
  assert (Hused : u = Z.of_nat (length (concat (<[Z.to_nat i := c']> tb)))).
  { rewrite (Permutation_length (Hp' c')). rewrite (ho_used _ _ _ Hh), (Permutation_length Hp) in Hlen.
    rewrite !length_app in *. lia. }
  destruct Hh. split; cbn; try done.
  - by rewrite length_insert.
  - rewrite to_size_t_id; [done|]. unfold SIZE_MAX, ULLONG_MAX, MAX_ELEMS in *. change (2 ^ 29) with 536870912 in *. lia.
  - rewrite to_size_t_id; [done|]. unfold SIZE_MAX, ULLONG_MAX, MAX_ELEMS in *. change (2 ^ 29) with 536870912 in *. lia.
  - intros j c0 e Hj He. destruct (decide (j = Z.to_nat i)) as [->|Hne].
    + rewrite list_lookup_insert_eq in Hj by (by eapply lookup_lt_Some). injection Hj as <-. rewrite Hhash by done. lia.
    + rewrite list_lookup_insert_ne in Hj by done. eauto.
Qed.

(** A table of [2 ^ n] empty chains. *)
Lemma new_table_ok n : 2 ≤ n ≤ 30 →
  ht_ok (mkHt (Some (replicate (Z.to_nat (2 ^ n)) [])) (2 ^ n) (2 ^ n - 1) 0) n (replicate (Z.to_nat (2 ^ n)) []).
Proof.
  intros Hn. pose proof (pow2_pos n ltac:(lia)).
  split; cbn; try done; try lia.
  - rewrite length_replicate. lia.
  - by rewrite concat_replicate_nil.
  - intros i c e [-> _]%lookup_replicate He. by apply elem_of_nil in He.
Qed.

(** ** Rehashing *)

Lemma skip_empty_ok h n tb j cj : ∀ fuel idx ev,
  ht_ok h n tb → tb !! j = Some cj → cj ≠ [] → 0 ≤ idx ≤ Z.of_nat j → Z.of_nat j - idx ≤ Z.of_nat fuel →
  (∀ i c, tb !! i = Some c → Z.of_nat i < idx → c = []) →
  ∃ idx' r, skip_empty fuel h idx ev = Ok (idx', r) ∧ idx ≤ idx' ≤ 2 ^ n ∧ (r = None → idx < idx') ∧
    (∀ i c, tb !! i = Some c → Z.of_nat i < idx' → c = []) ∧
    match r with None => True | Some _ => ∃ e c, tb !! Z.to_nat idx' = Some (e :: c) end.
Proof.
  induction fuel as [|fuel IH]; intros idx ev Hh Hj Hcj Hidx Hfuel Hempty;
    (assert (Z.of_nat j < 2 ^ n) by (pose proof (lookup_lt_Some _ _ _ Hj); pose proof (ho_length _ _ _ Hh); lia));
    (destruct (bucket_ok h n tb idx Hh) as (c & Hc & Hb); [lia|]); cbn [skip_empty]; rewrite Hb; res_step.
  - destruct c as [|e c]; [|exists idx, (Some ev); split_and!; [done|lia|lia|done|done|eauto]].
    replace (Z.to_nat idx) with j in Hc by lia. congruence.
  - destruct c as [|e c]; [|exists idx, (Some ev); split_and!; [done|lia|lia|done|done|eauto]].
    assert (Hempty' : ∀ i c, tb !! i = Some c → Z.of_nat i < idx + 1 → c = []).
    { intros i c Hi Hlt. destruct (decide (i = Z.to_nat idx)) as [->|]; [congruence|]. apply (Hempty i); [done|lia]. }
    assert (idx ≠ Z.of_nat j) by (intros ->; rewrite Nat2Z.id in Hc; congruence).
    destruct (ev - 1 =? 0).
    + exists (idx + 1), None. split_and!; [done|lia|lia|lia|done|done].
    + destruct (IH (idx + 1) (ev - 1)) as (idx' & r & ? & ? & ? & ? & ?); try done; try lia.
      exists idx', r. split_and!; try done; lia.
Qed.

Lemma move_chain_ok n1 c : ∀ h0 h1 tb1,
  ht_ok h1 n1 tb1 → used h1 + Z.of_nat (length c) ≤ 2 * MAX_ELEMS →
  Z.of_nat (length c) ≤ used h0 ≤ 2 * MAX_ELEMS →
  ∃ h1' tb1', move_chain hash c h0 h1 =
      Ok (mkHt (table h0) (size h0) (sizemask h0) (used h0 - Z.of_nat (length c)), h1') ∧
    ht_ok h1' n1 tb1' ∧ concat tb1' ≡ₚ c ++ concat tb1.
Proof.
  induction c as [|e c IH]; intros h0 h1 tb1 Hh Hu Hu0; cbn [move_chain length] in *.
  { exists h1, tb1. split; [|done]. rewrite Z.sub_0_r. by destruct h0. }
  rewrite (move_index_ok h1 n1 tb1 e.1 Hh).
  pose proof (Z.mod_pos_bound (hash e.1) (2 ^ n1) (pow2_pos n1 ltac:(pose proof (ho_n _ _ _ Hh); lia))) as Hb.
  destruct (bucket_ok h1 n1 tb1 _ Hh Hb) as (b & Hb' & ->). res_step.
  destruct (set_bucket_ok h1 n1 tb1 (hash e.1 mod 2 ^ n1) b (e :: b) (used h1 + 1) Hh Hb') as (h1' & -> & Hh');
    [lia|cbn [length]; lia|lia| |].
  { intros e' [->|He']%elem_of_cons; [done|]. rewrite (ho_hash _ _ _ Hh _ _ _ Hb' He'). lia. }
  res_step. destruct (concat_insert tb1 _ b Hb') as (rest & Hp & Hp').
  assert (Hused : used h1' = used h1 + 1).
  { rewrite (ho_used _ _ _ Hh'), (ho_used _ _ _ Hh), (Permutation_length Hp), (Permutation_length (Hp' (e :: b))). cbn. lia. }
  destruct (IH (mkHt (table h0) (size h0) (sizemask h0) (to_size_t (used h0 - 1))) h1' _ Hh') as (h1'' & tb1'' & -> & Hh'' & Hp'').
  { lia. }
  { cbn. rewrite to_size_t_id; [lia|]. unfold SIZE_MAX, ULLONG_MAX, MAX_ELEMS in *. change (2 ^ 29) with 536870912 in *. lia. }
  exists h1'', tb1''. split_and!; [|done|].
  - cbn. rewrite to_size_t_id; [do 3 f_equal; lia|]. unfold SIZE_MAX, ULLONG_MAX, MAX_ELEMS in *. change (2 ^ 29) with 536870912 in *. lia.
  - rewrite Hp'', (Hp' (e :: b)), Hp. cbn. by rewrite <- Permutation_middle.
Qed.

Lemma used_nonempty h n tb : ht_ok h n tb → used h ≠ 0 → ∃ j c, tb !! j = Some c ∧ c ≠ [].
Proof.
  intros Hh Hu. rewrite (ho_used _ _ _ Hh) in Hu. clear Hh. induction tb as [|[|e c] tb IH]; cbn in *; [done| |].
  - destruct IH as (j & c & ? & ?); [done|]. by exists (S j), c.
  - by exists 0%nat, (e :: c).
Qed.

(** A dictionary in the middle of a rehashing. *)
Definition two_tables d : Prop :=
  ∃ n0 tb0 n1 tb1, 0 ≤ rehashidx d ≤ 2 ^ n0 ∧ ht_ok (ht0 d) n0 tb0 ∧ ht_ok (ht1 d) n1 tb1 ∧
    (∀ i c, tb0 !! i = Some c → Z.of_nat i < rehashidx d → c = []).

Lemma two_tables_ok d : two_tables d → dict_ok d.
Proof. intros (n0 & tb0 & n1 & tb1 & ? & ? & ? & ?). by eapply ok_two. Qed.

Lemma dict_ok_rehashing d : dict_ok d → dictIsRehashing d = true → two_tables d.
Proof.
  unfold dictIsRehashing. intros [E ? ?|n tb E ? ?|n0 tb0 n1 tb1 ? ? ? ?] Hr; [by rewrite E in Hr|by rewrite E in Hr|].
  exists n0, tb0, n1, tb1. done.
Qed.

Lemma entries_two d n0 tb0 n1 tb1 :
  ht_ok (ht0 d) n0 tb0 → ht_ok (ht1 d) n1 tb1 → entries d = concat tb0 ++ concat tb1.
Proof. intros H0 H1. unfold entries. by rewrite (ht_entries_ok _ _ _ H0), (ht_entries_ok _ _ _ H1). Qed.

Lemma rehash_bucket_ok d idx n0 tb0 n1 tb1 e c :
  ht_ok (ht0 d) n0 tb0 → ht_ok (ht1 d) n1 tb1 → Z.of_nat (length (entries d)) ≤ MAX_ELEMS →
  0 ≤ idx → tb0 !! Z.to_nat idx = Some (e :: c) → (∀ i c, tb0 !! i = Some c → Z.of_nat i < idx → c = []) →
  ∃ d', rehash_bucket hash d idx = Ok d' ∧ two_tables d' ∧ entries d' ≡ₚ entries d ∧ iterators d' = iterators d ∧
    rehashidx d' = idx + 1 ∧ size (ht0 d') = size (ht0 d).
Proof.
  intros Ho0 Ho1 Hlen Hidx Hc He. pose proof (lookup_lt_Some _ _ _ Hc) as Hlt. pose proof (ho_length _ _ _ Ho0) as Htl.
  unfold rehash_bucket. destruct (bucket_ok (ht0 d) n0 tb0 idx Ho0) as (c' & Hc' & ->); [lia|]. res_step.
  assert (c' = e :: c) as -> by congruence.
  rewrite (entries_two d _ _ _ _ Ho0 Ho1), length_app in Hlen.
  destruct (concat_insert tb0 _ _ Hc) as (rest & Hp & Hp').
  assert (Hu0 := ho_used _ _ _ Ho0). assert (Hu1 := ho_used _ _ _ Ho1).
  assert (Hlp := Permutation_length Hp). rewrite length_app in Hlp.
  destruct (move_chain_ok n1 (e :: c) (ht0 d) (ht1 d) tb1 Ho1) as (h1 & tb1' & -> & Hh1 & Hp1);
    [unfold MAX_ELEMS in *; lia|unfold MAX_ELEMS in *; lia|]. res_step.
  destruct (set_bucket_ok (ht0 d) n0 tb0 idx (e :: c) [] (used (ht0 d) - Z.of_nat (length (e :: c))) Ho0 Hc) as (h' & E & Hh');
    [lia|cbn [length]; lia|unfold MAX_ELEMS in *; cbn [length] in *; lia|by intros ? ?%elem_of_nil|].
  match goal with |- context [set_bucket ?x idx [] ?u] => change (set_bucket x idx [] u) with
    (set_bucket (ht0 d) idx [] (used (ht0 d) - Z.of_nat (length (e :: c)))) end. rewrite E. res_step. eexists. split; [done|].
  split_and!; [| |done|done|by rewrite (ho_size _ _ _ Ho0); apply (ho_size _ _ _ Hh')].
  - exists n0, (<[Z.to_nat idx := []]> tb0), n1, tb1'. split_and!; cbn; try done; try lia.
    intros i c0 Hi Hlt'. destruct (decide (i = Z.to_nat idx)) as [->|Hne].
    + rewrite list_lookup_insert_eq in Hi by done. congruence.
    + rewrite list_lookup_insert_ne in Hi by done. apply (He i); [done|lia].
  - rewrite (entries_two (mkDict h' h1 (idx + 1) (iterators d)) _ _ _ _ Hh' Hh1), (entries_two d _ _ _ _ Ho0 Ho1), (Hp' []), Hp1, Hp.
    change ([] ++ rest) with rest. rewrite (app_assoc rest). apply Permutation_app_tail, Permutation_app_comm.
Qed.

Lemma rehash_loop_ok n : ∀ ev d,
  two_tables d → Z.of_nat (length (entries d)) ≤ MAX_ELEMS →
  ∃ b d', rehash_loop hash n ev d = Ok (b, d') ∧ two_tables d' ∧ entries d' ≡ₚ entries d ∧ iterators d' = iterators d ∧
    size (ht0 d') = size (ht0 d) ∧ rehashidx d ≤ rehashidx d' ∧
    (n ≠ 0%nat → used (ht0 d') ≠ 0 → rehashidx d < rehashidx d') ∧ (b = true → used (ht0 d') ≠ 0).
Proof.
  induction n as [|n IH]; intros ev d H2 Hlen; cbn [rehash_loop]; [by exists false, d; split_and!|].
  destruct (Z.eqb_spec (used (ht0 d)) 0) as [|Hu]; [by exists false, d; split_and!|].
  destruct H2 as (n0 & tb0 & n1 & tb1 & Hr & Ho0 & Ho1 & Hempty).
  destruct (used_nonempty _ _ _ Ho0 Hu) as (j & cj & Hj & Hcj).
  assert (Hjr : rehashidx d ≤ Z.of_nat j).
  { destruct (Z.lt_ge_cases (Z.of_nat j) (rehashidx d)); [|done]. by destruct Hcj; eauto. }
  assert (Hjn : Z.of_nat j < 2 ^ n0) by (pose proof (lookup_lt_Some _ _ _ Hj); pose proof (ho_length _ _ _ Ho0); lia).
  assert (Hbig : 2 ^ n0 ≤ 2 ^ 30) by (apply Z.pow_le_mono_r; pose proof (ho_n _ _ _ Ho0); lia).
  change (2 ^ 30) with 1073741824 in Hbig.
  rewrite to_size_t_id by (unfold SIZE_MAX, ULLONG_MAX; lia). rewrite (ho_size _ _ _ Ho0), Z.gtb_ltb.
  destruct (Z.ltb_spec (rehashidx d) (2 ^ n0)); [|lia]. cbn [assert]. res_step.
  destruct (skip_empty_ok (ht0 d) n0 tb0 j cj (Z.to_nat (2 ^ n0)) (rehashidx d) ev) as (idx & r & -> & Hidx & Hlt & He & Hne); try done; try lia.
  res_step. destruct r as [ev'|].
  2: { eexists true, _. split; [done|]. specialize (Hlt eq_refl). split; [exists n0, tb0, n1, tb1; cbn; split; [lia|done]|].
       cbn. split_and!; intros; try done; [by apply ho_size with tb0|lia..]. }
  destruct Hne as (e & c & Hc).
  destruct (rehash_bucket_ok d idx n0 tb0 n1 tb1 e c) as (d1 & -> & H2 & Hp & Hit & Hri & Hsz); [done..|lia|done|done|]. res_step.
  destruct (IH ev' d1 H2) as (b & d' & E & H2' & Hp' & Hit' & Hsz' & Hle & _ & Hb); [by rewrite (Permutation_length Hp)|].
  exists b, d'. split_and!; [done|done|by rewrite Hp'|congruence|by rewrite Hsz', Hsz; apply (ho_size _ _ _ Ho0)|lia|lia|done].
Qed.

Lemma dictRehash_ok n d :
  dict_ok d → Z.of_nat (length (entries d)) ≤ MAX_ELEMS →
  ∃ b d', dictRehash hash n d = Ok (b, d') ∧ dict_ok d' ∧ entries d' ≡ₚ entries d ∧ iterators d' = iterators d.
Proof.
  intros Hd Hlen. unfold dictRehash. destruct (dictIsRehashing d) eqn:Hr; [|by exists false, d]. cbn [negb].
  destruct (rehash_loop_ok n (Z.of_nat n * 10) d) as (b & d' & -> & H2 & Hp & Hit & _); [by apply dict_ok_rehashing|done|].
  res_step. destruct b; [exists true, d'; split_and!; [done|by apply two_tables_ok|done|done]|].
  destruct (Z.eqb_spec (used (ht0 d')) 0) as [Hu|]; [|exists true, d'; split_and!; [done|by apply two_tables_ok|done|done]].
  destruct H2 as (n0 & tb0 & n1 & tb1 & _ & Ho0 & Ho1 & _). eexists false, _. split; [done|]. split_and!; [| |done].
  - by eapply ok_one.
  - rewrite <- Hp, (entries_two d' _ _ _ _ Ho0 Ho1). rewrite (ho_used _ _ _ Ho0) in Hu.
    unfold entries. cbn. rewrite (ht_entries_ok _ _ _ Ho1), app_nil_r.
    destruct (concat tb0); [done|cbn in Hu; lia].
Qed.

(** A call with [n] above 0 finishes the rehashing or gets to a later bucket. *)
Lemma dictRehash_progress n d : n ≠ 0%nat →
  dict_ok d → Z.of_nat (length (entries d)) ≤ MAX_ELEMS → dictIsRehashing d = true →
  ∃ b d', dictRehash hash n d = Ok (b, d') ∧ dictIsRehashing d' = b ∧
    (b = true → size (ht0 d') = size (ht0 d) ∧ rehashidx d < rehashidx d' ≤ size (ht0 d)).
Proof.
  intros Hn Hd Hlen Hr. unfold dictRehash. rewrite Hr. cbn [negb].
  destruct (rehash_loop_ok n (Z.of_nat n * 10) d) as (b & d' & -> & H2 & Hp & _ & Hsz & _ & Hlt & Hb); [by apply dict_ok_rehashing|done|].
  res_step. assert (Hmore : used (ht0 d') ≠ 0 → dictIsRehashing d' = true ∧ rehashidx d < rehashidx d' ≤ size (ht0 d)).
  { intros Hu. specialize (Hlt Hn Hu). destruct H2 as (n0 & ? & ? & ? & Hx & Ho & _). rewrite <- Hsz, (ho_size _ _ _ Ho).
    split; [|lia]. unfold dictIsRehashing. by destruct (Z.eqb_spec (rehashidx d') (-1)); [lia|]. }
  destruct b; [by exists true, d'; destruct Hmore; auto|].
  destruct (Z.eqb_spec (used (ht0 d')) 0); [by eexists false, _|]. by exists true, d'; destruct Hmore; auto.
Qed.

Lemma rehash_step_if_ok d :
  dict_ok d → Z.of_nat (length (entries d)) ≤ MAX_ELEMS →
  ∃ d', rehash_step_if hash d = Ok d' ∧ dict_ok d' ∧ entries d' ≡ₚ entries d ∧ iterators d' = iterators d.
Proof.
  intros Hd Hlen. unfold rehash_step_if, _dictRehashStep. destruct (dictIsRehashing d); [|by exists d].
  destruct (iterators d =? 0); [|by exists d].
  destruct (dictRehash_ok 1 d Hd Hlen) as (b & d' & -> & ?). res_step. by exists d'.
Qed.

(** ** Lookup *)

Lemma find_chain_Some key c e : find_chain key c = Some e →
  e.1 = key ∧ ∃ a b, c = a ++ e :: b ∧ unlink_chain key c = a ++ b ∧
    ∀ v, set_value key v c = a ++ (key, v) :: b.
Proof.
  induction c as [|x c IH]; cbn; [done|]. destruct (decide (key = x.1)) as [->|Hne].
  - intros [= ->]. split; [done|]. by exists [], c.
  - intros (Hk & a & b & -> & Hu & Hs)%IH. split; [done|]. exists (x :: a), b. rewrite Hu. split_and!; [done..|].
    intros v. by rewrite Hs.
Qed.

Lemma find_chain_None key c : find_chain key c = None → ∀ e, e ∈ c → e.1 ≠ key.
Proof.
  induction c as [|x c IH]; cbn; [intros _ e He; by apply elem_of_nil in He|].
  destruct (decide (key = x.1)); [done|]. intros E e [->|He]%elem_of_cons; [done|]. by apply IH.
Qed.

Lemma concat_hashed h n tb key e : ht_ok h n tb → e ∈ concat tb → e.1 = key →
  ∃ c, tb !! Z.to_nat (hash key mod 2 ^ n) = Some c ∧ e ∈ c.
Proof.
  intros Hh He <-. apply list_elem_of_In, in_concat in He as (c & Hc & He). apply list_elem_of_In in Hc, He.
  apply list_elem_of_lookup in Hc as [i Hi]. exists c. split; [|done]. rewrite (ho_hash _ _ _ Hh _ _ _ Hi He).
  by rewrite Nat2Z.id.
Qed.

(** The entry [e] is in the chain [c] at index [i] of table [t]. *)
Definition place d (t : bool) (i : Z) c : Prop :=
  ∃ n tb, ht_ok (ht d t) n tb ∧ tb !! Z.to_nat i = Some c ∧ 0 ≤ i < 2 ^ n ∧ (∀ e, e ∈ c → hash e.1 mod 2 ^ n = i).

Lemma place_bucket d t i c : place d t i c → bucket (ht d t) i = Ok c.
Proof. intros (n & tb & Hh & Hc & Hi & _). destruct (bucket_ok _ _ _ i Hh) as (c' & ? & ->); [lia|congruence]. Qed.

Lemma place_of_key d t n tb key : ht_ok (ht d t) n tb →
  ∃ c, place d t (index_of hash key (ht d t)) c ∧ ∀ e, e ∈ concat tb → e.1 = key → e ∈ c.
Proof.
  intros Hh. rewrite (index_of_ok _ _ _ key Hh).
  pose proof (Z.mod_pos_bound (hash key) (2 ^ n) (pow2_pos n ltac:(pose proof (ho_n _ _ _ Hh); lia))) as Hb.
  destruct (bucket_ok _ _ _ _ Hh Hb) as (c & Hc & _). exists c. split.
  - exists n, tb. split_and!; [done|done|lia|lia|]. intros e He. rewrite (ho_hash _ _ _ Hh _ _ _ Hc He). lia.
  - intros e He Hk. destruct (concat_hashed _ _ _ key e Hh He Hk) as (c' & Hc' & He'). congruence.
Qed.

(** The outcome of the search in both tables. *)
Lemma find_tables_ok d key :
  dict_ok d → ht0 d ≠ _dictReset →
  ∃ r, find_tables hash d key = Ok r ∧
    match r with
    | None => ∀ e, e ∈ entries d → e.1 ≠ key
    | Some (t, i, e) => ∃ c, place d t i c ∧ find_chain key c = Some e
    end.
Proof.
  intros Hd Hne. unfold find_tables.
  assert (∃ n0 tb0, ht_ok (ht0 d) n0 tb0) as (n0 & tb0 & Ho0) by (destruct Hd; eauto; done).
  destruct (place_of_key d false n0 tb0 key Ho0) as (c0 & Hp0 & Hin0). pose proof (place_bucket _ _ _ _ Hp0) as Hb0.
  cbn [ht] in Hb0. rewrite Hb0. res_step.
  destruct (find_chain key c0) as [e|] eqn:E0; [eexists; split; [done|]; cbn; eauto|].
  pose proof (find_chain_None _ _ E0) as Hn0.
  destruct (dictIsRehashing d) eqn:Hr; cbn [negb].
  - destruct (dict_ok_rehashing d Hd Hr) as (n0' & tb0' & n1 & tb1 & _ & Ho0' & Ho1 & _).
    destruct (place_of_key d true n1 tb1 key Ho1) as (c1 & Hp1 & Hin1). pose proof (place_bucket _ _ _ _ Hp1) as Hb1.
    cbn [ht] in Hb1. rewrite Hb1. res_step.
    eexists. split; [done|]. destruct (find_chain key c1) as [e|] eqn:E1; [eauto|].
    intros e He Hk. rewrite (entries_two d _ _ _ _ Ho0 Ho1), elem_of_app in He. destruct He as [He|He].
    + by apply (Hn0 e); [apply Hin0|].
    + by apply (find_chain_None _ _ E1 e); [apply Hin1|].
  - eexists. split; [done|]. cbn. intros e He Hk. unfold entries in He. rewrite (ht_entries_ok _ _ _ Ho0), elem_of_app in He.
    destruct He as [He|He]; [by apply (Hn0 e); [apply Hin0|]|].
    assert (ht1 d = _dictReset) as E.
    { unfold dictIsRehashing in Hr. destruct Hd as [? ? ?|? ? ? ? ?|? ? ? ? Hb ? ? ?]; [done|done|]. exfalso.
      destruct (Z.eqb_spec (rehashidx d) (-1)); [lia|done]. }
    rewrite E in He. by apply elem_of_nil in He.
Qed.

(** ** Updates *)

Lemma dict_ok_idle d : dict_ok d → dictIsRehashing d = false → ht1 d = _dictReset ∧ rehashidx d = -1.
Proof.
  unfold dictIsRehashing. intros [? ? ?|? ? ? ? ?|? ? ? ? ? ? ? ?] Hr; [done|done|].
  destruct (Z.eqb_spec (rehashidx d) (-1)); [lia|done].
Qed.

(** Replacing the chain at a place. *)
Lemma place_update d t i c c' u :
  dict_ok d → place d t i c → (∀ e, e ∈ c' → index_of hash e.1 (ht d t) = i) →
  Z.of_nat (length c') + used (ht d t) = Z.of_nat (length c) + u → u ≤ 2 * MAX_ELEMS →
  (t = false → dictIsRehashing d = true → c ≠ []) →
  ∃ h', set_bucket (ht d t) i c' u = Ok h' ∧ dict_ok (set_ht d t h') ∧
    ∃ R, entries d ≡ₚ c ++ R ∧ entries (set_ht d t h') ≡ₚ c' ++ R.
Proof.
  intros Hd (n & tb & Hh & Hc & Hi & _) Hidx Hlen Hu Hne.
  destruct (set_bucket_ok (ht d t) n tb i c c' u Hh Hc) as (h' & E & Hh'); [lia|done|done| |].
  { intros e He. rewrite <- (index_of_ok _ _ _ _ Hh). by apply Hidx. }
  exists h'. split; [done|]. destruct (concat_insert tb _ _ Hc) as (rest & Hp & Hp').
  destruct t; cbn [ht set_ht] in *.
  - destruct Hd as [? ? E1|? ? ? ? E1|n0 tb0 n1 tb1 Hr Ho0 Ho1 Hempty];
      [rewrite E1 in Hh; by destruct Hh|rewrite E1 in Hh; by destruct Hh|].
    split; [by eapply ok_two|]. exists (concat tb0 ++ rest).
    unfold entries. cbn. rewrite (ht_entries_ok _ _ _ Ho0), (ht_entries_ok _ _ _ Hh), (ht_entries_ok _ _ _ Hh'), Hp, (Hp' c').
    split; by rewrite Permutation_app_swap_app.
  - unfold entries. cbn. rewrite (ht_entries_ok _ _ _ Hh), (ht_entries_ok _ _ _ Hh'). split.
    + destruct Hd as [? E1 ?|n0 tb0 ? ? ?|n0 tb0 n1 tb1 Hr Ho0 Ho1 Hempty]; [rewrite E1 in Hh; by destruct Hh|by eapply ok_one|].
      assert (n0 = n ∧ tb0 = tb) as [-> ->].
      { pose proof (ho_table _ _ _ Hh). pose proof (ho_table _ _ _ Ho0). split; [|congruence].
        apply (Z.pow_inj_r 2); [lia|destruct Ho0; lia|destruct Hh; lia|]. destruct Ho0, Hh. congruence. }
      eapply ok_two; cbn; [exact Hr|exact Hh'|exact Ho1|]. intros j c0 Hj Hlt.
      destruct (decide (j = Z.to_nat i)) as [->|Hji]; [|rewrite list_lookup_insert_ne in Hj by done; eauto].
      destruct (Hne eq_refl); [|by eapply Hempty].
      unfold dictIsRehashing. destruct (Z.eqb_spec (rehashidx d) (-1)); [lia|done].
    + exists (rest ++ ht_entries (ht1 d)). rewrite Hp, (Hp' c'). by rewrite <- !app_assoc.
Qed.

Lemma elem_entries d m e : entries d ≡ₚ map_to_list m → e ∈ entries d ↔ m !! e.1 = Some e.2.
Proof. intros ->. destruct e. apply elem_of_map_to_list. Qed.

Lemma rep_length d m : entries d ≡ₚ map_to_list m → length (entries d) = stdpp.base.size m.
Proof. intros ->. by rewrite length_map_to_list. Qed.

Lemma entries_used d : dict_ok d → used (ht0 d) + used (ht1 d) = Z.of_nat (length (entries d)) ∧
  0 ≤ used (ht0 d) ∧ 0 ≤ used (ht1 d).
Proof.
  unfold entries. rewrite length_app. intros [? E0 E1|? ? ? H0 E1|? ? ? ? ? H0 H1 ?].
  - rewrite E0, E1. cbn. lia.
  - rewrite E1, (ht_entries_ok _ _ _ H0), (ho_used _ _ _ H0). cbn. lia.
  - rewrite (ht_entries_ok _ _ _ H0), (ht_entries_ok _ _ _ H1), (ho_used _ _ _ H0), (ho_used _ _ _ H1). lia.
Qed.

Lemma dictSize_rep d m : dict_rep d m → dictSize d = Z.of_nat (stdpp.base.size m).
Proof.
  intros (Hd & Hp & Hs). unfold dictSize. rewrite (proj1 (entries_used d Hd)), (rep_length d m Hp).
  apply to_size_t_id. unfold MAX_ELEMS, SIZE_MAX, ULLONG_MAX in *. change (2 ^ 29) with 536870912 in Hs. lia.
Qed.

Lemma nonempty_table d : dict_ok d → entries d ≠ [] → ht0 d ≠ _dictReset.
Proof.
  intros Hd Hne E. destruct Hd as [? E0 E1|? ? ? Hh ?|? ? ? ? ? Hh ? ?]; [|by apply ht_ok_not_reset in Hh..].
  unfold entries in Hne. by rewrite E0, E1 in Hne.
Qed.

(** Searching in a dictionary that stands for [m]. *)
Lemma find_tables_rep d m key :
  dict_ok d → entries d ≡ₚ map_to_list m → ht0 d ≠ _dictReset →
  ∃ r, find_tables hash d key = Ok r ∧
    match m !! key with
    | None => r = None
    | Some v => ∃ t i c, r = Some (t, i, (key, v)) ∧ place d t i c ∧ find_chain key c = Some (key, v)
    end.
Proof.
  intros Hd Hp Hne. destruct (find_tables_ok d key Hd Hne) as (r & -> & Hr). exists r. split; [done|].
  destruct r as [[[t i] e]|].
  - destruct Hr as (c & Hpl & Hf). destruct (find_chain_Some _ _ _ Hf) as (Hk & a & b & Hc & _).
    assert (He : e ∈ entries d).
    { destruct Hpl as (n & tb & Hh & Htb & _). assert (Hce : e ∈ concat tb).
      { apply list_elem_of_In, in_concat. exists c. rewrite <- !list_elem_of_In.
        split; [by eapply list_elem_of_lookup_2|]. subst c. set_solver. }
      unfold entries. rewrite elem_of_app. destruct t; cbn in Hh; rewrite (ht_entries_ok _ _ _ Hh); auto. }
    apply (elem_entries _ _ _ Hp) in He. destruct e as [k v]. cbn in *. subst k. rewrite He. eauto 10.
  - destruct (m !! key) as [v|] eqn:E; [|done]. exfalso. apply (Hr (key, v)); [|done]. by apply (elem_entries _ _ _ Hp).
Qed.

(** ** Operations *)

Lemma dictFind_rep d m key : dict_rep d m →
  ∃ d', dictFind hash d key = Ok ((key,.) <$> m !! key, d') ∧ dict_rep d' m ∧ iterators d' = iterators d.
Proof.
  intros Hrep. pose proof (dictSize_rep d m Hrep) as Hsz. destruct Hrep as (Hd & Hp & Hs). unfold dictFind. rewrite Hsz.
  destruct (Z.eqb_spec (Z.of_nat (stdpp.base.size m)) 0) as [E|Hne].
  { exists d. split; [|done]. assert (m = ∅) as -> by (apply map_size_empty_iff; lia). by rewrite lookup_empty. }
  destruct (rehash_step_if_ok d Hd) as (d1 & -> & Hd1 & Hp1 & Hit); [by rewrite (rep_length d m Hp)|]. res_step.
  rewrite Hp in Hp1. destruct (find_tables_rep d1 m key Hd1 Hp1) as (r & -> & Hr).
  { apply nonempty_table; [done|]. intros E. apply (f_equal length) in E. rewrite (rep_length d1 m Hp1) in E. cbn in E. lia. }
  res_step. exists d1. split; [|done]. destruct (m !! key) as [v|]; [|by subst r]. by destruct Hr as (t & i & c & -> & _).
Qed.

Lemma dictExpand_ok d sz :
  dict_ok d → sz ≤ 2 ^ 30 → ∃ st d', dictExpand d sz = Ok (st, d') ∧ dict_ok d' ∧ entries d' = entries d ∧
    iterators d' = iterators d ∧ (st = DICT_OK → ht0 d' ≠ _dictReset) ∧
    (dictIsRehashing d = false → used (ht0 d) ≤ sz → size (ht0 d) < sz → st = DICT_OK).
Proof.
  intros Hd Hsz. unfold dictExpand. destruct (dictNextPower_ok sz Hsz) as (n & Hn & -> & Hle). res_step.
  destruct (dictIsRehashing d) eqn:Hr; cbn [orb]; [eexists _, d; split; [done|]; done|].
  destruct (Z.gtb_spec (used (ht0 d)) sz); [eexists _, d; split; [done|]; split_and!; try done; lia|].
  destruct (Z.eqb_spec (2 ^ n) (size (ht0 d))) as [|Hneq]; [eexists _, d; split; [done|]; split_and!; try done; lia|].
  pose proof (new_table_ok n Hn) as Hnew.
  destruct (dict_ok_idle d Hd Hr) as [E1 Hidx]. destruct (table (ht0 d)) as [tb|] eqn:Et.
  - assert (∃ n0 tb0, ht_ok (ht0 d) n0 tb0) as (n0 & tb0 & Ho0).
    { destruct Hd as [? E0 ?|? ? ? ? ?|? ? ? ? ? ? ? ?]; [by rewrite E0 in Et|eauto..]. }
    eexists _, _. split; [done|]. split_and!; try done.
    + eapply ok_two; cbn; [|exact Ho0|exact Hnew|lia]. pose proof (pow2_pos n0 ltac:(destruct Ho0; lia)). lia.
    + unfold entries, ht_entries. cbn. by rewrite concat_replicate_nil, E1.
    + cbn. intros _ E0. by rewrite E0 in Et.
  - eexists _, _. split; [done|]. split_and!; try done.
    + eapply ok_one; cbn; [done|exact Hnew|done].
    + unfold entries, ht_entries. cbn. by rewrite concat_replicate_nil, Et.
Qed.

Lemma dict_ok_size d : dict_ok d → ht0 d = _dictReset ∨ 0 < size (ht0 d).
Proof.
  assert (Hpos : ∀ h n tb, ht_ok h n tb → 0 < size h).
  { intros h n tb []. rewrite ho_size0. apply pow2_pos. lia. }
  intros []; eauto.
Qed.

Lemma dictExpandIfNeeded_ok can d :
  dict_ok d → Z.of_nat (length (entries d)) ≤ MAX_ELEMS →
  ∃ d', _dictExpandIfNeeded can d = Ok (DICT_OK, d') ∧ dict_ok d' ∧ entries d' = entries d ∧
    iterators d' = iterators d ∧ ht0 d' ≠ _dictReset.
Proof.
  intros Hd Hlen. unfold _dictExpandIfNeeded. destruct (dictIsRehashing d) eqn:Hr.
  { exists d. split_and!; try done. destruct (dict_ok_rehashing d Hd Hr) as (? & ? & ? & ? & _ & Hh & _).
    by eapply ht_ok_not_reset. }
  destruct (entries_used d Hd) as (Hu & Hu0 & Hu1).
  destruct (Z.eqb_spec (size (ht0 d)) 0) as [Es|Es].
  { destruct (dictExpand_ok d DICT_HT_INITIAL_SIZE Hd) as (st & d' & -> & ? & ? & ? & Hok & Hst); [done|].
    assert (used (ht0 d) = 0) by (destruct (dict_ok_size d Hd) as [->|?]; [done|lia]).
    assert (st = DICT_OK) as -> by (apply Hst; [done|unfold DICT_HT_INITIAL_SIZE; lia..]). eauto 10. }
  assert (Hne : ht0 d ≠ _dictReset) by (intros E; by rewrite E in Es).
  destruct (_ && _) eqn:Eb; [|by exists d]. apply andb_true_iff in Eb as [Hge _]. apply Z.geb_le in Hge.
  unfold MAX_ELEMS in Hlen. change (2 ^ 29) with 536870912 in Hlen.
  rewrite to_size_t_id by (unfold SIZE_MAX, ULLONG_MAX; lia).
  destruct (dictExpand_ok d (used (ht0 d) * 2) Hd) as (st & d' & -> & ? & ? & ? & Hok & Hst); [change (2 ^ 30) with 1073741824; lia|].
  assert (0 < size (ht0 d)) by (by destruct (dict_ok_size d Hd)).
  assert (st = DICT_OK) as -> by (apply Hst; [done|lia..]). eauto 10.
Qed.

Lemma iterators_set_ht d t h : iterators (set_ht d t h) = iterators d.
Proof. by destruct t. Qed.

(** The table that takes new entries is allocated. *)
Lemma insert_table_ok d : dict_ok d → ht0 d ≠ _dictReset → ∃ n tb, ht_ok (ht d (dictIsRehashing d)) n tb.
Proof.
  intros Hd Hne. destruct (dictIsRehashing d) eqn:Hr; cbn [ht].
  - destruct (dict_ok_rehashing d Hd Hr) as (? & ? & n1 & tb1 & _ & _ & ? & _). eauto.
  - destruct Hd; eauto. done.
Qed.

Lemma dictAddRaw_rep can d m key val :
  dict_rep d m → Z.of_nat (stdpp.base.size m) < MAX_ELEMS →
  ∃ d', iterators d' = iterators d ∧
    match m !! key with
    | None => dictAddRaw hash can d key val = Ok (Some (key, val), None, d') ∧ dict_rep d' (<[key := val]> m)
    | Some v => ∃ t i c, dictAddRaw hash can d key val = Ok (None, Some (t, i, (key, v)), d') ∧ dict_rep d' m ∧
                  place d' t i c ∧ find_chain key c = Some (key, v)
    end.
Proof.
  intros (Hd & Hp & Hs) Hlt. unfold dictAddRaw, _dictKeyIndex.
  destruct (rehash_step_if_ok d Hd) as (d1 & -> & Hd1 & Hp1 & Hit1); [by rewrite (rep_length d m Hp)|]. res_step.
  rewrite Hp in Hp1.
  destruct (dictExpandIfNeeded_ok can d1 Hd1) as (d2 & -> & Hd2 & Hp2 & Hit2 & Hne); [by rewrite (rep_length d1 m Hp1)|].
  res_step. rewrite <- Hp2 in Hp1. destruct (find_tables_rep d2 m key Hd2 Hp1 Hne) as (r & -> & Hr). res_step.
  destruct (m !! key) as [v|] eqn:Em.
  { destruct Hr as (t & i & c & -> & Hpl & Hf). exists d2. split; [congruence|]. exists t, i, c. split_and!; try done. }
  subst r. res_step. destruct (insert_table_ok d2 Hd2 Hne) as (n & tb & Hh).
  destruct (place_of_key d2 (dictIsRehashing d2) n tb key Hh) as (c & Hpl & _). rewrite (place_bucket _ _ _ _ Hpl). res_step.
  pose proof Hpl as (n' & tb' & Hh' & _ & _ & Hck).
  assert (Hus := entries_used d2 Hd2). rewrite (rep_length d2 m Hp1) in Hus.
  destruct (place_update d2 (dictIsRehashing d2) _ c ((key, val) :: c) (used (ht d2 (dictIsRehashing d2)) + 1) Hd2 Hpl)
    as (h' & -> & Hd3 & R & HR & HR').
  - intros e [->|He]%elem_of_cons; [done|]. rewrite (index_of_ok _ _ _ _ Hh'). by apply Hck.
  - cbn [length]. lia.
  - unfold MAX_ELEMS in *. destruct (dictIsRehashing d2); cbn [ht]; lia.
  - by intros ->.
  - res_step. eexists. split; [|split; [done|]].
    { rewrite iterators_set_ht. congruence. }
    split_and!; [done| |].
    + rewrite HR', map_to_list_insert by done. cbn. by rewrite <- Hp1, HR.
    + rewrite map_size_insert_None by done. lia.
Qed.

(** A chain with the entry of [key] taken out holds what the map holds without [key]. *)
Lemma split_entry (m : gmap K V) key v a b R : m !! key = Some v →
  map_to_list m ≡ₚ (a ++ (key, v) :: b) ++ R → map_to_list (delete key m) ≡ₚ a ++ b ++ R.
Proof.
  intros Em HR. apply (Permutation_cons_inv (a := (key, v))). rewrite map_to_list_delete, HR by done.
  rewrite <- app_assoc. symmetry. apply Permutation_middle.
Qed.

Lemma dictSetVal_rep d m t i c key v val : dict_rep d m → m !! key = Some v →
  place d t i c → find_chain key c = Some (key, v) →
  ∃ d', dictSetVal d t i key val = Ok d' ∧ dict_rep d' (<[key := val]> m) ∧ iterators d' = iterators d.
Proof.
  intros (Hd1 & Hp1 & Hs1) Em Hpl Hf. unfold dictSetVal. rewrite (place_bucket _ _ _ _ Hpl). res_step.
  destruct (find_chain_Some _ _ _ Hf) as (_ & a & b & -> & _ & Hset). rewrite Hset.
  pose proof Hpl as (n & tb & Hh & _ & _ & Hck).
  assert (Hub : used (ht d t) ≤ 2 * MAX_ELEMS) by (by destruct Hh).
  destruct (place_update d t i _ (a ++ (key, val) :: b) (used (ht d t)) Hd1 Hpl) as (h' & -> & Hd2 & R & HR & HR').
  - intros e He. rewrite (index_of_ok _ _ _ _ Hh).
    cut (∃ e', e' ∈ a ++ (key, v) :: b ∧ e'.1 = e.1); [intros (e' & He' & <-); by apply Hck|].
    apply elem_of_app in He as [He|[->|He]%elem_of_cons]; [exists e; set_solver|exists (key, v); set_solver|exists e; set_solver].
  - rewrite !length_app. cbn. lia.
  - done.
  - by destruct a.
  - res_step. eexists. split; [done|]. split; [|by rewrite iterators_set_ht].
    split_and!; [done| |by rewrite map_size_insert_Some by eauto].
    rewrite HR'. rewrite Hp1 in HR. rewrite <- insert_delete_eq, map_to_list_insert by apply lookup_delete_eq.
    rewrite (split_entry m key v a b R Em HR), <- app_assoc. symmetry. apply Permutation_middle.
Qed.

Lemma dictReplace_rep can d m key val :
  dict_rep d m → Z.of_nat (stdpp.base.size m) < MAX_ELEMS →
  ∃ d', dictReplace hash can d key val = Ok (bool_decide (m !! key = None), m !! key, d') ∧
    dict_rep d' (<[key := val]> m) ∧ iterators d' = iterators d.
Proof.
  intros Hrep Hlt. unfold dictReplace. destruct (dictAddRaw_rep can d m key val Hrep Hlt) as (d1 & Hit & H1).
  destruct (m !! key) as [v|] eqn:Em.
  - destruct H1 as (t & i & c & -> & Hrep1 & Hpl & Hf). res_step. cbn [deref]. res_step.
    destruct (dictSetVal_rep d1 m t i c key v val Hrep1 Em Hpl Hf) as (d2 & -> & Hrep2 & Hit2). res_step.
    exists d2. split_and!; [done|done|congruence].
  - destruct H1 as [-> H1]. res_step. eauto.
Qed.

Lemma dictAdd_rep can d m key val :
  dict_rep d m → Z.of_nat (stdpp.base.size m) < MAX_ELEMS →
  ∃ d', dictAdd hash can d key val = Ok (if decide (m !! key = None) then DICT_OK else DICT_ERR, d') ∧
    dict_rep d' (if decide (m !! key = None) then <[key := val]> m else m) ∧ iterators d' = iterators d.
Proof.
  intros Hrep Hlt. unfold dictAdd. destruct (dictAddRaw_rep can d m key val Hrep Hlt) as (d1 & Hit & H1).
  destruct (m !! key) as [v|].
  - destruct H1 as (t & i & c & -> & H1 & _). res_step. by exists d1.
  - destruct H1 as [-> H1]. res_step. by exists d1.
Qed.

Lemma dictGenericDelete_rep d m key : dict_rep d m →
  ∃ d', dictGenericDelete hash d key = Ok ((key,.) <$> m !! key, d') ∧ dict_rep d' (delete key m) ∧
    iterators d' = iterators d.
Proof.
  intros (Hd & Hp & Hs). unfold dictGenericDelete. destruct (entries_used d Hd) as (Hu & Hu0 & Hu1).
  rewrite (rep_length d m Hp) in Hu. destruct (_ && _) eqn:Eb.
  { apply andb_true_iff in Eb as [E0%Z.eqb_eq E1%Z.eqb_eq].
    assert (m = ∅) as -> by (apply map_size_empty_iff; lia). exists d. rewrite lookup_empty, delete_empty. done. }
  assert (Hne : Z.of_nat (stdpp.base.size m) ≠ 0).
  { intros E. apply andb_false_iff in Eb as [Eb%Z.eqb_neq|Eb%Z.eqb_neq]; lia. }
  destruct (rehash_step_if_ok d Hd) as (d1 & -> & Hd1 & Hp1 & Hit); [by rewrite (rep_length d m Hp)|]. res_step.
  rewrite Hp in Hp1. destruct (find_tables_rep d1 m key Hd1 Hp1) as (r & -> & Hr).
  { apply nonempty_table; [done|]. intros E. apply (f_equal length) in E. rewrite (rep_length d1 m Hp1) in E. cbn in E. lia. }
  res_step. destruct (m !! key) as [v|] eqn:Em.
  2: { subst r. exists d1. rewrite delete_id by done. done. }
  destruct Hr as (t & i & c & -> & Hpl & Hf). rewrite (place_bucket _ _ _ _ Hpl). res_step.
  destruct (find_chain_Some _ _ _ Hf) as (_ & a & b & -> & Hun & _). rewrite Hun.
  pose proof Hpl as (n & tb & Hh & _ & _ & Hck).
  assert (Hub : used (ht d1 t) ≤ 2 * MAX_ELEMS) by (by destruct Hh).
  destruct (place_update d1 t i _ (a ++ b) (used (ht d1 t) - 1) Hd1 Hpl) as (h' & -> & Hd2 & R & HR & HR').
  - intros e He. rewrite (index_of_ok _ _ _ _ Hh). apply Hck. set_solver.
  - rewrite !length_app. cbn. lia.
  - lia.
  - by destruct a.
  - res_step. eexists. split; [done|]. split; [|by rewrite iterators_set_ht].
    split_and!; [done| |rewrite map_size_delete, Em; lia].
    rewrite HR'. rewrite Hp1 in HR. by rewrite (split_entry m key v a b R Em HR), app_assoc.
Qed.
End spec.
