(* ===== verification/DictOps.v ===== *)
(** The dictionary of dict.c as a finite map: whatever sequence of operations is applied,
    with the rehashing, the resizes and the pauses that iterators ask for anywhere in
    between, the results are those of a map; a rehashing finishes; and a walk with an
    iterator returns the entries of the map, each once. *)
From stdpp Require Import base decidable list gmap.
From S2P Require Import Prelude Dict DictSpec.
Local Open Scope Z_scope.

Section ops.
  Context {K V : Type} `{Countable K} (hash : K → Z).
  Implicit Types (d : dict K V) (m : gmap K V).

(** ** Emptying *)

Lemma clear_loop_ok (tb : list (chain K V)) :
  Z.of_nat (length (concat tb)) ≤ 2 * MAX_ELEMS →
  (clear_loop tb (Z.of_nat (length (concat tb)))).1 = concat tb.
Proof.
  unfold MAX_ELEMS. change (2 * 2 ^ 29) with 1073741824.
  induction tb as [|c tb IH]; intros Hb; [done|]. cbn [concat clear_loop] in *. rewrite length_app in *.
  rewrite Z.gtb_ltb. destruct (Z.ltb_spec 0 (Z.of_nat (length c + length (concat tb)))) as [|Hz].
  - rewrite to_size_t_id by (unfold SIZE_MAX, ULLONG_MAX; lia).
    replace (Z.of_nat (length c + length (concat tb)) - Z.of_nat (length c)) with (Z.of_nat (length (concat tb))) by lia.
    destruct (clear_loop tb _) as [l u] . cbn [fst] in *. f_equal. apply IH. lia.
  - destruct c; [|cbn in Hz; lia]. destruct (concat tb); [done|cbn in Hz; lia].
Qed.

Lemma dictClear_ok (h : dictht K V) n tb : ht_ok hash h n tb → _dictClear h = (concat tb, _dictReset).
Proof.
  intros []. unfold _dictClear. rewrite ho_table, ho_used. cbn [default].
  by rewrite clear_loop_ok by (by rewrite <- ho_used).
Qed.

Lemma dict_rep_create : dict_rep hash dictCreate (∅ : gmap K V).
Proof. split; [by apply ok_new|]. by rewrite map_to_list_empty. Qed.

Lemma dictEmpty_rep d m : dict_rep hash d m →
  (dictEmpty d).1 ≡ₚ map_to_list m ∧ (dictEmpty d).2 = dictCreate.
Proof.
  intros (Hd & Hp & _). rewrite <- Hp. unfold dictEmpty, entries.
  destruct Hd as [? -> ->|n tb ? H0 ->|n0 tb0 n1 tb1 ? H0 H1 ?].
  - done.
  - rewrite (dictClear_ok _ _ _ H0), (ht_entries_ok _ _ _ _ H0). done.
  - rewrite (dictClear_ok _ _ _ H0), (dictClear_ok _ _ _ H1), (ht_entries_ok _ _ _ _ H0), (ht_entries_ok _ _ _ _ H1). done.
Qed.

Lemma dictRelease_frees d m : dict_rep hash d m → dictRelease d ≡ₚ map_to_list m.
Proof.
  intros (Hd & Hp & _). rewrite <- Hp. unfold dictRelease, entries.
  assert (Hc : ∀ h : dictht K V, h = _dictReset ∨ (∃ n tb, ht_ok hash h n tb) → (_dictClear h).1 = ht_entries h).
  { intros h [->|(n & tb & Hh)]; [done|]. by rewrite (dictClear_ok _ _ _ Hh), (ht_entries_ok _ _ _ _ Hh). }
  rewrite !Hc; [done|destruct Hd; eauto..].
Qed.

(** ** Resizing and rehashing keep the map *)

Lemma dictExpand_rep d m sz : dict_rep hash d m → sz ≤ 2 ^ 30 →
  ∃ st d', dictExpand d sz = Ok (st, d') ∧ dict_rep hash d' m.
Proof.
  intros (Hd & Hp & Hs) Hsz. destruct (dictExpand_ok hash d sz Hd Hsz) as (st & d' & -> & ? & E & _).
  exists st, d'. split; [done|]. split; [done|]. by rewrite E.
Qed.

Lemma dictResize_rep can d m : dict_rep hash d m → ∃ st d', dictResize can d = Ok (st, d') ∧ dict_rep hash d' m.
Proof.
  intros Hrep. unfold dictResize. destruct (negb can || dictIsRehashing d); [by exists DICT_ERR, d|].
  apply dictExpand_rep; [done|]. pose proof Hrep as (Hd & Hp & Hs).
  destruct (entries_used hash d Hd) as (Hu & Hu0 & Hu1). rewrite (rep_length d m Hp) in Hu.
  unfold MAX_ELEMS in Hs. change (2 ^ 29) with 536870912 in Hs. change (2 ^ 30) with 1073741824.
  rewrite to_int_id by (unfold INT_MIN, INT_MAX; lia).
  unfold DICT_HT_INITIAL_SIZE. destruct (Z.ltb_spec (used (ht0 d)) 4);
    rewrite to_size_t_id; unfold SIZE_MAX, ULLONG_MAX; lia.
Qed.

Lemma dictRehash_rep n d m : dict_rep hash d m → ∃ b d', dictRehash hash n d = Ok (b, d') ∧ dict_rep hash d' m.
Proof.
  intros (Hd & Hp & Hs). destruct (dictRehash_ok hash n d Hd) as (b & d' & -> & ? & E & _); [by rewrite (rep_length d m Hp)|].
  exists b, d'. split; [done|]. split; [done|]. by rewrite E.
Qed.

Lemma set_iterators_ok d n : dict_ok hash d → dict_ok hash (set_iterators d n).
Proof.
  intros [???|?????|n0 tb0 n1 tb1 ????]; [by apply ok_new|by eapply ok_one|by eapply (ok_two hash (set_iterators d n) n0 tb0 n1 tb1)].
Qed.

Lemma set_iterators_rep d m n : dict_rep hash d m → dict_rep hash (set_iterators d n) m.
Proof. intros (Hd & Hp & Hs). split; [by apply set_iterators_ok|done]. Qed.

Lemma rehash_ms_rep now start ms m : ∀ fuel i d r,
  dict_rep hash d m → (dictIsRehashing d = true → size (ht0 d) - rehashidx d ≤ Z.of_nat fuel) →
  ∃ n d', rehash_ms hash fuel now i start ms d r = Ok (n, d') ∧ dict_rep hash d' m ∧
    ((∀ j, now j - start ≤ ms) → dictIsRehashing d' = false).
Proof.
  induction fuel as [|f IH]; intros i d r Hrep Hf; cbn [rehash_ms];
    (destruct (dictIsRehashing d) eqn:Hr; [|unfold dictRehash; rewrite Hr; cbn [negb]; res_step; by eexists _, d]);
    specialize (Hf eq_refl); pose proof Hrep as (Hd & Hp & Hs);
    (destruct (dictRehash_progress hash 100 d) as (b & d1 & E & Hb & Hlt); [done|done|by rewrite (rep_length d m Hp)|done|]);
    (destruct (dictRehash_rep 100 d m Hrep) as (b' & d1' & E' & Hrep1)); rewrite E in E'; (assert (d1' = d1) as -> by congruence); rewrite E; res_step;
    destruct b; try (eexists _, d1; by split_and!); destruct (Hlt eq_refl) as [Hsz Hlt'].
  - lia.
  - rewrite Z.gtb_ltb. destruct (Z.ltb_spec ms (now i - start)).
    + eexists _, d1. split_and!; [done..|]. intros Hnow. specialize (Hnow i). lia.
    + apply IH; [done|]. lia.
Qed.

(** ** Any sequence of operations *)

Inductive dict_op :=
| OpAdd (k : K) (v : V) | OpAddOrFind (k : K) (v : V) | OpReplace (k : K) (v : V) | OpFetch (k : K) | OpDelete (k : K) | OpSize
| OpEmpty
| OpRehash (n : nat) | OpExpand (sz : Z) | OpResize
| OpCanResize (b : bool)   (* dictEnableResize, dictDisableResize *)
| OpIterators (n : Z).     (* iterators come and go *)

Inductive dict_out :=
| OStatus (st : dict_status) | OReplaced (added : bool) (old : option V) | OValue (v : option V)
| OSize (n : Z) | OFreed (n : Z) | ODone.

Definition dict_step (can : bool) d (op : dict_op) : res (dict_out * bool * dict K V) :=
  match op with
  | OpAdd k v => '(st, d) ← dictAdd hash can d k v; Ok (OStatus st, can, d)
  | OpAddOrFind k v => '(e, d) ← dictAddOrFind hash can d k v; Ok (OValue (option_map snd e), can, d)
  | OpReplace k v => '(a, o, d) ← dictReplace hash can d k v; Ok (OReplaced a o, can, d)
  | OpFetch k => '(o, d) ← dictFetchValue hash d k; Ok (OValue o, can, d)
  | OpDelete k => '(st, d) ← dictDelete hash d k; Ok (OStatus st, can, d)
  | OpSize => Ok (OSize (dictSize d), can, d)
  | OpEmpty => let '(l, d) := dictEmpty d in Ok (OFreed (Z.of_nat (length l)), can, d)
  | OpRehash n => '(_, d) ← dictRehash hash n d; Ok (ODone, can, d)
  | OpExpand sz => '(_, d) ← dictExpand d sz; Ok (ODone, can, d)
  | OpResize => '(_, d) ← dictResize can d; Ok (ODone, can, d)
  | OpCanResize b => Ok (ODone, b, d)
  | OpIterators n => Ok (ODone, can, set_iterators d n)
  end.

Definition map_op m (op : dict_op) : dict_out * gmap K V :=
  match op with
  | OpAdd k v => match m !! k with None => (OStatus DICT_OK, <[k := v]> m) | Some _ => (OStatus DICT_ERR, m) end
  | OpAddOrFind k v => match m !! k with None => (OValue (Some v), <[k := v]> m) | Some w => (OValue (Some w), m) end
  | OpReplace k v => (OReplaced (bool_decide (m !! k = None)) (m !! k), <[k := v]> m)
  | OpFetch k => (OValue (m !! k), m)
  | OpDelete k => (OStatus (if m !! k is Some _ then DICT_OK else DICT_ERR), delete k m)
  | OpSize => (OSize (Z.of_nat (stdpp.base.size m)), m)
  | OpEmpty => (OFreed (Z.of_nat (stdpp.base.size m)), ∅)
  | _ => (ODone, m)
  end.

Fixpoint dict_run (can : bool) d (ops : list dict_op) : res (list dict_out * dict K V) :=
  match ops with
  | [] => Ok ([], d)
  | op :: ops => '(o, can, d) ← dict_step can d op; '(os, d) ← dict_run can d ops; Ok (o :: os, d)
  end.
Fixpoint map_run m (ops : list dict_op) : list dict_out * gmap K V :=
  match ops with
  | [] => ([], m)
  | op :: ops => let '(o, m) := map_op m op in let '(os, m) := map_run m ops in (o :: os, m)
  end.

(** The sizes asked for fit the model's tables. *)
Definition op_ok (op : dict_op) : Prop := match op with OpExpand sz => sz ≤ 2 ^ 30 | _ => True end.
#[export] Instance op_ok_dec op : Decision (op_ok op).
Proof. destruct op; apply _. Defined.

Lemma dict_step_ok can d m op : dict_rep hash d m → Z.of_nat (stdpp.base.size m) < MAX_ELEMS → op_ok op →
  ∃ can' d', dict_step can d op = Ok ((map_op m op).1, can', d') ∧ dict_rep hash d' (map_op m op).2.
Proof.
  intros Hrep Hlt Hop. destruct op; cbn [dict_step map_op].
  - destruct (dictAdd_rep hash can d m k v Hrep Hlt) as (d' & -> & Hd' & _). res_step. exists can, d'.
    by destruct (m !! k); cbn in *.
  - unfold dictAddOrFind. destruct (dictAddRaw_rep hash can d m k v Hrep Hlt) as (d' & _ & H'). exists can, d'. destruct (m !! k).
    + destruct H' as (t & i & c & -> & Hd' & _). by do 2 res_step.
    + destruct H' as [-> Hd']. by do 2 res_step.
  - destruct (dictReplace_rep hash can d m k v Hrep Hlt) as (d' & -> & Hd' & _). res_step. by exists can, d'.
  - unfold dictFetchValue. destruct (dictFind_rep hash d m k Hrep) as (d' & -> & Hd' & _). do 2 res_step. exists can, d'.
    by destruct (m !! k).
  - unfold dictDelete. destruct (dictGenericDelete_rep hash d m k Hrep) as (d' & -> & Hd' & _). do 2 res_step. exists can, d'.
    by destruct (m !! k).
  - exists can, d. by rewrite (dictSize_rep hash d m Hrep).
  - destruct (dictEmpty_rep d m Hrep) as [Hl Hd']. destruct (dictEmpty d) as [l d']. cbn in *. subst d'. exists can, dictCreate.
    rewrite Hl, length_map_to_list. split; [done|apply dict_rep_create].
  - destruct (dictRehash_rep n d m Hrep) as (b & d' & -> & Hd'). res_step. by exists can, d'.
  - destruct (dictExpand_rep d m sz Hrep Hop) as (b & d' & -> & Hd'). res_step. by exists can, d'.
  - destruct (dictResize_rep can d m Hrep) as (b & d' & -> & Hd'). res_step. by exists can, d'.
  - by exists b, d.
  - exists can, (set_iterators d n). split; [done|by apply set_iterators_rep].
Qed.

Lemma map_op_size m op : (stdpp.base.size (map_op m op).2 ≤ S (stdpp.base.size m))%nat.
Proof.
  assert (Hins : ∀ k v, (stdpp.base.size (<[k := v]> m) ≤ S (stdpp.base.size m))%nat)
    by (intros k v; rewrite map_size_insert; destruct (m !! k); cbn; lia).
  destruct op; cbn; auto with lia.
  - destruct (m !! k); cbn; auto with lia.
  - destruct (m !! k); cbn; auto with lia.
  - rewrite map_size_delete. destruct (m !! k); cbn; lia.
  - rewrite map_size_empty. lia.
Qed.

Lemma dict_run_ok ops : ∀ can d m, dict_rep hash d m → Forall op_ok ops →
  Z.of_nat (stdpp.base.size m + length ops) ≤ MAX_ELEMS →
  ∃ d', dict_run can d ops = Ok ((map_run m ops).1, d') ∧ dict_rep hash d' (map_run m ops).2.
Proof.
  induction ops as [|op ops IH]; intros can d m Hrep Hops Hlen; [by exists d|]. cbn [dict_run map_run length] in *.
  apply Forall_cons in Hops as [Hop Hops].
  destruct (dict_step_ok can d m op Hrep ltac:(lia) Hop) as (can' & d1 & -> & Hrep1). res_step.
  pose proof (map_op_size m op) as Hsz. destruct (map_op m op) as [o m1]. cbn in *.
  destruct (IH can' d1 m1 Hrep1 Hops ltac:(lia)) as (d2 & -> & Hrep2). res_step. exists d2. by destruct (map_run m1 ops).
Qed.

(** C4: From an empty dictionary, any sequence of insertions, replacements, lookups,
    deletions and emptyings returns what a finite map returns and leaves a dictionary that
    stands for that map, whatever the hash function is and wherever incremental rehashing
    steps, expansions, shrinkings and pauses of the rehashing happen in between. *)
Theorem dict_refines_map ops :
  Forall op_ok ops → Z.of_nat (length ops) ≤ MAX_ELEMS →
  ∃ d, dict_run true dictCreate ops = Ok ((map_run ∅ ops).1, d) ∧ dict_rep hash d (map_run ∅ ops).2.
Proof. intros Hops Hlen. apply dict_run_ok; [apply dict_rep_create|done|]. by rewrite map_size_empty. Qed.

(** A rehashing driven by the timer never corrupts the dictionary and, unless the
    clock cuts it short, moves every entry to the new table and ends. *)
Theorem dictRehashMilliseconds_finishes now d m ms : dict_rep hash d m →
  ∃ n d', dictRehashMilliseconds hash now d ms = Ok (n, d') ∧ dict_rep hash d' m ∧
    ((∀ i, now i - now 0%nat ≤ ms) → dictIsRehashing d' = false).
Proof.
  intros Hrep. apply rehash_ms_rep; [done|]. intros Hr. destruct Hrep as (Hd & _).
  destruct (dict_ok_rehashing hash d Hd Hr) as (n0 & ? & ? & ? & Hi & Ho & _).
  pose proof (ho_size _ _ _ _ Ho) as Hs. pose proof (pow2_pos n0 ltac:(pose proof (ho_n _ _ _ _ Ho); lia)). lia.
Qed.

(** ** Iterators *)

Definition tb_of (h : dictht K V) : list (chain K V) := default [] (table h).

Lemma tables_sized d t : dict_ok hash d → (t = true → dictIsRehashing d = true) →
  Z.of_nat (length (tb_of (ht d t))) = size (ht d t) ∧ size (ht d t) ≤ 2 ^ 30.
Proof.
  assert (Hok : ∀ h n tb, ht_ok hash h n tb → Z.of_nat (length (tb_of h)) = size h ∧ size h ≤ 2 ^ 30).
  { intros h n tb []. unfold tb_of. rewrite ho_table, ho_size. split; [done|]. apply Z.pow_le_mono_r; lia. }
  intros Hd Ht. destruct t; cbn [ht].
  - destruct (dict_ok_rehashing hash d Hd (Ht eq_refl)) as (? & ? & ? & ? & _ & _ & ? & _). eauto.
  - destruct Hd as [? -> ?|? ? ? ? ?|? ? ? ? ? ? ? ?]; eauto. done.
Qed.

Lemma bucket_tb d t i : dict_ok hash d → (t = true → dictIsRehashing d = true) → 0 ≤ i < size (ht d t) →
  ∃ c, bucket (ht d t) i = Ok c ∧ drop (Z.to_nat i) (tb_of (ht d t)) = c :: drop (Z.to_nat (i + 1)) (tb_of (ht d t)).
Proof.
  intros Hd Ht Hi. destruct (tables_sized d t Hd Ht) as [Hlen _].
  destruct (lookup_lt_is_Some_2 (tb_of (ht d t)) (Z.to_nat i)) as [c Hc]; [lia|]. exists c. split.
  - unfold bucket, tb_of in *. destruct (table (ht d t)); [|done]. cbn [default deref] in *. res_step. by apply at_index_Ok.
  - rewrite (drop_S _ _ _ Hc). do 2 f_equal. lia.
Qed.

(** What an iterator has still to return. *)
Definition rest d (it : dictIterator K V) : list (entry K V) :=
  default [] (it_entry it) ++ concat (drop (Z.to_nat (it_index it + 1)) (tb_of (ht d (it_table it))))
  ++ (if dictIsRehashing d && negb (it_table it) then concat (tb_of (ht1 d)) else []).

Record iter_ok d (it : dictIterator K V) : Prop := {
  io_index : -1 ≤ it_index it < size (ht d (it_table it)) + 1;
  io_entry : it_entry it ≠ None ∨ it_table it = true → 0 ≤ it_index it;
  io_table : it_table it = true → dictIsRehashing d = true;
}.

Definition buckets_left d (it : dictIterator K V) : Z :=
  Z.max 0 (size (ht d (it_table it)) - (it_index it + 1)) + (if dictIsRehashing d && negb (it_table it) then size (ht1 d) else 0).

(** The first call counts the iterator. *)
Definition started d (it : dictIterator K V) : dict K V :=
  if (it_index it =? -1) && negb (it_table it) then set_iterators d (to_size_t (iterators d + 1)) else d.

Lemma started_ht d it t : ht (started d it) t = ht d t.
Proof. unfold started. destruct (_ && _); [by destruct t|done]. Qed.
Lemma started_rehashing d it : dictIsRehashing (started d it) = dictIsRehashing d.
Proof. unfold started. by destruct (_ && _). Qed.
Lemma started_ok d it : dict_ok hash d → dict_ok hash (started d it).
Proof. unfold started. destruct (_ && _); [apply set_iterators_ok|done]. Qed.
Lemma rest_started d it it' : rest (started d it) it' = rest d it'.
Proof. unfold rest. rewrite started_ht, started_rehashing. by change (ht1 (started d it)) with (ht (started d it) true); rewrite started_ht. Qed.

Lemma started_later d it : 0 ≤ it_index it → started d it = d.
Proof. unfold started. intros. by destruct (Z.eqb_spec (it_index it) (-1)); [lia|]. Qed.

Lemma size_signed d t : dict_ok hash d → (t = true → dictIsRehashing d = true) →
  to_signed 64 (size (ht d t)) = size (ht d t).
Proof.
  intros Hd Ht. destruct (tables_sized d t Hd Ht) as [Hlen Hsz]. change (2 ^ 30) with 1073741824 in Hsz.
  apply to_signed_id; [done|]. change (2 ^ (64 - 1)) with 9223372036854775808. lia.
Qed.

(** The iterator steps to the next bucket, in the same table or in the next one. *)
Lemma next_bucket d it : dict_ok hash d → iter_ok d it → it_entry it = None → 0 < buckets_left d it →
  ∃ c i t, iter_ok d (mkIter i t None) ∧ 0 ≤ i < size (ht d t) ∧ buckets_left d (mkIter i t None) + 1 ≤ buckets_left d it ∧
    rest d it = c ++ rest d (mkIter i t None) ∧
    ∀ f, next_loop f d it =
      match c with
      | e :: c' => Ok (Some e, mkIter i t (Some c'), started d it)
      | [] => match f with O => Fault OutOfFuel | S f => next_loop f (started d it) (mkIter i t None) end
      end.
Proof.
  intros Hd [Hi He Ht] Hent Hleft. destruct (tables_sized d (it_table it) Hd Ht) as [Hlen Hsz].
  assert (Hin : 0 ≤ it_index it + 1) by lia.
  destruct (Z.lt_ge_cases (it_index it + 1) (size (ht d (it_table it)))) as [Hlt|Hge].
  - destruct (bucket_tb d (it_table it) (it_index it + 1) Hd Ht) as (c & Hb & Hdr); [lia|].
    exists c, (it_index it + 1), (it_table it). split_and!; [|lia|lia| | |].
    + split; cbn; [lia|lia|done].
    + unfold buckets_left. cbn [it_index it_table]. lia.
    + unfold rest. cbn [it_index it_table it_entry]. rewrite Hent. cbn [default]. rewrite Hdr. cbn [concat app]. by rewrite <- app_assoc.
    + intros f. destruct f; cbn [next_loop]; rewrite Hent; fold (started d it); rewrite started_ht, size_signed, Z.geb_leb by done;
        (destruct (Z.leb_spec (size (ht d (it_table it))) (it_index it + 1)); [lia|]); rewrite Hb; do 2 res_step; by destruct c.
  - unfold buckets_left in Hleft. destruct (dictIsRehashing d && negb (it_table it)) eqn:Hrt; [|lia].
    pose proof Hrt as [Hr Htt%negb_true_iff]%andb_true_iff.
    destruct (bucket_tb d true 0 Hd) as (c & Hb & Hdr); [done|cbn [ht]; lia|]. cbn [ht] in Hb, Hdr.
    exists c, 0, true. split_and!; [|lia|cbn [ht]; lia| | |].
    + split; cbn [it_index it_table it_entry ht]; [lia|lia|done].
    + unfold buckets_left. cbn [it_index it_table ht negb]. rewrite Hrt, andb_false_r. lia.
    + unfold rest. cbn [it_index it_table it_entry ht negb]. rewrite Hent, Hrt, andb_false_r. cbn [default].
      rewrite (drop_ge (tb_of _)) by lia. cbn [concat app]. rewrite drop_0 in Hdr. by rewrite Hdr, app_nil_r.
    + intros f. destruct f; cbn [next_loop]; rewrite Hent; fold (started d it); rewrite started_ht, size_signed, Z.geb_leb, started_rehashing, Hrt by done;
        (destruct (Z.leb_spec (size (ht d (it_table it))) (it_index it + 1)); [|lia]);
        change (ht1 (started d it)) with (ht (started d it) true); rewrite started_ht; cbn [ht]; rewrite Hb; do 2 res_step; by destruct c.
Qed.

(** With no bucket left the iterator is at its end. *)
Lemma next_end f d it : dict_ok hash d → iter_ok d it → it_entry it = None → buckets_left d it ≤ 0 →
  rest d it = [] ∧ next_loop f d it = Ok (None, mkIter (it_index it + 1) (it_table it) None, started d it).
Proof.
  intros Hd [Hi He Ht] Hent Hleft. destruct (tables_sized d (it_table it) Hd Ht) as [Hlen Hsz].
  unfold buckets_left in Hleft. destruct (dictIsRehashing d && negb (it_table it)) eqn:Hrt.
  { pose proof Hrt as [Hr _]%andb_true_iff. destruct (dict_ok_rehashing hash d Hd Hr) as (? & ? & n1 & ? & _ & _ & Ho & _).
    rewrite (ho_size _ _ _ _ Ho) in Hleft. pose proof (pow2_pos n1 ltac:(pose proof (ho_n _ _ _ _ Ho); lia)). lia. }
  split.
  - unfold rest. rewrite Hent, Hrt, drop_ge by lia. done.
  - destruct f; cbn [next_loop]; rewrite Hent; fold (started d it); rewrite started_ht, size_signed, Z.geb_leb, started_rehashing, Hrt by done;
      (destruct (Z.leb_spec (size (ht d (it_table it))) (it_index it + 1)); [|lia]); by res_step.
Qed.

Lemma buckets_left_nonneg d it : dict_ok hash d → 0 ≤ buckets_left d it.
Proof.
  intros Hd. unfold buckets_left. destruct (_ && _) eqn:Hr; [|lia]. apply andb_true_iff in Hr as [Hr _].
  destruct (tables_sized d true Hd (λ _, Hr)) as [? _]. cbn [ht] in *. lia.
Qed.

(** What [dictNext] returns: the head of the entries left, and an iterator over the others. *)
Definition next_spec (fuel : nat) d it : Prop :=
  ∃ it', 0 ≤ it_index it' ∧ next_loop fuel d it = Ok (head (rest d it), it', started d it) ∧
    (rest d it ≠ [] → iter_ok d it' ∧ rest d it' = tail (rest d it)).

Lemma next_bucket_spec fuel d it : dict_ok hash d → iter_ok d it → it_entry it = None →
  buckets_left d it ≤ Z.of_nat fuel →
  next_spec fuel d it.
Proof.
  revert d it. induction fuel as [|f IH]; intros d it Hd Hit Hent Hf;
    (destruct (Z.lt_ge_cases 0 (buckets_left d it)) as [Hpos|Hz];
      [|destruct (next_end 0 d it Hd Hit Hent Hz) as [Hr _]; unfold next_spec; rewrite Hr;
        eexists; rewrite (proj2 (next_end _ d it Hd Hit Hent Hz)); split_and!; [|done|done]; destruct Hit; cbn; lia]).
  { lia. }
  destruct (next_bucket d it Hd Hit Hent Hpos) as (c & i & t & Hit1 & Hi & Hl & Hrest & Hn).
  unfold next_spec. rewrite Hrest, Hn. destruct c as [|e c].
  - destruct (IH (started d it) (mkIter i t None)) as (it' & ? & E & Hr).
    + by apply started_ok.
    + destruct Hit1. split; rewrite ?started_ht, ?started_rehashing; done.
    + done.
    + unfold buckets_left in *. change (ht1 (started d it)) with (ht (started d it) true).
      rewrite !started_ht, started_rehashing. cbn [ht]. lia.
    + exists it'. split; [done|]. cbn [app]. rewrite E, rest_started, started_later by (cbn; lia). split; [done|].
      intros Hne. rewrite !rest_started in Hr. destruct (Hr Hne) as [[]]. split; [|done].
      rewrite ?started_ht, ?started_rehashing in *. by split.
  - exists (mkIter i t (Some c)). split; [cbn; lia|]. split; [done|]. intros _.
    split; [|done]. destruct Hit1. split; cbn in *; [done|lia|done].
Qed.

Lemma dictNext_ok d it : dict_ok hash d → iter_ok d it →
  ∃ it', 0 ≤ it_index it' ∧ dictNext d it = Ok (head (rest d it), it', started d it) ∧
    (rest d it ≠ [] → iter_ok d it' ∧ rest d it' = tail (rest d it)).
Proof.
  intros Hd Hit. unfold dictNext. set (f := (_ + _ + 2)%nat). change (next_spec f d it).
  assert (Hf : buckets_left d it + 1 ≤ Z.of_nat f).
  { destruct Hit as [Hi He Ht]. unfold buckets_left, f. destruct (it_table it), (dictIsRehashing d); cbn [ht andb negb] in *; lia. }
  destruct (it_entry it) as [c|] eqn:Hent; [|apply next_bucket_spec; [done..|lia]].
  assert (Hpos : 0 ≤ it_index it) by (apply (io_entry _ _ Hit); left; congruence).
  assert (Hrest : rest d it = c ++ rest d (mkIter (it_index it) (it_table it) None)) by (unfold rest; cbn; by rewrite Hent).
  assert (Hit1 : ∀ o, iter_ok d (mkIter (it_index it) (it_table it) o)) by (intros o; by destruct Hit).
  unfold next_spec. rewrite Hrest, (started_later d it) by done. destruct c as [|e c].
  - pose proof (buckets_left_nonneg d it Hd). destruct f as [|f]; [lia|].
    destruct (next_bucket_spec f d (mkIter (it_index it) (it_table it) None)) as (it' & ? & E & Hr); [done..|unfold buckets_left in *; cbn; lia|].
    exists it'. split; [done|]. split; [|done]. cbn [next_loop]. rewrite Hent. res_step. rewrite E. by rewrite started_later.
  - exists (mkIter (it_index it) (it_table it) (Some c)). split; [done|]. split; [|done].
    destruct f; cbn [next_loop]; rewrite Hent; by res_step.
Qed.

(** A loop over a safe iterator; its body looks up the keys [look e] for entry [e]. *)
Fixpoint look_up d (keys : list K) : res (dict K V) :=
  match keys with
  | [] => Ok d
  | k :: keys => '(_, d) ← dictFind hash d k; look_up d keys
  end.
Fixpoint dict_walk (fuel : nat) (look : entry K V → list K) d it : res (list (entry K V) * dict K V) :=
  '(de, it, d) ← dictNext d it;
  match de with
  | None => Ok ([], dictReleaseIterator d it)
  | Some e =>
      d ← look_up d (look e);
      match fuel with
      | O => Fault OutOfFuel
      | S f => '(l, d) ← dict_walk f look d it; Ok (e :: l, d)
      end
  end.

(** While an iterator is counted, a lookup moves nothing. *)
Lemma look_up_paused d m keys : dict_rep hash d m → iterators d ≠ 0 → look_up d keys = Ok d.
Proof.
  intros Hrep Hit. induction keys as [|k keys IH]; [done|]. cbn [look_up].
  destruct (dictFind_rep hash d m k Hrep) as (d' & E & _). rewrite E. res_step.
  enough (d' = d) as -> by done. revert E. unfold dictFind. destruct (dictSize d =? 0); [congruence|].
  assert (rehash_step_if hash d = Ok d) as ->.
  { unfold rehash_step_if, _dictRehashStep. destruct (Z.eqb_spec (iterators d) 0); [done|]. by destruct (dictIsRehashing d). }
  res_step. destruct (find_tables hash d k); [|done]. res_step. congruence.
Qed.

Lemma dict_walk_rest fuel look m : ∀ d it, dict_rep hash d m → iterators d ≠ 0 → iter_ok d it → 0 ≤ it_index it →
  (length (rest d it) ≤ fuel)%nat →
  dict_walk fuel look d it = Ok (rest d it, set_iterators d (to_size_t (iterators d - 1))).
Proof.
  induction fuel as [|f IH]; intros d it Hrep Hn Hit Hi Hf;
    (destruct (dictNext_ok d it) as (it' & Hi' & E & Hr); [by destruct Hrep|done|]); cbn [dict_walk];
    rewrite E, started_later by done; res_step; (destruct (rest d it) as [|e r] eqn:Er; cbn [head] in *;
      [unfold dictReleaseIterator; by destruct (Z.eqb_spec (it_index it') (-1)); [lia|]|]).
  { cbn in Hf. lia. }
  rewrite (look_up_paused d m) by done. res_step. destruct (Hr ltac:(done)) as [Hok Hr']. cbn in Hf, Hr'.
  rewrite (IH d it') by (try done; rewrite Hr'; lia). res_step. by rewrite Hr'.
Qed.

Lemma rest_start d : dict_ok hash d → rest d dictGetSafeIterator = entries d ∧ iter_ok d dictGetSafeIterator.
Proof.
  intros Hd. unfold rest, entries, ht_entries. cbn [dictGetSafeIterator it_entry it_index it_table default ht app negb].
  rewrite andb_true_r. change (Z.to_nat (-1 + 1)) with 0%nat. rewrite drop_0. split.
  - destruct (dictIsRehashing d) eqn:Hr; [done|]. by destruct (dict_ok_idle hash d Hd Hr) as [-> _].
  - destruct (tables_sized d false Hd) as [? _]; [done|]. cbn [ht] in *. split; cbn; [lia|naive_solver|done].
Qed.

(** C27: A loop over a safe iterator returns every entry of the dictionary once and nothing
    else, also in the middle of a rehashing and with lookups in the body of the loop, and
    leaves the dictionary as it was. *)
Theorem iterator_walk look d m :
  dict_rep hash d m → 0 ≤ iterators d < LLONG_MAX →
  ∃ l, dict_walk (S (stdpp.base.size m)) look d dictGetSafeIterator = Ok (l, d) ∧ l ≡ₚ map_to_list m.
Proof.
  intros Hrep Hn. pose proof Hrep as (Hd & Hp & _). destruct (rest_start d Hd) as [Hr Hit].
  destruct (dictNext_ok d dictGetSafeIterator Hd Hit) as (it' & Hi & E & Hnext). rewrite Hr in *.
  exists (entries d). split; [|done]. cbn [dict_walk]. rewrite E. res_step.
  assert (Hts : to_size_t (iterators d + 1) = iterators d + 1)
    by (apply to_size_t_id; unfold LLONG_MAX, SIZE_MAX, ULLONG_MAX in *; lia).
  assert (Hback : set_iterators (started d dictGetSafeIterator) (to_size_t (iterators (started d dictGetSafeIterator) - 1)) = d).
  { cbn. rewrite Hts, Z.add_simpl_r, to_size_t_id by (unfold LLONG_MAX, SIZE_MAX, ULLONG_MAX in *; lia). by destruct d. }
  assert (Hlen : length (entries d) = stdpp.base.size m) by (by apply rep_length).
  destruct (entries d) as [|e r]; cbn [head].
  - unfold dictReleaseIterator. destruct (Z.eqb_spec (it_index it') (-1)); [lia|]. cbn [negb andb]. by rewrite Hback.
  - destruct (Hnext ltac:(done)) as [Hok Hr']. cbn [tail] in Hr'.
    assert (Hrep' : dict_rep hash (started d dictGetSafeIterator) m) by (by apply set_iterators_rep).
    assert (Hn' : iterators (started d dictGetSafeIterator) ≠ 0) by (cbn; rewrite Hts; lia).
    rewrite (look_up_paused _ m) by done. res_step.
    assert (Hf : (length (rest (started d dictGetSafeIterator) it') ≤ stdpp.base.size m)%nat)
      by (rewrite rest_started, Hr'; cbn in Hlen; lia).
    rewrite (dict_walk_rest (stdpp.base.size m) look m) by (try done; by destruct Hok).
    res_step. by rewrite Hback, rest_started, Hr'.
Qed.
End ops.

(** ** Instances *)

(** Five insertions: the fifth one starts the rehashing from 4 to 8 buckets. *)
Definition sample_ops : list (@dict_op Z Z) := [OpAdd 1 10; OpAdd 2 20; OpAdd 5 50; OpAdd 7 70; OpAdd 13 130].
Definition sample_map : gmap Z Z := (map_run ∅ sample_ops).2.
Definition sample_dict : dict Z Z :=
  match dict_run (λ k, k) true dictCreate sample_ops with Ok (_, d) => d | _ => dictCreate end.

Lemma sample_rep : dict_rep (λ k, k) sample_dict sample_map.
Proof.
  destruct (dict_run_ok (λ k : Z, k) sample_ops true dictCreate ∅) as (d & E & Hrep); [apply dict_rep_create|..].
  { by apply (bool_decide_unpack _). }
  { vm_compute. discriminate. }
  unfold sample_dict, sample_map. by rewrite E.
Qed.

Lemma dict_refines_map_witness :
  ∃ d, dict_run (λ k, k) true dictCreate (sample_ops ++ [OpRehash 1; OpAdd 5 51; OpDelete 1; OpFetch 5; OpSize; OpEmpty])
    = Ok ([OStatus DICT_OK; OStatus DICT_OK; OStatus DICT_OK; OStatus DICT_OK; OStatus DICT_OK; ODone;
           OStatus DICT_ERR; OStatus DICT_OK; OValue (Some 50); OSize 4; OFreed 4], d).
Proof.
  destruct (dict_refines_map (λ k, k) (sample_ops ++ [OpRehash 1; OpAdd 5 51; OpDelete 1; OpFetch 5; OpSize; OpEmpty]))
    as (d & E & _).
  - by apply (bool_decide_unpack _).
  - vm_compute. discriminate.
  - exists d. rewrite E. vm_compute. reflexivity.
Defined.

Lemma dictRehashMilliseconds_finishes_witness :
  dictIsRehashing sample_dict = true ∧
  ∃ n d', dictRehashMilliseconds (λ k, k) (λ _, 0) sample_dict 1 = Ok (n, d') ∧ dictIsRehashing d' = false.
Proof.
  split; [vm_compute; reflexivity|].
  destruct (dictRehashMilliseconds_finishes (λ k, k) (λ _, 0) sample_dict sample_map 1 sample_rep) as (n & d' & E & _ & Hf).
  exists n, d'. split; [exact E|]. apply Hf. intros _. lia.
Defined.

Lemma iterator_walk_witness :
  dictIsRehashing sample_dict = true ∧
  ∃ l, dict_walk (λ k, k) (S (stdpp.base.size sample_map)) (λ e, [e.1; 3]) sample_dict dictGetSafeIterator
    = Ok (l, sample_dict) ∧ l ≡ₚ map_to_list sample_map.
Proof.
  split; [vm_compute; reflexivity|].
  apply (iterator_walk (λ k, k) (λ e, [e.1; 3]) sample_dict sample_map sample_rep).
  replace (iterators sample_dict) with 0 by (vm_compute; reflexivity). unfold LLONG_MAX. lia.
Defined.
