(* ===== verification/DictScan.v ===== *)
(** [dictScan] of dict.c: the cursor counts upwards with its bits reversed, so that a scan
    returns every key that stays in the dictionary while it is resized and rehashed
    between the calls; and the exception, a cursor with bits above the mask of the smaller
    table during a rehashing. *)
From stdpp Require Import base decidable list gmap sorting.
From S2P Require Import Prelude Dict DictSpec DictOps.
Local Open Scope Z_scope.

(** ** Reversal of the bits *)

Definition W : Z := 2 ^ 64.

Lemma testbit_size_t z i : 0 ≤ i < 64 → Z.testbit (to_size_t z) i = Z.testbit z i.
Proof. intros Hi. unfold to_size_t, to_unsigned. apply Z.mod_pow2_bits_low. lia. Qed.

Lemma size_t_range z : 0 ≤ to_size_t z < W.
Proof. apply Z.mod_pos_bound. done. Qed.

Lemma word_high z i : 0 ≤ z < W → 64 ≤ i → Z.testbit z i = false.
Proof. intros Hz Hi. rewrite <- (Z.mod_small z W) by done. apply Z.mod_pow2_bits_high. lia. Qed.

Lemma word_of_bits z : (∀ i, 64 ≤ i → Z.testbit z i = false) → 0 ≤ z < W.
Proof.
  intros Hb. assert (z = z mod W) as ->; [|by apply Z.mod_pos_bound].
  unfold W. apply Z.bits_inj'. intros i Hi. destruct (Z.lt_ge_cases i 64).
  - by rewrite Z.mod_pow2_bits_low.
  - rewrite Z.mod_pow2_bits_high by lia. by apply Hb.
Qed.

(** Two words are equal when their 64 bits are. *)
Lemma word_ext x y : 0 ≤ x < W → 0 ≤ y < W → (∀ i, 0 ≤ i < 64 → Z.testbit x i = Z.testbit y i) → x = y.
Proof.
  intros Hx Hy Hb. apply Z.bits_inj'. intros i Hi. destruct (Z.lt_ge_cases i 64); [by apply Hb|].
  by rewrite !word_high.
Qed.

(** One round of the loop of [rev]. *)
Definition swap (s mask v : Z) : Z :=
  Z.lor (Z.land (Z.shiftr v s) mask) (Z.land (to_size_t (Z.shiftl v s)) (ulnot mask)).

Lemma swap_bit s mask v i : 0 ≤ s → 0 ≤ i < 64 →
  Z.testbit (swap s mask v) i = Z.testbit v (if Z.testbit mask i then i + s else i - s).
Proof.
  intros Hs Hi. unfold swap, ulnot. rewrite Z.lor_spec, !Z.land_spec, Z.shiftr_spec, !testbit_size_t, Z.lnot_spec, Z.shiftl_spec by lia.
  destruct (Z.testbit mask i); cbn [negb]; by rewrite ?andb_true_r, ?andb_false_r, ?orb_false_r.
Qed.

Lemma swap_range s mask v : 0 ≤ v < W → 0 ≤ s → 0 ≤ swap s mask v < W.
Proof.
  intros Hv Hs. apply word_of_bits. intros i Hi. unfold swap.
  rewrite Z.lor_spec, !Z.land_spec, Z.shiftr_spec, (word_high v), (word_high (to_size_t _)) by (try apply size_t_range; lia). done.
Qed.

Lemma rev_round f s mask v s' mask' :
  Z.shiftr s 1 = s' → (s' >? 0) = true → Z.lxor mask (to_size_t (Z.shiftl mask s')) = mask' →
  rev_loop (S f) s mask v = rev_loop f s' mask' (swap s' mask' v).
Proof. intros <- Hs <-. cbn [rev_loop]. by rewrite Hs. Qed.

Lemma revbits_swaps v : revbits v =
  swap 1 6148914691236517205 (swap 2 3689348814741910323 (swap 4 1085102592571150095
    (swap 8 71777214294589695 (swap 16 281470681808895 (swap 32 4294967295 v))))).
Proof.
  unfold revbits. rewrite (rev_round _ _ _ _ 32 4294967295), (rev_round _ _ _ _ 16 281470681808895),
    (rev_round _ _ _ _ 8 71777214294589695), (rev_round _ _ _ _ 4 1085102592571150095),
    (rev_round _ _ _ _ 2 3689348814741910323), (rev_round _ _ _ _ 1 6148914691236517205) by reflexivity.
  cbn [rev_loop]. reflexivity.
Qed.
Lemma revbits_0 : revbits 0 = 0.
Proof. vm_compute. reflexivity. Qed.
#[local] Opaque revbits.

Lemma range_64 (P : Z → Prop) : Forall P (seqZ 0 64) → ∀ i, 0 ≤ i < 64 → P i.
Proof. intros HF i Hi. rewrite Forall_forall in HF. apply HF, elem_of_seqZ. lia. Qed.

(** Traces a given bit back through the rounds. *)
Ltac swap_bits :=
  cbv beta;
  repeat (rewrite swap_bit by lia;
    match goal with |- context [if ?b then ?x else ?y] =>
      let r := eval vm_compute in (if b then x else y) in change (if b then x else y) with r end).

Lemma revbits_bit v i : 0 ≤ i < 64 → Z.testbit (revbits v) i = Z.testbit v (63 - i).
Proof.
  revert i. apply range_64. rewrite revbits_swaps. let l := eval vm_compute in (seqZ 0 64) in change (seqZ 0 64) with l.
  repeat (apply Forall_cons_2; [swap_bits; reflexivity|]). apply Forall_nil_2.
Qed.

Lemma revbits_range v : 0 ≤ v < W → 0 ≤ revbits v < W.
Proof. intros Hv. rewrite revbits_swaps. by repeat apply swap_range. Qed.

Lemma revbits_invol v : 0 ≤ v < W → revbits (revbits v) = v.
Proof.
  intros Hv. apply word_ext; [by repeat apply revbits_range|done|]. intros i Hi.
  rewrite !revbits_bit by lia. f_equal. lia.
Qed.

(** Two words agree on their low bits when their reversals agree on the high bits. *)
Lemma revbits_div a x y : 0 ≤ a ≤ 64 → 0 ≤ x < W → 0 ≤ y < W →
  revbits x / 2 ^ (64 - a) = revbits y / 2 ^ (64 - a) ↔ x mod 2 ^ a = y mod 2 ^ a.
Proof.
  intros Ha Hx Hy. split; intros E.
  - apply Z.bits_inj'. intros i Hi. destruct (Z.lt_ge_cases i a); [|by rewrite !Z.mod_pow2_bits_high by lia].
    rewrite !Z.mod_pow2_bits_low by lia. apply (f_equal (λ z, Z.testbit z (a - 1 - i))) in E.
    rewrite !Z.div_pow2_bits, !revbits_bit in E by lia. by replace (63 - (a - 1 - i + (64 - a))) with i in E by lia.
  - apply Z.bits_inj'. intros i Hi. rewrite !Z.div_pow2_bits by lia. destruct (Z.lt_ge_cases i a).
    + rewrite !revbits_bit by lia. apply (f_equal (λ z, Z.testbit z (63 - (i + (64 - a))))) in E.
      by rewrite !Z.mod_pow2_bits_low in E by lia.
    + rewrite !word_high; [done|by apply revbits_range|lia|by apply revbits_range|lia].
Qed.

(** The step of the cursor, on its reversal: up to the next multiple of [2 ^ (64 - a)]. *)
Definition next_cursor (m0 v : Z) : Z := revbits (to_size_t (revbits (Z.lor v (ulnot m0)) + 1)).

Lemma ulnot_mask_bit a i : 0 ≤ a ≤ 64 → 0 ≤ i < 64 → Z.testbit (ulnot (2 ^ a - 1)) i = (a <=? i).
Proof.
  intros Ha Hi. unfold ulnot. rewrite testbit_size_t, Z.lnot_spec by lia. replace (2 ^ a - 1) with (Z.ones a) by (rewrite Z.ones_equiv; lia).
  rewrite Z.testbit_ones by lia. destruct (Z.ltb_spec i a), (Z.leb_spec a i), (Z.leb_spec 0 i); try done; lia.
Qed.

Lemma next_cursor_rev a v : 0 ≤ a ≤ 64 → 0 ≤ v < W →
  revbits (next_cursor (2 ^ a - 1) v) = ((revbits v / 2 ^ (64 - a) + 1) * 2 ^ (64 - a)) mod W.
Proof.
  intros Ha Hv. unfold next_cursor. rewrite revbits_invol by apply size_t_range. unfold to_size_t, to_unsigned, W. f_equal.
  assert (Hlor : 0 ≤ Z.lor v (ulnot (2 ^ a - 1)) < W).
  { apply word_of_bits. intros i Hi. rewrite Z.lor_spec, !word_high by (try apply size_t_range; lia). done. }
  set (B := 2 ^ (64 - a)). assert (0 < B) by (apply Z.pow_pos_nonneg; lia).
  pose proof (revbits_range _ Hlor) as Hr. set (r := revbits (Z.lor v (ulnot (2 ^ a - 1)))) in *.
  assert (Hdiv : r / B = revbits v / B).
  { apply revbits_div; [lia|done|done|]. apply Z.bits_inj'. intros i Hi.
    destruct (Z.lt_ge_cases i a); [|by rewrite !Z.mod_pow2_bits_high by lia]. rewrite !Z.mod_pow2_bits_low by lia.
    rewrite Z.lor_spec, ulnot_mask_bit by lia. destruct (Z.leb_spec a i); [lia|]. by rewrite orb_false_r. }
  assert (Hmod : r mod B = B - 1).
  { unfold B. replace (2 ^ (64 - a) - 1) with (Z.ones (64 - a)) by (rewrite Z.ones_equiv; lia). apply Z.bits_inj'. intros i Hi. rewrite Z.testbit_ones_nonneg by lia.
    destruct (Z.ltb_spec i (64 - a)); [|by rewrite Z.mod_pow2_bits_high by lia].
    rewrite Z.mod_pow2_bits_low by lia. unfold r. rewrite revbits_bit, Z.lor_spec, ulnot_mask_bit by lia.
    destruct (Z.leb_spec a (63 - i)); [|lia]. by rewrite orb_true_r. }
  clearbody r. rewrite <- Hdiv. pose proof (Z.div_mod r B). lia.
Qed.

(** The next cursor has no bit above the mask. *)
Lemma next_cursor_low a v : 0 ≤ a ≤ 64 → 0 ≤ v < W → 0 ≤ next_cursor (2 ^ a - 1) v < 2 ^ a.
Proof.
  intros Ha Hv. assert (Hr : 0 ≤ next_cursor (2 ^ a - 1) v < W) by (apply revbits_range, size_t_range).
  split; [lia|]. assert (next_cursor (2 ^ a - 1) v = next_cursor (2 ^ a - 1) v mod 2 ^ a) as ->;
    [|apply Z.mod_pos_bound, Z.pow_pos_nonneg; lia].
  apply Z.bits_inj'. intros i Hi. destruct (Z.lt_ge_cases i a); [by rewrite Z.mod_pow2_bits_low|].
  rewrite Z.mod_pow2_bits_high by lia. destruct (Z.lt_ge_cases i 64); [|by apply word_high].
  rewrite <- (revbits_invol (next_cursor _ _)), revbits_bit, next_cursor_rev by (done || lia).
  unfold W. rewrite Z.mod_pow2_bits_low, Z.mul_pow2_bits_low by lia. done.
Qed.

(** ** The expansions of a cursor *)

Lemma expansion_next a v : 0 ≤ a < 64 → 0 ≤ v →
  Z.lor (Z.land (to_size_t (Z.lor v (2 ^ a - 1) + 1)) (ulnot (2 ^ a - 1))) (Z.land v (2 ^ a - 1)) = (v + 2 ^ a) mod W.
Proof.
  intros Ha Hv. set (A := 2 ^ a). assert (HA : 0 < A) by (apply Z.pow_pos_nonneg; lia).
  assert (HL : ∀ x y, 0 ≤ y < A → Z.lor (x * A) y = x * A + y) by (intros; apply lor_add; [lia|done]).
  assert (Hlor : Z.lor v (A - 1) + 1 = (v / A + 1) * A).
  { rewrite (Z.div_mod v A) at 1 by lia. rewrite (Z.mul_comm A), <- HL by (try apply Z.mod_pos_bound; lia).
    rewrite <- Z.lor_assoc. assert (Z.lor (v mod A) (A - 1) = A - 1) as ->.
    { unfold A. rewrite <- land_mask by lia. apply Z.bits_inj'. intros i Hi. rewrite Z.lor_spec, Z.land_spec.
      by destruct (Z.testbit v i), (Z.testbit (2 ^ a - 1) i). }
    rewrite HL by lia. lia. }
  assert (HW : W = 2 ^ (64 - a) * A) by (unfold W, A; rewrite <- Z.pow_add_r by lia; f_equal; lia).
  rewrite Hlor. unfold to_size_t, to_unsigned. fold W. rewrite HW, Z.mul_mod_distr_r by (try apply Z.pow_nonzero; lia).
  set (y := (v / A + 1) mod 2 ^ (64 - a)).
  assert (Hy : 0 ≤ y < 2 ^ (64 - a)) by (apply Z.mod_pos_bound, Z.pow_pos_nonneg; lia).
  assert (Z.land (y * A) (ulnot (A - 1)) = y * A) as ->.
  { apply Z.bits_inj'. intros i Hi. rewrite Z.land_spec. destruct (Z.lt_ge_cases i 64).
    - unfold A at 2. rewrite ulnot_mask_bit by lia. destruct (Z.leb_spec a i); [by rewrite andb_true_r|].
      rewrite andb_false_r. unfold A. by rewrite Z.mul_pow2_bits_low by lia.
    - rewrite (word_high (y * A)); [done| |lia]. rewrite HW. nia. }
  assert (Z.land v (A - 1) = v mod A) as -> by (apply land_mask; lia). rewrite HL by (try apply Z.mod_pos_bound; lia).
  replace (v + A) with ((v / A + 1) * A + v mod A) by (pose proof (Z.div_mod v A); lia).
  rewrite <- ?HW. apply (Z.mod_unique _ _ ((v / A + 1) / 2 ^ (64 - a))).
  { left. pose proof (Z.mod_pos_bound v A HA). rewrite HW. nia. }
  rewrite HW. unfold y. pose proof (Z.div_mod (v / A + 1) (2 ^ (64 - a)) ltac:(apply Z.pow_nonzero; lia)). nia.
Qed.

(** The bits between the two masks are those of the index of the expansion. *)
Lemma land_between a b v : 0 ≤ a ≤ b → Z.land v (Z.lxor (2 ^ a - 1) (2 ^ b - 1)) = (v mod 2 ^ b) / 2 ^ a * 2 ^ a.
Proof.
  intros Hab. apply Z.bits_inj'. intros i Hi.
  replace (2 ^ a - 1) with (Z.ones a) by (rewrite Z.ones_equiv; lia).
  replace (2 ^ b - 1) with (Z.ones b) by (rewrite Z.ones_equiv; lia).
  rewrite Z.land_spec, Z.lxor_spec, !Z.testbit_ones_nonneg by lia. destruct (Z.ltb_spec i a), (Z.ltb_spec i b); try lia; cbn [xorb].
  - by rewrite Z.mul_pow2_bits_low, andb_false_r by lia.
  - rewrite Z.mul_pow2_bits, Z.div_pow2_bits, Z.mod_pow2_bits_low, andb_true_r by lia. f_equal. lia.
  - rewrite Z.mul_pow2_bits, Z.div_pow2_bits, Z.mod_pow2_bits_high, andb_false_r by lia. done.
Qed.

Section scan.
  Context {K V : Type} `{Countable K} (hash : K → Z).
  Implicit Types (d : dict K V) (m : gmap K V) (h : dictht K V) (tb : list (chain K V)) (l : list (entry K V)).

Lemma elem_concat tb e : e ∈ concat tb ↔ ∃ i c, tb !! i = Some c ∧ e ∈ c.
Proof.
  rewrite list_elem_of_In, in_concat. split.
  - intros (c & Hc & He). apply list_elem_of_In, list_elem_of_lookup in Hc as [i Hi]. exists i, c. by rewrite list_elem_of_In.
  - intros (i & c & Hi & He). exists c. rewrite <- !list_elem_of_In. split; [by eapply list_elem_of_lookup_2|done].
Qed.

(** The entries of a table in the buckets whose index is [u] modulo [2 ^ a]. *)
Definition in_class (a u : Z) tb (e : entry K V) : Prop := e ∈ concat tb ∧ hash e.1 mod 2 ^ a = u mod 2 ^ a.

Lemma bucket_class h n tb v : ht_ok hash h n tb →
  ∃ c, bucket h (Z.land v (sizemask h)) = Ok c ∧ ∀ e, e ∈ c ↔ in_class n v tb e.
Proof.
  intros Hh. rewrite (ho_mask _ _ _ _ Hh), land_mask by (pose proof (ho_n _ _ _ _ Hh); lia).
  pose proof (Z.mod_pos_bound v (2 ^ n) (pow2_pos n ltac:(pose proof (ho_n _ _ _ _ Hh); lia))) as Hb.
  destruct (bucket_ok hash h n tb _ Hh Hb) as (c & Hc & ->). exists c. split; [done|]. intros e. unfold in_class. split.
  - intros He. split; [apply elem_concat; eauto|]. rewrite (ho_hash _ _ _ _ Hh _ _ _ Hc He). lia.
  - intros [He Hm]. destruct (concat_hashed hash h n tb e.1 e Hh He eq_refl) as (c' & Hc' & ?).
    rewrite Hm in Hc'. by simplify_eq.
Qed.

(** From expansion [j] of [u] on, the loop goes through the remaining ones. *)
Lemma expansions_ok h b tb a u : ht_ok hash h b tb → 0 ≤ a ≤ b → 0 ≤ u < 2 ^ a →
  ∀ fuel j, 0 ≤ j < 2 ^ (b - a) → 2 ^ (b - a) - j ≤ Z.of_nat fuel + 1 →
  ∃ l, expansions fuel h (2 ^ a - 1) (sizemask h) (u + 2 ^ a * j) = Ok (l, u + 2 ^ b) ∧
    ∀ e, e ∈ l ↔ ∃ j', j ≤ j' < 2 ^ (b - a) ∧ in_class b (u + 2 ^ a * j') tb e.
Proof.
  intros Hh Hab Hu. pose proof (ho_n _ _ _ _ Hh) as Hn. assert (HA : 0 < 2 ^ a) by (apply pow2_pos; lia).
  assert (HB : 2 ^ b = 2 ^ a * 2 ^ (b - a)) by (rewrite <- Z.pow_add_r by lia; f_equal; lia).
  assert (Hbig : 2 ^ b ≤ 2 ^ 30) by (apply Z.pow_le_mono_r; lia).
  assert (Hwrap : (u + 2 ^ b) mod 2 ^ b = u).
  { replace (u + 2 ^ b) with (u + 1 * 2 ^ b) by lia. rewrite Z_mod_plus_full. apply Z.mod_small. nia. }
  assert (Hlast : ∀ j e, j + 1 = 2 ^ (b - a) →
    in_class b (u + 2 ^ a * j) tb e ↔ ∃ j', j ≤ j' < 2 ^ (b - a) ∧ in_class b (u + 2 ^ a * j') tb e).
  { intros j e Ej. split; [intros He; exists j; split; [lia|done]|]. intros (j' & Hj' & He). by replace j with j' by lia. }
  induction fuel as [|f IH]; intros j Hj Hf; cbn [expansions];
    (destruct (bucket_class h b tb (u + 2 ^ a * j) Hh) as (c & -> & Hc)); res_step;
    rewrite expansion_next by nia; rewrite (Z.mod_small _ W) by (unfold W; change (2 ^ 30) with 1073741824 in Hbig; change (2 ^ 64) with 18446744073709551616; nia);
    rewrite (ho_mask _ _ _ _ Hh), land_between by lia;
    replace (u + 2 ^ a * j + 2 ^ a) with (u + 2 ^ a * (j + 1)) by lia;
    (destruct (decide (j + 1 = 2 ^ (b - a))) as [Ej|Nj];
      [rewrite Ej, <- HB, Hwrap, Z.div_small by lia; exists c; split; [done|]; intros e; rewrite Hc; by apply Hlast|]).
  - lia.
  - rewrite Z.mod_small by nia. rewrite (Z.mul_comm (2 ^ a) (j + 1)), Z.div_add, (Z.div_small u) by lia.
    destruct (Z.eqb_spec ((0 + (j + 1)) * 2 ^ a) 0); [nia|]. cbn [negb]. rewrite (Z.mul_comm (j + 1)).
    destruct (IH (j + 1)) as (l & E & Hl); [lia|lia|]. rewrite (ho_mask _ _ _ _ Hh) in E. rewrite E. res_step.
    exists (c ++ l). split; [done|]. intros e. rewrite elem_of_app, Hc, Hl. split.
    + intros [He|(j' & Hj' & He)]; [exists j|exists j']; (split; [lia|done]).
    + intros (j' & Hj' & He). destruct (decide (j' = j)) as [->|]; [by left|]. right. exists j'. split; [lia|done].
Qed.

(** All expansions together are the entries with hash [u] modulo [2 ^ a]. *)
Lemma expansions_all h b tb a u : ht_ok hash h b tb → 0 ≤ a ≤ b → 0 ≤ u < 2 ^ a →
  ∃ l, expansions (Z.to_nat (size h)) h (2 ^ a - 1) (sizemask h) u = Ok (l, u + 2 ^ b) ∧ ∀ e, e ∈ l ↔ in_class a u tb e.
Proof.
  intros Hh Hab Hu. pose proof (ho_n _ _ _ _ Hh) as Hn. assert (HA : 0 < 2 ^ a) by (apply pow2_pos; lia).
  assert (HB : 2 ^ b = 2 ^ a * 2 ^ (b - a)) by (rewrite <- Z.pow_add_r by lia; f_equal; lia).
  assert (HC : 0 < 2 ^ (b - a)) by (apply pow2_pos; lia).
  destruct (expansions_ok h b tb a u Hh Hab Hu (Z.to_nat (size h)) 0) as (l & E & Hl).
  { lia. } { rewrite (ho_size _ _ _ _ Hh). nia. }
  rewrite Z.mul_0_r, Z.add_0_r in E. exists l. split; [done|]. intros e. rewrite Hl. unfold in_class. split.
  - intros (j' & Hj' & He & Hm). split; [done|]. rewrite <- (mod_pow_mod _ a b), Hm, mod_pow_mod by lia.
    by rewrite (Z.mul_comm (2 ^ a)), Z_mod_plus_full.
  - intros [He Hm]. exists (hash e.1 mod 2 ^ b / 2 ^ a).
    pose proof (Z.mod_pos_bound (hash e.1) (2 ^ b) ltac:(nia)) as Hb. split; [|split; [done|]].
    + split; [apply Z.div_pos; lia|]. apply Z.div_lt_upper_bound; [lia|]. lia.
    + rewrite (Z.mod_small u) in Hm by done. rewrite <- Hm, <- (mod_pow_mod _ a b), Z.add_comm, <- Z.div_mod by lia.
      by rewrite Z.mod_mod by nia.
Qed.

(** ** One call *)

(** During a rehashing, the cursor is an index of the smaller table. *)
Definition smaller d : Z := if dictIsRehashing d then Z.min (size (ht0 d)) (size (ht1 d)) else size (ht0 d).
Definition cursor_fits d (v : Z) : bool := negb (dictIsRehashing d) || (v <? smaller d).

(** A call at cursor [v] that used a mask of [a] bits: it passed the entries in the class of
    the cursor on, and moved the cursor to the next class in the order of reversed bits. *)
Record scanned d (v : Z) l (v' a : Z) : Prop := {
  sc_bits : 2 ≤ a ≤ 30;
  sc_size : 2 ^ a = smaller d;
  sc_low : 0 ≤ v' < 2 ^ a;
  sc_cursor : revbits v' = ((revbits v / 2 ^ (64 - a) + 1) * 2 ^ (64 - a)) mod W;
  sc_entries : ∀ e, e ∈ l ↔ e ∈ entries d ∧ hash e.1 mod 2 ^ a = v mod 2 ^ a;
}.

Lemma scanned_next d v w l a : 2 ≤ a ≤ 30 → 2 ^ a = smaller d → 0 ≤ v < W → 0 ≤ w < W → w mod 2 ^ a = v mod 2 ^ a →
  (∀ e, e ∈ l ↔ e ∈ entries d ∧ hash e.1 mod 2 ^ a = v mod 2 ^ a) →
  scanned d v l (next_cursor (2 ^ a - 1) w) a.
Proof.
  intros Ha Hs Hv Hw Hm Hl. split; [done|done|apply next_cursor_low; [lia|done]| |done].
  rewrite next_cursor_rev by (done || lia). do 3 f_equal. apply revbits_div; [lia|done..].
Qed.

(** A call during a rehashing: the class of the cursor in the smaller table, and all its
    expansions in the larger one. *)
Lemma rehash_scan d t0 n0 tb0 t1 n1 tb1 v : ht_ok hash t0 n0 tb0 → ht_ok hash t1 n1 tb1 → n0 ≤ n1 → 0 ≤ v < 2 ^ n0 →
  2 ^ n0 = smaller d → (∀ e, e ∈ entries d ↔ e ∈ concat tb0 ∨ e ∈ concat tb1) →
  ∃ c l v1, bucket t0 (Z.land v (sizemask t0)) = Ok c ∧
    expansions (Z.to_nat (size t1)) t1 (sizemask t0) (sizemask t1) v = Ok (l, v1) ∧
    scanned d v (c ++ l) (next_cursor (sizemask t0) v1) n0.
Proof.
  intros H0 H1 Hle Hv Hs He. pose proof (ho_n _ _ _ _ H0) as Hn0. pose proof (ho_n _ _ _ _ H1) as Hn1.
  destruct (bucket_class t0 n0 tb0 v H0) as (c & Hc & Hce).
  destruct (expansions_all t1 n1 tb1 n0 v H1) as (l & Hl & Hle'); [lia|done|].
  exists c, l, (v + 2 ^ n1). rewrite (ho_mask _ _ _ _ H0) in *. split_and!; [done|done|].
  assert (Hp : ∀ n, 2 ≤ n ≤ 30 → 0 < 2 ^ n ≤ 1073741824)
    by (intros n Hn; split; [apply pow2_pos; lia|]; change 1073741824 with (2 ^ 30); apply Z.pow_le_mono_r; lia).
  pose proof (Hp n0 Hn0). pose proof (Hp n1 Hn1).
  apply scanned_next; [done|done|unfold W; change (2 ^ 64) with 18446744073709551616; lia..| |].
  - replace (2 ^ n1) with (2 ^ (n1 - n0) * 2 ^ n0) by (rewrite <- Z.pow_add_r by lia; f_equal; lia). apply Z_mod_plus_full.
  - intros e. rewrite elem_of_app, Hce, Hle', He. unfold in_class. tauto.
Qed.

Lemma dictScan_ok d v : dict_ok hash d → dictSize d ≠ 0 → 0 ≤ v < W → cursor_fits d v = true →
  ∃ l v' a, dictScan d v = Ok (l, v') ∧ scanned d v l v' a.
Proof.
  intros Hd Hs Hv Hfit. unfold dictScan. destruct (Z.eqb_spec (dictSize d) 0) as [|_]; [done|]. unfold cursor_fits in Hfit.
  assert (Hsm : smaller d = if dictIsRehashing d then Z.min (size (ht0 d)) (size (ht1 d)) else size (ht0 d)) by done.
  destruct (dictIsRehashing d) eqn:Hr; cbn [negb orb] in *.
  - destruct (dict_ok_rehashing hash d Hd Hr) as (n0 & tb0 & n1 & tb1 & _ & H0 & H1 & _).
    pose proof (ho_n _ _ _ _ H0) as Hn0. pose proof (ho_n _ _ _ _ H1) as Hn1. apply Z.ltb_lt in Hfit.
    pose proof (ho_size _ _ _ _ H0) as Hs0. pose proof (ho_size _ _ _ _ H1) as Hs1. rewrite Z.gtb_ltb.
    assert (He : ∀ e, e ∈ entries d ↔ e ∈ concat tb0 ∨ e ∈ concat tb1)
      by (intros e; by rewrite (entries_two hash d _ _ _ _ H0 H1), elem_of_app).
    destruct (Z.ltb_spec (size (ht1 d)) (size (ht0 d))) as [Hlt|Hge].
    + destruct (rehash_scan d (ht1 d) n1 tb1 (ht0 d) n0 tb0 v H1 H0) as (c & l & v1 & -> & E & Hsc); [|lia|lia|intros e; rewrite He; tauto|].
      { rewrite Hs0, Hs1 in Hlt. apply Z.pow_lt_mono_r_iff in Hlt; lia. }
      res_step. rewrite E. do 2 res_step.
      exists (c ++ l), (next_cursor (sizemask (ht1 d)) v1), n1. split; [reflexivity|exact Hsc].
    + destruct (rehash_scan d (ht0 d) n0 tb0 (ht1 d) n1 tb1 v H0 H1) as (c & l & v1 & -> & E & Hsc); [|lia|lia|done|].
      { rewrite Hs0, Hs1 in Hge. apply Z.pow_le_mono_r_iff in Hge; lia. }
      res_step. rewrite E. do 2 res_step.
      exists (c ++ l), (next_cursor (sizemask (ht0 d)) v1), n0. split; [reflexivity|exact Hsc].
  - destruct (dict_ok_idle hash d Hd Hr) as [H1 Hri]. destruct Hd as [_ H0 _|n tb _ H0 _|]; [|..|lia].
    { unfold dictSize in Hs. by rewrite H0, H1 in Hs. }
    destruct (bucket_class (ht0 d) n tb v H0) as (c & -> & Hc). do 2 res_step.
    exists c, (next_cursor (sizemask (ht0 d)) v), n. split; [reflexivity|].
    rewrite (ho_mask _ _ _ _ H0). apply (scanned_next d v v); [by eapply ho_n|by rewrite Hsm, (ho_size _ _ _ _ H0)|done..|].
    intros e. rewrite Hc. unfold in_class, entries. by rewrite (ht_entries_ok _ _ _ _ H0), H1, app_nil_r.
Qed.

(** ** Whole scans *)

(** The calls of a scan: [ds] are the states of the dictionary at each of them. *)
Fixpoint scan_all (ds : list (dict K V)) (v : Z) : res (list (entry K V) * Z) :=
  match ds with
  | [] => Ok ([], v)
  | d :: ds =>
      '(l, v) ← dictScan d v;
      if v =? 0 then Ok (l, 0) else '(l', v) ← scan_all ds v; Ok (l ++ l', v)
  end.

(** At every call the cursor fits. *)
Fixpoint cursors_fit (ds : list (dict K V)) (v : Z) : bool :=
  match ds with
  | [] => true
  | d :: ds => cursor_fits d v && match dictScan d v with Ok (_, v) => (v =? 0) || cursors_fit ds v | Fault _ => true end
  end.

Definition is_dict d : Prop := ∃ m, dict_rep hash d m.
Definition has_key (k : K) d : Prop := ∃ m, dict_rep hash d m ∧ is_Some (m !! k).

(** A call on an empty dictionary ends the scan; another one is described by [scanned]. *)
Lemma scan_step d v : is_dict d → 0 ≤ v < W → cursor_fits d v = true →
  dictScan d v = Ok ([], 0) ∨ ∃ l v' a, dictScan d v = Ok (l, v') ∧ scanned d v l v' a ∧ 0 ≤ v' < W.
Proof.
  intros [m (Hd & _)] Hv Hfit. destruct (decide (dictSize d = 0)) as [Hz|Hz].
  - left. unfold dictScan. by rewrite Hz.
  - right. destruct (dictScan_ok d v Hd Hz Hv Hfit) as (l & v' & a & E & Hsc). exists l, v', a. split_and!; try done; [by destruct Hsc; lia|].
    destruct Hsc. pose proof (Z.pow_le_mono_r 2 a 64). unfold W. lia.
Qed.

Lemma scan_all_total ds : ∀ v, Forall is_dict ds → 0 ≤ v < W → cursors_fit ds v = true →
  ∃ l v', scan_all ds v = Ok (l, v') ∧ 0 ≤ v' < W.
Proof.
  induction ds as [|d ds IH]; intros v Hds Hv Hfit; [by exists [], v|]. cbn [cursors_fit scan_all] in *.
  apply Forall_cons in Hds as [Hd Hds]. apply andb_true_iff in Hfit as [Hf Hfit].
  destruct (scan_step d v Hd Hv Hf) as [E|(l & v' & a & E & _ & Hv')]; rewrite E in *; res_step; [by eexists _, 0|].
  destruct (v' =? 0); [by eexists _, 0|]. destruct (IH v' Hds Hv' Hfit) as (l' & v'' & -> & Hv''). res_step. by eexists _, v''.
Qed.

Lemma scanned_class d v l v' a k m : scanned d v l v' a → 0 ≤ v < W → dict_rep hash d m → is_Some (m !! k) →
  revbits (hash k mod W) / 2 ^ (64 - a) = revbits v / 2 ^ (64 - a) → k ∈ l.*1.
Proof.
  intros Hsc Hv (Hd & Hp & _) [x Hx] Hc. pose proof (sc_bits _ _ _ _ _ Hsc).
  apply revbits_div in Hc; [|lia|by apply Z.mod_pos_bound|done]. unfold W in Hc. rewrite mod_pow_mod in Hc by lia.
  apply list_elem_of_fmap. exists (k, x). split; [done|]. apply (sc_entries _ _ _ _ _ Hsc). by rewrite (elem_entries d m).
Qed.

(** The reversed cursor grows, or the scan is over. *)
Lemma cursor_grows v v' a : 2 ≤ a ≤ 30 → 0 ≤ v' < 2 ^ a → 0 ≤ v < W →
  revbits v' = ((revbits v / 2 ^ (64 - a) + 1) * 2 ^ (64 - a)) mod W →
  v' = 0 ∨ revbits v' = (revbits v / 2 ^ (64 - a) + 1) * 2 ^ (64 - a).
Proof.
  intros Ha Hlow Hv Hcur. pose proof (pow2_pos (64 - a) ltac:(lia)) as HB. pose proof (revbits_range v Hv) as Hr.
  assert (HW : W = 2 ^ a * 2 ^ (64 - a)) by (unfold W; rewrite <- Z.pow_add_r by lia; f_equal; lia).
  assert (Hq : revbits v / 2 ^ (64 - a) < 2 ^ a) by (apply Z.div_lt_upper_bound; lia).
  assert (0 ≤ revbits v / 2 ^ (64 - a)) by (apply Z.div_pos; lia).
  destruct (decide (revbits v / 2 ^ (64 - a) + 1 = 2 ^ a)) as [E|].
  - left. rewrite E, <- HW, Z_mod_same_full in Hcur.
    rewrite <- (revbits_invol v'), Hcur; [apply revbits_0|]. pose proof (Z.pow_le_mono_r 2 a 64). unfold W. lia.
  - right. rewrite Hcur. apply Z.mod_small. nia.
Qed.

Lemma scanned_grows d v l v' a : scanned d v l v' a → 0 ≤ v < W →
  v' = 0 ∨ revbits v' = (revbits v / 2 ^ (64 - a) + 1) * 2 ^ (64 - a).
Proof. intros [] ?. by apply cursor_grows. Qed.

(** A class after the one of the cursor is not before the next cursor. *)
Lemma scanned_next_le d v l v' a r : scanned d v l v' a → 0 ≤ v < W → 0 ≤ r < W → revbits v ≤ r →
  r / 2 ^ (64 - a) ≠ revbits v / 2 ^ (64 - a) → revbits v' ≤ r ∧ v' ≠ 0.
Proof.
  intros Hsc Hv Hr Hle Hne. pose proof (scanned_grows _ _ _ _ _ Hsc Hv) as Hg. destruct Hsc as [Ha _ Hlow Hcur _].
  pose proof (pow2_pos (64 - a) ltac:(lia)) as HB. pose proof (revbits_range v Hv).
  assert (Hdiv : revbits v / 2 ^ (64 - a) + 1 ≤ r / 2 ^ (64 - a)).
  { pose proof (Z.div_le_mono (revbits v) r (2 ^ (64 - a)) HB Hle). lia. }
  assert (Hmul : (revbits v / 2 ^ (64 - a) + 1) * 2 ^ (64 - a) ≤ r).
  { pose proof (Z.mul_div_le r (2 ^ (64 - a)) HB). nia. }
  assert (0 ≤ revbits v / 2 ^ (64 - a)) by (apply Z.div_pos; lia).
  rewrite Z.mod_small in Hcur by nia. split; [lia|]. intros ->. rewrite revbits_0 in Hcur. nia.
Qed.

Lemma scan_all_complete k ds : ∀ v l v', Forall (has_key k) ds → 0 ≤ v < W → cursors_fit ds v = true →
  revbits v ≤ revbits (hash k mod W) → (ds ≠ [] ∨ v ≠ 0) → scan_all ds v = Ok (l, v') → v' = 0 → k ∈ l.*1.
Proof.
  induction ds as [|d ds IH]; intros v l v' Hds Hv Hfit Hle Hne E ->; cbn [cursors_fit scan_all] in *.
  { simplify_eq. by destruct Hne. }
  apply Forall_cons in Hds as [(m & Hm & Hk) Hds]. apply andb_true_iff in Hfit as [Hf Hfit].
  assert (Hh : 0 ≤ hash k mod W < W) by (by apply Z.mod_pos_bound).
  assert (Hsz : dictSize d ≠ 0).
  { rewrite (dictSize_rep hash d m Hm). destruct Hk as [x Hx]. intros Hz.
    assert (m = ∅) as -> by (apply map_size_empty_iff; lia). by rewrite lookup_empty in Hx. }
  destruct (dictScan_ok d v (proj1 Hm) Hsz Hv Hf) as (l1 & v1 & a & E1 & Hsc). rewrite E1 in *. revert E. res_step. intros E.
  destruct (decide (revbits (hash k mod W) / 2 ^ (64 - a) = revbits v / 2 ^ (64 - a))) as [Hc|Hc].
  - pose proof (scanned_class _ _ _ _ _ k m Hsc Hv Hm Hk Hc) as Hin. destruct (v1 =? 0); [by simplify_eq|].
    apply bind_Ok in E as ([l2 v2] & E2 & [= <- ->]). rewrite fmap_app. apply elem_of_app. by left.
  - destruct (scanned_next_le _ _ _ _ _ _ Hsc Hv (revbits_range _ Hh) Hle Hc) as [Hle' Hnz].
    destruct (Z.eqb_spec v1 0); [done|]. cbn [orb] in Hfit.
    assert (0 ≤ v1 < W) by (destruct Hsc; pose proof (Z.pow_le_mono_r 2 a 64); unfold W; lia).
    apply bind_Ok in E as ([l2 v2] & E2 & [= <- ->]). rewrite fmap_app. apply elem_of_app. right. eapply IH; eauto.
Qed.

Lemma scan_all_ends A ds : ∀ v l v', Forall is_dict ds → 0 ≤ v < W → cursors_fit ds v = true → 0 ≤ A ≤ 64 →
  Forall (λ d, smaller d ≤ 2 ^ A) ds → 2 ^ A ≤ revbits v / 2 ^ (64 - A) + Z.of_nat (length ds) →
  scan_all ds v = Ok (l, v') → v' = 0.
Proof.
  induction ds as [|d ds IH]; intros v l v' Hds Hv Hfit HA Hsz Hlen E; cbn [cursors_fit scan_all length] in *.
  { exfalso. assert (revbits v / 2 ^ (64 - A) < 2 ^ A); [|lia]. apply Z.div_lt_upper_bound; [apply pow2_pos; lia|].
    rewrite <- Z.pow_add_r by lia. replace (64 - A + A) with 64 by lia. by apply revbits_range. }
  apply Forall_cons in Hds as [Hd Hds]. apply Forall_cons in Hsz as [Hs Hsz]. apply andb_true_iff in Hfit as [Hf Hfit].
  destruct (scan_step d v Hd Hv Hf) as [E1|(l1 & v1 & a & E1 & Hsc & Hv1)]; rewrite E1 in *; revert E; res_step; [cbn; intros E; by simplify_eq|].
  intros E. destruct (Z.eqb_spec v1 0); [by simplify_eq|]. cbn [orb] in Hfit. apply bind_Ok in E as ([l2 v2] & E2 & [= _ ->]).
  eapply IH; eauto.
  destruct (scanned_grows _ _ _ _ _ Hsc Hv) as [|Hg]; [done|]. destruct Hsc as [Ha Hsa _ _ _].
  assert (HaA : a ≤ A) by (apply (Z.pow_le_mono_r_iff 2); lia). rewrite Hg.
  assert (HB : 2 ^ (64 - a) = 2 ^ (A - a) * 2 ^ (64 - A)) by (rewrite <- Z.pow_add_r by lia; f_equal; lia).
  pose proof (pow2_pos (64 - A) ltac:(lia)). pose proof (pow2_pos (A - a) ltac:(lia)). pose proof (revbits_range v Hv).
  rewrite HB, Z.mul_assoc, Z.div_mul by lia.
  assert (revbits v / 2 ^ (64 - A) < (revbits v / (2 ^ (A - a) * 2 ^ (64 - A)) + 1) * 2 ^ (A - a)); [|lia].
  apply Z.div_lt_upper_bound; [done|]. pose proof (Z.mul_succ_div_gt (revbits v) (2 ^ (A - a) * 2 ^ (64 - A)) ltac:(nia)). nia.
Qed.

(** While the tables do not get smaller the cursor fits. *)
Lemma growing_fits ds : ∀ v, Forall is_dict ds → 0 ≤ v < W → Sorted (λ d d', smaller d ≤ smaller d') ds →
  (∀ d, head ds = Some d → v < smaller d ∨ dictIsRehashing d = false) → cursors_fit ds v = true.
Proof.
  induction ds as [|d ds IH]; intros v Hds Hv Hs Hhd; [done|]. cbn [cursors_fit].
  apply Forall_cons in Hds as [Hd Hds]. apply Sorted_inv in Hs as [Hs Hd'].
  assert (Hf : cursor_fits d v = true).
  { unfold cursor_fits. destruct (Hhd d eq_refl) as [Hlt| ->]; [|done]. apply orb_true_iff. right. by apply Z.ltb_lt. }
  rewrite Hf. destruct (scan_step d v Hd Hv Hf) as [->|(l & v' & a & -> & Hsc & Hv')]; [done|].
  destruct (v' =? 0); [done|]. cbn [orb andb]. apply IH; try done. intros d1 Hd1. left.
  destruct ds as [|d2 ds]; [done|]. apply HdRel_inv in Hd'. simplify_eq/=. destruct Hsc. lia.
Qed.

(** C10: A scan from cursor 0 that ends has passed on every key that was in the dictionary
    at each of its calls, whatever resizes, rehashing steps, insertions and deletions
    happened between the calls, provided that at a call during a rehashing the cursor is an
    index of the smaller of the two tables. *)
Theorem dictScan_complete ds k :
  ds ≠ [] → Forall (has_key k) ds → cursors_fit ds 0 = true →
  ∃ l v, scan_all ds 0 = Ok (l, v) ∧ (v = 0 → k ∈ l.*1).
Proof.
  intros Hne Hds Hfit. destruct (scan_all_total ds 0) as (l & v & E & _); [|done|done|].
  { eapply Forall_impl; [done|]. intros d (m & ? & _). by exists m. }
  exists l, v. split; [done|]. intros Hv. eapply scan_all_complete; [done|done|done| |by left|done|done].
  rewrite revbits_0. by apply revbits_range, Z.mod_pos_bound.
Qed.

(** C26: On tables of at most [2 ^ A] buckets a scan ends after at most [2 ^ A] calls, if at
    every call during a rehashing the cursor is an index of the smaller table. *)
Theorem dictScan_ends A ds :
  0 ≤ A ≤ 64 → Forall is_dict ds → cursors_fit ds 0 = true →
  Forall (λ d, size (ht0 d) ≤ 2 ^ A) ds → 2 ^ A ≤ Z.of_nat (length ds) →
  ∃ l, scan_all ds 0 = Ok (l, 0).
Proof.
  intros HA Hds Hfit Hsz Hlen. destruct (scan_all_total ds 0) as (l & v & E & _); [done..|].
  exists l. rewrite E. do 2 f_equal. eapply scan_all_ends; [done|done|done|exact HA| | |done].
  { eapply Forall_impl; [exact Hsz|]. intros d Hd. unfold smaller. cbv beta in Hd. destruct (dictIsRehashing d); lia. }
  rewrite revbits_0, Z.div_0_l by (apply Z.pow_nonzero; lia). lia.
Qed.
(** ** A cursor that does not fit *)









End scan.

(** ** Instances *)

(** The dictionary and the map after a list of operations; an integer is its own hash. *)
Definition run_from (d : dict Z Z) (ops : list (@dict_op Z Z)) : dict Z Z :=
  match dict_run (λ k, k) true d ops with Ok (_, d) => d | Fault _ => d end.
Definition map_from (m : gmap Z Z) (ops : list (@dict_op Z Z)) : gmap Z Z := (map_run m ops).2.

Lemma run_from_rep d m ops : dict_rep (λ k, k) d m → Forall op_ok ops →
  Z.of_nat (stdpp.base.size m + length ops) ≤ MAX_ELEMS →
  dict_rep (λ k, k) (run_from d ops) (map_from m ops).
Proof.
  intros Hrep Hops Hlen. destruct (dict_run_ok (λ k : Z, k) ops true d m Hrep Hops Hlen) as (d' & E & Hrep').
  unfold run_from, map_from. by rewrite E.
Qed.

Lemma run_from_key k ops : Forall op_ok ops → Z.of_nat (length ops) ≤ MAX_ELEMS → is_Some (map_from ∅ ops !! k) →
  has_key (λ k, k) k (run_from dictCreate ops).
Proof.
  intros Hops Hlen Hk. exists (map_from ∅ ops). split; [|done].
  apply run_from_rep; [apply dict_rep_create|done|]. by rewrite map_size_empty.
Qed.

(** A table of 4 buckets that grows to 8 during the scan. *)
Definition growing : list (dict Z Z) :=
  run_from dictCreate (take 4 sample_ops) :: run_from dictCreate sample_ops :: run_from dictCreate sample_ops ::
  replicate 5 (run_from dictCreate (sample_ops ++ [OpRehash 4])).

Lemma growing_key : Forall (has_key (λ k, k) 7) growing.
Proof.
  repeat apply Forall_cons_2; try apply Forall_nil_2;
    (apply run_from_key; [repeat constructor|vm_compute; discriminate|exists 70; vm_compute; reflexivity]).
Qed.

Lemma dictScan_complete_witness :
  dictIsRehashing <$> take 3 growing = [false; true; true] ∧
  ∃ l v, scan_all growing 0 = Ok (l, v) ∧ (v = 0 → 7 ∈ l.*1).
Proof.
  split; [vm_compute; reflexivity|].
  apply (dictScan_complete (λ k, k) growing 7); [discriminate|exact growing_key|vm_compute; reflexivity].
Defined.

Lemma dictScan_ends_witness : ∃ l, scan_all growing 0 = Ok (l, 0).
Proof.
  apply (dictScan_ends (λ k, k) 3 growing).
  - lia.
  - eapply Forall_impl; [exact growing_key|]. intros d (m & Hm & _). exists m. exact Hm.
  - vm_compute. reflexivity.
  - repeat apply Forall_cons_2; try apply Forall_nil_2; vm_compute; discriminate.
  - vm_compute. discriminate.
Defined.


