(* ===== verification/DictRandom.v ===== *)
(** src/src/dict.c: the functions that sample a dictionary, [dictGetRandomKey] and
    [dictGetSomeKeys].  The draws of [random()] are a stream of numbers; the theorems hold
    for every stream. *)

From S2P Require Import Prelude Dict DictSpec DictOps.
Local Open Scope Z_scope.

(** [random()] returns a long from 0 to 2^31 - 1. *)
Definition RAND_MAX : Z := 2147483647.

Section random.
  Context {K V : Type} `{Countable K} (hash : K → Z).
  Implicit Types (d : dict K V) (m : gmap K V) (c : chain K V).

(** The bucket that a draw selects; nothing is left before [rehashidx]. *)
Definition random_slot d (r : Z) : res (chain K V) :=
  if dictIsRehashing d then
    let h := to_uint (to_size_t (rehashidx d + r mod to_size_t (size (ht0 d) + size (ht1 d) - rehashidx d))) in
    if h >=? size (ht0 d) then bucket (ht1 d) (h - size (ht0 d)) else bucket (ht0 d) h
  else bucket (ht0 d) (to_uint (Z.land r (sizemask (ht0 d)))).

(** Draws until the bucket is not empty, from draw [n] on. *)
Fixpoint random_bucket (fuel : nat) (random : nat → Z) (n : nat) d : res (chain K V * nat) :=
  match fuel with
  | O => Fault OutOfFuel
  | S fuel =>
      he ← random_slot d (random n);
      match he with
      | [] => random_bucket fuel random (S n) d
      | _ => Ok (he, S n)
      end
  end.

Definition dictGetRandomKey (fuel : nat) (random : nat → Z) d : res (option (entry K V) * dict K V) :=
  if dictSize d =? 0 then Ok (None, d)
  else
    d ← rehash_step_if hash d;
    '(he, n) ← random_bucket fuel random 0 d;
    let listlen := to_int (Z.of_nat (length he)) in
    let listele := to_int (Z.rem (random n) listlen) in
    e ← at_index he (Z.to_nat listele);
    Ok (Some e, d).

(** ** dictGetSomeKeys *)

Fixpoint some_rehash (n : nat) d : res (dict K V) :=
  match n with
  | O => Ok d
  | S n => if dictIsRehashing d then d ← _dictRehashStep hash d; some_rehash n d else Ok d
  end.

(** The state of the walk: the index, the draws made, the empty buckets in a row, what was
    stored. *)
Record walk := mkWalk { w_i : Z; w_draw : nat; w_empty : Z; w_des : list (entry K V) }.

(** The visit of a bucket of one table. *)
Definition visit_bucket (random : nat → Z) (maxsizemask count : Z) c (w : walk) : walk :=
  match c with
  | [] =>
      let emptylen := w_empty w + 1 in
      if (emptylen >=? 5) && (emptylen >? count)
      then mkWalk (Z.land (random (w_draw w)) maxsizemask) (S (w_draw w)) 0 (w_des w)
      else mkWalk (w_i w) (w_draw w) emptylen (w_des w)
  | _ => mkWalk (w_i w) (w_draw w) 0 (w_des w ++ take (Z.to_nat (count - Z.of_nat (length (w_des w)))) c)
  end.

(** One round for table [t]. *)
Definition visit_table (random : nat → Z) d (maxsizemask count : Z) (t : bool) (w : walk) : res walk :=
  if dictIsRehashing d && negb t && (w_i w <? to_size_t (rehashidx d)) then
    Ok (if w_i w >=? size (ht1 d) then mkWalk (rehashidx d) (w_draw w) (w_empty w) (w_des w) else w)
  else if w_i w >=? size (ht d t) then Ok w
  else
    he ← bucket (ht d t) (w_i w);
    Ok (visit_bucket random maxsizemask count he w).

Definition stored_all (count : Z) (w : walk) : bool := Z.of_nat (length (w_des w)) >=? count.

Fixpoint some_loop (maxsteps : nat) (random : nat → Z) d (maxsizemask count : Z) (w : walk) : res walk :=
  if stored_all count w then Ok w
  else match maxsteps with
  | O => Ok w
  | S maxsteps =>
      w ← visit_table random d maxsizemask count false w;
      if stored_all count w then Ok w
      else
        w ← (if dictIsRehashing d then visit_table random d maxsizemask count true w else Ok w);
        if stored_all count w then Ok w
        else some_loop maxsteps random d maxsizemask count
               (mkWalk (Z.land (to_size_t (w_i w + 1)) maxsizemask) (w_draw w) (w_empty w) (w_des w))
  end.

Definition dictGetSomeKeys (random : nat → Z) d (count : Z) : res (list (entry K V) * dict K V) :=
  let count := if dictSize d <? count then to_uint (dictSize d) else count in
  let maxsteps := to_uint (count * 10) in
  d ← some_rehash (Z.to_nat count) d;
  let maxsizemask :=
    if dictIsRehashing d && (sizemask (ht0 d) <? sizemask (ht1 d)) then sizemask (ht1 d) else sizemask (ht0 d) in
  w ← some_loop (Z.to_nat maxsteps) random d maxsizemask count (mkWalk (Z.land (random 0%nat) maxsizemask) 1 0 []);
  Ok (w_des w, d).

(** ** Buckets and entries *)

(** The buckets that hold the entries of [d], with the table each is in. *)
Lemma bucket_entries d t i c : bucket (ht d t) i = Ok c → c ⊆+ entries d.
Proof.
  intros Hb. unfold bucket in Hb. apply bind_Ok in Hb as (tb & Ht & Hi). apply at_index_Ok in Hi.
  assert (Hin : c ⊆+ ht_entries (ht d t)).
  { unfold ht_entries. destruct (table (ht d t)) as [tb'|]; [|done]. cbn in *. apply Ok_inj in Ht as ->.
    destruct (concat_insert tb _ c Hi) as (rest & -> & _). apply submseteq_inserts_r. done. }
  unfold entries. destruct t; cbn in Hin; [by apply submseteq_inserts_l|by apply submseteq_inserts_r].
Qed.

Lemma entry_bucket d t n tb e : ht_ok hash (ht d t) n tb → e ∈ ht_entries (ht d t) →
  ∃ i c, 0 ≤ i < 2 ^ n ∧ tb !! Z.to_nat i = Some c ∧ bucket (ht d t) i = Ok c ∧ e ∈ c.
Proof.
  intros Hh He. rewrite (ht_entries_ok _ _ _ _ Hh) in He. apply list_elem_of_In, in_concat in He as (c & Hc & He).
  apply list_elem_of_In, list_elem_of_lookup in Hc as [i Hi]. apply lookup_lt_Some in Hi as Hlt.
  pose proof (ho_length _ _ _ _ Hh) as Hl. exists (Z.of_nat i), c. rewrite Nat2Z.id.
  destruct (bucket_ok hash _ _ _ (Z.of_nat i) Hh ltac:(lia)) as (c' & Hc' & ->). rewrite Nat2Z.id in Hc'.
  split_and!; [lia|lia|done|congruence|by apply list_elem_of_In].
Qed.

Lemma ht_ok_range (h : dictht K V) n tb : ht_ok hash h n tb → 0 < 2 ^ n ≤ 2 ^ 30 ∧ size h = 2 ^ n.
Proof. intros []. split; [|done]. split; [apply pow2_pos; lia|apply Z.pow_le_mono_r; lia]. Qed.

Lemma to_uint_id z : 0 ≤ z < 2 ^ 32 → to_uint z = z.
Proof. intros. by apply Z.mod_small. Qed.

(** ** A draw *)

Lemma random_slot_total d r : dict_ok hash d → ht0 d ≠ _dictReset → 0 ≤ r →
  ∃ c, random_slot d r = Ok c ∧ c ⊆+ entries d.
Proof.
  intros Hd Hne Hr. assert (∃ t i c, random_slot d r = bucket (ht d t) i ∧ bucket (ht d t) i = Ok c) as (t & i & c & -> & E).
  2: { exists c. split; [done|]. by apply (bucket_entries d t i). }
  unfold random_slot. destruct (dictIsRehashing d) eqn:Er.
  - destruct (dict_ok_rehashing hash d Hd Er) as (n0 & tb0 & n1 & tb1 & Hi & H0 & H1 & _).
    destruct (ht_ok_range _ _ _ H0) as [Hr0 Hs0], (ht_ok_range _ _ _ H1) as [Hr1 Hs1]. rewrite Hs0, Hs1 in *.
    rewrite (to_size_t_id (_ - _)) by (unfold SIZE_MAX, ULLONG_MAX; lia).
    pose proof (Z.mod_pos_bound r (2 ^ n0 + 2 ^ n1 - rehashidx d) ltac:(lia)) as Hm.
    rewrite to_size_t_id by (unfold SIZE_MAX, ULLONG_MAX; lia). rewrite to_uint_id by lia.
    set (h := rehashidx d + _) in *. rewrite Z.geb_leb. destruct (Z.leb_spec (2 ^ n0) h).
    + destruct (bucket_ok hash _ _ _ (h - 2 ^ n0) H1 ltac:(lia)) as (c & _ & E). by exists true, (h - 2 ^ n0), c.
    + destruct (bucket_ok hash _ _ _ h H0 ltac:(lia)) as (c & _ & E). by exists false, h, c.
  - assert (∃ n tb, ht_ok hash (ht0 d) n tb) as (n & tb & H0) by (destruct Hd; eauto; done).
    pose proof (ht_ok_range _ _ _ H0) as [Hr0 Hs0]. pose proof (ho_n _ _ _ _ H0). rewrite (ho_mask _ _ _ _ H0), land_mask by lia.
    pose proof (Z.mod_pos_bound r (2 ^ n) ltac:(lia)). rewrite to_uint_id by lia.
    destruct (bucket_ok hash _ _ _ (r mod 2 ^ n) H0 ltac:(lia)) as (c & _ & E). by exists false, (r mod 2 ^ n), c.
Qed.

(** Every entry is in the bucket of some draw. *)
Lemma random_slot_surjective d e : dict_ok hash d → e ∈ entries d →
  ∃ a c, 0 ≤ a ≤ RAND_MAX ∧ random_slot d a = Ok c ∧ e ∈ c.
Proof.
  intros Hd He. unfold random_slot, RAND_MAX. destruct (dictIsRehashing d) eqn:Er.
  - destruct (dict_ok_rehashing hash d Hd Er) as (n0 & tb0 & n1 & tb1 & Hi & H0 & H1 & Hempty).
    destruct (ht_ok_range _ _ _ H0) as [Hr0 Hs0], (ht_ok_range _ _ _ H1) as [Hr1 Hs1]. rewrite Hs0, Hs1 in *.
    rewrite (to_size_t_id (_ - _)) by (unfold SIZE_MAX, ULLONG_MAX; lia).
    assert (∃ h c, rehashidx d ≤ h < 2 ^ n0 + 2 ^ n1 ∧ e ∈ c ∧
      (if h >=? 2 ^ n0 then bucket (ht1 d) (h - 2 ^ n0) else bucket (ht0 d) h) = Ok c) as (h & c & Hh & Hec & E).
    { apply elem_of_app in He as [He|He].
      - destruct (entry_bucket d false _ _ e H0 He) as (i & c & Hi' & Htb & E & Hec). exists i, c. split; [|split; [done|]].
        + destruct (Z.lt_ge_cases i (rehashidx d)); [|lia]. rewrite (Hempty (Z.to_nat i) c Htb) in Hec by lia. by apply elem_of_nil in Hec.
        + rewrite Z.geb_leb. destruct (Z.leb_spec (2 ^ n0) i); [lia|done].
      - destruct (entry_bucket d true _ _ e H1 He) as (i & c & Hi' & Htb & E & Hec). exists (2 ^ n0 + i), c. split; [lia|split; [done|]].
        rewrite Z.geb_leb. destruct (Z.leb_spec (2 ^ n0) (2 ^ n0 + i)); [|lia]. by replace (2 ^ n0 + i - 2 ^ n0) with i by lia. }
    exists (h - rehashidx d), c. split; [change (2 ^ 30) with 1073741824 in *; lia|]. split; [|done].
    rewrite Z.mod_small by lia. replace (rehashidx d + (h - rehashidx d)) with h by lia.
    rewrite to_size_t_id by (unfold SIZE_MAX, ULLONG_MAX; lia). by rewrite to_uint_id by lia.
  - destruct (dict_ok_idle hash d Hd Er) as [E1 _]. unfold entries in He. rewrite E1 in He. cbn in He. rewrite app_nil_r in He.
    assert (∃ n tb, ht_ok hash (ht0 d) n tb) as (n & tb & H0).
    { destruct Hd as [_ E0 _|n tb _ H0 _|]; eauto. rewrite E0 in He. by apply elem_of_nil in He. }
    destruct (entry_bucket d false _ _ e H0 He) as (i & c & Hi' & Htb & E & Hec). pose proof (ht_ok_range _ _ _ H0) as [Hr0 Hs0].
    exists i, c. split; [change (2 ^ 30) with 1073741824 in *; lia|]. split; [|done]. pose proof (ho_n _ _ _ _ H0).
    rewrite (ho_mask _ _ _ _ H0), land_mask, Z.mod_small by lia. by rewrite to_uint_id by lia.
Qed.

Lemma random_bucket_total d (random : nat → Z) : dict_ok hash d → ht0 d ≠ _dictReset → (∀ i, 0 ≤ random i) → ∀ fuel n,
  random_bucket fuel random n d = Fault OutOfFuel ∨
  ∃ c k, random_bucket fuel random n d = Ok (c, k) ∧ c ≠ [] ∧ c ⊆+ entries d.
Proof.
  intros Hd Hne Hr. induction fuel as [|fuel IH]; intros n; [by left|]. cbn [random_bucket].
  destruct (random_slot_total d (random n) Hd Hne (Hr n)) as (c & -> & Hc). res_step. destruct c as [|e c]; [apply IH|].
  right. eexists _, _. by split_and!.
Qed.

Lemma random_bucket_ends d (random : nat → Z) a c : dict_ok hash d → ht0 d ≠ _dictReset → (∀ i, 0 ≤ random i) →
  random_slot d a = Ok c → c ≠ [] → ∀ fuel n j, random (n + j)%nat = a → (j < fuel)%nat → random_bucket fuel random n d ≠ Fault OutOfFuel.
Proof.
  intros Hd Hne Hr Ha Hc. induction fuel as [|fuel IH]; intros n j Hj Hlt; [lia|]. cbn [random_bucket].
  destruct (random_slot_total d (random n) Hd Hne (Hr n)) as (c' & E & _). rewrite E. res_step. destruct c' as [|e c']; [|done].
  destruct j as [|j]; [rewrite Nat.add_0_r in Hj; congruence|]. apply (IH (S n) j); [by rewrite <- Hj; f_equal; lia|lia].
Qed.

(** What is returned is an entry, and each entry is returned by some draws. *)
Lemma pick_entry d m c (r : Z) : dict_rep hash d m → c ≠ [] → c ⊆+ entries d → 0 ≤ r →
  ∃ e, at_index c (Z.to_nat (to_int (Z.rem r (to_int (Z.of_nat (length c)))))) = Ok e ∧ m !! e.1 = Some e.2.
Proof.
  intros (Hd & Hp & Hs) Hc Hsub Hr. pose proof (submseteq_length _ _ Hsub) as Hl. rewrite (rep_length d m Hp) in Hl.
  unfold MAX_ELEMS in Hs. change (2 ^ 29) with 536870912 in Hs.
  assert (0 < Z.of_nat (length c)) by (destruct c; cbn; [done|lia]).
  rewrite (to_int_id (Z.of_nat _)) by (unfold INT_MIN, INT_MAX; lia). rewrite Z.rem_mod_nonneg by lia.
  pose proof (Z.mod_pos_bound r (Z.of_nat (length c)) ltac:(lia)). rewrite to_int_id by (unfold INT_MIN, INT_MAX; lia).
  destruct (lookup_lt_is_Some_2 c (Z.to_nat (r mod Z.of_nat (length c))) ltac:(lia)) as [e He].
  exists e. split; [by apply at_index_Ok|]. apply (elem_entries _ _ _ Hp). eapply elem_of_submseteq; [|done]. by eapply list_elem_of_lookup_2.
Qed.

Lemma pick_any c e : Z.of_nat (length c) ≤ MAX_ELEMS → e ∈ c →
  ∃ b, 0 ≤ b ≤ RAND_MAX ∧ at_index c (Z.to_nat (to_int (Z.rem b (to_int (Z.of_nat (length c)))))) = Ok e.
Proof.
  unfold MAX_ELEMS, RAND_MAX. change (2 ^ 29) with 536870912. intros Hl He. apply list_elem_of_lookup in He as [i Hi].
  apply lookup_lt_Some in Hi as Hlt. exists (Z.of_nat i). split; [lia|].
  rewrite (to_int_id (Z.of_nat (length c))) by (unfold INT_MIN, INT_MAX; lia). rewrite Z.rem_small, to_int_id by (unfold INT_MIN, INT_MAX; lia).
  rewrite Nat2Z.id. by apply at_index_Ok.
Qed.

Lemma random_step_rep d m : dict_rep hash d m → m ≠ ∅ →
  (dictSize d =? 0) = false ∧ ∃ d', rehash_step_if hash d = Ok d' ∧ dict_rep hash d' m ∧ ht0 d' ≠ _dictReset.
Proof.
  intros Hrep Hne. pose proof (dictSize_rep hash d m Hrep) as Hsz. destruct Hrep as (Hd & Hp & Hs).
  assert (stdpp.base.size m ≠ 0%nat) by (by rewrite map_size_empty_iff). split; [apply Z.eqb_neq; lia|].
  destruct (rehash_step_if_ok hash d Hd) as (d1 & E & Hd1 & Hp1 & _); [by rewrite (rep_length d m Hp)|]. rewrite Hp in Hp1.
  exists d1. split; [done|]. split; [done|]. apply (nonempty_table hash); [done|]. intros E0. apply (f_equal length) in E0.
  rewrite (rep_length d1 m Hp1) in E0. done.
Qed.

(** [dictGetRandomKey] on a dictionary with entries: whatever [random()] returns, the only
    way not to return an entry of the dictionary is to draw empty buckets forever; each entry
    has two draws that return it, and a draw of its bucket ends the loop whenever it comes.
    The rehashing step on the way does not change the map. *)
Theorem dictGetRandomKey_any d m : dict_rep hash d m → m ≠ ∅ →
  ∃ d', dict_rep hash d' m ∧
    (∀ random fuel, (∀ i, 0 ≤ random i) →
       dictGetRandomKey fuel random d = Fault OutOfFuel ∨
       ∃ k v, dictGetRandomKey fuel random d = Ok (Some (k, v), d') ∧ m !! k = Some v) ∧
    (∀ k v, m !! k = Some v → ∃ a b, 0 ≤ a ≤ RAND_MAX ∧ 0 ≤ b ≤ RAND_MAX ∧
       ∀ random, (∀ i, 0 ≤ random i) →
         (random 0%nat = a → random 1%nat = b → ∀ fuel, dictGetRandomKey (S fuel) random d = Ok (Some (k, v), d')) ∧
         (∀ j fuel, random j = a → (j < fuel)%nat → dictGetRandomKey fuel random d ≠ Fault OutOfFuel)).
Proof.
  intros Hrep Hne. destruct (random_step_rep d m Hrep Hne) as (Hsz & d1 & E1 & Hrep1 & Hne1). exists d1. split; [done|].
  unfold dictGetRandomKey. rewrite Hsz, E1. pose proof Hrep1 as (Hd1 & Hp1 & Hs1).
  assert (Hpick : ∀ random fuel, (∀ i, 0 ≤ random i) → random_bucket fuel random 0 d1 = Fault OutOfFuel ∨
    ∃ c n e, random_bucket fuel random 0 d1 = Ok (c, n) ∧ m !! e.1 = Some e.2 ∧
      at_index c (Z.to_nat (to_int (Z.rem (random n) (to_int (Z.of_nat (length c)))))) = Ok e).
  { intros random fuel Hr. destruct (random_bucket_total d1 random Hd1 Hne1 Hr fuel 0) as [->|(c & n & -> & Hc & Hsub)]; [by left|right].
    destruct (pick_entry d1 m c (random n) Hrep1 Hc Hsub (Hr n)) as (e & He & Hm). eauto 10. }
  split.
  - intros random fuel Hr. res_step. destruct (Hpick random fuel Hr) as [->|(c & n & [k v] & -> & Hm & E)]; [by left|right].
    res_step. rewrite E. res_step. by exists k, v.
  - intros k v Hkv. destruct (random_slot_surjective d1 (k, v) Hd1) as (a & c & Ha & Hsl & Hin); [by apply (elem_entries d1 m)|].
    assert (Hlc : Z.of_nat (length c) ≤ MAX_ELEMS).
    { destruct (random_slot_total d1 a Hd1 Hne1 ltac:(lia)) as (c' & E' & Hsub). rewrite Hsl in E'. apply Ok_inj in E' as <-.
      apply submseteq_length in Hsub. rewrite (rep_length d1 m Hp1) in Hsub. lia. }
    destruct (pick_any c (k, v) Hlc Hin) as (b & Hb & Hat). exists a, b. split_and!; [lia|lia|lia|lia|]. intros random Hr.
    assert (Hcn : c ≠ []) by (intros ->; by apply elem_of_nil in Hin). split.
    + intros H0 H1 fuel. res_step. cbn [random_bucket]. rewrite H0, Hsl. res_step. destruct c; [done|]. res_step. rewrite H1, Hat. by res_step.
    + intros j fuel Hj Hlt. res_step. destruct (Hpick random fuel Hr) as [E|(c' & n & e & -> & _ & E)].
      * exfalso. by eapply (random_bucket_ends d1 random a c Hd1 Hne1 Hr Hsl Hcn fuel 0 j).
      * res_step. rewrite E. by res_step.
Qed.

(** ** dictGetSomeKeys *)

Lemma some_rehash_rep m n : ∀ d, dict_rep hash d m → ∃ d', some_rehash n d = Ok d' ∧ dict_rep hash d' m.
Proof.
  induction n as [|n IH]; intros d Hrep; [by exists d|]. cbn [some_rehash]. destruct (dictIsRehashing d); [|by exists d].
  unfold _dictRehashStep. destruct (iterators d =? 0); [|res_step; by apply IH].
  destruct (dictRehash_rep hash 1 d m Hrep) as (b & d1 & -> & Hrep1). do 2 res_step. by apply IH.
Qed.

Lemma bucket_within d t i : dict_ok hash d → 0 ≤ i < size (ht d t) → ∃ c, bucket (ht d t) i = Ok c.
Proof.
  intros Hd Hi. assert (ht d t = _dictReset ∨ ∃ n tb, ht_ok hash (ht d t) n tb) as [E|(n & tb & Hh)]
    by (destruct Hd, t; cbn; eauto).
  - rewrite E in Hi. cbn in Hi. lia.
  - rewrite (ho_size _ _ _ _ Hh) in Hi. destruct (bucket_ok hash _ _ _ i Hh Hi) as (c & _ & E). eauto.
Qed.

(** The walk is at an index, and has stored entries of the dictionary, [count] at most;
    those of [pre] first. *)
Record walk_ok d (count : Z) (pre : list (entry K V)) (w : walk) : Prop := {
  wo_i : 0 ≤ w_i w < 2 ^ 31;
  wo_in : Forall (.∈ entries d) (w_des w);
  wo_count : Z.of_nat (length (w_des w)) ≤ count;
  wo_pre : pre `prefix_of` w_des w;
}.

Lemma land_small r mask : 0 ≤ r → 0 ≤ mask < 2 ^ 31 → 0 ≤ Z.land r mask < 2 ^ 31.
Proof.
  intros Hr Hm. split; [apply Z.land_nonneg; lia|]. destruct (Z.eq_dec mask 0) as [->|]; [by rewrite Z.land_0_r|].
  apply Z.log2_lt_cancel. rewrite Z.log2_pow2 by lia. eapply Z.le_lt_trans; [apply Z.log2_land; lia|].
  eapply Z.le_lt_trans; [apply Z.le_min_r|]. apply Z.log2_lt_pow2; lia.
Qed.

Section walk.
Context (random : nat → Z) d (maxsizemask count : Z) (pre : list (entry K V)).
Hypothesis Hrandom : ∀ i, 0 ≤ random i.
Hypothesis Hd : dict_ok hash d.
Hypothesis Hmask : 0 ≤ maxsizemask < 2 ^ 31.

Lemma visit_bucket_ok c w : walk_ok d count pre w → (∀ e, e ∈ c → e ∈ entries d) → walk_ok d count pre (visit_bucket random maxsizemask count c w).
Proof.
  intros Hw Hc. pose proof Hw as [Hi Hin Hl Hp]. destruct c as [|e c]; cbn [visit_bucket].
  - destruct (_ && _); constructor; try done. by apply land_small.
  - constructor; cbn [w_i w_des]; [done| |rewrite length_app, length_take; cbn [length]; lia|by apply prefix_app_r].
    apply Forall_app. split; [done|]. apply Forall_forall. intros x Hx. apply Hc. by eapply elem_of_take in Hx as (? & ?%list_elem_of_lookup_2 & _).
Qed.

Lemma visit_table_ok t w : walk_ok d count pre w → ∃ w', visit_table random d maxsizemask count t w = Ok w' ∧ walk_ok d count pre w'.
Proof.
  intros Hw. pose proof Hw as [Hi Hin Hl Hp]. unfold visit_table.
  destruct (dictIsRehashing d && negb t && _) eqn:Er.
  { eexists. split; [done|]. destruct (_ >=? size (ht1 d)); [|done]. constructor; try done. cbn [w_i].
    apply andb_true_iff in Er as [[Er _]%andb_true_iff _]. destruct (dict_ok_rehashing hash d Hd Er) as (n0 & tb0 & n1 & tb1 & Hr & H0 & _).
    destruct (ht_ok_range _ _ _ H0) as [? _]. change (2 ^ 30) with 1073741824 in *. change (2 ^ 31) with 2147483648. lia. }
  rewrite Z.geb_leb. destruct (Z.leb_spec (size (ht d t)) (w_i w)); [by eexists|].
  destruct (bucket_within d t (w_i w) Hd ltac:(lia)) as (c & E). rewrite E. res_step. eexists. split; [done|].
  apply visit_bucket_ok; [done|]. intros e He. eapply elem_of_submseteq; [done|]. by apply (bucket_entries d t (w_i w)).
Qed.

Lemma some_loop_ok n : ∀ w, walk_ok d count pre w → ∃ w', some_loop n random d maxsizemask count w = Ok w' ∧ walk_ok d count pre w'.
Proof.
  induction n as [|n IH]; intros w Hw; cbn [some_loop]; (destruct (stored_all count w); [by eexists|]); [by eexists|].
  destruct (visit_table_ok false w Hw) as (w1 & -> & H1). res_step. destruct (stored_all count w1); [by eexists|].
  assert (∃ w2, (if dictIsRehashing d then visit_table random d maxsizemask count true w1 else Ok w1) = Ok w2 ∧ walk_ok d count pre w2) as (w2 & -> & H2)
    by (destruct (dictIsRehashing d); [by apply visit_table_ok|eauto]).
  res_step. destruct (stored_all count w2); [by eexists|]. apply IH. destruct H2 as [Hi Hin Hl Hp]. constructor; try done.
  cbn [w_i]. apply land_small; [|done]. unfold to_size_t, to_unsigned. by apply Z.mod_pos_bound.
Qed.
End walk.

Lemma some_loop_first random d mask count n w c : (∀ i, 0 ≤ random i) → dict_ok hash d → 0 ≤ mask < 2 ^ 31 →
  dictIsRehashing d = false → walk_ok d count [] w → w_des w = [] → 0 < count →
  bucket (ht0 d) (w_i w) = Ok c → w_i w < size (ht0 d) → c ≠ [] →
  ∃ w', some_loop (S n) random d mask count w = Ok w' ∧ walk_ok d count (take (Z.to_nat count) c) w'.
Proof.
  intros Hr Hd Hmask Hidle Hw Hdes Hpos Hb Hsz Hc. cbn [some_loop]. unfold stored_all at 1. rewrite Hdes. cbn [length].
  rewrite Z.geb_leb. destruct (Z.leb_spec count (Z.of_nat 0)); [lia|]. unfold visit_table. rewrite Hidle. cbn [andb ht].
  rewrite Z.geb_leb. destruct (Z.leb_spec (size (ht0 d)) (w_i w)); [lia|]. rewrite Hb. do 2 res_step.
  set (w1 := visit_bucket _ _ _ _ _).
  assert (Hw1 : walk_ok d count (take (Z.to_nat count) c) w1).
  { destruct (visit_bucket_ok random d mask count [] Hr Hmask c w Hw) as [Hi Hin Hl Hp].
    { intros e He. eapply elem_of_submseteq; [done|]. by apply (bucket_entries d false (w_i w)). }
    constructor; [done|done|done|]. unfold w1. destruct c; [done|]. cbn [visit_bucket w_des]. rewrite Hdes. cbn [app length].
    by rewrite Z.sub_0_r. }
  destruct (stored_all count w1); [by eexists|]. res_step. destruct (stored_all count w1); [by eexists|].
  apply some_loop_ok; [done|done|done|]. destruct Hw1 as [Hi Hin Hl Hp]. constructor; try done.
  cbn [w_i]. apply land_small; [|done]. unfold to_size_t, to_unsigned. by apply Z.mod_pos_bound.
Qed.

Lemma steps_positive cnt : 0 < cnt ≤ 536870912 → ∃ n, Z.to_nat (to_uint (cnt * 10)) = S n.
Proof.
  intros Hc. unfold to_uint, to_unsigned. pose proof (Z.mod_pos_bound (cnt * 10) (2 ^ 32) ltac:(done)).
  pose proof (Z.div_mod (cnt * 10) (2 ^ 32) ltac:(done)) as Hdm. exists (pred (Z.to_nat (cnt * 10 mod 2 ^ 32))).
  change (2 ^ 32) with 4294967296 in *. lia.
Qed.

Lemma mask_range d : dict_ok hash d → 0 ≤ sizemask (ht0 d) < 2 ^ 31 ∧ 0 ≤ sizemask (ht1 d) < 2 ^ 31.
Proof.
  assert (Hr : ∀ h : dictht K V, h = _dictReset ∨ (∃ n tb, ht_ok hash h n tb) → 0 ≤ sizemask h < 2 ^ 31).
  { intros h [->|(n & tb & Hh)]; [done|]. rewrite (ho_mask _ _ _ _ Hh). destruct (ht_ok_range _ _ _ Hh) as [? _].
    change (2 ^ 30) with 1073741824 in *. change (2 ^ 31) with 2147483648. lia. }
  intros Hd. split; apply Hr; destruct Hd; eauto.
Qed.

(** With one table the walk starts with the bucket of the first draw. *)
Lemma first_draw random d m count cnt mask : dict_rep hash d m → (∀ i, 0 ≤ random i) → 0 ≤ mask < 2 ^ 31 →
  dictIsRehashing d = false → cnt = count `min` Z.of_nat (stdpp.base.size m) →
  walk_ok d cnt [] (mkWalk (Z.land (random 0%nat) mask) 1 0 []) → 0 ≤ cnt ≤ 536870912 → mask = sizemask (ht0 d) →
  ∃ w pre, some_loop (Z.to_nat (to_uint (cnt * 10))) random d mask cnt (mkWalk (Z.land (random 0%nat) mask) 1 0 []) = Ok w ∧ walk_ok d cnt pre w ∧
    ∀ c, false = false → bucket (ht0 d) (Z.land (random 0%nat) (sizemask (ht0 d))) = Ok c → take (Z.to_nat count) c = pre.
Proof.
  intros Hrep Hr Hmask Hidle Hcnt Hw0 Hpos ->. pose proof Hrep as (Hd & Hp & _).
  set (i := Z.land (random 0%nat) (sizemask (ht0 d))) in *. set (w0 := mkWalk i 1 0 []) in *.
  destruct (some_loop_ok random d _ cnt [] Hr Hd Hmask (Z.to_nat (to_uint (cnt * 10))) w0 Hw0) as (w & E & Hw).
  destruct (bucket (ht0 d) i) as [c|f] eqn:Hb; [|exists w, []; by split_and!].
  pose proof (bucket_entries d false i c Hb) as Hsub. apply submseteq_length in Hsub. rewrite (rep_length d m Hp) in Hsub.
  assert (Htake : take (Z.to_nat count) c = take (Z.to_nat cnt) c).
  { destruct (Z.le_gt_cases count (Z.of_nat (stdpp.base.size m))); [do 2 f_equal; lia|]. rewrite !take_ge by lia. done. }
  destruct (decide (take (Z.to_nat cnt) c = [])) as [Hnil|Hnil].
  { exists w, []. split_and!; [done|done|]. intros c' _ [= <-]. by rewrite Htake. }
  destruct (steps_positive cnt) as [n Hn].
  { destruct (Z.eq_dec cnt 0) as [->|]; [done|lia]. }
  assert (∃ n tb, ht_ok hash (ht0 d) n tb) as (k & tb & H0).
  { destruct Hd as [_ E0 _| |]; eauto. by rewrite E0 in Hb. }
  rewrite Hn. destruct (some_loop_first random d (sizemask (ht0 d)) cnt n w0 c Hr Hd Hmask Hidle Hw0) as (w' & E' & Hw'); [done| |done| | |].
  - destruct (Z.eq_dec cnt 0) as [->|]; [done|lia].
  - cbn. pose proof (ho_n _ _ _ _ H0). rewrite (ho_size _ _ _ _ H0). unfold i. rewrite (ho_mask _ _ _ _ H0), land_mask by lia.
    apply Z.mod_pos_bound, pow2_pos. lia.
  - intros ->. by rewrite take_nil in Hnil.
  - exists w', (take (Z.to_nat cnt) c). split_and!; [done|done|]. by intros c' _ [= <-].
Qed.

(** [dictGetSomeKeys] ends within its step limit without a read outside the tables, also
    while the dictionary is rehashing; it stores entries of the dictionary only, no more
    than asked for and no more than there are, and starts with the bucket of its first draw
    when the dictionary has one table. *)
Theorem dictGetSomeKeys_sample random d m count : dict_rep hash d m → (∀ i, 0 ≤ random i) → 0 ≤ count < 2 ^ 32 →
  ∃ l d', dictGetSomeKeys random d count = Ok (l, d') ∧ dict_rep hash d' m ∧
    Forall (λ e, m !! e.1 = Some e.2) l ∧ Z.of_nat (length l) ≤ count `min` Z.of_nat (stdpp.base.size m) ∧
    (∀ c, dictIsRehashing d = false → bucket (ht0 d) (Z.land (random 0%nat) (sizemask (ht0 d))) = Ok c →
       take (Z.to_nat count) c `prefix_of` l).
Proof.
  intros Hrep Hr Hcount. unfold dictGetSomeKeys. pose proof (dictSize_rep hash d m Hrep) as Hsz. rewrite Hsz.
  pose proof Hrep as (_ & _ & Hs). unfold MAX_ELEMS in Hs. change (2 ^ 29) with 536870912 in Hs.
  set (cnt := if _ <? count then _ else count).
  assert (Hcnt : cnt = count `min` Z.of_nat (stdpp.base.size m)).
  { unfold cnt. destruct (Z.ltb_spec (Z.of_nat (stdpp.base.size m)) count); [rewrite to_uint_id by lia|]; lia. }
  rewrite <- Hcnt.
  destruct (some_rehash_rep m (Z.to_nat cnt) d Hrep) as (d1 & E1 & Hrep1). rewrite E1. res_step. pose proof Hrep1 as (Hd1 & Hp1 & _).
  destruct (mask_range d1 Hd1) as [Hm0 Hm1]. set (mask := if _ && _ then _ else _). assert (Hmask : 0 ≤ mask < 2 ^ 31) by (unfold mask; case_match; done).
  set (w0 := mkWalk _ _ _ _). assert (Hw0 : walk_ok d1 cnt [] w0) by (constructor; cbn; [by apply land_small|done|lia|done]).
  assert (∃ w pre, some_loop (Z.to_nat (to_uint (cnt * 10))) random d1 mask cnt w0 = Ok w ∧ walk_ok d1 cnt pre w ∧
    ∀ c, dictIsRehashing d = false → bucket (ht0 d) (Z.land (random 0%nat) (sizemask (ht0 d))) = Ok c → take (Z.to_nat count) c = pre)
    as (w & pre & E & [Hi Hin Hl Hp] & Hpre).
  2: { rewrite E. res_step. exists (w_des w), d1. split; [done|]. split; [done|]. split; [|split; [done|]].
       - eapply Forall_impl; [done|]. intros e He. by apply (elem_entries _ _ _ Hp1).
       - intros c Hidle Hb. by rewrite (Hpre c Hidle Hb). }
  destruct (dictIsRehashing d) eqn:Hidle.
  { destruct (some_loop_ok random d1 mask cnt [] Hr Hd1 Hmask (Z.to_nat (to_uint (cnt * 10))) w0 Hw0) as (w & E & Hw). by exists w, []. }
  assert (d1 = d) as -> by (destruct (Z.to_nat cnt); cbn in E1; rewrite ?Hidle in E1; by apply Ok_inj in E1).
  apply (first_draw random d m count cnt mask); [done|done|done|done|done|done|lia|].
  unfold mask. by rewrite Hidle.
Qed.
End random.

Lemma dictGetRandomKey_any_witness :
  ∃ d', dict_rep (λ k, k) d' sample_map ∧
    (∀ random fuel, (∀ i, 0 ≤ random i) →
       dictGetRandomKey (λ k, k) fuel random sample_dict = Fault OutOfFuel ∨
       ∃ k v, dictGetRandomKey (λ k, k) fuel random sample_dict = Ok (Some (k, v), d') ∧ sample_map !! k = Some v) ∧
    (∀ k v, sample_map !! k = Some v → ∃ a b, 0 ≤ a ≤ RAND_MAX ∧ 0 ≤ b ≤ RAND_MAX ∧
       ∀ random, (∀ i, 0 ≤ random i) →
         (random 0%nat = a → random 1%nat = b → ∀ fuel, dictGetRandomKey (λ k, k) (S fuel) random sample_dict = Ok (Some (k, v), d')) ∧
         (∀ j fuel, random j = a → (j < fuel)%nat → dictGetRandomKey (λ k, k) fuel random sample_dict ≠ Fault OutOfFuel)).
Proof. apply (dictGetRandomKey_any (λ k, k) sample_dict sample_map); [apply sample_rep|by vm_compute]. Defined.

Lemma dictGetSomeKeys_sample_witness :
  ∃ l d', dictGetSomeKeys (λ k, k) (λ i, Z.of_nat i * 7) sample_dict 3 = Ok (l, d') ∧ dict_rep (λ k, k) d' sample_map ∧
    Forall (λ e, sample_map !! e.1 = Some e.2) l ∧ Z.of_nat (length l) ≤ 3 `min` Z.of_nat (stdpp.base.size sample_map).
Proof.
  destruct (dictGetSomeKeys_sample (λ k, k) (λ i, Z.of_nat i * 7) sample_dict sample_map 3) as (l & d' & E & Hd & Hf & Hl & _);
    [apply sample_rep|lia|lia|]. exact (ex_intro _ l (ex_intro _ d' (conj E (conj Hd (conj Hf Hl))))).
Defined.
