(* ===== verification/Hash.v ===== *)
(** src/src/t_hash.c, src/src/object.c: string objects and the hash objects that
    hold the counters of a partition.  A small hash is a ziplist of alternating
    fields and values; it becomes a hash table when it grows past
    [hash_max_ziplist_entries].  A ziplist is taken at the level of its entries:
    an entry is a string, or an integer when the string is the canonical decimal
    text of a 64-bit integer.  The theorems show that both encodings, and the
    conversion between them, implement one finite map from field to value. *)

From S2P Require Import Prelude CString Util Sds Keys.

(** * String objects (object.c) *)

(** A string object whose [ptr] is an sds ([RAW] or [EMBSTR]) or an integer. *)
Inductive strobj :=
| SRaw (s : bytes)
| SInt (z : Z).

#[export] Instance strobj_eq_dec : EqDecision strobj.
Proof. solve_decision. Defined.

Definition OBJ_SHARED_INTEGERS : Z := 10000.

Definition sdsEncodedObject (o : strobj) : bool := match o with SRaw _ => true | SInt _ => false end.

(** The use of [o->ptr] as an sds. *)
Definition sds_ptr (o : strobj) : res bytes :=
  match o with SRaw s => Ok s | SInt _ => Fault BadCast end.

Definition createStringObject (s : bytes) : strobj := SRaw s.

Definition createStringObjectFromLongLong (value : Z) : strobj :=
  if (0 <=? value) && (value <? OBJ_SHARED_INTEGERS) then SInt value
  else if (LLONG_MIN <=? value) && (value <=? LLONG_MAX) then SInt value
  else SRaw (sdsfromlonglong value).

Definition getDecodedObject (o : strobj) : res strobj :=
  match o with
  | SRaw s => Ok (SRaw s)
  | SInt z => r ← ll2string (new_buf 32) z; Ok (createStringObject (cstr r.2))
  end.

(** [tryObjectEncoding]: the choice between [RAW] and [EMBSTR] does not show. *)
Definition tryObjectEncoding (refcount : Z) (o : strobj) : strobj :=
  match o with
  | SInt _ => o
  | SRaw s =>
      if refcount >? 1 then o
      else if (length s <=? 20)%nat then
        match string2l s with Some value => SInt value | None => o end
      else o
  end.

Definition getLongLongFromObject (o : option strobj) : rc * Z :=
  match o with
  | None => (C_OK, 0)
  | Some (SRaw s) => match string2ll s with Some v => (C_OK, v) | None => (C_ERR, 0) end
  | Some (SInt z) => (C_OK, z)
  end.

(** * Ziplist entries *)

Inductive zentry :=
| ZStr (s : bytes)
| ZInt (z : Z).

#[export] Instance zentry_eq_dec : EqDecision zentry.
Proof. solve_decision. Defined.

Abbreviation ziplist := (list zentry).

Definition zipTryEncoding (entry : bytes) : option Z :=
  if (32 <=? length entry)%nat || (length entry =? 0)%nat then None else string2ll entry.

(** The entry that an insertion of [s] stores. *)
Definition zip_entry (s : bytes) : zentry :=
  match zipTryEncoding s with Some v => ZInt v | None => ZStr s end.

(** The comparison of [ziplistFind]. *)
Definition zip_equal (e : zentry) (vstr : bytes) : bool :=
  match e with
  | ZStr s => bool_decide (s = vstr)
  | ZInt ll => match zipTryEncoding vstr with Some vll => ll =? vll | None => false end
  end.

(** [ziplistFind(p, vstr, vlen, skip)] from entry [i] on. *)
Fixpoint ziplistFind (zl : ziplist) (i : nat) (vstr : bytes) (skip skipcnt : nat) : option nat :=
  match zl with
  | [] => None
  | e :: zl' =>
      match skipcnt with
      | O => if zip_equal e vstr then Some i else ziplistFind zl' (S i) vstr skip skip
      | S n => ziplistFind zl' (S i) vstr skip n
      end
  end.

Definition ziplistNext (zl : ziplist) (i : nat) : option nat :=
  if (S i <? length zl)%nat then Some (S i) else None.
Definition ziplistDelete (zl : ziplist) (i : nat) : ziplist := delete i zl.
Definition ziplistInsert (zl : ziplist) (i : nat) (s : bytes) : ziplist :=
  take i zl ++ zip_entry s :: drop i zl.
Definition ziplistPush (zl : ziplist) (s : bytes) : ziplist := zl ++ [zip_entry s].

(** * Hash objects (t_hash.c) *)

Inductive hashobj :=
| HZiplist (zl : ziplist)
| HTable (d : gmap bytes bytes).

Definition createMetaHashdictFordict : hashobj := HZiplist [].

(** Position of the value of [field] in the ziplist. *)
Definition hash_value_at (zl : ziplist) (field : bytes) : res (option nat) :=
  match ziplistFind zl 0 field 1 0 with
  | None => Ok None
  | Some fptr =>
      match ziplistNext zl fptr with
      | None => Fault AssertFail
      | Some vptr => Ok (Some vptr)
      end
  end.

Definition hashTypeGetFromZiplist (zl : ziplist) (field : bytes) : res (option zentry) :=
  vptr ← hash_value_at zl field;
  match vptr with
  | None => Ok None
  | Some i => e ← at_index zl i; Ok (Some e)
  end.

Definition hashTypeGetFromZiplistWithrobj (zl : ziplist) (field : strobj) : res (option zentry) :=
  field ← getDecodedObject field;
  f ← sds_ptr field;
  hashTypeGetFromZiplist zl f.

Definition hashTypeGetFromHashTable (d : gmap bytes bytes) (field : bytes) : option bytes := d !! field.

(** The string or integer that [hashTypeGetValue] stores through its pointers. *)
Definition hashTypeGetValue (o : hashobj) (field : bytes) : res (option zentry) :=
  match o with
  | HZiplist zl => hashTypeGetFromZiplist zl field
  | HTable d => Ok (ZStr <$> hashTypeGetFromHashTable d field)
  end.

Definition object_of_entry (e : zentry) : strobj :=
  match e with
  | ZStr s => createStringObject s
  | ZInt z => createStringObjectFromLongLong z
  end.

Definition hashTypeGetValueObject (o : hashobj) (field : bytes) : res (option strobj) :=
  v ← hashTypeGetValue o field; Ok (option_map object_of_entry v).

Definition hashTypeGetValueRObject (o : hashobj) (field : strobj) : res (option strobj) :=
  match o with
  | HZiplist zl => v ← hashTypeGetFromZiplistWithrobj zl field; Ok (option_map object_of_entry v)
  | HTable d =>
      field ← getDecodedObject field;
      f ← sds_ptr field;
      Ok (createStringObject <$> hashTypeGetFromHashTable d f)
  end.

(** Encodes the field only, as the callers pass NULL for the second object. *)
Definition hashTypeTryObjectEncoding (subject : hashobj) (refcount : Z) (o1 : strobj) : strobj :=
  match subject with HZiplist _ => o1 | HTable _ => tryObjectEncoding refcount o1 end.

Definition hashTypeExists (o : hashobj) (field : bytes) : res bool :=
  match o with
  | HZiplist zl => v ← hashTypeGetFromZiplist zl field; Ok (bool_decide (is_Some v))
  | HTable d => Ok (bool_decide (is_Some (hashTypeGetFromHashTable d field)))
  end.

Definition hashTypeLength (o : hashobj) : Z :=
  match o with
  | HZiplist zl => Z.of_nat (length zl) / 2
  | HTable d => Z.of_nat (size d)
  end.

(** [hashTypeCurrentObjectNewSds]: the text of an entry. *)
Definition hashTypeCurrentObjectNewSds (e : zentry) : bytes :=
  match e with ZStr s => s | ZInt z => sdsfromlonglong z end.

(** The conversion loop; a repeated field is a corrupt ziplist. *)
Fixpoint convert_loop (zl : ziplist) (d : gmap bytes bytes) : res (gmap bytes bytes) :=
  match zl with
  | k :: v :: zl' =>
      let key := hashTypeCurrentObjectNewSds k in
      match d !! key with
      | Some _ => Fault Panic
      | None => convert_loop zl' (<[key := hashTypeCurrentObjectNewSds v]> d)
      end
  | [_] => Fault AssertFail
  | [] => Ok d
  end.

Definition hashTypeConvertZiplist (zl : ziplist) : res hashobj :=
  d ← convert_loop zl ∅; Ok (HTable d).

(** [hashTypeConvert(o, OBJ_ENCODING_HT)]. *)
Definition hashTypeConvert (o : hashobj) : res hashobj :=
  match o with HZiplist zl => hashTypeConvertZiplist zl | HTable _ => Fault Panic end.

(** Returns whether the field existed, and the object. *)
Definition hashTypeSetWithNoFlags (max_entries : Z) (o : hashobj) (field value : strobj)
    : res (bool * hashobj) :=
  field ← getDecodedObject field;
  value ← getDecodedObject value;
  f ← sds_ptr field;
  v ← sds_ptr value;
  match o with
  | HZiplist zl =>
      vptr ← hash_value_at zl f;
      let '(update, zl) :=
        match vptr with
        | Some i => (true, ziplistInsert (ziplistDelete zl i) i v)
        | None => (false, ziplistPush (ziplistPush zl f) v)
        end in
      o' ← (if hashTypeLength (HZiplist zl) >? max_entries then hashTypeConvert (HZiplist zl)
            else Ok (HZiplist zl));
      Ok (update, o')
  | HTable d => Ok (bool_decide (is_Some (d !! f)), HTable (<[f := v]> d))
  end.

(** * The map a hash object holds *)

(** The text of a string object. *)
Definition str_text (o : strobj) : bytes := match o with SRaw s => s | SInt z => d2s z end.
(** A string object whose integer, if it has one, fits 64 bits. *)
Definition str_wf (o : strobj) : Prop :=
  match o with SRaw _ => True | SInt z => LLONG_MIN ≤ z ≤ LLONG_MAX end.

Fixpoint zip_pairs (kvs : list (bytes * bytes)) : ziplist :=
  match kvs with
  | [] => []
  | (k, v) :: kvs' => zip_entry k :: zip_entry v :: zip_pairs kvs'
  end.

(** [o] holds the map [m]. *)
Definition hash_rep (o : hashobj) (m : gmap bytes bytes) : Prop :=
  match o with
  | HZiplist zl => ∃ kvs, zl = zip_pairs kvs ∧ NoDup kvs.*1 ∧ m = list_to_map kvs
  | HTable d => m = d
  end.

Lemma zip_entry_text s : hashTypeCurrentObjectNewSds (zip_entry s) = s.
Proof.
  unfold zip_entry, zipTryEncoding. destruct (_ || _); [done|].
  destruct (string2ll s) as [v|] eqn:E; [|done]. apply string2ll_sound in E as [-> Hv].
  by apply sdsll2str_d2s.
Qed.

Lemma zip_entry_object s : str_text (object_of_entry (zip_entry s)) = s ∧
  str_wf (object_of_entry (zip_entry s)).
Proof.
  unfold zip_entry, zipTryEncoding. destruct (_ || _); [done|].
  destruct (string2ll s) as [v|] eqn:E; [|done]. apply string2ll_sound in E as [-> Hv].
  cbn [object_of_entry]. unfold createStringObjectFromLongLong.
  destruct ((0 <=? v) && (v <? OBJ_SHARED_INTEGERS)); [done|].
  replace ((LLONG_MIN <=? v) && (v <=? LLONG_MAX)) with true; [done|].
  symmetry. apply andb_true_iff; split; apply Z.leb_le; lia.
Qed.

Lemma zip_equal_entry s t : zip_equal (zip_entry s) t = bool_decide (s = t).
Proof.
  unfold zip_entry. destruct (zipTryEncoding s) as [v|] eqn:Es; [|done].
  assert (Hs : string2ll s = Some v).
  { unfold zipTryEncoding in Es. by destruct (_ || _). }
  cbn [zip_equal]. destruct (zipTryEncoding t) as [w|] eqn:Et.
  - assert (Ht : string2ll t = Some w) by (unfold zipTryEncoding in Et; by destruct (_ || _)).
    destruct (Z.eqb_spec v w) as [->|Hne].
    + apply string2ll_sound in Hs as [-> _], Ht as [-> _]. by rewrite bool_decide_true.
    + rewrite bool_decide_false; [done|]. intros ->. congruence.
  - rewrite bool_decide_false; [done|]. intros ->. congruence.
Qed.

Lemma length_zip_pairs kvs : length (zip_pairs kvs) = (2 * length kvs)%nat.
Proof. induction kvs as [|[k v] kvs IH]; simpl; lia. Qed.

Lemma zip_pairs_app kvs kvs' : zip_pairs (kvs ++ kvs') = zip_pairs kvs ++ zip_pairs kvs'.
Proof. induction kvs as [|[k v] kvs IH]; simpl; [done|]. by rewrite IH. Qed.

Lemma ziplistFind_pairs kvs f i :
  match ziplistFind (zip_pairs kvs) i f 1 0 with
  | None => f ∉ kvs.*1
  | Some p => ∃ pre v post, kvs = pre ++ (f, v) :: post ∧ (f ∉ pre.*1) ∧ p = (i + 2 * length pre)%nat
  end.
Proof.
  revert i. induction kvs as [|[k v] kvs IH]; intros i; cbn [zip_pairs ziplistFind].
  { simpl. set_solver. }
  rewrite zip_equal_entry. case_bool_decide as Hk.
  - subst. exists [], v, kvs. split_and!; [done|set_solver|simpl; lia].
  - cbn [ziplistFind]. specialize (IH (S (S i))). destruct (ziplistFind _ _ _ _ _).
    + destruct IH as (pre & w & post & -> & Hpre & ->). exists ((k, v) :: pre), w, post.
      split_and!; [done|set_solver|simpl; lia].
    + set_solver.
Qed.

(** Where the value of [f] is. *)
Lemma hash_value_at_pairs kvs f :
  match hash_value_at (zip_pairs kvs) f with
  | Ok (Some p) => ∃ pre v post, kvs = pre ++ (f, v) :: post ∧ (f ∉ pre.*1) ∧ p = S (2 * length pre)
  | Ok None => f ∉ kvs.*1
  | Fault _ => False
  end.
Proof.
  unfold hash_value_at. pose proof (ziplistFind_pairs kvs f 0) as H.
  destruct (ziplistFind _ _ _ _ _) as [p|]; [|done].
  destruct H as (pre & v & post & -> & Hpre & ->). unfold ziplistNext.
  rewrite length_zip_pairs, length_app. cbn [length].
  destruct (Nat.ltb_spec (S (0 + 2 * length pre)) (2 * (length pre + S (length post)))); [|lia].
  by exists pre, v, post.
Qed.

Lemma list_to_map_mid (pre post : list (bytes * bytes)) f v :
  f ∉ pre.*1 → (list_to_map (pre ++ (f, v) :: post) : gmap bytes bytes) !! f = Some v.
Proof.
  intros Hf. rewrite list_to_map_app. rewrite lookup_union_r; [by rewrite list_to_map_cons, lookup_insert_eq|].
  by apply not_elem_of_list_to_map_1.
Qed.

(** ** Reading *)

Lemma getDecodedObject_ok o : str_wf o → getDecodedObject o = Ok (SRaw (str_text o)).
Proof.
  destruct o as [s|z]; intros H; [done|]. cbn [getDecodedObject str_text].
  rewrite ll2string_spec by done. res_step. unfold ll2string_result.
  pose proof (sdsll2str_length z H) as Hl. rewrite sdsll2str_d2s in Hl by done.
  unfold new_buf. rewrite length_replicate. destruct (Nat.leb_spec 32 (length (d2s z))); [lia|].
  cbn [snd createStringObject]. by rewrite cstr_app_nul by apply d2s_nonul.
Qed.

Lemma hashTypeGetFromZiplist_ok kvs f :
  hashTypeGetFromZiplist (zip_pairs kvs) f =
    Ok (zip_entry <$> (list_to_map kvs : gmap bytes bytes) !! f).
Proof.
  unfold hashTypeGetFromZiplist. pose proof (hash_value_at_pairs kvs f) as H.
  destruct (hash_value_at _ _) as [[p|]|]; [| |done].
  - destruct H as (pre & v & post & -> & Hpre & ->). res_step. rewrite list_to_map_mid by done.
    unfold at_index. rewrite zip_pairs_app, lookup_app_r by (rewrite length_zip_pairs; lia).
    rewrite length_zip_pairs. cbn [zip_pairs].
    by replace (S (2 * length pre) - 2 * length pre)%nat with 1%nat by lia.
  - res_step. by rewrite not_elem_of_list_to_map_1.
Qed.

(** The object that a lookup returns denotes the stored value. *)
Definition denotes (o : option strobj) (v : option bytes) : Prop :=
  match o, v with
  | Some o, Some s => str_text o = s ∧ str_wf o
  | None, None => True
  | _, _ => False
  end.

Lemma denotes_entry (v : option bytes) : denotes (option_map object_of_entry (zip_entry <$> v)) v.
Proof. destruct v as [s|]; [|done]. apply zip_entry_object. Qed.

Lemma hashTypeGetValueObject_ok o m f :
  hash_rep o m → ∃ r, hashTypeGetValueObject o f = Ok r ∧ denotes r (m !! f).
Proof.
  unfold hashTypeGetValueObject, hashTypeGetValue. destruct o as [zl|d]; cbn [hash_rep].
  - intros (kvs & -> & _ & ->). rewrite hashTypeGetFromZiplist_ok. res_step.
    eexists. split; [done|apply denotes_entry].
  - intros ->. res_step. eexists. split; [done|]. unfold hashTypeGetFromHashTable.
    by destruct (d !! f).
Qed.

Lemma hashTypeGetValueRObject_ok o m f :
  hash_rep o m → str_wf f → ∃ r, hashTypeGetValueRObject o f = Ok r ∧ denotes r (m !! str_text f).
Proof.
  intros Ho Hf. unfold hashTypeGetValueRObject, hashTypeGetFromZiplistWithrobj.
  rewrite getDecodedObject_ok by done. destruct o as [zl|d]; cbn [hash_rep] in Ho.
  - destruct Ho as (kvs & -> & _ & ->). res_step. cbn [sds_ptr]. res_step.
    rewrite hashTypeGetFromZiplist_ok. res_step. eexists. split; [done|apply denotes_entry].
  - subst. res_step. cbn [sds_ptr]. res_step. eexists. split; [done|].
    unfold hashTypeGetFromHashTable. by destruct (d !! _).
Qed.

(** ** Writing *)

Lemma convert_loop_ok kvs d :
  NoDup kvs.*1 → (∀ k, k ∈ kvs.*1 → d !! k = None) →
  convert_loop (zip_pairs kvs) d = Ok (list_to_map kvs ∪ d).
Proof.
  revert d. induction kvs as [|[k v] kvs IH]; intros d Hnd Hd; cbn [zip_pairs convert_loop].
  { by rewrite list_to_map_nil, (left_id_L ∅ (∪)). }
  rewrite !zip_entry_text. apply NoDup_cons in Hnd as [Hk Hnd]. rewrite Hd by set_solver.
  rewrite IH; [|done|].
  - f_equal. rewrite list_to_map_cons. rewrite <- insert_union_l, <- insert_union_r; [done|].
    by apply not_elem_of_list_to_map_1.
  - intros k' Hk'. rewrite lookup_insert_ne by (intros ->; done). apply Hd. set_solver.
Qed.

Lemma hashTypeConvert_ok zl m :
  hash_rep (HZiplist zl) m → ∃ o, hashTypeConvert (HZiplist zl) = Ok o ∧ hash_rep o m.
Proof.
  intros (kvs & -> & Hnd & ->). cbn [hashTypeConvert]. unfold hashTypeConvertZiplist.
  rewrite convert_loop_ok by done. res_step. eexists. split; [done|].
  cbn. by rewrite (right_id_L ∅ (∪)).
Qed.

Lemma zip_update pre f v post w :
  ziplistInsert (ziplistDelete (zip_pairs (pre ++ (f, v) :: post)) (S (2 * length pre)))
    (S (2 * length pre)) w = zip_pairs (pre ++ (f, w) :: post).
Proof.
  rewrite !zip_pairs_app. cbn [zip_pairs]. unfold ziplistInsert, ziplistDelete.
  rewrite !(cons_middle (zip_entry f)), !(app_assoc (zip_pairs pre)).
  assert (El : S (2 * length pre) = length (zip_pairs pre ++ [zip_entry f])).
  { rewrite length_app, length_zip_pairs. simpl. lia. }
  rewrite El, delete_middle, take_app_length, drop_app_length. done.
Qed.

Lemma list_to_map_update (pre post : list (bytes * bytes)) f v w :
  f ∉ pre.*1 → (list_to_map (pre ++ (f, w) :: post) : gmap bytes bytes) =
    <[f := w]> (list_to_map (pre ++ (f, v) :: post)).
Proof.
  intros Hf. rewrite !list_to_map_app, !list_to_map_cons.
  rewrite insert_union_r by (by apply not_elem_of_list_to_map_1).
  by rewrite insert_insert_eq.
Qed.

Lemma hashTypeSet_ok n o m f v :
  hash_rep o m → str_wf f → str_wf v →
  ∃ o', hashTypeSetWithNoFlags n o f v = Ok (bool_decide (is_Some (m !! str_text f)), o')
        ∧ hash_rep o' (<[str_text f := str_text v]> m).
Proof.
  intros Ho Hf Hv. unfold hashTypeSetWithNoFlags. rewrite !getDecodedObject_ok by done.
  res_step. res_step. cbn [sds_ptr]. res_step. res_step.
  set (k := str_text f). set (w := str_text v). destruct o as [zl|d]; cbn [hash_rep] in Ho.
  2:{ subst. by eexists. }
  destruct Ho as (kvs & -> & Hnd & ->). pose proof (hash_value_at_pairs kvs k) as H.
  assert (∃ upd zl', (vptr ← hash_value_at (zip_pairs kvs) k;
     let '(update, zl) := match vptr with
        | Some i => (true, ziplistInsert (ziplistDelete (zip_pairs kvs) i) i w)
        | None => (false, ziplistPush (ziplistPush (zip_pairs kvs) k) w) end in
     o' ← (if hashTypeLength (HZiplist zl) >? n then hashTypeConvert (HZiplist zl) else Ok (HZiplist zl));
     Ok (update, o')) =
     (o' ← (if hashTypeLength (HZiplist zl') >? n then hashTypeConvert (HZiplist zl') else Ok (HZiplist zl'));
      Ok (upd, o')) ∧
     upd = bool_decide (is_Some ((list_to_map kvs : gmap bytes bytes) !! k)) ∧
     hash_rep (HZiplist zl') (<[k := w]> (list_to_map kvs))) as (upd & zl' & -> & -> & Hrep).
  { destruct (hash_value_at _ _) as [[p|]|]; [| |done]; res_step.
    - destruct H as (pre & u & post & -> & Hpre & ->). rewrite zip_update.
      eexists _, _. split; [done|]. split; [by rewrite list_to_map_mid|].
      exists (pre ++ (k, w) :: post). split; [done|]. rewrite fmap_app in *. simpl in *.
      split; [done|]. symmetry. by apply list_to_map_update.
    - eexists _, _. split; [done|]. split; [by rewrite not_elem_of_list_to_map_1|].
      exists (kvs ++ [(k, w)]). rewrite zip_pairs_app, fmap_app. unfold ziplistPush.
      rewrite <- app_assoc. split; [done|]. split.
      + apply NoDup_app. split_and!; [done|set_solver|]. simpl. apply NoDup_singleton.
      + rewrite list_to_map_app, list_to_map_cons, list_to_map_nil.
        rewrite <- insert_union_r by (by apply not_elem_of_list_to_map_1).
        by rewrite (right_id_L ∅ (∪)). }
  destruct (_ >? n); [|by eexists]. destruct (hashTypeConvert_ok _ _ Hrep) as (o' & -> & Ho').
  res_step. by eexists.
Qed.

Lemma hashTypeExists_ok o m f :
  hash_rep o m → hashTypeExists o f = Ok (bool_decide (is_Some (m !! f))).
Proof.
  destruct o as [zl|d]; cbn [hash_rep hashTypeExists].
  - intros (kvs & -> & _ & ->). rewrite hashTypeGetFromZiplist_ok. res_step.
    by destruct (_ !! f).
  - by intros ->.
Qed.

Lemma create_rep : hash_rep createMetaHashdictFordict ∅.
Proof. exists []. split_and!; [done|constructor|done]. Qed.

(** * Refinement *)

Inductive hop :=
| HSet (f v : strobj)
| HGet (f : strobj)
| HExists (f : bytes).

Inductive hout :=
| OFlag (b : bool)
| OVal (v : option bytes).

(** One operation on the hash object, with its observable result. *)
Definition hstep (n : Z) (o : hashobj) (op : hop) : res (hout * hashobj) :=
  match op with
  | HSet f v => r ← hashTypeSetWithNoFlags n o f v; Ok (OFlag r.1, r.2)
  | HGet f => r ← hashTypeGetValueRObject o f; Ok (OVal (option_map str_text r), o)
  | HExists f => b ← hashTypeExists o f; Ok (OFlag b, o)
  end.
Fixpoint hrun (n : Z) (o : hashobj) (ops : list hop) : res (list hout * hashobj) :=
  match ops with
  | [] => Ok ([], o)
  | op :: ops' => r ← hstep n o op; r' ← hrun n r.2 ops'; Ok (r.1 :: r'.1, r'.2)
  end.

(** The same operation on a finite map. *)
Definition mstep (m : gmap bytes bytes) (op : hop) : hout * gmap bytes bytes :=
  match op with
  | HSet f v => (OFlag (bool_decide (is_Some (m !! str_text f))), <[str_text f := str_text v]> m)
  | HGet f => (OVal (m !! str_text f), m)
  | HExists f => (OFlag (bool_decide (is_Some (m !! f))), m)
  end.
Fixpoint mrun (m : gmap bytes bytes) (ops : list hop) : list hout * gmap bytes bytes :=
  match ops with
  | [] => ([], m)
  | op :: ops' => let r := mstep m op in let r' := mrun r.2 ops' in (r.1 :: r'.1, r'.2)
  end.

Definition hop_wf (op : hop) : Prop :=
  match op with HSet f v => str_wf f ∧ str_wf v | HGet f => str_wf f | HExists _ => True end.

Lemma hstep_sim n o m op :
  hash_rep o m → hop_wf op →
  ∃ o', hstep n o op = Ok ((mstep m op).1, o') ∧ hash_rep o' (mstep m op).2.
Proof.
  intros Ho Hop. destruct op as [f v|f|f]; cbn [hstep mstep hop_wf] in *.
  - destruct Hop as [Hf Hv]. destruct (hashTypeSet_ok n o m f v Ho Hf Hv) as (o' & -> & Ho').
    res_step. by eexists.
  - destruct (hashTypeGetValueRObject_ok o m f Ho Hop) as (r & -> & Hd). res_step.
    eexists. split; [|done]. destruct r as [r|], (m !! str_text f); cbn in *; try done.
    destruct Hd as [-> _]. done.
  - rewrite (hashTypeExists_ok _ _ _ Ho). res_step. by eexists.
Qed.

(** A hash object behaves as one finite map from field text to value text,
    whatever sequence of sets, gets and existence tests is run on it, whether it
    is a ziplist or a hash table, and across the conversion at any threshold
    [n]: every operation returns, with the answer of the map. *)
Theorem hash_refines_map n o m ops :
  hash_rep o m → Forall hop_wf ops →
  ∃ o', hrun n o ops = Ok ((mrun m ops).1, o') ∧ hash_rep o' (mrun m ops).2.
Proof.
  intros Ho Hops. revert o m Ho. induction Hops as [|op ops Hop Hops IH]; intros o m Ho; [by eexists|].
  cbn [hrun mrun]. destruct (hstep_sim n o m op Ho Hop) as (o1 & -> & Ho1). res_step.
  destruct (IH o1 _ Ho1) as (o2 & E & Ho2). cbn [fst snd] in *. rewrite E. res_step. by eexists.
Qed.

Lemma hash_refines_map_witness :
  let ops := [HSet (SInt 0) (SInt 1); HSet (SRaw (lit "1")) (SInt 7); HGet (SInt 1);
              HSet (SInt 2) (SRaw (lit "x")); HExists (lit "3"); HGet (SInt 0)] in
  ∃ o', hrun 2 createMetaHashdictFordict ops =
          Ok ([OFlag false; OFlag false; OVal (Some (lit "7")); OFlag false; OFlag false;
               OVal (Some (lit "1"))], o') ∧
        hash_rep o' (mrun ∅ ops).2.
Proof.
  intros ops.
  replace [OFlag false; OFlag false; OVal (Some (lit "7")); OFlag false; OFlag false;
           OVal (Some (lit "1"))] with (mrun ∅ ops).1 by (vm_compute; reflexivity).
  apply (hash_refines_map 2 createMetaHashdictFordict ∅ ops).
  - apply create_rep.
  - repeat constructor; try done; cbn; unfold LLONG_MIN, LLONG_MAX; lia.
Defined.
