(* ===== verification/Ziplist.v ===== *)
(** src/src/ziplist.c: the ziplist as the block of bytes it is.  A buffer is a list of
    byte values, a pointer into it an offset; a read or a write outside of it is the fault
    [OutOfBounds].  Bytes that [zmalloc] and [zrealloc] hand out uninitialised have the
    value [junk] of their offset.  The machine is little-endian, so that [intrev32ifbe] and
    its like do nothing. *)
From S2P Require Import Prelude CString Util.
Local Open Scope Z_scope.

Abbreviation mem := (list Z).

(** * Access to a buffer *)

Definition rd (zl : mem) (p : Z) : res Z := if p <? 0 then Fault OutOfBounds else at_index zl (Z.to_nat p).

Definition rd_bytes (zl : mem) (p n : Z) : res (list Z) :=
  if (0 <=? p) && (0 <=? n) && (p + n <=? Z.of_nat (length zl))
  then Ok (take (Z.to_nat n) (drop (Z.to_nat p) zl)) else Fault OutOfBounds.

Definition wr (zl : mem) (p : Z) (bs : list Z) : res mem :=
  if (0 <=? p) && (p + Z.of_nat (length bs) <=? Z.of_nat (length zl))
  then Ok (take (Z.to_nat p) zl ++ bs ++ drop (Z.to_nat p + length bs) zl) else Fault OutOfBounds.

Definition memmove (zl : mem) (dst src n : Z) : res mem := bs ← rd_bytes zl src n; wr zl dst bs.

(** Little-endian integers of [n] bytes. *)
Fixpoint le (n : nat) (v : Z) : list Z :=
  match n with O => [] | S n' => v mod 256 :: le n' (v / 256) end.
Fixpoint unle (bs : list Z) : Z :=
  match bs with [] => 0 | b :: bs' => b + 256 * unle bs' end.

Definition get32 (zl : mem) (p : Z) : res Z := bs ← rd_bytes zl p 4; Ok (unle bs).
Definition put32 (zl : mem) (p v : Z) : res mem := wr zl p (le 4 v).
Definition get16 (zl : mem) (p : Z) : res Z := bs ← rd_bytes zl p 2; Ok (unle bs).
Definition put16 (zl : mem) (p v : Z) : res mem := wr zl p (le 2 v).

Definition u8 (z : Z) : Z := to_unsigned 8 z.
Definition u32 (z : Z) : Z := to_unsigned 32 z.

(** * Constants and header macros *)

Definition ZIP_END : Z := 255.
Definition ZIP_BIG_PREVLEN : Z := 254.
Definition ZIP_STR_MASK : Z := 192.
Definition ZIP_STR_06B : Z := 0.
Definition ZIP_STR_14B : Z := 64.
Definition ZIP_STR_32B : Z := 128.
Definition ZIP_INT_16B : Z := 192.
Definition ZIP_INT_32B : Z := 208.
Definition ZIP_INT_64B : Z := 224.
Definition ZIP_INT_24B : Z := 240.
Definition ZIP_INT_8B : Z := 254.
Definition ZIP_INT_IMM_MASK : Z := 15.
Definition ZIP_INT_IMM_MIN : Z := 241.
Definition ZIP_INT_IMM_MAX : Z := 253.
Definition INT24_MAX : Z := 8388607.
Definition INT24_MIN : Z := - INT24_MAX - 1.
Definition UINT16_MAX : Z := 65535.
Definition ZIPLIST_HEADER_SIZE : Z := 10.
Definition ZIPLIST_END_SIZE : Z := 1.

Definition ZIP_IS_STR (enc : Z) : bool := Z.land enc ZIP_STR_MASK <? ZIP_STR_MASK.

Definition ZIPLIST_BYTES (zl : mem) : res Z := get32 zl 0.
Definition ZIPLIST_TAIL_OFFSET (zl : mem) : res Z := get32 zl 4.
Definition ZIPLIST_LENGTH (zl : mem) : res Z := get16 zl 8.
Definition set_bytes (zl : mem) (v : Z) : res mem := put32 zl 0 v.
Definition set_tail (zl : mem) (v : Z) : res mem := put32 zl 4 v.
Definition set_length (zl : mem) (v : Z) : res mem := put16 zl 8 v.
Definition ZIPLIST_ENTRY_HEAD : Z := ZIPLIST_HEADER_SIZE.
Definition ZIPLIST_ENTRY_TAIL (zl : mem) : res Z := ZIPLIST_TAIL_OFFSET zl.
Definition ZIPLIST_ENTRY_END (zl : mem) : res Z := n ← ZIPLIST_BYTES zl; Ok (n - 1).

Definition ZIPLIST_INCR_LENGTH (zl : mem) (incr : Z) : res mem :=
  n ← ZIPLIST_LENGTH zl;
  if n <? UINT16_MAX then set_length zl (n + incr) else Ok zl.

(** * Entries *)

Record zlentry := mkEntry {
  prevrawlensize : Z;
  prevrawlen : Z;
  lensize : Z;
  len : Z;
  headersize : Z;
  encoding : Z;
}.

Definition ZIP_ENTRY_ENCODING (b : Z) : Z := if b <? ZIP_STR_MASK then Z.land b ZIP_STR_MASK else b.

Definition zipIntSize (enc : Z) : res Z :=
  if enc =? ZIP_INT_8B then Ok 1
  else if enc =? ZIP_INT_16B then Ok 2
  else if enc =? ZIP_INT_24B then Ok 3
  else if enc =? ZIP_INT_32B then Ok 4
  else if enc =? ZIP_INT_64B then Ok 8
  else if (ZIP_INT_IMM_MIN <=? enc) && (enc <=? ZIP_INT_IMM_MAX) then Ok 0
  else Fault Panic.

(** The bytes of [buf] that [zipStoreEntryEncoding] fills. *)
Definition entry_encoding (enc rawlen : Z) : list Z :=
  if ZIP_IS_STR enc then
    if rawlen <=? 63 then [u8 (Z.lor ZIP_STR_06B rawlen)]
    else if rawlen <=? 16383 then
      [Z.lor ZIP_STR_14B (Z.land (Z.shiftr rawlen 8) 63); Z.land rawlen 255]
    else
      [ZIP_STR_32B; Z.land (Z.shiftr rawlen 24) 255; Z.land (Z.shiftr rawlen 16) 255;
       Z.land (Z.shiftr rawlen 8) 255; Z.land rawlen 255]
  else [enc].

(** With [p] NULL, and with a [p]: the number of bytes, and the buffer with them stored. *)
Definition zipEntryEncodingSize (enc rawlen : Z) : Z := Z.of_nat (length (entry_encoding enc rawlen)).
Definition zipStoreEntryEncoding (zl : mem) (p enc rawlen : Z) : res (Z * mem) :=
  zl ← wr zl p (entry_encoding enc rawlen);
  Ok (zipEntryEncodingSize enc rawlen, zl).

(** The encoding, the size of its header, and the length of the data. *)
Definition ZIP_DECODE_LENGTH (zl : mem) (ptr : Z) : res (Z * Z * Z) :=
  b0 ← rd zl ptr;
  let enc := ZIP_ENTRY_ENCODING b0 in
  if enc <? ZIP_STR_MASK then
    if enc =? ZIP_STR_06B then Ok (enc, 1, Z.land b0 63)
    else if enc =? ZIP_STR_14B then
      b1 ← rd zl (ptr + 1);
      Ok (enc, 2, Z.lor (Z.shiftl (Z.land b0 63) 8) b1)
    else if enc =? ZIP_STR_32B then
      b1 ← rd zl (ptr + 1); b2 ← rd zl (ptr + 2); b3 ← rd zl (ptr + 3); b4 ← rd zl (ptr + 4);
      Ok (enc, 5, u32 (Z.lor (Z.lor (Z.lor (Z.shiftl b1 24) (Z.shiftl b2 16)) (Z.shiftl b3 8)) b4))
    else Fault Panic
  else n ← zipIntSize enc; Ok (enc, 1, n).

Definition prevlen_large (l : Z) : list Z := ZIP_BIG_PREVLEN :: le 4 l.
Definition zipStorePrevEntryLengthLarge (zl : mem) (p l : Z) : res (Z * mem) :=
  zl ← wr zl p (prevlen_large l); Ok (5, zl).

Definition zipPrevEntryLengthSize (l : Z) : Z := if l <? ZIP_BIG_PREVLEN then 1 else 5.
Definition zipStorePrevEntryLength (zl : mem) (p l : Z) : res (Z * mem) :=
  if l <? ZIP_BIG_PREVLEN then zl ← wr zl p [l]; Ok (1, zl)
  else zipStorePrevEntryLengthLarge zl p l.

Definition ZIP_DECODE_PREVLENSIZE (zl : mem) (ptr : Z) : res Z :=
  b ← rd zl ptr; Ok (if b <? ZIP_BIG_PREVLEN then 1 else 5).
Definition ZIP_DECODE_PREVLEN (zl : mem) (ptr : Z) : res (Z * Z) :=
  sz ← ZIP_DECODE_PREVLENSIZE zl ptr;
  if sz =? 1 then b ← rd zl ptr; Ok (sz, b) else v ← get32 zl (ptr + 1); Ok (sz, v).

Definition zipPrevLenByteDiff (zl : mem) (p l : Z) : res Z :=
  sz ← ZIP_DECODE_PREVLENSIZE zl p; Ok (zipPrevEntryLengthSize l - sz).

Definition zipRawEntryLength (zl : mem) (p : Z) : res Z :=
  sz ← ZIP_DECODE_PREVLENSIZE zl p;
  '(_, ls, l) ← ZIP_DECODE_LENGTH zl (p + sz);
  Ok (u32 (sz + ls + l)).

(** The smallest encoding that holds [value]. *)
Definition int_encoding (value : Z) : Z :=
  if (0 <=? value) && (value <=? 12) then ZIP_INT_IMM_MIN + value
  else if (-128 <=? value) && (value <=? 127) then ZIP_INT_8B
  else if (-32768 <=? value) && (value <=? 32767) then ZIP_INT_16B
  else if (INT24_MIN <=? value) && (value <=? INT24_MAX) then ZIP_INT_24B
  else if (INT_MIN <=? value) && (value <=? INT_MAX) then ZIP_INT_32B
  else ZIP_INT_64B.

(** The value and its encoding. *)
Definition zipTryEncoding (entry : bytes) : option (Z * Z) :=
  if (32 <=? length entry)%nat || (length entry =? 0)%nat then None
  else match string2ll entry with
       | None => None
       | Some value => Some (value, int_encoding value)
       end.

(** The bytes that [zipSaveInteger] stores; a 24-bit integer goes through the upper three
    bytes of an [int32_t]. *)
Definition integer_bytes (value enc : Z) : res (list Z) :=
  if enc =? ZIP_INT_8B then Ok (le 1 value)
  else if enc =? ZIP_INT_16B then Ok (le 2 value)
  else if enc =? ZIP_INT_24B then Ok (drop 1 (le 4 (to_signed 32 (Z.shiftl value 8))))
  else if enc =? ZIP_INT_32B then Ok (le 4 value)
  else if enc =? ZIP_INT_64B then Ok (le 8 value)
  else if (ZIP_INT_IMM_MIN <=? enc) && (enc <=? ZIP_INT_IMM_MAX) then Ok []
  else Fault AssertFail.
Definition zipSaveInteger (zl : mem) (p value enc : Z) : res mem := bs ← integer_bytes value enc; wr zl p bs.

Definition zipLoadInteger (zl : mem) (p enc : Z) : res Z :=
  if enc =? ZIP_INT_8B then bs ← rd_bytes zl p 1; Ok (to_signed 8 (unle bs))
  else if enc =? ZIP_INT_16B then bs ← rd_bytes zl p 2; Ok (to_signed 16 (unle bs))
  else if enc =? ZIP_INT_32B then bs ← rd_bytes zl p 4; Ok (to_signed 32 (unle bs))
  else if enc =? ZIP_INT_24B then bs ← rd_bytes zl p 3; Ok (Z.shiftr (to_signed 32 (unle (0 :: bs))) 8)
  else if enc =? ZIP_INT_64B then bs ← rd_bytes zl p 8; Ok (to_signed 64 (unle bs))
  else if (ZIP_INT_IMM_MIN <=? enc) && (enc <=? ZIP_INT_IMM_MAX) then Ok (Z.land enc ZIP_INT_IMM_MASK - 1)
  else Fault AssertFail.

Definition zipEntry (zl : mem) (p : Z) : res zlentry :=
  '(psz, pl) ← ZIP_DECODE_PREVLEN zl p;
  '(enc, ls, l) ← ZIP_DECODE_LENGTH zl (p + psz);
  Ok (mkEntry psz pl ls l (psz + ls) enc).

Section operations.
  Context (junk : nat → Z).

(** * Allocation *)

Definition realloc (zl : mem) (n : Z) : mem :=
  take (Z.to_nat n) zl ++ (junk <$> seq (length zl) (Z.to_nat n - length zl)).

Definition ziplistNew : res mem :=
  let bytes := ZIPLIST_HEADER_SIZE + 1 in
  let zl := realloc [] bytes in
  zl ← set_bytes zl bytes;
  zl ← set_tail zl ZIPLIST_HEADER_SIZE;
  zl ← set_length zl 0;
  wr zl (bytes - 1) [ZIP_END].

(** [len] is an [unsigned int]. *)
Definition ziplistResize (zl : mem) (len : Z) : res mem :=
  let len := u32 len in
  let zl := realloc zl len in
  zl ← set_bytes zl len;
  wr zl (len - 1) [ZIP_END].

(** * Cascading updates of the lengths of previous entries *)

Fixpoint cascade_loop (fuel : nat) (zl : mem) (p curlen : Z) : res mem :=
  b ← rd zl p;
  if b =? ZIP_END then Ok zl
  else
    cur ← zipEntry zl p;
    let rawlen := u32 (headersize cur + len cur) in
    let rawlensize := zipPrevEntryLengthSize rawlen in
    b ← rd zl (p + rawlen);
    if b =? ZIP_END then Ok zl
    else
      next ← zipEntry zl (p + rawlen);
      if prevrawlen next =? rawlen then Ok zl
      else if prevrawlensize next <? rawlensize then
        let extra := rawlensize - prevrawlensize next in
        zl ← ziplistResize zl (curlen + extra);
        let np := p + rawlen in
        tail ← ZIPLIST_TAIL_OFFSET zl;
        zl ← (if tail =? np then Ok zl else set_tail zl (tail + extra));
        zl ← memmove zl (np + rawlensize) (np + prevrawlensize next) (curlen - np - prevrawlensize next - 1);
        '(_, zl) ← zipStorePrevEntryLength zl np rawlen;
        match fuel with
        | O => Fault OutOfFuel
        | S f => cascade_loop f zl (p + rawlen) (curlen + extra)
        end
      else
        '(_, zl) ← (if prevrawlensize next >? rawlensize
                    then zipStorePrevEntryLengthLarge zl (p + rawlen) rawlen
                    else zipStorePrevEntryLength zl (p + rawlen) rawlen);
        Ok zl.

(** Each round moves [p] forward. *)
Definition __ziplistCascadeUpdate (zl : mem) (p : Z) : res mem :=
  curlen ← ZIPLIST_BYTES zl;
  cascade_loop (length zl) zl p curlen.

(** * Deletion *)

(** The loop over the entries to delete: the end of the range and their number. *)
Fixpoint delete_loop (fuel : nat) (zl : mem) (p i num : Z) : res (Z * Z) :=
  b ← rd zl p;
  if negb (b =? ZIP_END) && (i <? num) then
    n ← zipRawEntryLength zl p;
    match fuel with
    | O => Fault OutOfFuel
    | S f => delete_loop f zl (p + n) (i + 1) num
    end
  else Ok (p, i).

Definition __ziplistDelete (zl : mem) (p num : Z) : res mem :=
  first ← zipEntry zl p;
  let first_p := p in
  '(p, deleted) ← delete_loop (length zl) zl p 0 num;
  let totlen := u32 (p - first_p) in
  if totlen >? 0 then
    b ← rd zl p;
    '(zl, nextdiff) ←
      (if negb (b =? ZIP_END) then
         nextdiff ← zipPrevLenByteDiff zl p (prevrawlen first);
         let p := p - nextdiff in
         '(_, zl) ← zipStorePrevEntryLength zl p (prevrawlen first);
         t ← ZIPLIST_TAIL_OFFSET zl;
         zl ← set_tail zl (t - totlen);
         tail ← zipEntry zl p;
         b ← rd zl (p + u32 (headersize tail + len tail));
         zl ← (if negb (b =? ZIP_END) then t ← ZIPLIST_TAIL_OFFSET zl; set_tail zl (t + nextdiff) else Ok zl);
         n ← ZIPLIST_BYTES zl;
         zl ← memmove zl first_p p (n - p - 1);
         Ok (zl, nextdiff)
       else
         zl ← set_tail zl (first_p - prevrawlen first);
         Ok (zl, 0));
    n ← ZIPLIST_BYTES zl;
    zl ← ziplistResize zl (n - totlen + nextdiff);
    zl ← ZIPLIST_INCR_LENGTH zl (- deleted);
    if negb (nextdiff =? 0) then __ziplistCascadeUpdate zl first_p else Ok zl
  else Ok zl.

(** * Insertion *)

Definition __ziplistInsert (zl : mem) (p : Z) (s : bytes) : res mem :=
  let slen := Z.of_nat (length s) in
  curlen ← ZIPLIST_BYTES zl;
  b ← rd zl p;
  prevlen ←
    (if negb (b =? ZIP_END) then '(_, l) ← ZIP_DECODE_PREVLEN zl p; Ok l
     else
       ptail ← ZIPLIST_ENTRY_TAIL zl;
       b ← rd zl ptail;
       if negb (b =? ZIP_END) then zipRawEntryLength zl ptail else Ok 0);
  let '(value, enc) := match zipTryEncoding s with Some r => r | None => (123456789, 0) end in
  reqlen ← (match zipTryEncoding s with Some _ => zipIntSize enc | None => Ok slen end);
  let reqlen := reqlen + zipPrevEntryLengthSize prevlen in
  let reqlen := reqlen + zipEntryEncodingSize enc slen in
  nextdiff ← (if negb (b =? ZIP_END) then zipPrevLenByteDiff zl p (u32 reqlen) else Ok 0);
  let '(nextdiff, forcelarge) := if (nextdiff =? -4) && (reqlen <? 4) then (0, true) else (nextdiff, false) in
  zl ← ziplistResize zl (curlen + reqlen + nextdiff);
  b ← rd zl p;
  zl ←
    (if negb (b =? ZIP_END) then
       zl ← memmove zl (p + reqlen) (p - nextdiff) (curlen - p - 1 + nextdiff);
       '(_, zl) ← (if forcelarge : bool then zipStorePrevEntryLengthLarge zl (p + reqlen) (u32 reqlen)
                   else zipStorePrevEntryLength zl (p + reqlen) (u32 reqlen));
       t ← ZIPLIST_TAIL_OFFSET zl;
       zl ← set_tail zl (t + reqlen);
       tail ← zipEntry zl (p + reqlen);
       b ← rd zl (p + (reqlen + headersize tail + len tail));
       (if negb (b =? ZIP_END) then t ← ZIPLIST_TAIL_OFFSET zl; set_tail zl (t + nextdiff) else Ok zl)
     else set_tail zl p);
  zl ← (if negb (nextdiff =? 0) then __ziplistCascadeUpdate zl (p + reqlen) else Ok zl);
  '(n, zl) ← zipStorePrevEntryLength zl p prevlen;
  let p := p + n in
  '(n, zl) ← zipStoreEntryEncoding zl p enc slen;
  let p := p + n in
  zl ← (if ZIP_IS_STR enc then wr zl p (code <$> s) else zipSaveInteger zl p value enc);
  ZIPLIST_INCR_LENGTH zl 1.

(** * The interface of ziplist.h *)

(** [None] for a NULL argument; [same] when both are one list.  Returns the merged list, and
    whether it is [first] that was kept. *)
Definition ziplistMerge (first second : option mem) (same : bool) : res (option (mem * bool)) :=
  match first, second with
  | Some first, Some second =>
      if same then Ok None
      else
        first_bytes ← ZIPLIST_BYTES first;
        first_len ← ZIPLIST_LENGTH first;
        second_bytes ← ZIPLIST_BYTES second;
        second_len ← ZIPLIST_LENGTH second;
        let append := first_len >=? second_len in
        let '(target, target_bytes, source, source_bytes) :=
          if append then (first, first_bytes, second, second_bytes)
          else (second, second_bytes, first, first_bytes) in
        let zlbytes := first_bytes + second_bytes - ZIPLIST_HEADER_SIZE - ZIPLIST_END_SIZE in
        let zllength := first_len + second_len in
        let zllength := if zllength <? UINT16_MAX then zllength else UINT16_MAX in
        first_offset ← ZIPLIST_TAIL_OFFSET first;
        second_offset ← ZIPLIST_TAIL_OFFSET second;
        let target := realloc target zlbytes in
        target ←
          (if append then
             bs ← rd_bytes source ZIPLIST_HEADER_SIZE (source_bytes - ZIPLIST_HEADER_SIZE);
             wr target (target_bytes - ZIPLIST_END_SIZE) bs
           else
             target ← memmove target (source_bytes - ZIPLIST_END_SIZE) ZIPLIST_HEADER_SIZE (target_bytes - ZIPLIST_HEADER_SIZE);
             bs ← rd_bytes source 0 (source_bytes - ZIPLIST_END_SIZE);
             wr target 0 bs);
        target ← set_bytes target zlbytes;
        target ← set_length target zllength;
        target ← set_tail target ((first_bytes - ZIPLIST_END_SIZE) + (second_offset - ZIPLIST_HEADER_SIZE));
        target ← __ziplistCascadeUpdate target first_offset;
        Ok (Some (target, append))
  | _, _ => Ok None
  end.

Inductive ziplist_end := ZIPLIST_HEAD | ZIPLIST_TAIL.

Definition ziplistPush (zl : mem) (s : bytes) (where_ : ziplist_end) : res mem :=
  p ← (match where_ with ZIPLIST_HEAD => Ok ZIPLIST_ENTRY_HEAD | ZIPLIST_TAIL => ZIPLIST_ENTRY_END zl end);
  __ziplistInsert zl p s.

Definition ziplistInsert (zl : mem) (p : Z) (s : bytes) : res mem := __ziplistInsert zl p s.

(** The position [*p] stays at the same offset. *)
Definition ziplistDelete (zl : mem) (p : Z) : res mem := __ziplistDelete zl p 1.
End operations.

Fixpoint index_back (fuel : nat) (zl : mem) (p prevlen index : Z) : res (Z * Z) :=
  if prevlen >? 0 then
    if index =? 0 then Ok (p, -1)
    else
      let p := p - prevlen in
      '(_, prevlen) ← ZIP_DECODE_PREVLEN zl p;
      match fuel with
      | O => Fault OutOfFuel
      | S f => index_back f zl p prevlen (index - 1)
      end
  else Ok (p, index).

Fixpoint index_forward (fuel : nat) (zl : mem) (p index : Z) : res (Z * Z) :=
  b ← rd zl p;
  if negb (b =? ZIP_END) then
    if index =? 0 then Ok (p, -1)
    else
      n ← zipRawEntryLength zl p;
      match fuel with
      | O => Fault OutOfFuel
      | S f => index_forward f zl (p + n) (index - 1)
      end
  else Ok (p, index).

Definition ziplistIndex (zl : mem) (index : Z) : res (option Z) :=
  '(p, index) ←
    (if index <? 0 then
       let index := to_int (- index - 1) in
       p ← ZIPLIST_ENTRY_TAIL zl;
       b ← rd zl p;
       if negb (b =? ZIP_END) then
         '(_, prevlen) ← ZIP_DECODE_PREVLEN zl p;
         index_back (length zl) zl p prevlen index
       else Ok (p, index)
     else index_forward (length zl) zl ZIPLIST_ENTRY_HEAD index);
  b ← rd zl p;
  Ok (if (b =? ZIP_END) || (index >? 0) then None else Some p).

Definition ziplistDeleteRange (junk : nat → Z) (zl : mem) (index num : Z) : res mem :=
  p ← ziplistIndex zl index;
  match p with None => Ok zl | Some p => __ziplistDelete junk zl p num end.

Definition ziplistNext (zl : mem) (p : Z) : res (option Z) :=
  b ← rd zl p;
  if b =? ZIP_END then Ok None
  else
    n ← zipRawEntryLength zl p;
    let p := p + n in
    b ← rd zl p;
    Ok (if b =? ZIP_END then None else Some p).

Definition ziplistPrev (zl : mem) (p : Z) : res (option Z) :=
  b ← rd zl p;
  if b =? ZIP_END then
    p ← ZIPLIST_ENTRY_TAIL zl;
    b ← rd zl p;
    Ok (if b =? ZIP_END then None else Some p)
  else if p =? ZIPLIST_ENTRY_HEAD then Ok None
  else
    '(_, prevlen) ← ZIP_DECODE_PREVLEN zl p;
    _ ← assert (prevlen >? 0);
    Ok (Some (p - prevlen)).

(** What [ziplistGet] returns: [*sstr] and [*slen], or [*sval]. *)
Inductive zvalue := ZVStr (s : list Z) | ZVInt (v : Z).
#[export] Instance zvalue_eq_dec : EqDecision zvalue.
Proof. solve_decision. Defined.

Definition ziplistGet (zl : mem) (p : option Z) : res (option zvalue) :=
  match p with
  | None => Ok None
  | Some p =>
      b ← rd zl p;
      if b =? ZIP_END then Ok None
      else
        entry ← zipEntry zl p;
        if ZIP_IS_STR (encoding entry) then
          s ← rd_bytes zl (p + headersize entry) (len entry); Ok (Some (ZVStr s))
        else v ← zipLoadInteger zl (p + headersize entry) (encoding entry); Ok (Some (ZVInt v))
  end.

Definition ziplistCompare (zl : mem) (p : Z) (sstr : bytes) : res bool :=
  b ← rd zl p;
  if b =? ZIP_END then Ok false
  else
    entry ← zipEntry zl p;
    if ZIP_IS_STR (encoding entry) then
      if len entry =? Z.of_nat (length sstr) then
        s ← rd_bytes zl (p + headersize entry) (Z.of_nat (length sstr));
        Ok (bool_decide (s = code <$> sstr))
      else Ok false
    else match zipTryEncoding sstr with
         | Some (sval, _) => zval ← zipLoadInteger zl (p + headersize entry) (encoding entry); Ok (zval =? sval)
         | None => Ok false
         end.

(** [vencoding] caches the encoding of [vstr]: 0 before it is known, [UCHAR_MAX] for none. *)
Definition UCHAR_MAX : Z := 255.
Fixpoint find_loop (fuel : nat) (zl : mem) (p : Z) (vstr : bytes) (skip skipcnt vencoding vll : Z) : res (option Z) :=
  b ← rd zl p;
  if b =? ZIP_END then Ok None
  else
    psz ← ZIP_DECODE_PREVLENSIZE zl p;
    '(enc, ls, l) ← ZIP_DECODE_LENGTH zl (p + psz);
    let q := p + psz + ls in
    '(found, skipcnt, vencoding, vll) ←
      (if skipcnt =? 0 then
         if ZIP_IS_STR enc then
           if l =? Z.of_nat (length vstr) then
             s ← rd_bytes zl q (Z.of_nat (length vstr));
             Ok (bool_decide (s = code <$> vstr), skip, vencoding, vll)
           else Ok (false, skip, vencoding, vll)
         else
           let '(vencoding, vll) :=
             if vencoding =? 0 then
               match zipTryEncoding vstr with Some (v, e) => (e, v) | None => (UCHAR_MAX, vll) end
             else (vencoding, vll) in
           _ ← assert (negb (vencoding =? 0));
           if negb (vencoding =? UCHAR_MAX) then
             ll ← zipLoadInteger zl q enc; Ok (ll =? vll, skip, vencoding, vll)
           else Ok (false, skip, vencoding, vll)
       else Ok (false, skipcnt - 1, vencoding, vll));
    if found : bool then Ok (Some p)
    else match fuel with
         | O => Fault OutOfFuel
         | S f => find_loop f zl (q + l) vstr skip skipcnt vencoding vll
         end.
Definition ziplistFind (zl : mem) (p : Z) (vstr : bytes) (skip : Z) : res (option Z) :=
  find_loop (length zl) zl p vstr (to_int skip) 0 0 0.

Fixpoint len_loop (fuel : nat) (zl : mem) (p n : Z) : res Z :=
  b ← rd zl p;
  if b =? ZIP_END then Ok n
  else
    r ← zipRawEntryLength zl p;
    match fuel with O => Fault OutOfFuel | S f => len_loop f zl (p + r) (n + 1) end.

(** The number of entries, and the list with the count stored again when it fits. *)
Definition ziplistLen (zl : mem) : res (Z * mem) :=
  n ← ZIPLIST_LENGTH zl;
  if n <? UINT16_MAX then Ok (n, zl)
  else
    n ← len_loop (length zl) zl ZIPLIST_HEADER_SIZE 0;
    if n <? UINT16_MAX then zl ← set_length zl n; Ok (n, zl) else Ok (n, zl).

Definition ziplistBlobLen (zl : mem) : res Z := ZIPLIST_BYTES zl.
