(* ===== verification/ZiplistSpec.v ===== *)
(** The layout of a ziplist, and the operations of ziplist.c on it: every operation on the
    bytes implements the operation on a list of values, and stays inside the buffer. *)
From S2P Require Import Prelude CString Util Ziplist.
Local Open Scope Z_scope.

Definition zlen {A} (l : list A) : Z := Z.of_nat (length l).

Lemma zlen_nil A : zlen (@nil A) = 0.
Proof. done. Qed.
Lemma zlen_cons {A} (x : A) l : zlen (x :: l) = 1 + zlen l.
Proof. unfold zlen. cbn. lia. Qed.
Lemma zlen_app {A} (l k : list A) : zlen (l ++ k) = zlen l + zlen k.
Proof. unfold zlen. rewrite length_app. lia. Qed.
Lemma zlen_nonneg {A} (l : list A) : 0 ≤ zlen l.
Proof. unfold zlen. lia. Qed.
Lemma zlen_zero {A} (l : list A) : zlen l = 0 → l = [].
Proof. destruct l; [done|]. rewrite zlen_cons. pose proof (zlen_nonneg l). lia. Qed.

(** Lengths of concatenations, for [lia]. *)
Ltac zlens := repeat first [rewrite zlen_app | rewrite zlen_cons | rewrite zlen_nil].
Ltac zlens_all := rewrite ?zlen_app, ?zlen_cons, ?zlen_nil in *.
Ltac zlia :=
  repeat match goal with
  | |- context [zlen ?l] => lazymatch goal with H : 0 ≤ zlen l |- _ => fail | _ => pose proof (zlen_nonneg l) end
  | _ : context [zlen ?l] |- _ => lazymatch goal with H : 0 ≤ zlen l |- _ => fail | _ => pose proof (zlen_nonneg l) end
  end; lia.

(** * Buffers *)

Lemma take_zlen {A} (l k : list A) : take (Z.to_nat (zlen l)) (l ++ k) = l.
Proof. unfold zlen. rewrite Nat2Z.id. apply take_app_length. Qed.
Lemma drop_zlen {A} (l k : list A) : drop (Z.to_nat (zlen l)) (l ++ k) = k.
Proof. unfold zlen. rewrite Nat2Z.id. apply drop_app_length. Qed.

Lemma split_at {A} (l : list A) n : 0 ≤ n ≤ zlen l → ∃ a b, l = a ++ b ∧ zlen a = n ∧ zlen b = zlen l - n.
Proof.
  intros Hn. exists (take (Z.to_nat n) l), (drop (Z.to_nat n) l). unfold zlen in *.
  rewrite take_drop, length_take, length_drop. split_and!; [done|lia|lia].
Qed.

Lemma rd_at zl A b C p : zl = A ++ b :: C → p = zlen A → rd zl p = Ok b.
Proof.
  intros -> ->. unfold rd. pose proof (zlen_nonneg A). destruct (Z.ltb_spec (zlen A) 0); [lia|].
  apply at_index_Ok. unfold zlen. rewrite Nat2Z.id. by rewrite list_lookup_middle.
Qed.

Lemma rd_bytes_at zl A B C p n : zl = A ++ B ++ C → p = zlen A → n = zlen B → rd_bytes zl p n = Ok B.
Proof.
  intros -> -> ->. unfold rd_bytes. fold (zlen (A ++ B ++ C)). zlens.
  destruct (Z.leb_spec 0 (zlen A)), (Z.leb_spec 0 (zlen B)), (Z.leb_spec (zlen A + zlen B) (zlen A + (zlen B + zlen C)));
    cbn [andb]; try zlia. by rewrite drop_zlen, take_zlen.
Qed.

Lemma wr_at zl A B C p bs : zl = A ++ B ++ C → p = zlen A → zlen bs = zlen B → wr zl p bs = Ok (A ++ bs ++ C).
Proof.
  intros -> -> Hl. unfold wr. fold (zlen bs) (zlen (A ++ B ++ C)). zlens. rewrite Hl.
  destruct (Z.leb_spec 0 (zlen A)), (Z.leb_spec (zlen A + zlen B) (zlen A + (zlen B + zlen C))); cbn [andb]; try zlia.
  rewrite take_zlen. do 3 f_equal. unfold zlen in *. rewrite Nat2Z.id. replace (length bs) with (length B) by lia.
  rewrite app_assoc, <- length_app. apply drop_app_length.
Qed.

Lemma memmove_at zl A B C A' B' C' dst src n :
  zl = A ++ B ++ C → src = zlen A → n = zlen B → zl = A' ++ B' ++ C' → dst = zlen A' → zlen B' = zlen B →
  memmove zl dst src n = Ok (A' ++ B ++ C').
Proof.
  intros E Hs Hn E' Hd Hl. unfold memmove. rewrite (rd_bytes_at _ _ _ _ _ _ E Hs Hn). res_step. by eapply wr_at.
Qed.

(** * Little-endian integers *)

Lemma le_length n v : length (le n v) = n.
Proof. revert v. induction n as [|n IH]; intros v; cbn; auto. Qed.
Lemma zlen_le n v : zlen (le n v) = Z.of_nat n.
Proof. unfold zlen. by rewrite le_length. Qed.

Lemma unle_le n v : unle (le n v) = v mod 256 ^ Z.of_nat n.
Proof.
  revert v. induction n as [|n IH]; intros v; [by rewrite Z.mod_1_r|]. cbn [le unle]. rewrite IH.
  rewrite Nat2Z.inj_succ, Z.pow_succ_r by lia. rewrite Z.rem_mul_r by lia. done.
Qed.

Lemma unle_le_small n v : 0 ≤ v < 256 ^ Z.of_nat n → unle (le n v) = v.
Proof. intros. rewrite unle_le. by apply Z.mod_small. Qed.

Lemma le_mod n v w : v mod 256 ^ Z.of_nat n = w mod 256 ^ Z.of_nat n → le n v = le n w.
Proof.
  revert v w. induction n as [|n IH]; intros v w E; [done|]. cbn [le].
  rewrite Nat2Z.inj_succ, Z.pow_succ_r in E by lia. rewrite !Z.rem_mul_r in E by lia.
  pose proof (Z.mod_pos_bound v 256 eq_refl). pose proof (Z.mod_pos_bound w 256 eq_refl).
  assert (v mod 256 = w mod 256 ∧ (v / 256) mod 256 ^ Z.of_nat n = (w / 256) mod 256 ^ Z.of_nat n) as [-> E'] by lia.
  f_equal. by apply IH.
Qed.

(** * The header *)

Definition hdr (T O L : Z) : list Z := le 4 T ++ le 4 O ++ le 2 L.

Lemma zlen_hdr T O L : zlen (hdr T O L) = 10.
Proof. unfold hdr. zlens. by rewrite !zlen_le. Qed.

Section header.
  Context (T O L : Z) (body : list Z).

Lemma bytes_hdr : 0 ≤ T < 2 ^ 32 → ZIPLIST_BYTES (hdr T O L ++ body) = Ok T.
Proof.
  intros HT. unfold ZIPLIST_BYTES, get32. rewrite (rd_bytes_at _ [] (le 4 T) (le 4 O ++ le 2 L ++ body)); [|by unfold hdr; rewrite <- !app_assoc|done|by rewrite zlen_le].
  res_step. by rewrite unle_le_small.
Qed.
Lemma tail_hdr : 0 ≤ O < 2 ^ 32 → ZIPLIST_TAIL_OFFSET (hdr T O L ++ body) = Ok O.
Proof.
  intros HT. unfold ZIPLIST_TAIL_OFFSET, get32. rewrite (rd_bytes_at _ (le 4 T) (le 4 O) (le 2 L ++ body)); [|by unfold hdr; rewrite <- !app_assoc|done..].
  res_step. by rewrite unle_le_small.
Qed.
Lemma length_hdr : 0 ≤ L < 2 ^ 16 → ZIPLIST_LENGTH (hdr T O L ++ body) = Ok L.
Proof.
  intros HT. unfold ZIPLIST_LENGTH, get16. rewrite (rd_bytes_at _ (le 4 T ++ le 4 O) (le 2 L) body); [|by unfold hdr; rewrite <- !app_assoc|by zlens..].
  res_step. by rewrite unle_le_small.
Qed.
Lemma set_bytes_hdr v : set_bytes (hdr T O L ++ body) v = Ok (hdr v O L ++ body).
Proof.
  unfold set_bytes, put32. rewrite (wr_at _ [] (le 4 T) (le 4 O ++ le 2 L ++ body)); [|by unfold hdr; rewrite <- !app_assoc|done|by rewrite !zlen_le].
  unfold hdr. by rewrite <- !app_assoc.
Qed.
Lemma set_tail_hdr v : set_tail (hdr T O L ++ body) v = Ok (hdr T v L ++ body).
Proof.
  unfold set_tail, put32. rewrite (wr_at _ (le 4 T) (le 4 O) (le 2 L ++ body)); [|by unfold hdr; rewrite <- !app_assoc|done..].
  unfold hdr. by rewrite <- !app_assoc.
Qed.
Lemma set_length_hdr v : set_length (hdr T O L ++ body) v = Ok (hdr T O v ++ body).
Proof.
  unfold set_length, put16. rewrite (wr_at _ (le 4 T ++ le 4 O) (le 2 L) body); [|by unfold hdr; rewrite <- !app_assoc|by zlens..].
  unfold hdr. by rewrite <- !app_assoc.
Qed.
End header.

(** * Resizing *)

Lemma u32_id z : 0 ≤ z < 2 ^ 32 → u32 z = z.
Proof. intros. by apply Z.mod_small. Qed.

Lemma realloc_grow junk zl n : zlen zl ≤ n → ∃ J, realloc junk zl n = zl ++ J ∧ zlen J = n - zlen zl.
Proof.
  intros Hn. unfold realloc. exists (junk <$> seq (length zl) (Z.to_nat n - length zl)). unfold zlen in *.
  rewrite length_fmap, length_seq. split; [|lia]. by rewrite take_ge by lia.
Qed.

Lemma realloc_shrink junk zl n : 0 ≤ n ≤ zlen zl → realloc junk zl n = take (Z.to_nat n) zl.
Proof.
  intros Hn. unfold realloc, zlen in *. replace (Z.to_nat n - length zl)%nat with 0%nat by lia. cbn. by rewrite app_nil_r.
Qed.

(** Growing by [n - T] bytes: the old bytes stay, the old end byte among them. *)
Lemma resize_grow junk T O L B n : zlen (hdr T O L ++ B ++ [ZIP_END]) ≤ n < 2 ^ 32 →
  ∃ J, ziplistResize junk (hdr T O L ++ B ++ [ZIP_END]) n = Ok (hdr n O L ++ B ++ J ++ [ZIP_END]) ∧
    zlen J = n - zlen (hdr T O L ++ B ++ [ZIP_END]) ∧ (J ≠ [] → ∃ J', J = ZIP_END :: J').
Proof.
  intros Hn. unfold ziplistResize. pose proof (zlen_nonneg (hdr T O L ++ B ++ [ZIP_END])). rewrite u32_id by lia.
  destruct (realloc_grow junk (hdr T O L ++ B ++ [ZIP_END]) n) as (J & -> & HJ); [lia|].
  rewrite <- app_assoc, set_bytes_hdr. res_step.
  destruct J as [|x J _] using rev_ind.
  - exists []. zlens_all. rewrite zlen_hdr in *. rewrite (wr_at _ (hdr n O L ++ B) [ZIP_END] []); zlens_all; rewrite ?zlen_hdr; [|by rewrite <- !app_assoc|lia|lia].
    split_and!; [by rewrite <- !app_assoc|lia|done].
  - exists (ZIP_END :: J). zlens_all. rewrite zlen_hdr in *.
    rewrite (wr_at _ (hdr n O L ++ B ++ [ZIP_END] ++ J) [x] []); zlens_all; rewrite ?zlen_hdr; [|by rewrite <- !app_assoc|lia|lia].
    split_and!; [|lia|eauto]. rewrite <- !app_assoc. cbn. by rewrite <- ?app_assoc.
Qed.

Lemma resize_shrink junk T O L B C n : n = zlen (hdr T O L ++ B ++ [ZIP_END]) → n < 2 ^ 32 → C ≠ [] →
  ziplistResize junk (hdr T O L ++ B ++ C) n = Ok (hdr n O L ++ B ++ [ZIP_END]).
Proof.
  intros Hn Hlt HC. destruct C as [|x C]; [done|]. unfold ziplistResize. pose proof (zlen_nonneg (hdr T O L ++ B ++ [ZIP_END])).
  rewrite u32_id by lia. rewrite realloc_shrink by (zlens_all; rewrite zlen_hdr in *; zlia).
  replace (hdr T O L ++ B ++ x :: C) with ((hdr T O L ++ B ++ [x]) ++ C) by (by rewrite <- !app_assoc).
  replace n with (zlen (hdr T O L ++ B ++ [x])) at 1 by (rewrite Hn; by zlens_all). rewrite take_zlen, set_bytes_hdr. res_step.
  rewrite (wr_at _ (hdr n O L ++ B) [x] []); [|by rewrite <- !app_assoc|rewrite Hn; zlens_all; rewrite !zlen_hdr; lia|done].
  by rewrite <- !app_assoc.
Qed.

(** * Values *)

Definition byte_ok (b : Z) : Prop := 0 ≤ b < 256.

(** The header of a value (type and length), and its data. *)
Definition int_bytes (v : Z) : list Z :=
  match integer_bytes v (int_encoding v) with Ok bs => bs | Fault _ => [] end.
Definition val_data (v : zvalue) : list Z :=
  match v with ZVStr s => s | ZVInt z => int_bytes z end.
Definition val_hdr (v : zvalue) : list Z :=
  match v with ZVStr s => entry_encoding 0 (zlen s) | ZVInt z => [int_encoding z] end.
Definition val_enc (v : zvalue) : Z :=
  match v with
  | ZVStr s => if zlen s <=? 63 then ZIP_STR_06B else if zlen s <=? 16383 then ZIP_STR_14B else ZIP_STR_32B
  | ZVInt z => int_encoding z
  end.
Definition val_ok (v : zvalue) : Prop :=
  match v with ZVStr s => zlen s < 2 ^ 32 ∧ Forall byte_ok s | ZVInt z => LLONG_MIN ≤ z ≤ LLONG_MAX end.

(** The seven encodings, by the range of the value. *)
Lemma int_encoding_cases z : LLONG_MIN ≤ z ≤ LLONG_MAX →
  (0 ≤ z ≤ 12 ∧ int_encoding z = ZIP_INT_IMM_MIN + z) ∨
  (-128 ≤ z ≤ 127 ∧ int_encoding z = ZIP_INT_8B) ∨
  (-32768 ≤ z ≤ 32767 ∧ int_encoding z = ZIP_INT_16B) ∨
  (INT24_MIN ≤ z ≤ INT24_MAX ∧ int_encoding z = ZIP_INT_24B) ∨
  (INT_MIN ≤ z ≤ INT_MAX ∧ int_encoding z = ZIP_INT_32B) ∨
  (LLONG_MIN ≤ z ≤ LLONG_MAX ∧ int_encoding z = ZIP_INT_64B).
Proof.
  intros Hz. unfold int_encoding.
  repeat match goal with |- context [(?a <=? z) && (z <=? ?b)] =>
    destruct (Z.leb_spec a z), (Z.leb_spec z b); cbn [andb]; try lia end; naive_solver lia.
Qed.

Lemma to_signed_mod w z : to_signed w (z mod 2 ^ w) = to_signed w z.
Proof.
  unfold to_signed. destruct (Z.eq_dec (2 ^ w) 0) as [->|]; [by rewrite !Z.mod_0_r|]. by rewrite Z.mod_mod.
Qed.

Lemma to_signed_unle n w z : 8 * Z.of_nat n = w → 0 < w → - 2 ^ (w - 1) ≤ z < 2 ^ (w - 1) → to_signed w (unle (le n z)) = z.
Proof.
  intros <- Hw Hz. rewrite unle_le. change 256 with (2 ^ 8). rewrite <- Z.pow_mul_r, to_signed_mod by lia. by apply to_signed_id.
Qed.

(** A 24-bit integer takes the lower three of its bytes. *)
Lemma int24_bytes z : INT24_MIN ≤ z ≤ INT24_MAX → drop 1 (le 4 (to_signed 32 (Z.shiftl z 8))) = le 3 z.
Proof.
  unfold INT24_MIN, INT24_MAX. intros Hz. rewrite Z.shiftl_mul_pow2 by lia. change (2 ^ 8) with 256.
  rewrite to_signed_id by (change (2 ^ (32 - 1)) with 2147483648; lia). cbn [le drop]. by rewrite Z.div_mul.
Qed.

Lemma int24_load z : INT24_MIN ≤ z ≤ INT24_MAX → Z.shiftr (to_signed 32 (unle (0 :: le 3 z))) 8 = z.
Proof.
  unfold INT24_MIN, INT24_MAX. intros Hz. cbn [unle]. rewrite unle_le. change (256 ^ Z.of_nat 3) with (2 ^ 24). rewrite Z.add_0_l.
  change 256 with (2 ^ 8) at 1. rewrite <- Z.mul_mod_distr_l by done. change (2 ^ 8 * 2 ^ 24) with (2 ^ 32).
  rewrite to_signed_mod, to_signed_id by (change (2 ^ (32 - 1)) with 2147483648; change (2 ^ 8) with 256; lia).
  rewrite Z.shiftr_div_pow2, Z.mul_comm, Z.div_mul by done. done.
Qed.

Lemma imm_cases (P : Z → Prop) z : 0 ≤ z ≤ 12 → Forall P [0; 1; 2; 3; 4; 5; 6; 7; 8; 9; 10; 11; 12] → P z.
Proof.
  intros Hz HF. rewrite Forall_forall in HF. apply HF.
  assert (z ∈ seqZ 0 13) as Hin by (apply elem_of_seqZ; lia). exact Hin.
Qed.

Lemma int_bytes_ok z : LLONG_MIN ≤ z ≤ LLONG_MAX →
  integer_bytes z (int_encoding z) = Ok (int_bytes z) ∧ zipIntSize (int_encoding z) = Ok (zlen (int_bytes z)) ∧
  192 ≤ int_encoding z < 255 ∧ ZIP_IS_STR (int_encoding z) = false ∧ zlen (int_bytes z) ≤ 8.
Proof.
  intros Hz. unfold int_bytes.
  destruct (int_encoding_cases z Hz) as [[Hr ->]|[[Hr ->]|[[Hr ->]|[[Hr ->]|[[Hr ->]|[Hr ->]]]]]]; try done.
  revert z Hr Hz. intros z Hr _. apply (imm_cases (λ z, _) z Hr). by repeat constructor.
Qed.

Lemma load_signed zl p n w z : rd_bytes zl p (Z.of_nat n) = Ok (le n z) → 8 * Z.of_nat n = w → 0 < w →
  - 2 ^ (w - 1) ≤ z < 2 ^ (w - 1) → (bs ← rd_bytes zl p (Z.of_nat n); Ok (to_signed w (unle bs))) = Ok z.
Proof. intros -> Hw Hpos Hz. res_step. by rewrite (to_signed_unle n w). Qed.

Lemma zipLoadInteger_ok zl p z : LLONG_MIN ≤ z ≤ LLONG_MAX →
  rd_bytes zl p (zlen (int_bytes z)) = Ok (int_bytes z) → zipLoadInteger zl p (int_encoding z) = Ok z.
Proof.
  intros Hz. unfold int_bytes.
  destruct (int_encoding_cases z Hz) as [[Hr ->]|[[Hr ->]|[[Hr ->]|[[Hr ->]|[[Hr ->]|[Hr ->]]]]]].
  - intros _. revert Hr Hz. intros Hr _. apply (imm_cases (λ z, zipLoadInteger zl p (ZIP_INT_IMM_MIN + z) = Ok z) z Hr). by repeat constructor.
  - intros E. apply (load_signed zl p 1 8 z E); [done|done|]. change (2 ^ (8 - 1)) with 128. lia.
  - intros E. apply (load_signed zl p 2 16 z E); [done|done|]. change (2 ^ (16 - 1)) with 32768. lia.
  - change (integer_bytes z ZIP_INT_24B) with (Ok (drop 1 (le 4 (to_signed 32 (Z.shiftl z 8))))). cbv iota.
    rewrite int24_bytes, zlen_le by done. change (Z.of_nat 3) with 3. intros E.
    change (zipLoadInteger zl p ZIP_INT_24B) with (bs ← rd_bytes zl p 3; Ok (Z.shiftr (to_signed 32 (unle (0 :: bs))) 8)).
    rewrite E. res_step. by rewrite int24_load.
  - intros E. apply (load_signed zl p 4 32 z E); [done|done|]. unfold INT_MIN, INT_MAX in Hr. change (2 ^ (32 - 1)) with 2147483648. lia.
  - intros E. apply (load_signed zl p 8 64 z E); [done|done|]. unfold LLONG_MIN, LLONG_MAX in Hr. change (2 ^ (64 - 1)) with 9223372036854775808. lia.
Qed.

(** ** Headers of values *)

Lemma hdr14_bits h : 0 ≤ h < 64 →
  Z.lor ZIP_STR_14B (Z.land h 63) < ZIP_STR_MASK ∧ Z.land (Z.lor ZIP_STR_14B (Z.land h 63)) ZIP_STR_MASK = ZIP_STR_14B ∧
  Z.land (Z.lor ZIP_STR_14B (Z.land h 63)) 63 = h.
Proof.
  intros Hh. assert (h ∈ seqZ 0 64) as Hin by (apply elem_of_seqZ; lia). revert Hin. clear Hh. revert h. apply Forall_forall.
  let l := eval vm_compute in (seqZ 0 64) in change (seqZ 0 64) with l. by repeat constructor.
Qed.

Lemma hdr06_bits n : 0 ≤ n < 64 →
  u8 (Z.lor ZIP_STR_06B n) = n ∧ Z.land n ZIP_STR_MASK = ZIP_STR_06B ∧ Z.land n 63 = n.
Proof.
  intros Hh. assert (n ∈ seqZ 0 64) as Hin by (apply elem_of_seqZ; lia). revert Hin. clear Hh. revert n. apply Forall_forall.
  let l := eval vm_compute in (seqZ 0 64) in change (seqZ 0 64) with l. by repeat constructor.
Qed.

Lemma land_255 z : Z.land z 255 = z mod 256.
Proof. change 255 with (Z.ones 8). by rewrite Z.land_ones. Qed.

Lemma be32 n : 0 ≤ n < 2 ^ 32 →
  Z.lor (Z.lor (Z.lor (Z.shiftl (Z.land (Z.shiftr n 24) 255) 24) (Z.shiftl (Z.land (Z.shiftr n 16) 255) 16))
               (Z.shiftl (Z.land (Z.shiftr n 8) 255) 8)) (Z.land n 255) = n.
Proof.
  intros Hn. rewrite !land_255, !Z.shiftr_div_pow2, !Z.shiftl_mul_pow2 by lia.
  change (2 ^ 32) with 4294967296 in Hn.
  set (a := (n / 2 ^ 24) mod 256). set (b := (n / 2 ^ 16) mod 256). set (c := (n / 2 ^ 8) mod 256). set (e := n mod 256).
  assert (Ha : 0 ≤ a < 256) by (by apply Z.mod_pos_bound). assert (Hb : 0 ≤ b < 256) by (by apply Z.mod_pos_bound).
  assert (Hc : 0 ≤ c < 256) by (by apply Z.mod_pos_bound). assert (He : 0 ≤ e < 256) by (by apply Z.mod_pos_bound).
  rewrite lor_add by (change (2 ^ 24) with 16777216; change (2 ^ 16) with 65536; lia).
  replace (a * 2 ^ 24 + b * 2 ^ 16) with ((a * 256 + b) * 2 ^ 16) by (change (2 ^ 24) with 16777216; change (2 ^ 16) with 65536; lia).
  rewrite lor_add by (change (2 ^ 16) with 65536; change (2 ^ 8) with 256; lia).
  replace ((a * 256 + b) * 2 ^ 16 + c * 2 ^ 8) with (((a * 256 + b) * 256 + c) * 2 ^ 8) by (change (2 ^ 16) with 65536; change (2 ^ 8) with 256; lia).
  rewrite lor_add by done. change (2 ^ 8) with 256.
  subst a b c e. change (2 ^ 24) with 16777216. change (2 ^ 16) with 65536. change (2 ^ 8) with 256.
  Z.div_mod_to_equations. lia.
Qed.

Lemma decode_length zl A v C p : val_ok v → zl = A ++ val_hdr v ++ C → p = zlen A →
  ZIP_DECODE_LENGTH zl p = Ok (val_enc v, zlen (val_hdr v), zlen (val_data v)).
Proof.
  intros Hv E Hp. unfold ZIP_DECODE_LENGTH. destruct v as [s|z]; cbn [val_hdr val_enc val_data val_ok] in *.
  - destruct Hv as [Hs _]. pose proof (zlen_nonneg s) as Hs0. revert E. unfold entry_encoding. cbn [ZIP_IS_STR].
    change (ZIP_IS_STR 0) with true. cbv iota.
    destruct (Z.leb_spec (zlen s) 63); [|destruct (Z.leb_spec (zlen s) 16383)]; intros E.
    + destruct (hdr06_bits (zlen s)) as (E1 & E2 & E3); [lia|]. rewrite E1 in *.
      rewrite (rd_at _ A (zlen s) C p E Hp). res_step. unfold ZIP_ENTRY_ENCODING.
      destruct (Z.ltb_spec (zlen s) ZIP_STR_MASK) as [|Hx]; [|unfold ZIP_STR_MASK in Hx; lia]. rewrite E2.
      change (ZIP_STR_06B <? ZIP_STR_MASK) with true. change (ZIP_STR_06B =? ZIP_STR_06B) with true. cbv iota. by rewrite E3.
    + set (h := Z.shiftr (zlen s) 8) in *.
      assert (Hh : h = zlen s / 256) by (unfold h; by rewrite Z.shiftr_div_pow2).
      destruct (hdr14_bits h) as (E1 & E2 & E3); [rewrite Hh; Z.div_mod_to_equations; lia|].
      rewrite (rd_at _ A _ _ p E Hp). res_step. unfold ZIP_ENTRY_ENCODING.
      destruct (Z.ltb_spec (Z.lor ZIP_STR_14B (Z.land h 63)) ZIP_STR_MASK) as [|Hx]; [|lia]. rewrite E2, E3.
      change (ZIP_STR_14B <? ZIP_STR_MASK) with true. change (ZIP_STR_14B =? ZIP_STR_06B) with false.
      change (ZIP_STR_14B =? ZIP_STR_14B) with true. cbv iota.
      rewrite (rd_at _ (A ++ [Z.lor ZIP_STR_14B (Z.land h 63)]) (Z.land (zlen s) 255) C (p + 1)); [|rewrite E; by rewrite <- app_assoc|zlens; lia].
      res_step. do 2 f_equal. rewrite Z.shiftl_mul_pow2, land_255 by lia.
      rewrite lor_add; [|lia|by apply Z.mod_pos_bound]. rewrite Hh. change (2 ^ 8) with 256. Z.div_mod_to_equations. lia.
    + rewrite (rd_at _ A _ _ p E Hp). res_step. change (ZIP_ENTRY_ENCODING ZIP_STR_32B) with ZIP_STR_32B.
      change (ZIP_STR_32B <? ZIP_STR_MASK) with true. change (ZIP_STR_32B =? ZIP_STR_06B) with false.
      change (ZIP_STR_32B =? ZIP_STR_14B) with false. change (ZIP_STR_32B =? ZIP_STR_32B) with true. cbv iota.
      cbn [app] in E. set (b1 := Z.land (Z.shiftr (zlen s) 24) 255) in *. set (b2 := Z.land (Z.shiftr (zlen s) 16) 255) in *.
      set (b3 := Z.land (Z.shiftr (zlen s) 8) 255) in *. set (b4 := Z.land (zlen s) 255) in *.
      rewrite (rd_at _ (A ++ [ZIP_STR_32B]) b1 (b2 :: b3 :: b4 :: C) (p + 1)); [|by rewrite E, <- app_assoc|zlens; lia]. res_step.
      rewrite (rd_at _ (A ++ [ZIP_STR_32B; b1]) b2 (b3 :: b4 :: C) (p + 2)); [|by rewrite E, <- app_assoc|zlens; lia]. res_step.
      rewrite (rd_at _ (A ++ [ZIP_STR_32B; b1; b2]) b3 (b4 :: C) (p + 3)); [|by rewrite E, <- app_assoc|zlens; lia]. res_step.
      rewrite (rd_at _ (A ++ [ZIP_STR_32B; b1; b2; b3]) b4 C (p + 4)); [|by rewrite E, <- app_assoc|zlens; lia]. res_step.
      subst b1 b2 b3 b4. rewrite be32 by lia. rewrite u32_id by lia. done.
  - destruct (int_bytes_ok z Hv) as (_ & Hsz & Hr & Hstr & _). rewrite (rd_at _ A _ _ p E Hp). res_step.
    unfold ZIP_ENTRY_ENCODING, ZIP_STR_MASK. destruct (Z.ltb_spec (int_encoding z) 192); [lia|].
    destruct (Z.ltb_spec (int_encoding z) 192); [lia|]. rewrite Hsz. by res_step.
Qed.

(** * Entries *)

(** An entry: whether the length of the previous one takes five bytes, and the value. *)
Record node := mkNode { nlarge : bool; nval : zvalue }.

Definition psize (large : bool) : Z := if large then 5 else 1.
Definition prev_bytes (large : bool) (pv : Z) : list Z := if large then prevlen_large pv else [pv].
Definition node_bytes (pv : Z) (n : node) : list Z := prev_bytes (nlarge n) pv ++ val_hdr (nval n) ++ val_data (nval n).
Definition raw (n : node) : Z := psize (nlarge n) + zlen (val_hdr (nval n)) + zlen (val_data (nval n)).

(** The entry can say that the previous one takes [pv] bytes. *)
Definition node_ok (pv : Z) (n : node) : Prop := 0 ≤ pv < 2 ^ 32 ∧ (nlarge n = false → pv < 254) ∧ val_ok (nval n).

Lemma zlen_prev large pv : zlen (prev_bytes large pv) = psize large.
Proof. by destruct large. Qed.

Lemma zlen_node pv n : zlen (node_bytes pv n) = raw n.
Proof. unfold node_bytes, raw. zlens. rewrite zlen_prev. lia. Qed.

Lemma val_hdr_size v : 1 ≤ zlen (val_hdr v) ≤ 5.
Proof.
  destruct v as [s|z]; cbn [val_hdr]; [|done]. unfold entry_encoding. change (ZIP_IS_STR 0) with true. cbv iota.
  destruct (zlen s <=? 63); [done|]. by destruct (zlen s <=? 16383).
Qed.

Lemma raw_bounds n : 2 ≤ raw n ≤ 10 + zlen (val_data (nval n)).
Proof.
  unfold raw, psize. pose proof (val_hdr_size (nval n)). pose proof (zlen_nonneg (val_data (nval n))). destruct (nlarge n); lia.
Qed.

Definition is_str (v : zvalue) : bool := match v with ZVStr _ => true | ZVInt _ => false end.
Lemma val_enc_str v : val_ok v → ZIP_IS_STR (val_enc v) = is_str v.
Proof.
  destruct v as [s|z]; cbn [val_enc is_str]; [|by intros (_ & _ & _ & ? & _)%int_bytes_ok].
  intros _. destruct (zlen s <=? 63); [done|]. by destruct (zlen s <=? 16383).
Qed.

Definition entry_of (pv : Z) (n : node) : zlentry :=
  mkEntry (psize (nlarge n)) pv (zlen (val_hdr (nval n))) (zlen (val_data (nval n)))
    (psize (nlarge n) + zlen (val_hdr (nval n))) (val_enc (nval n)).

Section read_node.
  Context (zl A C : list Z) (pv p : Z) (n : node).
  Hypothesis Hok : node_ok pv n.
  Hypothesis Hzl : zl = A ++ node_bytes pv n ++ C.
  Hypothesis Hp : p = zlen A.

Let Hprev : zl = A ++ prev_bytes (nlarge n) pv ++ (val_hdr (nval n) ++ val_data (nval n) ++ C).
Proof. rewrite Hzl. unfold node_bytes. by rewrite <- !app_assoc. Qed.

Lemma node_first : ∃ b, rd zl p = Ok b ∧ (b <? ZIP_BIG_PREVLEN) = negb (nlarge n) ∧ (b =? ZIP_END) = false ∧
  (nlarge n = false → b = pv).
Proof.
  destruct Hok as (Hpv & Hs & _). pose proof Hprev as E. unfold prev_bytes in E. destruct (nlarge n).
  - exists ZIP_BIG_PREVLEN. split; [|done]. exact (rd_at _ A ZIP_BIG_PREVLEN (le 4 pv ++ _) p E Hp).
  - exists pv. specialize (Hs eq_refl). split; [by eapply rd_at|]. split_and!; [by apply Z.ltb_lt|apply Z.eqb_neq; unfold ZIP_END; lia|done].
Qed.

Lemma node_prevlensize : ZIP_DECODE_PREVLENSIZE zl p = Ok (psize (nlarge n)).
Proof.
  destruct node_first as (b & E & Hb & _). unfold ZIP_DECODE_PREVLENSIZE. rewrite E. res_step. rewrite Hb. by destruct (nlarge n).
Qed.

Lemma node_prevlen : ZIP_DECODE_PREVLEN zl p = Ok (psize (nlarge n), pv).
Proof.
  destruct node_first as (b & E & Hb & _ & Hs). unfold ZIP_DECODE_PREVLEN. rewrite node_prevlensize. res_step.
  pose proof Hprev as E'. unfold prev_bytes in E'. destruct (nlarge n); cbn [psize].
  - change (5 =? 1) with false. cbv iota. unfold get32.
    rewrite (rd_bytes_at _ (A ++ [ZIP_BIG_PREVLEN]) (le 4 pv) (val_hdr (nval n) ++ val_data (nval n) ++ C)).
    + do 2 res_step. rewrite unle_le_small by (destruct Hok; done). done.
    + rewrite E'. by rewrite <- app_assoc.
    + rewrite Hp. zlens. lia.
    + by rewrite zlen_le.
  - change (1 =? 1) with true. cbv iota. rewrite E. res_step. by rewrite Hs.
Qed.

Lemma node_length : ZIP_DECODE_LENGTH zl (p + psize (nlarge n)) =
  Ok (val_enc (nval n), zlen (val_hdr (nval n)), zlen (val_data (nval n))).
Proof.
  apply (decode_length _ (A ++ prev_bytes (nlarge n) pv) _ (val_data (nval n) ++ C)); [by destruct Hok as (_ & _ & ?)| |].
  - by rewrite Hprev, <- app_assoc.
  - zlens. by rewrite zlen_prev, Hp.
Qed.

Lemma node_entry : zipEntry zl p = Ok (entry_of pv n).
Proof. unfold zipEntry. rewrite node_prevlen. res_step. rewrite node_length. by res_step. Qed.

Lemma node_raw : raw n < 2 ^ 32 → zipRawEntryLength zl p = Ok (raw n).
Proof.
  intros Hr. unfold zipRawEntryLength. rewrite node_prevlensize. res_step. rewrite node_length. res_step. fold (raw n).
  pose proof (raw_bounds n). rewrite u32_id by lia. done.
Qed.

Lemma node_data : rd_bytes zl (p + (psize (nlarge n) + zlen (val_hdr (nval n)))) (zlen (val_data (nval n))) = Ok (val_data (nval n)).
Proof.
  apply (rd_bytes_at _ (A ++ prev_bytes (nlarge n) pv ++ val_hdr (nval n)) _ C); [|zlens; rewrite zlen_prev; lia|done].
  by rewrite Hprev, <- !app_assoc.
Qed.
End read_node.

(** ** Storing the length of the previous entry *)

Definition big (l : Z) : bool := negb (l <? ZIP_BIG_PREVLEN).

Lemma psize_big l : zipPrevEntryLengthSize l = psize (big l).
Proof. unfold zipPrevEntryLengthSize, big. by destruct (l <? ZIP_BIG_PREVLEN). Qed.

Lemma store_large zl A X C p l : zl = A ++ X ++ C → p = zlen A → zlen X = 5 →
  zipStorePrevEntryLengthLarge zl p l = Ok (5, A ++ prev_bytes true l ++ C).
Proof. intros E Hp HX. unfold zipStorePrevEntryLengthLarge. rewrite (wr_at _ A X C p (prevlen_large l) E Hp) by done. by res_step. Qed.

Lemma store_prev zl A X C p l : zl = A ++ X ++ C → p = zlen A → zlen X = psize (big l) →
  zipStorePrevEntryLength zl p l = Ok (psize (big l), A ++ prev_bytes (big l) l ++ C).
Proof.
  intros E Hp HX. unfold zipStorePrevEntryLength, big in *. destruct (l <? ZIP_BIG_PREVLEN); cbn [negb psize] in *.
  - rewrite (wr_at _ A X C p [l] E Hp) by done. by res_step.
  - by apply (store_large _ _ X).
Qed.

(** The field is rewritten in the bytes it has. *)
Lemma store_in_place zl A X C p r lg : zl = A ++ X ++ C → p = zlen A → zlen X = psize lg →
  (psize lg <? psize (big r)) = false →
  (if psize lg >? psize (big r) then zipStorePrevEntryLengthLarge zl p r else zipStorePrevEntryLength zl p r)
  = Ok (psize lg, A ++ prev_bytes lg r ++ C).
Proof.
  intros E Hp HX Hlt. pose proof (store_prev zl A X C p r E Hp) as Hs. destruct lg, (big r); try done; cbn in *.
  - by apply Hs.
  - by apply (store_large _ _ X).
  - by apply Hs.
Qed.

(** * Lists of entries *)

Fixpoint nodes_bytes (pv : Z) (ns : list node) : list Z :=
  match ns with [] => [] | n :: ns => node_bytes pv n ++ nodes_bytes (raw n) ns end.
Fixpoint nodes_ok (pv : Z) (ns : list node) : Prop :=
  match ns with [] => True | n :: ns => node_ok pv n ∧ nodes_ok (raw n) ns end.
Fixpoint size (ns : list node) : Z := match ns with [] => 0 | n :: ns => raw n + size ns end.

(** The length of the entry before position [length ns]. *)
Definition last_raw (pv : Z) (ns : list node) : Z := match last ns with Some n => raw n | None => pv end.
(** The offset of the last entry. *)
Fixpoint tail_pos (ns : list node) : Z :=
  match ns with [] => 0 | n :: ns' => match ns' with [] => 0 | _ => raw n + tail_pos ns' end end.

Lemma zlen_nodes pv ns : zlen (nodes_bytes pv ns) = size ns.
Proof. revert pv. induction ns as [|n ns IH]; intros pv; [done|]. cbn. zlens. by rewrite zlen_node, IH. Qed.

Lemma size_nonneg ns : 2 * zlen ns ≤ size ns.
Proof. induction ns as [|n ns IH]; [done|]. cbn. zlens. pose proof (raw_bounds n). lia. Qed.

Lemma tail_pos_bounds ns : 0 ≤ tail_pos ns ≤ size ns.
Proof.
  induction ns as [|n ns IH]; [done|]. cbn [tail_pos size]. pose proof (raw_bounds n). destruct ns; cbn [size] in *; lia.
Qed.

Lemma last_raw_cons pv n ns : last_raw pv (n :: ns) = last_raw (raw n) ns.
Proof. unfold last_raw. rewrite last_cons. by destruct (last ns). Qed.

Lemma nodes_bytes_app pv a b : nodes_bytes pv (a ++ b) = nodes_bytes pv a ++ nodes_bytes (last_raw pv a) b.
Proof.
  revert pv. induction a as [|n a IH]; intros pv; [done|]. cbn [app nodes_bytes]. by rewrite IH, last_raw_cons, app_assoc.
Qed.

Lemma nodes_ok_app pv a b : nodes_ok pv (a ++ b) ↔ nodes_ok pv a ∧ nodes_ok (last_raw pv a) b.
Proof.
  revert pv. induction a as [|n a IH]; intros pv; cbn [app nodes_ok]; [tauto|]. rewrite IH, last_raw_cons. tauto.
Qed.

Lemma size_app a b : size (a ++ b) = size a + size b.
Proof. induction a as [|n a IH]; cbn; [done|]. rewrite IH. lia. Qed.

Lemma tail_pos_app a b : b ≠ [] → tail_pos (a ++ b) = size a + tail_pos b.
Proof.
  intros Hb. induction a as [|n a IH]; [done|]. cbn [app tail_pos size]. rewrite <- Z.add_assoc, <- IH. by destruct a, b.
Qed.

Lemma tail_pos_snoc a n : tail_pos (a ++ [n]) = size a.
Proof. rewrite tail_pos_app by done. cbn. lia. Qed.

(** The entries after one of length [r], with the fields that [r] needs. *)
Fixpoint fix_nodes (r : Z) (ns : list node) : list node :=
  match ns with
  | [] => []
  | n :: ns =>
      if big r && negb (nlarge n) then let n' := mkNode true (nval n) in n' :: fix_nodes (raw n') ns
      else n :: ns
  end.

Lemma fix_nodes_vals r ns : nval <$> fix_nodes r ns = nval <$> ns.
Proof. revert r. induction ns as [|n ns IH]; intros r; [done|]. cbn. destruct (_ && _); cbn; [by rewrite IH|done]. Qed.

Lemma fix_nodes_nil r ns : fix_nodes r ns = [] ↔ ns = [].
Proof. destruct ns as [|n ns]; [done|]. cbn. by destruct (_ && _). Qed.

Lemma big_small r : big r = false ↔ r < 254.
Proof. unfold big. rewrite negb_false_iff. apply Z.ltb_lt. Qed.

Lemma raw_grow v : raw (mkNode true v) = raw (mkNode false v) + 4.
Proof. unfold raw. cbn. lia. Qed.

Lemma fix_nodes_size r ns : size ns ≤ size (fix_nodes r ns) ≤ size ns + 4 * zlen ns.
Proof.
  revert r. induction ns as [|[lg v] ns IH]; intros r; cbn [fix_nodes size nlarge nval]; zlens; [done|].
  destruct (big r), lg; cbn [andb negb]; try (cbn [size]; pose proof (zlen_nonneg ns); lia).
  cbn [size]. specialize (IH (raw (mkNode true v))). rewrite raw_grow in *. lia.
Qed.

Lemma fix_nodes_ok r q ns : nodes_ok q ns → 0 ≤ r < 2 ^ 32 → size ns + 4 * zlen ns < 2 ^ 32 → nodes_ok r (fix_nodes r ns).
Proof.
  revert r q. induction ns as [|[lg v] ns IH]; intros r q Hok Hr Hsz; [done|]. cbn [fix_nodes nlarge nval] in *.
  cbn [size] in Hsz. rewrite zlen_cons in Hsz. destruct Hok as [(Hq & Hs & Hv) Hok]. pose proof (size_nonneg ns). pose proof (zlen_nonneg ns).
  pose proof (raw_bounds (mkNode lg v)). destruct (big r) eqn:Hb, lg; cbn [andb negb].
  - split; [|done]. split_and!; [lia|lia|done|done].
  - assert (0 ≤ raw (mkNode true v) < 2 ^ 32) by (rewrite raw_grow; lia). split; [split_and!; [lia|lia|done|done]|].
    eapply IH; [done|done|lia].
  - split; [|done]. split_and!; [lia|lia|done|done].
  - split; [|done]. split_and!; [lia|lia|by intros; apply big_small|done].
Qed.

(** An unchanged length leaves the entries as they are. *)
Lemma fix_nodes_same r ns : nodes_ok r ns → fix_nodes r ns = ns.
Proof.
  destruct ns as [|[[|] v] ns]; [done|cbn; by rewrite andb_false_r|]. cbn. intros [(_ & Hs & _) _]. cbn in Hs.
  by rewrite (proj2 (big_small r) (Hs eq_refl)).
Qed.

(** * Cascading updates *)

Section cascade.
  Context (junk : nat → Z) (L : Z).

(** The entry [p] points to is the last one. *)
Lemma cascade_end f T O A pv n : node_ok pv n → raw n < 2 ^ 32 →
  cascade_loop junk f (hdr T O L ++ A ++ node_bytes pv n ++ [ZIP_END]) (10 + zlen A) T =
    Ok (hdr T O L ++ A ++ node_bytes pv n ++ [ZIP_END]).
Proof.
  intros Hn Hr. set (zl := hdr T O L ++ A ++ node_bytes pv n ++ [ZIP_END]).
  assert (Hzl : zl = (hdr T O L ++ A) ++ node_bytes pv n ++ [ZIP_END]) by (unfold zl; by rewrite <- app_assoc).
  assert (Hp : 10 + zlen A = zlen (hdr T O L ++ A)) by (zlens; rewrite zlen_hdr; done).
  destruct (node_first _ _ _ _ _ _ Hn Hzl Hp) as (b & Hb & _ & Hne & _). pose proof (raw_bounds n).
  destruct f; cbn [cascade_loop]; rewrite Hb; res_step; rewrite Hne, (node_entry _ _ _ _ _ _ Hn Hzl Hp); res_step;
    cbn [entry_of headersize len]; fold (raw n); rewrite u32_id by lia;
    rewrite (rd_at _ ((hdr T O L ++ A) ++ node_bytes pv n) ZIP_END []) by (rewrite ?Hzl, ?zlen_app, ?zlen_node, ?zlen_hdr, <- ?app_assoc; done || lia);
    by res_step.
Qed.

(** What the loop does when the next entry [m] has length [q] stored for an entry of length [raw n]. *)
Lemma cascade_next f T O A pv n q m X : node_ok pv n → node_ok q m → raw n < 2 ^ 32 →
  let zl := hdr T O L ++ A ++ node_bytes pv n ++ node_bytes q m ++ X in
  cascade_loop junk f zl (10 + zlen A) T =
    if q =? raw n then Ok zl
    else if psize (nlarge m) <? psize (big (raw n)) then
      let extra := psize (big (raw n)) - psize (nlarge m) in
      zl ← ziplistResize junk zl (T + extra);
      let np := 10 + zlen A + raw n in
      tail ← ZIPLIST_TAIL_OFFSET zl;
      zl ← (if tail =? np then Ok zl else set_tail zl (tail + extra));
      zl ← memmove zl (np + psize (big (raw n))) (np + psize (nlarge m)) (T - np - psize (nlarge m) - 1);
      '(_, zl) ← zipStorePrevEntryLength zl np (raw n);
      match f with O => Fault OutOfFuel | S f => cascade_loop junk f zl np (T + extra) end
    else Ok (hdr T O L ++ A ++ node_bytes pv n ++ node_bytes (raw n) m ++ X).
Proof.
  intros Hn Hm Hr zl.
  assert (Hzl : zl = (hdr T O L ++ A) ++ node_bytes pv n ++ (node_bytes q m ++ X)) by (unfold zl; by rewrite <- app_assoc).
  assert (Hzl' : zl = (hdr T O L ++ A ++ node_bytes pv n) ++ node_bytes q m ++ X) by (unfold zl; by rewrite <- !app_assoc).
  assert (Hp : 10 + zlen A = zlen (hdr T O L ++ A)) by (zlens; rewrite zlen_hdr; done).
  assert (Hp' : 10 + zlen A + raw n = zlen (hdr T O L ++ A ++ node_bytes pv n)) by (zlens; rewrite zlen_hdr, zlen_node; lia).
  destruct (node_first _ _ _ _ _ _ Hn Hzl Hp) as (b & Hb & _ & Hne & _). pose proof (raw_bounds n).
  destruct (node_first _ _ _ _ _ _ Hm Hzl' Hp') as (b' & Hb' & _ & Hne' & _).
  destruct f; cbn [cascade_loop]; rewrite Hb; res_step; rewrite Hne, (node_entry _ _ _ _ _ _ Hn Hzl Hp); res_step;
    cbn [entry_of headersize len]; fold (raw n); rewrite u32_id by lia; rewrite Hb'; res_step;
    rewrite Hne', (node_entry _ _ _ _ _ _ Hm Hzl' Hp'); res_step; cbn [entry_of prevrawlen prevrawlensize]; rewrite psize_big;
    (destruct (q =? raw n); [done|]); (destruct (psize (nlarge m) <? psize (big (raw n))) eqn:Hlt; [done|]);
    rewrite (store_in_place _ (hdr T O L ++ A ++ node_bytes pv n) (prev_bytes (nlarge m) q) (val_hdr (nval m) ++ val_data (nval m) ++ X))
      by (rewrite ?Hzl', ?zlen_prev; unfold node_bytes; by rewrite <- ?app_assoc);
    res_step; unfold node_bytes; by rewrite <- !app_assoc.
Qed.

(** The next entry gets a field of five bytes. *)
Lemma cascade_grow f T O A pv n q v X : node_ok pv n → node_ok q (mkNode false v) → raw n < 2 ^ 32 → big (raw n) = true →
  T = zlen (hdr T O L ++ A ++ node_bytes pv n ++ node_bytes q (mkNode false v) ++ X ++ [ZIP_END]) → T + 4 < 2 ^ 32 → 0 ≤ O < 2 ^ 32 →
  let np := 10 + zlen A + raw n in
  cascade_loop junk (S f) (hdr T O L ++ A ++ node_bytes pv n ++ node_bytes q (mkNode false v) ++ X ++ [ZIP_END]) (10 + zlen A) T =
  cascade_loop junk f (hdr (T + 4) (if O =? np then O else O + 4) L ++ A ++ node_bytes pv n ++ node_bytes (raw n) (mkNode true v) ++ X ++ [ZIP_END]) np (T + 4).
Proof.
  intros Hn Hm Hr Hbig HT HT4 HO np. rewrite (cascade_next _ _ _ _ _ _ q (mkNode false v) (X ++ [ZIP_END])) by done.
  rewrite Hbig. cbn [nlarge psize]. destruct (Z.eqb_spec q (raw n)) as [->|_].
  { destruct Hm as (_ & Hs & _). apply big_small in Hs; [|done]. congruence. }
  change (1 <? 5) with true. change (5 - 1) with 4. cbv iota zeta. fold np.
  set (N := node_bytes pv n) in *. set (V := val_hdr v ++ val_data v).
  assert (HN : zlen N = raw n) by apply zlen_node.
  assert (HM : node_bytes q (mkNode false v) = q :: V) by done. rewrite HM in *. clear HM.
  assert (Hl : zlen (hdr T O L ++ A ++ N ++ (q :: V) ++ X ++ [ZIP_END]) = 10 + zlen A + zlen N + (1 + zlen V) + zlen X + 1)
    by (zlens; rewrite zlen_hdr; lia).
  destruct (resize_grow junk T O L (A ++ N ++ (q :: V) ++ X) (T + 4)) as (J & HR & HJ & _).
  { rewrite <- !app_assoc in *. rewrite <- HT. lia. }
  assert (HB : ∀ Z, (A ++ N ++ (q :: V) ++ X) ++ Z = A ++ N ++ (q :: V) ++ X ++ Z) by (intros; by rewrite <- !app_assoc).
  rewrite (HB [ZIP_END]), (HB (J ++ [ZIP_END])) in HR. rewrite (HB [ZIP_END]) in HJ. rewrite HR. res_step. rewrite tail_hdr by done. res_step.
  set (O' := if O =? np then O else O + 4).
  assert (HO' : (if O =? np then Ok (hdr (T + 4) O L ++ A ++ N ++ (q :: V) ++ X ++ J ++ [ZIP_END])
     else set_tail (hdr (T + 4) O L ++ A ++ N ++ (q :: V) ++ X ++ J ++ [ZIP_END]) (O + 4))
     = Ok (hdr (T + 4) O' L ++ A ++ N ++ (q :: V) ++ X ++ J ++ [ZIP_END]))
    by (unfold O'; destruct (O =? np); [done|apply set_tail_hdr]).
  rewrite HO'. res_step. clear HO' HR. rewrite <- HT in HJ, Hl.
  set (Y := q :: V ++ X ++ J). assert (HY : zlen Y = 5 + zlen (V ++ X)) by (unfold Y; zlens; lia).
  destruct (split_at Y 5) as (Y1 & Y2 & EY & HY1 & HY2); [pose proof (zlen_nonneg (V ++ X)); lia|].
  rewrite (memmove_at _ (hdr (T + 4) O' L ++ A ++ N ++ [q]) (V ++ X) (J ++ [ZIP_END]) (hdr (T + 4) O' L ++ A ++ N ++ Y1) Y2 [ZIP_END]).
  - res_step. rewrite (store_prev _ (hdr (T + 4) O' L ++ A ++ N) Y1 ((V ++ X) ++ [ZIP_END])).
    + res_step. rewrite Hbig. unfold node_bytes. cbn [nlarge nval]. fold V. by rewrite <- !app_assoc.
    + by rewrite <- !app_assoc.
    + zlens. rewrite zlen_hdr. unfold np. lia.
    + by rewrite Hbig.
  - by rewrite <- !app_assoc.
  - zlens. rewrite zlen_hdr. unfold np. lia.
  - zlens. unfold np. lia.
  - rewrite <- !app_assoc, (app_assoc Y1), <- EY. unfold Y. cbn [app]. by rewrite <- !app_assoc.
  - zlens. rewrite zlen_hdr. unfold np. lia.
  - lia.
Qed.

Lemma cascade_loop_ok rest : ∀ f T O A pv n q,
  node_ok pv n → nodes_ok q rest → zlen rest ≤ Z.of_nat f →
  T = 10 + zlen A + raw n + size rest + 1 → T + 4 * zlen rest < 2 ^ 32 →
  (rest ≠ [] → O = 10 + zlen A + raw n + tail_pos rest) →
  ∃ T' O', cascade_loop junk f (hdr T O L ++ A ++ node_bytes pv n ++ nodes_bytes q rest ++ [ZIP_END]) (10 + zlen A) T
      = Ok (hdr T' O' L ++ A ++ node_bytes pv n ++ nodes_bytes (raw n) (fix_nodes (raw n) rest) ++ [ZIP_END]) ∧
    T' = 10 + zlen A + raw n + size (fix_nodes (raw n) rest) + 1 ∧
    O' = if decide (rest = []) then O else 10 + zlen A + raw n + tail_pos (fix_nodes (raw n) rest).
Proof.
  induction rest as [|m rest IH]; intros f T O A pv n q Hn Hrest Hf HT Hb HO.
  { exists T, O. rewrite cascade_end; [done|done|]. rewrite zlen_nil in Hb. cbn [size] in HT. pose proof (zlen_nonneg A). lia. }
  destruct Hrest as [Hm Hrest]. cbn [size] in HT. rewrite zlen_cons in Hb, Hf. specialize (HO ltac:(done)).
  pose proof (zlen_nonneg A). pose proof (zlen_nonneg rest). pose proof (size_nonneg rest). pose proof (raw_bounds n). pose proof (raw_bounds m).
  destruct (decide (m :: rest = [])) as [|_]; [done|]. cbn [nodes_bytes fix_nodes]. rewrite <- (app_assoc (node_bytes q m)).
  destruct (big (raw n) && negb (nlarge m)) eqn:Hg.
  - apply andb_true_iff in Hg as [Hbig Hsm%negb_true_iff]. destruct m as [lg v]. cbn in Hsm. subst lg. cbn [nval].
    destruct f as [|f]; [lia|]. rewrite raw_grow. pose proof (tail_pos_bounds (mkNode false v :: rest)). cbn [size] in *.
    rewrite cascade_grow; [|done|done|lia|done|zlens; rewrite zlen_hdr, !zlen_node, zlen_nodes; cbn [nlarge nval] in *; lia|lia|lia].
    set (np := 10 + zlen A + raw n) in *. set (O1 := if O =? np then O else O + 4).
    destruct (IH f (T + 4) O1 (A ++ node_bytes pv n) (raw n) (mkNode true v) (raw (mkNode false v))) as (T' & O' & E & HT' & HO').
    + destruct Hm as (_ & _ & Hv). split_and!; [lia|lia|done|done].
    + done.
    + lia.
    + rewrite raw_grow. zlens. rewrite zlen_node. lia.
    + lia.
    + intros Hne. rewrite raw_grow. zlens. rewrite zlen_node. unfold O1. cbn [tail_pos] in HO. destruct rest as [|m' rest]; [done|].
      pose proof (tail_pos_bounds (m' :: rest)). destruct (Z.eqb_spec O np); lia.
    + exists T', O'. replace (10 + zlen (A ++ node_bytes pv n)) with np in E by (zlens; rewrite zlen_node; lia).
      rewrite <- !app_assoc in *. rewrite E, raw_grow. cbn [nodes_bytes size tail_pos]. rewrite <- ?app_assoc, raw_grow in *. split_and!; [done| |].
      * rewrite HT'. zlens. rewrite zlen_node. lia.
      * rewrite HO'. unfold O1. destruct (decide (rest = [])) as [->|Hne].
        -- cbn in *. destruct (Z.eqb_spec O np); lia.
        -- zlens. rewrite zlen_node. destruct (fix_nodes (raw (mkNode false v) + 4) rest) eqn:Efix; [|lia].
           by apply fix_nodes_nil in Efix.
  - exists T, O. split_and!; [|cbn [size]; lia|done].
    rewrite cascade_next; [|done|done|lia]. destruct (Z.eqb_spec q (raw n)) as [->|_].
    { cbn [nodes_bytes]. by rewrite <- app_assoc. }
    assert ((psize (nlarge m) <? psize (big (raw n))) = false) as ->.
    { destruct (big (raw n)), (nlarge m); done. }
    cbn [nodes_bytes]. by rewrite <- app_assoc.
Qed.
End cascade.

Lemma cascade_update junk T O L A pv n q rest :
  node_ok pv n → nodes_ok q rest → T = 10 + zlen A + raw n + size rest + 1 → T + 4 * zlen rest < 2 ^ 32 →
  (rest ≠ [] → O = 10 + zlen A + raw n + tail_pos rest) →
  ∃ T' O', __ziplistCascadeUpdate junk (hdr T O L ++ A ++ node_bytes pv n ++ nodes_bytes q rest ++ [ZIP_END]) (10 + zlen A)
      = Ok (hdr T' O' L ++ A ++ node_bytes pv n ++ nodes_bytes (raw n) (fix_nodes (raw n) rest) ++ [ZIP_END]) ∧
    T' = 10 + zlen A + raw n + size (fix_nodes (raw n) rest) + 1 ∧
    O' = if decide (rest = []) then O else 10 + zlen A + raw n + tail_pos (fix_nodes (raw n) rest).
Proof.
  intros Hn Hrest HT Hb HO. pose proof (zlen_nonneg A). pose proof (size_nonneg rest). pose proof (raw_bounds n). pose proof (zlen_nonneg rest).
  unfold __ziplistCascadeUpdate. rewrite bytes_hdr by lia. res_step. apply cascade_loop_ok; try done.
  fold (zlen (hdr T O L ++ A ++ node_bytes pv n ++ nodes_bytes q rest ++ [ZIP_END])). zlens. rewrite zlen_hdr, zlen_node, zlen_nodes. lia.
Qed.

(** * Insertion *)

(** The value an insertion of [s] stores. *)
Definition val_of (s : bytes) : zvalue :=
  match zipTryEncoding s with Some (v, _) => ZVInt v | None => ZVStr (code <$> s) end.

(** The entry after the inserted one of length [r]: a field of five bytes stays when the
    entry is too short to make up for it. *)
Definition next_large (r : Z) (large : bool) : bool :=
  if (psize (big r) - psize large =? -4) && (r <? 4) then true else big r.
Definition next_diff (r : Z) (large : bool) : Z := psize (next_large r large) - psize large.

(** The bytes of entry [m] move behind a gap of [r] bytes. *)
Lemma insert_shift T O L Ab q m R J r :
  zlen J = r + next_diff r (nlarge m) → 0 ≤ r → 0 ≤ r + next_diff r (nlarge m) →
  let p := 10 + zlen Ab in
  let nd := next_diff r (nlarge m) in
  let curlen := 10 + zlen Ab + raw m + zlen R + 1 in
  ∃ G, zlen G = r ∧
    (zl ← memmove (hdr T O L ++ Ab ++ node_bytes q m ++ R ++ J ++ [ZIP_END]) (p + r) (p - nd) (curlen - p - 1 + nd);
     '(_, zl) ← (if (psize (big r) - psize (nlarge m) =? -4) && (r <? 4) then zipStorePrevEntryLengthLarge zl (p + r) r
                 else zipStorePrevEntryLength zl (p + r) r);
     Ok zl)
    = Ok (hdr T O L ++ Ab ++ G ++ node_bytes r (mkNode (next_large r (nlarge m)) (nval m)) ++ R ++ [ZIP_END]).
Proof.
  intros HJ Hr Hnd p nd curlen. set (lg := next_large r (nlarge m)). set (V := val_hdr (nval m) ++ val_data (nval m)).
  assert (Hps : ∀ b, 1 ≤ psize b ≤ 5) by (intros []; cbn; lia).
  pose proof (Hps lg). pose proof (Hps (nlarge m)). pose proof (zlen_nonneg Ab). pose proof (zlen_nonneg R). pose proof (zlen_nonneg V).
  assert (Hraw : raw m = psize (nlarge m) + zlen V) by (unfold raw, V; zlens; lia).
  assert (Hndd : nd = psize lg - psize (nlarge m)) by done.
  set (P := hdr T O L ++ Ab ++ prev_bytes (nlarge m) q).
  assert (HP : zlen P = 10 + zlen Ab + psize (nlarge m)) by (unfold P; zlens; rewrite zlen_hdr, zlen_prev; lia).
  destruct (split_at P (zlen P - psize lg)) as (P1 & Q & EP & HP1 & HQ); [lia|].
  destruct (split_at (node_bytes q m ++ R ++ J) r) as (G & Y & EG & HG & HY).
  { zlens. rewrite zlen_node. lia. }
  exists G. split; [done|].
  assert (Hzl : hdr T O L ++ Ab ++ node_bytes q m ++ R ++ J ++ [ZIP_END] = P1 ++ (Q ++ V ++ R) ++ J ++ [ZIP_END]).
  { rewrite <- !app_assoc, (app_assoc P1), <- EP. unfold P, node_bytes, V. by rewrite <- !app_assoc. }
  assert (Hzl' : hdr T O L ++ Ab ++ node_bytes q m ++ R ++ J ++ [ZIP_END] = (hdr T O L ++ Ab ++ G) ++ Y ++ [ZIP_END]).
  { rewrite <- !app_assoc, (app_assoc G), <- EG. by rewrite <- !app_assoc. }
  rewrite (memmove_at _ P1 (Q ++ V ++ R) (J ++ [ZIP_END]) (hdr T O L ++ Ab ++ G) Y [ZIP_END]); try done.
  - res_step.
    assert (Hst : (if (psize (big r) - psize (nlarge m) =? -4) && (r <? 4) then zipStorePrevEntryLengthLarge ((hdr T O L ++ Ab ++ G) ++ (Q ++ V ++ R) ++ [ZIP_END]) (p + r) r
        else zipStorePrevEntryLength ((hdr T O L ++ Ab ++ G) ++ (Q ++ V ++ R) ++ [ZIP_END]) (p + r) r)
      = Ok (psize lg, (hdr T O L ++ Ab ++ G) ++ prev_bytes lg r ++ (V ++ R) ++ [ZIP_END])).
    { assert (Hpr : p + r = zlen (hdr T O L ++ Ab ++ G)) by (zlens; rewrite zlen_hdr, HG; unfold p; lia).
      unfold lg, next_large in *. destruct (_ && _).
      - apply (store_large _ _ Q); [by rewrite <- !app_assoc|done|cbn in *; lia].
      - apply (store_prev _ _ Q); [by rewrite <- !app_assoc|done|lia]. }
    rewrite Hst. res_step. unfold node_bytes. cbn [nlarge nval]. fold V. by rewrite <- !app_assoc.
  - unfold p. lia.
  - zlens. unfold curlen, p. lia.
  - zlens. rewrite zlen_hdr, HG. unfold p. lia.
  - revert HY. zlens. rewrite zlen_node. lia.
Qed.

Lemma incr_hdr T O L body k : 0 ≤ L ≤ 65535 →
  ZIPLIST_INCR_LENGTH (hdr T O L ++ body) k = Ok (hdr T O (if L <? 65535 then L + k else L) ++ body).
Proof.
  intros HL. unfold ZIPLIST_INCR_LENGTH. rewrite length_hdr by lia. res_step. unfold UINT16_MAX.
  destruct (L <? 65535); [apply set_length_hdr|done].
Qed.

Lemma tryEncoding_Some s v e : zipTryEncoding s = Some (v, e) → e = int_encoding v ∧ LLONG_MIN ≤ v ≤ LLONG_MAX.
Proof.
  unfold zipTryEncoding. destruct (_ || _); [done|]. destruct (string2ll s) as [z|] eqn:E; [|done]. intros [= <- <-].
  split; [done|]. by apply string2ll_sound in E as [_ ?].
Qed.

Lemma zlen_code s : zlen (code <$> s) = Z.of_nat (length s).
Proof. unfold zlen. by rewrite length_fmap. Qed.

Lemma val_of_ok s : Z.of_nat (length s) < 2 ^ 32 → val_ok (val_of s).
Proof.
  intros Hs. unfold val_of. destruct (zipTryEncoding s) as [[v e]|] eqn:E; cbn; [by apply tryEncoding_Some in E as [_ ?]|].
  rewrite zlen_code. split; [done|]. apply Forall_fmap, Forall_forall. intros c _. apply code_range.
Qed.

(** The encoding and the value that [__ziplistInsert] works with. *)
Definition insert_args (s : bytes) : Z * Z := match zipTryEncoding s with Some r => r | None => (123456789, 0) end.

Lemma insert_hdr s : entry_encoding (insert_args s).2 (Z.of_nat (length s)) = val_hdr (val_of s) ∧
  ZIP_IS_STR (insert_args s).2 = is_str (val_of s).
Proof.
  unfold insert_args, val_of. destruct (zipTryEncoding s) as [[v e]|] eqn:E; cbn [val_hdr is_str snd].
  - apply tryEncoding_Some in E as [-> Hv]. destruct (int_bytes_ok v Hv) as (_ & _ & _ & Hs & _). unfold entry_encoding. by rewrite Hs.
  - by rewrite zlen_code.
Qed.

Lemma insert_size s : (match zipTryEncoding s with Some _ => zipIntSize (insert_args s).2 | None => Ok (Z.of_nat (length s)) end)
  = Ok (zlen (val_data (val_of s))).
Proof.
  unfold insert_args, val_of. destruct (zipTryEncoding s) as [[v e]|] eqn:E; cbn [val_data snd].
  - apply tryEncoding_Some in E as [-> Hv]. by destruct (int_bytes_ok v Hv) as (_ & -> & _).
  - by rewrite zlen_code.
Qed.

(** The last part of an insertion fills the gap with the new entry. *)
Lemma write_entry T O L Ab G C pv s p : p = 10 + zlen Ab → zlen G = raw (mkNode (big pv) (val_of s)) →
  ('(n, zl) ← zipStorePrevEntryLength (hdr T O L ++ Ab ++ G ++ C) p pv;
   '(n', zl) ← zipStoreEntryEncoding zl (p + n) (insert_args s).2 (Z.of_nat (length s));
   if ZIP_IS_STR (insert_args s).2 then wr zl (p + n + n') (code <$> s)
   else zipSaveInteger zl (p + n + n') (insert_args s).1 (insert_args s).2)
  = Ok (hdr T O L ++ Ab ++ node_bytes pv (mkNode (big pv) (val_of s)) ++ C).
Proof.
  intros -> HG. unfold raw in HG. cbn [nlarge nval] in HG. destruct (insert_hdr s) as [Hh Hs].
  pose proof (zlen_nonneg (val_hdr (val_of s))). pose proof (zlen_nonneg (val_data (val_of s))).
  destruct (split_at G (psize (big pv))) as (G1 & G' & -> & H1 & H2); [unfold psize in *; destruct (big pv); lia|].
  destruct (split_at G' (zlen (val_hdr (val_of s)))) as (G2 & G3 & -> & H3 & H4); [lia|].
  rewrite (store_prev _ (hdr T O L ++ Ab) G1 (G2 ++ G3 ++ C)); [|by rewrite <- !app_assoc|zlens; rewrite zlen_hdr; lia|done]. res_step.
  unfold zipStoreEntryEncoding, zipEntryEncodingSize. rewrite Hh, Hs. fold (zlen (val_hdr (val_of s))).
  rewrite (wr_at _ ((hdr T O L ++ Ab) ++ prev_bytes (big pv) pv) G2 (G3 ++ C));
    [|by rewrite <- !app_assoc|zlens; rewrite zlen_hdr, zlen_prev; lia|done]. do 2 res_step.
  set (F := (((hdr T O L ++ Ab) ++ prev_bytes (big pv) pv) ++ val_hdr (val_of s) ++ G3 ++ C)).
  assert (HF : wr F (10 + zlen Ab + psize (big pv) + zlen (val_hdr (val_of s))) (val_data (val_of s)) =
    Ok (hdr T O L ++ Ab ++ node_bytes pv (mkNode (big pv) (val_of s)) ++ C)).
  { rewrite (wr_at _ (((hdr T O L ++ Ab) ++ prev_bytes (big pv) pv) ++ val_hdr (val_of s)) G3 C);
      [|unfold F; by rewrite <- !app_assoc|zlens; rewrite zlen_hdr, zlen_prev; lia|lia].
    unfold node_bytes. cbn [nlarge nval]. by rewrite <- !app_assoc. }
  rewrite <- HF. unfold insert_args, val_of. destruct (zipTryEncoding s) as [[v e]|] eqn:E; cbn [is_str val_data fst snd]; [|done].
  apply tryEncoding_Some in E as [-> Hv]. unfold zipSaveInteger. destruct (int_bytes_ok v Hv) as (-> & _). by res_step.
Qed.

(** The cascade runs only when the length of the entry changed. *)
Lemma maybe_cascade junk T O L A pv n q rest nd :
  node_ok pv n → nodes_ok q rest → raw n = q + nd → T = 10 + zlen A + raw n + size rest + 1 → T + 4 * zlen rest < 2 ^ 32 →
  (rest ≠ [] → O = 10 + zlen A + raw n + tail_pos rest) → (rest = [] → O = 10 + zlen A) →
  let ns := n :: fix_nodes (raw n) rest in
  (if negb (nd =? 0) then __ziplistCascadeUpdate junk (hdr T O L ++ A ++ node_bytes pv n ++ nodes_bytes q rest ++ [ZIP_END]) (10 + zlen A)
   else Ok (hdr T O L ++ A ++ node_bytes pv n ++ nodes_bytes q rest ++ [ZIP_END]))
  = Ok (hdr (10 + zlen A + size ns + 1) (10 + zlen A + tail_pos ns) L ++ A ++ nodes_bytes pv ns ++ [ZIP_END]).
Proof.
  intros Hn Hrest Hq HT Hb HO HO' ns. unfold ns. cbn [nodes_bytes size]. rewrite <- app_assoc.
  assert (Htail : ∀ O, (O = if decide (rest = []) then 10 + zlen A else 10 + zlen A + raw n + tail_pos (fix_nodes (raw n) rest)) →
    O = 10 + zlen A + tail_pos (n :: fix_nodes (raw n) rest)).
  { intros O1 ->. destruct (decide (rest = [])) as [->|Hne]; [cbn; lia|]. cbn [tail_pos].
    destruct (fix_nodes (raw n) rest) eqn:Ef; [by apply fix_nodes_nil in Ef|lia]. }
  destruct (Z.eqb_spec nd 0) as [->|Hnd]; cbn [negb].
  - rewrite Z.add_0_r in Hq. rewrite Hq in *. rewrite (fix_nodes_same q rest Hrest) in *.
    rewrite (Htail O); [|destruct (decide (rest = [])); [by apply HO'|by apply HO]]. rewrite HT. by rewrite !Z.add_assoc.
  - destruct (cascade_update junk T O L A pv n q rest) as (T' & O1 & -> & -> & HO1); try done.
    rewrite (Htail O1); [by rewrite !Z.add_assoc|]. rewrite HO1. destruct (decide (rest = [])); [by apply HO'|done].
Qed.

(** * Ziplists *)

Definition blob (L : Z) (ns : list node) : list Z :=
  hdr (11 + size ns) (10 + tail_pos ns) L ++ nodes_bytes 0 ns ++ [ZIP_END].
(** The count of entries in the header, or 65535 when it is not known. *)
Definition count_ok (L : Z) (ns : list node) : Prop := 0 ≤ L ≤ 65535 ∧ (L = 65535 ∨ L = zlen ns).

Lemma node_at L pre m post : blob L (pre ++ m :: post) =
  (hdr (11 + size (pre ++ m :: post)) (10 + tail_pos (pre ++ m :: post)) L ++ nodes_bytes 0 pre) ++
  node_bytes (last_raw 0 pre) m ++ (nodes_bytes (raw m) post ++ [ZIP_END]).
Proof. unfold blob. rewrite nodes_bytes_app. cbn [nodes_bytes]. by rewrite <- !app_assoc. Qed.

Lemma pos_at T O L pre : 10 + size pre = zlen (hdr T O L ++ nodes_bytes 0 pre).
Proof. zlens. by rewrite zlen_hdr, zlen_nodes. Qed.

(** The byte at the position of an entry, and at the end. *)
Lemma blob_first L pre m post : nodes_ok 0 (pre ++ m :: post) →
  ∃ b, rd (blob L (pre ++ m :: post)) (10 + size pre) = Ok b ∧ (b =? ZIP_END) = false.
Proof.
  intros [_ [Hm _]]%nodes_ok_app. destruct (node_first _ _ _ _ _ _ Hm (node_at L pre m post) (pos_at _ _ _ _)) as (b & ? & _ & ? & _). eauto.
Qed.

Lemma blob_end L ns : rd (blob L ns) (10 + size ns) = Ok ZIP_END.
Proof.
  apply (rd_at _ (hdr (11 + size ns) (10 + tail_pos ns) L ++ nodes_bytes 0 ns) _ []); [|apply pos_at].
  unfold blob. by rewrite <- app_assoc.
Qed.

Lemma bytes_blob L ns : 11 + size ns < 2 ^ 32 → ZIPLIST_BYTES (blob L ns) = Ok (11 + size ns).
Proof. intros Hs. pose proof (size_nonneg ns). pose proof (zlen_nonneg ns). apply bytes_hdr. lia. Qed.
Lemma tail_blob L ns : 11 + size ns < 2 ^ 32 → ZIPLIST_TAIL_OFFSET (blob L ns) = Ok (10 + tail_pos ns).
Proof. intros Hs. pose proof (tail_pos_bounds ns). apply tail_hdr. lia. Qed.

(** The last entry, found from the end. *)
Lemma blob_tail L ns : nodes_ok 0 ns → 11 + size ns < 2 ^ 32 →
  (ptail ← ZIPLIST_ENTRY_TAIL (blob L ns);
   b ← rd (blob L ns) ptail;
   if negb (b =? ZIP_END) then zipRawEntryLength (blob L ns) ptail else Ok 0) = Ok (last_raw 0 ns).
Proof.
  intros Hok Hs. unfold ZIPLIST_ENTRY_TAIL. rewrite tail_blob by done. res_step.
  destruct ns as [|m pre _] using rev_ind.
  - pose proof (blob_end L []) as E. cbn [size tail_pos] in *. rewrite E. by res_step.
  - rewrite tail_pos_snoc. destruct (blob_first L pre m [] Hok) as (b & -> & Hb). res_step. rewrite Hb. cbn [negb].
    apply nodes_ok_app in Hok as [_ [Hm _]]. rewrite (node_raw _ _ _ _ _ _ Hm (node_at L pre m []) (pos_at _ _ _ _)).
    + unfold last_raw. by rewrite last_snoc.
    + rewrite size_app in Hs. cbn [size] in Hs. pose proof (size_nonneg pre). pose proof (zlen_nonneg pre). lia.
Qed.

(** ** Insertion *)

Definition count_incr (L k : Z) : Z := if L <? 65535 then L + k else L.

Lemma insert_prevlen L pre post : nodes_ok 0 (pre ++ post) → 11 + size (pre ++ post) < 2 ^ 32 →
  ∃ b, rd (blob L (pre ++ post)) (10 + size pre) = Ok b ∧ (b =? ZIP_END) = bool_decide (post = []) ∧
    (if negb (b =? ZIP_END) then '(_, l) ← ZIP_DECODE_PREVLEN (blob L (pre ++ post)) (10 + size pre); Ok l
     else
       ptail ← ZIPLIST_ENTRY_TAIL (blob L (pre ++ post));
       b ← rd (blob L (pre ++ post)) ptail;
       if negb (b =? ZIP_END) then zipRawEntryLength (blob L (pre ++ post)) ptail else Ok 0) = Ok (last_raw 0 pre).
Proof.
  intros Hok Hs. destruct post as [|m post].
  - exists ZIP_END. rewrite app_nil_r in *. rewrite blob_end. split_and!; [done|done|]. by apply blob_tail.
  - destruct (blob_first L pre m post Hok) as (b & E & Hb). exists b. rewrite Hb. split_and!; [done|done|]. cbn [negb].
    apply nodes_ok_app in Hok as [_ [Hm _]]. rewrite (node_prevlen _ _ _ _ _ _ Hm (node_at L pre m post) (pos_at _ _ _ _)). by res_step.
Qed.

Lemma next_diff_eq r lg :
  (if (psize (big r) - psize lg =? -4) && (r <? 4) then (0, true) else (psize (big r) - psize lg, false))
  = (next_diff r lg, (psize (big r) - psize lg =? -4) && (r <? 4)).
Proof. unfold next_diff, next_large. destruct (big r), lg, (r <? 4); done. Qed.

Lemma psize_diff a b : (psize a - psize b =? -4) = negb a && b.
Proof. by destruct a, b. Qed.

Lemma next_diff_bound r lg : 0 ≤ r → 0 ≤ r + next_diff r lg ∧ -4 ≤ next_diff r lg ≤ 4.
Proof.
  unfold next_diff, next_large. rewrite psize_diff. intros Hr. destruct (big r) eqn:Hb, lg, (Z.ltb_spec r 4); cbn; lia.
Qed.

Lemma next_large_ok r m q : node_ok q m → 0 ≤ r < 2 ^ 32 → node_ok r (mkNode (next_large r (nlarge m)) (nval m)).
Proof.
  intros (_ & _ & Hv) Hr. split_and!; [lia|lia| |done]. cbn. unfold next_large. destruct (_ && _); [done|]. apply big_small.
Qed.

Lemma next_large_raw r m : raw (mkNode (next_large r (nlarge m)) (nval m)) = raw m + next_diff r (nlarge m).
Proof. unfold raw, next_diff. cbn. lia. Qed.

(** The tail offset also moves with the last entry when that is not the entry at [p]. *)
Lemma adjust_tail T O L A pv m q post nd p : nodes_ok q post → 0 ≤ O < 2 ^ 32 → p = 10 + zlen A + raw m →
  let zl := hdr T O L ++ A ++ node_bytes pv m ++ nodes_bytes q post ++ [ZIP_END] in
  (b ← rd zl p; if negb (b =? ZIP_END) then t ← ZIPLIST_TAIL_OFFSET zl; set_tail zl (t + nd) else Ok zl)
  = Ok (hdr T (if decide (post = []) then O else O + nd) L ++ A ++ node_bytes pv m ++ nodes_bytes q post ++ [ZIP_END]).
Proof.
  intros Hpost HO -> zl. assert (Hp : 10 + zlen A + raw m = zlen (hdr T O L ++ A ++ node_bytes pv m)) by (zlens; rewrite zlen_hdr, zlen_node; lia).
  destruct post as [|m2 post].
  - rewrite (rd_at _ (hdr T O L ++ A ++ node_bytes pv m) ZIP_END []); [|unfold zl; by rewrite <- !app_assoc|done]. by res_step.
  - destruct Hpost as [Hm2 _].
    destruct (node_first zl (hdr T O L ++ A ++ node_bytes pv m) (nodes_bytes (raw m2) post ++ [ZIP_END]) q (10 + zlen A + raw m) m2 Hm2) as (b & E & _ & Hne & _);
      [unfold zl; cbn [nodes_bytes]; by rewrite <- !app_assoc|done|]. rewrite E. res_step. rewrite Hne. cbn [negb].
    unfold zl. rewrite tail_hdr by done. res_step. by rewrite set_tail_hdr.
Qed.

(** The insertion in front of entry [m], up to the gap: the list after it is laid out anew. *)
Lemma insert_middle junk L T O Ab q m post r nd J :
  node_ok q m → nodes_ok (raw m) post → nd = next_diff r (nlarge m) → 2 ≤ r → zlen J = r + nd →
  T = 10 + zlen Ab + raw m + size post + 1 + r + nd → T + 4 * zlen post + 4 < 2 ^ 32 →
  O = 10 + zlen Ab + tail_pos (m :: post) →
  let p := 10 + zlen Ab in
  let ns := mkNode (next_large r (nlarge m)) (nval m) :: fix_nodes (raw m + nd) post in
  ∃ G, zlen G = r ∧
  (zl ← (zl ← memmove (hdr T O L ++ Ab ++ node_bytes q m ++ nodes_bytes (raw m) post ++ J ++ [ZIP_END]) (p + r) (p - nd) (T - r - nd - p - 1 + nd);
     '(_, zl) ← (if (psize (big r) - psize (nlarge m) =? -4) && (r <? 4) then zipStorePrevEntryLengthLarge zl (p + r) (u32 r)
                 else zipStorePrevEntryLength zl (p + r) (u32 r));
     t ← ZIPLIST_TAIL_OFFSET zl;
     zl ← set_tail zl (t + r);
     tail ← zipEntry zl (p + r);
     b ← rd zl (p + (r + headersize tail + len tail));
     (if negb (b =? ZIP_END) then t ← ZIPLIST_TAIL_OFFSET zl; set_tail zl (t + nd) else Ok zl));
   if negb (nd =? 0) then __ziplistCascadeUpdate junk zl (p + r) else Ok zl)
  = Ok (hdr (p + r + size ns + 1) (p + r + tail_pos ns) L ++ Ab ++ G ++ nodes_bytes r ns ++ [ZIP_END]).
Proof.
  intros Hm Hpost Hnd Hr HJ HT Hb HO p ns. set (m' := mkNode (next_large r (nlarge m)) (nval m)).
  pose proof (zlen_nonneg Ab). pose proof (size_nonneg post). pose proof (zlen_nonneg post). pose proof (raw_bounds m).
  pose proof (next_diff_bound r (nlarge m) ltac:(lia)) as Hnb. rewrite <- Hnd in Hnb.
  pose proof (tail_pos_bounds (m :: post)) as Htp. cbn [size] in Htp.
  assert (Hraw : raw m' = raw m + nd) by (rewrite Hnd; apply next_large_raw).
  assert (Hm' : node_ok r m') by (apply (next_large_ok r m q Hm); lia).
  destruct (insert_shift T O L Ab q m (nodes_bytes (raw m) post) J r) as (G & HG & E); [by rewrite <- Hnd|lia|lia|].
  exists G. split; [done|]. rewrite <- Hnd, zlen_nodes in E. fold p m' in E. rewrite u32_id by lia.
  replace (T - r - nd - p - 1 + nd) with (p + raw m + size post + 1 - p - 1 + nd) by (unfold p; lia).
  apply bind_Ok in E as (zl1 & E1 & E2). apply bind_Ok in E2 as ([k zl2] & E2 & E3%Ok_inj). subst zl2.
  rewrite E1. res_step. rewrite E2. res_step. clear E1 E2. rewrite tail_hdr by lia. res_step. rewrite set_tail_hdr. res_step.
  assert (Hz : ∀ O, hdr T O L ++ Ab ++ G ++ node_bytes r m' ++ nodes_bytes (raw m) post ++ [ZIP_END]
    = (hdr T O L ++ Ab ++ G) ++ node_bytes r m' ++ (nodes_bytes (raw m) post ++ [ZIP_END])) by (intros; by rewrite <- !app_assoc).
  assert (Hp : p + r = zlen (hdr T (O + r) L ++ Ab ++ G)) by (zlens; rewrite zlen_hdr; unfold p; lia).
  rewrite (node_entry _ _ _ _ _ _ Hm' (Hz _) Hp). res_step. cbn [entry_of headersize len].
  replace (p + (r + (psize (nlarge m') + zlen (val_hdr (nval m'))) + zlen (val_data (nval m')))) with (p + r + raw m') by (unfold raw; lia).
  rewrite (app_assoc Ab), (adjust_tail _ _ _ _ _ _ _ _ nd (p + r + raw m')) by (try done; zlens; unfold p; lia). res_step.
  set (O2 := if decide (post = []) then O + r else O + r + nd).
  assert (HpG : p + r = 10 + zlen (Ab ++ G)) by (zlens; unfold p; lia). rewrite HpG.
  rewrite (maybe_cascade junk T O2 L (Ab ++ G) r m' (raw m) post nd).
  - rewrite Hraw. fold ns. by rewrite <- !app_assoc.
  - done.
  - done.
  - done.
  - lia.
  - lia.
  - intros Hne. unfold O2. destruct (decide (post = [])); [done|]. cbn [tail_pos] in HO. destruct post; [done|]. lia.
  - intros ->. unfold O2. rewrite decide_True by done. cbn [tail_pos] in HO. lia.
Qed.

(** The new entry [x] for [s] after the entries [pre]. *)
Definition new_node (pre : list node) (s : bytes) : node := mkNode (big (last_raw 0 pre)) (val_of s).
Definition insert_post (r : Z) (post : list node) : list node :=
  match post with
  | [] => []
  | m :: post => let m' := mkNode (next_large r (nlarge m)) (nval m) in m' :: fix_nodes (raw m') post
  end.

Lemma insert_post_vals r post : nval <$> insert_post r post = nval <$> post.
Proof. destruct post as [|m post]; [done|]. cbn. by rewrite fix_nodes_vals. Qed.

Lemma last_raw_bound ns : 0 ≤ last_raw 0 ns ≤ size ns.
Proof.
  unfold last_raw. destruct ns as [|n ns _] using rev_ind; [done|]. rewrite last_snoc, size_app. cbn.
  pose proof (raw_bounds n). pose proof (size_nonneg ns). pose proof (zlen_nonneg ns). lia.
Qed.

Lemma insert_post_ok r post q : nodes_ok q post → 0 ≤ r < 2 ^ 32 → size post + 4 * zlen post + 4 < 2 ^ 32 → nodes_ok r (insert_post r post).
Proof.
  intros Hok Hr Hs. destruct post as [|m post]; [done|]. destruct Hok as [Hm Hok]. cbn [insert_post nodes_ok size] in *. rewrite zlen_cons in Hs.
  pose proof (size_nonneg post). pose proof (zlen_nonneg post). pose proof (raw_bounds m).
  pose proof (next_diff_bound r (nlarge m) ltac:(lia)). pose proof (raw_bounds (mkNode (next_large r (nlarge m)) (nval m))).
  split; [by eapply next_large_ok|]. eapply fix_nodes_ok; [done| |lia]. rewrite next_large_raw in *. lia.
Qed.

(** The end of an insertion: the entry and the count. *)
Lemma insert_finish T O L Ab G C pv s p : p = 10 + zlen Ab → zlen G = raw (mkNode (big pv) (val_of s)) → 0 ≤ L ≤ 65535 →
  ('(n, zl) ← zipStorePrevEntryLength (hdr T O L ++ Ab ++ G ++ C) p pv;
   '(n', zl) ← zipStoreEntryEncoding zl (p + n) (insert_args s).2 (Z.of_nat (length s));
   zl ← (if ZIP_IS_STR (insert_args s).2 then wr zl (p + n + n') (code <$> s)
         else zipSaveInteger zl (p + n + n') (insert_args s).1 (insert_args s).2);
   ZIPLIST_INCR_LENGTH zl 1)
  = Ok (hdr T O (count_incr L 1) ++ Ab ++ node_bytes pv (mkNode (big pv) (val_of s)) ++ C).
Proof.
  intros Hp HG HL. pose proof (write_entry T O L Ab G C pv s p Hp HG) as E.
  apply bind_Ok in E as ([n zl1] & E1 & E). apply bind_Ok in E as ([n' zl2] & E2 & E3).
  rewrite E1. res_step. rewrite E2. res_step. rewrite E3. res_step. by apply incr_hdr.
Qed.

Lemma blob_insert L pre x ns : ns ≠ [] →
  hdr (10 + size pre + raw x + size ns + 1) (10 + size pre + raw x + tail_pos ns) L ++
    nodes_bytes 0 pre ++ node_bytes (last_raw 0 pre) x ++ nodes_bytes (raw x) ns ++ [ZIP_END] = blob L (pre ++ x :: ns).
Proof.
  intros Hne. unfold blob. rewrite nodes_bytes_app, size_app, tail_pos_app by done. cbn [size tail_pos nodes_bytes].
  destruct ns; [done|]. rewrite <- !app_assoc. do 2 f_equal; lia.
Qed.

Section insert.
  Context (junk : nat → Z) (L : Z) (pre post : list node) (s : bytes).
Let pv := last_raw 0 pre.
Let r := raw (new_node pre s).
  Hypothesis Hok : nodes_ok 0 (pre ++ post).
  Hypothesis HL : 0 ≤ L ≤ 65535.
  Hypothesis Hb : 11 + size (pre ++ post) + r + 4 * zlen post + 8 < 2 ^ 32.

(** The part of an insertion from the allocation on. *)
Definition insert_rest (zl : mem) (p curlen pv r nextdiff : Z) (forcelarge : bool) : res mem :=
  zl ← ziplistResize junk zl (curlen + r + nextdiff);
  b ← rd zl p;
  zl ←
    (if negb (b =? ZIP_END) then
       zl ← memmove zl (p + r) (p - nextdiff) (curlen - p - 1 + nextdiff);
       '(_, zl) ← (if forcelarge : bool then zipStorePrevEntryLengthLarge zl (p + r) (u32 r)
                   else zipStorePrevEntryLength zl (p + r) (u32 r));
       t ← ZIPLIST_TAIL_OFFSET zl;
       zl ← set_tail zl (t + r);
       tail ← zipEntry zl (p + r);
       b ← rd zl (p + (r + headersize tail + len tail));
       (if negb (b =? ZIP_END) then t ← ZIPLIST_TAIL_OFFSET zl; set_tail zl (t + nextdiff) else Ok zl)
     else set_tail zl p);
  zl ← (if negb (nextdiff =? 0) then __ziplistCascadeUpdate junk zl (p + r) else Ok zl);
  '(n, zl) ← zipStorePrevEntryLength zl p pv;
  '(n', zl) ← zipStoreEntryEncoding zl (p + n) (insert_args s).2 (Z.of_nat (length s));
  zl ← (if ZIP_IS_STR (insert_args s).2 then wr zl (p + n + n') (code <$> s)
        else zipSaveInteger zl (p + n + n') (insert_args s).1 (insert_args s).2);
  ZIPLIST_INCR_LENGTH zl 1.

Lemma insert_start :
  __ziplistInsert junk (blob L (pre ++ post)) (10 + size pre) s =
  match post with
  | [] => insert_rest (blob L (pre ++ post)) (10 + size pre) (11 + size (pre ++ post)) pv r 0 false
  | m :: _ => insert_rest (blob L (pre ++ post)) (10 + size pre) (11 + size (pre ++ post)) pv r
                (next_diff r (nlarge m)) ((psize (big r) - psize (nlarge m) =? -4) && (r <? 4))
  end.
Proof.
  pose proof (size_nonneg (pre ++ post)). pose proof (zlen_nonneg (pre ++ post)). pose proof (zlen_nonneg post).
  pose proof (raw_bounds (new_node pre s)) as Hr2. fold r in Hr2.
  unfold __ziplistInsert. rewrite bytes_blob by lia. res_step.
  destruct (insert_prevlen L pre post Hok) as (b & -> & Hbe & E); [lia|]. res_step. rewrite E. res_step. clear E.
  fold (insert_args s). fold pv.
  rewrite (surjective_pairing (insert_args s)). cbv iota beta. rewrite insert_size. res_step.
  unfold zipEntryEncodingSize. rewrite (proj1 (insert_hdr s)). fold (zlen (val_hdr (val_of s))). rewrite psize_big.
  replace (zlen (val_data (val_of s)) + psize (big pv) + zlen (val_hdr (val_of s))) with r by (unfold r, raw; cbn; fold pv; lia).
  rewrite (u32_id r) by lia. unfold insert_rest. rewrite (u32_id r) by lia. destruct post as [|m post'].
  - rewrite bool_decide_eq_true_2 in Hbe by done. rewrite Hbe. cbn [negb]. by res_step.
  - rewrite bool_decide_eq_false_2 in Hbe by done. rewrite Hbe. cbn [negb]. unfold zipPrevLenByteDiff.
    pose proof Hok as [_ [Hm _]]%nodes_ok_app.
    rewrite (node_prevlensize _ _ _ _ _ _ Hm (node_at L pre m post') (pos_at _ _ _ _)). do 2 res_step.
    rewrite psize_big, next_diff_eq. done.
Qed.

Lemma insert_append : post = [] →
  insert_rest (blob L pre) (10 + size pre) (11 + size pre) pv r 0 false = Ok (blob (count_incr L 1) (pre ++ [new_node pre s])).
Proof.
  intros ->. rewrite app_nil_r, zlen_nil in *. pose proof (size_nonneg pre). pose proof (zlen_nonneg pre).
  pose proof (raw_bounds (new_node pre s)) as Hr2. fold r in Hr2. unfold insert_rest, blob at 1.
  destruct (resize_grow junk (11 + size pre) (10 + tail_pos pre) L (nodes_bytes 0 pre) (11 + size pre + r + 0)) as (J & -> & HJ & HJ').
  { zlens. rewrite zlen_hdr, zlen_nodes. lia. }
  res_step. revert HJ. zlens. rewrite zlen_hdr, zlen_nodes. intros HJ. destruct HJ' as [J' HJ']; [intros ->; rewrite zlen_nil in HJ; lia|].
  rewrite (rd_at _ (hdr (11 + size pre + r + 0) (10 + tail_pos pre) L ++ nodes_bytes 0 pre) ZIP_END (J' ++ [ZIP_END]));
    [|rewrite HJ'; by rewrite <- app_assoc|apply pos_at]. res_step. change (negb (ZIP_END =? ZIP_END)) with false. cbv iota.
  rewrite set_tail_hdr. res_step. change (negb (0 =? 0)) with false. cbv iota. res_step.
  rewrite insert_finish; [|by rewrite zlen_nodes|change (zlen J = r); lia|done]. f_equal.
  unfold blob. rewrite nodes_bytes_app, tail_pos_snoc, size_app. cbn [nodes_bytes size]. fold pv (new_node pre s) r.
  rewrite app_nil_r, <- app_assoc. f_equal. f_equal. lia.
Qed.

Lemma insert_before m post' : post = m :: post' →
  insert_rest (blob L (pre ++ post)) (10 + size pre) (11 + size (pre ++ post)) pv r
    (next_diff r (nlarge m)) ((psize (big r) - psize (nlarge m) =? -4) && (r <? 4))
  = Ok (blob (count_incr L 1) (pre ++ new_node pre s :: insert_post r post)).
Proof.
  intros ->. pose proof Hok as [_ [Hm Hpost]]%nodes_ok_app. fold pv in Hm. rewrite zlen_cons in Hb.
  pose proof (size_nonneg (pre ++ m :: post')). pose proof (zlen_nonneg (pre ++ m :: post')). pose proof (zlen_nonneg post').
  pose proof (raw_bounds (new_node pre s)) as Hr2. fold r in Hr2. set (nd := next_diff r (nlarge m)).
  pose proof (next_diff_bound r (nlarge m) ltac:(lia)) as Hnd. fold nd in Hnd.
  pose proof (tail_pos_bounds (pre ++ m :: post')) as Htp.
  set (T := 11 + size (pre ++ m :: post')) in *. set (O := 10 + tail_pos (pre ++ m :: post')) in *.
  assert (HT : T = 10 + size pre + raw m + size post' + 1) by (unfold T; rewrite size_app; cbn [size]; lia).
  assert (HO : O = 10 + size pre + tail_pos (m :: post')) by (unfold O; rewrite tail_pos_app by done; lia).
  unfold insert_rest, blob at 1. fold T O. rewrite nodes_bytes_app. fold pv. cbn [nodes_bytes].
  destruct (resize_grow junk T O L (nodes_bytes 0 pre ++ node_bytes pv m ++ nodes_bytes (raw m) post') (T + r + nd)) as (J & HR & HJ & _).
  { zlens. rewrite zlen_hdr, zlen_node, !zlen_nodes. lia. }
  rewrite HR. res_step. revert HJ. zlens. rewrite zlen_hdr, zlen_node, !zlen_nodes. intros HJ. rewrite <- !app_assoc.
  destruct (node_first (hdr (T + r + nd) O L ++ nodes_bytes 0 pre ++ node_bytes pv m ++ nodes_bytes (raw m) post' ++ J ++ [ZIP_END])
    (hdr (T + r + nd) O L ++ nodes_bytes 0 pre) (nodes_bytes (raw m) post' ++ J ++ [ZIP_END]) pv (10 + size pre) m Hm)
    as (b & -> & _ & Hne & _); [by rewrite <- !app_assoc|apply pos_at|]. res_step. rewrite Hne. cbn [negb].
  destruct (insert_middle junk L (T + r + nd) O (nodes_bytes 0 pre) pv m post' r nd J) as (G & HG & E); try done; try (rewrite ?zlen_nodes; lia).
  rewrite zlen_nodes in E. replace (T + r + nd - r - nd - (10 + size pre) - 1 + nd) with (T - (10 + size pre) - 1 + nd) in E by lia.
  apply bind_Ok in E as (zl1 & -> & E2). res_step. rewrite E2. res_step.
  rewrite insert_finish; [|by rewrite zlen_nodes|done|done]. f_equal. cbn [insert_post].
  rewrite next_large_raw. fold nd. by apply blob_insert.
Qed.

Lemma insert_nodes :
  __ziplistInsert junk (blob L (pre ++ post)) (10 + size pre) s
    = Ok (blob (count_incr L 1) (pre ++ new_node pre s :: insert_post r post)).
Proof.
  rewrite insert_start. pose proof insert_append as Ha. pose proof insert_before as Hm.
  destruct post as [|m post']; [rewrite app_nil_r; by apply Ha|by apply (Hm m post')].
Qed.
End insert.

(** ** Deletion *)

Lemma tail_pos_last ns : tail_pos ns = size ns - last_raw 0 ns.
Proof.
  destruct ns as [|n ns _] using rev_ind; [done|]. unfold last_raw. rewrite last_snoc, tail_pos_snoc, size_app. cbn. lia.
Qed.

(** The loop passes over the entries [del]. *)
Lemma delete_loop_ok L post num del : ∀ fuel pre i,
  nodes_ok 0 (pre ++ del ++ post) → 11 + size (pre ++ del ++ post) < 2 ^ 32 → zlen del ≤ Z.of_nat fuel →
  i + zlen del ≤ num → (post = [] ∨ i + zlen del = num) →
  delete_loop fuel (blob L (pre ++ del ++ post)) (10 + size pre) i num = Ok (10 + size pre + size del, i + zlen del).
Proof.
  induction del as [|d del IH]; intros fuel pre i Hok Hb Hf Hi Hnum; cbn [app] in *.
  - cbn [size]. rewrite zlen_nil, !Z.add_0_r in *.
    assert (E : ∃ b, rd (blob L (pre ++ post)) (10 + size pre) = Ok b ∧ negb (b =? ZIP_END) && (i <? num) = false).
    { destruct post as [|m post]; [exists ZIP_END; rewrite app_nil_r, blob_end; done|].
      destruct (blob_first L pre m post Hok) as (b & -> & Hb'). exists b. split; [done|]. destruct Hnum as [|<-]; [done|].
      by rewrite Z.ltb_irrefl, andb_false_r. }
    destruct E as (b & E1 & E2). destruct fuel; cbn [delete_loop]; rewrite E1; res_step; by rewrite E2.
  - rewrite zlen_cons in *. pose proof (zlen_nonneg del). destruct (blob_first L pre d (del ++ post) Hok) as (b & E & Hb').
    pose proof Hok as [_ [Hd _]]%nodes_ok_app. destruct fuel as [|f]; [lia|]. cbn [delete_loop]. rewrite E. res_step. rewrite Hb'.
    destruct (Z.ltb_spec i num); [|lia]. cbn [negb andb].
    rewrite size_app in Hb. cbn [size] in Hb. pose proof (size_nonneg pre). pose proof (zlen_nonneg pre).
    pose proof (size_nonneg (del ++ post)). pose proof (zlen_nonneg (del ++ post)).
    rewrite (node_raw _ _ _ _ _ _ Hd (node_at L pre d (del ++ post)) (pos_at _ _ _ _)) by lia. res_step.
    specialize (IH f (pre ++ [d]) (i + 1)). rewrite <- app_assoc in IH. cbn [app] in IH.
    assert (Hsz : size (pre ++ [d]) = size pre + raw d) by (rewrite size_app; cbn; lia).
    replace (10 + size pre + raw d) with (10 + size (pre ++ [d])) by lia.
    rewrite IH; [cbn [size]; do 2 f_equal; lia|done|rewrite size_app; cbn [size]; lia|lia|lia|]. destruct Hnum; [by left|right; lia].
Qed.

Definition delete_post (pv : Z) (post : list node) : list node :=
  match post with
  | [] => []
  | m :: post => let m' := mkNode (big pv) (nval m) in m' :: fix_nodes (raw m') post
  end.

Lemma delete_post_vals r post : nval <$> delete_post r post = nval <$> post.
Proof. destruct post as [|m post]; [done|]. cbn. by rewrite fix_nodes_vals. Qed.

(** The entries after the deleted ones move down. *)
Lemma delete_shift T O L Ab D q m R pv p0 :
  let nd := psize (big pv) - psize (nlarge m) in
  let m' := mkNode (big pv) (nval m) in
  let p := 10 + zlen Ab + zlen D - nd in
  let B := zlen Ab + zlen D + raw m + zlen R in
  0 ≤ zlen D - nd → p0 = 10 + zlen Ab →
  ∃ D1, zlen D1 = zlen D - nd ∧
    zipStorePrevEntryLength (hdr T O L ++ Ab ++ D ++ node_bytes q m ++ R ++ [ZIP_END]) p pv
      = Ok (psize (big pv), hdr T O L ++ (Ab ++ D1) ++ node_bytes pv m' ++ R ++ [ZIP_END]) ∧
    ∀ O', ∃ Y, zlen Y = zlen D1 ∧
      memmove (hdr T O' L ++ (Ab ++ D1) ++ node_bytes pv m' ++ R ++ [ZIP_END]) p0 p (10 + B - p) =
      Ok (hdr T O' L ++ (Ab ++ node_bytes pv m' ++ R) ++ Y ++ [ZIP_END]).
Proof.
  intros nd m' p B Hnd ->. set (V := val_hdr (nval m) ++ val_data (nval m)).
  assert (Hps : ∀ b, 1 ≤ psize b ≤ 5) by (intros []; cbn; lia). pose proof (Hps (big pv)). pose proof (Hps (nlarge m)).
  assert (Hraw' : raw m' = psize (big pv) + zlen V) by (unfold raw, V; zlens; cbn; lia).
  assert (Hraw : raw m = psize (nlarge m) + zlen V) by (unfold raw, V; zlens; lia).
  destruct (split_at (D ++ prev_bytes (nlarge m) q) (zlen D - nd)) as (D1 & Q & ED & HD1 & HQ).
  { zlens. rewrite zlen_prev. lia. }
  exists D1. split; [done|]. revert HQ. zlens. rewrite zlen_prev. intros HQ.
  assert (Hz : hdr T O L ++ Ab ++ D ++ node_bytes q m ++ R ++ [ZIP_END] = (hdr T O L ++ Ab ++ D1) ++ Q ++ (V ++ R ++ [ZIP_END])).
  { rewrite <- !app_assoc, (app_assoc D1), <- ED. unfold node_bytes, V. by rewrite <- !app_assoc. }
  split.
  - rewrite (store_prev _ _ Q _ _ _ Hz); [|zlens; rewrite zlen_hdr; unfold p; lia|lia]. unfold node_bytes. cbn. fold V. by rewrite <- !app_assoc.
  - intros O'. pose proof (zlen_nonneg Ab). pose proof (zlen_nonneg R). pose proof (zlen_nonneg V).
    destruct (split_at (D1 ++ node_bytes pv m' ++ R) (raw m' + zlen R)) as (Y1 & Y & EY & HY1 & HY); [zlens; rewrite zlen_node; lia|].
    exists Y. revert HY. zlens. rewrite zlen_node. intros HY. split; [lia|].
    rewrite (memmove_at _ (hdr T O' L ++ Ab ++ D1) (node_bytes pv m' ++ R) [ZIP_END] (hdr T O' L ++ Ab) Y1 (Y ++ [ZIP_END])).
    + by rewrite <- !app_assoc.
    + by rewrite <- !app_assoc.
    + zlens. rewrite zlen_hdr. unfold p. lia.
    + zlens. rewrite zlen_node. unfold p, B. lia.
    + rewrite <- !app_assoc, (app_assoc Y1), <- EY. by rewrite <- !app_assoc.
    + zlens. by rewrite zlen_hdr.
    + zlens. rewrite zlen_node. lia.
Qed.

(** The part of a deletion after the entries to delete have been found. *)
Definition delete_rest (junk : nat → Z) (pv : Z) (zl : mem) (first_p p totlen deleted : Z) : res mem :=
  b ← rd zl p;
  '(zl, nextdiff) ←
    (if negb (b =? ZIP_END) then
       nextdiff ← zipPrevLenByteDiff zl p pv;
       let p := p - nextdiff in
       '(_, zl) ← zipStorePrevEntryLength zl p pv;
       t ← ZIPLIST_TAIL_OFFSET zl;
       zl ← set_tail zl (t - totlen);
       tail ← zipEntry zl p;
       b ← rd zl (p + u32 (headersize tail + len tail));
       zl ← (if negb (b =? ZIP_END) then t ← ZIPLIST_TAIL_OFFSET zl; set_tail zl (t + nextdiff) else Ok zl);
       n ← ZIPLIST_BYTES zl;
       zl ← memmove zl first_p p (n - p - 1);
       Ok (zl, nextdiff)
     else
       zl ← set_tail zl (first_p - pv);
       Ok (zl, 0));
  n ← ZIPLIST_BYTES zl;
  zl ← ziplistResize junk zl (n - totlen + nextdiff);
  zl ← ZIPLIST_INCR_LENGTH zl (- deleted);
  if negb (nextdiff =? 0) then __ziplistCascadeUpdate junk zl first_p else Ok zl.

(** Deletion in front of entry [m]: the field of [m] is adapted and the rest laid out anew. *)
Lemma delete_move junk L T O Ab D q m post pv p0 k :
  let nd := psize (big pv) - psize (nlarge m) in
  let m' := mkNode (big pv) (nval m) in
  let ns := m' :: fix_nodes (raw m') post in
  node_ok q m → nodes_ok (raw m) post → 0 ≤ zlen D - nd → 0 ≤ pv < 2 ^ 32 → 0 < zlen D → 0 ≤ L ≤ 65535 →
  T = 10 + zlen Ab + zlen D + raw m + size post + 1 → T + 4 * zlen post + 8 < 2 ^ 32 →
  O = 10 + zlen Ab + zlen D + tail_pos (m :: post) → p0 = 10 + zlen Ab →
  delete_rest junk pv (hdr T O L ++ Ab ++ D ++ node_bytes q m ++ nodes_bytes (raw m) post ++ [ZIP_END])
    p0 (10 + zlen Ab + zlen D) (zlen D) k
  = Ok (hdr (p0 + size ns + 1) (p0 + tail_pos ns) (count_incr L (- k)) ++ Ab ++ nodes_bytes pv ns ++ [ZIP_END]).
Proof.
  intros nd m' ns Hm Hpost Hroom Hpv HD0 HL HT Hb HO ->. set (R := nodes_bytes (raw m) post).
  assert (HR : zlen R = size post) by apply zlen_nodes.
  pose proof (raw_bounds m). pose proof (size_nonneg post). pose proof (zlen_nonneg post). pose proof (zlen_nonneg Ab).
  pose proof (tail_pos_bounds (m :: post)) as Htp. cbn [size] in Htp.
  assert (Hraw : raw m' = raw m + nd) by (unfold raw, nd, m'; cbn; lia).
  assert (Hndb : -4 ≤ nd ≤ 4) by (unfold nd; destruct (big pv), (nlarge m); cbn; lia). pose proof (raw_bounds m').
  assert (Hm' : node_ok pv m') by (destruct Hm as (_ & _ & ?); split_and!; [lia|lia|apply big_small|done]).
  unfold delete_rest.
  assert (Hzm : hdr T O L ++ Ab ++ D ++ node_bytes q m ++ R ++ [ZIP_END] = (hdr T O L ++ Ab ++ D) ++ node_bytes q m ++ (R ++ [ZIP_END])) by (by rewrite <- !app_assoc).
  assert (Hpm : 10 + zlen Ab + zlen D = zlen (hdr T O L ++ Ab ++ D)) by (zlens; rewrite zlen_hdr; lia).
  destruct (node_first _ _ _ _ _ _ Hm Hzm Hpm) as (b & -> & _ & Hne & _). res_step. rewrite Hne. cbn [negb].
  unfold zipPrevLenByteDiff. rewrite (node_prevlensize _ _ _ _ _ _ Hm Hzm Hpm), psize_big. do 2 res_step. fold nd.
  destruct (delete_shift T O L Ab D q m R pv (10 + zlen Ab)) as (D1 & HD1 & HS & Hmv); [done|done|]. fold nd m' in HD1, HS, Hmv.
  rewrite HS. res_step. rewrite tail_hdr by lia. res_step. rewrite set_tail_hdr. res_step.
  rewrite (node_entry _ (hdr T (O - zlen D) L ++ Ab ++ D1) (R ++ [ZIP_END]) pv _ m' Hm'); [|by rewrite <- !app_assoc|zlens; rewrite zlen_hdr; lia].
  res_step. cbn [entry_of headersize len]. fold (raw m'). rewrite u32_id by lia.
  assert (Hadj := adjust_tail T (O - zlen D) L (Ab ++ D1) pv m' (raw m) post nd (10 + zlen Ab + zlen D - nd + raw m') Hpost ltac:(lia) ltac:(zlens; lia)).
  fold R in Hadj. apply bind_Ok in Hadj as (b' & E1 & E2). rewrite E1. res_step. rewrite E2. res_step. clear E1 E2.
  set (O2 := if decide (post = []) then O - zlen D else O - zlen D + nd). rewrite bytes_hdr by lia. res_step.
  destruct (Hmv O2) as (Y & HY & E). replace (10 + (zlen Ab + zlen D + raw m + zlen R) - (10 + zlen Ab + zlen D - nd))
    with (T - (10 + zlen Ab + zlen D - nd) - 1) in E by lia. rewrite E. do 2 res_step. rewrite bytes_hdr by lia. res_step.
  rewrite resize_shrink; [|zlens; rewrite zlen_hdr, zlen_node; lia|lia|by intros [_ ?]%app_eq_nil]. res_step.
  rewrite incr_hdr by done. res_step. fold (count_incr L (- k)). rewrite <- !app_assoc.
  apply maybe_cascade; [done|done|lia|lia|lia| |].
  - intros Hne'. unfold O2. rewrite decide_False by done. destruct post; [done|]. cbn [tail_pos] in *. lia.
  - intros ->. unfold O2. rewrite decide_True by done. cbn [tail_pos] in *. lia.
Qed.

Section delete.
  Context (junk : nat → Z) (L : Z) (pre del post : list node) (num : Z).
Let pv := last_raw 0 pre.
  Hypothesis Hok : nodes_ok 0 (pre ++ del ++ post).
  Hypothesis HL : 0 ≤ L ≤ 65535 ∧ (L = 65535 ∨ L = zlen (pre ++ del ++ post)).
  Hypothesis Hb : 11 + size (pre ++ del ++ post) + 4 * zlen post + 8 < 2 ^ 32.
  Hypothesis Hdel : del ≠ [].
  Hypothesis Hnum : zlen del ≤ num ∧ (post = [] ∨ zlen del = num).

Let S := pre ++ del ++ post.

Lemma delete_size : 0 < size del ∧ 0 ≤ size pre ∧ 0 ≤ size post ∧ size S = size pre + size del + size post ∧ 0 ≤ zlen post ∧
  11 + size S + 4 * zlen post + 8 < 2 ^ 32.
Proof.
  pose proof (size_nonneg pre). pose proof (zlen_nonneg pre). pose proof (size_nonneg post). pose proof (zlen_nonneg post).
  assert (0 < size del).
  { destruct del as [|d del']; [done|]. cbn [size]. pose proof (raw_bounds d). pose proof (size_nonneg del'). pose proof (zlen_nonneg del'). lia. }
  split_and!; try lia; [|exact Hb]. unfold S. rewrite !size_app. lia.
Qed.

Lemma delete_start :
  __ziplistDelete junk (blob L S) (10 + size pre) num =
  delete_rest junk pv (blob L S) (10 + size pre) (10 + size pre + size del) (size del) (zlen del).
Proof.
  pose proof delete_size as (H1 & H2 & H3 & H4 & H5 & H6). unfold __ziplistDelete.
  assert (Hfirst : ∃ d del', del = d :: del') by (destruct del as [|d del']; [done|eauto]). destruct Hfirst as (d & del' & Hd).
  assert (E : zipEntry (blob L S) (10 + size pre) = Ok (entry_of pv d)).
  { pose proof Hok as Hok'. unfold S. rewrite Hd in *. cbn [app] in *. apply nodes_ok_app in Hok' as [_ [Hn _]].
    apply (node_entry _ _ _ _ _ _ Hn (node_at L pre d _) (pos_at _ _ _ _)). }
  rewrite E. res_step. unfold S. rewrite (delete_loop_ok L post num del); [|done|change (11 + size S < 2 ^ 32); lia| |lia|destruct Hnum as [_ [?|?]]; [by left|right; lia]].
  - res_step. replace (10 + size pre + size del - (10 + size pre)) with (size del) by lia. rewrite u32_id by lia.
    rewrite Z.gtb_ltb. destruct (Z.ltb_spec 0 (size del)); [|lia]. cbn [entry_of prevrawlen]. done.
  - fold (zlen (blob L (pre ++ del ++ post))). unfold blob. zlens. rewrite zlen_hdr, zlen_nodes. fold S.
    pose proof (size_nonneg del). lia.
Qed.

Lemma delete_count : count_incr L (- zlen del) = L - zlen del ∧ 0 ≤ L - zlen del ∧ L < 65535 ∨ count_incr L (- zlen del) = 65535 ∧ L = 65535.
Proof.
  unfold count_incr. destruct HL as [? HL']. destruct (Z.ltb_spec L 65535); [left|right; lia]. split_and!; [lia| |done].
  destruct HL' as [|HL']; [lia|]. rewrite HL'. zlens. pose proof (zlen_nonneg pre). pose proof (zlen_nonneg post). lia.
Qed.

Lemma delete_tail : post = [] →
  delete_rest junk pv (blob L S) (10 + size pre) (10 + size pre + size del) (size del) (zlen del) = Ok (blob (count_incr L (- zlen del)) pre).
Proof.
  intros Hp. pose proof delete_size as (H1 & H2 & H3 & H4 & H5 & H6). unfold delete_rest.
  assert (Hs : size S = size pre + size del) by (rewrite H4, Hp; cbn; lia).
  replace (10 + size pre + size del) with (10 + size S) by lia. rewrite blob_end. res_step. change (negb (ZIP_END =? ZIP_END)) with false. cbv iota.
  unfold blob at 1. rewrite set_tail_hdr. do 2 res_step. rewrite bytes_hdr by lia. res_step.
  unfold S at 2. rewrite Hp, app_nil_r, nodes_bytes_app, <- app_assoc.
  rewrite (resize_shrink junk _ _ _ (nodes_bytes 0 pre)); [|zlens; rewrite zlen_hdr, zlen_nodes; lia|lia|by intros [_ ?]%app_eq_nil]. res_step.
  rewrite incr_hdr by lia. res_step. change (negb (0 =? 0)) with false. cbv iota. fold (count_incr L (- zlen del)). f_equal.
  unfold blob. rewrite tail_pos_last. fold pv. f_equal. f_equal; lia.
Qed.

(** There is room for the field of the next entry. *)
Lemma delete_room m : 0 ≤ size del - (psize (big pv) - psize (nlarge m)).
Proof.
  pose proof delete_size as (H1 & _). destruct (big pv) eqn:Hbig; [|cbn; destruct (nlarge m); cbn; lia].
  pose proof Hok as [_ [Hd _]%nodes_ok_app]%nodes_ok_app. fold pv in Hd. destruct del as [|d del']; [done|]. destruct Hd as [(_ & Hd & _) _].
  pose proof (size_nonneg del'). pose proof (zlen_nonneg del'). cbn [size]. unfold raw.
  pose proof (val_hdr_size (nval d)). pose proof (zlen_nonneg (val_data (nval d))).
  destruct (nlarge d) eqn:Hl; [cbn; destruct (nlarge m); cbn; lia|]. apply big_small in Hd; [congruence|done].
Qed.

Lemma delete_middle m post' : post = m :: post' →
  delete_rest junk pv (blob L S) (10 + size pre) (10 + size pre + size del) (size del) (zlen del)
  = Ok (blob (count_incr L (- zlen del)) (pre ++ delete_post pv post)).
Proof.
  intros Hp. pose proof delete_size as (H1 & H2 & H3 & H4 & H5 & H6). pose proof (delete_room m) as Hroom.
  pose proof Hok as Hok'. rewrite app_assoc, Hp in Hok'. apply nodes_ok_app in Hok' as [_ [Hm Hpost]].
  pose proof (last_raw_bound pre) as Hpv. fold pv in Hpv. pose proof (raw_bounds m). pose proof (size_nonneg post'). pose proof (zlen_nonneg post').
  assert (HS : size S = size pre + size del + (raw m + size post')) by (rewrite H4, Hp; done).
  assert (Hblob : blob L S = hdr (11 + size S) (10 + tail_pos S) L ++ nodes_bytes 0 pre ++ nodes_bytes pv del ++
    node_bytes (last_raw 0 (pre ++ del)) m ++ nodes_bytes (raw m) post' ++ [ZIP_END]).
  { unfold blob. f_equal. unfold S. rewrite Hp, app_assoc, nodes_bytes_app, nodes_bytes_app. fold pv. cbn [nodes_bytes]. by rewrite <- !app_assoc. }
  assert (HO : tail_pos S = size pre + size del + tail_pos (m :: post')).
  { unfold S. rewrite app_assoc, Hp, tail_pos_app by done. rewrite size_app. lia. }
  rewrite Hblob. rewrite Hp, zlen_cons in H6.
  assert (E := delete_move junk L (11 + size S) (10 + tail_pos S) (nodes_bytes 0 pre) (nodes_bytes pv del)
    (last_raw 0 (pre ++ del)) m post' pv (10 + size pre) (zlen del)). cbv zeta in E. rewrite !zlen_nodes in E.
  rewrite E; try done; try lia; [].
  f_equal. unfold blob. rewrite Hp. cbn [delete_post]. set (ns := mkNode (big pv) (nval m) :: _).
  rewrite nodes_bytes_app, size_app, tail_pos_app by done. fold pv. rewrite <- app_assoc. f_equal. f_equal; lia.
Qed.

Lemma delete_nodes :
  __ziplistDelete junk (blob L S) (10 + size pre) num = Ok (blob (count_incr L (- zlen del)) (pre ++ delete_post pv post)).
Proof.
  rewrite delete_start. pose proof delete_tail as Ht. pose proof delete_middle as Hm.
  destruct post as [|m post'] eqn:Ep; [rewrite app_nil_r; by apply Ht|by apply (Hm m post')].
Qed.
End delete.
