(* ===== verification/ZiplistOps.v ===== *)
(** The interface of ziplist.h on well-formed ziplists: a program that moves a pointer
    through a list, inserts, deletes, looks up and compares has, on the bytes, the results
    it has on a list of entries as src/src/t_hash.c uses it (file Hash); and the merge. *)
From S2P Require Import Prelude CString Util Sds Keys Hash Ziplist ZiplistSpec.
Local Open Scope Z_scope.

(** * Entries and their values *)

Definition to_val (e : zentry) : zvalue := match e with ZStr s => ZVStr (code <$> s) | ZInt v => ZVInt v end.

Lemma tryEncoding_value s : fst <$> Ziplist.zipTryEncoding s = Hash.zipTryEncoding s.
Proof. unfold Ziplist.zipTryEncoding, Hash.zipTryEncoding. destruct (_ || _); [done|]. by destruct (string2ll s). Qed.

Lemma val_of_entry s : val_of s = to_val (zip_entry s).
Proof.
  unfold val_of, zip_entry. rewrite <- tryEncoding_value. by destruct (Ziplist.zipTryEncoding s) as [[v e]|].
Qed.

(** The bytes an entry can take at most, and a list of them; the cascades have room in it. *)
Definition room (e : zentry) : Z := 16 + match e with ZStr s => Z.of_nat (length s) | ZInt _ => 8 end.
Fixpoint rooms (es : list zentry) : Z := match es with [] => 0 | e :: es => room e + rooms es end.
Definition cap (es : list zentry) : Z := 64 + rooms es.

Lemma rooms_app a b : rooms (a ++ b) = rooms a + rooms b.
Proof. induction a as [|e a IH]; cbn; [done|]. rewrite IH. lia. Qed.

Lemma rooms_nonneg es : 16 * zlen es ≤ rooms es.
Proof. induction es as [|e es IH]; [done|]. cbn [rooms]. rewrite zlen_cons. unfold room. destruct e; lia. Qed.

Lemma raw_room n e : nval n = to_val e → val_ok (nval n) → raw n + 6 ≤ room e.
Proof.
  intros E Hv. pose proof (raw_bounds n). unfold room. destruct e as [s|v]; rewrite E in *; cbn [to_val val_data val_ok] in *.
  - rewrite zlen_code in *. lia.
  - destruct (int_bytes_ok v Hv) as (_ & _ & _ & _ & ?). lia.
Qed.

Lemma nodes_ok_vals pv ns : nodes_ok pv ns → Forall (λ n, val_ok (nval n)) ns.
Proof. revert pv. induction ns as [|n ns IH]; intros pv; [by constructor|]. cbn. intros [(_ & _ & ?) ?]. constructor; eauto. Qed.

Lemma size_rooms ns es : nval <$> ns = to_val <$> es → Forall (λ n, val_ok (nval n)) ns → size ns + 6 * zlen ns ≤ rooms es.
Proof.
  revert es. induction ns as [|n ns IH]; intros [|e es] E Hv; try done. cbn in E. injection E as E E'.
  apply Forall_cons in Hv as [Hn Hv]. cbn [size rooms]. rewrite zlen_cons. pose proof (raw_room n e E Hn). specialize (IH es E' Hv). lia.
Qed.

(** * Representation *)

(** Buffer [zl] is a ziplist of the entries [es], laid out as [ns]. *)
Record laid_out (zl : mem) (es : list zentry) (ns : list node) : Prop := {
  lo_blob : ∃ L, zl = blob L ns ∧ count_ok L ns;
  lo_ok : nodes_ok 0 ns;
  lo_vals : nval <$> ns = to_val <$> es;
  lo_cap : cap es < 2 ^ 32;
}.

Definition pos (ns : list node) (i : nat) : Z := 10 + size (take i ns).

Lemma lo_size zl es ns : laid_out zl es ns → 11 + size ns + 4 * zlen ns + 8 < 2 ^ 32 ∧ length ns = length es ∧ zlen ns * 16 < 2 ^ 32.
Proof.
  intros [(L & _ & _) Hok Hv Hc]. unfold cap in Hc. pose proof (size_rooms ns es Hv (nodes_ok_vals 0 ns Hok)).
  pose proof (rooms_nonneg es). pose proof (zlen_nonneg ns).
  assert (Hl : length ns = length es) by (apply (f_equal length) in Hv; by rewrite !length_fmap in Hv).
  unfold zlen in *. rewrite Hl in *. lia.
Qed.

Lemma lo_lookup zl es ns i e : laid_out zl es ns → es !! i = Some e →
  ∃ pre m post, ns = pre ++ m :: post ∧ length pre = i ∧ nval m = to_val e ∧ pos ns i = 10 + size pre.
Proof.
  intros Hlo He. pose proof (lo_vals _ _ _ Hlo) as Hv. assert (Hi : (nval <$> ns) !! i = Some (to_val e)) by (by rewrite Hv, list_lookup_fmap, He).
  rewrite list_lookup_fmap in Hi. destruct (ns !! i) as [m|] eqn:Em; [|done]. injection Hi as Hi.
  exists (take i ns), m, (drop (S i) ns). pose proof (lookup_lt_Some _ _ _ Em). rewrite length_take.
  split_and!; [by rewrite take_drop_middle|lia|done|done].
Qed.

(** The position of an entry, or of the end, splits the list. *)
Lemma lo_split zl es ns i : laid_out zl es ns → (i ≤ length es)%nat →
  ∃ pre post, ns = pre ++ post ∧ length pre = i ∧ pos ns i = 10 + size pre.
Proof.
  intros Hlo Hi. destruct (lo_size _ _ _ Hlo) as (_ & Hl & _). exists (take i ns), (drop i ns).
  rewrite take_drop, length_take. split_and!; [done|lia|done].
Qed.

Lemma vals_split (pre post : list node) es i : nval <$> (pre ++ post) = to_val <$> es → length pre = i →
  nval <$> pre = to_val <$> take i es ∧ nval <$> post = to_val <$> drop i es.
Proof.
  intros E <-. rewrite fmap_app in E. rewrite <- (take_drop (length pre) es), fmap_app in E.
  apply app_inj_1 in E; [done|]. rewrite !length_fmap, length_take.
  assert (Hl : length (nval <$> pre ++ post) = length (to_val <$> es)) by (rewrite fmap_app, E, <- fmap_app; by rewrite take_drop).
  rewrite !length_fmap, length_app in Hl. lia.
Qed.

Lemma pos_app pre post : pos (pre ++ post) (length pre) = 10 + size pre.
Proof. unfold pos. by rewrite take_app_length. Qed.

Lemma room_entry s : Z.of_nat (length s) ≤ room (zip_entry s) + 8.
Proof.
  unfold zip_entry, Hash.zipTryEncoding, room. destruct (Nat.leb_spec 32 (length s)); cbn [orb]; [lia|].
  destruct (if (length s =? 0)%nat then None else string2ll s); lia.
Qed.

Lemma lo_insert junk zl es ns i s : laid_out zl es ns → (i ≤ length es)%nat → cap (Hash.ziplistInsert es i s) < 2 ^ 32 →
  ∃ zl' ns', Ziplist.ziplistInsert junk zl (pos ns i) s = Ok zl' ∧ laid_out zl' (Hash.ziplistInsert es i s) ns' ∧ pos ns' i = pos ns i.
Proof.
  intros Hlo Hi Hc. destruct (lo_size _ _ _ Hlo) as (Hs & Hl & _). destruct (lo_split _ _ _ i Hlo Hi) as (pre & post & -> & Hpre & ->).
  pose proof Hlo as [(L & -> & HL) Hok Hv Hcap]. unfold cap, Hash.ziplistInsert in Hc. rewrite rooms_app in Hc. cbn [rooms] in Hc.
  pose proof (rooms_nonneg (take i es)). pose proof (rooms_nonneg (drop i es)). pose proof (zlen_nonneg (take i es)). pose proof (zlen_nonneg (drop i es)).
  assert (Hslen : Z.of_nat (length s) < 2 ^ 32) by (pose proof (room_entry s); lia).
  assert (Hnew : raw (new_node pre s) + 6 ≤ room (zip_entry s)).
  { apply raw_room; [cbn; apply val_of_entry|by apply val_of_ok]. }
  destruct (vals_split pre post es i Hv Hpre) as [Hv1 Hv2]. pose proof Hok as [Hok1 Hok2]%nodes_ok_app.
  pose proof (size_rooms _ _ Hv1 (nodes_ok_vals _ _ Hok1)). pose proof (size_rooms _ _ Hv2 (nodes_ok_vals _ _ Hok2)).
  pose proof (zlen_nonneg pre). pose proof (zlen_nonneg post). pose proof (size_nonneg pre). pose proof (size_nonneg post).
  pose proof (last_raw_bound pre) as Hpv. pose proof (raw_bounds (new_node pre s)).
  unfold Ziplist.ziplistInsert. rewrite insert_nodes; [|done|by destruct HL|rewrite size_app; lia].
  eexists _, _. split; [done|]. split; [|rewrite <- Hpre; apply pos_app]. split.
  - exists (count_incr L 1). split; [done|]. destruct HL as [HL1 HL2]. unfold count_incr, count_ok.
    assert (Hz : zlen (pre ++ new_node pre s :: insert_post (raw (new_node pre s)) post) = zlen (pre ++ post) + 1).
    { zlens. pose proof (f_equal length (insert_post_vals (raw (new_node pre s)) post)) as Hlen. rewrite !length_fmap in Hlen. unfold zlen. lia. }
    rewrite Hz. destruct (Z.ltb_spec L 65535); lia.
  - apply nodes_ok_app. split; [done|]. split.
    + split_and!; [lia|lia|apply big_small|by apply val_of_ok].
    + eapply insert_post_ok; [done|lia|lia].
  - unfold Hash.ziplistInsert. rewrite !fmap_app, Hv1. cbn [fmap list_fmap]. by rewrite <- val_of_entry, insert_post_vals, Hv2.
  - unfold cap, Hash.ziplistInsert. rewrite rooms_app. cbn [rooms]. lia.
Qed.

Lemma delete_post_ok pv q post : nodes_ok q post → 0 ≤ pv < 2 ^ 32 → size post + 4 * zlen post + 4 < 2 ^ 32 → nodes_ok pv (delete_post pv post).
Proof.
  intros Hok Hpv Hs. destruct post as [|m post]; [done|]. destruct Hok as [(_ & _ & Hm) Hok]. cbn [delete_post nodes_ok size] in *. rewrite zlen_cons in Hs.
  pose proof (size_nonneg post). pose proof (zlen_nonneg post). pose proof (raw_bounds m). pose proof (raw_bounds (mkNode (big pv) (nval m))).
  assert (raw (mkNode (big pv) (nval m)) ≤ raw m + 4) by (unfold raw; cbn; unfold psize; destruct (big pv), (nlarge m); lia).
  split; [split_and!; [lia|lia|apply big_small|done]|]. eapply fix_nodes_ok; [done|lia|lia].
Qed.

(** Deletion of up to [num] entries from position [i] on. *)
Lemma lo_delete junk zl es ns i num : laid_out zl es ns → (i < length es)%nat → (0 < num)%nat →
  ∃ zl' ns', __ziplistDelete junk zl (pos ns i) (Z.of_nat num) = Ok zl' ∧
    laid_out zl' (take i es ++ drop (i + num) es) ns' ∧ pos ns' i = pos ns i.
Proof.
  intros Hlo Hi Hn. destruct (lo_size _ _ _ Hlo) as (Hs & Hl & _). pose proof Hlo as [(L & -> & HL) Hok Hv Hcap].
  set (pre := take i ns). set (del := take num (drop i ns)). set (post := drop (i + num) ns).
  assert (Ens : ns = pre ++ del ++ post).
  { unfold pre, del, post. by rewrite <- drop_drop, take_drop, take_drop. }
  assert (Hpre : length pre = i) by (unfold pre; rewrite length_take; lia).
  assert (Hdel : length del = min num (length ns - i)) by (unfold del; by rewrite length_take, length_drop).
  assert (Hpos : pos ns i = 10 + size pre) by done. rewrite Hpos. rewrite Ens in Hok, Hv, HL, Hs |- *.
  pose proof Hok as [Hok1 [Hok2 Hok3]%nodes_ok_app]%nodes_ok_app. pose proof (last_raw_bound pre) as Hpv.
  rewrite !size_app in Hs. rewrite !zlen_app in Hs.
  pose proof (zlen_nonneg pre). pose proof (zlen_nonneg post). pose proof (zlen_nonneg del).
  pose proof (size_nonneg pre). pose proof (size_nonneg post). pose proof (size_nonneg del).
  assert (Hz : zlen del ≤ Z.of_nat num) by (unfold zlen; rewrite Hdel; lia).
  rewrite delete_nodes; [|done|done|rewrite !size_app; lia|intros E; rewrite E in Hdel; cbn in Hdel; lia|].
  2: { split; [done|]. destruct (decide (num ≤ length ns - i)%nat); [right; unfold zlen; rewrite Hdel; lia|].
       left. unfold post. apply drop_ge. lia. }
  destruct (vals_split pre (del ++ post) es i Hv Hpre) as [Hv1 Hv2].
  assert (Hv3 : nval <$> post = to_val <$> drop (i + num) es).
  { transitivity (drop num (nval <$> (del ++ post))); [|by rewrite Hv2, <- fmap_drop, drop_drop].
    rewrite <- fmap_drop. f_equal. unfold post, del. by rewrite <- drop_drop, take_drop. }
  eexists _, _. split; [done|]. split; [|rewrite <- Hpre; apply pos_app]. split.
  - exists (count_incr L (- zlen del)). split; [done|]. destruct HL as [HL1 HL2]. unfold count_incr, count_ok.
    assert (Hz' : zlen (pre ++ delete_post (last_raw 0 pre) post) = zlen (pre ++ del ++ post) - zlen del).
    { zlens. pose proof (f_equal length (delete_post_vals (last_raw 0 pre) post)) as Hlen. rewrite !length_fmap in Hlen. unfold zlen. lia. }
    rewrite Hz'. revert HL2. zlens. intros HL2. destruct (Z.ltb_spec L 65535); lia.
  - apply nodes_ok_app. split; [done|]. eapply delete_post_ok; [done|lia|lia].
  - by rewrite !fmap_app, delete_post_vals, Hv1, Hv3.
  - unfold cap in *. rewrite <- (take_drop i es), rooms_app in Hcap. rewrite rooms_app, <- drop_drop.
    rewrite <- (take_drop num (drop i es)), rooms_app in Hcap. pose proof (rooms_nonneg (take num (drop i es))). unfold zlen in *. lia.
Qed.

(** * Reading *)

Lemma lo_node zl es ns i e : laid_out zl es ns → es !! i = Some e →
  ∃ A C pv m, node_ok pv m ∧ zl = A ++ node_bytes pv m ++ C ∧ pos ns i = zlen A ∧ nval m = to_val e ∧ raw m < 2 ^ 32 ∧
    pos ns (S i) = pos ns i + raw m ∧ pv = pos ns i - pos ns (pred i).
Proof.
  intros Hlo He. destruct (lo_size _ _ _ Hlo) as (Hs & _ & _).
  destruct (lo_lookup _ _ _ _ _ Hlo He) as (pre & m & post & -> & Hi & Hm & Hpos). pose proof Hlo as [(L & -> & HL) Hok Hv Hcap].
  pose proof Hok as [_ [Hn _]]%nodes_ok_app. rewrite size_app in Hs. cbn [size] in Hs.
  pose proof (size_nonneg pre). pose proof (zlen_nonneg pre). pose proof (size_nonneg post). pose proof (zlen_nonneg post).
  pose proof (zlen_nonneg (pre ++ m :: post)).
  eexists _, _, _, m. split; [exact Hn|]. split; [apply node_at|]. split_and!; [rewrite Hpos; apply pos_at|done|lia| |].
  - unfold pos. subst i. rewrite take_app_length. change (S (length pre)) with (1 + length pre)%nat.
    rewrite Nat.add_comm, take_app_add. cbn. rewrite take_0, size_app. cbn. lia.
  - rewrite Hpos. unfold pos. subst i. destruct pre as [|k pre _] using rev_ind; [done|].
    rewrite length_app. cbn [length]. replace (pred (length pre + 1)) with (length pre) by lia.
    rewrite <- app_assoc, take_app_length, size_app. unfold last_raw. rewrite last_snoc. cbn. lia.
Qed.

Lemma lo_end zl es ns : laid_out zl es ns → rd zl (pos ns (length es)) = Ok ZIP_END ∧ pos ns (length es) = zlen zl - 1.
Proof.
  intros Hlo. destruct (lo_size _ _ _ Hlo) as (_ & Hl & _). pose proof Hlo as [(L & -> & _) _ _ _].
  unfold pos. rewrite <- Hl, firstn_all. split; [apply blob_end|]. unfold blob. zlens. rewrite zlen_hdr, zlen_nodes. lia.
Qed.

Lemma lo_first zl es ns i e : laid_out zl es ns → es !! i = Some e →
  ∃ b, rd zl (pos ns i) = Ok b ∧ (b =? ZIP_END) = false.
Proof.
  intros Hlo He. destruct (lo_node _ _ _ _ _ Hlo He) as (A & C & pv & m & Hm & Hzl & Hp & _).
  destruct (node_first _ _ _ _ _ _ Hm Hzl Hp) as (b & ? & _ & ? & _). eauto.
Qed.

Lemma lo_raw zl es ns i e : laid_out zl es ns → es !! i = Some e →
  zipRawEntryLength zl (pos ns i) = Ok (pos ns (S i) - pos ns i).
Proof.
  intros Hlo He. destruct (lo_node _ _ _ _ _ Hlo He) as (A & C & pv & m & Hm & Hzl & Hp & _ & Hr & Hs & _).
  rewrite (node_raw _ _ _ _ _ _ Hm Hzl Hp Hr). f_equal. lia.
Qed.

(** The position of an entry grows by at least two bytes per entry. *)
Lemma pos_grows zl es ns i e : laid_out zl es ns → es !! i = Some e → pos ns i + 2 ≤ pos ns (S i).
Proof.
  intros Hlo He. destruct (lo_node _ _ _ _ _ Hlo He) as (A & C & pv & m & _ & _ & _ & _ & _ & -> & _). pose proof (raw_bounds m). lia.
Qed.

Lemma lo_value zl es ns i e : laid_out zl es ns → es !! i = Some e →
  ∃ en, zipEntry zl (pos ns i) = Ok en ∧ ZIP_IS_STR (encoding en) = is_str (to_val e) ∧
    len en = zlen (val_data (to_val e)) ∧
    rd_bytes zl (pos ns i + headersize en) (len en) = Ok (val_data (to_val e)) ∧
    (∀ v, e = ZInt v → zipLoadInteger zl (pos ns i + headersize en) (encoding en) = Ok v) ∧
    ZIP_DECODE_PREVLENSIZE zl (pos ns i) = Ok (prevrawlensize en) ∧
    ZIP_DECODE_LENGTH zl (pos ns i + prevrawlensize en) = Ok (encoding en, lensize en, len en) ∧
    headersize en = prevrawlensize en + lensize en ∧ pos ns i + headersize en + len en = pos ns (S i).
Proof.
  intros Hlo He. destruct (lo_node _ _ _ _ _ Hlo He) as (A & C & pv & m & Hm & Hzl & Hp & Hv & Hr & Hs & _).
  exists (entry_of pv m). rewrite (node_entry _ _ _ _ _ _ Hm Hzl Hp). cbn [entry_of encoding headersize len prevrawlensize lensize].
  pose proof (node_data zl A C pv (pos ns i) m Hzl Hp) as Hd. pose proof Hm as (_ & _ & Hok). rewrite <- Hv.
  split_and!; [done|by apply val_enc_str|done|done| |by eapply node_prevlensize|by eapply node_length|done|].
  - intros v ->. rewrite Hv in *. cbn [to_val val_ok val_data val_enc] in *. by apply zipLoadInteger_ok.
  - rewrite Hs. unfold raw. lia.
Qed.

Lemma lo_get zl es ns i : laid_out zl es ns → (i ≤ length es)%nat →
  ziplistGet zl (Some (pos ns i)) = Ok (to_val <$> es !! i).
Proof.
  intros Hlo Hi. unfold ziplistGet. destruct (es !! i) as [e|] eqn:He.
  - destruct (lo_first _ _ _ _ _ Hlo He) as (b & -> & Hb). res_step. rewrite Hb.
    destruct (lo_value _ _ _ _ _ Hlo He) as (en & -> & Hs & Hl & Hd & Hint & _). res_step. rewrite Hs.
    destruct e as [s|v]; cbn [to_val is_str] in *; [rewrite Hd; by res_step|]. rewrite (Hint v eq_refl). by res_step.
  - apply lookup_ge_None in He. assert (i = length es) as -> by lia. destruct (lo_end _ _ _ Hlo) as [-> _]. by res_step.
Qed.

Lemma str_equal (s t : bytes) : bool_decide ((code <$> s) = (code <$> t)) = bool_decide (s = t).
Proof.
  apply bool_decide_ext. split; [|by intros ->]. revert t. induction s as [|c s IH]; intros [|c' t]; try done.
  cbn. intros [= Hc Hs]. by rewrite (code_inj c c' Hc), (IH t Hs).
Qed.

(** The comparison of an entry with a string. *)
Lemma value_equal zl p l s t : rd_bytes zl p l = Ok (code <$> s) → l = zlen (code <$> s) →
  (if l =? Z.of_nat (length t) then x ← rd_bytes zl p (Z.of_nat (length t)); Ok (bool_decide (x = code <$> t)) else Ok false)
  = Ok (bool_decide (s = t)).
Proof.
  intros Hr Hl. destruct (Z.eqb_spec l (Z.of_nat (length t))) as [E|E].
  - rewrite <- E, Hr. res_step. by rewrite str_equal.
  - rewrite bool_decide_eq_false_2; [done|]. intros ->. rewrite zlen_code in Hl. lia.
Qed.

Lemma lo_compare zl es ns i e t : laid_out zl es ns → es !! i = Some e →
  ziplistCompare zl (pos ns i) t = Ok (zip_equal e t).
Proof.
  intros Hlo He. unfold ziplistCompare. destruct (lo_first _ _ _ _ _ Hlo He) as (b & -> & Hb). res_step. rewrite Hb.
  destruct (lo_value _ _ _ _ _ Hlo He) as (en & -> & Hs & Hl & Hd & Hint & _). res_step. rewrite Hs.
  destruct e as [s|v]; cbn [to_val is_str zip_equal] in *; [by apply (value_equal zl _ _ s t)|].
  rewrite <- tryEncoding_value. destruct (Ziplist.zipTryEncoding t) as [[sv e]|]; [|done]. rewrite (Hint v eq_refl). by res_step.
Qed.

Lemma lo_next zl es ns i : laid_out zl es ns → (i ≤ length es)%nat →
  Ziplist.ziplistNext zl (pos ns i) = Ok (pos ns <$> Hash.ziplistNext es i).
Proof.
  intros Hlo Hi. unfold Ziplist.ziplistNext, Hash.ziplistNext. destruct (es !! i) as [e|] eqn:He.
  - destruct (lo_first _ _ _ _ _ Hlo He) as (b & -> & Hb). res_step. rewrite Hb. rewrite (lo_raw _ _ _ _ _ Hlo He). res_step.
    replace (pos ns i + (pos ns (S i) - pos ns i)) with (pos ns (S i)) by lia. apply lookup_lt_Some in He.
    destruct (Nat.ltb_spec (S i) (length es)) as [Hlt|Hge].
    + destruct (lookup_lt_is_Some_2 es (S i) Hlt) as [e' He']. destruct (lo_first _ _ _ _ _ Hlo He') as (b' & -> & Hb'). res_step. by rewrite Hb'.
    + replace (S i) with (length es) by lia. destruct (lo_end _ _ _ Hlo) as [-> _]. by res_step.
  - apply lookup_ge_None in He. assert (i = length es) as -> by lia. destruct (lo_end _ _ _ Hlo) as [-> _]. res_step.
    destruct (Nat.ltb_spec (S (length es)) (length es)); [lia|done].
Qed.

Lemma lo_tail zl es ns : laid_out zl es ns → ZIPLIST_TAIL_OFFSET zl = Ok (pos ns (pred (length es))).
Proof.
  intros Hlo. destruct (lo_size _ _ _ Hlo) as (Hs & Hl & _). pose proof Hlo as [(L & -> & _) _ _ _]. pose proof (zlen_nonneg ns).
  rewrite tail_blob by lia. f_equal. rewrite <- Hl. unfold pos. destruct ns as [|n ns _] using rev_ind; [done|].
  rewrite tail_pos_snoc, length_app. cbn [length]. replace (pred (length ns + 1)) with (length ns) by lia. by rewrite take_app_length.
Qed.

Lemma pos_le zl es ns i j : laid_out zl es ns → (i ≤ j ≤ length es)%nat → pos ns i + 2 * Z.of_nat (j - i) ≤ pos ns j.
Proof.
  intros Hlo [Hij Hj]. induction Hij as [|j Hij IH]; [lia|]. destruct (lookup_lt_is_Some_2 es j ltac:(lia)) as [e He].
  pose proof (pos_grows _ _ _ _ _ Hlo He). specialize (IH ltac:(lia)). lia.
Qed.

Lemma pos_0 ns : pos ns 0 = 10.
Proof. unfold pos. by rewrite take_0. Qed.

Lemma lo_prevlen zl es ns i e : laid_out zl es ns → es !! i = Some e →
  ∃ sz, ZIP_DECODE_PREVLEN zl (pos ns i) = Ok (sz, pos ns i - pos ns (pred i)).
Proof.
  intros Hlo He. destruct (lo_node _ _ _ _ _ Hlo He) as (A & C & pv & m & Hm & Hzl & Hp & _ & _ & _ & <-).
  eexists. by rewrite (node_prevlen _ _ _ _ _ _ Hm Hzl Hp).
Qed.

Definition zip_prev (i : nat) : option nat := match i with O => None | S j => Some j end.

Lemma lo_prev zl es ns i : laid_out zl es ns → (i ≤ length es)%nat →
  ziplistPrev zl (pos ns i) = Ok (pos ns <$> zip_prev i).
Proof.
  intros Hlo Hi. unfold ziplistPrev. destruct (es !! i) as [e|] eqn:He.
  - destruct (lo_first _ _ _ _ _ Hlo He) as (b & -> & Hb). res_step. rewrite Hb. destruct i as [|j]; [by rewrite pos_0|].
    pose proof (pos_le _ _ _ j (S j) Hlo ltac:(lia)). pose proof (pos_le _ _ _ 0 (S j) Hlo ltac:(lia)) as Hle0. rewrite pos_0 in Hle0.
    unfold ZIPLIST_ENTRY_HEAD, ZIPLIST_HEADER_SIZE. destruct (Z.eqb_spec (pos ns (S j)) 10); [lia|].
    destruct (lo_prevlen _ _ _ _ _ Hlo He) as (sz & ->). res_step. cbn [pred]. rewrite Z.gtb_ltb.
    destruct (Z.ltb_spec 0 (pos ns (S j) - pos ns j)); [|lia]. cbn [assert]. res_step. cbn. do 2 f_equal. lia.
  - apply lookup_ge_None in He. assert (i = length es) as -> by lia. destruct (lo_end _ _ _ Hlo) as [E _]. rewrite E. res_step.
    unfold ZIPLIST_ENTRY_TAIL. rewrite (lo_tail _ _ _ Hlo). res_step. destruct (length es) as [|j] eqn:Ej; cbn [pred].
    + rewrite E. by res_step.
    + destruct (lookup_lt_is_Some_2 es j ltac:(lia)) as [e' He']. destruct (lo_first _ _ _ _ _ Hlo He') as (b & -> & Hb). res_step. by rewrite Hb.
Qed.

(** * Indices *)

Lemma index_forward_ok zl es ns : laid_out zl es ns → ∀ fuel i k, (i ≤ length es)%nat → (length es - i ≤ fuel)%nat → 0 ≤ k →
  index_forward fuel zl (pos ns i) k =
    if k <? Z.of_nat (length es - i) then Ok (pos ns (i + Z.to_nat k), -1) else Ok (pos ns (length es), k - Z.of_nat (length es - i)).
Proof.
  intros Hlo. induction fuel as [|f IH]; intros i k Hi Hf Hk; cbn [index_forward].
  - assert (i = length es) as -> by lia. destruct (lo_end _ _ _ Hlo) as [-> _]. res_step. change (negb (ZIP_END =? ZIP_END)) with false. cbv iota.
    replace (length es - length es)%nat with 0%nat by lia. change (Z.of_nat 0) with 0. destruct (Z.ltb_spec k 0); [lia|]. do 2 f_equal. lia.
  - destruct (es !! i) as [e|] eqn:He.
    + destruct (lo_first _ _ _ _ _ Hlo He) as (b & -> & Hb). res_step. rewrite Hb. cbn [negb]. apply lookup_lt_Some in He as Hlt.
      destruct (Z.eqb_spec k 0) as [->|Hk0].
      * destruct (Z.ltb_spec 0 (Z.of_nat (length es - i))); [|lia]. do 3 f_equal. lia.
      * rewrite (lo_raw _ _ _ _ _ Hlo He). res_step. replace (pos ns i + (pos ns (S i) - pos ns i)) with (pos ns (S i)) by lia.
        rewrite IH by lia. destruct (Z.ltb_spec (k - 1) (Z.of_nat (length es - S i))), (Z.ltb_spec k (Z.of_nat (length es - i))); try lia.
        -- do 3 f_equal. lia.
        -- do 2 f_equal. lia.
    + apply lookup_ge_None in He. assert (i = length es) as -> by lia. destruct (lo_end _ _ _ Hlo) as [-> _]. res_step. change (negb (ZIP_END =? ZIP_END)) with false. cbv iota.
      replace (length es - length es)%nat with 0%nat by lia. change (Z.of_nat 0) with 0. destruct (Z.ltb_spec k 0); [lia|]. do 2 f_equal. lia.
Qed.

Lemma index_back_ok zl es ns : laid_out zl es ns → ∀ fuel i k, (i < length es)%nat → (i ≤ fuel)%nat → 0 ≤ k →
  ∃ k', index_back fuel zl (pos ns i) (pos ns i - pos ns (pred i)) k = Ok (pos ns (i - Z.to_nat k), k') ∧
    (k' > 0 ↔ Z.of_nat i < k).
Proof.
  intros Hlo. induction fuel as [|f IH]; intros i k Hi Hf Hk; cbn [index_back]; rewrite Z.gtb_ltb.
  - assert (i = 0%nat) as -> by lia. cbn [pred]. rewrite Z.sub_diag. change (0 <? 0) with false. cbv iota. exists k. split; [done|lia].
  - destruct i as [|j]; cbn [pred].
    + rewrite Z.sub_diag. change (0 <? 0) with false. cbv iota. exists k. split; [done|lia].
    + pose proof (pos_le _ _ _ j (S j) Hlo ltac:(lia)). destruct (Z.ltb_spec 0 (pos ns (S j) - pos ns j)); [|lia].
      destruct (Z.eqb_spec k 0) as [->|Hk0]; [exists (-1); split; [by rewrite Nat.sub_0_r|lia]|].
      replace (pos ns (S j) - (pos ns (S j) - pos ns j)) with (pos ns j) by lia.
      destruct (lookup_lt_is_Some_2 es j ltac:(lia)) as [e He]. destruct (lo_prevlen _ _ _ _ _ Hlo He) as (sz & ->). res_step.
      destruct (IH j (k - 1)) as (k' & -> & Hk'); [lia|lia|lia|]. exists k'. split; [do 3 f_equal; lia|lia].
Qed.

(** The entry with a given index; a negative index counts from the end. *)
Definition zip_index (n : nat) (k : Z) : option nat :=
  if k <? 0 then if - k <=? Z.of_nat n then Some (Z.to_nat (Z.of_nat n + k)) else None
  else if k <? Z.of_nat n then Some (Z.to_nat k) else None.

Lemma fuel_enough zl es ns : laid_out zl es ns → (length es < length zl)%nat.
Proof.
  intros Hlo. destruct (lo_end _ _ _ Hlo) as [_ E]. pose proof (pos_le _ _ _ 0 (length es) Hlo ltac:(lia)) as Hle. rewrite pos_0 in Hle.
  unfold zlen in E. lia.
Qed.

Lemma lo_index zl es ns k : laid_out zl es ns → INT_MIN < k ≤ INT_MAX →
  ziplistIndex zl k = Ok (pos ns <$> zip_index (length es) k).
Proof.
  intros Hlo Hk. pose proof (fuel_enough _ _ _ Hlo) as Hfuel. unfold ziplistIndex, zip_index. destruct (Z.ltb_spec k 0) as [Hneg|Hpos].
  - rewrite to_int_id by (unfold INT_MIN, INT_MAX in *; lia). unfold ZIPLIST_ENTRY_TAIL. rewrite (lo_tail _ _ _ Hlo). res_step.
    destruct (decide (length es = 0%nat)) as [Hz|Hz].
    + rewrite Hz. cbn [pred]. destruct (lo_end _ _ _ Hlo) as [E _]. rewrite Hz in E. rewrite E. res_step.
      change (negb (ZIP_END =? ZIP_END)) with false. cbv iota. res_step. rewrite E. res_step.
      destruct (Z.leb_spec (- k) (Z.of_nat 0)); [lia|done].
    + destruct (lookup_lt_is_Some_2 es (pred (length es)) ltac:(lia)) as [e He]. destruct (lo_first _ _ _ _ _ Hlo He) as (b & -> & Hb). res_step. rewrite Hb.
      cbn [negb]. destruct (lo_prevlen _ _ _ _ _ Hlo He) as (sz & ->). res_step.
      destruct (index_back_ok _ _ _ Hlo (length zl) (pred (length es)) (- k - 1)) as (k' & -> & Hk'); [lia|lia|lia|]. res_step.
      destruct (lookup_lt_is_Some_2 es (pred (length es) - Z.to_nat (- k - 1)) ltac:(lia)) as [e' He'].
      destruct (lo_first _ _ _ _ _ Hlo He') as (b' & -> & Hb'). res_step. rewrite Hb'. cbn [orb]. rewrite Z.gtb_ltb.
      destruct (Z.ltb_spec 0 k'), (Z.leb_spec (- k) (Z.of_nat (length es))); try lia; [done|]. cbn. do 3 f_equal. lia.
  - change ZIPLIST_ENTRY_HEAD with 10. rewrite <- (pos_0 ns). rewrite (index_forward_ok _ _ _ Hlo) by lia. rewrite Nat.sub_0_r.
    destruct (Z.ltb_spec k (Z.of_nat (length es))) as [Hlt|Hge]; res_step.
    + destruct (lookup_lt_is_Some_2 es (0 + Z.to_nat k) ltac:(lia)) as [e He]. destruct (lo_first _ _ _ _ _ Hlo He) as (b & -> & Hb). res_step. by rewrite Hb.
    + destruct (lo_end _ _ _ Hlo) as [-> _]. by res_step.
Qed.

(** * Search *)

(** The cached encoding of the string searched for. *)
Definition cache_ok (t : bytes) (venc vll : Z) : Prop :=
  venc = 0 ∨ match Ziplist.zipTryEncoding t with Some (v, e) => venc = e ∧ vll = v | None => venc = UCHAR_MAX end.

(** The comparison with an integer entry fills the cache. *)
Lemma find_integer t v venc vll (skip : Z) : cache_ok t venc vll →
  ∃ venc' vll', cache_ok t venc' vll' ∧
    (let '(venc1, vll1) := if venc =? 0 then match Ziplist.zipTryEncoding t with Some (v, e) => (e, v) | None => (UCHAR_MAX, vll) end
                           else (venc, vll) in
     _ ← assert (negb (venc1 =? 0));
     if negb (venc1 =? UCHAR_MAX) then ll ← Ok v; Ok (ll =? vll1, skip, venc1, vll1) else Ok (false, skip, venc1, vll1))
    = Ok (zip_equal (ZInt v) t, skip, venc', vll').
Proof.
  intros Hc. unfold zip_equal. rewrite <- tryEncoding_value. destruct (Ziplist.zipTryEncoding t) as [[w e]|] eqn:Et.
  - apply tryEncoding_Some in Et as Hw. destruct Hw as [He Hw]. destruct (int_bytes_ok w Hw) as (_ & _ & Hr & _). rewrite <- He in Hr.
    exists e, w. split; [right; by rewrite Et|].
    assert ((if venc =? 0 then (e, w) else (venc, vll)) = (e, w)) as ->.
    { destruct (Z.eqb_spec venc 0); [done|]. destruct Hc as [|Hc]; [done|]. rewrite Et in Hc. by destruct Hc as [-> ->]. }
    destruct (Z.eqb_spec e 0); [lia|]. cbn [negb assert]. res_step. unfold UCHAR_MAX. destruct (Z.eqb_spec e 255); [lia|]. cbn [negb]. by res_step.
  - exists UCHAR_MAX, vll. split; [right; by rewrite Et|].
    assert ((if venc =? 0 then (UCHAR_MAX, vll) else (venc, vll)) = (UCHAR_MAX, vll)) as ->.
    { destruct (Z.eqb_spec venc 0); [done|]. destruct Hc as [|Hc]; [done|]. rewrite Et in Hc. by subst. }
    cbn [assert]. by res_step.
Qed.

Lemma find_loop_ok zl es ns t skip : laid_out zl es ns → ∀ fuel i c venc vll, (i ≤ length es)%nat → (length es - i ≤ fuel)%nat →
  cache_ok t venc vll →
  find_loop fuel zl (pos ns i) t (Z.of_nat skip) (Z.of_nat c) venc vll = Ok (pos ns <$> Hash.ziplistFind (drop i es) i t skip c).
Proof.
  intros Hlo. induction fuel as [|f IH]; intros i c venc vll Hi Hf Hc; cbn [find_loop].
  - assert (i = length es) as -> by lia. destruct (lo_end _ _ _ Hlo) as [-> _]. res_step. by rewrite drop_all.
  - destruct (es !! i) as [e|] eqn:He.
    2: { apply lookup_ge_None in He. assert (i = length es) as -> by lia. destruct (lo_end _ _ _ Hlo) as [-> _]. res_step. by rewrite drop_all. }
    destruct (lo_first _ _ _ _ _ Hlo He) as (b & -> & Hb). res_step. rewrite Hb. apply lookup_lt_Some in He as Hlt.
    destruct (lo_value _ _ _ _ _ Hlo He) as (en & _ & Hs & Hl & Hd & Hint & Hpl & Hdl & Hh & Hnext). rewrite Hpl. res_step. rewrite Hdl. res_step.
    rewrite (drop_S _ _ _ He). cbn [Hash.ziplistFind]. replace (pos ns i + prevrawlensize en + lensize en) with (pos ns i + headersize en) by lia.
    rewrite Hnext. destruct c as [|c].
    + change (Z.of_nat 0 =? 0) with true. cbv iota. rewrite Hs.
      assert (Hcmp : ∃ venc' vll', cache_ok t venc' vll' ∧
        (if is_str (to_val e) then
           if len en =? Z.of_nat (length t) then
             s ← rd_bytes zl (pos ns i + headersize en) (Z.of_nat (length t)); Ok (bool_decide (s = code <$> t), Z.of_nat skip, venc, vll)
           else Ok (false, Z.of_nat skip, venc, vll)
         else
           let '(venc1, vll1) := if venc =? 0 then match Ziplist.zipTryEncoding t with Some (v, e) => (e, v) | None => (UCHAR_MAX, vll) end
                                 else (venc, vll) in
           _ ← assert (negb (venc1 =? 0));
           if negb (venc1 =? UCHAR_MAX) then ll ← zipLoadInteger zl (pos ns i + headersize en) (encoding en); Ok (ll =? vll1, Z.of_nat skip, venc1, vll1)
           else Ok (false, Z.of_nat skip, venc1, vll1))
        = Ok (zip_equal e t, Z.of_nat skip, venc', vll')).
      { destruct e as [s|v]; cbn [is_str to_val val_data] in *.
        - exists venc, vll. split; [done|]. assert (E := value_equal zl _ _ s t Hd Hl). cbn [zip_equal].
          destruct (len en =? Z.of_nat (length t)); [|by apply Ok_inj in E; rewrite <- E].
          apply bind_Ok in E as (x & -> & Hx%Ok_inj). res_step. by rewrite Hx.
        - rewrite (Hint v eq_refl). by apply find_integer. }
      destruct Hcmp as (venc' & vll' & Hc' & ->). res_step. destruct (zip_equal e t); [done|]. apply IH; [lia|lia|done].
    + destruct (Z.eqb_spec (Z.of_nat (S c)) 0); [lia|]. res_step. replace (Z.of_nat (S c) - 1) with (Z.of_nat c) by lia. apply IH; [lia|lia|done].
Qed.

Lemma lo_find zl es ns i t skip : laid_out zl es ns → (i ≤ length es)%nat → Z.of_nat skip ≤ INT_MAX →
  Ziplist.ziplistFind zl (pos ns i) t (Z.of_nat skip) = Ok (pos ns <$> Hash.ziplistFind (drop i es) i t skip 0).
Proof.
  intros Hlo Hi Hk. pose proof (fuel_enough _ _ _ Hlo). unfold Ziplist.ziplistFind. rewrite to_int_id by (unfold INT_MIN; lia).
  change 0 with (Z.of_nat 0) at 1. apply find_loop_ok; [done|done|lia|by left].
Qed.

(** * Length *)

Lemma len_loop_ok zl es ns : laid_out zl es ns → ∀ fuel i n, (i ≤ length es)%nat → (length es - i ≤ fuel)%nat →
  len_loop fuel zl (pos ns i) n = Ok (n + Z.of_nat (length es - i)).
Proof.
  intros Hlo. induction fuel as [|f IH]; intros i n Hi Hf; cbn [len_loop].
  - assert (i = length es) as -> by lia. destruct (lo_end _ _ _ Hlo) as [-> _]. res_step. cbn. f_equal. lia.
  - destruct (es !! i) as [e|] eqn:He.
    + destruct (lo_first _ _ _ _ _ Hlo He) as (b & -> & Hb). res_step. rewrite Hb, (lo_raw _ _ _ _ _ Hlo He). res_step.
      apply lookup_lt_Some in He. replace (pos ns i + (pos ns (S i) - pos ns i)) with (pos ns (S i)) by lia. rewrite IH by lia. f_equal. lia.
    + apply lookup_ge_None in He. assert (i = length es) as -> by lia. destruct (lo_end _ _ _ Hlo) as [-> _]. res_step. cbn. f_equal. lia.
Qed.

Lemma lo_len zl es ns : laid_out zl es ns → ∃ zl', ziplistLen zl = Ok (zlen es, zl') ∧ laid_out zl' es ns.
Proof.
  intros Hlo. pose proof (fuel_enough _ _ _ Hlo) as Hfuel. destruct (lo_size _ _ _ Hlo) as (_ & Hl & _). pose proof Hlo as [(L & -> & [HL HL']) Hok Hv Hc].
  assert (HLn : ZIPLIST_LENGTH (blob L ns) = Ok L) by (apply length_hdr; lia). unfold ziplistLen. rewrite HLn. res_step. unfold UINT16_MAX.
  assert (Hz : zlen ns = zlen es) by (unfold zlen; by rewrite Hl). destruct (Z.ltb_spec L 65535).
  - destruct HL' as [|HL']; [lia|]. exists (blob L ns). rewrite HL', Hz in *. done.
  - change ZIPLIST_HEADER_SIZE with 10. rewrite <- (pos_0 ns), (len_loop_ok _ _ _ Hlo) by lia. res_step. rewrite Nat.sub_0_r, Z.add_0_l. fold (zlen es).
    destruct (Z.ltb_spec (zlen es) 65535); [|by exists (blob L ns)]. assert (HS : set_length (blob L ns) (zlen es) = Ok (blob (zlen es) ns)) by apply set_length_hdr.
    rewrite HS. res_step. exists (blob (zlen es) ns). split; [done|]. split; [|done..]. exists (zlen es). split; [done|]. pose proof (zlen_nonneg es). split; [lia|]. right. congruence.
Qed.

Lemma lo_new junk : ∃ zl, ziplistNew junk = Ok zl ∧ laid_out zl [] [].
Proof.
  unfold ziplistNew. destruct (realloc_grow junk [] 11) as (J & E & HJ); [done|]. change (ZIPLIST_HEADER_SIZE + 1) with 11. rewrite E. cbn [app].
  rewrite zlen_nil in HJ. do 11 (destruct J as [|? J]; [done|]). destruct J; [|rewrite !zlen_cons in HJ; pose proof (zlen_nonneg J); lia].
  eexists. split; [reflexivity|]. split; [exists 0; split; [reflexivity|]; split; [lia|by right]|done|done|done].
Qed.

(** * Programs over a ziplist *)

Definition push_at (es : list zentry) (w : ziplist_end) : nat := match w with ZIPLIST_HEAD => 0%nat | ZIPLIST_TAIL => length es end.

Lemma lo_push junk zl es ns s w : laid_out zl es ns → cap (Hash.ziplistInsert es (push_at es w) s) < 2 ^ 32 →
  ∃ zl' ns', Ziplist.ziplistPush junk zl s w = Ok zl' ∧ laid_out zl' (Hash.ziplistInsert es (push_at es w) s) ns'.
Proof.
  intros Hlo Hc. destruct (lo_insert junk zl es ns (push_at es w) s Hlo) as (zl' & ns' & E & Hlo' & _); [destruct w; cbn; lia|done|].
  exists zl', ns'. split; [|done]. rewrite <- E. unfold Ziplist.ziplistPush, Ziplist.ziplistInsert, ZIPLIST_ENTRY_END. destruct w; cbn [push_at].
  - res_step. by rewrite pos_0.
  - destruct (lo_size _ _ _ Hlo) as (Hs & _ & _). destruct (lo_end _ _ _ Hlo) as [_ Hp]. pose proof Hlo as [(L & -> & _) _ _ _]. pose proof (zlen_nonneg ns).
    rewrite bytes_blob by lia. do 2 res_step. f_equal. rewrite Hp. unfold blob. zlens. rewrite zlen_hdr, zlen_nodes. lia.
Qed.

(** A deletion at the end byte reads outside of the list. *)
Lemma lo_delete_end junk zl es ns num : laid_out zl es ns → __ziplistDelete junk zl (pos ns (length es)) num = Fault OutOfBounds.
Proof.
  intros Hlo. destruct (lo_end _ _ _ Hlo) as [E Hp]. unfold __ziplistDelete, zipEntry, ZIP_DECODE_PREVLEN, ZIP_DECODE_PREVLENSIZE. rewrite E. do 2 res_step.
  change (ZIP_END <? ZIP_BIG_PREVLEN) with false. cbv iota. change (5 =? 1) with false. cbv iota.
  unfold get32, rd_bytes. fold (zlen zl). rewrite Hp. destruct (Z.leb_spec (zlen zl - 1 + 1 + 4) (zlen zl)); [lia|]. by rewrite andb_false_r.
Qed.

Lemma lo_delete_none junk zl es ns i : laid_out zl es ns → (i < length es)%nat → __ziplistDelete junk zl (pos ns i) 0 = Ok zl.
Proof.
  intros Hlo Hi. destruct (lookup_lt_is_Some_2 es i Hi) as [e He]. unfold __ziplistDelete.
  destruct (lo_value _ _ _ _ _ Hlo He) as (en & -> & _). res_step.
  destruct (lo_first _ _ _ _ _ Hlo He) as (b & E & Hb).
  assert (delete_loop (length zl) zl (pos ns i) 0 0 = Ok (pos ns i, 0)) as ->.
  { destruct (length zl); cbn [delete_loop]; rewrite E; res_step; by rewrite andb_false_r. }
  res_step. rewrite Z.sub_diag. done.
Qed.

(** The calls a client makes, with one pointer [p] into the list.  Every call that moves
    the list but [ziplistDelete] leaves the client without a pointer. *)
Inductive zop :=
| ZPush (s : bytes) (w : ziplist_end)
| ZIndex (k : Z) | ZNext | ZPrev | ZFind (s : bytes) (skip : nat)
| ZGet | ZCompare (s : bytes)
| ZInsert (s : bytes) | ZDelete | ZDeleteRange (k : Z) (num : nat)
| ZLen.

Inductive zout := ZDone | ZPointer (null : bool) | ZGot (v : option zvalue) | ZEqual (b : bool) | ZCount (n : Z).

Definition ptr_out {A} (p : option A) : zout := ZPointer (match p with None => true | Some _ => false end).

Definition zstep (junk : nat → Z) (op : zop) (zl : mem) (p : option Z) : res (zout * mem * option Z) :=
  match op with
  | ZPush s w => zl ← Ziplist.ziplistPush junk zl s w; Ok (ZDone, zl, None)
  | ZIndex k => p ← ziplistIndex zl k; Ok (ptr_out p, zl, p)
  | ZNext => q ← deref p; p ← Ziplist.ziplistNext zl q; Ok (ptr_out p, zl, p)
  | ZPrev => q ← deref p; p ← ziplistPrev zl q; Ok (ptr_out p, zl, p)
  | ZFind s skip => q ← deref p; p ← Ziplist.ziplistFind zl q s (Z.of_nat skip); Ok (ptr_out p, zl, p)
  | ZGet => v ← ziplistGet zl p; Ok (ZGot v, zl, p)
  | ZCompare s => q ← deref p; b ← ziplistCompare zl q s; Ok (ZEqual b, zl, p)
  | ZInsert s => q ← deref p; zl ← Ziplist.ziplistInsert junk zl q s; Ok (ZDone, zl, None)
  | ZDelete => q ← deref p; zl ← Ziplist.ziplistDelete junk zl q; Ok (ZDone, zl, p)
  | ZDeleteRange k num => zl ← ziplistDeleteRange junk zl k (Z.of_nat num); Ok (ZDone, zl, None)
  | ZLen => '(n, zl) ← ziplistLen zl; Ok (ZCount n, zl, p)
  end.

(** The same on a list of entries and an index. *)
Definition estep (op : zop) (es : list zentry) (i : option nat) : res (zout * list zentry * option nat) :=
  match op with
  | ZPush s w => Ok (ZDone, Hash.ziplistInsert es (push_at es w) s, None)
  | ZIndex k => let i := zip_index (length es) k in Ok (ptr_out i, es, i)
  | ZNext => j ← deref i; let i := Hash.ziplistNext es j in Ok (ptr_out i, es, i)
  | ZPrev => j ← deref i; let i := zip_prev j in Ok (ptr_out i, es, i)
  | ZFind s skip => j ← deref i; let i := Hash.ziplistFind (drop j es) j s skip 0 in Ok (ptr_out i, es, i)
  | ZGet => Ok (ZGot (j ← i; to_val <$> es !! j)%stdpp, es, i)
  | ZCompare s => j ← deref i; Ok (ZEqual (match es !! j with Some e => zip_equal e s | None => false end), es, i)
  | ZInsert s => j ← deref i; Ok (ZDone, Hash.ziplistInsert es j s, None)
  | ZDelete => j ← deref i; _ ← at_index es j; Ok (ZDone, Hash.ziplistDelete es j, i)
  | ZDeleteRange k num =>
      Ok (ZDone, match zip_index (length es) k with Some j => take j es ++ drop (j + num) es | None => es end, None)
  | ZLen => Ok (ZCount (Z.of_nat (length es)), es, i)
  end.

Definition rel (zl : mem) (p : option Z) (es : list zentry) (i : option nat) : Prop :=
  ∃ ns, laid_out zl es ns ∧ p = pos ns <$> i ∧ match i with Some j => (j ≤ length es)%nat | None => True end.

(** The arguments are in the range of their types. *)
Definition zop_ok (op : zop) : Prop :=
  match op with
  | ZIndex k | ZDeleteRange k _ => INT_MIN < k ≤ INT_MAX
  | ZFind _ skip => Z.of_nat skip ≤ INT_MAX
  | _ => True
  end.
#[export] Instance zop_ok_dec op : Decision (zop_ok op).
Proof. destruct op; apply _. Defined.

(** The room an operation may need. *)
Definition grows (op : zop) : Z := match op with ZPush s _ | ZInsert s => room (zip_entry s) | _ => 0 end.

Lemma cap_insert es j s : cap (Hash.ziplistInsert es j s) = cap es + room (zip_entry s).
Proof.
  unfold cap, Hash.ziplistInsert. rewrite rooms_app. cbn [rooms]. rewrite <- (take_drop j es) at 3. rewrite rooms_app. lia.
Qed.

Lemma cap_delete es j k : cap (take j es ++ drop (j + k) es) ≤ cap es.
Proof.
  unfold cap. rewrite rooms_app. rewrite <- (take_drop j es) at 3. rewrite rooms_app. rewrite <- (take_drop k (drop j es)), rooms_app, drop_drop.
  pose proof (rooms_nonneg (take k (drop j es))). pose proof (zlen_nonneg (take k (drop j es))). lia.
Qed.

Lemma next_bound es j k : Hash.ziplistNext es j = Some k → (k ≤ length es)%nat.
Proof. unfold Hash.ziplistNext. destruct (Nat.ltb_spec (S j) (length es)); [|done]. intros [= <-]. lia. Qed.

Lemma find_bound es j s skip c k : Hash.ziplistFind es j s skip c = Some k → (k < j + length es)%nat.
Proof.
  revert j c. induction es as [|e es IH]; intros j c; [done|]. cbn [Hash.ziplistFind length]. destruct c as [|c].
  - destruct (zip_equal e s); [intros [= <-]; lia|]. intros E%IH. lia.
  - intros E%IH. lia.
Qed.

Lemma index_bound n k j : zip_index n k = Some j → (j < n)%nat.
Proof.
  unfold zip_index. destruct (Z.ltb_spec k 0).
  - destruct (Z.leb_spec (- k) (Z.of_nat n)); [|done]. intros [= <-]. lia.
  - destruct (Z.ltb_spec k (Z.of_nat n)); [|done]. intros [= <-]. lia.
Qed.

(** A call that only moves the pointer. *)
Lemma rel_pointer zl es ns i : laid_out zl es ns → (∀ j, i = Some j → (j ≤ length es)%nat) →
  ∃ zl' p', Ok (ptr_out (pos ns <$> i), zl, pos ns <$> i) = Ok (ptr_out i, zl', p') ∧ rel zl' p' es i.
Proof.
  intros Hlo Hi. exists zl, (pos ns <$> i). split; [by destruct i|]. exists ns. split_and!; [done|done|]. destruct i; [by apply Hi|done].
Qed.

Lemma zstep_ok junk op zl p es i : rel zl p es i → zop_ok op → cap es + grows op < 2 ^ 32 →
  match estep op es i with
  | Ok (o, es', i') => ∃ zl' p', zstep junk op zl p = Ok (o, zl', p') ∧ rel zl' p' es' i'
  | Fault f => zstep junk op zl p = Fault f
  end.
Proof.
  intros (ns & Hlo & -> & Hi) Hop Hc. destruct op as [s w|k| | |s skip| |s|s| |k num|]; cbn [estep zstep grows zop_ok] in *.
  - destruct (lo_push junk zl es ns s w Hlo) as (zl' & ns' & -> & Hlo'); [rewrite cap_insert; lia|]. res_step. exists zl', None. split; [done|]. by exists ns'.
  - rewrite (lo_index _ _ _ _ Hlo Hop). res_step. apply rel_pointer; [done|]. intros j Hj%index_bound. lia.
  - destruct i as [j|]; [|done]. cbn [deref fmap option_fmap option_map]. do 2 res_step. rewrite (lo_next _ _ _ _ Hlo Hi). res_step. apply rel_pointer; [done|]. apply next_bound.
  - destruct i as [j|]; [|done]. cbn [deref fmap option_fmap option_map]. do 2 res_step. rewrite (lo_prev _ _ _ _ Hlo Hi). res_step. apply rel_pointer; [done|]. intros k Hk. destruct j; [done|]. injection Hk as <-. lia.
  - destruct i as [j|]; [|done]. cbn [deref fmap option_fmap option_map]. do 2 res_step. rewrite (lo_find _ _ _ _ _ _ Hlo Hi Hop). res_step. apply rel_pointer; [done|].
    intros k Hk%find_bound. rewrite length_drop in Hk. lia.
  - exists zl, (pos ns <$> i). split; [|by exists ns]. destruct i as [j|]; [|done]. cbn [fmap option_fmap option_map].
    rewrite (lo_get _ _ _ _ Hlo Hi). by res_step.
  - destruct i as [j|]; [|done]. cbn [deref fmap option_fmap option_map]. do 2 res_step. exists zl, (pos ns <$> Some j). split; [|by exists ns].
    destruct (es !! j) as [e|] eqn:He; [rewrite (lo_compare _ _ _ _ _ _ Hlo He); by res_step|].
    apply lookup_ge_None in He. assert (j = length es) as -> by lia. unfold ziplistCompare. destruct (lo_end _ _ _ Hlo) as [-> _]. by res_step.
  - destruct i as [j|]; [|done]. cbn [deref fmap option_fmap option_map]. do 2 res_step.
    destruct (lo_insert junk zl es ns j s Hlo Hi) as (zl' & ns' & E & Hlo' & _); [rewrite cap_insert; lia|]. rewrite E. res_step.
    exists zl', None. split; [done|]. by exists ns'.
  - destruct i as [j|]; [|done]. cbn [deref fmap option_fmap option_map]. do 2 res_step. unfold at_index, Ziplist.ziplistDelete. destruct (es !! j) as [e|] eqn:He.
    + apply lookup_lt_Some in He. res_step. destruct (lo_delete junk zl es ns j 1 Hlo He ltac:(lia)) as (zl' & ns' & E & Hlo' & Hp).
      change 1 with (Z.of_nat 1). rewrite E. res_step. exists zl', (Some (pos ns j)). split; [done|]. exists ns'.
      assert (Hes : take j es ++ drop (j + 1) es = Hash.ziplistDelete es j).
      { unfold Hash.ziplistDelete. rewrite delete_take_drop. do 2 f_equal. lia. }
      rewrite Hes in Hlo'. split_and!; [done|cbn; by rewrite Hp|]. rewrite <- Hes, length_app, length_take, length_drop. lia.
    + apply lookup_ge_None in He. assert (j = length es) as -> by lia. by rewrite (lo_delete_end junk _ _ _ 1 Hlo).
  - unfold ziplistDeleteRange. rewrite (lo_index _ _ _ _ Hlo Hop). res_step. destruct (zip_index (length es) k) as [j|] eqn:Ej; cbn [fmap option_fmap option_map].
    + apply index_bound in Ej. destruct num as [|num].
      * change (Z.of_nat 0) with 0. rewrite (lo_delete_none junk _ _ _ _ Hlo Ej). res_step. exists zl, None. split; [done|]. exists ns. rewrite Nat.add_0_r, take_drop. done.
      * destruct (lo_delete junk zl es ns j (S num) Hlo Ej ltac:(lia)) as (zl' & ns' & E & Hlo' & _). rewrite E. res_step.
        exists zl', None. split; [done|]. by exists ns'.
    + res_step. exists zl, None. split; [done|]. by exists ns.
  - destruct (lo_len _ _ _ Hlo) as (zl' & -> & Hlo'). res_step. exists zl', (pos ns <$> i). split; [done|]. by exists ns.
Qed.

Fixpoint zrun (junk : nat → Z) (ops : list zop) (zl : mem) (p : option Z) : res (list zout * mem) :=
  match ops with
  | [] => Ok ([], zl)
  | op :: ops => '(o, zl, p) ← zstep junk op zl p; '(os, zl) ← zrun junk ops zl p; Ok (o :: os, zl)
  end.
Fixpoint erun (ops : list zop) (es : list zentry) (i : option nat) : res (list zout * list zentry) :=
  match ops with
  | [] => Ok ([], es)
  | op :: ops => '(o, es, i) ← estep op es i; '(os, es) ← erun ops es i; Ok (o :: os, es)
  end.

Fixpoint total_growth (ops : list zop) : Z := match ops with [] => 0 | op :: ops => grows op + total_growth ops end.

Lemma grows_nonneg op : 0 ≤ grows op.
Proof. destruct op; cbn; unfold room; try lia; destruct (zip_entry _); lia. Qed.

Lemma total_growth_nonneg ops : 0 ≤ total_growth ops.
Proof. induction ops as [|op ops IH]; cbn; [done|]. pose proof (grows_nonneg op). lia. Qed.

Lemma estep_cap op es i o es' i' : estep op es i = Ok (o, es', i') → cap es' ≤ cap es + grows op.
Proof.
  destruct op as [s w|k| | |s skip| |s|s| |k num|]; cbn [estep grows]; intros E; try (res_inv; rewrite ?cap_insert; lia).
  - res_inv. unfold Hash.ziplistDelete. rewrite delete_take_drop. pose proof (cap_delete es x 1) as Hd. rewrite Nat.add_comm in Hd. cbn in Hd. lia.
  - res_inv. destruct (zip_index _ _) as [j|]; [|lia]. pose proof (cap_delete es j num). lia.
Qed.

Lemma zrun_ok junk ops : ∀ zl p es i, rel zl p es i → Forall zop_ok ops → cap es + total_growth ops < 2 ^ 32 →
  match erun ops es i with
  | Ok (os, es') => ∃ zl' ns, zrun junk ops zl p = Ok (os, zl') ∧ laid_out zl' es' ns
  | Fault f => zrun junk ops zl p = Fault f
  end.
Proof.
  induction ops as [|op ops IH]; intros zl p es i Hrel Hops Hc; cbn [erun zrun total_growth] in *.
  { destruct Hrel as (ns & ? & _). by exists zl, ns. }
  apply Forall_cons in Hops as [Hop Hops]. pose proof (total_growth_nonneg ops).
  pose proof (zstep_ok junk op zl p es i Hrel Hop ltac:(lia)) as Hs. pose proof (estep_cap op es i) as Hcap.
  destruct (estep op es i) as [[[o es1] i1]|f]; [|by rewrite Hs]. destruct Hs as (zl1 & p1 & -> & Hrel1). do 2 res_step.
  specialize (Hcap _ _ _ eq_refl). specialize (IH zl1 p1 es1 i1 Hrel1 Hops ltac:(lia)).
  destruct (erun ops es1 i1) as [[os es2]|f]; [|by rewrite IH]. destruct IH as (zl2 & ns & -> & Hlo). do 2 res_step. by exists zl2, ns.
Qed.

(** C5: Any program of pushes, insertions, deletions, searches, comparisons and moves of a
    pointer on a new ziplist has, byte for byte, the results it has on a list of entries,
    whatever uninitialised memory holds and whatever cascades of the lengths of previous
    entries it sets off, and leaves a well-formed ziplist: it never touches memory outside
    the list but where the model says so, for a deletion at the end marker. *)
Theorem ziplist_refines_list junk ops :
  Forall zop_ok ops → 64 + total_growth ops < 2 ^ 32 →
  match erun ops [] None with
  | Ok (os, es) => ∃ zl ns, (zl ← ziplistNew junk; zrun junk ops zl None) = Ok (os, zl) ∧ laid_out zl es ns
  | Fault f => (zl ← ziplistNew junk; zrun junk ops zl None) = Fault f
  end.
Proof.
  intros Hops Hc. destruct (lo_new junk) as (zl & -> & Hlo). res_step. apply zrun_ok; [by exists []|done|done].
Qed.

(** Three strings of 250 bytes take a one-byte length of the previous entry each, until the
    long string in front makes the lengths of all three grow. *)
Definition cascade_ops : list zop :=
  let a := replicate 250 "a"%char in
  [ZPush a ZIPLIST_TAIL; ZPush a ZIPLIST_TAIL; ZPush a ZIPLIST_TAIL; ZPush (replicate 300 "b"%char) ZIPLIST_HEAD;
   ZIndex (-1); ZPrev; ZCompare a; ZInsert (lit "-70000"); ZLen; ZIndex 0; ZFind (lit "-70000") 0; ZGet; ZDelete; ZDeleteRange 0 1; ZLen].

Lemma ziplist_refines_list_witness :
  let a := ZStr (replicate 250 "a"%char) in
  ∃ zl ns, (zl ← ziplistNew (λ _, 170); zrun (λ _, 170) cascade_ops zl None) =
    Ok ([ZDone; ZDone; ZDone; ZDone; ZPointer false; ZPointer false; ZEqual true; ZDone; ZCount 5; ZPointer false; ZPointer false;
         ZGot (Some (ZVInt (-70000))); ZDone; ZDone; ZCount 3], zl) ∧ laid_out zl [a; a; a] ns.
Proof.
  intros a. pose proof (ziplist_refines_list (λ _, 170) cascade_ops) as H. revert H.
  replace (erun cascade_ops [] None) with (Ok ([ZDone; ZDone; ZDone; ZDone; ZPointer false; ZPointer false; ZEqual true; ZDone; ZCount 5; ZPointer false; ZPointer false;
    ZGot (Some (ZVInt (-70000))); ZDone; ZDone; ZCount 3], [a; a; a])) by (vm_compute; reflexivity).
  intros H. apply H; [by apply (bool_decide_unpack _)|vm_compute; reflexivity].
Defined.

(** * Merging *)

(** The two bodies one after the other, whichever list is kept. *)
Section merge_bodies.
  Context (junk : nat → Z) (T1 O1 L1 : Z) (b1 : list Z) (T2 O2 L2 : Z) (b2 : list Z).
Let first := hdr T1 O1 L1 ++ b1 ++ [ZIP_END].
Let second := hdr T2 O2 L2 ++ b2 ++ [ZIP_END].
Let n1 := 11 + zlen b1.
Let n2 := 11 + zlen b2.

Lemma merge_append :
  (bs ← rd_bytes second ZIPLIST_HEADER_SIZE (n2 - ZIPLIST_HEADER_SIZE);
   wr (realloc junk first (n1 + n2 - ZIPLIST_HEADER_SIZE - ZIPLIST_END_SIZE)) (n1 - ZIPLIST_END_SIZE) bs)
  = Ok (hdr T1 O1 L1 ++ b1 ++ b2 ++ [ZIP_END]).
Proof.
  unfold ZIPLIST_HEADER_SIZE, ZIPLIST_END_SIZE. pose proof (zlen_nonneg b1). pose proof (zlen_nonneg b2).
  assert (H1 : zlen first = n1) by (unfold first; zlens; rewrite zlen_hdr; unfold n1; lia).
  destruct (realloc_grow junk first (n1 + n2 - 10 - 1)) as (J & -> & HJ); [unfold n1, n2 in *; lia|].
  rewrite (rd_bytes_at _ (hdr T2 O2 L2) (b2 ++ [ZIP_END]) []); [|unfold second; by rewrite app_nil_r|by rewrite zlen_hdr|zlens; unfold n2; lia]. res_step.
  rewrite (wr_at _ (hdr T1 O1 L1 ++ b1) ([ZIP_END] ++ J) []); [by rewrite app_nil_r, <- !app_assoc|unfold first; rewrite app_nil_r, <- !app_assoc; done| |].
  - zlens. rewrite zlen_hdr. unfold n1. lia.
  - zlens. unfold n1, n2 in *. lia.
Qed.

Lemma merge_prepend :
  (target ← memmove (realloc junk second (n1 + n2 - ZIPLIST_HEADER_SIZE - ZIPLIST_END_SIZE)) (n1 - ZIPLIST_END_SIZE) ZIPLIST_HEADER_SIZE (n2 - ZIPLIST_HEADER_SIZE);
   bs ← rd_bytes first 0 (n1 - ZIPLIST_END_SIZE);
   wr target 0 bs)
  = Ok (hdr T1 O1 L1 ++ b1 ++ b2 ++ [ZIP_END]).
Proof.
  unfold ZIPLIST_HEADER_SIZE, ZIPLIST_END_SIZE. pose proof (zlen_nonneg b1). pose proof (zlen_nonneg b2).
  assert (H2 : zlen second = n2) by (unfold second; zlens; rewrite zlen_hdr; unfold n2; lia).
  destruct (realloc_grow junk second (n1 + n2 - 10 - 1)) as (J & -> & HJ); [unfold n1, n2 in *; lia|].
  destruct (split_at (b2 ++ [ZIP_END] ++ J) (zlen b1)) as (Y1 & Y2 & EY & HY1 & HY2); [zlens; unfold n1, n2 in *; lia|].
  rewrite (memmove_at _ (hdr T2 O2 L2) (b2 ++ [ZIP_END]) J (hdr T2 O2 L2 ++ Y1) Y2 []).
  - res_step. rewrite (rd_bytes_at _ [] (hdr T1 O1 L1 ++ b1) [ZIP_END]); [|unfold first; by rewrite <- !app_assoc|done|zlens; rewrite zlen_hdr; unfold n1; lia]. res_step.
    rewrite (wr_at _ [] (hdr T2 O2 L2 ++ Y1) ((b2 ++ [ZIP_END]) ++ [])); [|by rewrite <- !app_assoc|done|zlens; rewrite !zlen_hdr; lia].
    by rewrite app_nil_r, <- !app_assoc.
  - unfold second. by rewrite <- !app_assoc.
  - by rewrite zlen_hdr.
  - zlens. unfold n2. lia.
  - rewrite app_nil_r, <- app_assoc, <- EY. unfold second. by rewrite <- !app_assoc.
  - zlens. rewrite zlen_hdr. unfold n1. lia.
  - revert HY2. zlens. unfold n1, n2 in *. lia.
Qed.
End merge_bodies.

(** The seam of two lists: the first entry of the second one learns the length before it. *)
Lemma merge_seam junk L ns1 ns2 : nodes_ok 0 ns1 → nodes_ok 0 ns2 → ns2 ≠ [] →
  11 + size ns1 + size ns2 + 4 * zlen ns2 < 2 ^ 32 →
  __ziplistCascadeUpdate junk (hdr (11 + size ns1 + size ns2) (10 + size ns1 + tail_pos ns2) L ++ nodes_bytes 0 ns1 ++ nodes_bytes 0 ns2 ++ [ZIP_END])
    (10 + tail_pos ns1) = Ok (blob L (ns1 ++ fix_nodes (last_raw 0 ns1) ns2)).
Proof.
  intros Hok1 Hok2 Hne Hb. unfold blob. destruct ns1 as [|k ns1 _] using rev_ind.
  - cbn [size tail_pos nodes_bytes app last_raw] in *. change (last_raw 0 []) with 0. rewrite (fix_nodes_same 0 ns2 Hok2). destruct ns2 as [|m ns2]; [done|].
    destruct Hok2 as [Hm Hok2]. cbn [nodes_bytes size] in *. rewrite zlen_cons in Hb. pose proof (zlen_nonneg ns2).
    rewrite <- app_assoc. assert (E := cascade_update junk (11 + 0 + (raw m + size ns2)) (10 + 0 + tail_pos (m :: ns2)) L [] 0 m (raw m) ns2).
    rewrite zlen_nil in E. cbn [app] in E. change (10 + 0) with 10 in *.
    destruct E as (T' & O' & -> & -> & ->); [done|done|lia|lia|intros; destruct ns2; [done|cbn [tail_pos]; lia]|]. rewrite (fix_nodes_same (raw m) ns2 Hok2).
    f_equal. f_equal. f_equal; [lia|]. destruct (decide (ns2 = [])) as [->|]; [done|]. destruct ns2; [done|]. cbn [tail_pos]. lia.
  - rewrite tail_pos_snoc. unfold last_raw. rewrite last_snoc. apply nodes_ok_app in Hok1 as [Hok1 [Hk _]].
    rewrite nodes_bytes_app, size_app in *. cbn [nodes_bytes size] in *. rewrite app_nil_r, <- !app_assoc. pose proof (size_nonneg ns1). pose proof (zlen_nonneg ns1).
    assert (E := cascade_update junk (11 + (size ns1 + (raw k + 0)) + size ns2) (10 + (size ns1 + (raw k + 0)) + tail_pos ns2) L (nodes_bytes 0 ns1) _ k 0 ns2 Hk Hok2).
    rewrite zlen_nodes in E. destruct E as (T' & O' & -> & -> & ->); [lia|lia|intros; lia|]. rewrite decide_False by done. cbn [app].
    f_equal. rewrite nodes_bytes_app, size_app, tail_pos_app by done. cbn [nodes_bytes size tail_pos]. rewrite <- !app_assoc. f_equal. f_equal; [lia|].
    destruct (fix_nodes (raw k) ns2) eqn:Ef; [by apply fix_nodes_nil in Ef|]. lia.
Qed.

Lemma merge_nodes junk L1 ns1 L2 ns2 : nodes_ok 0 ns1 → nodes_ok 0 ns2 → ns2 ≠ [] → 0 ≤ L1 ≤ 65535 → 0 ≤ L2 ≤ 65535 →
  11 + size ns1 + size ns2 + 4 * zlen ns2 < 2 ^ 32 →
  ziplistMerge junk (Some (blob L1 ns1)) (Some (blob L2 ns2)) false =
    Ok (Some (blob (Z.min (L1 + L2) 65535) (ns1 ++ fix_nodes (last_raw 0 ns1) ns2), L1 >=? L2)).
Proof.
  intros Hok1 Hok2 Hne HL1 HL2 Hb. pose proof (size_nonneg ns1). pose proof (zlen_nonneg ns1). pose proof (size_nonneg ns2). pose proof (zlen_nonneg ns2).
  unfold ziplistMerge. rewrite (bytes_blob L1) by lia. res_step.
  assert (E1 : ZIPLIST_LENGTH (blob L1 ns1) = Ok L1) by (apply length_hdr; lia). assert (E2 : ZIPLIST_LENGTH (blob L2 ns2) = Ok L2) by (apply length_hdr; lia).
  rewrite E1. res_step. rewrite (bytes_blob L2) by lia. res_step. rewrite E2. res_step. clear E1 E2.
  set (Ln := if L1 + L2 <? UINT16_MAX then L1 + L2 else UINT16_MAX).
  assert (HLn : Ln = Z.min (L1 + L2) 65535) by (unfold Ln, UINT16_MAX; destruct (Z.ltb_spec (L1 + L2) 65535); lia).
  assert (Hfin : ∀ zl0, zl0 = hdr (11 + size ns1) (10 + tail_pos ns1) L1 ++ nodes_bytes 0 ns1 ++ nodes_bytes 0 ns2 ++ [ZIP_END] →
    (target ← set_bytes zl0 (11 + size ns1 + (11 + size ns2) - ZIPLIST_HEADER_SIZE - ZIPLIST_END_SIZE);
     target ← set_length target Ln;
     target ← set_tail target ((11 + size ns1 - ZIPLIST_END_SIZE) + (10 + tail_pos ns2 - ZIPLIST_HEADER_SIZE));
     target ← __ziplistCascadeUpdate junk target (10 + tail_pos ns1);
     Ok (Some (target, L1 >=? L2)))
    = Ok (Some (blob (Z.min (L1 + L2) 65535) (ns1 ++ fix_nodes (last_raw 0 ns1) ns2), L1 >=? L2))).
  { intros zl0 ->. rewrite set_bytes_hdr. res_step. rewrite set_length_hdr. res_step. rewrite set_tail_hdr. res_step.
    unfold ZIPLIST_HEADER_SIZE, ZIPLIST_END_SIZE. rewrite <- HLn.
    replace (11 + size ns1 + (11 + size ns2) - 10 - 1) with (11 + size ns1 + size ns2) by lia.
    replace (11 + size ns1 - 1 + (10 + tail_pos ns2 - 10)) with (10 + size ns1 + tail_pos ns2) by lia.
    rewrite (merge_seam junk Ln ns1 ns2) by done. by res_step. }
  destruct (L1 >=? L2); rewrite (tail_blob L1) by lia; res_step; rewrite (tail_blob L2) by lia; res_step.
  - assert (E := merge_append junk (11 + size ns1) (10 + tail_pos ns1) L1 (nodes_bytes 0 ns1) (11 + size ns2) (10 + tail_pos ns2) L2 (nodes_bytes 0 ns2)).
    rewrite !zlen_nodes in E. unfold blob at 1 2. rewrite E. res_step. by apply Hfin.
  - assert (E := merge_prepend junk (11 + size ns1) (10 + tail_pos ns1) L1 (nodes_bytes 0 ns1) (11 + size ns2) (10 + tail_pos ns2) L2 (nodes_bytes 0 ns2)).
    rewrite !zlen_nodes in E. unfold blob at 1 2. rewrite E. res_step. by apply Hfin.
Qed.

Lemma fix_nodes_zlen r ns : zlen (fix_nodes r ns) = zlen ns.
Proof. pose proof (f_equal length (fix_nodes_vals r ns)) as E. rewrite !length_fmap in E. unfold zlen. lia. Qed.

(** The merge of two ziplists is a ziplist of the entries of the first followed by those
    of the second, whichever of the two is kept, when the second is not empty. *)
Theorem ziplistMerge_concat junk zl1 es1 ns1 zl2 es2 ns2 :
  laid_out zl1 es1 ns1 → laid_out zl2 es2 ns2 → es2 ≠ [] → cap (es1 ++ es2) < 2 ^ 32 →
  ∃ zl ns kept, ziplistMerge junk (Some zl1) (Some zl2) false = Ok (Some (zl, kept)) ∧ laid_out zl (es1 ++ es2) ns.
Proof.
  intros Hlo1 Hlo2 Hne Hc. destruct (lo_size _ _ _ Hlo1) as (_ & Hl1 & _). destruct (lo_size _ _ _ Hlo2) as (_ & Hl2 & _).
  pose proof Hlo1 as [(L1 & -> & [HL1 HL1']) Hok1 Hv1 _]. pose proof Hlo2 as [(L2 & -> & [HL2 HL2']) Hok2 Hv2 _].
  unfold cap in Hc. rewrite rooms_app in Hc. pose proof (size_rooms _ _ Hv1 (nodes_ok_vals _ _ Hok1)). pose proof (size_rooms _ _ Hv2 (nodes_ok_vals _ _ Hok2)).
  pose proof (size_nonneg ns1). pose proof (zlen_nonneg ns1). pose proof (size_nonneg ns2). pose proof (zlen_nonneg ns2). pose proof (last_raw_bound ns1).
  rewrite merge_nodes; try done; [|intros ->; by destruct es2|lia]. eexists _, _, _. split; [done|]. split.
  - eexists. split; [done|]. unfold count_ok. rewrite zlen_app, fix_nodes_zlen. lia.
  - apply nodes_ok_app. split; [done|]. eapply fix_nodes_ok; [done|lia|lia].
  - by rewrite !fmap_app, fix_nodes_vals, Hv1, Hv2.
  - unfold cap. rewrite rooms_app. lia.
Qed.

Lemma ziplistMerge_concat_witness :
  let junk := λ _ : nat, 0 in let p := replicate 252 "p"%char in
  ∃ zl1 zl2 ns kept zl,
    (zl ← ziplistNew junk; zl ← Ziplist.ziplistPush junk zl p ZIPLIST_TAIL; Ziplist.ziplistPush junk zl (lit "x") ZIPLIST_HEAD) = Ok zl1 ∧
    (zl ← ziplistNew junk; Ziplist.ziplistPush junk zl (lit "17") ZIPLIST_TAIL) = Ok zl2 ∧
    ziplistMerge junk (Some zl1) (Some zl2) false = Ok (Some (zl, kept)) ∧ laid_out zl ([ZStr (lit "x"); ZStr p] ++ [ZInt 17]) ns.
Proof.
  intros junk p. destruct (lo_new junk) as (z0 & E0 & H0).
  destruct (lo_push junk z0 [] [] p ZIPLIST_TAIL H0) as (z1 & n1 & E1 & H1); [vm_compute; reflexivity|].
  destruct (lo_push junk z1 _ n1 (lit "x") ZIPLIST_HEAD H1) as (z2 & n2 & E2 & H2); [vm_compute; reflexivity|].
  destruct (lo_push junk z0 [] [] (lit "17") ZIPLIST_TAIL H0) as (z3 & n3 & E3 & H3); [vm_compute; reflexivity|].
  destruct (ziplistMerge_concat junk z2 [ZStr (lit "x"); ZStr p] n2 z3 [ZInt 17] n3 H2 H3) as (zl & ns & kept & E & H); [done|vm_compute; reflexivity|].
  exists z2, z3, ns, kept, zl. rewrite E0. do 2 res_step. rewrite E1. res_step. auto.
Defined.

(** With an empty second list the merge stores a tail offset that points to the end
    marker: the last entry is not found from the back, and an entry pushed afterwards says
    that no entry is in front of it, so that stepping back from it hits an assertion. *)
Theorem ziplistMerge_empty_second :
  let junk := λ _, 0 in
  (first ← ziplistNew junk; first ← Ziplist.ziplistPush junk first (lit "a") ZIPLIST_TAIL;
   second ← ziplistNew junk; r ← ziplistMerge junk (Some first) (Some second) false;
   merged ← deref (fst <$> r);
   ziplistIndex merged (-1)) = Ok None ∧
  (first ← ziplistNew junk; first ← Ziplist.ziplistPush junk first (lit "a") ZIPLIST_TAIL;
   second ← ziplistNew junk; r ← ziplistMerge junk (Some first) (Some second) false;
   merged ← deref (fst <$> r);
   merged ← Ziplist.ziplistPush junk merged (lit "b") ZIPLIST_TAIL;
   p ← ziplistIndex merged (-1); p ← deref p; ziplistPrev merged p) = Fault AssertFail.
Proof. split; vm_compute; reflexivity. Qed.

(** An integer entry: what [zipTryEncoding] reads from a string is stored in the number of
    bytes that its encoding says and loaded back the same, for every 64-bit value, without a
    change of the memory around it. *)
Theorem zip_integer_roundtrip s v enc A B C :
  Ziplist.zipTryEncoding s = Some (v, enc) → zipIntSize enc = Ok (zlen B) →
  d2s v = s ∧ ∃ B', zipSaveInteger (A ++ B ++ C) (zlen A) v enc = Ok (A ++ B' ++ C) ∧ zlen B' = zlen B ∧
    zipLoadInteger (A ++ B' ++ C) (zlen A) enc = Ok v.
Proof.
  intros E Hsz. split.
  { pose proof (tryEncoding_value s) as H. rewrite E in H. cbn in H. unfold Hash.zipTryEncoding in H.
    destruct (_ || _); [done|]. symmetry in H. by apply string2ll_sound in H as [-> _]. }
  apply tryEncoding_Some in E as [-> Hv]. destruct (int_bytes_ok v Hv) as (Hb & Hs & _). rewrite Hs in Hsz. apply Ok_inj in Hsz.
  exists (int_bytes v). unfold zipSaveInteger. rewrite Hb. res_step. rewrite (wr_at _ A B C) by done. split_and!; [done|done|].
  apply zipLoadInteger_ok; [done|]. by apply (rd_bytes_at _ A _ C).
Qed.

Lemma zip_integer_roundtrip_witness :
  d2s (-8388608) = lit "-8388608" ∧ ∃ B', zipSaveInteger [1; 2; 3; 4; 5] 1 (-8388608) ZIP_INT_24B = Ok (1 :: B' ++ [5]) ∧ zlen B' = 3 ∧
    zipLoadInteger (1 :: B' ++ [5]) 1 ZIP_INT_24B = Ok (-8388608).
Proof. apply (zip_integer_roundtrip (lit "-8388608") (-8388608) ZIP_INT_24B [1] [2; 3; 4] [5]); vm_compute; reflexivity. Defined.
