(* ===== verification/Lzf.v ===== *)
(** src/src/lzf_c.c, src/src/lzf_d.c, src/src/lzfP.h: the LZF compression of rdb.c and
    quicklist.c, with the options of lzfP.h on a 64-bit machine: a table of 2^16 offsets of
    32 bits that is not initialised, VERY_FAST, CHECK_INPUT.  Buffers are those of
    Ziplist.v; pointers are offsets into the buffer they point to. *)
From S2P Require Import Prelude CString Util Ziplist.
Local Open Scope Z_scope.

Definition HLOG : Z := 16.
Definition HSIZE : Z := Z.shiftl 1 HLOG.
Definition MAX_LIT : Z := Z.shiftl 1 5.
Definition MAX_OFF : Z := Z.shiftl 1 13.
Definition MAX_REF : Z := Z.shiftl 1 8 + Z.shiftl 1 3.

(** * Compression *)

Definition FRST (inp : mem) (p : Z) : res Z :=
  a ← rd inp p; b ← rd inp (p + 1); Ok (Z.lor (Z.shiftl a 8) b).
Definition NEXT (v : Z) (inp : mem) (p : Z) : res Z :=
  c ← rd inp (p + 2); Ok (u32 (Z.lor (Z.shiftl v 8) c)).
Definition IDX (h : Z) : Z := Z.land (u32 (Z.shiftr h (3 * 8 - HLOG) - u32 (h * 5))) (HSIZE - 1).

Record lzf_state := mkLzf {
  c_ip : Z;
  c_op : Z;
  c_lit : Z;
  c_hval : Z;
  c_htab : gmap Z Z;
  c_out : mem;
}.

(** The copy of one literal byte, and the end of a run of [MAX_LIT]. *)
Definition stop_run (out : mem) (op lit : Z) : res mem := wr out (op - lit - 1) [u8 (lit - 1)].

Definition literal (inp : mem) (s : lzf_state) : res lzf_state :=
  let lit := c_lit s + 1 in
  b ← rd inp (c_ip s);
  out ← wr (c_out s) (c_op s) [b];
  let op := c_op s + 1 in
  if lit =? MAX_LIT then
    out ← stop_run out op lit;
    Ok (mkLzf (c_ip s + 1) (op + 1) 0 (c_hval s) (c_htab s) out)
  else Ok (mkLzf (c_ip s + 1) op lit (c_hval s) (c_htab s) out).

(** The length of a match: sixteen comparisons written out, then a loop.  The result of
    [unrolled] tells whether they all succeeded. *)
Fixpoint unrolled (n : nat) (inp : mem) (ref ip len : Z) : res (Z * bool) :=
  match n with
  | O => Ok (len, true)
  | S n' =>
      let len := len + 1 in
      a ← rd inp (ref + len);
      b ← rd inp (ip + len);
      if a =? b then unrolled n' inp ref ip len else Ok (len, false)
  end.

Fixpoint match_loop (fuel : nat) (inp : mem) (ref ip maxlen len : Z) : res Z :=
  match fuel with
  | O => Fault OutOfFuel
  | S f =>
      let len := len + 1 in
      if len <? maxlen then
        a ← rd inp (ref + len);
        b ← rd inp (ip + len);
        if a =? b then match_loop f inp ref ip maxlen len else Ok len
      else Ok len
  end.

Definition match_len (inp : mem) (ref ip maxlen : Z) : res Z :=
  '(len, all) ← (if maxlen >? 16 then unrolled 16 inp ref ip 2 else Ok (2, true));
  if all : bool then match_loop (Z.to_nat maxlen) inp ref ip maxlen len else Ok len.

(** How a round of the loop ends: [return 0], [break] or the next round. *)
Inductive round :=
| Full (out : mem)
| Break (s : lzf_state)
| Next (s : lzf_state).

(** The bytes at [ref] and [ip] agree; the first two are compared at once. *)
Definition same3 (inp : mem) (ref ip : Z) : res bool :=
  a ← rd inp (ref + 2); b ← rd inp (ip + 2);
  if a =? b then
    a0 ← rd inp ref; b0 ← rd inp ip; a1 ← rd inp (ref + 1); b1 ← rd inp (ip + 1);
    Ok ((a0 =? b0) && (a1 =? b1))
  else Ok false.

Definition backref (inp : mem) (s : lzf_state) (ref off : Z) : res round :=
  let in_end := Z.of_nat (length inp) in
  let out_end := Z.of_nat (length (c_out s)) in
  let ip := c_ip s in let op := c_op s in let lit := c_lit s in
  let maxlen := u32 (in_end - ip - 2) in
  let maxlen := if maxlen >? MAX_REF then MAX_REF else maxlen in
  let undo := if lit =? 0 then 1 else 0 in
  if (op + 3 + 1 >=? out_end) && (op - undo + 3 + 1 >=? out_end) then Ok (Full (c_out s))
  else
    out ← stop_run (c_out s) op lit;
    let op := op - undo in
    len ← match_len inp ref ip maxlen;
    let len := len - 2 in
    let ip := ip + 1 in
    '(out, op) ← (if len <? 7 then
                    out ← wr out op [u8 (Z.shiftr off 8 + Z.shiftl len 5)]; Ok (out, op + 1)
                  else
                    out ← wr out op [u8 (Z.shiftr off 8 + Z.shiftl 7 5)];
                    out ← wr out (op + 1) [u8 (len - 7)]; Ok (out, op + 2));
    out ← wr out op [u8 off];
    let op := op + 2 in
    let ip := ip + len + 1 in
    if ip >=? in_end - 2 then Ok (Break (mkLzf ip op 0 (c_hval s) (c_htab s) out))
    else
      let ip := ip - 2 in
      hval ← FRST inp ip;
      hval ← NEXT hval inp ip;
      let htab := <[IDX hval := u32 ip]> (c_htab s) in
      let ip := ip + 1 in
      hval ← NEXT hval inp ip;
      let htab := <[IDX hval := u32 ip]> htab in
      Ok (Next (mkLzf (ip + 1) op 0 hval htab out)).

(** [htab0] is what the table holds before it is written. *)
Section compress.
  Context (htab0 : Z → Z).

Definition hslot (htab : gmap Z Z) (i : Z) : Z := u32 (default (htab0 i) (htab !! i)).

Definition compress_round (inp : mem) (s : lzf_state) : res round :=
  hval ← NEXT (c_hval s) inp (c_ip s);
  let ref := hslot (c_htab s) (IDX hval) in
  let s := mkLzf (c_ip s) (c_op s) (c_lit s) hval (<[IDX hval := u32 (c_ip s)]> (c_htab s)) (c_out s) in
  let off := to_size_t (c_ip s - ref - 1) in
  found ← (if (off <? MAX_OFF) && (ref >? 0) then same3 inp ref (c_ip s) else Ok false);
  if found : bool then backref inp s ref off
  else if c_op s >=? Z.of_nat (length (c_out s)) then Ok (Full (c_out s))
  else s ← literal inp s; Ok (Next s).

Fixpoint compress_loop (fuel : nat) (inp : mem) (s : lzf_state) : res (mem + lzf_state) :=
  if c_ip s <? Z.of_nat (length inp) - 2 then
    match fuel with
    | O => Fault OutOfFuel
    | S f =>
        r ← compress_round inp s;
        match r with
        | Full out => Ok (inl out)
        | Break s => Ok (inr s)
        | Next s => compress_loop f inp s
        end
    end
  else Ok (inr s).

(** The last bytes, one literal each. *)
Fixpoint tail_loop (fuel : nat) (inp : mem) (s : lzf_state) : res lzf_state :=
  if c_ip s <? Z.of_nat (length inp) then
    match fuel with
    | O => Fault OutOfFuel
    | S f => s ← literal inp s; tail_loop f inp s
    end
  else Ok s.

(** The length of the compressed data, 0 if it does not fit, and the output buffer. *)
Definition lzf_compress (inp out : mem) : res (Z * mem) :=
  let n := length inp in
  if (n =? 0)%nat || (length out =? 0)%nat then Ok (0, out)
  else
    hval ← FRST inp 0;
    r ← compress_loop n inp (mkLzf 0 1 0 hval ∅ out);
    match r with
    | inl out => Ok (0, out)
    | inr s =>
        if c_op s + 3 >? Z.of_nat (length out) then Ok (0, c_out s)
        else
          s ← tail_loop n inp s;
          out ← stop_run (c_out s) (c_op s) (c_lit s);
          Ok (c_op s - (if c_lit s =? 0 then 1 else 0), out)
    end.
End compress.

(** * Decompression *)

Inductive lzf_errno := E2BIG | EINVAL.

Fixpoint copy_in (n : nat) (inp : mem) (ip : Z) (out : mem) (op : Z) : res mem :=
  match n with
  | O => Ok out
  | S n' => b ← rd inp ip; out ← wr out op [b]; copy_in n' inp (ip + 1) out (op + 1)
  end.

Fixpoint copy_ref (n : nat) (out : mem) (ref op : Z) : res mem :=
  match n with
  | O => Ok out
  | S n' => b ← rd out ref; out ← wr out op [b]; copy_ref n' out (ref + 1) (op + 1)
  end.

(** The copy of [len + 2] bytes of a back reference. *)
Definition copy_back (out : mem) (ref op len : Z) : res mem :=
  if len <=? 9 then copy_ref (Z.to_nat (len + 2)) out ref op
  else if op >=? ref + (len + 2) then memmove out op ref (len + 2)
  else copy_ref (Z.to_nat (len + 2)) out ref op.

(** One round: the error, or [ip], the output and [op] after it. *)
Definition decompress_round (inp : mem) (ip : Z) (out : mem) (op : Z) : res (lzf_errno + Z * mem * Z) :=
  let in_end := Z.of_nat (length inp) in
  let out_end := Z.of_nat (length out) in
  ctrl ← rd inp ip;
  let ip := ip + 1 in
  if ctrl <? Z.shiftl 1 5 then
    let ctrl := ctrl + 1 in
    if op + ctrl >? out_end then Ok (inl E2BIG)
    else if ip + ctrl >? in_end then Ok (inl EINVAL)
    else out ← copy_in (Z.to_nat ctrl) inp ip out op; Ok (inr (ip + ctrl, out, op + ctrl))
  else
    let len := Z.shiftr ctrl 5 in
    let ref := op - Z.shiftl (Z.land ctrl 31) 8 - 1 in
    if ip >=? in_end then Ok (inl EINVAL)
    else
      long ← (if len =? 7 then
                b ← rd inp ip; Ok (if ip + 1 >=? in_end then None else Some (len + b, ip + 1))
              else Ok (Some (len, ip)));
      match long with
      | None => Ok (inl EINVAL)
      | Some (len, ip) =>
          b ← rd inp ip;
          let ref := ref - b in
          let ip := ip + 1 in
          if op + len + 2 >? out_end then Ok (inl E2BIG)
          else if ref <? 0 then Ok (inl EINVAL)
          else out ← copy_back out ref op len; Ok (inr (ip, out, op + len + 2))
      end.

Fixpoint decompress_loop (fuel : nat) (inp : mem) (ip : Z) (out : mem) (op : Z) : res ((lzf_errno + Z) * mem) :=
  match fuel with
  | O => Fault OutOfFuel
  | S f =>
      r ← decompress_round inp ip out op;
      match r with
      | inl e => Ok (inl e, out)
      | inr (ip, out, op) =>
          if ip <? Z.of_nat (length inp) then decompress_loop f inp ip out op else Ok (inr op, out)
      end
  end.

(** [inl e]: the function returns 0 and sets [errno]. *)
Definition lzf_decompress (inp out : mem) : res ((lzf_errno + Z) * mem) :=
  decompress_loop (S (length inp)) inp 0 out 0.
