(* ===== verification/LzfSpec.v ===== *)
(** LZF: the compressed data is a sequence of tokens, literal runs and back references;
    the compressor emits tokens that stand for its input, the decompressor expands them, and
    neither leaves its buffers. *)
From S2P Require Import Prelude CString Util Ziplist ZiplistSpec Lzf.
Local Open Scope Z_scope.

(** * Tokens *)

(** A back reference copies [n] bytes from [off + 1] bytes back. *)
Inductive lzf_token := TLit (l : list Z) | TRef (n : nat) (off : Z).

Definition enc_token (t : lzf_token) : list Z :=
  match t with
  | TLit l => (zlen l - 1) :: l
  | TRef n off =>
      let len := Z.of_nat n - 2 in
      if len <? 7 then [off / 256 + len * 32; off mod 256] else [off / 256 + 224; len - 7; off mod 256]
  end.

(** The copy may run into what it has copied. *)
Fixpoint ref_copy (n : nat) (acc : list Z) (d : nat) : list Z :=
  match n with
  | O => acc
  | S n' => ref_copy n' (acc ++ match acc !! (length acc - d)%nat with Some b => [b] | None => [] end) d
  end.

Definition apply_token (acc : list Z) (t : lzf_token) : list Z :=
  match t with TLit l => acc ++ l | TRef n off => ref_copy n acc (S (Z.to_nat off)) end.

Definition token_ok (acc : list Z) (t : lzf_token) : Prop :=
  match t with
  | TLit l => 1 ≤ zlen l ≤ 32
  | TRef n off => (3 ≤ n ≤ 264)%nat ∧ 0 ≤ off < 8192 ∧ off < zlen acc
  end.

Definition enc_tokens (ts : list lzf_token) : list Z := concat (map enc_token ts).

Fixpoint tokens_ok (acc : list Z) (ts : list lzf_token) : Prop :=
  match ts with [] => True | t :: ts => token_ok acc t ∧ tokens_ok (apply_token acc t) ts end.

Lemma enc_tokens_snoc ts t : enc_tokens (ts ++ [t]) = enc_tokens ts ++ enc_token t.
Proof. unfold enc_tokens. rewrite map_app, concat_app. cbn. by rewrite app_nil_r. Qed.

Lemma tokens_ok_snoc ts t : ∀ acc,
  tokens_ok acc (ts ++ [t]) ↔ tokens_ok acc ts ∧ token_ok (foldl apply_token acc ts) t.
Proof. induction ts as [|t' ts IH]; intros acc; cbn; [naive_solver|]. rewrite IH. naive_solver. Qed.

Lemma zlen_lookup {A} (l : list A) i : 0 ≤ i < zlen l → ∃ x, l !! Z.to_nat i = Some x.
Proof. intros Hi. apply lookup_lt_is_Some. unfold zlen in Hi. lia. Qed.

Lemma rd_lookup m p b : m !! Z.to_nat p = Some b → 0 ≤ p → rd m p = Ok b.
Proof. intros E Hp. unfold rd. destruct (Z.ltb_spec p 0); [lia|]. by apply at_index_Ok. Qed.

Lemma length_ref_copy n d : ∀ acc, (1 ≤ d ≤ length acc)%nat → length (ref_copy n acc d) = (length acc + n)%nat.
Proof.
  induction n as [|n IH]; intros acc Hd; cbn [ref_copy]; [lia|].
  destruct (lookup_lt_is_Some_2 acc (length acc - d)) as [b ->]; [lia|]. rewrite IH; rewrite length_app; cbn; lia.
Qed.

(** Where a list repeats itself, a copy yields its continuation. *)
Lemma ref_copy_take n d (l : list Z) : ∀ ip, (1 ≤ d ≤ ip)%nat → (ip + n ≤ length l)%nat →
  (∀ i, (i < n)%nat → l !! (ip - d + i)%nat = l !! (ip + i)%nat) → ref_copy n (take ip l) d = take (ip + n) l.
Proof.
  induction n as [|n IH]; intros ip Hd Hl Hs; cbn [ref_copy]; [by rewrite Nat.add_0_r|].
  rewrite length_take_le by lia. rewrite lookup_take_lt by lia.
  pose proof (Hs 0%nat ltac:(lia)) as H0. rewrite !Nat.add_0_r in H0. rewrite H0.
  destruct (lookup_lt_is_Some_2 l ip) as [b Hb]; [lia|]. rewrite Hb, <- (take_S_r _ _ _ Hb).
  replace (ip + S n)%nat with (S ip + n)%nat by lia. apply IH; [lia|lia|].
  intros i Hi. specialize (Hs (S i) ltac:(lia)).
  replace (S ip - d + i)%nat with (ip - d + S i)%nat by lia. by replace (S ip + i)%nat with (ip + S i)%nat by lia.
Qed.

(** * Decompression *)

Lemma copy_in_ok inp n : ∀ P l Q acc old rest,
  inp = P ++ l ++ Q → length l = n → length old = n →
  copy_in n inp (zlen P) (acc ++ old ++ rest) (zlen acc) = Ok (acc ++ l ++ rest).
Proof.
  induction n as [|n IH]; intros P l Q acc old rest -> Hl Ho; cbn [copy_in].
  { apply nil_length_inv in Hl as ->. by apply nil_length_inv in Ho as ->. }
  destruct l as [|b l]; [done|]. destruct old as [|o old]; [done|]. injection Hl as Hl. injection Ho as Ho.
  rewrite (rd_at _ P b (l ++ Q)) by done. res_step.
  rewrite (wr_at _ acc [o] (old ++ rest) _ [b]) by done. res_step.
  specialize (IH (P ++ [b]) l Q (acc ++ [b]) old rest). rewrite !zlen_app in IH. cbn in IH.
  change (zlen [b]) with 1 in IH. rewrite <- !app_assoc in IH. cbn in IH. by apply IH.
Qed.

Lemma copy_ref_ok n d : ∀ acc old rest,
  (1 ≤ d ≤ length acc)%nat → length old = n →
  copy_ref n (acc ++ old ++ rest) (zlen acc - Z.of_nat d) (zlen acc) = Ok (ref_copy n acc d ++ rest).
Proof.
  induction n as [|n IH]; intros acc old rest Hd Ho; cbn [copy_ref ref_copy].
  { by apply nil_length_inv in Ho as ->. }
  destruct old as [|o old]; [done|]. injection Ho as Ho.
  destruct (lookup_lt_is_Some_2 acc (length acc - d)) as [b Hb]; [lia|]. rewrite Hb.
  rewrite (rd_lookup _ _ b); [| |unfold zlen; lia].
  2: { unfold zlen. replace (Z.to_nat _) with (length acc - d)%nat by lia. by apply lookup_app_l_Some. }
  res_step. rewrite (wr_at _ acc [o] (old ++ rest) _ [b]) by done. res_step.
  specialize (IH (acc ++ [b]) old rest). rewrite zlen_app in IH. change (zlen [b]) with 1 in IH.
  rewrite <- app_assoc in IH. replace (zlen acc - Z.of_nat d + 1) with (zlen acc + 1 - Z.of_nat d) by lia.
  apply IH; [rewrite length_app; cbn; lia|done].
Qed.

(** Without overlap a copy is a block move. *)
Lemma ref_copy_disjoint n d : ∀ (acc : list Z) k, (k + d = length acc)%nat → (n ≤ d)%nat →
  ref_copy n acc d = acc ++ take n (drop k acc).
Proof.
  induction n as [|n IH]; intros acc k Hk Hn; cbn [ref_copy]; [by rewrite take_0, app_nil_r|].
  replace (length acc - d)%nat with k by lia.
  destruct (lookup_lt_is_Some_2 acc k) as [b Hb]; [lia|]. rewrite Hb, (IH _ (S k)) by (rewrite ?length_app; cbn; lia).
  rewrite (drop_S acc b k Hb). cbn [take]. rewrite <- app_assoc. cbn. do 2 f_equal.
  rewrite drop_app_le by lia. rewrite take_app_le by (rewrite length_drop; lia). done.
Qed.

Lemma copy_back_ok len d acc old rest :
  (1 ≤ d ≤ length acc)%nat → 0 ≤ len → Z.of_nat (length old) = len + 2 →
  copy_back (acc ++ old ++ rest) (zlen acc - Z.of_nat d) (zlen acc) len = Ok (ref_copy (Z.to_nat (len + 2)) acc d ++ rest).
Proof.
  intros Hd Hlen Ho. unfold copy_back. destruct (len <=? 9); [by apply copy_ref_ok; lia|].
  rewrite Z.geb_leb. destruct (Z.leb_spec (zlen acc - Z.of_nat d + (len + 2)) (zlen acc)); [|by apply copy_ref_ok; lia].
  set (k := (length acc - d)%nat). set (n := Z.to_nat (len + 2)).
  rewrite (memmove_at _ (take k acc) (take n (drop k acc)) (drop n (drop k acc) ++ old ++ rest) acc old rest).
  - rewrite (ref_copy_disjoint n d acc k) by lia. by rewrite <- app_assoc.
  - rewrite !app_assoc. f_equal. f_equal. rewrite <- app_assoc, take_drop. by rewrite take_drop.
  - unfold zlen. rewrite length_take. lia.
  - unfold zlen. rewrite length_take, length_drop. lia.
  - done.
  - done.
  - unfold zlen. rewrite length_take, length_drop. lia.
Qed.

Lemma zlen_apply acc t :
  token_ok acc t → zlen (apply_token acc t) = zlen acc + match t with TLit l => zlen l | TRef n _ => Z.of_nat n end.
Proof.
  destruct t as [l|n off]; cbn; intros Hok; [apply zlen_app|].
  unfold zlen in *. rewrite length_ref_copy; lia.
Qed.

(** The control byte of a back reference. *)
Lemma ctrl_parts hi len : 0 ≤ hi < 32 → 0 ≤ len →
  Z.shiftr (hi + len * 32) 5 = len ∧ Z.land (hi + len * 32) 31 = hi.
Proof.
  intros Hhi Hlen. rewrite Z.shiftr_div_pow2 by lia. change 31 with (Z.ones 5). rewrite Z.land_ones by lia.
  change (2 ^ 5) with 32. rewrite Z.div_add, Z.mod_add by lia. split; [rewrite Z.div_small; lia|by apply Z.mod_small].
Qed.

Lemma offset_parts off : 0 ≤ off < 8192 → 0 ≤ off / 256 < 32 ∧ 0 ≤ off mod 256 < 256 ∧ Z.shiftl (off / 256) 8 = off - off mod 256.
Proof.
  intros Ho. rewrite Z.shiftl_mul_pow2 by lia. change (2 ^ 8) with 256. pose proof (Z.div_mod off 256).
  pose proof (Z.mod_pos_bound off 256). lia.
Qed.

(** The end of a round for a back reference: the second byte of the offset was read. *)
Lemma backref_copy acc old rest n off out_end :
  (3 ≤ n)%nat → 0 ≤ off < 8192 → off < zlen acc → zlen old = Z.of_nat n → out_end = zlen (acc ++ old ++ rest) →
  let ref := zlen acc - Z.shiftl (off / 256) 8 - 1 - off mod 256 in
  (zlen acc + (Z.of_nat n - 2) + 2 >? out_end) = false ∧ (ref <? 0) = false ∧
  copy_back (acc ++ old ++ rest) ref (zlen acc) (Z.of_nat n - 2) = Ok (ref_copy n acc (S (Z.to_nat off)) ++ rest).
Proof.
  intros Hn Hoff Hacc Hold -> ref. destruct (offset_parts off Hoff) as (_ & _ & Hs).
  assert (Hr : ref = zlen acc - Z.of_nat (S (Z.to_nat off))) by (unfold ref; lia). split_and!.
  - rewrite Z.gtb_ltb. apply Z.ltb_ge. zlens. zlia.
  - apply Z.ltb_ge. lia.
  - rewrite Hr. rewrite copy_back_ok; [|unfold zlen in Hacc; lia|lia|unfold zlen in Hold; lia].
    by replace (Z.to_nat (Z.of_nat n - 2 + 2)) with n by lia.
Qed.

(** A round expands one token. *)
Lemma decompress_round_ok inp P t Q acc rest :
  inp = P ++ enc_token t ++ Q → token_ok acc t → zlen (apply_token acc t) ≤ zlen (acc ++ rest) →
  ∃ rest', decompress_round inp (zlen P) (acc ++ rest) (zlen acc) =
    Ok (inr (zlen (P ++ enc_token t), apply_token acc t ++ rest', zlen (apply_token acc t))) ∧
    zlen (apply_token acc t ++ rest') = zlen (acc ++ rest).
Proof.
  intros Hin Hok Hfit. pose proof (zlen_apply acc t Hok) as Hlen. rewrite Hlen in *. rewrite zlen_app in Hfit.
  assert (∃ old rest', rest = old ++ rest' ∧ zlen old = match t with TLit l => zlen l | TRef n _ => Z.of_nat n end)
    as (old & rest' & -> & Hold).
  { destruct (split_at rest (match t with TLit l => zlen l | TRef n _ => Z.of_nat n end)) as (old & rest' & ? & ? & _); [|by eauto].
    destruct t; zlia. }
  exists rest'. split; [|rewrite !zlen_app, Hlen, Hold; lia].
  unfold decompress_round. fold (zlen inp) (zlen (acc ++ old ++ rest')). destruct t as [l|n off]; cbn [enc_token token_ok apply_token] in *.
  - rewrite (rd_at inp P (zlen l - 1) (l ++ Q) _ Hin eq_refl). res_step. change (Z.shiftl 1 5) with 32.
    destruct (Z.ltb_spec (zlen l - 1) 32); [|lia]. rewrite !Z.gtb_ltb.
    destruct (Z.ltb_spec (zlen (acc ++ old ++ rest')) (zlen acc + (zlen l - 1 + 1))); [zlens_all; zlia|].
    destruct (Z.ltb_spec (zlen inp) (zlen P + 1 + (zlen l - 1 + 1))); [subst inp; zlens_all; zlia|].
    pose proof (copy_in_ok inp (length l) (P ++ [zlen l - 1]) l Q acc old rest') as Hc.
    replace (Z.to_nat (zlen l - 1 + 1)) with (length l) by (unfold zlen; lia).
    rewrite zlen_app in Hc. change (zlen [_]) with 1 in Hc. rewrite Hc; [|by rewrite <- app_assoc|done|unfold zlen in Hold; lia].
    res_step. rewrite <- app_assoc. do 3 f_equal; [f_equal|lia]. rewrite zlen_app, zlen_cons. lia.
  - destruct Hok as (Hn & Hoff & Hacc). destruct (offset_parts off Hoff) as (Hhi & Hlo & _).
    destruct (backref_copy acc old rest' n off _ (proj1 Hn) Hoff Hacc Hold eq_refl) as (Hb1 & Hb2 & Hc).
    change (Z.shiftl 1 5) with 32. destruct (Z.ltb_spec (Z.of_nat n - 2) 7).
    + rewrite (rd_at inp P (off / 256 + (Z.of_nat n - 2) * 32) ([off mod 256] ++ Q) _ Hin eq_refl). res_step.
      destruct (Z.ltb_spec (off / 256 + (Z.of_nat n - 2) * 32) 32); [lia|].
      destruct (ctrl_parts (off / 256) (Z.of_nat n - 2)) as [-> ->]; [done|lia|].
      rewrite Z.geb_leb. destruct (Z.leb_spec (zlen inp) (zlen P + 1)); [subst inp; zlens_all; zlia|].
      destruct (Z.eqb_spec (Z.of_nat n - 2) 7); [lia|]. res_step.
      rewrite (rd_at inp (P ++ [off / 256 + (Z.of_nat n - 2) * 32]) (off mod 256) Q); [|by rewrite <- app_assoc|zlens; lia].
      res_step. rewrite Hb1, Hb2, Hc. res_step. do 3 f_equal; [f_equal|lia]. zlens. lia.
    + rewrite (rd_at inp P (off / 256 + 224) ([Z.of_nat n - 2 - 7; off mod 256] ++ Q) _ Hin eq_refl). res_step.
      destruct (Z.ltb_spec (off / 256 + 224) 32); [lia|].
      destruct (ctrl_parts (off / 256) 7) as [E1 E2]; [done|lia|]. change (7 * 32) with 224 in *. rewrite E1, E2.
      rewrite !Z.geb_leb. destruct (Z.leb_spec (zlen inp) (zlen P + 1)); [subst inp; zlens_all; zlia|].
      rewrite Z.eqb_refl.
      rewrite (rd_at inp (P ++ [off / 256 + 224]) (Z.of_nat n - 2 - 7) (off mod 256 :: Q)); [|by rewrite <- app_assoc|zlens; lia].
      res_step. destruct (Z.leb_spec (zlen inp) (zlen P + 1 + 1)); [subst inp; zlens_all; zlia|]. res_step.
      rewrite (rd_at inp (P ++ [off / 256 + 224; Z.of_nat n - 2 - 7]) (off mod 256) Q); [|by rewrite <- app_assoc|zlens; lia].
      res_step. replace (7 + (Z.of_nat n - 2 - 7)) with (Z.of_nat n - 2) by lia.
      rewrite Hb1, Hb2, Hc. res_step. do 3 f_equal; [f_equal|lia]. zlens. lia.
Qed.

Lemma zlen_enc_pos acc t : token_ok acc t → 2 ≤ zlen (enc_token t).
Proof. destruct t as [l|n off]; cbn; intros Hok; [zlens; lia|]. destruct (_ <? _); done. Qed.

(** The tokens left from [P] on are expanded into the room that is left. *)
Lemma decompress_tokens ts : ∀ inp fuel P acc rest,
  ts ≠ [] → inp = P ++ enc_tokens ts → tokens_ok acc ts → zlen (enc_tokens ts) < Z.of_nat fuel →
  zlen (foldl apply_token acc ts) = zlen (acc ++ rest) →
  decompress_loop fuel inp (zlen P) (acc ++ rest) (zlen acc) =
    Ok (inr (zlen (acc ++ rest)), foldl apply_token acc ts).
Proof.
  induction ts as [|t ts IH]; intros inp fuel P acc rest Hne Hin Hok Hf Hfit; [done|]. clear Hne. destruct Hok as [Ht Hts].
  change (enc_tokens (t :: ts)) with (enc_token t ++ enc_tokens ts) in *. destruct fuel as [|fuel]; [zlia|].
  assert (Hmono : ∀ ts acc, tokens_ok acc ts → zlen acc ≤ zlen (foldl apply_token acc ts)).
  { clear. intros ts. induction ts as [|t ts IH]; intros acc; cbn; [lia|]. intros [Ht Hts]. specialize (IH _ Hts).
    rewrite (zlen_apply _ _ Ht) in IH. destruct t; zlia. }
  cbn [decompress_loop foldl] in *. pose proof (Hmono ts _ Hts) as Hle. pose proof (zlen_enc_pos _ _ Ht).
  destruct (decompress_round_ok inp P t (enc_tokens ts) acc rest Hin Ht) as (rest' & -> & Hl); [lia|]. res_step.
  fold (zlen inp). subst inp. rewrite <- Hl in *. destruct ts as [|t' ts].
  - cbn [enc_tokens map concat foldl] in *. rewrite app_nil_r, Z.ltb_irrefl.
    rewrite zlen_app in Hfit. assert (rest' = []) as -> by (apply zlen_zero; lia). by rewrite !app_nil_r.
  - pose proof (zlen_enc_pos _ _ (proj1 Hts)).
    destruct (Z.ltb_spec (zlen (P ++ enc_token t)) (zlen (P ++ enc_token t ++ enc_tokens (t' :: ts)))) as [_|Hbad].
    + apply IH; [done|by rewrite app_assoc|done| |done]. rewrite zlen_app in Hf. lia.
    + exfalso. revert Hbad. change (enc_tokens (t' :: ts)) with (enc_token t' ++ enc_tokens ts). zlens. zlia.
Qed.

(** ** Any input *)

Definition byte_range (b : Z) : Prop := 0 ≤ b < 256.

Lemma rd_in m p : Forall byte_range m → 0 ≤ p < zlen m → ∃ b, rd m p = Ok b ∧ byte_range b.
Proof.
  intros Hm Hp. destruct (zlen_lookup m p Hp) as [b Hb]. exists b. split; [apply rd_lookup; [done|lia]|].
  by eapply Forall_lookup_1.
Qed.

Lemma split3 {A} (l : list A) i n : 0 ≤ i → 0 ≤ n → i + n ≤ zlen l →
  ∃ a b c, l = a ++ b ++ c ∧ zlen a = i ∧ zlen b = n.
Proof.
  intros Hi Hn Hl. destruct (split_at l i) as (a & r & -> & Ha & Hr); [lia|].
  destruct (split_at r n) as (b & c & -> & Hb & _); [lia|]. by exists a, b, c.
Qed.

Lemma long_safe inp ip len :
  Forall byte_range inp → 0 ≤ ip → ip + 1 < zlen inp → 1 ≤ len →
  ∃ r, (if len =? 7 then b ← rd inp (ip + 1); Ok (if zlen inp <=? ip + 1 + 1 then None else Some (len + b, ip + 1 + 1))
        else Ok (Some (len, ip + 1))) = Ok r ∧
    match r with None => True | Some (len, ip') => 1 ≤ len ∧ ip < ip' < zlen inp end.
Proof.
  intros Hin H0 Hip Hlen. destruct (_ =? 7); [|exists (Some (len, ip + 1)); split; [done|lia]].
  destruct (rd_in inp (ip + 1) Hin) as (b & -> & Hb); [lia|]. res_step.
  destruct (Z.leb_spec (zlen inp) (ip + 1 + 1)); unfold byte_range in Hb; [by exists None|exists (Some (len + b, ip + 1 + 1)); split; [done|lia]].
Qed.

(** A round fails with an error, or moves on inside both buffers and leaves the output
    beyond [op] alone. *)
Lemma decompress_round_safe inp ip out op :
  Forall byte_range inp → 0 ≤ ip < zlen inp → 0 ≤ op ≤ zlen out →
  ∃ r, decompress_round inp ip out op = Ok r ∧
    match r with
    | inl _ => True
    | inr (ip', out', op') => ip < ip' ≤ zlen inp ∧ op < op' ≤ zlen out ∧ zlen out' = zlen out ∧
        drop (Z.to_nat op') out' = drop (Z.to_nat op') out
    end.
Proof.
  intros Hin Hip Hop. unfold decompress_round. fold (zlen inp) (zlen out).
  destruct (rd_in inp ip Hin Hip) as (ctrl & -> & Hc). res_step. unfold byte_range in Hc. change (Z.shiftl 1 5) with 32.
  rewrite !Z.gtb_ltb, !Z.geb_leb. destruct (Z.ltb_spec ctrl 32).
  - destruct (Z.ltb_spec (zlen out) (op + (ctrl + 1))); [by eexists|].
    destruct (Z.ltb_spec (zlen inp) (ip + 1 + (ctrl + 1))); [by eexists|].
    destruct (split3 inp (ip + 1) (ctrl + 1)) as (P & l & Q & -> & HP & Hl); [lia..|].
    destruct (split3 out op (ctrl + 1)) as (acc & old & rest & -> & Ha & Ho); [lia..|].
    rewrite <- HP, <- Ha. unfold zlen in Hl, Ho. rewrite (copy_in_ok _ _ P l Q acc old rest) by lia || done. res_step.
    eexists. split; [done|]. fold (zlen l) in Hl. fold (zlen old) in Ho. zlens_all. split_and!; try zlia.
    replace (zlen acc + (ctrl + 1)) with (zlen (acc ++ l)) at 1 by (zlens; lia).
    replace (zlen acc + (ctrl + 1)) with (zlen (acc ++ old)) by (zlens; lia). by rewrite !app_assoc, !drop_zlen.
  - destruct (Z.leb_spec (zlen inp) (ip + 1)); [by eexists|].
    assert (Hs : 1 ≤ Z.shiftr ctrl 5).
    { rewrite Z.shiftr_div_pow2 by lia. change (2 ^ 5) with 32. apply Z.div_le_lower_bound; lia. }
    assert (Hl : 0 ≤ Z.shiftl (Z.land ctrl 31) 8).
    { apply Z.shiftl_nonneg, Z.land_nonneg. lia. }
    destruct (long_safe inp ip (Z.shiftr ctrl 5) Hin) as (r & -> & Hr); [lia..|].
    res_step. destruct r as [[len ip']|]; [|by eexists].
    destruct (rd_in inp ip' Hin) as (b & -> & Hb); [lia|]. res_step. unfold byte_range in Hb.
    rewrite Z.gtb_ltb. destruct (Z.ltb_spec (zlen out) (op + len + 2)); [by eexists|].
    destruct (Z.ltb_spec (op - Z.shiftl (Z.land ctrl 31) 8 - 1 - b) 0); [by eexists|].
    destruct (split3 out op (len + 2)) as (acc & old & rest & -> & Ha & Ho); [lia..|].
    set (d := Z.to_nat (Z.shiftl (Z.land ctrl 31) 8 + 1 + b)).
    replace (op - Z.shiftl (Z.land ctrl 31) 8 - 1 - b) with (zlen acc - Z.of_nat d) by lia. rewrite <- Ha.
    assert (Hd : (1 ≤ d ≤ length acc)%nat) by (unfold zlen in *; lia).
    rewrite copy_back_ok; [|done|lia|unfold zlen in Ho; lia]. res_step.
    assert (Hc' : zlen (ref_copy (Z.to_nat (len + 2)) acc d) = zlen acc + len + 2).
    { unfold zlen in *. rewrite length_ref_copy; lia. }
    eexists. split; [done|]. zlens_all. rewrite Hc'. split_and!; try zlia.
    rewrite <- Hc' at 1. rewrite drop_zlen, app_assoc.
    replace (zlen acc + len + 2) with (zlen (acc ++ old)) by (zlens; lia). by rewrite drop_zlen.
Qed.

Lemma drop_same {A} (l l' : list A) i j : (i ≤ j)%nat → drop i l = drop i l' → drop j l = drop j l'.
Proof. intros Hij E. replace j with (i + (j - i))%nat by lia. by rewrite <- !drop_drop, E. Qed.

Lemma decompress_loop_safe inp fuel : ∀ ip out op,
  Forall byte_range inp → 0 ≤ ip < zlen inp → 0 ≤ op ≤ zlen out → zlen inp - ip < Z.of_nat fuel →
  ∃ r out', decompress_loop fuel inp ip out op = Ok (r, out') ∧ zlen out' = zlen out ∧
    ∀ n, r = inr n → op < n ≤ zlen out ∧ drop (Z.to_nat n) out' = drop (Z.to_nat n) out.
Proof.
  induction fuel as [|fuel IH]; intros ip out op Hin Hip Hop Hf; [lia|]. cbn [decompress_loop].
  destruct (decompress_round_safe inp ip out op Hin Hip Hop) as (r & -> & Hr). res_step.
  destruct r as [e|[[ip' out'] op']]; [by eexists _, _|]. destruct Hr as (Hip' & Hop' & Hl & Hd).
  fold (zlen inp). destruct (Z.ltb_spec ip' (zlen inp)).
  - destruct (IH ip' out' op' Hin) as (r & out2 & -> & Hl2 & Hr2); [lia..|].
    exists r, out2. split; [done|]. split; [lia|]. intros n Hn. destruct (Hr2 n Hn) as [Hn1 Hn2]. split; [lia|].
    rewrite Hn2. eapply drop_same; [|exact Hd]. lia.
  - eexists _, _. split; [done|]. split; [done|]. intros n [= <-]. split; [lia|done].
Qed.

(** C14: lzf_decompress stays inside its buffers on every input that is not empty, truncated
    and corrupted data included: it reports an error, or the length of the output, which
    fits; what lies beyond that length is not written. *)
Theorem lzf_decompress_safe inp out :
  inp ≠ [] → Forall byte_range inp →
  ∃ r out', lzf_decompress inp out = Ok (r, out') ∧ length out' = length out ∧
    ∀ n, r = inr n → 0 < n ≤ Z.of_nat (length out) ∧ drop (Z.to_nat n) out' = drop (Z.to_nat n) out.
Proof.
  intros Hne Hin. unfold lzf_decompress.
  destruct (decompress_loop_safe inp (S (length inp)) 0 out 0 Hin) as (r & out' & E & Hl & Hr).
  - destruct inp; [done|]. zlens. zlia.
  - zlia.
  - unfold zlen. lia.
  - exists r, out'. split; [done|]. split; [unfold zlen in Hl; lia|done].
Qed.

Lemma lzf_decompress_safe_witness :
  ∃ r out', lzf_decompress [2; 97; 98; 99; 32; 9] [0; 0; 0; 0; 0; 0; 0] = Ok (r, out') ∧ length out' = 7%nat.
Proof.
  destruct (lzf_decompress_safe [2; 97; 98; 99; 32; 9] [0; 0; 0; 0; 0; 0; 0]) as (r & out' & E & Hl & _);
    [discriminate|repeat constructor; discriminate|].
  exists r, out'. split; [exact E|exact Hl].
Defined.

(** * Compression *)

(** The bytes from [ref] and [ip] on agree on the first [n]. *)
Definition agree (inp : list Z) (ref ip n : Z) : Prop :=
  ∀ i, 0 ≤ i < n → inp !! Z.to_nat (ref + i) = inp !! Z.to_nat (ip + i).

Section match_length.
  Context (inp : list Z) (ref ip : Z) (Href : 0 ≤ ref < ip).

Lemma compare_at len {A} (k1 k2 : res A) :
  0 ≤ len → ip + len < zlen inp → agree inp ref ip len →
  ∃ e : bool, (a ← rd inp (ref + len); b ← rd inp (ip + len); if a =? b then k1 else k2) = (if e then k1 else k2) ∧
    (e = true → agree inp ref ip (len + 1)).
Proof.
  intros Hl Hb Hag. destruct (zlen_lookup inp (ref + len)) as [a Ha]; [lia|].
  destruct (zlen_lookup inp (ip + len)) as [b Hb']; [lia|].
  rewrite (rd_lookup _ _ _ Ha ltac:(lia)), (rd_lookup _ _ _ Hb' ltac:(lia)). do 2 res_step.
  exists (a =? b). split; [done|]. intros ->%Z.eqb_eq i Hi. destruct (decide (i = len)) as [->|]; [congruence|]. apply Hag. lia.
Qed.

Lemma unrolled_ok n : ∀ len, 0 ≤ len → ip + len + Z.of_nat n < zlen inp → agree inp ref ip (len + 1) →
  ∃ len' all, unrolled n inp ref ip len = Ok (len', all) ∧ len ≤ len' ≤ len + Z.of_nat n ∧
    (if all : bool then len' = len + Z.of_nat n ∧ agree inp ref ip (len' + 1) else len < len' ∧ agree inp ref ip len').
Proof.
  induction n as [|n IH]; intros len Hl Hb Hag; cbn [unrolled]; [exists len, true; split_and!; [done|lia..|done]|].
  destruct (compare_at (len + 1) (unrolled n inp ref ip (len + 1)) (Ok (len + 1, false))) as ([] & -> & He); [lia|lia|done| |].
  - destruct (IH (len + 1)) as (len' & all & -> & Hle & Hall); [lia|lia|by apply He|].
    exists len', all. split; [done|]. split; [lia|]. destruct all; destruct Hall; (split; [|done]); lia.
  - exists (len + 1), false. split_and!; [done|lia..|done].
Qed.

Lemma match_loop_ok fuel maxlen : ∀ len, 0 ≤ len → ip + len < zlen inp → ip + maxlen ≤ zlen inp →
  agree inp ref ip (len + 1) → 0 < Z.of_nat fuel → maxlen - len ≤ Z.of_nat fuel →
  ∃ len', match_loop fuel inp ref ip maxlen len = Ok len' ∧ len < len' ∧ len' ≤ Z.max (len + 1) maxlen ∧ agree inp ref ip len'.
Proof.
  induction fuel as [|fuel IH]; intros len Hl Hb Hm Hag H0 Hf; [lia|]. cbn [match_loop].
  destruct (Z.ltb_spec (len + 1) maxlen); [|exists (len + 1); split_and!; [done|lia..|done]].
  destruct (compare_at (len + 1) (match_loop fuel inp ref ip maxlen (len + 1)) (Ok (len + 1))) as ([] & -> & He); [lia|lia|done| |].
  - destruct (IH (len + 1)) as (len' & -> & ? & ? & ?); [lia|lia|lia|by apply He|lia|lia|].
    exists len'. split_and!; [done|lia..|done].
  - exists (len + 1). split_and!; [done|lia..|done].
Qed.

Lemma match_len_ok maxlen : agree inp ref ip 3 → 1 ≤ maxlen ≤ 264 → maxlen ≤ zlen inp - ip - 2 →
  ∃ len, match_len inp ref ip maxlen = Ok len ∧ 3 ≤ len ≤ 264 ∧ ip + len ≤ zlen inp ∧ agree inp ref ip len.
Proof.
  intros Hag Hm Hb. unfold match_len. rewrite Z.gtb_ltb. destruct (Z.ltb_spec 16 maxlen).
  - destruct (unrolled_ok 16 2) as (len & all & -> & Hl & Hall); [lia|lia|done|]. res_step. destruct all; destruct Hall as [H1 H2].
    + destruct (match_loop_ok (Z.to_nat maxlen) maxlen len) as (len' & -> & ? & ? & ?); [lia|lia|lia|done|lia|lia|].
      exists len'. split_and!; [done|lia..|done].
    + exists len. split_and!; [done|lia..|done].
  - res_step. destruct (match_loop_ok (Z.to_nat maxlen) maxlen 2) as (len' & -> & ? & ? & ?); [lia|lia|lia|done|lia|lia|].
    exists len'. split_and!; [done|lia..|done].
Qed.

Lemma same3_ok : ip + 2 < zlen inp → ∃ e : bool, same3 inp ref ip = Ok e ∧ (e = true → agree inp ref ip 3).
Proof.
  intros Hb. unfold same3.
  destruct (zlen_lookup inp (ref + 2)) as [a2 Ha2]; [lia|]. destruct (zlen_lookup inp (ip + 2)) as [b2 Hb2]; [lia|].
  destruct (zlen_lookup inp (ref + 1)) as [a1 Ha1]; [lia|]. destruct (zlen_lookup inp (ip + 1)) as [b1 Hb1]; [lia|].
  destruct (zlen_lookup inp ref) as [a0 Ha0]; [lia|]. destruct (zlen_lookup inp ip) as [b0 Hb0]; [lia|].
  rewrite (rd_lookup _ _ _ Ha2 ltac:(lia)), (rd_lookup _ _ _ Hb2 ltac:(lia)), (rd_lookup _ _ _ Ha1 ltac:(lia)),
    (rd_lookup _ _ _ Hb1 ltac:(lia)), (rd_lookup _ _ _ Ha0 ltac:(lia)), (rd_lookup _ _ _ Hb0 ltac:(lia)).
  do 2 res_step. destruct (Z.eqb_spec a2 b2) as [->|]; [|by exists false]. do 4 res_step.
  eexists. split; [done|]. intros [->%Z.eqb_eq ->%Z.eqb_eq]%andb_true_iff i Hi.
  assert (i = 0 ∨ i = 1 ∨ i = 2) as [-> | [-> | ->]] by lia; rewrite ?Z.add_0_r; congruence.
Qed.
End match_length.

(** ** The state of the compressor *)

(** The tokens [ts] are written, the run [ls] is open: its length byte comes before its
    bytes, unless the buffer is used up. *)
Record compressing (inp : list Z) (s : lzf_state) (ts : list lzf_token) (ls : list Z) : Prop := {
  cp_tokens : tokens_ok [] ts;
  cp_input : foldl apply_token [] ts ++ ls = take (Z.to_nat (c_ip s)) inp;
  cp_ip : 0 ≤ c_ip s ≤ zlen inp;
  cp_op : c_op s = zlen (enc_tokens ts) + 1 + zlen ls;
  cp_lit : c_lit s = zlen ls;
  cp_run : zlen ls < 32;
  cp_out : (∃ x rest, c_out s = enc_tokens ts ++ x :: ls ++ rest) ∨ (ls = [] ∧ c_out s = enc_tokens ts);
}.

Lemma compressing_room inp s ts ls :
  compressing inp s ts ls → c_op s ≤ zlen (c_out s) → ∃ x rest, c_out s = enc_tokens ts ++ x :: ls ++ rest.
Proof. intros [_ _ _ Hop _ _ [?|[-> E]]]; [done|]. rewrite E, Hop. zlens. lia. Qed.

(** Closing the run. *)
Lemma stop_run_ok ts (ls rest : list Z) x :
  stop_run (enc_tokens ts ++ x :: ls ++ rest) (zlen (enc_tokens ts) + 1 + zlen ls) (zlen ls) =
    Ok (enc_tokens ts ++ u8 (zlen ls - 1) :: ls ++ rest).
Proof.
  unfold stop_run. by rewrite (wr_at _ (enc_tokens ts) [x] (ls ++ rest)) by lia || done.
Qed.

Lemma close_run ts (ls rest : list Z) :
  1 ≤ zlen ls ≤ 32 → enc_tokens ts ++ u8 (zlen ls - 1) :: ls ++ rest = enc_tokens (ts ++ [TLit ls]) ++ rest.
Proof.
  intros Hl. rewrite enc_tokens_snoc. cbn [enc_token]. unfold u8, to_unsigned. rewrite Z.mod_small by lia. by rewrite <- !app_assoc.
Qed.

Lemma take_ip_S (inp : list Z) ip b :
  0 ≤ ip → inp !! Z.to_nat ip = Some b → take (Z.to_nat (ip + 1)) inp = take (Z.to_nat ip) inp ++ [b].
Proof. intros Hi Hb. replace (Z.to_nat (ip + 1)) with (S (Z.to_nat ip)) by lia. by apply take_S_r. Qed.

Lemma literal_ok inp s ts ls :
  compressing inp s ts ls → c_ip s < zlen inp → c_op s < zlen (c_out s) →
  ∃ s' ts' ls', literal inp s = Ok s' ∧ compressing inp s' ts' ls' ∧ c_ip s' = c_ip s + 1 ∧
    zlen (c_out s') = zlen (c_out s) ∧
    (if c_lit s + 1 =? 32 then c_lit s' = 0 ∧ c_op s' = c_op s + 2 else c_lit s' = c_lit s + 1 ∧ c_op s' = c_op s + 1).
Proof.
  intros Hc Hip Hop. destruct (compressing_room inp s ts ls Hc) as (x & rest & Eout); [lia|].
  destruct Hc as [Hok Hin Hip' Eop Elit Hrun _]. unfold literal. change MAX_LIT with 32.
  destruct (zlen_lookup inp (c_ip s)) as [b Hb]; [lia|]. rewrite (rd_lookup _ _ _ Hb) by lia. res_step.
  destruct rest as [|y rest]; [revert Hop; rewrite Eout; zlens; lia|].
  rewrite (wr_at (c_out s) (enc_tokens ts ++ x :: ls) [y] rest (c_op s) [b]); [|by rewrite Eout, <- app_assoc|zlens; lia|done].
  res_step. assert (Hls : zlen (ls ++ [b]) = zlen ls + 1) by (by zlens).
  assert (Hin' : foldl apply_token [] ts ++ ls ++ [b] = take (Z.to_nat (c_ip s + 1)) inp).
  { rewrite app_assoc, Hin. symmetry. apply take_ip_S; [lia|done]. }
  assert (Eo : (enc_tokens ts ++ x :: ls) ++ [b] ++ rest = enc_tokens ts ++ x :: (ls ++ [b]) ++ rest).
  { by rewrite <- !app_assoc. }
  rewrite Eo. destruct (Z.eqb_spec (c_lit s + 1) 32).
  - replace (c_op s + 1) with (zlen (enc_tokens ts) + 1 + zlen (ls ++ [b])) by lia.
    replace (c_lit s + 1) with (zlen (ls ++ [b])) by lia. rewrite stop_run_ok, close_run by lia. res_step.
    eexists _, (ts ++ [TLit (ls ++ [b])]), []. split; [done|]. split; [|cbn].
    + split; cbn; rewrite ?foldl_snoc, ?app_nil_r; try done; [|lia| |].
      * rewrite tokens_ok_snoc. split; [done|]. cbn. lia.
      * rewrite enc_tokens_snoc. zlens. cbn [enc_token]. zlens. lia.
      * destruct rest as [|z rest]; [right|left; by eexists _, _]. by rewrite app_nil_r.
    + split; [done|]. split; [rewrite <- close_run, Eout by lia; zlens; lia|]. split; [done|lia].
  - eexists _, ts, (ls ++ [b]). split; [done|]. split; [|cbn].
    + split; cbn; try done; [lia|lia|lia|lia|]. left. by eexists _, _.
    + split; [done|]. split; [rewrite Eout; zlens; lia|]. done.
Qed.

(** The end of a run, before a back reference or at the end of the input. *)
Lemma end_run inp s ts ls :
  compressing inp s ts ls → c_op s ≤ zlen (c_out s) →
  ∃ ts' rest, stop_run (c_out s) (c_op s) (c_lit s) = Ok (enc_tokens ts' ++ rest) ∧
    c_op s - (if c_lit s =? 0 then 1 else 0) = zlen (enc_tokens ts') ∧ tokens_ok [] ts' ∧
    foldl apply_token [] ts' = take (Z.to_nat (c_ip s)) inp ∧ zlen (enc_tokens ts' ++ rest) = zlen (c_out s).
Proof.
  intros Hc Hop. destruct (compressing_room inp s ts ls Hc Hop) as (x & rest & Eout).
  destruct Hc as [Hok Hin _ Eop Elit Hrun _]. rewrite Eout, Eop, Elit, stop_run_ok.
  destruct (Z.eqb_spec (zlen ls) 0) as [E0|].
  - apply zlen_zero in E0 as ->. rewrite app_nil_r in Hin. exists ts. eexists. split; [done|]. split_and!; [zlens; lia|done|done|].
    by zlens.
  - rewrite close_run by zlia. exists (ts ++ [TLit ls]), rest. split; [done|].
    rewrite tokens_ok_snoc, foldl_snoc. rewrite enc_tokens_snoc. cbn [enc_token token_ok apply_token].
    split_and!; [zlens; lia|done|zlia|zlia|done|zlens; lia].
Qed.

Lemma u8_small z : 0 ≤ z < 256 → u8 z = z.
Proof. apply Z.mod_small. Qed.

(** The two or three bytes of a back reference. *)
Lemma emit_ref ts (rest : list Z) n off :
  (3 ≤ n ≤ 264)%nat → 0 ≤ off < 8192 → 4 < zlen rest →
  let len := Z.of_nat n - 2 in let op := zlen (enc_tokens ts) in let out := enc_tokens ts ++ rest in
  ∃ out' op' rest', (if len <? 7 then
       out ← wr out op [u8 (Z.shiftr off 8 + Z.shiftl len 5)]; Ok (out, op + 1)
     else
       out ← wr out op [u8 (Z.shiftr off 8 + Z.shiftl 7 5)];
       out ← wr out (op + 1) [u8 (len - 7)]; Ok (out, op + 2)) = Ok (out', op') ∧
    wr out' op' [u8 off] = Ok (enc_tokens (ts ++ [TRef n off]) ++ rest') ∧
    op' + 1 = zlen (enc_tokens (ts ++ [TRef n off])) ∧ rest' ≠ [] ∧
    zlen (enc_tokens (ts ++ [TRef n off]) ++ rest') = zlen out.
Proof.
  intros Hn Hoff Hr len op out. destruct (offset_parts off Hoff) as (Hhi & _ & _).
  rewrite enc_tokens_snoc. cbn [enc_token]. fold len. unfold out, op.
  rewrite Z.shiftr_div_pow2, !Z.shiftl_mul_pow2 by lia. change (2 ^ 8) with 256. change (7 * 2 ^ 5) with 224. change (2 ^ 5) with 32.
  destruct rest as [|r0 [|r1 [|r2 [|r3 rest]]]]; try (zlens_all; lia).
  destruct (Z.ltb_spec len 7).
  - rewrite u8_small by lia. rewrite (wr_at _ (enc_tokens ts) [r0] (r1 :: r2 :: r3 :: rest)) by done. res_step.
    eexists _, _, (r2 :: r3 :: rest). split; [done|].
    rewrite (wr_at _ (enc_tokens ts ++ [off / 256 + len * 32]) [r1] (r2 :: r3 :: rest)); [|by rewrite <- app_assoc|zlens; lia|done].
    split_and!; [by rewrite <- !app_assoc|zlens; lia|done|zlens; lia].
  - rewrite (u8_small (off / 256 + 224)), (u8_small (len - 7)) by lia.
    rewrite (wr_at _ (enc_tokens ts) [r0] (r1 :: r2 :: r3 :: rest)) by done. res_step.
    rewrite (wr_at _ (enc_tokens ts ++ [off / 256 + 224]) [r1] (r2 :: r3 :: rest)); [|by rewrite <- app_assoc|zlens; lia|done]. res_step.
    eexists _, _, (r3 :: rest). split; [done|].
    rewrite (wr_at _ (enc_tokens ts ++ [off / 256 + 224; len - 7]) [r2] (r3 :: rest)); [|by rewrite <- !app_assoc|zlens; lia|done].
    split_and!; [by rewrite <- !app_assoc|zlens; lia|done|zlens; lia].
Qed.

Lemma NEXT_ok v inp p : 0 ≤ p → p + 2 < zlen inp → ∃ h, NEXT v inp p = Ok h.
Proof.
  intros Hp Hl. destruct (zlen_lookup inp (p + 2)) as [c Hc]; [lia|]. unfold NEXT.
  rewrite (rd_lookup _ _ _ Hc) by lia. res_step. by eexists.
Qed.
Lemma FRST_ok inp p : 0 ≤ p → p + 1 < zlen inp → ∃ h, FRST inp p = Ok h.
Proof.
  intros Hp Hl. destruct (zlen_lookup inp p) as [a Ha]; [lia|]. destruct (zlen_lookup inp (p + 1)) as [b Hb]; [lia|].
  unfold FRST. rewrite (rd_lookup _ _ _ Ha), (rd_lookup _ _ _ Hb) by lia. do 2 res_step. by eexists.
Qed.

(** A match in the input is a back reference that copies it. *)
Lemma agree_copy (inp : list Z) ref ip n :
  0 ≤ ref < ip → ip + Z.of_nat n ≤ zlen inp → agree inp ref ip (Z.of_nat n) →
  ref_copy n (take (Z.to_nat ip) inp) (S (Z.to_nat (ip - ref - 1))) = take (Z.to_nat (ip + Z.of_nat n)) inp.
Proof.
  intros Hr Hn Hag. replace (Z.to_nat (ip + Z.of_nat n)) with (Z.to_nat ip + n)%nat by lia. unfold zlen in Hn.
  apply ref_copy_take; [lia|lia|]. intros i Hi. specialize (Hag (Z.of_nat i) ltac:(lia)).
  replace (Z.to_nat (ref + Z.of_nat i)) with (Z.to_nat ip - S (Z.to_nat (ip - ref - 1)) + i)%nat in Hag by lia.
  by replace (Z.to_nat (ip + Z.of_nat i)) with (Z.to_nat ip + i)%nat in Hag by lia.
Qed.

(** What a round of the compressor leaves: [s] before it. *)
Definition round_inv (inp : list Z) (s : lzf_state) (r : round) : Prop :=
  match r with
  | Full out => zlen out = zlen (c_out s)
  | Break s' => (∃ ts ls, compressing inp s' ts ls) ∧ zlen (c_out s') = zlen (c_out s) ∧ zlen inp - 2 ≤ c_ip s'
  | Next s' => (∃ ts ls, compressing inp s' ts ls) ∧ zlen (c_out s') = zlen (c_out s) ∧ c_ip s < c_ip s'
  end.

Lemma backref_ok inp s ts ls ref :
  compressing inp s ts ls → zlen inp < 2 ^ 32 → 0 < ref < c_ip s → c_ip s - ref - 1 < 8192 →
  c_ip s + 2 < zlen inp → agree inp ref (c_ip s) 3 →
  ∃ r, backref inp s ref (c_ip s - ref - 1) = Ok r ∧ round_inv inp s r.
Proof.
  intros Hc Hlen Href Hoff Hip Hag. unfold backref. fold (zlen inp) (zlen (c_out s)). rewrite !Z.geb_leb, Z.gtb_ltb.
  set (undo := if c_lit s =? 0 then 1 else 0). assert (Hundo : 0 ≤ undo ≤ 1) by (unfold undo; by destruct (_ =? _)).
  destruct (_ && _) eqn:Efull; [by exists (Full (c_out s))|].
  assert (Hroom : c_op s - undo + 4 < zlen (c_out s)) by (revert Efull; blia).
  destruct (end_run inp s ts ls Hc) as (ts1 & rest1 & -> & Eop & Hok1 & Hin1 & Hl1); [lia|]. res_step. fold undo in Eop. rewrite Eop.
  change (u32 (zlen inp - c_ip s - 2)) with ((zlen inp - c_ip s - 2) mod 2 ^ 32). rewrite Z.mod_small by lia. change MAX_REF with 264.
  destruct (match_len_ok inp ref (c_ip s) ltac:(lia) (if 264 <? zlen inp - c_ip s - 2 then 264 else zlen inp - c_ip s - 2) Hag)
    as (len & -> & Hl & Hb & Hag'); [destruct (Z.ltb_spec 264 (zlen inp - c_ip s - 2)); lia..|]. res_step.
  assert (∃ n : nat, len = Z.of_nat n) as [n ->] by (exists (Z.to_nat len); lia).
  destruct (emit_ref ts1 rest1 n (c_ip s - ref - 1)) as (out2 & op2 & rest2 & -> & Hw & Eop2 & Hne & Hl2); [lia|lia|zlens_all; lia|].
  res_step. rewrite Hw. res_step. set (ts2 := ts1 ++ [TRef n (c_ip s - ref - 1)]) in *.
  assert (Hnew : ∀ hv ht, compressing inp (mkLzf (c_ip s + Z.of_nat n) (op2 + 2) 0 hv ht (enc_tokens ts2 ++ rest2)) ts2 []).
  { intros hv ht. split; cbn; [| | |zlens; lia|done|done|].
    - unfold ts2. rewrite tokens_ok_snoc. split; [done|]. rewrite Hin1. cbn. unfold zlen in *. rewrite length_take. lia.
    - unfold ts2. rewrite app_nil_r, foldl_snoc, Hin1. cbn. apply agree_copy; [lia|lia|done].
    - lia.
    - destruct rest2 as [|y rest2]; [done|]. left. by eexists _, _. }
  replace (c_ip s + 1 + (Z.of_nat n - 2) + 1) with (c_ip s + Z.of_nat n) by lia.
  rewrite Z.geb_leb. destruct (Z.leb_spec (zlen inp - 2) (c_ip s + Z.of_nat n)).
  { eexists. split; [reflexivity|]. split; [by eexists _, _|]. cbn. split; [lia|done]. }
  destruct (FRST_ok inp (c_ip s + Z.of_nat n - 2)) as [h1 ->]; [lia|lia|]. res_step.
  destruct (NEXT_ok h1 inp (c_ip s + Z.of_nat n - 2)) as [h2 ->]; [lia|lia|]. res_step.
  destruct (NEXT_ok h2 inp (c_ip s + Z.of_nat n - 2 + 1)) as [h3 ->]; [lia|lia|]. res_step.
  replace (c_ip s + Z.of_nat n - 2 + 1 + 1) with (c_ip s + Z.of_nat n) by lia.
  eexists. split; [done|]. split; [by eexists _, _|]. cbn. split; lia.
Qed.

Section compress.
  Context (htab0 : Z → Z).

Lemma hslot_range htab i : 0 ≤ hslot htab0 htab i < 2 ^ 32.
Proof. apply Z.mod_pos_bound. lia. Qed.

(** [off] is small only if [ref] is before [ip]. *)
Lemma offset_small ip ref : 0 ≤ ip < 2 ^ 32 → 0 ≤ ref →
  to_size_t (ip - ref - 1) < 8192 → ref < 2 ^ 32 → ref < ip ∧ to_size_t (ip - ref - 1) = ip - ref - 1.
Proof.
  intros Hip Hr. unfold to_size_t, to_unsigned. change (2 ^ 64) with (2 ^ 32 * 2 ^ 32). intros Ho Hr'.
  destruct (Z.lt_ge_cases ref ip) as [Hlt|Hge]; [split; [done|apply Z.mod_small; lia]|exfalso].
  rewrite <- (Z.mod_unique_pos (ip - ref - 1) (2 ^ 32 * 2 ^ 32) (-1) (ip - ref - 1 + 2 ^ 32 * 2 ^ 32)) in Ho by lia. lia.
Qed.

Lemma compress_round_ok inp s ts ls :
  compressing inp s ts ls → zlen inp < 2 ^ 32 → c_ip s < zlen inp - 2 →
  ∃ r, compress_round htab0 inp s = Ok r ∧ round_inv inp s r.
Proof.
  intros Hc Hlen Hip. pose proof (cp_ip _ _ _ _ Hc) as Hip0. unfold compress_round.
  destruct (NEXT_ok (c_hval s) inp (c_ip s)) as [h ->]; [lia|lia|]. res_step.
  set (ref := hslot htab0 (c_htab s) (IDX h)). pose proof (hslot_range (c_htab s) (IDX h)) as Hr. fold ref in Hr.
  cbn [c_ip c_op c_out]. set (s1 := mkLzf _ _ _ h _ _).
  assert (Hc1 : compressing inp s1 ts ls) by (by destruct Hc; split).
  assert (∃ found : bool, (if (to_size_t (c_ip s - ref - 1) <? MAX_OFF) && (ref >? 0) then same3 inp ref (c_ip s) else Ok false) = Ok found ∧
    (found = true → 0 < ref < c_ip s ∧ to_size_t (c_ip s - ref - 1) = c_ip s - ref - 1 ∧ c_ip s - ref - 1 < 8192 ∧ agree inp ref (c_ip s) 3))
    as (found & -> & Hfound).
  { rewrite Z.gtb_ltb. change MAX_OFF with 8192. destruct (Z.ltb_spec (to_size_t (c_ip s - ref - 1)) 8192) as [Ho|]; [|by exists false].
    destruct (Z.ltb_spec 0 ref); [|by exists false]. cbn [andb].
    destruct (offset_small (c_ip s) ref) as [Hlt E]; [lia|lia|done|lia|].
    destruct (same3_ok inp ref (c_ip s)) as (e & -> & He); [lia|lia|]. exists e. split; [done|]. intros Ht. split_and!; [lia|lia|done|lia|auto]. }
  res_step. destruct found.
  - destruct Hfound as (Hr1 & -> & Ho & Hag); [done|].
    destruct (backref_ok inp s1 ts ls ref Hc1 Hlen) as (r & E & Hr2); [done|done|cbn; lia|done|]. by exists r.
  - fold (zlen (c_out s)). rewrite Z.geb_leb. destruct (Z.leb_spec (zlen (c_out s)) (c_op s)); [by exists (Full (c_out s))|].
    destruct (literal_ok inp s1 ts ls Hc1) as (s' & ts' & ls' & -> & Hc' & Hip' & Hl' & _); [cbn; lia|done|]. res_step.
    exists (Next s'). split; [done|]. cbn in *. split; [by exists ts', ls'|]. split; [done|lia].
Qed.

Lemma compress_loop_ok inp fuel : ∀ s ts ls,
  compressing inp s ts ls → zlen inp < 2 ^ 32 → zlen inp - c_ip s ≤ Z.of_nat fuel →
  ∃ r, compress_loop htab0 fuel inp s = Ok r ∧
    match r with
    | inl out => zlen out = zlen (c_out s)
    | inr s' => (∃ ts' ls', compressing inp s' ts' ls') ∧ zlen (c_out s') = zlen (c_out s) ∧ zlen inp - 2 ≤ c_ip s'
    end.
Proof.
  induction fuel as [|fuel IH]; intros s ts ls Hc Hlen Hf; cbn [compress_loop]; fold (zlen inp);
    (destruct (Z.ltb_spec (c_ip s) (zlen inp - 2)); [|exists (inr s); split; [done|]; split; [by exists ts, ls|]; split; [done|lia]]); [lia|].
  destruct (compress_round_ok inp s ts ls Hc Hlen) as (r & -> & Hr); [lia|]. res_step. destruct r as [out|s'|s'].
  - by exists (inl out).
  - by exists (inr s').
  - destruct Hr as ((ts' & ls' & Hc') & Hl & Hip). destruct (IH s' ts' ls' Hc' Hlen) as (r & -> & Hr); [lia|].
    exists r. split; [done|]. rewrite <- Hl. exact Hr.
Qed.

(** At most two bytes are left: there is room for them and for the end of a run. *)
Lemma tail_loop_ok inp fuel : ∀ s ts ls,
  let left := zlen inp - c_ip s in
  compressing inp s ts ls → left ≤ 2 → left ≤ Z.of_nat fuel →
  c_op s + left + (if 32 <=? c_lit s + left then 1 else 0) ≤ zlen (c_out s) →
  ∃ s' ts' ls', tail_loop fuel inp s = Ok s' ∧ compressing inp s' ts' ls' ∧ c_ip s' = zlen inp ∧
    zlen (c_out s') = zlen (c_out s) ∧ c_op s' ≤ zlen (c_out s').
Proof.
  induction fuel as [|fuel IH]; intros s ts ls left Hc Hleft Hf Hroom; unfold left in *; pose proof (cp_ip _ _ _ _ Hc);
    cbn [tail_loop]; fold (zlen inp);
    (destruct (Z.ltb_spec (c_ip s) (zlen inp)); [|exists s, ts, ls; split_and!; [done|done|lia|done|destruct (_ <=? _); lia]]); [lia|].
  destruct (literal_ok inp s ts ls Hc) as (s' & ts' & ls' & -> & Hc' & Hip' & Hl' & Hrun); [lia|destruct (_ <=? _); lia|]. res_step.
  destruct (IH s' ts' ls' Hc') as (s2 & ts2 & ls2 & -> & Hc2 & Hip2 & Hl2 & Hop2); [lia|lia| |].
  - rewrite Hl'. pose proof (cp_run _ _ _ _ Hc). pose proof (cp_lit _ _ _ _ Hc).
    revert Hrun Hroom. destruct (Z.eqb_spec (c_lit s + 1) 32), (Z.leb_spec 32 (c_lit s + (zlen inp - c_ip s)));
      intros [-> ->] ?; rewrite Hip'; blia.
  - exists s2, ts2, ls2. split_and!; [done|done|done|lia|done].
Qed.

Lemma lzf_compress_ok inp out :
  2 ≤ zlen inp < 2 ^ 32 →
  ∃ n out', lzf_compress htab0 inp out = Ok (n, out') ∧ zlen out' = zlen out ∧ 0 ≤ n ≤ zlen out ∧
    (n ≠ 0 → ∃ ts, ts ≠ [] ∧ tokens_ok [] ts ∧ take (Z.to_nat n) out' = enc_tokens ts ∧ foldl apply_token [] ts = inp).
Proof.
  intros Hin. unfold lzf_compress. destruct (Nat.eqb_spec (length inp) 0); [unfold zlen in Hin; lia|].
  destruct (Nat.eqb_spec (length out) 0) as [|Hout]; cbn [orb]; [exists 0, out; split_and!; [done|done|zlia|zlia|done]|].
  destruct (FRST_ok inp 0) as [h ->]; [lia|lia|]. res_step.
  assert (Hc : compressing inp (mkLzf 0 1 0 h ∅ out) [] []).
  { split; try done; cbn; [lia|]. left. destruct out as [|x out]; [done|]. by eexists _, _. }
  destruct (compress_loop_ok inp (length inp) _ _ _ Hc) as (r & -> & Hr); [lia|cbn; unfold zlen; lia|]. res_step. cbn in Hr.
  destruct r as [out'|s]; [exists 0, out'; split_and!; [done|done|zlia|zlia|done]|]. destruct Hr as ((ts & ls & Hs) & Hl & Hip). fold (zlen out).
  rewrite Z.gtb_ltb. destruct (Z.ltb_spec (zlen out) (c_op s + 3)); [exists 0, (c_out s); split_and!; [done|done|zlia|zlia|done]|].
  destruct (tail_loop_ok inp (length inp) s ts ls Hs) as (s' & ts' & ls' & -> & Hs' & Hip' & Hl' & Hop');
    [lia|unfold zlen in *; lia|destruct (_ <=? _); lia|]. res_step.
  destruct (end_run inp s' ts' ls' Hs' Hop') as (ts2 & rest & -> & Eop & Hok & Hfold & Hl2). res_step. rewrite Eop.
  eexists _, _. split; [done|]. split; [lia|]. split; [revert Hl2; zlens; zlia|]. intros Hn0.
  rewrite take_zlen. rewrite Hip' in Hfold. unfold zlen in Hfold. rewrite Nat2Z.id, firstn_all in Hfold.
  exists ts2. split_and!; [|done|done|done]. by intros ->.
Qed.

(** C7: lzf_compress, whatever the uninitialised table holds, stays inside its buffers on
    every input but one of a single byte: it returns 0 when the input is empty or the output
    does not fit, and otherwise a length whose bytes lzf_decompress expands to the input,
    given a buffer of its length.  On a single byte, with an output buffer that is not empty,
    it reads the byte after the input. *)
Theorem lzf_roundtrip inp out :
  Z.of_nat (length inp) < 2 ^ 32 →
  if decide (length inp = 1%nat ∧ out ≠ []) then lzf_compress htab0 inp out = Fault OutOfBounds
  else ∃ n out', lzf_compress htab0 inp out = Ok (n, out') ∧ length out' = length out ∧ 0 ≤ n ≤ Z.of_nat (length out) ∧
    (n ≠ 0 → ∀ dst, length dst = length inp →
       lzf_decompress (take (Z.to_nat n) out') dst = Ok (inr (Z.of_nat (length inp)), inp)).
Proof.
  intros Hin. case_decide as H1.
  { destruct H1 as [Hl Ho]. destruct inp as [|x [|]]; [done| |done]. by destruct out. }
  assert (Hs : (length inp = 0%nat ∨ length out = 0%nat) ∨ 2 ≤ Z.of_nat (length inp)).
  { destruct inp as [|x [|]]; [by left; left| |cbn; lia]. left. right. destruct out; [done|]. by destruct H1. }
  destruct Hs as [Hs|Hs].
  { exists 0, out. split_and!; [|done|lia..|done]. unfold lzf_compress.
    by destruct Hs as [-> | ->]; rewrite ?orb_true_r. }
  destruct (lzf_compress_ok inp out (conj Hs Hin)) as (n & out' & E & Hl & Hn & Hts).
  exists n, out'. split; [done|]. split; [unfold zlen in Hl; lia|]. split; [done|]. intros Hn0 dst Hdst.
  destruct (Hts Hn0) as (ts & Hne & Hok & -> & Hfold). unfold lzf_decompress.
  pose proof (decompress_tokens ts (enc_tokens ts) (S (length (enc_tokens ts))) [] [] dst Hne eq_refl Hok) as Hd.
  cbn [app] in Hd. rewrite Hfold in Hd. change (zlen []) with 0 in Hd. rewrite Hd; [|unfold zlen; lia|unfold zlen; lia].
  unfold zlen. by rewrite Hdst.
Qed.
End compress.

(** Twelve equal bytes: two literals, an overlapping back reference, two literals. *)
Lemma lzf_roundtrip_witness :
  ∃ n out', lzf_compress (fun i => i * 7919) (replicate 12 97) (replicate 11 0) = Ok (n, out') ∧ n = 8 ∧
    lzf_decompress (take (Z.to_nat n) out') (replicate 12 0) = Ok (inr 12, replicate 12 97).
Proof.
  destruct (lzf_roundtrip (fun i => i * 7919) (replicate 12 97) (replicate 11 0)) as (n & out' & E & _ & _ & Hrt); [vm_compute; reflexivity|].
  assert (Hn : match lzf_compress (fun i => i * 7919) (replicate 12 97) (replicate 11 0) with Ok (n, _) => n | Fault _ => 0 end = 8) by (vm_compute; reflexivity).
  rewrite E in Hn. exists n, out'. split; [exact E|]. split; [exact Hn|]. apply Hrt; [rewrite Hn; discriminate|reflexivity].
Defined.
