(* ===== verification/Intset.v ===== *)
(** src/src/intset.c: sets of integers as sorted arrays of 2, 4 or 8 byte integers.  The
    array is the block of bytes it is, of the machine of Ziplist.v; the theorem shows that
    the functions implement a finite set of 64-bit integers and its sorted enumeration. *)
From stdpp Require Import sorting.
From S2P Require Import Prelude CString Util Ziplist ZiplistSpec.
Local Open Scope Z_scope.

Definition INTSET_ENC_INT16 : Z := 2.
Definition INTSET_ENC_INT32 : Z := 4.
Definition INTSET_ENC_INT64 : Z := 8.

(** [sizeof(intset)] is the size of the two fields in front of [contents]. *)
Record intset := mkIntset { encoding : Z; is_length : Z; contents : mem }.
Definition sizeof_intset : Z := 8.

Definition _intsetValueEncoding (v : Z) : Z :=
  if (v <? -2147483648) || (v >? 2147483647) then INTSET_ENC_INT64
  else if (v <? -32768) || (v >? 32767) then INTSET_ENC_INT32
  else INTSET_ENC_INT16.

(** The size of the array elements that the branches on an encoding select. *)
Definition width (enc : Z) : nat :=
  if enc =? INTSET_ENC_INT64 then 8 else if enc =? INTSET_ENC_INT32 then 4 else 2.

Definition _intsetGetEncoded (st : intset) (pos enc : Z) : res Z :=
  let n := Z.of_nat (width enc) in
  bs ← rd_bytes (contents st) (to_int pos * n) n;
  Ok (to_signed (8 * n) (unle bs)).
Definition _intsetGet (st : intset) (pos : Z) : res Z := _intsetGetEncoded st pos (encoding st).

Definition _intsetSet (st : intset) (pos value : Z) : res intset :=
  let n := width (encoding st) in
  c ← wr (contents st) (to_int pos * Z.of_nat n) (le n value);
  Ok (mkIntset (encoding st) (is_length st) c).

Section intset.
Context (junk : nat → Z).

Definition intsetNew : intset := mkIntset INTSET_ENC_INT16 0 [].

Definition intsetResize (st : intset) (len : Z) : intset :=
  let size := u32 (len * encoding st) in
  mkIntset (encoding st) (is_length st) (realloc junk (contents st) size).

(** The loop of the binary search: [min], [mid] and [cur] at its end. *)
Fixpoint search_loop (fuel : nat) (st : intset) (value min max mid cur : Z) : res (Z * Z * Z) :=
  if max >=? min then
    match fuel with
    | O => Fault OutOfFuel
    | S fuel =>
        let mid := to_int (Z.shiftr (u32 (u32 min + u32 max)) 1) in
        cur ← _intsetGet st mid;
        if value >? cur then search_loop fuel st value (mid + 1) max mid cur
        else if value <? cur then search_loop fuel st value min (mid - 1) mid cur
        else Ok (min, mid, cur)
    end
  else Ok (min, mid, cur).

(** Whether the value was found, and the position. *)
Definition intsetSearch (st : intset) (value : Z) : res (bool * Z) :=
  if is_length st =? 0 then Ok (false, 0)
  else
    last ← _intsetGet st (u32 (is_length st - 1));
    if value >? last then Ok (false, is_length st)
    else
      first ← _intsetGet st 0;
      if value <? first then Ok (false, 0)
      else
        '(min, mid, cur) ← search_loop (Z.to_nat (is_length st)) st value 0 (to_int (u32 (is_length st - 1))) (-1) (-1);
        Ok (if value =? cur then (true, u32 mid) else (false, u32 min)).

(** [while(length--)], from the back. *)
Fixpoint upgrade_loop (length : nat) (st : intset) (prepend curenc : Z) : res intset :=
  match length with
  | O => Ok st
  | S length =>
      v ← _intsetGetEncoded st (Z.of_nat length) curenc;
      st ← _intsetSet st (Z.of_nat length + prepend) v;
      upgrade_loop length st prepend curenc
  end.

Definition intsetUpgradeAndAdd (st : intset) (value : Z) : res intset :=
  let curenc := encoding st in
  let newenc := _intsetValueEncoding value in
  let length := to_int (is_length st) in
  let prepend := if value <? 0 then 1 else 0 in
  let st := mkIntset newenc (is_length st) (contents st) in
  let st := intsetResize st (u32 (is_length st + 1)) in
  st ← upgrade_loop (Z.to_nat length) st prepend curenc;
  st ← (if value <? 0 then _intsetSet st 0 value else _intsetSet st (is_length st) value);
  Ok (mkIntset (encoding st) (u32 (is_length st + 1)) (contents st)).

Definition intsetMoveTail (st : intset) (from to : Z) : res intset :=
  let n := Z.of_nat (width (encoding st)) in
  let bytes := u32 (u32 (is_length st - from) * n) in
  c ← memmove (contents st) (to * n) (from * n) bytes;
  Ok (mkIntset (encoding st) (is_length st) c).

(** Whether the value was added. *)
Definition intsetAdd (st : intset) (value : Z) : res (bool * intset) :=
  if _intsetValueEncoding value >? encoding st then
    st ← intsetUpgradeAndAdd st value;
    Ok (true, st)
  else
    '(found, pos) ← intsetSearch st value;
    if found : bool then Ok (false, st)
    else
      let st := intsetResize st (u32 (is_length st + 1)) in
      st ← (if pos <? is_length st then intsetMoveTail st pos (u32 (pos + 1)) else Ok st);
      st ← _intsetSet st pos value;
      Ok (true, mkIntset (encoding st) (u32 (is_length st + 1)) (contents st)).

Definition intsetRemove (st : intset) (value : Z) : res (bool * intset) :=
  if _intsetValueEncoding value <=? encoding st then
    '(found, pos) ← intsetSearch st value;
    if found : bool then
      let len := is_length st in
      st ← (if pos <? u32 (len - 1) then intsetMoveTail st (u32 (pos + 1)) pos else Ok st);
      let st := intsetResize st (u32 (len - 1)) in
      Ok (true, mkIntset (encoding st) (u32 (len - 1)) (contents st))
    else Ok (false, st)
  else Ok (false, st).

Definition intsetFind (st : intset) (value : Z) : res bool :=
  if _intsetValueEncoding value <=? encoding st then r ← intsetSearch st value; Ok r.1 else Ok false.

(** [rand()] returned [r]. *)
Definition intsetRandom (st : intset) (r : Z) : res Z :=
  if is_length st =? 0 then Fault DivByZero else _intsetGet st (u32 r mod is_length st).

Definition intsetGet (st : intset) (pos : Z) : res (option Z) :=
  if pos <? is_length st then v ← _intsetGet st pos; Ok (Some v) else Ok None.

Definition intsetLen (st : intset) : Z := is_length st.
Definition intsetBlobLen (st : intset) : Z := to_size_t (sizeof_intset + u32 (is_length st * encoding st)).
End intset.

(** * The array *)

Definition fits (n : nat) (v : Z) : Prop := - 2 ^ (8 * Z.of_nat n - 1) ≤ v < 2 ^ (8 * Z.of_nat n - 1).

(** The bytes of the elements. *)
Definition elems (n : nat) (vs : list Z) : mem := vs ≫= le n.

Lemma elems_cons n v vs : elems n (v :: vs) = le n v ++ elems n vs.
Proof. done. Qed.
Lemma elems_app n a b : elems n (a ++ b) = elems n a ++ elems n b.
Proof. apply bind_app. Qed.
Lemma zlen_elems n vs : zlen (elems n vs) = zlen vs * Z.of_nat n.
Proof. induction vs as [|v vs IH]; [done|]. rewrite elems_cons. zlens. rewrite zlen_le, IH. lia. Qed.

Definition MAX_INTS : Z := 2 ^ 28.

(** The set holds the values [vs], in ascending order. *)
Record is_rep (st : intset) (vs : list Z) : Prop := {
  ir_enc : encoding st = INTSET_ENC_INT16 ∨ encoding st = INTSET_ENC_INT32 ∨ encoding st = INTSET_ENC_INT64;
  ir_length : is_length st = zlen vs;
  ir_contents : contents st = elems (width (encoding st)) vs;
  ir_sorted : StronglySorted Z.lt vs;
  ir_fits : Forall (fits (width (encoding st))) vs;
  ir_max : zlen vs ≤ MAX_INTS;
}.

Lemma width_enc st vs : is_rep st vs → Z.of_nat (width (encoding st)) = encoding st ∧ 2 ≤ encoding st ≤ 8.
Proof. by intros [[-> |[-> | ->]]]. Qed.

(** Reading a value of [n] bytes between two pieces of an array. *)
Lemma get_encoded st A v C pos enc : contents st = A ++ le (width enc) v ++ C → zlen A = pos * Z.of_nat (width enc) →
  fits (width enc) v → 0 ≤ pos ≤ INT_MAX → _intsetGetEncoded st pos enc = Ok v.
Proof.
  intros E HA Hv Hp. unfold _intsetGetEncoded. rewrite to_int_id by (unfold INT_MIN, INT_MAX in *; lia).
  assert (0 < Z.of_nat (width enc)) by (unfold width; repeat case_match; lia).
  apply load_signed; [|done|lia|done]. apply (rd_bytes_at _ A _ C); [done|done|by rewrite zlen_le].
Qed.

Lemma set_at st A B C pos v : contents st = A ++ B ++ C → zlen A = pos * Z.of_nat (width (encoding st)) →
  zlen B = Z.of_nat (width (encoding st)) → 0 ≤ pos ≤ INT_MAX →
  _intsetSet st pos v = Ok (mkIntset (encoding st) (is_length st) (A ++ le (width (encoding st)) v ++ C)).
Proof.
  intros E HA HB Hp. unfold _intsetSet. rewrite to_int_id by (unfold INT_MIN, INT_MAX in *; lia).
  rewrite (wr_at _ A B C) by (try done; by rewrite zlen_le). by res_step.
Qed.

Lemma int_at st vs i v : is_rep st vs → vs !! i = Some v → _intsetGet st (Z.of_nat i) = Ok v.
Proof.
  intros [_ _ Hc _ Hf Hm] Hi. apply lookup_lt_Some in Hi as Hlt. unfold MAX_INTS, zlen in Hm.
  apply (get_encoded _ (elems (width (encoding st)) (take i vs)) v (elems (width (encoding st)) (drop (S i) vs))).
  - rewrite Hc. rewrite <- (take_drop_middle vs i v Hi) at 1. by rewrite elems_app, elems_cons.
  - rewrite zlen_elems. unfold zlen. rewrite length_take. lia.
  - by eapply Forall_lookup_1.
  - unfold INT_MAX. lia.
Qed.

(** * Search *)

Lemma sorted_lt vs i j x y : StronglySorted Z.lt vs → vs !! i = Some x → vs !! j = Some y → (i < j)%nat → x < y.
Proof.
  intros Hs Hi Hj Hij. rewrite <- (take_drop_middle vs i x Hi) in Hs. apply StronglySorted_app_1_r in Hs.
  apply StronglySorted_cons in Hs as [Hs _]. eapply Forall_lookup_1; [done|].
  instantiate (1 := (j - S i)%nat). rewrite lookup_drop. by replace (S i + (j - S i))%nat with j by lia.
Qed.

(** [p] is the place of [value]: smaller values before, greater ones from there on. *)
Definition place_of (vs : list Z) (value : Z) (p : nat) : Prop :=
  (p ≤ length vs)%nat ∧ Forall (λ x, x < value) (take p vs) ∧ Forall (λ x, value < x) (drop p vs).

Lemma place_bounds vs value min max : (min = max + 1) → 0 ≤ min ≤ zlen vs →
  (∀ j x, vs !! j = Some x → Z.of_nat j < min → x < value) → (∀ j x, vs !! j = Some x → max < Z.of_nat j → value < x) →
  place_of vs value (Z.to_nat min).
Proof.
  intros Hmm Hmin Hlo Hhi. unfold zlen in Hmin. split_and!; [lia| |]; apply Forall_lookup; intros j x Hj.
  - apply lookup_take_Some in Hj as [Hj Hlt]. eapply Hlo; [done|lia].
  - rewrite lookup_drop in Hj. eapply Hhi; [done|lia].
Qed.

Lemma mid_ok min max : 0 ≤ min ≤ max → max < MAX_INTS →
  to_int (Z.shiftr (u32 (u32 min + u32 max)) 1) = (min + max) / 2 ∧ min ≤ (min + max) / 2 ≤ max.
Proof.
  unfold MAX_INTS. change (2 ^ 28) with 268435456. intros H1 H2. rewrite (u32_id min), (u32_id max), (u32_id (min + max)) by lia.
  assert (min ≤ (min + max) / 2 ≤ max) by (split; [apply Z.div_le_lower_bound|apply Z.div_le_upper_bound]; lia).
  rewrite Z.shiftr_div_pow2, Z.pow_1_r by lia. rewrite to_int_id by (unfold INT_MIN, INT_MAX; lia). done.
Qed.

Section search.
Context (st : intset) (vs : list Z) (value : Z).
Hypothesis Hrep : is_rep st vs.

Definition found_or_place (r : Z * Z * Z) : Prop :=
  let '(min, mid, cur) := r in
  if value =? cur then 0 ≤ mid ∧ vs !! Z.to_nat mid = Some value else 0 ≤ min ∧ place_of vs value (Z.to_nat min).

Lemma search_loop_ok fuel : ∀ min max mid cur,
  0 ≤ min → max < zlen vs → min ≤ max + 1 → (max < min → cur ≠ value) → max - min < Z.of_nat fuel →
  (∀ j x, vs !! j = Some x → Z.of_nat j < min → x < value) → (∀ j x, vs !! j = Some x → max < Z.of_nat j → value < x) →
  ∃ r, search_loop fuel st value min max mid cur = Ok r ∧ found_or_place r.
Proof.
  induction fuel as [|fuel IH]; intros min max mid cur Hmin Hmax Hmm Hcur Hf Hlo Hhi; cbn [search_loop];
    rewrite Z.geb_leb; destruct (Z.leb_spec min max).
  1: lia. 1,3: eexists; split; [done|]; cbn; destruct (Z.eqb_spec value cur); [by destruct (Hcur ltac:(lia))|];
    split; [done|]; apply (place_bounds _ _ _ max); [lia|lia|done|done].
  pose proof (ir_max _ _ Hrep) as Hm. destruct (mid_ok min max ltac:(lia) ltac:(lia)) as [-> Hmid]. set (k := (min + max) / 2) in *.
  unfold zlen in Hmax. destruct (lookup_lt_is_Some_2 vs (Z.to_nat k) ltac:(lia)) as [x Hx]. pose proof (ir_sorted _ _ Hrep) as Hs.
  pose proof (int_at _ _ _ _ Hrep Hx) as Hg. rewrite Z2Nat.id in Hg by lia. rewrite Hg. res_step.
  rewrite Z.gtb_ltb. destruct (Z.ltb_spec x value); [|destruct (Z.ltb_spec value x)].
  - apply IH; unfold zlen; try lia; [|done]. intros j y Hj Hlt.
    destruct (decide (j = Z.to_nat k)) as [->|]; [congruence|]. assert (y < x); [|lia]. eapply (sorted_lt vs); [done|done|done|lia].
  - apply IH; unfold zlen; try lia; [done|]. intros j y Hj Hlt.
    destruct (decide (j = Z.to_nat k)) as [->|]; [congruence|]. assert (x < y); [|lia]. eapply (sorted_lt vs); [done|done|done|lia].
  - eexists. split; [done|]. cbn. destruct (Z.eqb_spec value x); [|lia]. split; [lia|congruence].
Qed.

(** [intsetSearch] finds the value where it is, or the place where it belongs. *)
Lemma search_rep : ∃ b p, intsetSearch st value = Ok (b, Z.of_nat p) ∧
  if b : bool then vs !! p = Some value else place_of vs value p.
Proof.
  pose proof (ir_length _ _ Hrep) as Hl. pose proof (ir_max _ _ Hrep) as Hm. pose proof (ir_sorted _ _ Hrep) as Hs.
  unfold MAX_INTS in Hm. change (2 ^ 28) with 268435456 in Hm. unfold intsetSearch. rewrite Hl.
  destruct (Z.eqb_spec (zlen vs) 0) as [E|Hne].
  { apply zlen_zero in E as ->. exists false, 0%nat. split; [done|]. split_and!; [done|constructor|constructor]. }
  pose proof (zlen_nonneg vs) as Hnn. rewrite u32_id by lia. rewrite to_int_id by (unfold INT_MIN, INT_MAX; lia).
  unfold zlen in Hne, Hm, Hnn.
  destruct (lookup_lt_is_Some_2 vs (length vs - 1) ltac:(lia)) as [x Hx]. pose proof (int_at _ _ _ _ Hrep Hx) as Hg.
  replace (Z.of_nat (length vs - 1)) with (zlen vs - 1) in Hg by (unfold zlen; lia). rewrite Hg. res_step.
  rewrite Z.gtb_ltb. destruct (Z.ltb_spec x value) as [Hgt|Hle].
  { exists false, (length vs). split; [done|]. split; [lia|]. rewrite drop_all, take_ge by lia. split; [|constructor].
    apply Forall_lookup. intros j y Hj. apply lookup_lt_Some in Hj as Hlt. destruct (decide (j = (length vs - 1)%nat)) as [->|]; [congruence|].
    assert (y < x); [|lia]. eapply (sorted_lt vs); [done|done|done|lia]. }
  destruct (lookup_lt_is_Some_2 vs 0 ltac:(lia)) as [y Hy]. pose proof (int_at _ _ _ _ Hrep Hy) as Hg0. change (Z.of_nat 0) with 0 in Hg0. rewrite Hg0. res_step.
  destruct (Z.ltb_spec value y) as [Hlt|Hge].
  { exists false, 0%nat. split; [done|]. split; [lia|]. split; [constructor|]. apply Forall_lookup. intros j z Hj. rewrite lookup_drop in Hj. cbn in Hj.
    destruct (decide (j = 0%nat)) as [->|]; [congruence|]. assert (y < z); [|lia]. eapply (sorted_lt vs); [done|done|done|lia]. }
  destruct (search_loop_ok (Z.to_nat (zlen vs)) 0 (zlen vs - 1) (-1) (-1)) as ([[min mid] cur] & -> & Hr); unfold zlen in *; try lia.
  { intros j z Hj Hlt. apply lookup_lt_Some in Hj. lia. }
  res_step. cbn in Hr. destruct (Z.eqb_spec value cur).
  - destruct Hr as [H0 Hr]. apply lookup_lt_Some in Hr as Hlt. exists true, (Z.to_nat mid). rewrite u32_id by lia. by rewrite Z2Nat.id by lia.
  - destruct Hr as [H0 Hr]. pose proof (proj1 Hr). exists false, (Z.to_nat min). rewrite u32_id by lia. by rewrite Z2Nat.id by lia.
Qed.
End search.

(** * Changes *)

Lemma value_encoding v : LLONG_MIN ≤ v ≤ LLONG_MAX →
  fits (width (_intsetValueEncoding v)) v ∧ Z.of_nat (width (_intsetValueEncoding v)) = _intsetValueEncoding v ∧
  (_intsetValueEncoding v = INTSET_ENC_INT16 ∨ _intsetValueEncoding v = INTSET_ENC_INT32 ∨ _intsetValueEncoding v = INTSET_ENC_INT64).
Proof.
  unfold LLONG_MIN, LLONG_MAX. intros Hv. unfold _intsetValueEncoding. rewrite !Z.gtb_ltb.
  destruct (Z.ltb_spec v (-2147483648)), (Z.ltb_spec 2147483647 v), (Z.ltb_spec v (-32768)), (Z.ltb_spec 32767 v); cbn [orb]; try lia;
    (split; [|split; [done|auto]]); unfold fits, INTSET_ENC_INT16, INTSET_ENC_INT32, INTSET_ENC_INT64; cbn [width];
    match goal with |- context [2 ^ ?e] => let x := eval vm_compute in (2 ^ e) in change (2 ^ e) with x end; lia.
Qed.

Lemma fits_mono n m v : (0 < n ≤ m)%nat → fits n v → fits m v.
Proof. unfold fits. intros Hnm Hv. assert (2 ^ (8 * Z.of_nat n - 1) ≤ 2 ^ (8 * Z.of_nat m - 1)) by (apply Z.pow_le_mono_r; lia). lia. Qed.

(** A value that fits a narrower encoding needs no wider one. *)
Lemma encoding_fits st vs v : is_rep st vs → LLONG_MIN ≤ v ≤ LLONG_MAX →
  _intsetValueEncoding v ≤ encoding st ↔ fits (width (encoding st)) v.
Proof.
  intros Hrep Hv. destruct (value_encoding v Hv) as (Hf & Hw & He). destruct (width_enc _ _ Hrep) as [Hw' _]. split.
  - intros Hle. eapply fits_mono; [|done]. unfold INTSET_ENC_INT16, INTSET_ENC_INT32, INTSET_ENC_INT64 in He. lia.
  - unfold LLONG_MIN, LLONG_MAX in Hv. clear Hf Hw He. intros Hf. unfold _intsetValueEncoding. rewrite !Z.gtb_ltb.
    destruct (ir_enc _ _ Hrep) as [E|[E|E]]; rewrite E in *; unfold fits in Hf;
      unfold INTSET_ENC_INT16, INTSET_ENC_INT32, INTSET_ENC_INT64 in *; cbn [width] in Hf;
      match type of Hf with context [2 ^ ?e] => let x := eval vm_compute in (2 ^ e) in change (2 ^ e) with x in Hf end;
      destruct (Z.ltb_spec v (-2147483648)), (Z.ltb_spec 2147483647 v), (Z.ltb_spec v (-32768)), (Z.ltb_spec 32767 v); cbn [orb]; lia.
Qed.

Lemma insert_sorted vs v p : StronglySorted Z.lt vs → place_of vs v p → StronglySorted Z.lt (take p vs ++ v :: drop p vs).
Proof.
  intros Hs (Hp & Hlo & Hhi). rewrite <- (take_drop p vs) in Hs. apply StronglySorted_app in Hs as (Hc & H1 & H2).
  apply StronglySorted_app_2; [|done|by apply StronglySorted_cons].
  intros x y Hx [->|Hy]%elem_of_cons; [by eapply Forall_forall in Hlo|by apply Hc].
Qed.

Section change.
Context (junk : nat → Z) (st : intset) (vs : list Z).
Hypothesis Hrep : is_rep st vs.

(** The size of [len] elements. *)
Lemma resize_size len : 0 ≤ len ≤ MAX_INTS → u32 (len * encoding st) = len * Z.of_nat (width (encoding st)).
Proof.
  unfold MAX_INTS. change (2 ^ 28) with 268435456. intros Hl. destruct (width_enc _ _ Hrep) as [-> He]. apply u32_id. nia.
Qed.

Lemma int_insert v p : fits (width (encoding st)) v → place_of vs v p → zlen vs < MAX_INTS →
  ∃ st', (let st := intsetResize junk st (u32 (is_length st + 1)) in
    st ← (if Z.of_nat p <? is_length st then intsetMoveTail st (Z.of_nat p) (u32 (Z.of_nat p + 1)) else Ok st);
    st ← _intsetSet st (Z.of_nat p) v;
    Ok (true, mkIntset (encoding st) (u32 (is_length st + 1)) (contents st))) = Ok (true, st') ∧
    is_rep st' (take p vs ++ v :: drop p vs) ∧ encoding st' = encoding st.
Proof.
  intros Hv Hpl Hlt. destruct (width_enc _ _ Hrep) as [Hw He]. pose proof Hrep as [Henc Hl Hc Hs Hf Hm]. pose proof Hpl as (Hp & _).
  pose proof (zlen_nonneg vs) as Hnn. unfold MAX_INTS in *. change (2 ^ 28) with 268435456 in *. rewrite Hl. rewrite (u32_id (zlen vs + 1)) by lia.
  set (n := width (encoding st)) in *. cbv zeta. unfold intsetResize. cbn [encoding is_length contents]. rewrite Hl.
  rewrite resize_size by (unfold MAX_INTS; lia). fold n. rewrite Hc.
  destruct (realloc_grow junk (elems n vs) ((zlen vs + 1) * Z.of_nat n)) as (J & -> & HJ); [rewrite zlen_elems; lia|]. rewrite zlen_elems in HJ.
  set (pre := take p vs) in *. set (post := drop p vs) in *. assert (Evs : vs = pre ++ post) by (symmetry; apply take_drop).
  assert (Hpre : zlen pre = Z.of_nat p) by (unfold zlen, pre; rewrite length_take; lia).
  assert (Hpost : zlen post = zlen vs - Z.of_nat p) by (rewrite Evs; zlens; lia).
  assert (Hpz : Z.of_nat p ≤ zlen vs) by (unfold zlen; lia).
  assert (∃ X, zlen X = Z.of_nat n ∧
    (if Z.of_nat p <? zlen vs then intsetMoveTail (mkIntset (encoding st) (zlen vs) (elems n vs ++ J)) (Z.of_nat p) (u32 (Z.of_nat p + 1))
     else Ok (mkIntset (encoding st) (zlen vs) (elems n vs ++ J))) = Ok (mkIntset (encoding st) (zlen vs) (elems n pre ++ X ++ elems n post)))
    as (X & HX & ->).
  { destruct (Z.ltb_spec (Z.of_nat p) (zlen vs)).
    - destruct (split_at (elems n post ++ J) (Z.of_nat n)) as (X & Y & EXY & HX & HY); [zlens; rewrite zlen_elems; nia|].
      exists X. split; [done|]. unfold intsetMoveTail. cbn [encoding is_length contents]. fold n. zlens_all. rewrite zlen_elems in HY.
      rewrite (u32_id (zlen vs - Z.of_nat p)), (u32_id (Z.of_nat p + 1)), (u32_id (_ * _)) by (nia || lia).
      rewrite (memmove_at _ (elems n pre) (elems n post) J (elems n pre ++ X) Y []).
      + res_step. rewrite app_nil_r, <- app_assoc. done.
      + rewrite Evs at 1. by rewrite elems_app, <- app_assoc.
      + rewrite zlen_elems. nia.
      + rewrite zlen_elems. nia.
      + rewrite Evs at 1. rewrite elems_app, <- app_assoc, EXY, app_nil_r. by rewrite <- app_assoc.
      + zlens. rewrite zlen_elems. nia.
      + rewrite zlen_elems. nia.
    - assert (Hnil : post = []) by (apply zlen_zero; lia). exists J. split; [nia|]. rewrite Hnil. cbn [elems mbind list_bind].
      rewrite app_nil_r. rewrite Evs at 2. by rewrite Hnil, app_nil_r. }
  res_step. rewrite (set_at _ (elems n pre) X (elems n post)); cbn [encoding contents is_length]; fold n;
    [|done|rewrite zlen_elems; nia|done|unfold INT_MAX; lia].
  res_step. eexists. split; [done|]. split; [|done]. cbn [encoding contents is_length].
  constructor; cbn [encoding contents is_length]; fold n.
  - done.
  - zlens. rewrite u32_id by lia. lia.
  - by rewrite elems_app, elems_cons.
  - by apply insert_sorted.
  - rewrite Evs in Hf. apply Forall_app in Hf as [? ?]. apply Forall_app. split; [done|by constructor].
  - zlens. unfold MAX_INTS. change (2 ^ 28) with 268435456. lia.
Qed.

Lemma int_remove v p : vs !! p = Some v →
  ∃ st', (let len := is_length st in
      st ← (if Z.of_nat p <? u32 (len - 1) then intsetMoveTail st (u32 (Z.of_nat p + 1)) (Z.of_nat p) else Ok st);
      let st := intsetResize junk st (u32 (len - 1)) in
      Ok (true, mkIntset (encoding st) (u32 (len - 1)) (contents st))) = Ok (true, st') ∧
    is_rep st' (take p vs ++ drop (S p) vs).
Proof.
  intros Hp. destruct (width_enc _ _ Hrep) as [Hw He]. pose proof Hrep as [Henc Hl Hc Hs Hf Hm]. apply lookup_lt_Some in Hp as Hlt.
  pose proof (zlen_nonneg vs) as Hnn. unfold MAX_INTS in *. change (2 ^ 28) with 268435456 in *. cbv zeta. rewrite Hl.
  assert (Hlz : Z.of_nat p < zlen vs) by (unfold zlen; lia). rewrite (u32_id (zlen vs - 1)) by lia.
  pose proof (take_drop_middle vs p v Hp) as Evs. set (pre := take p vs) in *. set (post := drop (S p) vs) in *.
  assert (Hpre : zlen pre = Z.of_nat p) by (unfold zlen, pre; rewrite length_take; lia).
  assert (Hpost : zlen post = zlen vs - Z.of_nat p - 1) by (rewrite <- Evs; zlens; lia). set (n := width (encoding st)) in *.
  assert (Hcc : contents st = elems n pre ++ le n v ++ elems n post) by (rewrite Hc, <- Evs; by rewrite elems_app, elems_cons).
  assert (∃ X, (if Z.of_nat p <? zlen vs - 1 then intsetMoveTail st (u32 (Z.of_nat p + 1)) (Z.of_nat p) else Ok st) =
    Ok (mkIntset (encoding st) (is_length st) (elems n pre ++ elems n post ++ X)) ∧ zlen X = Z.of_nat n) as (X & -> & HX).
  { destruct (Z.ltb_spec (Z.of_nat p) (zlen vs - 1)).
    - destruct (split_at (le n v ++ elems n post) (zlen post * Z.of_nat n)) as (Y & X & EXY & HY & HX); [zlens; rewrite zlen_elems, zlen_le; nia|].
      exists X. zlens_all. rewrite zlen_elems, zlen_le in HX. split; [|lia]. unfold intsetMoveTail. fold n.
      rewrite (u32_id (Z.of_nat p + 1)) by lia. rewrite Hl, (u32_id (zlen vs - (Z.of_nat p + 1))), (u32_id (_ * _)) by (nia || lia).
      rewrite (memmove_at _ (elems n pre ++ le n v) (elems n post) [] (elems n pre) Y X).
      + by res_step.
      + by rewrite Hcc, app_nil_r, <- app_assoc.
      + zlens. rewrite zlen_elems, zlen_le. nia.
      + rewrite zlen_elems. nia.
      + by rewrite Hcc, EXY.
      + rewrite zlen_elems. nia.
      + rewrite zlen_elems. nia.
    - assert (Hnil : post = []) by (apply zlen_zero; lia). exists (le n v). split; [|by rewrite zlen_le].
      rewrite Hnil in *. destruct st as [enc len c]. cbn in *. by rewrite Hcc, app_nil_r. }
  res_step. unfold intsetResize. cbn [encoding is_length contents]. rewrite resize_size by (unfold MAX_INTS; lia). fold n.
  rewrite realloc_shrink by (zlens; rewrite !zlen_elems; nia). rewrite app_assoc.
  replace ((zlen vs - 1) * Z.of_nat n) with (zlen (elems n pre ++ elems n post)) by (zlens; rewrite !zlen_elems; nia). rewrite take_zlen.
  eexists. split; [done|]. rewrite <- Evs in Hs, Hf. constructor; cbn [encoding contents is_length]; fold n.
  - done.
  - zlens. lia.
  - by rewrite elems_app.
  - apply StronglySorted_app in Hs as (Hx & H1 & [_ H2]%StronglySorted_cons). apply StronglySorted_app_2; [|done|done].
    intros x y Hx' Hy. apply Hx; [done|]. by right.
  - apply Forall_app in Hf as [? [_ ?]%Forall_cons]. by apply Forall_app.
  - zlens. unfold MAX_INTS. change (2 ^ 28) with 268435456. lia.
Qed.
End change.

(** ** The upgrade *)

(** Half way through: the first [k] values are still narrow, the others are wide already
    and stand at their final place, with a gap [G] in between; [T] is the free place at the
    end. *)
Lemma upgrade_loop_ok curenc vs (prepend : Z) T : 0 ≤ prepend ≤ 1 → zlen vs < MAX_INTS → ∀ k st G,
  let c := width curenc in let n := width (encoding st) in (c < n)%nat → (k ≤ length vs)%nat → Forall (fits c) vs →
  contents st = elems c (take k vs) ++ G ++ elems n (drop k vs) ++ T → zlen G = (Z.of_nat k + prepend) * Z.of_nat n - Z.of_nat k * Z.of_nat c →
  ∃ G', upgrade_loop k st prepend curenc = Ok (mkIntset (encoding st) (is_length st) (G' ++ elems n vs ++ T)) ∧ zlen G' = prepend * Z.of_nat n.
Proof.
  intros Hpp Hmax. induction k as [|k IH]; intros st G c n Hcn Hk Hf Hc HG; cbn [upgrade_loop].
  { exists G. rewrite take_0, drop_0 in Hc. cbn [elems mbind list_bind app] in Hc. split; [|lia]. destruct st. cbn in *. by rewrite Hc. }
  destruct (lookup_lt_is_Some_2 vs k Hk) as [v Hv]. unfold zlen, MAX_INTS in Hmax. change (2 ^ 28) with 268435456 in Hmax.
  rewrite (take_S_r vs k v Hv), elems_app, elems_cons in Hc. cbn [elems mbind list_bind] in Hc. rewrite app_nil_r, <- app_assoc in Hc.
  rewrite (get_encoded st (elems c (take k vs)) v (G ++ elems n (drop (S k) vs) ++ T)); [|done|rewrite zlen_elems; unfold zlen; rewrite length_take; lia|by eapply Forall_lookup_1|unfold INT_MAX; lia].
  res_step. destruct (split_at (le c v ++ G) ((Z.of_nat k + prepend) * Z.of_nat n - Z.of_nat k * Z.of_nat c)) as (G' & X & EGX & HG' & HX).
  { zlens. rewrite zlen_le. nia. }
  zlens_all. rewrite zlen_le in HX.
  rewrite (set_at st (elems c (take k vs) ++ G') X (elems n (drop (S k) vs) ++ T)).
  - res_step. set (st' := mkIntset _ _ _). destruct (IH st' G') as (G2 & E2 & HG2); [done|lia|done| |done|by exists G2].
    unfold st'. cbn [contents encoding]. fold c n. rewrite (drop_S vs v k Hv), elems_cons, <- !app_assoc. done.
  - rewrite Hc, (app_assoc (le c v)), EGX. by rewrite <- !app_assoc.
  - fold n. zlens. rewrite zlen_elems. unfold zlen at 1. rewrite length_take. nia.
  - fold n. lia.
  - unfold INT_MAX. lia.
Qed.

Lemma outside n v x : ¬ fits n v → fits n x → if v <? 0 then v < x else x < v.
Proof.
  unfold fits. intros Hv Hx. assert (0 ≤ 2 ^ (8 * Z.of_nat n - 1)) by (apply Z.pow_nonneg; lia). destruct (Z.ltb_spec v 0); lia.
Qed.

Lemma int_upgrade junk st vs v : is_rep st vs → LLONG_MIN ≤ v ≤ LLONG_MAX → encoding st < _intsetValueEncoding v → zlen vs < MAX_INTS →
  ∃ st' p, intsetUpgradeAndAdd junk st v = Ok st' ∧ place_of vs v p ∧ is_rep st' (take p vs ++ v :: drop p vs).
Proof.
  intros Hrep Hv Henc Hlt. pose proof Hrep as [He Hl Hc Hs Hf Hm]. destruct (value_encoding v Hv) as (Hvf & Hvw & Hve).
  destruct (width_enc _ _ Hrep) as [Hw He2]. assert (Hnf : ¬ fits (width (encoding st)) v) by (rewrite <- (encoding_fits st vs v Hrep Hv); lia).
  pose proof (zlen_nonneg vs) as Hnn. assert (Hlt' := Hlt). unfold MAX_INTS in Hlt'. change (2 ^ 28) with 268435456 in Hlt'.
  set (e := _intsetValueEncoding v) in *. set (c := width (encoding st)) in *. set (n := width e) in *.
  assert (Hcn : (0 < c < n)%nat) by lia. assert (Hn8 : Z.of_nat n ≤ 8) by (unfold INTSET_ENC_INT16, INTSET_ENC_INT32, INTSET_ENC_INT64 in Hve; lia).
  unfold intsetUpgradeAndAdd, intsetResize. fold e. cbn [encoding is_length contents]. rewrite Hl, Hc.
  rewrite (u32_id (zlen vs + 1)) by lia. rewrite to_int_id by (unfold INT_MIN, INT_MAX; lia).
  replace (u32 ((zlen vs + 1) * e)) with ((zlen vs + 1) * Z.of_nat n) by (rewrite u32_id; nia).
  set (prepend := if v <? 0 then 1 else 0). assert (Hpp : 0 ≤ prepend ≤ 1) by (unfold prepend; case_match; lia).
  destruct (realloc_grow junk (elems c vs) ((zlen vs + 1) * Z.of_nat n)) as (J & -> & HJ); [rewrite zlen_elems; nia|]. rewrite zlen_elems in HJ.
  destruct (split_at J ((zlen vs + prepend) * Z.of_nat n - zlen vs * Z.of_nat c)) as (G & T & -> & HG & HT); [nia|].
  destruct (upgrade_loop_ok (encoding st) vs prepend T Hpp Hlt (length vs) (mkIntset e (zlen vs) (elems c vs ++ G ++ T)) G) as (G' & EL & HG');
    [by cbn; fold e n c; lia|done|done|by cbn; rewrite firstn_all, drop_all|done|]. cbn [encoding is_length] in EL, HG'. fold n in EL, HG'.
  replace (Z.to_nat (zlen vs)) with (length vs) by (unfold zlen; lia). rewrite EL. res_step.
  assert (Hres : ∃ p, place_of vs v p ∧
    (if v <? 0 then _intsetSet (mkIntset e (zlen vs) (G' ++ elems n vs ++ T)) 0 v else _intsetSet (mkIntset e (zlen vs) (G' ++ elems n vs ++ T)) (zlen vs) v) =
      Ok (mkIntset e (zlen vs) (elems n (take p vs ++ v :: drop p vs)))).
  { assert (Hpr : prepend = if v <? 0 then 1 else 0) by done. clearbody prepend. rewrite HJ in HT. revert Hpr. destruct (Z.ltb_spec v 0) as [Hneg|Hpos]; intros ->.
    - exists 0%nat. split.
      + split; [lia|]. split; [constructor|]. rewrite drop_0. eapply Forall_impl; [exact Hf|]. intros x Hx. pose proof (outside c v x Hnf Hx) as Ho. by destruct (Z.ltb_spec v 0); [|lia].
      + assert (Tnil : T = []) by (apply zlen_zero; nia). subst T. rewrite (set_at _ [] G' (elems n vs)); cbn [encoding contents is_length]; fold n;
          [by rewrite take_0, drop_0|by rewrite app_nil_r|done|lia|unfold INT_MAX; lia].
    - exists (length vs). split.
      + split; [lia|]. rewrite firstn_all, drop_all. split; [|constructor]. eapply Forall_impl; [exact Hf|]. intros x Hx. pose proof (outside c v x Hnf Hx) as Ho. by destruct (Z.ltb_spec v 0); [lia|].
      + assert (Gnil : G' = []) by (apply zlen_zero; nia). subst G'. rewrite (set_at _ (elems n vs) T []); cbn [encoding contents is_length]; fold n;
          [by rewrite firstn_all, drop_all, elems_app, app_nil_r, elems_cons, app_nil_r|by rewrite app_nil_r|by rewrite zlen_elems|nia|unfold INT_MAX; lia]. }
  cbn [is_length]. destruct Hres as (p & Hpl & ->). res_step. eexists _, p. split; [done|]. split; [done|].
  assert (Hlen : zlen (take p vs ++ v :: drop p vs) = zlen vs + 1) by (rewrite <- (take_drop p vs) at 3; zlens; lia).
  constructor; cbn [encoding contents is_length]; fold n.
  - done.
  - rewrite u32_id by lia. lia.
  - done.
  - by apply insert_sorted.
  - rewrite <- (take_drop p vs) in Hf. apply Forall_app in Hf as [H1 H2]. apply Forall_app. split; [|constructor; [done|]].
    + eapply Forall_impl; [exact H1|]. intros x. apply fits_mono. lia.
    + eapply Forall_impl; [exact H2|]. intros x. apply fits_mono. lia.
  - unfold MAX_INTS. change (2 ^ 28) with 268435456. lia.
Qed.

(** * Sets *)

(** The elements of a set in ascending order. *)
Definition sorted_elems (X : gset Z) : list Z := merge_sort Z.le (elements X).

Lemma sorted_unique X vs : StronglySorted Z.lt vs → (∀ x, x ∈ vs ↔ x ∈ X) → vs = sorted_elems X.
Proof.
  intros Hs Hx. assert (Hnd : NoDup vs).
  { clear Hx. induction Hs as [|x vs Hs IH Hf]; constructor; [|done]. intros Hin. eapply Forall_forall in Hf; [|done]. lia. }
  apply (StronglySorted_unique Z.le); [|apply StronglySorted_merge_sort; apply _|].
  - clear Hnd Hx. induction Hs as [|x vs Hs IH Hf]; constructor; [done|]. eapply Forall_impl; [done|]. intros y. cbn. lia.
  - unfold sorted_elems. rewrite merge_sort_Permutation. apply NoDup_Permutation; [done|apply NoDup_elements|]. intros x. by rewrite Hx, elem_of_elements.
Qed.

Lemma elem_sorted X x : x ∈ sorted_elems X ↔ x ∈ X.
Proof. unfold sorted_elems. by rewrite merge_sort_Permutation, elem_of_elements. Qed.

Lemma length_sorted X : length (sorted_elems X) = stdpp.base.size X.
Proof. unfold sorted_elems. by rewrite merge_sort_Permutation. Qed.

Definition set_rep (st : intset) (X : gset Z) : Prop := is_rep st (sorted_elems X).

Lemma set_rep_intro st vs X : is_rep st vs → (∀ x, x ∈ vs ↔ x ∈ X) → set_rep st X.
Proof. intros Hrep Hx. unfold set_rep. rewrite <- (sorted_unique X vs); [done|by destruct Hrep|done]. Qed.

Lemma place_not_in vs v p : place_of vs v p → v ∉ vs.
Proof.
  intros (_ & Hlo & Hhi) Hin. rewrite <- (take_drop p vs), elem_of_app in Hin.
  destruct Hin as [Hin|Hin]; [eapply Forall_forall in Hlo|eapply Forall_forall in Hhi]; try done; cbn in *; lia.
Qed.

Lemma elem_insert (vs : list Z) v p x : x ∈ take p vs ++ v :: drop p vs ↔ x = v ∨ x ∈ vs.
Proof. rewrite <- (take_drop p vs) at 3. rewrite !elem_of_app, elem_of_cons. tauto. Qed.

(** A search on the set. *)
Lemma search_set st X v : set_rep st X → LLONG_MIN ≤ v ≤ LLONG_MAX → _intsetValueEncoding v ≤ encoding st →
  ∃ p, intsetSearch st v = Ok (bool_decide (v ∈ X), Z.of_nat p) ∧
    if bool_decide (v ∈ X) then sorted_elems X !! p = Some v else place_of (sorted_elems X) v p.
Proof.
  intros Hrep Hv _. destruct (search_rep st _ v Hrep) as (b & p & E & Hb). exists p. rewrite E.
  assert (b = bool_decide (v ∈ X)) as <-; [|done]. destruct b; symmetry.
  - apply bool_decide_eq_true. apply elem_sorted. by eapply list_elem_of_lookup_2.
  - apply bool_decide_eq_false. rewrite <- elem_sorted. by eapply place_not_in.
Qed.

(** A value too wide for the encoding is not in the set. *)
Lemma wide_not_in st X v : set_rep st X → LLONG_MIN ≤ v ≤ LLONG_MAX → encoding st < _intsetValueEncoding v → v ∉ X.
Proof.
  intros Hrep Hv Hlt Hin. apply elem_sorted in Hin. pose proof (ir_fits _ _ Hrep) as Hf. eapply Forall_forall in Hf; [|done].
  apply (encoding_fits _ _ _ Hrep Hv) in Hf. lia.
Qed.

Lemma intsetAdd_rep junk st X v : set_rep st X → LLONG_MIN ≤ v ≤ LLONG_MAX → Z.of_nat (stdpp.base.size X) < MAX_INTS →
  ∃ st', intsetAdd junk st v = Ok (bool_decide (v ∉ X), st') ∧ set_rep st' ({[v]} ∪ X).
Proof.
  intros Hrep Hv Hsz. unfold intsetAdd. rewrite Z.gtb_ltb.
  assert (Hz : zlen (sorted_elems X) < MAX_INTS) by (unfold zlen; by rewrite length_sorted).
  destruct (Z.ltb_spec (encoding st) (_intsetValueEncoding v)) as [Hlt|Hle].
  - destruct (int_upgrade junk st _ v Hrep Hv Hlt Hz) as (st' & p & -> & Hp & Hrep'). res_step. exists st'.
    rewrite bool_decide_eq_true_2 by (by eapply wide_not_in). split; [done|]. apply (set_rep_intro _ _ _ Hrep').
    intros x. rewrite elem_insert, elem_sorted. set_solver.
  - destruct (search_set st X v Hrep Hv Hle) as (p & -> & Hp). res_step. case_bool_decide as Hin.
    + exists st. rewrite bool_decide_eq_false_2 by tauto. split; [done|]. by replace ({[v]} ∪ X) with X by set_solver.
    + assert (Hfit : fits (width (encoding st)) v) by (by apply (encoding_fits _ _ _ Hrep Hv)).
      destruct (int_insert junk st _ Hrep v p Hfit Hp Hz) as (st' & E & Hrep' & _). cbv zeta in E. rewrite E.
      exists st'. rewrite bool_decide_eq_true_2 by done. split; [done|]. apply (set_rep_intro _ _ _ Hrep').
      intros x. rewrite elem_insert, elem_sorted. set_solver.
Qed.

Lemma sorted_nodup vs i v : StronglySorted Z.lt vs → vs !! i = Some v → v ∉ take i vs ++ drop (S i) vs.
Proof.
  intros Hs Hi Hin. rewrite <- (take_drop_middle vs i v Hi) in Hs. apply StronglySorted_app in Hs as (Hc & _ & [Hf _]%StronglySorted_cons).
  apply elem_of_app in Hin as [Hin|Hin].
  - assert (v < v); [|lia]. apply Hc; [done|]. by left.
  - eapply Forall_forall in Hf; [|done]. lia.
Qed.

Lemma intsetRemove_rep junk st X v : set_rep st X → LLONG_MIN ≤ v ≤ LLONG_MAX →
  ∃ st', intsetRemove junk st v = Ok (bool_decide (v ∈ X), st') ∧ set_rep st' (X ∖ {[v]}).
Proof.
  intros Hrep Hv. unfold intsetRemove. assert (Hno : v ∉ X → X ∖ {[v]} = X) by set_solver.
  destruct (Z.leb_spec (_intsetValueEncoding v) (encoding st)) as [Hle|Hlt].
  - destruct (search_set st X v Hrep Hv Hle) as (p & -> & Hp). res_step. case_bool_decide as Hin; [|exists st; by rewrite Hno].
    destruct (int_remove junk st _ Hrep v p Hp) as (st' & E & Hrep'). cbv zeta in E. rewrite E.
    exists st'. split; [done|]. apply (set_rep_intro _ _ _ Hrep'). intros x.
    pose proof (sorted_nodup _ _ _ (ir_sorted _ _ Hrep) Hp) as Hnd. rewrite elem_of_difference, elem_of_singleton, <- elem_sorted.
    rewrite <- (take_drop_middle _ p v Hp) at 3. rewrite !elem_of_app, elem_of_cons in *.
    destruct (decide (x = v)) as [->|]; tauto.
  - exists st. pose proof (wide_not_in st X v Hrep Hv Hlt) as Hn. by rewrite bool_decide_eq_false_2, Hno by done.
Qed.

Lemma intsetFind_rep st X v : set_rep st X → LLONG_MIN ≤ v ≤ LLONG_MAX → intsetFind st v = Ok (bool_decide (v ∈ X)).
Proof.
  intros Hrep Hv. unfold intsetFind. destruct (Z.leb_spec (_intsetValueEncoding v) (encoding st)) as [Hle|Hlt].
  - destruct (search_set st X v Hrep Hv Hle) as (p & -> & _). by res_step.
  - by rewrite bool_decide_eq_false_2 by (by eapply wide_not_in).
Qed.

Lemma set_length st X : set_rep st X → is_length st = Z.of_nat (stdpp.base.size X).
Proof. intros Hrep. rewrite (ir_length _ _ Hrep). unfold zlen. by rewrite length_sorted. Qed.

Lemma intsetGet_rep st X pos : set_rep st X → 0 ≤ pos → intsetGet st pos = Ok (sorted_elems X !! Z.to_nat pos).
Proof.
  intros Hrep Hp. unfold intsetGet. rewrite (set_length _ _ Hrep). destruct (Z.ltb_spec pos (Z.of_nat (stdpp.base.size X))).
  - destruct (lookup_lt_is_Some_2 (sorted_elems X) (Z.to_nat pos)) as [x Hx]; [rewrite length_sorted; lia|].
    pose proof (int_at _ _ _ _ Hrep Hx) as Hg. rewrite Z2Nat.id in Hg by done. rewrite Hg. res_step. by rewrite Hx.
  - by rewrite lookup_ge_None_2 by (rewrite length_sorted; lia).
Qed.

Lemma intsetBlobLen_rep st X : set_rep st X → intsetBlobLen st = sizeof_intset + zlen (contents st).
Proof.
  intros Hrep. unfold intsetBlobLen. destruct (width_enc _ _ Hrep) as [Hw He]. pose proof (ir_max _ _ Hrep) as Hm. pose proof (zlen_nonneg (sorted_elems X)).
  rewrite (ir_contents _ _ Hrep), zlen_elems, (ir_length _ _ Hrep), Hw. unfold MAX_INTS in Hm. change (2 ^ 28) with 268435456 in Hm.
  rewrite u32_id by nia. apply to_size_t_id. unfold sizeof_intset, SIZE_MAX, ULLONG_MAX. nia.
Qed.

(** * Programs *)

Inductive iop := IAdd (v : Z) | IRemove (v : Z) | IFind (v : Z) | IGet (pos : Z) | IRandom (r : Z) | ILen | IBlobFits.
Inductive iout := IFlag (b : bool) | IValue (v : option Z) | ICount (n : Z).

(** [IBlobFits]: is the size that [intsetBlobLen] reports that of the allocation? *)
Definition istep (junk : nat → Z) (st : intset) (op : iop) : res (iout * intset) :=
  match op with
  | IAdd v => '(b, st) ← intsetAdd junk st v; Ok (IFlag b, st)
  | IRemove v => '(b, st) ← intsetRemove junk st v; Ok (IFlag b, st)
  | IFind v => b ← intsetFind st v; Ok (IFlag b, st)
  | IGet pos => v ← intsetGet st pos; Ok (IValue v, st)
  | IRandom r => v ← intsetRandom st r; Ok (IValue (Some v), st)
  | ILen => Ok (ICount (intsetLen st), st)
  | IBlobFits => Ok (IFlag (intsetBlobLen st =? sizeof_intset + zlen (contents st)), st)
  end.

Definition xstep (X : gset Z) (op : iop) : res (iout * gset Z) :=
  match op with
  | IAdd v => Ok (IFlag (bool_decide (v ∉ X)), {[v]} ∪ X)
  | IRemove v => Ok (IFlag (bool_decide (v ∈ X)), X ∖ {[v]})
  | IFind v => Ok (IFlag (bool_decide (v ∈ X)), X)
  | IGet pos => Ok (IValue (sorted_elems X !! Z.to_nat pos), X)
  | IRandom r =>
      if decide (X = ∅) then Fault DivByZero
      else Ok (IValue (sorted_elems X !! Z.to_nat (r mod Z.of_nat (stdpp.base.size X))), X)
  | ILen => Ok (ICount (Z.of_nat (stdpp.base.size X)), X)
  | IBlobFits => Ok (IFlag true, X)
  end.

Definition iop_ok (op : iop) : Prop :=
  match op with
  | IAdd v | IRemove v | IFind v => LLONG_MIN ≤ v ≤ LLONG_MAX
  | IGet pos => 0 ≤ pos < 2 ^ 32
  | IRandom r => 0 ≤ r ≤ INT_MAX
  | _ => True
  end.
#[export] Instance iop_ok_dec op : Decision (iop_ok op).
Proof. destruct op; apply _. Defined.

Fixpoint irun (junk : nat → Z) (st : intset) (ops : list iop) : res (list iout * intset) :=
  match ops with
  | [] => Ok ([], st)
  | op :: ops => '(o, st) ← istep junk st op; '(os, st) ← irun junk st ops; Ok (o :: os, st)
  end.
Fixpoint xrun (X : gset Z) (ops : list iop) : res (list iout * gset Z) :=
  match ops with
  | [] => Ok ([], X)
  | op :: ops => '(o, X) ← xstep X op; '(os, X) ← xrun X ops; Ok (o :: os, X)
  end.

Lemma intsetRandom_rep st X r : set_rep st X → 0 ≤ r ≤ INT_MAX →
  intsetRandom st r = if decide (X = ∅) then Fault DivByZero
    else v ← deref (sorted_elems X !! Z.to_nat (r mod Z.of_nat (stdpp.base.size X))); Ok v.
Proof.
  unfold INT_MAX. intros Hrep Hr. unfold intsetRandom. rewrite (set_length _ _ Hrep), (u32_id r) by lia. destruct (decide (X = ∅)) as [->|Hne].
  { by rewrite size_empty. }
  assert (stdpp.base.size X ≠ 0%nat) by (by rewrite size_empty_iff, leibniz_equiv_iff).
  destruct (Z.eqb_spec (Z.of_nat (stdpp.base.size X)) 0); [lia|].
  assert (Hpos : 0 < Z.of_nat (stdpp.base.size X)) by lia. pose proof (Z.mod_pos_bound r _ Hpos) as Hb.
  destruct (lookup_lt_is_Some_2 (sorted_elems X) (Z.to_nat (r mod Z.of_nat (stdpp.base.size X)))) as [x Hx]; [rewrite length_sorted; lia|].
  pose proof (int_at _ _ _ _ Hrep Hx) as Hg. rewrite Z2Nat.id in Hg by lia. rewrite Hg, Hx. done.
Qed.

Lemma istep_ok junk st X op : set_rep st X → iop_ok op → Z.of_nat (stdpp.base.size X) < MAX_INTS →
  match xstep X op with
  | Ok (o, X') => ∃ st', istep junk st op = Ok (o, st') ∧ set_rep st' X' ∧ (stdpp.base.size X' ≤ S (stdpp.base.size X))%nat
  | Fault f => istep junk st op = Fault f
  end.
Proof.
  intros Hrep Hop Hsz. destruct op; cbn [istep xstep iop_ok] in *.
  - destruct (intsetAdd_rep junk st X v Hrep Hop Hsz) as (st' & -> & H'). res_step. exists st'. split; [done|]. split; [done|].
    rewrite size_union_alt, size_singleton. assert (stdpp.base.size (X ∖ {[v]}) ≤ stdpp.base.size X)%nat by (apply subseteq_size; set_solver). lia.
  - destruct (intsetRemove_rep junk st X v Hrep Hop) as (st' & -> & H'). res_step. exists st'. split; [done|]. split; [done|].
    assert (stdpp.base.size (X ∖ {[v]}) ≤ stdpp.base.size X)%nat by (apply subseteq_size; set_solver). lia.
  - rewrite (intsetFind_rep _ _ _ Hrep Hop). res_step. exists st. auto with lia.
  - rewrite (intsetGet_rep _ _ _ Hrep) by lia. res_step. exists st. auto with lia.
  - rewrite (intsetRandom_rep _ _ _ Hrep Hop). destruct (decide (X = ∅)) as [|Hne]; [done|].
    assert (stdpp.base.size X ≠ 0%nat) by (by rewrite size_empty_iff, leibniz_equiv_iff).
    assert (Hpos : 0 < Z.of_nat (stdpp.base.size X)) by lia. pose proof (Z.mod_pos_bound r _ Hpos) as Hb.
    destruct (lookup_lt_is_Some_2 (sorted_elems X) (Z.to_nat (r mod Z.of_nat (stdpp.base.size X)))) as [x ->]; [rewrite length_sorted; lia|].
    cbn [deref]. do 2 res_step. exists st. auto with lia.
  - exists st. unfold intsetLen. rewrite (set_length _ _ Hrep). auto with lia.
  - exists st. rewrite (intsetBlobLen_rep _ _ Hrep), Z.eqb_refl. auto with lia.
Qed.

Lemma irun_ok junk ops : ∀ st X, set_rep st X → Forall iop_ok ops → Z.of_nat (stdpp.base.size X + length ops) ≤ MAX_INTS →
  match xrun X ops with
  | Ok (os, X') => ∃ st', irun junk st ops = Ok (os, st') ∧ set_rep st' X'
  | Fault f => irun junk st ops = Fault f
  end.
Proof.
  induction ops as [|op ops IH]; intros st X Hrep Hops Hsz; cbn [irun xrun]; [by exists st|].
  apply Forall_cons in Hops as [Hop Hops]. cbn [length] in Hsz. pose proof (istep_ok junk st X op Hrep Hop ltac:(lia)) as Hstep.
  destruct (xstep X op) as [[o X1]|f]; [|by rewrite Hstep]. destruct Hstep as (st1 & -> & Hrep1 & Hsz1). do 2 res_step.
  specialize (IH st1 X1 Hrep1 Hops ltac:(lia)). destruct (xrun X1 ops) as [[os X2]|f]; [|by rewrite IH].
  destruct IH as (st2 & -> & Hrep2). res_step. cbn. by exists st2.
Qed.

(** C11: From an empty set, any program of additions, removals, membership tests, reads by
    position, draws and length queries of up to 2^28 operations has on the packed array, with
    its binary search and its upgrades in place from 2 to 4 and 8 byte elements, the results
    it has on a finite set of 64-bit integers and its sorted enumeration; it never reads or
    writes outside the array.  Only a draw from an empty set fails, with a division by zero. *)
Theorem intset_refines_set junk ops : Forall iop_ok ops → Z.of_nat (length ops) ≤ MAX_INTS →
  match xrun ∅ ops with
  | Ok (os, X) => ∃ st, irun junk intsetNew ops = Ok (os, st) ∧ set_rep st X
  | Fault f => irun junk intsetNew ops = Fault f
  end.
Proof.
  intros Hops Hlen. apply irun_ok; [|done|by rewrite size_empty].
  apply (set_rep_intro _ []); [|set_solver]. constructor; cbn; [by left|done|done|constructor|constructor|done].
Qed.

Definition intset_ops : list iop :=
  [IAdd 5; IAdd (-3); IAdd 5; IAdd 70000; IAdd (-5000000000); IFind 70000; IFind 6; IGet 0; IGet 2; IRemove 5; IRemove 5; IGet 1; IRandom 8; ILen; IBlobFits].

Lemma intset_refines_set_witness :
  ∃ st, irun (λ _, 90) intsetNew intset_ops =
    Ok ([IFlag true; IFlag true; IFlag false; IFlag true; IFlag true; IFlag true; IFlag false; IValue (Some (-5000000000));
         IValue (Some 5); IFlag true; IFlag false; IValue (Some (-3)); IValue (Some 70000); ICount 3; IFlag true], st) ∧
    set_rep st {[-5000000000; -3; 70000]}.
Proof.
  pose proof (intset_refines_set (λ _, 90) intset_ops) as H. revert H.
  replace (xrun ∅ intset_ops) with (Ok ([IFlag true; IFlag true; IFlag false; IFlag true; IFlag true; IFlag true; IFlag false; IValue (Some (-5000000000));
         IValue (Some 5); IFlag true; IFlag false; IValue (Some (-3)); IValue (Some 70000); ICount 3; IFlag true], {[-5000000000; -3; 70000]} : gset Z)) by (vm_compute; reflexivity).
  intros H. apply H; [by apply (bool_decide_unpack _)|vm_compute; done].
Defined.
