(* ===== verification/HashObj.v ===== *)
(** src/src/t_hash.c on the structures it works on: a hash object is the bytes of a
    ziplist or a dictionary of dict.c, and its functions are the calls to ziplist.c and
    dict.c that they make.  The theorem takes a whole hash object from raw memory and hash
    tables under incremental rehashing to a finite map.  The encoding [OBJ_ENCODING_REL]
    of the relational data is left to the file Meta. *)
From S2P Require Import Prelude CString Util Sds Keys Hash Dict DictSpec DictOps Ziplist ZiplistSpec ZiplistOps.
Local Open Scope Z_scope.

Section hash_object.
Context (hash : bytes → Z) (junk : nat → Z).
Notation dict := (Dict.dict bytes bytes).

(** [serverAssert(p != NULL)] and the use of [p]. *)
Definition assert_some {A} (p : option A) : res A := _ ← assert (match p with Some _ => true | None => false end); deref p.

(** [o->encoding] and [o->ptr]. *)
Inductive hobj :=
| OBJ_ENCODING_ZIPLIST (zl : mem)
| OBJ_ENCODING_HT (d : dict).

Definition createHashObject : res hobj := zl ← ziplistNew junk; Ok (OBJ_ENCODING_ZIPLIST zl).

(** The pointer to [field] in a ziplist: every second entry is compared. *)
Definition field_ptr (zl : mem) (field : bytes) : res (option Z) :=
  fptr ← ziplistIndex zl 0;
  match fptr with
  | None => Ok None
  | Some fptr => Ziplist.ziplistFind zl fptr field 1
  end.

(** The pointer to its value, the entry that follows. *)
Definition value_entry (zl : mem) (field : bytes) : res (option Z) :=
  fptr ← field_ptr zl field;
  match fptr with
  | None => Ok None
  | Some fptr =>
      vptr ← Ziplist.ziplistNext zl fptr;
      vptr ← assert_some vptr;
      Ok (Some vptr)
  end.

Definition hashTypeGetFromZiplist (zl : mem) (field : bytes) : res (option zvalue) :=
  vptr ← value_entry zl field;
  match vptr with
  | None => Ok None
  | Some vptr =>
      ret ← ziplistGet zl (Some vptr);
      v ← assert_some ret;
      Ok (Some v)
  end.

(** A lookup in the dictionary may move a bucket. *)
Definition hashTypeGetFromHashTable (d : dict) (field : bytes) : res (option bytes * dict) :=
  '(de, d) ← Dict.dictFind hash d field;
  Ok (option_map snd de, d).

(** [vstr], [vlen] and [vll] are one value. *)
Definition hashTypeGetValue (o : hobj) (field : bytes) : res (option zvalue * hobj) :=
  match o with
  | OBJ_ENCODING_ZIPLIST zl => v ← hashTypeGetFromZiplist zl field; Ok (v, o)
  | OBJ_ENCODING_HT d =>
      '(value, d) ← hashTypeGetFromHashTable d field;
      Ok (option_map (λ s, ZVStr (code <$> s)) value, OBJ_ENCODING_HT d)
  end.

Definition hashTypeGetValueObject (o : hobj) (field : bytes) : res (option strobj * hobj) :=
  '(v, o) ← hashTypeGetValue o field;
  Ok (match v with
      | None => None
      | Some (ZVStr s) => Some (createStringObject (chr <$> s))
      | Some (ZVInt z) => Some (createStringObjectFromLongLong z)
      end, o).

Definition hashTypeGetValueLength (o : hobj) (field : bytes) : res (Z * hobj) :=
  match o with
  | OBJ_ENCODING_ZIPLIST zl =>
      v ← hashTypeGetFromZiplist zl field;
      Ok (match v with None => 0 | Some (ZVStr s) => zlen s | Some (ZVInt vll) => sdigits10 vll end, o)
  | OBJ_ENCODING_HT d =>
      '(aux, d) ← hashTypeGetFromHashTable d field;
      Ok (match aux with None => 0 | Some s => Z.of_nat (length s) end, OBJ_ENCODING_HT d)
  end.

Definition hashTypeExists (o : hobj) (field : bytes) : res (bool * hobj) :=
  match o with
  | OBJ_ENCODING_ZIPLIST zl => v ← hashTypeGetFromZiplist zl field; Ok (bool_decide (is_Some v), o)
  | OBJ_ENCODING_HT d =>
      '(v, d) ← hashTypeGetFromHashTable d field;
      Ok (bool_decide (is_Some v), OBJ_ENCODING_HT d)
  end.

(** The length of a ziplist is cached in its header when it fits there. *)
Definition hashTypeLength (o : hobj) : res (Z * hobj) :=
  match o with
  | OBJ_ENCODING_ZIPLIST zl => '(n, zl) ← ziplistLen zl; Ok (n / 2, OBJ_ENCODING_ZIPLIST zl)
  | OBJ_ENCODING_HT d => Ok (dictSize d, o)
  end.

(** The cursor of an iterator on a ziplist: [fptr] and [vptr]. *)
Definition hashTypeNext (zl : mem) (hi : option (Z * Z)) : res (option (Z * Z)) :=
  fptr ← (match hi with
          | None => ziplistIndex zl 0
          | Some (_, vptr) => Ziplist.ziplistNext zl vptr
          end);
  match fptr with
  | None => Ok None
  | Some fptr =>
      vptr ← Ziplist.ziplistNext zl fptr;
      vptr ← assert_some vptr;
      Ok (Some (fptr, vptr))
  end.

Definition hashTypeCurrentObjectNewSds (zl : mem) (ptr : Z) : res bytes :=
  ret ← ziplistGet zl (Some ptr);
  v ← assert_some ret;
  Ok (match v with ZVStr s => chr <$> s | ZVInt vll => sdsfromlonglong vll end).

Fixpoint convert_loop (fuel : nat) (can : bool) (zl : mem) (hi : option (Z * Z)) (d : dict) : res dict :=
  match fuel with
  | O => Fault OutOfFuel
  | S fuel =>
      hi ← hashTypeNext zl hi;
      match hi with
      | None => Ok d
      | Some (fptr, vptr) =>
          key ← hashTypeCurrentObjectNewSds zl fptr;
          value ← hashTypeCurrentObjectNewSds zl vptr;
          '(ret, d) ← Dict.dictAdd hash can d key value;
          match ret with
          | DICT_ERR => Fault Panic
          | DICT_OK => convert_loop fuel can zl (Some (fptr, vptr)) d
          end
      end
  end.

(** Every round of the loop passes two entries, of a byte at least each. *)
Definition hashTypeConvertZiplist (can : bool) (zl : mem) : res hobj :=
  d ← convert_loop (length zl) can zl None Dict.dictCreate;
  Ok (OBJ_ENCODING_HT d).

(** [hashTypeConvert(o, OBJ_ENCODING_HT)]. *)
Definition hashTypeConvert (can : bool) (o : hobj) : res hobj :=
  match o with
  | OBJ_ENCODING_ZIPLIST zl => hashTypeConvertZiplist can zl
  | OBJ_ENCODING_HT _ => Fault Panic
  end.

Fixpoint hashTypeTryConversion (can : bool) (max_value : Z) (o : hobj) (argv : list strobj) : res hobj :=
  match o, argv with
  | OBJ_ENCODING_HT _, _ | _, [] => Ok o
  | OBJ_ENCODING_ZIPLIST _, a :: argv =>
      if match a with SRaw s => Z.of_nat (length s) >? max_value | SInt _ => false end
      then hashTypeConvert can o
      else hashTypeTryConversion can max_value o argv
  end.

(** The ziplist branch that [hashTypeSet] and [hashTypeSetWithNoFlags] share: an update
    replaces the value where it is, a new pair goes to the tail; then the length is checked. *)
Definition set_ziplist (zl : mem) (field value : bytes) : res (bool * mem) :=
  vptr ← value_entry zl field;
  match vptr with
  | Some vptr =>
      zl ← Ziplist.ziplistDelete junk zl vptr;
      zl ← Ziplist.ziplistInsert junk zl vptr value;
      Ok (true, zl)
  | None =>
      zl ← Ziplist.ziplistPush junk zl field ZIPLIST_TAIL;
      zl ← Ziplist.ziplistPush junk zl value ZIPLIST_TAIL;
      Ok (false, zl)
  end.
Definition set_and_check (can : bool) (max_entries : Z) (zl : mem) (field value : bytes) : res (bool * hobj) :=
  '(update, zl) ← set_ziplist zl field value;
  '(n, o) ← hashTypeLength (OBJ_ENCODING_ZIPLIST zl);
  o ← (if n >? max_entries then hashTypeConvert can o else Ok o);
  Ok (update, o).

Definition hashTypeSet (can : bool) (max_entries : Z) (o : hobj) (field value : bytes) : res (bool * hobj) :=
  match o with
  | OBJ_ENCODING_ZIPLIST zl => set_and_check can max_entries zl field value
  | OBJ_ENCODING_HT d =>
      '(de, d) ← Dict.dictFind hash d field;
      match de with
      | Some _ =>
          p ← find_tables hash d field;
          p ← deref p;
          d ← Dict.dictSetVal d p.1.1 p.1.2 field value;
          Ok (true, OBJ_ENCODING_HT d)
      | None => '(_, d) ← Dict.dictAdd hash can d field value; Ok (false, OBJ_ENCODING_HT d)
      end
  end.

Definition hashTypeSetWithNoFlags (can : bool) (max_entries : Z) (o : hobj) (field value : strobj) : res (bool * hobj) :=
  field ← getDecodedObject field;
  value ← getDecodedObject value;
  field ← sds_ptr field;
  value ← sds_ptr value;
  match o with
  | OBJ_ENCODING_ZIPLIST zl => set_and_check can max_entries zl field value
  | OBJ_ENCODING_HT d =>
      '(added, _, d) ← Dict.dictReplace hash can d field value;
      Ok (negb added, OBJ_ENCODING_HT d)
  end.

Definition HASHTABLE_MIN_FILL : Z := 10.
Definition htNeedsResize (d : dict) : res bool :=
  let size := to_signed 64 (to_size_t (Dict.size (ht0 d) + Dict.size (ht1 d))) in
  let used := to_signed 64 (dictSize d) in
  if size >? DICT_HT_INITIAL_SIZE then Ok (to_signed 64 (used * 100) ÷ size <? HASHTABLE_MIN_FILL) else Ok false.

Definition hashTypeDelete (can : bool) (o : hobj) (field : bytes) : res (bool * hobj) :=
  match o with
  | OBJ_ENCODING_ZIPLIST zl =>
      fptr ← field_ptr zl field;
      match fptr with
      | None => Ok (false, o)
      | Some fptr =>
          zl ← Ziplist.ziplistDelete junk zl fptr;
          zl ← Ziplist.ziplistDelete junk zl fptr;
          Ok (true, OBJ_ENCODING_ZIPLIST zl)
      end
  | OBJ_ENCODING_HT d =>
      '(st, d) ← Dict.dictDelete hash d field;
      match st with
      | DICT_ERR => Ok (false, OBJ_ENCODING_HT d)
      | DICT_OK =>
          needs ← htNeedsResize d;
          '(_, d) ← (if needs : bool then dictResize can d else Ok (DICT_ERR, d));
          Ok (true, OBJ_ENCODING_HT d)
      end
  end.

(** * Each function on the bytes and on the entries *)

Lemma bytes_code (s : bytes) : chr <$> (code <$> s) = s.
Proof. rewrite <- list_fmap_compose. rewrite <- (list_fmap_id s) at 2. apply list_fmap_ext. intros ? c _. apply chr_code. Qed.

Lemma entry_cases s : zip_entry s = ZStr s ∨ ∃ v, zip_entry s = ZInt v ∧ s = d2s v ∧ LLONG_MIN ≤ v ≤ LLONG_MAX.
Proof.
  unfold zip_entry, Hash.zipTryEncoding. destruct (_ || _); [by left|].
  destruct (string2ll s) as [v|] eqn:E; [|by left]. right. exists v. apply string2ll_sound in E. tauto.
Qed.

Lemma field_ptr_ok zl es ns f : laid_out zl es ns → field_ptr zl f = Ok (pos ns <$> Hash.ziplistFind es 0 f 1 0).
Proof.
  intros Hlo. unfold field_ptr. rewrite (lo_index _ _ _ _ Hlo) by (unfold INT_MIN, INT_MAX; lia). res_step.
  unfold zip_index. change (0 <? 0) with false. cbv iota. destruct es as [|e es]; [done|].
  destruct (Z.ltb_spec 0 (Z.of_nat (length (e :: es)))); [|cbn in *; lia]. change (Z.to_nat 0) with 0%nat. cbn [fmap option_fmap option_map].
  change 1 with (Z.of_nat 1). rewrite (lo_find _ _ _ _ _ _ Hlo) by (unfold INT_MAX; cbn; lia). by rewrite drop_0.
Qed.

Lemma value_entry_ok zl es ns f : laid_out zl es ns →
  value_entry zl f = mbind (M:=res) (λ i : option nat, Ok (pos ns <$> i)) (hash_value_at es f).
Proof.
  intros Hlo. unfold value_entry, hash_value_at. rewrite (field_ptr_ok _ _ _ f Hlo). res_step.
  destruct (Hash.ziplistFind es 0 f 1 0) as [p|] eqn:Ef; [|done]. cbn [fmap option_fmap option_map].
  apply find_bound in Ef. rewrite (lo_next _ _ _ _ Hlo) by (cbn in *; lia). res_step.
  by destruct (Hash.ziplistNext es p).
Qed.

Lemma get_ziplist_ok zl kvs ns f : laid_out zl (zip_pairs kvs) ns →
  hashTypeGetFromZiplist zl f = Ok (to_val ∘ zip_entry <$> (list_to_map kvs : gmap bytes bytes) !! f).
Proof.
  intros Hlo. pose proof (Hash.hashTypeGetFromZiplist_ok kvs f) as E. unfold Hash.hashTypeGetFromZiplist in E.
  unfold hashTypeGetFromZiplist. rewrite (value_entry_ok _ _ _ f Hlo). apply bind_Ok in E as (i & -> & E). do 2 res_step.
  destruct i as [i|]; cbn [fmap option_fmap option_map].
  - apply bind_Ok in E as (e & He & Hm%Ok_inj). apply at_index_Ok in He. apply lookup_lt_Some in He as Hlt.
    rewrite (lo_get _ _ _ _ Hlo) by lia. res_step. rewrite He.
    destruct ((list_to_map kvs : gmap bytes bytes) !! f); [|done]. cbn in *. by simplify_eq.
  - apply Ok_inj in E. by destruct ((list_to_map kvs : gmap bytes bytes) !! f).
Qed.

Lemma delete_at zl es ns i : laid_out zl es ns → (i < length es)%nat →
  ∃ zl' ns', Ziplist.ziplistDelete junk zl (pos ns i) = Ok zl' ∧ laid_out zl' (delete i es) ns' ∧ pos ns' i = pos ns i ∧ cap (delete i es) ≤ cap es.
Proof.
  intros Hlo Hi. destruct (lo_delete junk zl es ns i 1 Hlo Hi ltac:(lia)) as (zl' & ns' & E & Hlo' & Hp).
  pose proof (cap_delete es i 1) as Hc. rewrite Nat.add_1_r, <- delete_take_drop in *. exists zl', ns'. by split_and!.
Qed.
Lemma insert_end es s : Hash.ziplistInsert es (length es) s = es ++ [zip_entry s].
Proof. unfold Hash.ziplistInsert. by rewrite firstn_all, drop_all. Qed.

Lemma room_pos e : 16 ≤ room e.
Proof. destruct e; unfold room; lia. Qed.

Lemma set_ziplist_ok zl kvs ns f v : laid_out zl (zip_pairs kvs) ns → NoDup kvs.*1 →
  cap (zip_pairs kvs) + room (zip_entry f) + room (zip_entry v) < 2 ^ 32 →
  ∃ zl' kvs' ns', set_ziplist zl f v = Ok (bool_decide (is_Some ((list_to_map kvs : gmap bytes bytes) !! f)), zl') ∧
    laid_out zl' (zip_pairs kvs') ns' ∧ NoDup kvs'.*1 ∧ list_to_map kvs' = <[f := v]> (list_to_map kvs : gmap bytes bytes) ∧
    cap (zip_pairs kvs') ≤ cap (zip_pairs kvs) + room (zip_entry f) + room (zip_entry v).
Proof.
  intros Hlo Hnd Hc. pose proof (room_pos (zip_entry f)). pose proof (room_pos (zip_entry v)).
  unfold set_ziplist. rewrite (value_entry_ok _ _ _ f Hlo). pose proof (hash_value_at_pairs kvs f) as Hp.
  destruct (hash_value_at (zip_pairs kvs) f) as [[p|]|]; [| |done]; do 2 res_step; cbn [fmap option_fmap option_map].
  - destruct Hp as (pre & u & post & -> & Hpre & ->). pose proof (zip_update pre f u post v) as Hz. set (i := S (2 * length pre)) in *.
    assert (Hi : (i < length (zip_pairs (pre ++ (f, u) :: post)))%nat) by (rewrite length_zip_pairs, length_app; cbn [length]; unfold i; lia).
    destruct (delete_at zl _ ns i Hlo Hi) as (zl1 & ns1 & -> & Hlo1 & Hp1 & Hc1). res_step. rewrite <- Hp1.
    pose proof (cap_insert (delete i (zip_pairs (pre ++ (f, u) :: post))) i v) as Hci. unfold Hash.ziplistDelete in Hz.
    destruct (lo_insert junk zl1 _ ns1 i v Hlo1) as (zl2 & ns2 & -> & Hlo2 & _); [rewrite length_delete by (by apply lookup_lt_is_Some_2); lia|lia|].
    res_step. rewrite Hz in Hlo2, Hci. exists zl2, (pre ++ (f, v) :: post), ns2.
    rewrite fmap_app in *. cbn [fmap list_fmap fst] in *.
    split_and!; [by rewrite list_to_map_mid|done|done|by apply list_to_map_update|lia].
  - destruct (lo_push junk zl _ ns f ZIPLIST_TAIL Hlo) as (zl1 & ns1 & -> & Hlo1); [rewrite cap_insert; lia|]. res_step.
    destruct (lo_push junk zl1 _ ns1 v ZIPLIST_TAIL Hlo1) as (zl2 & ns2 & -> & Hlo2); [rewrite !cap_insert; lia|]. res_step.
    pose proof (cap_insert (zip_pairs kvs) (length (zip_pairs kvs)) f) as Hc1. cbn [push_at] in *. rewrite insert_end in *.
    pose proof (cap_insert (zip_pairs kvs ++ [zip_entry f]) (length (zip_pairs kvs ++ [zip_entry f])) v) as Hc2. rewrite insert_end in *.
    exists zl2, (kvs ++ [(f, v)]), ns2. rewrite zip_pairs_app. cbn [zip_pairs]. rewrite <- app_assoc in *. cbn [app] in *.
    split_and!; [by rewrite not_elem_of_list_to_map_1|done| |by apply list_to_map_snoc|lia].
    rewrite fmap_app. apply NoDup_app. split_and!; [done|set_solver|apply NoDup_singleton].
Qed.

Lemma delete_pair pre f u post : delete (2 * length pre)%nat (delete (2 * length pre)%nat (zip_pairs (pre ++ (f, u) :: post))) = zip_pairs (pre ++ post).
Proof.
  rewrite !zip_pairs_app. cbn [zip_pairs]. rewrite <- length_zip_pairs.
  by rewrite !list.delete_middle.
Qed.


(** ** The conversion *)

(** The cursor after [n] pairs. *)
Definition cursor (ns : list node) (n : nat) : option (Z * Z) :=
  match n with O => None | S n => Some (pos ns (2 * n), pos ns (S (2 * n))) end.

Lemma hashTypeNext_ok zl kvs ns n : laid_out zl (zip_pairs kvs) ns → (n ≤ length kvs)%nat →
  hashTypeNext zl (cursor ns n) = Ok (if (n <? length kvs)%nat then cursor ns (S n) else None).
Proof.
  intros Hlo Hn. pose proof (length_zip_pairs kvs) as Hl. unfold hashTypeNext.
  assert (E : match cursor ns n with None => ziplistIndex zl 0 | Some (_, vptr) => Ziplist.ziplistNext zl vptr end =
    Ok (if (n <? length kvs)%nat then Some (pos ns (2 * n)) else None)).
  { destruct n as [|n]; cbn [cursor].
    - rewrite (lo_index _ _ _ _ Hlo) by (unfold INT_MIN, INT_MAX; lia). unfold zip_index. change (0 <? 0) with false. cbv iota.
      destruct (Z.ltb_spec 0 (Z.of_nat (length (zip_pairs kvs)))), (Nat.ltb_spec 0 (length kvs)); try lia; done.
    - rewrite (lo_next _ _ _ _ Hlo) by lia. unfold Hash.ziplistNext.
      destruct (Nat.ltb_spec (S (S (2 * n))) (length (zip_pairs kvs))), (Nat.ltb_spec (S n) (length kvs)); try lia; [|done].
      cbn [fmap option_fmap option_map]. do 3 f_equal. lia. }
  rewrite E. res_step. destruct (Nat.ltb_spec n (length kvs)); [|done].
  rewrite (lo_next _ _ _ _ Hlo) by lia. unfold Hash.ziplistNext.
  destruct (Nat.ltb_spec (S (2 * n)) (length (zip_pairs kvs))); [done|lia].
Qed.

Lemma current_ok zl es ns i s : laid_out zl es ns → es !! i = Some (zip_entry s) →
  hashTypeCurrentObjectNewSds zl (pos ns i) = Ok s.
Proof.
  intros Hlo Hi. unfold hashTypeCurrentObjectNewSds. apply lookup_lt_Some in Hi as Hlt. rewrite (lo_get _ _ _ _ Hlo) by lia. res_step.
  rewrite Hi. cbn. f_equal. destruct (entry_cases s) as [->|(v & -> & -> & Hv)]; cbn; [apply bytes_code|].
  unfold sdsfromlonglong. by apply sdsll2str_d2s.
Qed.

Lemma hashobj_convert_ok can zl kvs ns : laid_out zl (zip_pairs kvs) ns → NoDup kvs.*1 → Z.of_nat (length kvs) ≤ MAX_ELEMS →
  ∀ fuel pre post d, kvs = pre ++ post → (length post < fuel)%nat → dict_rep hash d (list_to_map pre) →
  ∃ d', convert_loop fuel can zl (cursor ns (length pre)) d = Ok d' ∧ dict_rep hash d' (list_to_map kvs).
Proof.
  intros Hlo Hnd Hlen. induction fuel as [|fuel IH]; intros pre post d Hk Hf Hd; [lia|]. cbn [convert_loop].
  rewrite (hashTypeNext_ok _ kvs) by (try done; rewrite Hk, length_app; lia). res_step.
  destruct post as [|[k v] post].
  { rewrite app_nil_r in Hk. subst pre. rewrite Nat.ltb_irrefl. by exists d. }
  destruct (Nat.ltb_spec (length pre) (length kvs)) as [Hl|Hl]; [|rewrite Hk, length_app in Hl; cbn in Hl; lia]. cbn [cursor].
  assert (Hz : drop (2 * length pre) (zip_pairs kvs) = zip_entry k :: zip_entry v :: zip_pairs post).
  { rewrite Hk, zip_pairs_app, <- length_zip_pairs, drop_app_length. done. }
  assert (Hk0 : zip_pairs kvs !! (2 * length pre)%nat = Some (zip_entry k)) by (rewrite <- (Nat.add_0_r (2 * length pre)), <- lookup_drop, Hz; done).
  assert (Hv0 : zip_pairs kvs !! S (2 * length pre) = Some (zip_entry v)) by (rewrite <- (Nat.add_1_r (2 * length pre)), <- lookup_drop, Hz; done).
  rewrite (current_ok _ _ _ _ _ Hlo Hk0). res_step. rewrite (current_ok _ _ _ _ _ Hlo Hv0). res_step.
  assert (Hfresh : (list_to_map pre : gmap bytes bytes) !! k = None).
  { apply not_elem_of_list_to_map_1. rewrite Hk, fmap_app in Hnd. apply NoDup_app in Hnd as (_ & Hdisj & _). intros Hin. apply (Hdisj _ Hin). set_solver. }
  assert (Hsz : Z.of_nat (stdpp.base.size (list_to_map pre : gmap bytes bytes)) < MAX_ELEMS).
  { rewrite map_size_list_to_map; [lia|]. rewrite Hk, fmap_app in Hnd. by apply NoDup_app in Hnd as [? _]. }
  destruct (dictAdd_rep hash can d _ k v Hd Hsz) as (d1 & -> & Hd1 & _). rewrite decide_True in Hd1 by exact Hfresh. rewrite decide_True by exact Hfresh. res_step.
  rewrite <- list_to_map_snoc in Hd1 by (by apply not_elem_of_list_to_map).
  destruct (IH (pre ++ [(k, v)]) post d1) as (d2 & E & Hd2); [by rewrite <- app_assoc|cbn in Hf; lia|done|].
  exists d2. split; [|done]. rewrite length_app, Nat.add_1_r in E. exact E.
Qed.

Lemma convert_ok can zl kvs ns : laid_out zl (zip_pairs kvs) ns → NoDup kvs.*1 →
  ∃ d, hashTypeConvert can (OBJ_ENCODING_ZIPLIST zl) = Ok (OBJ_ENCODING_HT d) ∧ dict_rep hash d (list_to_map kvs).
Proof.
  intros Hlo Hnd. cbn [hashTypeConvert]. unfold hashTypeConvertZiplist.
  destruct (lo_size _ _ _ Hlo) as (_ & Hl & Hl16). rewrite length_zip_pairs in Hl.
  pose proof (fuel_enough _ _ _ Hlo) as Hfu. rewrite length_zip_pairs in Hfu.
  destruct (hashobj_convert_ok can zl kvs ns Hlo Hnd) with (fuel := length zl) (pre := @nil (bytes * bytes)) (post := kvs) (d := Dict.dictCreate (K := bytes) (V := bytes)) as (d & E & Hd).
  - unfold MAX_ELEMS, zlen in *. lia.
  - done.
  - lia.
  - apply dict_rep_create.
  - cbn [length cursor] in E. rewrite E. res_step. by exists d.
Qed.

(** * Representation *)

(** The object stands for [m] and has used at most [B] bytes of the size of a ziplist. *)
Definition obj_rep (B : Z) (o : hobj) (m : gmap bytes bytes) : Prop :=
  B < 2 ^ 32 ∧
  match o with
  | OBJ_ENCODING_ZIPLIST zl => ∃ kvs ns, laid_out zl (zip_pairs kvs) ns ∧ NoDup kvs.*1 ∧ m = list_to_map kvs ∧ cap (zip_pairs kvs) ≤ B
  | OBJ_ENCODING_HT d => dict_rep hash d m ∧ 64 + 32 * Z.of_nat (stdpp.base.size m) ≤ B
  end.

Lemma obj_rep_more B B' o m : obj_rep B o m → B ≤ B' < 2 ^ 32 → obj_rep B' o m.
Proof.
  intros [Hb Ho] HB. split; [lia|]. destruct o; [|destruct Ho; split; [done|lia]].
  destruct Ho as (kvs & ns & ? & ? & ? & ?). exists kvs, ns. split_and!; [done|done|done|lia].
Qed.

Lemma cap_pairs kvs : 64 + 32 * Z.of_nat (length kvs) ≤ cap (zip_pairs kvs).
Proof.
  pose proof (rooms_nonneg (zip_pairs kvs)) as H. unfold cap, zlen in *. rewrite length_zip_pairs in H. lia.
Qed.

Lemma elems_room (B : Z) (m : gmap bytes bytes) : 64 + 32 * Z.of_nat (stdpp.base.size m) ≤ B → B < 2 ^ 32 → Z.of_nat (stdpp.base.size m) < MAX_ELEMS.
Proof. unfold MAX_ELEMS. lia. Qed.

Lemma size_insert_le (m : gmap bytes bytes) k v : Z.of_nat (stdpp.base.size (<[k := v]> m)) ≤ Z.of_nat (stdpp.base.size m) + 1.
Proof. rewrite map_size_insert. destruct (m !! k); cbn; lia. Qed.

Lemma convert_rep can B o m : obj_rep B o m → (∃ zl, o = OBJ_ENCODING_ZIPLIST zl) →
  ∃ o', hashTypeConvert can o = Ok o' ∧ obj_rep B o' m.
Proof.
  intros [Hb Ho] [zl ->]. destruct Ho as (kvs & ns & Hlo & Hnd & -> & Hc).
  destruct (convert_ok can zl kvs ns Hlo Hnd) as (d & -> & Hd). eexists. split; [done|]. split; [done|]. split; [done|].
  pose proof (cap_pairs kvs). rewrite map_size_list_to_map by done. lia.
Qed.

Lemma length_rep B o m : obj_rep B o m → ∃ o', hashTypeLength o = Ok (Z.of_nat (stdpp.base.size m), o') ∧ obj_rep B o' m.
Proof.
  intros [Hb Ho]. destruct o as [zl|d]; cbn [hashTypeLength].
  - destruct Ho as (kvs & ns & Hlo & Hnd & -> & Hc). destruct (lo_len _ _ _ Hlo) as (zl' & -> & Hlo'). res_step.
    exists (OBJ_ENCODING_ZIPLIST zl'). split; [|split; [done|]; by exists kvs, ns]. do 2 f_equal. unfold zlen.
    rewrite map_size_list_to_map, length_zip_pairs by done. rewrite Nat2Z.inj_mul, Z.mul_comm. apply Z.div_mul. lia.
  - destruct Ho as [Hd Hs]. exists (OBJ_ENCODING_HT d). by rewrite (dictSize_rep hash d m Hd).
Qed.

Lemma set_and_check_rep can n B zl m f v : obj_rep B (OBJ_ENCODING_ZIPLIST zl) m →
  let B' := B + room (zip_entry f) + room (zip_entry v) in B' < 2 ^ 32 →
  ∃ o', set_and_check can n zl f v = Ok (bool_decide (is_Some (m !! f)), o') ∧ obj_rep B' o' (<[f := v]> m).
Proof.
  intros [Hb (kvs & ns & Hlo & Hnd & -> & Hc)] B' HB'. unfold set_and_check.
  destruct (set_ziplist_ok zl kvs ns f v Hlo Hnd) as (zl' & kvs' & ns' & -> & Hlo' & Hnd' & Hm & Hc'); [lia|]. res_step.
  assert (Hrep : obj_rep B' (OBJ_ENCODING_ZIPLIST zl') (<[f := v]> (list_to_map kvs))).
  { split; [done|]. exists kvs', ns'. split_and!; [done|done|by rewrite Hm|lia]. }
  destruct (length_rep _ _ _ Hrep) as (o1 & E1 & Hrep1). rewrite E1. res_step.
  destruct (_ >? n); [|by eexists]. destruct (convert_rep can _ _ _ Hrep1) as (o2 & -> & Hrep2); [|by eexists].
  cbn [hashTypeLength] in E1. apply bind_Ok in E1 as ([? ?] & _ & [= _ <-]). eauto.
Qed.

Lemma insert_rep B d d' m f v : obj_rep B (OBJ_ENCODING_HT d) m → dict_rep hash d' (<[f := v]> m) →
  let B' := B + room (zip_entry f) + room (zip_entry v) in B' < 2 ^ 32 → obj_rep B' (OBJ_ENCODING_HT d') (<[f := v]> m).
Proof.
  intros [Hb [Hd Hs]] Hd' B' HB'. split; [done|]. split; [done|].
  pose proof (size_insert_le m f v). pose proof (room_pos (zip_entry f)). pose proof (room_pos (zip_entry v)). lia.
Qed.

Lemma set_rep can n B o m f v : obj_rep B o m → let B' := B + room (zip_entry f) + room (zip_entry v) in B' < 2 ^ 32 →
  ∃ o', hashTypeSet can n o f v = Ok (bool_decide (is_Some (m !! f)), o') ∧ obj_rep B' o' (<[f := v]> m).
Proof.
  intros Hrep B' HB'. destruct o as [zl|d]; cbn [hashTypeSet]; [by apply set_and_check_rep|].
  pose proof Hrep as [Hb [Hd Hs]]. destruct (dictFind_rep hash d m f Hd) as (d1 & -> & Hd1 & _). res_step.
  destruct (m !! f) as [u|] eqn:Em; cbn [fmap option_fmap option_map].
  - pose proof Hd1 as (Hok & Hp & _). destruct (find_tables_rep hash d1 m f Hok Hp) as (r & -> & Hr).
    { apply (nonempty_table hash); [done|]. intros E. rewrite E in Hp. symmetry in Hp. apply Permutation_nil_r in Hp.
      apply elem_of_map_to_list in Em. rewrite Hp in Em. by apply elem_of_nil in Em. }
    rewrite Em in Hr. destruct Hr as (t & i & c & -> & Hpl & Hf). res_step. cbn [deref fst snd]. res_step. cbn [fst snd].
    destruct (dictSetVal_rep hash d1 m t i c f u v Hd1 Em Hpl Hf) as (d2 & -> & Hd2 & _). res_step.
    eexists. split; [done|]. by eapply insert_rep.
  - pose proof (elems_room B m Hs Hb) as Hlt. destruct (dictAdd_rep hash can d1 m f v Hd1 Hlt) as (d2 & -> & Hd2 & _).
    rewrite decide_True in Hd2 by done. res_step. eexists. split; [done|]. by eapply insert_rep.
Qed.

Lemma set_noflags_rep can n B o m f v : obj_rep B o m → str_wf f → str_wf v →
  let B' := B + room (zip_entry (str_text f)) + room (zip_entry (str_text v)) in B' < 2 ^ 32 →
  ∃ o', hashTypeSetWithNoFlags can n o f v = Ok (bool_decide (is_Some (m !! str_text f)), o') ∧
    obj_rep B' o' (<[str_text f := str_text v]> m).
Proof.
  intros Hrep Hf Hv B' HB'. unfold hashTypeSetWithNoFlags. rewrite !getDecodedObject_ok by done. do 2 res_step. cbn [sds_ptr]. do 2 res_step.
  destruct o as [zl|d]; [by apply set_and_check_rep|]. pose proof Hrep as [Hb [Hd Hs]]. pose proof (elems_room B m Hs Hb) as Hlt.
  destruct (dictReplace_rep hash can d m (str_text f) (str_text v) Hd Hlt) as (d1 & -> & Hd1 & _). res_step.
  eexists. split; [|by eapply insert_rep]. do 2 f_equal. by destruct (m !! str_text f).
Qed.

(** ** Lookups *)

Lemma get_rep B o m f : obj_rep B o m → ∃ v o', hashTypeGetValue o f = Ok (v, o') ∧ obj_rep B o' m ∧
  match m !! f with None => v = None | Some s => v = Some (ZVStr (code <$> s)) ∨ v = Some (to_val (zip_entry s)) end.
Proof.
  intros [Hb Ho]. destruct o as [zl|d]; cbn [hashTypeGetValue].
  - destruct Ho as (kvs & ns & Hlo & Hnd & -> & Hc). rewrite (get_ziplist_ok _ _ _ f Hlo). res_step. eexists _, _. split; [done|].
    split; [split; [done|]; by exists kvs, ns|]. destruct (list_to_map kvs !! f); [by right|done].
  - destruct Ho as [Hd Hs]. unfold hashTypeGetFromHashTable. destruct (dictFind_rep hash d m f Hd) as (d1 & -> & Hd1 & _). do 2 res_step.
    eexists _, _. split; [done|]. split; [done|]. destruct (m !! f); [by left|done].
Qed.

Lemma value_object_rep B o m f : obj_rep B o m →
  ∃ v o', hashTypeGetValueObject o f = Ok (v, o') ∧ obj_rep B o' m ∧ denotes v (m !! f).
Proof.
  intros Hrep. unfold hashTypeGetValueObject. destruct (get_rep B o m f Hrep) as (v & o' & -> & Ho' & Hv). res_step.
  eexists _, _. split; [done|]. split; [done|]. destruct (m !! f) as [s|]; [|by subst v].
  assert (Hs : denotes (Some (createStringObject (chr <$> (code <$> s)))) (Some s)) by (split; [apply bytes_code|done]).
  destruct Hv as [->| ->]; [done|]. pose proof (zip_entry_object s) as Hz. by destruct (zip_entry s); cbn in *; [rewrite bytes_code|].
Qed.

Lemma value_length_rep B o m f : obj_rep B o m →
  ∃ o', hashTypeGetValueLength o f = Ok (match m !! f with None => 0 | Some s => Z.of_nat (length s) end, o') ∧ obj_rep B o' m.
Proof.
  intros [Hb Ho]. destruct o as [zl|d]; cbn [hashTypeGetValueLength].
  - destruct Ho as (kvs & ns & Hlo & Hnd & -> & Hc). rewrite (get_ziplist_ok _ _ _ f Hlo). res_step. exists (OBJ_ENCODING_ZIPLIST zl).
    split; [|split; [done|]; by exists kvs, ns]. do 2 f_equal. destruct (list_to_map kvs !! f) as [s|]; [|done]. cbn.
    destruct (entry_cases s) as [->|(v & -> & -> & Hv)]; cbn; [unfold zlen; by rewrite length_fmap|by apply sdigits10_d2s].
  - destruct Ho as [Hd Hs]. unfold hashTypeGetFromHashTable. destruct (dictFind_rep hash d m f Hd) as (d1 & -> & Hd1 & _). do 2 res_step.
    exists (OBJ_ENCODING_HT d1). split; [|done]. by destruct (m !! f).
Qed.

Lemma exists_rep B o m f : obj_rep B o m → ∃ o', hashTypeExists o f = Ok (bool_decide (is_Some (m !! f)), o') ∧ obj_rep B o' m.
Proof.
  intros [Hb Ho]. destruct o as [zl|d]; cbn [hashTypeExists].
  - destruct Ho as (kvs & ns & Hlo & Hnd & -> & Hc). rewrite (get_ziplist_ok _ _ _ f Hlo). res_step. exists (OBJ_ENCODING_ZIPLIST zl).
    split; [|split; [done|]; by exists kvs, ns]. do 2 f_equal. by destruct (list_to_map kvs !! f).
  - destruct Ho as [Hd Hs]. unfold hashTypeGetFromHashTable. destruct (dictFind_rep hash d m f Hd) as (d1 & -> & Hd1 & _). do 2 res_step.
    exists (OBJ_ENCODING_HT d1). split; [|done]. by destruct (m !! f).
Qed.

(** ** Deletion *)

Lemma list_to_map_delete_mid (pre post : list (bytes * bytes)) f u : f ∉ pre.*1 → f ∉ post.*1 →
  (list_to_map (pre ++ post) : gmap bytes bytes) = delete f (list_to_map (pre ++ (f, u) :: post)).
Proof.
  intros Hpre Hpost. induction pre as [|[k v] pre IH]; cbn [app].
  - rewrite list_to_map_cons, delete_insert_eq. symmetry. by apply delete_id, not_elem_of_list_to_map_1.
  - cbn in Hpre. apply not_elem_of_cons in Hpre as [Hk Hpre]. rewrite !list_to_map_cons, delete_insert_ne by done. by rewrite IH.
Qed.

Lemma delete_ziplist_rep can B zl m f : obj_rep B (OBJ_ENCODING_ZIPLIST zl) m →
  ∃ o', hashTypeDelete can (OBJ_ENCODING_ZIPLIST zl) f = Ok (bool_decide (is_Some (m !! f)), o') ∧ obj_rep B o' (delete f m).
Proof.
  intros Hrep. pose proof Hrep as [Hb (kvs & ns & Hlo & Hnd & -> & Hc)]. cbn [hashTypeDelete].
  rewrite (field_ptr_ok _ _ _ f Hlo). res_step. pose proof (ziplistFind_pairs kvs f 0) as Hp.
  destruct (Hash.ziplistFind (zip_pairs kvs) 0 f 1 0) as [p|]; cbn [fmap option_fmap option_map].
  - destruct Hp as (pre & u & post & -> & Hpre & ->). cbn [Nat.add]. pose proof (delete_pair pre f u post) as Hz.
    assert (Hlen : length (zip_pairs (pre ++ (f, u) :: post)) = (2 * length pre + 2 + 2 * length post)%nat)
      by (rewrite length_zip_pairs, length_app; cbn [length]; lia).
    set (i := (2 * length pre)%nat) in *.
    destruct (delete_at zl _ ns i Hlo ltac:(lia)) as (zl1 & ns1 & -> & Hlo1 & Hp1 & Hc1). res_step. rewrite <- Hp1.
    destruct (delete_at zl1 _ ns1 i Hlo1) as (zl2 & ns2 & -> & Hlo2 & Hp2 & Hc2); [rewrite length_delete by (apply lookup_lt_is_Some_2; lia); lia|].
    res_step. rewrite Hz in Hlo2, Hc2. rewrite list_to_map_mid by done. eexists. split; [done|]. split; [done|]. exists (pre ++ post), ns2.
    rewrite fmap_app in *. cbn [fmap list_fmap fst] in Hnd. apply NoDup_app in Hnd as (Hn1 & Hn2 & Hn3%NoDup_cons).
    split_and!; [done| |symmetry; apply list_to_map_delete_mid; tauto|lia]. apply NoDup_app. split_and!; [done| |tauto].
    intros x Hx ?. apply (Hn2 x Hx). set_solver.
  - rewrite (not_elem_of_list_to_map_1 _ _ Hp). eexists. split; [done|].
    by rewrite (delete_id (list_to_map kvs) f (not_elem_of_list_to_map_1 _ _ Hp)).
Qed.

Lemma delete_rep can B o m f : obj_rep B o m →
  ∃ o', hashTypeDelete can o f = Ok (bool_decide (is_Some (m !! f)), o') ∧ obj_rep B o' (delete f m).
Proof.
  intros Hrep. destruct o as [zl|d]; [by apply delete_ziplist_rep|]. destruct Hrep as [Hb [Hd Hs]]. cbn [hashTypeDelete].
  unfold dictDelete. destruct (dictGenericDelete_rep hash d m f Hd) as (d1 & -> & Hd1 & _). do 2 res_step.
  assert (Hs1 : 64 + 32 * Z.of_nat (stdpp.base.size (delete f m)) ≤ B) by (rewrite map_size_delete; destruct (m !! f); cbn; lia).
  destruct (m !! f); cbn [fmap option_fmap option_map]; [|by exists (OBJ_ENCODING_HT d1)].
  assert (∃ b, htNeedsResize d1 = Ok b) as [b ->] by (unfold htNeedsResize; case_match; eauto). res_step.
  destruct b; [|res_step; by exists (OBJ_ENCODING_HT d1)].
  destruct (dictResize_rep hash can d1 _ Hd1) as (st & d2 & -> & Hd2). res_step. by exists (OBJ_ENCODING_HT d2).
Qed.

Lemma try_rep can mv B m argv : ∀ o, obj_rep B o m → ∃ o', hashTypeTryConversion can mv o argv = Ok o' ∧ obj_rep B o' m.
Proof.
  induction argv as [|a argv IH]; intros [zl|d] Hrep; cbn [hashTypeTryConversion]; eauto.
  destruct (match a with SRaw s => _ | SInt _ => _ end); [|by apply IH]. apply convert_rep; eauto.
Qed.

(** * Programs *)

Inductive uop :=
| USet (f v : bytes) | USetObject (f v : strobj) | UGet (f : bytes) | UStrlen (f : bytes) | UExists (f : bytes)
| UDelete (f : bytes) | ULen
| UTryConversion (argv : list strobj)
| UCanResize (b : bool).   (* dictEnableResize, dictDisableResize *)
Inductive uout := UFlag (b : bool) | UValue (v : option bytes) | UNumber (n : Z) | UDone.

Definition ustep (n mv : Z) (can : bool) (o : hobj) (op : uop) : res (uout * bool * hobj) :=
  match op with
  | USet f v => '(b, o) ← hashTypeSet can n o f v; Ok (UFlag b, can, o)
  | USetObject f v => '(b, o) ← hashTypeSetWithNoFlags can n o f v; Ok (UFlag b, can, o)
  | UGet f => '(v, o) ← hashTypeGetValueObject o f; Ok (UValue (option_map str_text v), can, o)
  | UStrlen f => '(l, o) ← hashTypeGetValueLength o f; Ok (UNumber l, can, o)
  | UExists f => '(b, o) ← hashTypeExists o f; Ok (UFlag b, can, o)
  | UDelete f => '(b, o) ← hashTypeDelete can o f; Ok (UFlag b, can, o)
  | ULen => '(l, o) ← hashTypeLength o; Ok (UNumber l, can, o)
  | UTryConversion argv => o ← hashTypeTryConversion can mv o argv; Ok (UDone, can, o)
  | UCanResize b => Ok (UDone, b, o)
  end.

(** The same operation on a finite map. *)
Definition umap (m : gmap bytes bytes) (op : uop) : uout * gmap bytes bytes :=
  match op with
  | USet f v => (UFlag (bool_decide (is_Some (m !! f))), <[f := v]> m)
  | USetObject f v => (UFlag (bool_decide (is_Some (m !! str_text f))), <[str_text f := str_text v]> m)
  | UGet f => (UValue (m !! f), m)
  | UStrlen f => (UNumber (match m !! f with None => 0 | Some s => Z.of_nat (length s) end), m)
  | UExists f => (UFlag (bool_decide (is_Some (m !! f))), m)
  | UDelete f => (UFlag (bool_decide (is_Some (m !! f))), delete f m)
  | ULen => (UNumber (Z.of_nat (stdpp.base.size m)), m)
  | UTryConversion _ | UCanResize _ => (UDone, m)
  end.

Fixpoint urun (n mv : Z) (can : bool) (o : hobj) (ops : list uop) : res (list uout * hobj) :=
  match ops with
  | [] => Ok ([], o)
  | op :: ops => '(x, can, o) ← ustep n mv can o op; '(xs, o) ← urun n mv can o ops; Ok (x :: xs, o)
  end.
Fixpoint umap_run (m : gmap bytes bytes) (ops : list uop) : list uout * gmap bytes bytes :=
  match ops with
  | [] => ([], m)
  | op :: ops => let '(x, m) := umap m op in let '(xs, m) := umap_run m ops in (x :: xs, m)
  end.

Definition uop_wf (op : uop) : Prop := match op with USetObject f v => str_wf f ∧ str_wf v | _ => True end.
(** The bytes a ziplist may grow by. *)
Definition ugrowth (op : uop) : Z :=
  match op with
  | USet f v => room (zip_entry f) + room (zip_entry v)
  | USetObject f v => room (zip_entry (str_text f)) + room (zip_entry (str_text v))
  | _ => 0
  end.
Definition ugrowths (ops : list uop) : Z := foldr (λ op, Z.add (ugrowth op)) 0 ops.

Lemma ugrowth_nonneg op : 0 ≤ ugrowth op.
Proof. destruct op; cbn; try lia; rewrite ?room_pos; match goal with |- 0 ≤ room ?a + room ?b => pose proof (room_pos a); pose proof (room_pos b); lia end. Qed.
Lemma ugrowths_nonneg ops : 0 ≤ ugrowths ops.
Proof. induction ops as [|op ops IH]; cbn; [lia|]. pose proof (ugrowth_nonneg op). unfold ugrowths in *. lia. Qed.

Lemma ustep_ok n mv can B o m op : obj_rep B o m → uop_wf op → B + ugrowth op < 2 ^ 32 →
  ∃ can' o', ustep n mv can o op = Ok ((umap m op).1, can', o') ∧ obj_rep (B + ugrowth op) o' (umap m op).2.
Proof.
  intros Hrep Hwf HB. assert (Hr0 : ∀ o' m', obj_rep B o' m' → obj_rep (B + 0) o' m') by (intros; by rewrite Z.add_0_r).
  destruct op; cbn [ustep umap ugrowth fst snd uop_wf] in *; rewrite ?Z.add_assoc in *.
  - destruct (set_rep can n B o m f v Hrep HB) as (o' & -> & Ho'). res_step. eauto.
  - destruct Hwf as [Hf Hv]. destruct (set_noflags_rep can n B o m f v Hrep Hf Hv HB) as (o' & -> & Ho'). res_step. eauto.
  - destruct (value_object_rep B o m f Hrep) as (v & o' & -> & Ho' & Hv). res_step. exists can, o'. split; [|auto].
    do 4 f_equal. destruct v, (m !! f); cbn in *; try done. by destruct Hv as [-> _].
  - destruct (value_length_rep B o m f Hrep) as (o' & -> & Ho'). res_step. eauto.
  - destruct (exists_rep B o m f Hrep) as (o' & -> & Ho'). res_step. eauto.
  - destruct (delete_rep can B o m f Hrep) as (o' & -> & Ho'). res_step. eauto.
  - destruct (length_rep B o m Hrep) as (o' & -> & Ho'). res_step. eauto.
  - destruct (try_rep can mv B m argv o Hrep) as (o' & -> & Ho'). res_step. eauto.
  - eauto.
Qed.

Lemma urun_ok n mv ops : ∀ can B o m, obj_rep B o m → Forall uop_wf ops → B + ugrowths ops < 2 ^ 32 →
  ∃ o', urun n mv can o ops = Ok ((umap_run m ops).1, o') ∧ obj_rep (B + ugrowths ops) o' (umap_run m ops).2.
Proof.
  induction ops as [|op ops IH]; intros can B o m Hrep Hwf HB; cbn [urun umap_run ugrowths foldr].
  { exists o. by rewrite Z.add_0_r. }
  apply Forall_cons in Hwf as [Hop Hwf]. unfold ugrowths in *. cbn [foldr] in HB. pose proof (ugrowths_nonneg ops) as Hn. unfold ugrowths in Hn.
  destruct (ustep_ok n mv can B o m op Hrep Hop ltac:(lia)) as (can' & o1 & -> & H1). res_step.
  destruct (umap m op) as [x m1]. cbn [fst snd] in *.
  destruct (IH can' _ o1 m1 H1 Hwf ltac:(lia)) as (o2 & -> & H2). res_step. rewrite <- Z.add_assoc in H2. exists o2.
  by destruct (umap_run m1 ops).
Qed.

(** C3: A hash object, from its creation on: the functions of t_hash.c, run in any order on
    the bytes of the ziplist and on the dictionary it is converted to, return what a finite
    map from field to value returns, whatever the hash function, the bytes of fresh memory,
    the two limits of a ziplist and the times the resizing of dictionaries is switched on
    and off, as long as the fields and values set come to less than 4 GB. *)
Theorem hash_object_refines_map n mv ops :
  Forall uop_wf ops → 64 + ugrowths ops < 2 ^ 32 →
  ∃ o o', createHashObject = Ok o ∧ urun n mv true o ops = Ok ((umap_run ∅ ops).1, o') ∧
    obj_rep (64 + ugrowths ops) o' (umap_run ∅ ops).2.
Proof.
  intros Hwf HB. unfold createHashObject. destruct (lo_new junk) as (zl & -> & Hlo). res_step.
  assert (Hrep : obj_rep 64 (OBJ_ENCODING_ZIPLIST zl) ∅).
  { split; [done|]. exists [], []. split_and!; [done|apply NoDup_nil_2|done|done]. }
  destruct (urun_ok n mv ops true 64 _ _ Hrep Hwf HB) as (o' & E & Ho'). eauto.
Qed.
End hash_object.

(** Three fields fit the ziplist, the fourth converts it. *)
Definition hash_ops : list uop :=
  [USet (lit "a") (lit "1"); USetObject (SInt 7) (SRaw (lit "x")); USet (lit "a") (lit "-300"); UGet (lit "a"); UStrlen (lit "a"); ULen;
   USet (lit "b") []; USet (lit "c") (lit "z"); UTryConversion [SRaw (lit "a long argument")]; UGet (lit "7"); USet (lit "7") (lit "y");
   USetObject (SInt 7) (SInt 9); UDelete (lit "b"); UDelete (lit "b"); UCanResize false; UExists (lit "c"); UGet (lit "7"); ULen].

Lemma hash_object_refines_map_witness :
  let hash := λ s : bytes, Z.of_nat (length s) in let junk := λ _ : nat, 85 in
  ∃ o o', createHashObject junk = Ok o ∧
    urun hash junk 3 10 true o hash_ops =
      Ok ([UFlag false; UFlag false; UFlag true; UValue (Some (lit "-300")); UNumber 4; UNumber 2; UFlag false; UFlag false; UDone;
           UValue (Some (lit "x")); UFlag true; UFlag true; UFlag true; UFlag false; UDone; UFlag true; UValue (Some (lit "9")); UNumber 3], o') ∧
    obj_rep hash (64 + ugrowths hash_ops) o' (umap_run ∅ hash_ops).2.
Proof.
  intros hash junk.
  replace [UFlag false; UFlag false; UFlag true; UValue (Some (lit "-300")); UNumber 4; UNumber 2; UFlag false; UFlag false; UDone;
    UValue (Some (lit "x")); UFlag true; UFlag true; UFlag true; UFlag false; UDone; UFlag true; UValue (Some (lit "9")); UNumber 3]
    with (umap_run ∅ hash_ops).1 by (vm_compute; reflexivity).
  apply (hash_object_refines_map hash junk 3 10 hash_ops); [|vm_compute; reflexivity].
  repeat constructor; unfold LLONG_MIN, LLONG_MAX; try done; lia.
Defined.
