(* ===== verification/Db.v ===== *)
(** src/src/db.c, src/src/lazyfree.c, src/src/server.h: the keyspace of a
    database as the relational layer uses it.  Dictionary entries live in a heap
    (see Queue.v), so that the dictionary, the two queues and the background jobs
    share them by address; deleting a key releases its entry.  The persistent
    store is RocksDB, an interface with the documented behaviour of its get and
    atomic write batch. *)

From S2P Require Import Prelude CString Vector Queue Keys Hash.

(** * RocksDB *)

(** What the code calls: [rocksdb_get_cf] (the value, if any, and whether it
    reported an error) and [rocksdb_write] of a batch of puts. *)
Class RocksDB (Store : Type) := {
  rocksdb_get_cf : Store → bytes → option bytes * bool;
  rocksdb_write : Store → list (bytes * bytes) → Store * bool;
}.

(** The value a batch leaves for a key: the last put wins. *)
Fixpoint batch_get (b : list (bytes * bytes)) (k : bytes) : option bytes :=
  match b with
  | [] => None
  | (k', v) :: b' =>
      match batch_get b' k with
      | Some w => Some w
      | None => if decide (k' = k) then Some v else None
      end
  end.

(** A write that reports no error has applied the whole batch and nothing else. *)
Class RocksDBLaws (Store : Type) `{RocksDB Store} := {
  rocksdb_get_write : ∀ s b s' k,
    rocksdb_write s b = (s', false) →
    rocksdb_get_cf s' k =
      match batch_get b k with Some v => (Some v, false) | None => rocksdb_get_cf s k end;
}.

(** The values a store holds. *)
Definition rocks_value `{RocksDB Store} (s : Store) (k : bytes) : option bytes := (rocksdb_get_cf s k).1.

Lemma rocks_value_write `{RocksDBLaws Store} s b s' k :
  rocksdb_write s b = (s', false) →
  rocks_value s' k = match batch_get b k with Some v => Some v | None => rocks_value s k end.
Proof.
  intros Hw. unfold rocks_value. rewrite (rocksdb_get_write _ _ _ _ Hw). by destruct (batch_get b k).
Qed.

(** A store in memory that never fails. *)
#[export] Instance gmap_rocks : RocksDB (gmap bytes bytes) := {
  rocksdb_get_cf s k := (s !! k, false);
  rocksdb_write s b := (foldl (fun s kv => <[kv.1 := kv.2]> s) s b, false);
}.

#[export] Instance gmap_rocks_laws : RocksDBLaws (gmap bytes bytes).
Proof.
  constructor. intros s b s' k [= <-]. cbn. revert s.
  induction b as [|[k' v] b IH]; intros s; cbn [foldl batch_get]; [done|]. rewrite IH.
  destruct (batch_get b k); [done|]. cbn [fst snd]. case_decide as Hk.
  - subst. by rewrite lookup_insert_eq.
  - by rewrite lookup_insert_ne.
Qed.

(** * Values and state *)

(** A row group: its column vectors by field. *)
Abbreviation relation := (gmap bytes (Vector bytes)).

(** A value of the keyspace: a relational hash ([OBJ_ENCODING_REL]), another hash
    or another type; for the last two, the effort [lazyfreeGetFreeEffort]. *)
Inductive value :=
| VRel (d : relation)
| VHash (effort : Z)
| VOther (effort : Z).

(** The settings of [server] that the layer reads. *)
Record config := mkConfig {
  rowgroup_size : Z;
  columnvector_size : Z;
  batch_tiering_size : Z;
  hash_max_ziplist_entries : Z;
  maxmemory : Z;
  no_eviction : bool;
  lazyfree_lazy_expire : bool;
  loading : bool;
  slave : bool;
}.

(** The jobs of the two background threads that matter here.  [BIO_LAZY_FREE]
    releases a value or the entries of a dictionary.  [BIO_BATCH_TIERING] persists
    the entries whose keys and values its two vectors point to; after its write
    to RocksDB such a job has still to mark the values and to look at the error of
    the write. *)
Inductive lazy_job :=
| LazyFreeObject
| LazyFreeDb (entries : list addr).

Inductive tiering_job :=
| BatchTiering (evict_keys evict_relations : Vector addr)
| BatchMark (evict_relations : Vector addr) (err : bool).

Section db.
  Context {Store : Type} `{RocksDB Store}.

Record redisDb := mkDb {
  dict : gmap bytes addr;
  expires : gmap bytes Z;
  Metadict : gmap bytes hashobj;
  EvictQueue : Queue;
  FreeQueue : Queue;
  persistent_store : Store;
}.

(** The database of the client, and what the server shares: the entries, the
    objects [shared.nullValue] and [shared.emptyString] ([None] once released),
    the [dirty] counter, the clock, the pending background jobs. *)
Record state := mkState {
  st_heap : heap value;
  st_next : addr;
  st_db : redisDb;
  st_nullValue : option bytes;
  st_emptyString : option bytes;
  st_dirty : Z;
  st_now : Z;
  st_tiering : list tiering_job;
  st_lazyfree : list lazy_job;
}.

Definition set_heap (st : state) (h : heap value) : state :=
  mkState h (st_next st) (st_db st) (st_nullValue st) (st_emptyString st) (st_dirty st) (st_now st) (st_tiering st) (st_lazyfree st).
Definition set_db (st : state) (db : redisDb) : state :=
  mkState (st_heap st) (st_next st) db (st_nullValue st) (st_emptyString st) (st_dirty st) (st_now st) (st_tiering st) (st_lazyfree st).
Definition set_dict (st : state) (d : gmap bytes addr) : state :=
  let db := st_db st in
  set_db st (mkDb d (expires db) (Metadict db) (EvictQueue db) (FreeQueue db) (persistent_store db)).
Definition set_expires (st : state) (x : gmap bytes Z) : state :=
  let db := st_db st in
  set_db st (mkDb (dict db) x (Metadict db) (EvictQueue db) (FreeQueue db) (persistent_store db)).
Definition set_meta (st : state) (m : gmap bytes hashobj) : state :=
  let db := st_db st in
  set_db st (mkDb (dict db) (expires db) m (EvictQueue db) (FreeQueue db) (persistent_store db)).
Definition set_queues (st : state) (eq fq : Queue) : state :=
  let db := st_db st in
  set_db st (mkDb (dict db) (expires db) (Metadict db) eq fq (persistent_store db)).
Definition set_store (st : state) (s : Store) : state :=
  let db := st_db st in
  set_db st (mkDb (dict db) (expires db) (Metadict db) (EvictQueue db) (FreeQueue db) s).
Definition set_next (st : state) (a : addr) : state :=
  mkState (st_heap st) a (st_db st) (st_nullValue st) (st_emptyString st) (st_dirty st) (st_now st) (st_tiering st) (st_lazyfree st).
Definition set_shared (st : state) (n e : option bytes) : state :=
  mkState (st_heap st) (st_next st) (st_db st) n e (st_dirty st) (st_now st) (st_tiering st) (st_lazyfree st).
Definition incr_dirty (st : state) : state :=
  mkState (st_heap st) (st_next st) (st_db st) (st_nullValue st) (st_emptyString st) (st_dirty st + 1) (st_now st) (st_tiering st) (st_lazyfree st).
Definition set_now (st : state) (t : Z) : state :=
  mkState (st_heap st) (st_next st) (st_db st) (st_nullValue st) (st_emptyString st) (st_dirty st) t (st_tiering st) (st_lazyfree st).
Definition set_jobs (st : state) (ts : list tiering_job) (ls : list lazy_job) : state :=
  mkState (st_heap st) (st_next st) (st_db st) (st_nullValue st) (st_emptyString st) (st_dirty st) (st_now st) ts ls.

(** [bioCreateBackgroundJob]: the job goes to the tail of the list of its type. *)
Definition create_tiering_job (st : state) (j : tiering_job) : state :=
  set_jobs st (st_tiering st ++ [j]) (st_lazyfree st).
Definition create_lazy_job (st : state) (j : lazy_job) : state :=
  set_jobs st (st_tiering st) (st_lazyfree st ++ [j]).

(** * The keyspace *)

Definition dictFind (st : state) (key : bytes) : option addr := dict (st_db st) !! key.

(** [dictAdd]: [None] for [DICT_ERR] (the key exists), else the new entry. *)
Definition dictAdd (st : state) (key : bytes) (val : robj value) : option (addr * state) :=
  match dictFind st key with
  | Some _ => None
  | None =>
      let a := st_next st in
      Some (a, set_next (set_heap (set_dict st (<[key := a]> (dict (st_db st))))
                           (<[a := mkEntry key (Some val)]> (st_heap st))) (Pos.succ a))
  end.

(** [dictDelete]: whether the key was there; its entry is released. *)
Definition dictDelete (st : state) (key : bytes) : bool * state :=
  match dictFind st key with
  | None => (false, st)
  | Some a => (true, set_heap (set_dict st (delete key (dict (st_db st)))) (delete a (st_heap st)))
  end.

Definition expires_delete (st : state) (key : bytes) : state :=
  set_expires st (delete key (expires (st_db st))).

Definition LAZYFREE_THRESHOLD : Z := 64.

(** A relational hash is a single item here: only [OBJ_ENCODING_HT] is counted. *)
Definition lazyfreeGetFreeEffort (v : value) : Z :=
  match v with VRel _ => 1 | VHash n => n | VOther n => n end.

Definition dbAsyncDelete (st : state) (key : bytes) : res (bool * state) :=
  let st := expires_delete st key in
  match dictFind st key with
  | None => Ok (false, st)
  | Some a =>
      e ← load (st_heap st) a;
      val ← deref (de_val e);
      let st := if lazyfreeGetFreeEffort (robj_ptr val) >? LAZYFREE_THRESHOLD
                then create_lazy_job st LazyFreeObject else st in
      Ok (true, (dictDelete st key).2)
  end.

Definition dbSyncDelete (st : state) (key : bytes) : bool * state :=
  dictDelete (expires_delete st key) key.

Definition getExpire (st : state) (key : bytes) : res Z :=
  match expires (st_db st) !! key with
  | None => Ok (-1)
  | Some when => _ ← assert (bool_decide (is_Some (dictFind st key))); Ok when
  end.

(** Outside scripts, where [now] is [mstime()]. *)
Definition expireIfNeeded (cfg : config) (st : state) (key : bytes) : res (bool * state) :=
  when ← getExpire st key;
  if when <? 0 then Ok (false, st)
  else if loading cfg then Ok (false, st)
  else if slave cfg then Ok (when <? st_now st, st)
  else if st_now st <=? when then Ok (false, st)
  else if lazyfree_lazy_expire cfg then dbAsyncDelete st key else Ok (dbSyncDelete st key).

(** [lookupKey] with or without [LOOKUP_ALL], which asks RocksDB for an absent
    key and returns NULL whatever it answers. *)
Definition lookupKey (st : state) (key : bytes) (lookup_all : bool) : res (option addr) :=
  match dictFind st key with
  | Some a => Ok (Some a)
  | None =>
      if lookup_all then
        if (rocksdb_get_cf (persistent_store (st_db st)) key).2 then Fault Panic else Ok None
      else Ok None
  end.

(** [lookupKeyReadWithFlags]; [readonly] tells whether the current client is not
    the master and runs a read-only command.  The keyspace statistics are left out. *)
Definition lookupKeyReadWithFlags (cfg : config) (readonly : bool) (st : state) (key : bytes)
    (lookup_all : bool) : res (option addr * state) :=
  r ← expireIfNeeded cfg st key;
  let '(expired, st) := r in
  if (expired : bool) && (negb (slave cfg) || readonly) then Ok (None, st)
  else v ← lookupKey st key lookup_all; Ok (v, st).

Definition lookupKeyRead (cfg : config) (readonly : bool) (st : state) (key : bytes)
    : res (option addr * state) := lookupKeyReadWithFlags cfg readonly st key false.
Definition lookupAllKeyRead (cfg : config) (readonly : bool) (st : state) (key : bytes)
    : res (option addr * state) := lookupKeyReadWithFlags cfg readonly st key true.

Definition lookupKeyWrite (cfg : config) (st : state) (key : bytes) : res (option addr * state) :=
  r ← expireIfNeeded cfg st key;
  v ← lookupKey r.2 key false;
  Ok (v, r.2).

Definition lookupSDSKeyFordict (st : state) (key : bytes) : option addr := dictFind st key.

Definition dbAdd (st : state) (key : bytes) (val : robj value) : res (addr * state) :=
  match dictAdd st key val with Some r => Ok r | None => Fault AssertFail end.

(** ** Metadict *)

Definition lookupKeyForMetadict (st : state) (key : bytes) : option hashobj :=
  Metadict (st_db st) !! key.
Definition lookupSDSKeyForMetadict (st : state) (key : bytes) : option hashobj :=
  Metadict (st_db st) !! key.
Definition lookupKeyWriteForMetadict (st : state) (key : bytes) : option hashobj :=
  lookupKeyForMetadict st key.

Definition dbAddForMetadict (st : state) (key : bytes) (val : hashobj) : res state :=
  match Metadict (st_db st) !! key with
  | Some _ => Fault AssertFail
  | None => Ok (set_meta st (<[key := val]> (Metadict (st_db st))))
  end.
End db.

Arguments redisDb Store : clear implicits.
Arguments state Store : clear implicits.
