(* ===== verification/Meta.v ===== *)
(** src/src/addb_relational.c (counters): the Metadict keeps one hash per table
    partition.  Field [0] is the id of the current row group, field [k] the
    number of rows of row group [k].  The theorems give the counters as a finite
    map on integers. *)

From S2P Require Import Prelude CString Util Sds Vector Queue Keys Hash Db.

Section meta.
  Context {Store : Type} `{RocksDB Store}.
  Implicit Types st : state Store.

(** The [int] of a counter's object. *)
Definition object_int (o : strobj) : Z :=
  match o with SInt z => to_int z | SRaw s => atoi s end.

Definition lookupCompInfoForRowNumberInMeta (metaHashdictObj : option hashobj) (metaField : strobj)
    : res Z :=
  match metaHashdictObj with
  | None => Ok 0
  | Some o =>
      decodedField ← getDecodedObject metaField;
      f ← sds_ptr decodedField;
      ret ← hashTypeGetValueObject o f;
      match ret with
      | None => Ok 0
      | Some ret => Ok (object_int ret)
      end
  end.

(** A hash without the field is not expected: the NULL object is dereferenced. *)
Definition lookupCompInfoForMeta (metaHashdictObj : option hashobj) (metaField : strobj) : res Z :=
  match metaHashdictObj with
  | None => Ok 0
  | Some o =>
      decodedField ← getDecodedObject metaField;
      f ← sds_ptr decodedField;
      ret ← hashTypeGetValueObject o f;
      ret ← deref ret;
      Ok (object_int ret)
  end.

Definition getRowNumberInfoAndSetRowNumberInfo st (info : NewDataKeyInfo)
    : res (Z * NewDataKeyInfo) :=
  '(metaKey, info) ← setMetaKeyForRowgroup info;
  rowNumber ← lookupCompInfoForRowNumberInMeta (lookupSDSKeyForMetadict st metaKey)
                (createStringObjectFromLongLong (rowGroupId info));
  Ok (rowNumber, set_row_number info rowNumber).

Definition getRowGroupInfoAndSetRowGroupInfo st (info : NewDataKeyInfo)
    : res (Z * NewDataKeyInfo) :=
  '(metaKey, info) ← setMetaKeyForRowgroup info;
  rowgroup ← lookupCompInfoForMeta (lookupSDSKeyForMetadict st metaKey) (SInt 0);
  Ok (rowgroup, set_rowGroupId info rowgroup).

(** Adds [cnt] to a counter, creating the hash or the field if needed; a sum
    outside [long long] stops the server.  The result is converted to [int]. *)
Definition IncDecCount (cfg : config) st (key : bytes) (field : strobj) (cnt : Z)
    : res (Z * state Store) :=
  '(o, st) ← (match lookupKeyWriteForMetadict st key with
              | None => st ← dbAddForMetadict st key createMetaHashdictFordict;
                        Ok (createMetaHashdictFordict, st)
              | Some o => Ok (o, st)
              end);
  cur_obj ← hashTypeGetValueRObject o field;
  value ← (match cur_obj with
           | None => Ok 0
           | Some _ =>
               match getLongLongFromObject cur_obj with
               | (C_OK, value) => Ok value
               | (C_ERR, _) => Fault AssertFail
               end
           end);
  _ ← assert (negb (((cnt <? 0) && (value <? 0) && (cnt <? LLONG_MIN - value))
                    || ((cnt >? 0) && (value >? 0) && (cnt >? LLONG_MAX - value))));
  let value := value + cnt in
  let new := createStringObjectFromLongLong value in
  let field := hashTypeTryObjectEncoding o 1 field in
  '(_, o) ← hashTypeSetWithNoFlags (hash_max_ziplist_entries cfg) o field new;
  Ok (to_int value, incr_dirty (set_meta st (<[key := o]> (Metadict (st_db st))))).

Definition incRowgroupId (cfg : config) st (info : NewDataKeyInfo) (inc_number : Z)
    : res (Z * state Store) :=
  rowgroupKey ← generateRgIdKeyForRowgroup info;
  IncDecCount cfg st rowgroupKey (SInt 0) inc_number.

Definition incRowNumber (cfg : config) st (info : NewDataKeyInfo) (inc_number : Z)
    : res (Z * state Store) :=
  _ ← assert (negb (rowGroupId info =? 0));
  rowgroupKey ← generateRgIdKeyForRowgroup info;
  IncDecCount cfg st rowgroupKey (createStringObjectFromLongLong (rowGroupId info)) inc_number.

Definition IncRowgroupIdAndModifyInfo (cfg : config) st (info : NewDataKeyInfo) (cnt : Z)
    : res (Z * NewDataKeyInfo * state Store) :=
  '(result, st) ← incRowgroupId cfg st info cnt;
  Ok (result, set_rowGroupId info result, st).

Definition getRowgroupInfo (cfg : config) st (info : NewDataKeyInfo)
    : res (Z * NewDataKeyInfo * state Store) :=
  '(rowgroup, info) ← getRowGroupInfoAndSetRowGroupInfo st info;
  if rowgroup =? 0 then IncRowgroupIdAndModifyInfo cfg st info 1
  else Ok (rowgroup, info, st).
End meta.

(** * Counters as a map on integers *)

(** The hash holds the counters [c], as decimal texts. *)
Definition counters (o : hashobj) (c : gmap Z Z) : Prop :=
  ∃ m, hash_rep o m ∧ ∀ k, m !! d2s k = d2s <$> (c !! k).

(** The hash of a partition; [None] when there is none yet. *)
Definition meta_rep {Store} (st : state Store) (key : bytes) (c : option (gmap Z Z)) : Prop :=
  match Metadict (st_db st) !! key, c with
  | None, None => True
  | Some o, Some c => counters o c
  | _, _ => False
  end.

Lemma long_object z : LLONG_MIN ≤ z ≤ LLONG_MAX → createStringObjectFromLongLong z = SInt z.
Proof.
  intros Hz. unfold createStringObjectFromLongLong. destruct (_ && _); [done|].
  replace ((LLONG_MIN <=? z) && (z <=? LLONG_MAX)) with true; [done|].
  symmetry. apply andb_true_iff; split; apply Z.leb_le; lia.
Qed.

Lemma int_long z : INT_MIN ≤ z ≤ INT_MAX → LLONG_MIN ≤ z ≤ LLONG_MAX.
Proof. unfold INT_MIN, INT_MAX, LLONG_MIN, LLONG_MAX. lia. Qed.

Lemma counters_empty : counters createMetaHashdictFordict ∅.
Proof. exists ∅. split; [apply create_rep|]. intros k. by rewrite !lookup_empty. Qed.

Lemma object_int_d2s o z :
  str_text o = d2s z → str_wf o → INT_MIN ≤ z ≤ INT_MAX → object_int o = z.
Proof.
  intros Ht Hw Hz. destruct o as [s|w]; cbn in *.
  - subst. by apply atoi_d2s_nil.
  - apply d2s_inj in Ht as ->. by apply to_int_id.
Qed.

(** A lookup of the value of counter [k]. *)
Lemma counter_get o c k :
  counters o c →
  ∃ r, hashTypeGetValueObject o (d2s k) = Ok r ∧ denotes r (d2s <$> (c !! k)).
Proof.
  intros (m & Hm & Hc). destruct (hashTypeGetValueObject_ok o m (d2s k) Hm) as (r & E & Hd).
  rewrite Hc in Hd. eauto.
Qed.

Lemma lookupRowNumber_ok {Store} (st : state Store) key c k :
  meta_rep st key c → INT_MIN ≤ k ≤ INT_MAX →
  (∀ c' v, c = Some c' → c' !! k = Some v → INT_MIN ≤ v ≤ INT_MAX) →
  lookupCompInfoForRowNumberInMeta (lookupSDSKeyForMetadict st key) (SInt k) =
    Ok (default 0 (c ≫= (.!! k))).
Proof.
  intros Hm Hk Hv. unfold lookupCompInfoForRowNumberInMeta, lookupSDSKeyForMetadict, meta_rep in *.
  destruct (Metadict (st_db st) !! key) as [o|], c as [c|]; try done.
  rewrite getDecodedObject_ok by (by apply int_long). res_step. cbn [sds_ptr]. res_step.
  destruct (counter_get o c k Hm) as (r & E & Hd). cbn [str_text]. rewrite E. res_step.
  cbn. destruct (c !! k) as [v|] eqn:Ek, r as [r|]; cbn in Hd; try done.
  destruct Hd as [Ht Hw]. f_equal. apply object_int_d2s; [done..|]. by eapply Hv.
Qed.

Lemma lookupRowGroup_ok {Store} (st : state Store) key c :
  meta_rep st key c →
  (∀ c', c = Some c' → ∃ v, c' !! 0 = Some v ∧ INT_MIN ≤ v ≤ INT_MAX) →
  lookupCompInfoForMeta (lookupSDSKeyForMetadict st key) (SInt 0) =
    Ok (default 0 (c ≫= (.!! 0))).
Proof.
  intros Hm Hv. unfold lookupCompInfoForMeta, lookupSDSKeyForMetadict, meta_rep in *.
  destruct (Metadict (st_db st) !! key) as [o|], c as [c|]; try done.
  rewrite getDecodedObject_ok by done. res_step. cbn [sds_ptr]. res_step.
  destruct (counter_get o c 0 Hm) as (r & E & Hd). cbn [str_text]. rewrite E. res_step.
  destruct (Hv c eq_refl) as (v & Ev & Hr). cbn. rewrite Ev in Hd |- *.
  destruct r as [r|]; [|done]. destruct Hd as [Ht Hw]. cbn. f_equal. by apply object_int_d2s.
Qed.

(** What [IncDecCount] does to the counters: field [k] grows by [n]. *)
Lemma IncDecCount_ok {Store} cfg (st : state Store) key c k n :
  meta_rep st key c → LLONG_MIN ≤ k ≤ LLONG_MAX →
  let v := default 0 (c ≫= (.!! k)) in
  LLONG_MIN ≤ v ≤ LLONG_MAX → LLONG_MIN ≤ v + n ≤ LLONG_MAX →
  ∃ o, IncDecCount cfg st key (SInt k) n =
         Ok (to_int (v + n), incr_dirty (set_meta st (<[key := o]> (Metadict (st_db st)))))
       ∧ counters o (<[k := v + n]> (default ∅ c)).
Proof.
  intros Hm Hk v Hv Hvn. unfold IncDecCount, lookupKeyWriteForMetadict, lookupKeyForMetadict.
  assert (∃ o st1, (match Metadict (st_db st) !! key with
              | None => st ← dbAddForMetadict st key createMetaHashdictFordict;
                        Ok (createMetaHashdictFordict, st)
              | Some o => Ok (o, st) end) = Ok (o, st1) ∧ counters o (default ∅ c) ∧
     ∀ o', set_meta st1 (<[key := o']> (Metadict (st_db st1))) =
           set_meta st (<[key := o']> (Metadict (st_db st)))) as (o & st1 & -> & Ho & Hset).
  { unfold meta_rep, dbAddForMetadict in *.
    destruct (Metadict (st_db st) !! key) as [o|], c as [c|]; try done.
    - by exists o, st.
    - res_step. eexists _, _. split; [done|]. split; [apply counters_empty|].
      intros o'. cbn. by rewrite insert_insert_eq. }
  res_step. destruct Ho as (m & Hm' & Hc).
  destruct (hashTypeGetValueRObject_ok o m (SInt k) Hm' Hk) as (r & -> & Hd). res_step.
  cbn [str_text] in Hd. rewrite Hc in Hd.
  assert (Ev : v = default 0 (default ∅ c !! k)).
  { subst v. by destruct c as [c|]; [|cbn; rewrite lookup_empty]. }
  assert ((match r with None => Ok 0 | Some _ =>
     match getLongLongFromObject r with (C_OK, value) => Ok value | (C_ERR, _) => Fault AssertFail end end)
     = Ok v) as ->.
  { rewrite Ev. destruct (default ∅ c !! k) as [w|], r as [[s|z]|]; cbn in *; try done.
    - destruct Hd as [-> _]. rewrite string2ll_complete; [done|]. by rewrite <- Ev.
    - destruct Hd as [Hz _]. by apply d2s_inj in Hz as ->. }
  res_step.
  assert (negb ((n <? 0) && (v <? 0) && (n <? LLONG_MIN - v)
                || (n >? 0) && (v >? 0) && (n >? LLONG_MAX - v)) = true) as ->.
  { apply negb_true_iff, orb_false_iff; split; apply andb_false_iff; right;
      rewrite ?Z.gtb_ltb; apply Z.ltb_ge; lia. }
  cbn [assert]. res_step.
  assert (hashTypeTryObjectEncoding o 1 (SInt k) = SInt k) as -> by (by destruct o).
  rewrite long_object by done.
  destruct (hashTypeSet_ok (hash_max_ziplist_entries cfg) o m (SInt k) (SInt (v + n)) Hm' Hk Hvn)
    as (o' & -> & Ho'). res_step. exists o'. rewrite Hset. split; [done|].
  eexists. split; [exact Ho'|]. cbn [str_text]. intros j. destruct (decide (j = k)) as [->|Hne].
  - by rewrite !lookup_insert_eq.
  - rewrite !lookup_insert_ne by (congruence || by intros ?%d2s_inj). apply Hc.
Qed.

(** The counters of other keys, and the rest of the state, stay. *)
Lemma meta_rep_insert {Store} (st : state Store) key o c :
  counters o c → meta_rep (incr_dirty (set_meta st (<[key := o]> (Metadict (st_db st))))) key (Some c).
Proof. intros Ho. unfold meta_rep. cbn. by rewrite lookup_insert_eq. Qed.

Lemma meta_rep_other {Store} (st : state Store) key key' o c :
  key ≠ key' → meta_rep st key' c →
  meta_rep (incr_dirty (set_meta st (<[key := o]> (Metadict (st_db st))))) key' c.
Proof. intros Hne Hm. unfold meta_rep in *. cbn. by rewrite lookup_insert_ne. Qed.
