(* ===== verification/Table.v ===== *)
(** The contents of a row group, independent of where they are stored.  A row
    group of [ncol] columns is the flat list of its values in row-major order.
    Column [c] (from 0) is every [ncol]-th value, and its column vector [cv]
    (from 0) is the [cv]-th stretch of [cvsz] values of the column.  [rg_rep] and
    [rocks_rep] relate the list to the dictionary of vectors in memory and to
    the serialized vectors in RocksDB. *)

From S2P Require Import Prelude CString Util Sds Vector Queue Keys Serialize Hash Db.

Section column.
  Context {A : Type} (ncol : nat).

(** Every [ncol]-th element, the first one after skipping [i]. *)
Fixpoint column (i : nat) (vs : list A) : list A :=
  match vs with
  | [] => []
  | x :: vs' => match i with O => x :: column (ncol - 1) vs' | S i' => column i' vs' end
  end.

Context (Hncol : (0 < ncol)%nat).

Lemma column_lookup vs : ∀ i j, column i vs !! j = vs !! (j * ncol + i)%nat.
Proof.
  induction vs as [|x vs IH]; intros i j; [by rewrite !lookup_nil|].
  destruct i as [|i]; cbn [column].
  - destruct j as [|j]; [by rewrite Nat.mul_0_l|]. cbn [lookup list_lookup]. rewrite IH.
    replace (S j * ncol + 0)%nat with (S (j * ncol + (ncol - 1)))%nat by lia. done.
  - rewrite IH. replace (j * ncol + S i)%nat with (S (j * ncol + i)) by lia. done.
Qed.

Lemma column_snoc vs x : ∀ i, (i < ncol)%nat →
  column i (vs ++ [x]) = column i vs ++ (if decide (length vs mod ncol = i)%nat then [x] else []).
Proof.
  induction vs as [|y vs IH]; intros i Hi; cbn [app column length].
  - rewrite Nat.Div0.mod_0_l. destruct i; [by rewrite decide_True|by rewrite decide_False].
  - assert (Hs : (S (length vs) mod ncol = if decide (length vs mod ncol = ncol - 1) then 0
                 else S (length vs mod ncol))%nat).
    { pose proof (Nat.div_mod_eq (length vs) ncol) as E.
      pose proof (Nat.mod_upper_bound (length vs) ncol ltac:(lia)) as B.
      case_decide as D.
      - symmetry. apply Nat.mod_unique with (S (length vs / ncol)); [lia|]. nia.
      - symmetry. apply Nat.mod_unique with (length vs / ncol)%nat; [lia|]. lia. }
    rewrite Hs. destruct i as [|i].
    + rewrite IH by lia. case_decide; [by rewrite decide_True|by rewrite decide_False].
    + rewrite IH by lia. f_equal. pose proof (Nat.mod_upper_bound (length vs) ncol ltac:(lia)).
      case_decide; case_decide; case_decide; try done; lia.
Qed.

(** Row [j] has a value in the column when its cell exists. *)
Lemma column_length vs i j : (j < length (column i vs) ↔ j * ncol + i < length vs)%nat.
Proof. by rewrite <- !lookup_lt_is_Some, column_lookup. Qed.

Lemma column_length_eq vs i n : (i < ncol)%nat →
  (n * ncol ≤ length vs)%nat → (length vs ≤ n * ncol + i)%nat → length (column i vs) = n.
Proof.
  intros Hi H1 H2. apply Nat.le_antisymm.
  - destruct (Nat.le_gt_cases (length (column i vs)) n); [done|]. apply column_length in H. lia.
  - destruct n as [|n]; [lia|]. apply column_length. simpl in H1. lia.
Qed.
End column.

Section rowgroup.
  Context (ncol cvsz : nat).

(** The values of column vector [cv] of column [c]. *)
Definition cv_slice (vs : list bytes) (cv c : nat) : list bytes :=
  take cvsz (drop (cv * cvsz) (column ncol c vs)).

(** The field of that vector; the code counts from 1. *)
Definition cv_field (cv c : nat) : bytes := data_field (Z.of_nat cv + 1) (Z.of_nat c + 1).

Lemma cv_field_inj cv c cv' c' : cv_field cv c = cv_field cv' c' → cv = cv' ∧ c = c'.
Proof. intros [? ?]%data_field_inj. lia. Qed.

(** The vector that a field must hold for the values [l]. *)
Definition field_rep (o : option (Vector bytes)) (l : list bytes) : Prop :=
  match l with
  | [] => o = None
  | _ => ∃ v, o = Some v ∧ vector_rep v (map Some l) ∧ v_type v = STL_TYPE_SDS
  end.

Definition rg_rep (vs : list bytes) (d : relation) : Prop :=
  (∀ cv c, (c < ncol)%nat → field_rep (d !! cv_field cv c) (cv_slice vs cv c)) ∧
  (∀ f, is_Some (d !! f) → ∃ cv c, (c < ncol)%nat ∧ f = cv_field cv c).

Definition rocks_rep `{RocksDB Store} (s : Store) (key : bytes) (vs : list bytes) : Prop :=
  ∀ cv c, (c < ncol)%nat → cv_slice vs cv c ≠ [] →
    rocks_value s (rocks_key key (cv_field cv c)) =
      Some (serial_text STL_TYPE_SDS (cv_slice vs cv c) ++ [NUL]).

Lemma cv_slice_length vs cv c : (length (cv_slice vs cv c) ≤ cvsz)%nat.
Proof. unfold cv_slice. rewrite length_take. lia. Qed.

Context (Hncol : (0 < ncol)%nat) (Hcvsz : (0 < cvsz)%nat).

Lemma cv_slice_lookup vs j c :
  cv_slice vs (j / cvsz) c !! (j mod cvsz)%nat = vs !! (j * ncol + c)%nat.
Proof.
  unfold cv_slice. rewrite lookup_take, decide_True by (apply Nat.mod_upper_bound; lia).
  rewrite lookup_drop, column_lookup by done. do 2 f_equal.
  pose proof (Nat.div_mod_eq j cvsz). lia.
Qed.

Lemma cv_slice_in vs cv c x : x ∈ cv_slice vs cv c → x ∈ vs.
Proof.
  intros [k Hk]%list_elem_of_lookup_1. unfold cv_slice in Hk.
  apply lookup_take_Some in Hk as [Hk _]. rewrite lookup_drop, column_lookup in Hk by done.
  by eapply list_elem_of_lookup_2.
Qed.

Lemma cv_slice_nil cv c : cv_slice [] cv c = [].
Proof. unfold cv_slice. destruct c; cbn [column]; by rewrite drop_nil, take_nil. Qed.

(** Appending a value extends exactly one column vector, the one the code
    computes from the number of values before it. *)
Lemma cv_slice_snoc vs x cv c :
  (c < ncol)%nat →
  cv_slice (vs ++ [x]) cv c =
    cv_slice vs cv c ++
      (if decide (c = length vs mod ncol ∧ cv = length vs / ncol / cvsz)%nat then [x] else []).
Proof.
  intros Hc. unfold cv_slice. rewrite column_snoc by done.
  destruct (decide (length vs mod ncol = c)%nat) as [Ec|Ec]; [|rewrite app_nil_r, decide_False by naive_solver; by rewrite app_nil_r].
  set (L := column ncol c vs). set (q := (length vs / ncol)%nat).
  assert (HL : length L = q).
  { apply column_length_eq; subst q; pose proof (Nat.div_mod_eq (length vs) ncol); lia. }
  pose proof (Nat.div_mod_eq q cvsz) as Eq. pose proof (Nat.mod_upper_bound q cvsz ltac:(lia)) as Bq.
  destruct (decide (cv = q / cvsz)%nat) as [Ecv|Ecv].
  - rewrite decide_True by (split; [done|done]). rewrite drop_app_le by (subst cv; nia).
    rewrite take_app. f_equal. rewrite length_drop, take_ge; [done|]. simpl. subst cv. nia.
  - rewrite (decide_False (P := _ ∧ _)) by naive_solver. rewrite app_nil_r.
    destruct (Nat.lt_ge_cases cv (q / cvsz)) as [Hlt|Hge].
    + rewrite drop_app_le by nia. rewrite take_app_le; [done|]. rewrite length_drop. nia.
    + rewrite !drop_ge; [done|rewrite HL; nia|rewrite length_app, HL; simpl; nia].
Qed.

(** The vector that receives the value at position [length vs]. *)
Definition next_field (n : nat) : bytes := cv_field (n / ncol / cvsz) (n mod ncol).

(** [vectorAdd] of the next value, to the vector in the dictionary or to a new
    one, keeps the representation. *)
Lemma rg_rep_add vs d x :
  rg_rep vs d → Z.of_nat cvsz + 10 < 2 ^ 60 →
  ∃ v', vectorAdd (default (vectorTypeInit STL_TYPE_SDS) (d !! next_field (length vs))) (Some x) = Ok (C_OK, v')
        ∧ rg_rep (vs ++ [x]) (<[next_field (length vs) := v']> d).
Proof.
  intros [Hd Hf] Hsz. set (cv := (length vs / ncol / cvsz)%nat). set (c := (length vs mod ncol)%nat).
  assert (Hc : (c < ncol)%nat) by (apply Nat.mod_upper_bound; lia).
  set (l := cv_slice vs cv c). pose proof (cv_slice_length vs cv c) as Hl.
  assert (Hv : ∃ v', vectorAdd (default (vectorTypeInit STL_TYPE_SDS) (d !! cv_field cv c)) (Some x) = Ok (C_OK, v')
     ∧ vector_rep v' (map Some (l ++ [x])) ∧ v_type v' = STL_TYPE_SDS).
  { pose proof (Hd cv c Hc) as Hr. fold l in Hr. rewrite map_app.
    assert (vector_rep (default (vectorTypeInit STL_TYPE_SDS) (d !! cv_field cv c)) (map Some l) ∧
       v_type (default (vectorTypeInit (A := bytes) STL_TYPE_SDS) (d !! cv_field cv c)) = STL_TYPE_SDS) as [Hrep Hty].
    { destruct l as [|y l]; cbn [field_rep] in Hr.
      - rewrite Hr. split; [apply vectorTypeInit_rep|done].
      - destruct Hr as (v & -> & ? & ?). done. }
    destruct (vectorAdd_rep _ _ (Some x) Hrep) as (v' & E & Hr' & Ht'); [rewrite length_map; subst l; lia|].
    exists v'. split_and!; [done|done|congruence]. }
  destruct Hv as (v' & E & Hr' & Ht'). exists v'. split; [exact E|]. split.
  - intros cv0 c0 Hc0. rewrite cv_slice_snoc by done. unfold next_field. fold cv c.
    destruct (decide (c0 = c ∧ cv0 = cv)) as [[-> ->]|Hne].
    + rewrite lookup_insert_eq. fold l. destruct (l ++ [x]) eqn:El; [by destruct l|].
      cbn [field_rep]. by eexists.
    + rewrite app_nil_r, lookup_insert_ne by (intros [? ?]%cv_field_inj; naive_solver). by apply Hd.
  - intros f [v Hv]. destruct (decide (f = next_field (length vs))) as [->|Hne].
    + exists cv, c. done.
    + rewrite lookup_insert_ne in Hv by done. apply Hf. by eexists.
Qed.

Lemma rg_rep_nil : rg_rep [] ∅.
Proof.
  split.
  - intros cv c Hc. by rewrite cv_slice_nil.
  - intros f [v Hv]. by rewrite lookup_empty in Hv.
Qed.

(** Reading a cell through its column vector. *)
Lemma rg_rep_cell vs d j c x :
  rg_rep vs d → (c < ncol)%nat → vs !! (j * ncol + c)%nat = Some x →
  ∃ v, d !! cv_field (j / cvsz) c = Some v ∧ vectorGet v (Z.of_nat (j mod cvsz)) = Ok (Some x).
Proof.
  intros [Hd _] Hc Hx. rewrite <- cv_slice_lookup in Hx. specialize (Hd (j / cvsz)%nat c Hc).
  destruct (cv_slice vs (j / cvsz) c) as [|y l] eqn:El; [done|]. destruct Hd as (v & Ev & Hr & _).
  exists v. split; [done|]. rewrite (vectorGet_rep _ _ _ Hr), list_lookup_fmap, Hx. done.
Qed.

(** * What a scan returns *)

End rowgroup.

Section rows.
  Context (ncol : nat) (Hncol : (0 < ncol)%nat).

(** The values of the columns [cs] (from 0) of rows [j], [j + 1], ..., [n] rows. *)
Fixpoint scan_rows (vs : list bytes) (cs : list nat) (j n : nat) : list bytes :=
  match n with
  | O => []
  | S n' => map (fun c => vs !!! (j * ncol + c)%nat) cs ++ scan_rows vs cs (S j) n'
  end.
Definition scan_group (cs : list nat) (vs : list bytes) : list bytes :=
  scan_rows vs cs 0 (length vs / ncol).

Lemma scan_rows_app vs cs n m : ∀ j,
  scan_rows vs cs j (n + m) = scan_rows vs cs j n ++ scan_rows vs cs (j + n) m.
Proof.
  induction n as [|n IH]; intros j; cbn [scan_rows Nat.add]; [by rewrite Nat.add_0_r|].
  rewrite IH, <- app_assoc. do 3 f_equal. lia.
Qed.

(** Rows that lie in the first or in the second part of a list. *)
Lemma scan_rows_l g h cs n : ∀ j,
  Forall (fun c => (c < ncol)%nat) cs → ((j + n) * ncol ≤ length g)%nat →
  scan_rows (g ++ h) cs j n = scan_rows g cs j n.
Proof.
  induction n as [|n IH]; intros j Hcs Hl; cbn [scan_rows]; [done|].
  rewrite IH by (done || lia). f_equal. apply map_ext_in. intros c Hc%list_elem_of_In.
  rewrite Forall_forall in Hcs. specialize (Hcs c Hc). apply lookup_total_app_l. nia.
Qed.

Lemma scan_rows_r g h cs k n : ∀ j,
  length g = (k * ncol)%nat → scan_rows (g ++ h) cs (k + j) n = scan_rows h cs j n.
Proof.
  induction n as [|n IH]; intros j Hg; cbn [scan_rows]; [done|].
  rewrite <- Nat.add_succ_r, IH by done. f_equal. apply map_ext. intros c.
  rewrite lookup_total_app_r by lia. f_equal. lia.
Qed.

(** Scanning row group by row group is scanning all the rows. *)
Lemma scan_group_app cs g h :
  Forall (fun c => (c < ncol)%nat) cs → (length g mod ncol = 0)%nat →
  scan_group cs (g ++ h) = scan_group cs g ++ scan_group cs h.
Proof.
  intros Hcs Hg. apply Nat.Div0.mod_divides in Hg as [k Hk]. unfold scan_group.
  assert (Hkn : (length g / ncol = k)%nat) by (rewrite Hk, Nat.mul_comm, Nat.div_mul; lia).
  rewrite length_app. replace ((length g + length h) / ncol)%nat with (k + length h / ncol)%nat.
  - rewrite scan_rows_app, scan_rows_l, Hkn by (done || lia). f_equal.
    rewrite Nat.add_0_l, <- (Nat.add_0_r k) at 1. apply scan_rows_r. lia.
  - rewrite Hk, (Nat.mul_comm ncol k), Nat.div_add_l; lia.
Qed.

Lemma scan_groups cs gs :
  Forall (fun c => (c < ncol)%nat) cs → Forall (fun g : list bytes => (length g mod ncol = 0)%nat) gs →
  concat (map (scan_group cs) gs) = scan_group cs (concat gs).
Proof.
  intros Hcs. induction 1 as [|g gs Hg _ IH]; cbn [map concat].
  - unfold scan_group. cbn [length]. by rewrite Nat.Div0.div_0_l.
  - by rewrite IH, scan_group_app.
Qed.
End rows.
