(* ===== verification/Invariant.v ===== *)
(** The invariant of the relational layer.  The abstract contents of the server
    are tables: per table id and partition, a number of columns and the row
    groups, each the flat list of its values.  [Inv] relates them to the state:
    the counters of Metadict, the row groups in memory and in RocksDB, the two
    queues and the pending tiering jobs. *)

From S2P Require Import Prelude CString Util Sds Vector Queue Keys Serialize Hash Db Meta Table.

Record table := mkTable { t_cols : nat; t_groups : list (list bytes) }.
Abbreviation tables := (gmap (Z * bytes) table).

(** Table ids and partitions whose keys every function accepts: [toMetaKey] takes
    data keys of at most 126 bytes, row group id included. *)
Definition wf_tkey (t : Z) (p : bytes) : Prop :=
  INT_MIN ≤ t ≤ INT_MAX ∧ wf_part p ∧ (length p ≤ 96)%nat.

(** Values that survive serialization. *)
Definition wf_value (x : bytes) : Prop := nonul x ∧ (":"%char ∉ x) ∧ ("]"%char ∉ x).

#[export] Instance wf_value_dec x : Decision (wf_value x).
Proof. unfold wf_value. apply _. Defined.

Definition rows_of (ncol : nat) (g : list bytes) : Z := Z.of_nat (length g / ncol).

Definition wf_group (ncol : nat) (g : list bytes) : Prop :=
  g ≠ [] ∧ (length g mod ncol = 0)%nat ∧ rows_of ncol g ≤ INT_MAX ∧ Forall wf_value g.

Definition wf_table (T : table) : Prop :=
  (1 ≤ t_cols T ≤ 100)%nat ∧ t_groups T ≠ [] ∧ Z.of_nat (length (t_groups T)) ≤ INT_MAX ∧
  Forall (wf_group (t_cols T)) (t_groups T).

(** The counters of a table: the current row group and the rows of each. *)
Definition table_counters (T : table) (c : gmap Z Z) : Prop :=
  c !! 0 = Some (Z.of_nat (length (t_groups T))) ∧
  ∀ i : nat, c !! (Z.of_nat i + 1) = rows_of (t_cols T) <$> t_groups T !! i.

(** The settings the layer works with. *)
Definition wf_config (cfg : config) : Prop :=
  1 ≤ rowgroup_size cfg ≤ INT_MAX ∧ 1 ≤ columnvector_size cfg ≤ INT_MAX ∧
  1 ≤ batch_tiering_size cfg ≤ INT_MAX.

(** The number of row groups that may ever be created: half the capacity of the
    queues, whose limit is that of [int]. *)
Definition MAX_ENTRIES : Z := 2 ^ 29.

Definition cvsz (cfg : config) : nat := Z.to_nat (columnvector_size cfg).

Section invariant.
  Context {Store : Type} `{RocksDB Store} (cfg : config).
  Implicit Types (st : state Store) (tabs : tables).

(** The entry of a row group. *)
Definition rg_entry (key : bytes) (loc : Z) (d : relation) : dictEntry value :=
  mkEntry key (Some (mkRobj loc (VRel d))).

Definition is_location (loc : Z) : Prop :=
  loc = LOCATION_REDIS_ONLY ∨ loc = LOCATION_FLUSH ∨ loc = LOCATION_PERSISTED.

(** Where row group [g] is: in memory, and also in RocksDB once its entry says so;
    or in RocksDB only. *)
Definition group_loc (h : heap value) (dk : gmap bytes addr) (s : Store) (key : bytes) (ncol : nat)
    (g : list bytes) : Prop :=
  match dk !! key with
  | Some a => ∃ loc d, h !! a = Some (rg_entry key loc d) ∧ is_location loc ∧
                       rg_rep ncol (cvsz cfg) g d ∧
                       (loc = LOCATION_PERSISTED → rocks_rep ncol (cvsz cfg) s key g)
  | None => rocks_rep ncol (cvsz cfg) s key g
  end.

(** Row group [i] (from 0) of table [(t, p)] of [tabs]. *)
Definition group_at tabs (t : Z) (p : bytes) (i : nat) (ncol : nat) (g : list bytes) : Prop :=
  ∃ T, tabs !! (t, p) = Some T ∧ t_groups T !! i = Some g ∧ t_cols T = ncol.

(** [a] is the entry of a row group, with location [loc]. *)
Definition entry_at (h : heap value) (dk : gmap bytes addr) tabs (a : addr) (loc : Z) : Prop :=
  ∃ t p i ncol g d, group_at tabs t p i ncol g ∧
    dk !! data_key t p (Z.of_nat i + 1) = Some a ∧
    h !! a = Some (rg_entry (data_key t p (Z.of_nat i + 1)) loc d).

(** The row group of entry [a] is in RocksDB. *)
Definition persisted (dk : gmap bytes addr) (s : Store) tabs (a : addr) : Prop :=
  ∀ t p i ncol g, group_at tabs t p i ncol g → dk !! data_key t p (Z.of_nat i + 1) = Some a →
    rocks_rep ncol (cvsz cfg) s (data_key t p (Z.of_nat i + 1)) g.

(** The entries [l] that a tiering job is about. *)
Definition job_rep (dk : gmap bytes addr) (s : Store) tabs (j : tiering_job) (l : list addr) : Prop :=
  match j with
  | BatchTiering keys rels => vector_rep keys (map Some l) ∧ vector_rep rels (map Some l)
  | BatchMark rels err => err = false ∧ vector_rep rels (map Some l) ∧ Forall (persisted dk s tabs) l
  end.

(** Queues and jobs: the eviction queue holds entries only in memory, the free
    queue entries that are flushed or persisted, the jobs the entries being flushed,
    all of them. *)
Record tier_inv (st : state Store) tabs (le lf : list addr) (lj : list (list addr)) : Prop := {
  ti_evict : queue_elems (EvictQueue (st_db st)) le;
  ti_free : queue_elems (FreeQueue (st_db st)) lf;
  ti_jobs : Forall2 (job_rep (dict (st_db st)) (persistent_store (st_db st)) tabs) (st_tiering st) lj;
  ti_evict_loc : Forall (fun a => entry_at (st_heap st) (dict (st_db st)) tabs a LOCATION_REDIS_ONLY) le;
  ti_free_loc : Forall (fun a => entry_at (st_heap st) (dict (st_db st)) tabs a LOCATION_FLUSH ∨
                                 entry_at (st_heap st) (dict (st_db st)) tabs a LOCATION_PERSISTED) lf;
  ti_job_loc : Forall (fun a => entry_at (st_heap st) (dict (st_db st)) tabs a LOCATION_FLUSH) (concat lj);
  ti_evict_nodup : NoDup le;
  ti_free_nodup : NoDup lf;
  ti_job_nodup : NoDup (concat lj);
  ti_flush : ∀ k a d, dict (st_db st) !! k = Some a → st_heap st !! a = Some (rg_entry k LOCATION_FLUSH d) →
    a ∈ concat lj;
}.

(** A queue grows only when it holds as many entries as fit, so its capacity is
    bounded by the number of entries ever created. *)
Definition queue_bound st (q : Queue) : Prop :=
  max q ≤ Z.max DEFAULT_ARRAY_QUEUE_SIZE (2 * Z.pos (st_next st)).

Record Inv (st : state Store) tabs : Prop := {
  inv_tables : ∀ t p T, tabs !! (t, p) = Some T → wf_tkey t p ∧ wf_table T;
  inv_meta : ∀ t p, wf_tkey t p →
    match tabs !! (t, p) with
    | None => meta_rep st (meta_key t p) None
    | Some T => ∃ c, meta_rep st (meta_key t p) (Some c) ∧ table_counters T c
    end;
  inv_groups : ∀ t p i ncol g, group_at tabs t p i ncol g →
    group_loc (st_heap st) (dict (st_db st)) (persistent_store (st_db st))
      (data_key t p (Z.of_nat i + 1)) ncol g;
  inv_absent : ∀ t p (i : nat), wf_tkey t p →
    (∀ T, tabs !! (t, p) = Some T → (length (t_groups T) ≤ i)%nat) →
    dict (st_db st) !! data_key t p (Z.of_nat i + 1) = None;
  inv_expires : ∀ t p k, wf_tkey t p → expires (st_db st) !! data_key t p k = None;
  inv_heap : ∀ k a, dict (st_db st) !! k = Some a → ∃ e, st_heap st !! a = Some e ∧ de_key e = k;
  inv_next : ∀ a, is_Some (st_heap st !! a) → (a < st_next st)%positive;
  inv_tier : ∃ le lf lj, tier_inv st tabs le lf lj;
  inv_count : ∀ t p T, tabs !! (t, p) = Some T → Z.of_nat (length (t_groups T)) < Z.pos (st_next st);
  inv_room : Z.pos (st_next st) ≤ MAX_ENTRIES;
  inv_queues : queue_bound st (EvictQueue (st_db st)) ∧ queue_bound st (FreeQueue (st_db st));
}.

(** ** Keys *)

Lemma wf_tkey_length t p k :
  wf_tkey t p → INT_MIN ≤ k ≤ INT_MAX → (length (data_key t p k) ≤ 126)%nat.
Proof. intros (Ht & _ & Hp) Hk. pose proof (data_key_length t p k Ht Hk). lia. Qed.

Lemma wf_tkey_brace t p : wf_tkey t p → "}"%char ∉ p.
Proof. by intros (_ & (_ & _ & ?) & _). Qed.

Lemma meta_key_inj t p t' p' :
  wf_tkey t p → wf_tkey t' p' → meta_key t p = meta_key t' p' → t = t' ∧ p = p'.
Proof.
  intros H1%wf_tkey_brace H2%wf_tkey_brace E. unfold meta_key, key_text in E.
  apply app_inv_head, app_inv_head in E.
  apply (app_sep_inj ":"%char) in E as [Et E]; [|by apply d2s_no..].
  apply (app_sep_inj "}"%char) in E as [Ep _]; [|done..]. split; [by apply d2s_inj|done].
Qed.

Lemma group_key_inj t p (i : nat) t' p' (i' : nat) :
  wf_tkey t p → wf_tkey t' p' →
  data_key t p (Z.of_nat i + 1) = data_key t' p' (Z.of_nat i' + 1) → t = t' ∧ p = p' ∧ i = i'.
Proof.
  intros H1%wf_tkey_brace H2%wf_tkey_brace E. apply data_key_inj in E as (-> & -> & ?); [|done..].
  split_and!; [done|done|lia].
Qed.

(** ** Frame lemmas *)

Lemma group_at_insert tabs t p T t0 p0 i ncol g :
  group_at (<[(t, p) := T]> tabs) t0 p0 i ncol g ↔
    (t0 = t ∧ p0 = p ∧ t_groups T !! i = Some g ∧ t_cols T = ncol) ∨
    ((t0, p0) ≠ (t, p) ∧ group_at tabs t0 p0 i ncol g).
Proof.
  unfold group_at. destruct (decide ((t0, p0) = (t, p))) as [[= -> ->]|Hne].
  - rewrite lookup_insert_eq. naive_solver.
  - rewrite lookup_insert_ne by congruence. naive_solver.
Qed.

Lemma group_loc_frame h dk s h' dk' key ncol g :
  dk' !! key = dk !! key → (∀ a, dk !! key = Some a → h' !! a = h !! a) →
  group_loc h dk s key ncol g → group_loc h' dk' s key ncol g.
Proof.
  intros Hd Hh. unfold group_loc. rewrite Hd. destruct (dk !! key) as [a|]; [|done].
  by rewrite (Hh a eq_refl).
Qed.

(** The location of an entry is a function of the heap. *)
Lemma entry_at_loc h dk tabs a loc loc' :
  entry_at h dk tabs a loc → entry_at h dk tabs a loc' → loc = loc'.
Proof.
  intros (t & p & i & ncol & g & d & _ & _ & E) (t' & p' & i' & ncol' & g' & d' & _ & _ & E').
  rewrite E in E'. by injection E'.
Qed.

Lemma entry_at_live h dk tabs a loc : entry_at h dk tabs a loc → live h a.
Proof. intros (t & p & i & ncol & g & d & _ & _ & E). eexists _, _. split; [exact E|done]. Qed.

(** An entry keeps its place when its key, its value's location and the row
    groups of the tables stay. *)
Lemma entry_at_frame h dk tabs h' dk' tabs' a loc :
  entry_at h dk tabs a loc →
  (∀ k, dk !! k = Some a → dk' !! k = Some a) →
  (∀ k d, h !! a = Some (rg_entry k loc d) → ∃ d', h' !! a = Some (rg_entry k loc d')) →
  (∀ t p i ncol g, group_at tabs t p i ncol g → ∃ g', group_at tabs' t p i ncol g') →
  entry_at h' dk' tabs' a loc.
Proof.
  intros (t & p & i & ncol & g & d & Hg & Hk & E) Hd Hh Ht.
  destruct (Ht _ _ _ _ _ Hg) as [g' Hg']. destruct (Hh _ _ E) as [d' E'].
  exists t, p, i, ncol, g', d'. auto.
Qed.

Lemma job_rep_frame dk s tabs dk' s' tabs' j l :
  Forall (fun a => persisted dk s tabs a → persisted dk' s' tabs' a) l →
  job_rep dk s tabs j l → job_rep dk' s' tabs' j l.
Proof.
  intros Hp. destruct j; cbn; [done|]. intros (He & Hr & Hf). split_and!; [done..|].
  apply Forall_forall. intros a Ha. rewrite Forall_forall in Hp, Hf. auto.
Qed.

Lemma jobs_frame dk s tabs dk' s' tabs' js lj :
  Forall (fun a => persisted dk s tabs a → persisted dk' s' tabs' a) (concat lj) →
  Forall2 (job_rep dk s tabs) js lj → Forall2 (job_rep dk' s' tabs') js lj.
Proof.
  intros Hp Hj. revert Hp. induction Hj as [|j l js lj Hj1 Hj IH]; intros Hp; [constructor|].
  simpl in Hp. apply Forall_app in Hp as [Hp1 Hp2]. constructor; [by eapply job_rep_frame|auto].
Qed.

(** Two keys of the dictionary have different entries. *)
Lemma inv_entry_key st tabs k a k' :
  Inv st tabs → dict (st_db st) !! k = Some a → dict (st_db st) !! k' = Some a → k = k'.
Proof.
  intros Hinv H1 H2. destruct (inv_heap _ _ Hinv _ _ H1) as (e & E & <-).
  destruct (inv_heap _ _ Hinv _ _ H2) as (e' & E' & <-). congruence.
Qed.

(** Entries of row groups have addresses below the next one. *)
Lemma entry_at_next st tabs a loc :
  Inv st tabs → entry_at (st_heap st) (dict (st_db st)) tabs a loc → (a < st_next st)%positive.
Proof.
  intros Hinv (t & p & i & ncol & g & d & _ & _ & E). apply (inv_next _ _ Hinv). by eexists.
Qed.

(** The queues have room left, and keep their bound when an entry is added. *)
Lemma enqueue_bound st tabs q l a :
  Inv st tabs → queue_bound st q → queue_elems q l → NoDup l → Forall (fun b => (b < st_next st)%positive) l →
  ∃ q' l', enqueue q (Some a) = Ok (1, q') ∧ queue_elems q' (l' ++ [a]) ∧ l' `prefix_of` l ∧ queue_bound st q'.
Proof.
  intros Hinv Hb Hq Hnd Hl. pose proof (inv_room _ _ Hinv) as Hr. pose proof (nodup_pos_length _ _ Hnd Hl) as Hlen.
  unfold queue_bound, MAX_ENTRIES, DEFAULT_ARRAY_QUEUE_SIZE in *.
  destruct (enqueue_any q l a Hq) as (q' & l' & E & Hq' & Hpre & Hm); [unfold QUEUE_MAX; lia|].
  exists q', l'. split_and!; [done..|lia].
Qed.

Lemma group_at_wf st tabs t p i ncol g :
  Inv st tabs → group_at tabs t p i ncol g →
  wf_tkey t p ∧ (1 ≤ ncol ≤ 100)%nat ∧ wf_group ncol g ∧ Z.of_nat i + 1 ≤ INT_MAX.
Proof.
  intros Hinv (T & HT & Hi & <-). destruct (inv_tables _ _ Hinv t p T HT) as [Hk (Hn & _ & Hl & Hg)].
  rewrite Forall_forall in Hg. split_and!; [done|lia|lia| |].
  - apply Hg. by eapply list_elem_of_lookup_2.
  - apply lookup_lt_Some in Hi. lia.
Qed.
End invariant.
