(* ===== verification/Config.v ===== *)
(** src/src/config.c, src/src/server.c: the settings of the relational layer, from
    their values at start to the lines of the configuration files that set them.  The
    other directives, their errors and the unknown ones are one parameter: it may
    refuse a line and may change everything but the three sizes of the layer, which
    no other directive assigns. *)

From S2P Require Import Prelude CString Sds Args Db Invariant.

Definition CONFIG_DEFAULT_BATCH_TIERING_SIZE : Z := 1.
Definition OBJ_HASH_MAX_ZIPLIST_ENTRIES : Z := 512.

(** After [initServerConfig]; [server] is zero before it, and it does not assign the
    two sizes. *)
Definition initServerConfig : config :=
  mkConfig 0 0 CONFIG_DEFAULT_BATCH_TIERING_SIZE OBJ_HASH_MAX_ZIPLIST_ENTRIES 0 true false false false.

Definition set_rowgroup_size (cfg : config) (n : Z) : config :=
  mkConfig n (columnvector_size cfg) (batch_tiering_size cfg) (hash_max_ziplist_entries cfg) (maxmemory cfg)
    (no_eviction cfg) (lazyfree_lazy_expire cfg) (loading cfg) (slave cfg).
Definition set_columnvector_size (cfg : config) (n : Z) : config :=
  mkConfig (rowgroup_size cfg) n (batch_tiering_size cfg) (hash_max_ziplist_entries cfg) (maxmemory cfg)
    (no_eviction cfg) (lazyfree_lazy_expire cfg) (loading cfg) (slave cfg).
Definition set_batch_tiering_size (cfg : config) (n : Z) : config :=
  mkConfig (rowgroup_size cfg) (columnvector_size cfg) n (hash_max_ziplist_entries cfg) (maxmemory cfg)
    (no_eviction cfg) (lazyfree_lazy_expire cfg) (loading cfg) (slave cfg).

(** The three branches of the chain of directives for the layer's sizes; [inl] is the
    message at [loaderr], [None] a line of another directive. *)
Definition size_directive (cfg : config) (argv : list bytes) : option (bytes + config) :=
  match argv with
  | [name; arg] =>
      if strcasecmp_eq name (lit "rowgroup_size") then
        let n := atoi arg in
        Some (if n <? 0 then inl (lit "Invalid rowgroup_size")
              else inr (set_rowgroup_size cfg (if n =? 0 then 100 else n)))
      else if strcasecmp_eq name (lit "columnvector_size") then
        let n := atoi arg in
        Some (if n <? 0 then inl (lit "Invalid columnVector_size")
              else inr (set_columnvector_size cfg (if n =? 0 then 100 else n)))
      else if strcasecmp_eq name (lit "batch_tiering_size") then
        let n := atoi arg in
        Some (if n <? 0 then inl (lit "Invalid batch tiering size")
              else inr (set_batch_tiering_size cfg (if n =? 0 then 1 else n)))
      else None
  | _ => None
  end.

(** The file that an [include] line names. *)
Definition include_directive (argv : list bytes) : option bytes :=
  match argv with [name; arg] => if strcasecmp_eq name (lit "include") then Some arg else None | _ => None end.

(** The arguments of a line: none for comments and blank lines. *)
Definition line_args (line : bytes) : res (option (list bytes)) :=
  let line := sdstrim line (lit " " ++ ["009"; "013"; "010"]%char) in
  if bool_decide (peek line 0 = "#"%char ∨ peek line 0 = NUL) then Ok (Some [])
  else
    r ← sdssplitargs line;
    match r with
    | Some (name :: args) => Ok (Some (sdstolower name :: args))
    | _ => Ok r
    end.

Definition config_lines (text : bytes) : list bytes := default [] (sdssplitlen (cstr text) ["010"%char]).

Definition CONFIG_MAX_LINE : nat := 1024.

(** The buffers that [fgets] fills from a file: up to a newline or to their size. *)
Fixpoint fgets_all (buf s : bytes) : list bytes :=
  match s with
  | [] => if bool_decide (buf = []) then [] else [buf]
  | c :: s' =>
      let buf := buf ++ [c] in
      if bool_decide (c = "010"%char ∨ length buf = CONFIG_MAX_LINE) then buf :: fgets_all [] s' else fgets_all buf s'
  end.

(** What [sdscat] collects of them: each up to its first zero byte. *)
Definition file_text (s : bytes) : bytes := concat (map cstr (fgets_all [] s)).

Section load.
(** The rest of [server]; the other directives; the sanity check after the last line
    ([slaveof] in cluster mode); the files. *)
Context {Rest : Type}.
Context (other_directive : config → Rest → list bytes → bytes + config * Rest).
Context (slaveof_in_cluster : Rest → bool).
Context (fopen : bytes → option bytes).

(** While loading: the settings, the rest of the server and what is left of the
    standard input. *)
Record load_state := mkLoad { ld_config : config; ld_other : Rest; ld_stdin : bytes }.

(** The settings after another directive: all but the three sizes are its own. *)
Definition keep_sizes (cfg cfg' : config) : config :=
  set_batch_tiering_size (set_columnvector_size (set_rowgroup_size cfg' (rowgroup_size cfg)) (columnvector_size cfg))
    (batch_tiering_size cfg).

(** The branches of the chain but [include]. *)
Definition directive (ld : load_state) (argv : list bytes) : bytes + load_state :=
  match size_directive (ld_config ld) argv with
  | Some (inl err) => inl err
  | Some (inr cfg) => inr (mkLoad cfg (ld_other ld) (ld_stdin ld))
  | None =>
      match other_directive (ld_config ld) (ld_other ld) argv with
      | inl err => inl err
      | inr (cfg, o) => inr (mkLoad (keep_sizes (ld_config ld) cfg) o (ld_stdin ld))
      end
  end.

(** The loop over the lines; [inl] where the process exits. *)
Fixpoint load_lines (include : load_state → bytes → res (bytes + load_state)) (ld : load_state) (lines : list bytes) :
    res (bytes + load_state) :=
  match lines with
  | [] => Ok (inr ld)
  | line :: lines' =>
      r ← line_args line;
      match r with
      | None => Ok (inl (lit "Unbalanced quotes in configuration line"))
      | Some [] => load_lines include ld lines'
      | Some argv =>
          r ← match include_directive argv with
              | Some filename => include ld filename
              | None => Ok (directive ld argv)
              end;
          match r with
          | inl err => Ok (inl err)
          | inr ld => load_lines include ld lines'
          end
      end
  end.

(** The text that [loadServerConfig(filename, options)] puts together, with what it
    leaves of the standard input; [None] where the file cannot be opened. *)
Definition config_text (stdin : bytes) (filename options : option bytes) : option (bytes * bytes) :=
  '(text, stdin) ← match filename with
                   | None => Some ([], stdin)
                   | Some f =>
                       if bool_decide (cstr f = lit "-") then Some (file_text stdin, [])
                       else text ← fopen (cstr f); Some (file_text text, stdin)
                   end;
  Some (match options with Some o => text ++ ["010"%char] ++ cstr o | None => text end, stdin).

Definition load_with (load : load_state → bytes → res (bytes + load_state)) (ld : load_state)
    (filename options : option bytes) : res (bytes + load_state) :=
  match config_text (ld_stdin ld) filename options with
  | None => Ok (inl (lit "Fatal error, can't open config file"))
  | Some (text, stdin) => load (mkLoad (ld_config ld) (ld_other ld) stdin) text
  end.

(** The fuel is the depth of nested [include]s, plus one. *)
Fixpoint loadServerConfigFromString (fuel : nat) (ld : load_state) (text : bytes) : res (bytes + load_state) :=
  match fuel with
  | O => Fault OutOfFuel
  | S fuel =>
      r ← load_lines (λ ld filename, load_with (loadServerConfigFromString fuel) ld (Some filename) None) ld
            (config_lines text);
      match r with
      | inl err => Ok (inl err)
      | inr ld =>
          if slaveof_in_cluster (ld_other ld) then Ok (inl (lit "slaveof directive not allowed in cluster mode"))
          else Ok (inr ld)
      end
  end.

Definition loadServerConfig (fuel : nat) : load_state → option bytes → option bytes → res (bytes + load_state) :=
  load_with (loadServerConfigFromString fuel).

(** * Reference semantics *)

(** The directives of a configuration in the order of reading, with the included
    files in place of the lines that include them. *)
Fixpoint expand_lines (include : bytes → bytes → res (list (list bytes) * bytes)) (stdin : bytes) (lines : list bytes) :
    res (list (list bytes) * bytes) :=
  match lines with
  | [] => Ok ([], stdin)
  | line :: lines' =>
      r ← line_args line;
      '(ds, stdin) ← match include_directive (default [] r) with
                     | Some filename => include stdin filename
                     | None => Ok ([default [] r], stdin)
                     end;
      '(ds', stdin) ← expand_lines include stdin lines';
      Ok (ds ++ ds', stdin)
  end.

Definition expand_with (expand : bytes → bytes → res (list (list bytes) * bytes)) (stdin : bytes)
    (filename options : option bytes) : res (list (list bytes) * bytes) :=
  match config_text stdin filename options with
  | None => Ok ([], stdin)
  | Some (text, stdin) => expand stdin text
  end.

Fixpoint expand (fuel : nat) (stdin text : bytes) : res (list (list bytes) * bytes) :=
  match fuel with
  | O => Fault OutOfFuel
  | S fuel =>
      expand_lines (λ stdin filename, expand_with (expand fuel) stdin (Some filename) None) stdin (config_lines text)
  end.

Definition directives (fuel : nat) : bytes → option bytes → option bytes → res (list (list bytes) * bytes) :=
  expand_with (expand fuel).

(** The files a text includes. *)
Definition line_includes (line : bytes) : list bytes :=
  match line_args line with Ok (Some argv) => option_list (include_directive argv) | _ => [] end.
Definition includes (text : bytes) : list bytes := concat (map line_includes (config_lines text)).

(** * Facts *)

(** The arguments are those of directive [name]. *)
Definition names (name : bytes) (argv : list bytes) : bool :=
  match argv with [n; _] => strcasecmp_eq n name | _ => false end.
Definition sets (name : bytes) (ds : list (list bytes)) : bool := existsb (names name) ds.

Lemma line_args_returns line : ∃ r, line_args line = Ok r.
Proof.
  unfold line_args, sdssplitargs. case_bool_decide; [eauto|].
  set (s := cstr _). destruct (args_loop_ok (length s) s [] ltac:(lia)) as [r ->]. res_step. repeat case_match; eauto.
Qed.

Definition size_ok (n : Z) : Prop := 1 ≤ n ≤ INT_MAX.

Lemma strcasecmp_other a b c :
  map tolower (cstr b) ≠ map tolower (cstr c) → strcasecmp_eq a b = true → strcasecmp_eq a c = false.
Proof. unfold strcasecmp_eq. rewrite bool_decide_eq_true. intros ? ->. by apply bool_decide_eq_false. Qed.

Lemma atoi_size arg d : 1 ≤ d ≤ INT_MAX → (atoi arg <? 0) = false → size_ok (if atoi arg =? 0 then d else atoi arg).
Proof.
  intros Hd Hn. assert (Hr : atoi arg ≤ INT_MAX).
  { unfold atoi. repeat case_match; apply to_int_range. }
  unfold size_ok. destruct (Z.eqb_spec (atoi arg) 0); lia.
Qed.

(** What the accepted directives [ds] do to the three settings. *)
Definition sizes_after (ds : list (list bytes)) (cfg cfg' : config) : Prop :=
  (if sets (lit "rowgroup_size") ds then size_ok (rowgroup_size cfg') else rowgroup_size cfg' = rowgroup_size cfg) ∧
  (if sets (lit "columnvector_size") ds then size_ok (columnvector_size cfg')
   else columnvector_size cfg' = columnvector_size cfg) ∧
  (size_ok (batch_tiering_size cfg) → size_ok (batch_tiering_size cfg')).

Lemma sizes_after_nil cfg : sizes_after [] cfg cfg.
Proof. done. Qed.

Lemma sizes_after_app ds1 ds2 cfg1 cfg2 cfg3 :
  sizes_after ds1 cfg1 cfg2 → sizes_after ds2 cfg2 cfg3 → sizes_after (ds1 ++ ds2) cfg1 cfg3.
Proof.
  unfold sizes_after, sets. rewrite !existsb_app. intros (A1 & A2 & A3) (B1 & B2 & B3). split_and!; [..|tauto].
  - destruct (existsb _ ds1), (existsb _ ds2); cbn; congruence.
  - destruct (existsb (names (lit "columnvector_size")) ds1), (existsb (names (lit "columnvector_size")) ds2); cbn; congruence.
Qed.

Lemma size_directive_ok cfg argv r :
  size_directive cfg argv = Some r → ∀ cfg', r = inr cfg' → sizes_after [argv] cfg cfg'.
Proof.
  unfold sizes_after, sets. cbn [existsb]. rewrite !orb_false_r.
  destruct argv as [|n [|arg [|]]]; cbn [size_directive names]; [done|done| |done].
  destruct (strcasecmp_eq n (lit "rowgroup_size")) eqn:E1.
  - rewrite (strcasecmp_other n (lit "rowgroup_size") (lit "columnvector_size")) by done.
    destruct (atoi arg <? 0) eqn:En; intros [= <-] ? [= <-]. split; [by apply atoi_size|done].
  - destruct (strcasecmp_eq n (lit "columnvector_size")).
    + destruct (atoi arg <? 0) eqn:En; intros [= <-] ? [= <-]. split; [done|]. split; [by apply atoi_size|done].
    + destruct (strcasecmp_eq n (lit "batch_tiering_size")); [|done].
      destruct (atoi arg <? 0) eqn:En; intros [= <-] ? [= <-]. split_and!; [done|done|]. intros _. by apply atoi_size.
Qed.

Lemma other_line cfg argv :
  size_directive cfg argv = None →
  names (lit "rowgroup_size") argv = false ∧ names (lit "columnvector_size") argv = false.
Proof. destruct argv as [|n [|arg [|]]]; cbn; [done..| |done]. repeat case_match; done. Qed.

Lemma directive_ok ld argv ld' :
  directive ld argv = inr ld' →
  sizes_after [argv] (ld_config ld) (ld_config ld') ∧ ld_stdin ld' = ld_stdin ld.
Proof.
  unfold directive. destruct (size_directive _ _) as [[err|cfg]|] eqn:E; [done| |].
  - intros [= <-]. split; [|done]. by eapply size_directive_ok.
  - destruct (other_directive _ _ _) as [|[cfg o]]; [done|]. intros [= <-]. split; [|done].
    apply other_line in E as [E1 E2]. unfold sizes_after, sets. cbn [existsb]. by rewrite E1, E2.
Qed.

(** Loading [ld] gave [ld'], and reading alone gave the directives. *)
Definition accepts (ld : load_state) (e : res (list (list bytes) * bytes)) (ld' : load_state) : Prop :=
  ∃ ds, e = Ok (ds, ld_stdin ld') ∧ sizes_after ds (ld_config ld) (ld_config ld').

Lemma load_lines_ok inc exp lines :
  (∀ ld f ld', inc ld f = Ok (inr ld') → accepts ld (exp (ld_stdin ld) f) ld') →
  ∀ ld ld', load_lines inc ld lines = Ok (inr ld') → accepts ld (expand_lines exp (ld_stdin ld) lines) ld'.
Proof.
  intros Hinc. induction lines as [|line lines IH]; intros ld ld'; cbn [load_lines expand_lines].
  { intros [= <-]. exists []. split; [done|]. apply sizes_after_nil. }
  destruct (line_args_returns line) as [r ->]. do 2 res_step. destruct r as [[|a argv]|]; [| |done].
  - intros (ds & E & H)%IH. exists ([] :: ds). change (default [] (Some ?x)) with x. cbn [include_directive]. res_step. rewrite E. split; [done|exact H].
  - change (default [] (Some ?x)) with x. remember (a :: argv) as args eqn:Ha.
    intros H. assert (∃ ld1, match include_directive args with Some f => inc ld f | None => Ok (directive ld args) end = Ok (inr ld1)
      ∧ load_lines inc ld1 lines = Ok (inr ld')) as (ld1 & H1 & (ds2 & E2 & H2)%IH).
    { subst args. apply bind_Ok in H as ([|ld1] & H1 & H2); [done|]. by exists ld1. }
    destruct (include_directive args) as [f|].
    + apply Hinc in H1 as (ds1 & -> & H1). res_step. rewrite E2. res_step. eexists. split; [done|].
      by eapply sizes_after_app.
    + apply Ok_inj, directive_ok in H1 as [H1 E1]. res_step. rewrite <- E1, E2. res_step. eexists. split; [done|].
      by eapply sizes_after_app.
Qed.

Lemma load_with_ok load exp ld filename options ld' :
  (∀ ld text ld', load ld text = Ok (inr ld') → accepts ld (exp (ld_stdin ld) text) ld') →
  load_with load ld filename options = Ok (inr ld') → accepts ld (expand_with exp (ld_stdin ld) filename options) ld'.
Proof.
  intros H. unfold load_with, expand_with. destruct (config_text _ _ _) as [[text stdin]|]; [|done].
  intros (ds & E & Hs)%H. by exists ds.
Qed.

Lemma load_ok fuel : ∀ ld text ld',
  loadServerConfigFromString fuel ld text = Ok (inr ld') → accepts ld (expand fuel (ld_stdin ld) text) ld'.
Proof.
  induction fuel as [|fuel IH]; intros ld text ld'; [done|]. cbn [loadServerConfigFromString expand].
  intros H. apply bind_Ok in H as ([|ld1] & H1 & H); [done|]. destruct (slaveof_in_cluster _); [done|]. apply Ok_inj in H as [= <-].
  eapply load_lines_ok; [|done]. intros ld2 f ld3. apply load_with_ok, IH.
Qed.

(** The contents that a file name can have while the standard input is [stdin]: an
    exhausted standard input is empty. *)
Definition contents (stdin : bytes) (f : bytes) : option bytes :=
  if bool_decide (cstr f = lit "-") then Some stdin else fopen (cstr f).

Lemma includes_in lines line f : line ∈ lines → f ∈ line_includes line → f ∈ concat (map line_includes lines).
Proof. intros Hl Hf. apply list_elem_of_In, in_concat. exists (line_includes line). rewrite <-!list_elem_of_In. split; [|done]. by apply list_elem_of_fmap_2. Qed.

(** The standard input is untouched or was read to its end. *)
Definition stdin_of (stdin : bytes) (ld : load_state) : Prop := ld_stdin ld = stdin ∨ ld_stdin ld = [].

(** A result, which keeps the standard input so. *)
Definition returns (stdin : bytes) (m : res (bytes + load_state)) : Prop :=
  ∃ r, m = Ok r ∧ ∀ ld, r = inr ld → stdin_of stdin ld.

Lemma load_lines_returns stdin inc lines :
  (∀ ld f, stdin_of stdin ld → f ∈ concat (map line_includes lines) → returns stdin (inc ld f)) →
  ∀ ld, stdin_of stdin ld → returns stdin (load_lines inc ld lines).
Proof.
  unfold returns. induction lines as [|line lines IH]; intros Hinc ld Hld; cbn [load_lines].
  { eexists. split; [done|]. by intros ? [= <-]. }
  specialize (IH ltac:(intros ld1 f H1 Hf; apply Hinc; [done|cbn; set_solver])).
  assert (Hf : ∀ f, f ∈ line_includes line → returns stdin (inc ld f)) by (intros f H; apply Hinc; [done|cbn; set_solver]).
  unfold line_includes in Hf. destruct (line_args_returns line) as [r E]. rewrite E in Hf |- *. res_step.
  destruct r as [[|a argv]|]; [by apply IH| |by eexists]. destruct (include_directive (a :: argv)) as [f|] eqn:Ei.
  - destruct (Hf f) as (r & -> & Hr); [set_solver|]. res_step. destruct r; [by eexists|]. by apply IH, Hr.
  - res_step. destruct (directive ld (a :: argv)) eqn:Ed; [by eexists|]. apply IH. apply directive_ok in Ed as [_ Ed].
    unfold stdin_of. by rewrite Ed.
Qed.

(** Where the files form no cycle of [include]s, as a [rank] shows, the depth is
    bounded. *)
Lemma load_returns (rank : bytes → nat) stdin :
  (∀ f text g, contents stdin f = Some text → g ∈ includes (file_text text) → (rank g < rank f)%nat) →
  ∀ fuel ld text, stdin_of stdin ld → (∀ g, g ∈ includes text → (rank g < fuel)%nat) →
    returns stdin (loadServerConfigFromString (S fuel) ld text).
Proof.
  intros Hrank fuel. induction fuel as [fuel IH] using lt_wf_ind. intros ld text Hld Ht.
  assert (Hl : returns stdin (load_lines (λ ld f, load_with (loadServerConfigFromString fuel) ld (Some f) None) ld (config_lines text))).
  { apply load_lines_returns; [|done]. intros ld1 f H1 Hf%Ht. destruct fuel as [|fuel]; [lia|].
    unfold load_with, config_text. case_bool_decide as Ef.
    - cbn [mbind option_bind]. apply IH; [lia|by right|]. intros g Hg. destruct H1 as [E1|E1]; rewrite E1 in Hg; [|by apply not_elem_of_nil in Hg].
      apply (Hrank f stdin) in Hg; [lia|]. unfold contents. by rewrite bool_decide_eq_true_2.
    - destruct (fopen (cstr f)) as [t|] eqn:Et; cbn [mbind option_bind]; [|by eexists]. apply IH; [lia|done|]. intros g Hg.
      apply (Hrank f t) in Hg; [lia|]. unfold contents. by rewrite bool_decide_eq_false_2. }
  destruct Hl as (r & E & Hr). cbn [loadServerConfigFromString]. rewrite E. res_step. unfold returns.
  destruct r as [|ld1]; [by eexists|]. destruct (slaveof_in_cluster _); [by eexists|]. eexists. split; [done|].
  intros ? [= <-]. by apply Hr.
Qed.

(** * Properties *)

(** C29: a configuration, with the files it includes, that is accepted has sizes that
    the layer works with ([wf_config]: positive [int]s) exactly if some directive of
    it sets [rowgroup_size] and some directive sets [columnvector_size]; an argument
    that is zero or no number counts as a default.  Reading it ends whenever no file
    includes itself, directly or through others, with the depth of the [include]s
    as the fuel.  The other directives may refuse a line, which ends the
    process, and may change every other setting. *)
Theorem config_sizes (rank : bytes → nat) rest stdin filename options fuel :
  (∀ f text g, contents stdin f = Some text → g ∈ includes (file_text text) → (rank g < rank f)%nat) →
  (∀ text stdin' g, config_text stdin filename options = Some (text, stdin') → g ∈ includes text → (rank g < fuel)%nat) →
  ∃ r, loadServerConfig (S fuel) (mkLoad initServerConfig rest stdin) filename options = Ok r ∧
    ∀ ld, r = inr ld →
      ∃ ds, directives (S fuel) stdin filename options = Ok (ds, ld_stdin ld) ∧
        (wf_config (ld_config ld) ↔ sets (lit "rowgroup_size") ds = true ∧ sets (lit "columnvector_size") ds = true).
Proof.
  intros Hrank Ht. set (ld0 := mkLoad _ _ _).
  assert (∃ r, loadServerConfig (S fuel) ld0 filename options = Ok r) as [r E].
  { unfold loadServerConfig, load_with. cbn [ld0 ld_stdin]. destruct (config_text _ _ _) as [[text stdin']|] eqn:Ec; [|eauto].
    destruct (load_returns rank stdin Hrank fuel (mkLoad initServerConfig rest stdin') text) as (r & E & _); [| |by exists r].
    - unfold config_text in Ec. destruct filename; [case_bool_decide|]; simplify_option_eq; [by right|by left|by left].
    - intros g. by eapply Ht. }
  exists r. split; [done|]. intros ld ->. unfold loadServerConfig in E.
  apply (load_with_ok _ (expand (S fuel))) in E as (ds & Ed & H1 & H2 & H3); [|apply load_ok].
  exists ds. split; [done|]. unfold wf_config. assert (size_ok (batch_tiering_size (ld_config ld))) by (by apply H3).
  destruct (sets _ ds); [|rewrite H1; cbn; naive_solver lia].
  destruct (sets _ ds); [|rewrite H2; cbn; naive_solver lia]. done.
Qed.

End load.

(** A configuration that includes a second file, as shipped: only [rowgroup_size] is
    set. *)
Definition main_conf : bytes := lit "include addb.conf" ++ ["010"%char] ++ lit "port 8000" ++ ["010"%char].
Definition addb_conf : bytes := lit "# ADDB" ++ ["010"%char] ++ lit "rowgroup_size 50" ++ ["010"%char].
Definition conf_files (f : bytes) : option bytes :=
  if bool_decide (f = lit "redis.conf") then Some main_conf else if bool_decide (f = lit "addb.conf") then Some addb_conf else None.
Definition port_only (cfg : config) (port : Z) (argv : list bytes) : bytes + config * Z :=
  match argv with
  | [name; n] => if strcasecmp_eq name (lit "port") then inr (cfg, atoi n) else inl (lit "Bad directive or wrong number of arguments")
  | _ => inl (lit "Bad directive or wrong number of arguments")
  end.
Definition conf_rank (f : bytes) : nat := if bool_decide (f = lit "addb.conf") then 1%nat else 2%nat.

Lemma addb_conf_includes : includes (file_text addb_conf) = [].
Proof. vm_compute. reflexivity. Qed.
Lemma main_conf_includes : includes (file_text main_conf) = [lit "addb.conf"].
Proof. vm_compute. reflexivity. Qed.

Lemma config_sizes_witness :
  ∃ ld, loadServerConfig port_only (λ _, false) conf_files 3 (mkLoad initServerConfig 6379 []) (Some (lit "redis.conf")) None
      = Ok (inr ld) ∧ ld_other ld = 8000 ∧ rowgroup_size (ld_config ld) = 50 ∧ ~ wf_config (ld_config ld).
Proof.
  destruct (config_sizes port_only (λ _, false) conf_files conf_rank 6379 [] (Some (lit "redis.conf")) None 2) as (r & E & H).
  - intros f text g. unfold contents. case_bool_decide; [intros [= <-] Hg; by apply not_elem_of_nil in Hg|].
    unfold conf_files. case_bool_decide as Hr; [|case_bool_decide]; intros [= <-].
    + rewrite main_conf_includes. intros ->%list_elem_of_singleton. change (conf_rank (lit "addb.conf")) with 1%nat.
      unfold conf_rank. case_bool_decide as Hf; [|lia].
      subst f. vm_compute in Hr. discriminate.
    + rewrite addb_conf_includes. intros Hg. by apply not_elem_of_nil in Hg.
  - intros text stdin' g Hc. change (Some (file_text main_conf, []) = Some (text, stdin')) in Hc. injection Hc as <- <-.
    rewrite main_conf_includes. intros ->%list_elem_of_singleton. vm_compute. lia.
  - destruct r as [err|ld]; [vm_compute in E; discriminate|]. exists ld. split; [exact E|].
    destruct (H ld eq_refl) as (ds & Ed & Hds). vm_compute in E. injection E as <-. vm_compute in Ed. injection Ed as <-.
    split; [reflexivity|]. split; [reflexivity|]. intros Hwf. apply Hds in Hwf. vm_compute in Hwf. destruct Hwf; discriminate.
Defined.
