(* ===== verification/Write.v ===== *)
(** src/src/addb_table.c (FPWRITE), src/src/addb_relational.c and src/src/t_hash.c
    (insertion): a write appends rows to the current row group of a partition.
    A new row group is started when the current one is full, is being tiered, or
    is no longer in memory; the entry of a row group enters the eviction queue
    when it is created.  A row group is related to the flat list of its values in
    row-major order. *)

From S2P Require Import Prelude CString Util Sds Vector Queue Keys Hash Db Meta.

Definition MAX_COLUMN_NUMBER : Z := 100.
Definition NULLVALUE : bytes := lit "null".
Definition EMPTYSTRING : bytes := [].

(** What a command sends back. *)
Inductive reply :=
| RStatus (s : bytes)
| RError (s : bytes)
| RNullBulk
| RMulti (l : list bytes)
| RInteger (n : Z).

#[export] Instance reply_eq_dec : EqDecision reply.
Proof. solve_decision. Defined.

(** [a / b] of C. *)
Definition cdiv (a b : Z) : res Z := if b =? 0 then Fault DivByZero else Ok (Z.quot a b).

Section write.
  Context {Store : Type} `{RocksDB Store}.
  Implicit Types st : state Store.

(** ** Insertion of one value *)

Definition createDataHashdictFordict : robj value := mkRobj LOCATION_REDIS_ONLY (VRel ∅).

(** The type check of a value as [OBJ_HASH], and the use of its [ptr] as the
    dictionary of a row group. *)
Definition is_hash (v : value) : bool := match v with VOther _ => false | _ => true end.
Definition rel_ptr (v : value) : res relation :=
  match v with VRel d => Ok d | _ => Fault BadCast end.

(** The value object of entry [a]. *)
Definition entry_value st (a : addr) : res (robj value) :=
  e ← load (st_heap st) a; deref (de_val e).

(** Returns the entry and whether it was created. *)
Definition lookupDictAndGetHashdictObj (cfg : config) st (dataKey : bytes)
    : res (addr * bool * state Store) :=
  '(found, st) ← lookupKeyWrite cfg st dataKey;
  match found with
  | None => '(a, st) ← dbAdd st dataKey createDataHashdictFordict; Ok (a, true, st)
  | Some a =>
      o ← entry_value st a;
      _ ← assert (is_hash (robj_ptr o));
      Ok (a, false, st)
  end.

Definition lookupDictForcheckEnqueue (cfg : config) st (dataKey : bytes)
    : res (option addr * state Store) :=
  '(found, st) ← lookupKeyWrite cfg st dataKey;
  match found with
  | None => Ok (None, st)
  | Some a =>
      o ← entry_value st a;
      _ ← assert (is_hash (robj_ptr o));
      Ok (Some a, st)
  end.

(** Replaces the column vectors of entry [a]. *)
Definition set_relation st (a : addr) (d : relation) : res (state Store) :=
  e ← load (st_heap st) a;
  o ← deref (de_val e);
  Ok (set_heap st (<[a := mkEntry (de_key e) (Some (mkRobj (location o) (VRel d)))]> (st_heap st))).

(** Returns whether the row group was created. *)
Definition insertKVpairToRelational (cfg : config) st (dataKey dataField value : bytes)
    : res (bool * state Store) :=
  '(a, init, st) ← lookupDictAndGetHashdictObj cfg st dataKey;
  o ← entry_value st a;
  hashDict ← rel_ptr (robj_ptr o);
  '(_, v) ← (match hashDict !! dataField with
             | None =>
                 let v := vectorTypeInit STL_TYPE_SDS in
                 _ ← assert (v_size v =? 0);
                 _ ← assert (v_count v =? 0);
                 vectorAdd v (Some value)
             | Some v => vectorAdd v (Some value)
             end);
  st ← set_relation st a (<[dataField := v]> hashDict);
  Ok (init, incr_dirty st).

(** Whether a row group was evicted before it was full; unused by the commands. *)
Definition checkEnqueue (cfg : config) st (dataKey : bytes) : res (Z * state Store) :=
  '(found, st) ← lookupDictForcheckEnqueue cfg st dataKey;
  match found with
  | None => Fault AssertFail
  | Some a =>
      o ← entry_value st a;
      hashDict ← rel_ptr (robj_ptr o);
      dataField ← getDataField 1 1;
      Ok (if decide (is_Some (hashDict !! dataField)) then 0 else 1, st)
  end.

(** ** FPWRITE *)

(** The object a value argument is replaced by: itself, or one of the two shared
    objects, which [createObject] made with a reference count of 1. *)
Inductive value_object := VoArg (s : bytes) | VoNull | VoEmpty.

Definition choose_value (arg : bytes) : value_object :=
  if strcmp_eq arg NULLVALUE then VoNull
  else match arg with
       | [] => VoEmpty
       | c :: _ => if bool_decide (c = NUL) || bool_decide (c = " "%char) then VoEmpty else VoArg arg
       end.

(** [valueObj->ptr]. *)
Definition value_ptr st (v : value_object) : res bytes :=
  match v with
  | VoArg s => Ok s
  | VoNull => match st_nullValue st with Some s => Ok s | None => Fault UseAfterFree end
  | VoEmpty => match st_emptyString st with Some s => Ok s | None => Fault UseAfterFree end
  end.

(** [decrRefCount(valueObj)]: the arguments are held by the client too, the
    shared objects have one reference and are released. *)
Definition release_value st (v : value_object) : state Store :=
  match v with
  | VoArg _ => st
  | VoNull => set_shared st None (st_emptyString st)
  | VoEmpty => set_shared st (st_nullValue st) None
  end.

(** The loop over the values: [idx] counts them, [enroll] is [Enroll_queue]. *)
Fixpoint write_loop (cfg : config) st (dataKey : bytes) (row_number column_number idx enroll : Z)
    (args : list bytes) : res (Z * state Store) :=
  match args with
  | [] => Ok (enroll, st)
  | arg :: args' =>
      q ← cdiv idx column_number;
      let row_idx := to_int (row_number + q + 1) in
      m ← cmod idx column_number;
      let column_idx := m + 1 in
      cv ← cdiv (row_idx - 1) (columnvector_size cfg);
      let columnvector_idx := cv + 1 in
      _ ← assert (column_idx <=? MAX_COLUMN_NUMBER);
      dataField ← getDataField columnvector_idx column_idx;
      let valueObj := choose_value arg in
      value ← value_ptr st valueObj;
      '(init, st) ← insertKVpairToRelational cfg st dataKey dataField value;
      let st := release_value st valueObj in
      write_loop cfg st dataKey row_number column_number (idx + 1)
        (if init : bool then enroll + 1 else enroll) args'
  end.

(** The choice of the row group, lines 70 to 117: the key of the row group to
    write to, its row count, and [Enroll_queue]. *)
Definition choose_rowgroup (cfg : config) st (info : NewDataKeyInfo)
    : res (bytes * NewDataKeyInfo * Z * Z * state Store) :=
  '(_, info, st) ← getRowgroupInfo cfg st info;
  '(row_number, info) ← getRowNumberInfoAndSetRowNumberInfo st info;
  st ← (if row_number =? 0 then r ← incRowNumber cfg st info 0; Ok r.2 else Ok st);
  '(info, row_number, enroll, st) ←
    (if rowgroup_size cfg <=? row_number then
       '(_, info, st) ← IncRowgroupIdAndModifyInfo cfg st info 1;
       Ok (info, 0, 1, st)
     else Ok (info, row_number, 0, st));
  dataKey ← generateDataKey info;
  '(dataKey, info, row_number, st) ←
    (match dictFind st dataKey with
     | Some a =>
         val ← entry_value st a;
         if negb (location val =? LOCATION_REDIS_ONLY) && (enroll =? 0) then
           '(_, info, st) ← IncRowgroupIdAndModifyInfo cfg st info 1;
           dataKey ← generateDataKey info;
           Ok (dataKey, info, 0, st)
         else Ok (dataKey, info, row_number, st)
     | None =>
         if negb (row_number =? 0) && (enroll =? 0) then
           '(_, info, st) ← IncRowgroupIdAndModifyInfo cfg st info 1;
           dataKey ← generateDataKey info;
           Ok (dataKey, info, 0, st)
         else Ok (dataKey, info, row_number, st)
     end);
  _ ← assert (negb ((row_number <? 0) || (rowgroup_size cfg <? row_number)));
  Ok (dataKey, info, row_number, enroll, st).

(** Lines 119 to 171: insert the values, count the rows, enrol a new entry. *)
Definition write_rows (cfg : config) st (dataKey : bytes) (info : NewDataKeyInfo)
    (row_number column_number enroll value_num : Z) (args : list bytes) : res (state Store) :=
  '(enroll, st) ← write_loop cfg st dataKey row_number column_number 0 enroll args;
  insertedRow ← cdiv value_num column_number;
  '(_, st) ← incRowNumber cfg st info (to_int insertedRow);
  if negb (enroll =? 0) then
    '(r, q) ← enqueue (EvictQueue (st_db st)) (dictFind st dataKey);
    _ ← assert (negb (r =? 0));
    Ok (set_queues st q (FreeQueue (st_db st)))
  else Ok st.

Definition fpWriteCommand (cfg : config) st (argv : list bytes) : res (reply * state Store) :=
  key ← at_index argv 1;
  _ ← at_index argv 2;
  columns ← at_index argv 3;
  _ ← at_index argv 4;
  info ← parsingDataKeyInfo key;
  let column_number := atoi columns in
  _ ← assert (column_number <=? MAX_COLUMN_NUMBER);
  let value_num := Z.of_nat (length argv) - 5 in
  m ← cmod value_num column_number;
  if negb (m =? 0) then Ok (RError (lit "column_number Error"), st)
  else
    info ← deref info;
    '(dataKey, info, row_number, enroll, st) ← choose_rowgroup cfg st info;
    st ← write_rows cfg st dataKey info row_number column_number enroll value_num (drop 5 argv);
    Ok (RStatus (lit "OK"), st).
End write.
