(* ===== verification/WriteSpec.v ===== *)
(** Correctness of FPWRITE (Write.v): under the invariant a write of whole rows
    always succeeds, appends exactly the given values to the contents of the
    table, and keeps the invariant. *)

From S2P Require Import Prelude CString Util Sds Vector Queue Keys Serialize Hash Db Meta Table Invariant Write.

Section writespec.
  Context {Store : Type} `{RocksDB Store} (cfg : config).
  Implicit Types (st : state Store).

(** The state with another heap and another [dirty] count. *)
Definition with_heap st (h : heap value) (n : Z) : state Store :=
  mkState h (st_next st) (st_db st) (st_nullValue st) (st_emptyString st) n (st_now st)
    (st_tiering st) (st_lazyfree st).

Lemma lookupKeyWrite_ok st key :
  expires (st_db st) !! key = None → lookupKeyWrite cfg st key = Ok (dict (st_db st) !! key, st).
Proof.
  intros He. unfold lookupKeyWrite, expireIfNeeded, getExpire. rewrite He. res_step.
  cbn -[lookupKey]. unfold lookupKey, dictFind. by destruct (dict (st_db st) !! key).
Qed.

(** ** One value *)

Context (Hcfg : wf_config cfg).

Lemma cvsz_pos : (0 < cvsz cfg)%nat.
Proof. unfold cvsz. destruct Hcfg as (_ & ? & _). lia. Qed.

Lemma cvsz_bound : Z.of_nat (cvsz cfg) + 10 < 2 ^ 60.
Proof.
  unfold cvsz, INT_MAX in *. destruct Hcfg as (_ & ? & _). unfold INT_MAX in *.
  change (2 ^ 60) with 1152921504606846976. lia.
Qed.

Lemma insert_existing st key a loc d ncol vs x :
  expires (st_db st) !! key = None → dict (st_db st) !! key = Some a →
  st_heap st !! a = Some (rg_entry key loc d) → (0 < ncol)%nat → rg_rep ncol (cvsz cfg) vs d →
  ∃ d', insertKVpairToRelational cfg st key (next_field ncol (cvsz cfg) (length vs)) x =
          Ok (false, with_heap st (<[a := rg_entry key loc d']> (st_heap st)) (st_dirty st + 1))
        ∧ rg_rep ncol (cvsz cfg) (vs ++ [x]) d'.
Proof.
  intros He Hd Ha Hn Hr. unfold insertKVpairToRelational, lookupDictAndGetHashdictObj.
  rewrite lookupKeyWrite_ok by done. res_step. rewrite Hd. unfold entry_value, load. rewrite Ha.
  cbn [mbind res_bind deref de_val rg_entry robj_ptr assert is_hash]. rewrite Ha.
  cbn [mbind res_bind deref de_val rg_entry robj_ptr rel_ptr].
  destruct (rg_rep_add ncol (cvsz cfg) Hn cvsz_pos vs d x Hr cvsz_bound) as (v' & E & Hr').
  set (f := next_field ncol (cvsz cfg) (length vs)) in *.
  exists (<[f := v']> d). split; [|done].
  assert ((match d !! f with
           | None => let v := vectorTypeInit STL_TYPE_SDS in
               _ ← assert (v_size v =? 0); _ ← assert (v_count v =? 0); vectorAdd v (Some x)
           | Some v => vectorAdd v (Some x) end) = Ok (C_OK, v')) as E'.
  { by destruct (d !! f). }
  cbn [mbind res_bind] in E'. rewrite E'. unfold set_relation, load. rewrite Ha.
  done.
Qed.

(** The fresh entry of a row group, and its first value. *)
Definition with_entry st (key : bytes) (e : dictEntry value) (n : Z) : state Store :=
  let db := st_db st in
  mkState (<[st_next st := e]> (st_heap st)) (Pos.succ (st_next st))
    (mkDb (<[key := st_next st]> (dict db)) (expires db) (Metadict db) (EvictQueue db) (FreeQueue db)
       (persistent_store db))
    (st_nullValue st) (st_emptyString st) n (st_now st) (st_tiering st) (st_lazyfree st).

Lemma insert_new st key ncol x :
  expires (st_db st) !! key = None → dict (st_db st) !! key = None → (0 < ncol)%nat →
  ∃ d', insertKVpairToRelational cfg st key (next_field ncol (cvsz cfg) 0) x =
          Ok (true, with_entry st key (rg_entry key LOCATION_REDIS_ONLY d') (st_dirty st + 1))
        ∧ rg_rep ncol (cvsz cfg) [x] d'.
Proof.
  intros He Hd Hn. unfold insertKVpairToRelational, lookupDictAndGetHashdictObj.
  rewrite lookupKeyWrite_ok by done. res_step. rewrite Hd. unfold dbAdd, dictAdd, dictFind. rewrite Hd.
  destruct (rg_rep_add ncol (cvsz cfg) Hn cvsz_pos [] ∅ x) as (v' & E & Hr');
    [apply rg_rep_nil|apply cvsz_bound|].
  set (f := next_field ncol (cvsz cfg) 0) in *. exists (<[f := v']> ∅). split; [|done].
  cbn [length] in E. fold f in E. rewrite lookup_empty in E. cbn [default from_option] in E.
  unfold entry_value, set_relation, load.
  cbn [mbind res_bind st_heap set_next set_heap]. rewrite lookup_insert_eq.
  cbn [mbind res_bind deref de_val createDataHashdictFordict robj_ptr rel_ptr].
  rewrite lookup_empty.
  cbn [v_size v_count vectorTypeInit vectorInit v_data Z.eqb assert mbind res_bind].
  change (mkVector (STL_TYPE_SDS mod 4) None 0 0) with (vectorTypeInit (A := bytes) STL_TYPE_SDS).
  rewrite E. res_step. unfold with_entry, set_heap, set_next, set_dict, set_db, incr_dirty.
  cbn. by rewrite insert_insert_eq.
Qed.

(** ** The loop over the values *)

(** A value that is stored as it is. *)
Definition plain (x : bytes) : Prop := choose_value x = VoArg x.

(** The field that the loop computes for value [idx] of the command. *)
Lemma loop_field ncol row_number idx n :
  (1 ≤ ncol ≤ 100)%nat → 0 ≤ row_number → 0 ≤ idx →
  row_number * Z.of_nat ncol + idx = Z.of_nat n → Z.of_nat (n / ncol) < INT_MAX →
  cdiv idx (Z.of_nat ncol) = Ok (idx / Z.of_nat ncol) ∧
  cmod idx (Z.of_nat ncol) = Ok (Z.of_nat (n mod ncol)) ∧
  to_int (row_number + idx / Z.of_nat ncol + 1) - 1 = Z.of_nat (n / ncol) ∧
  cdiv (Z.of_nat (n / ncol)) (columnvector_size cfg) = Ok (Z.of_nat (n / ncol / cvsz cfg)) ∧
  getDataField (Z.of_nat (n / ncol / cvsz cfg) + 1) (Z.of_nat (n mod ncol) + 1) =
    Ok (next_field ncol (cvsz cfg) n).
Proof.
  intros Hn Hr Hi E Hb. assert (Hn0 : 0 < Z.of_nat ncol) by lia.
  assert (Ediv : row_number + idx / Z.of_nat ncol = Z.of_nat (n / ncol)).
  { rewrite Nat2Z.inj_div, <- E, Z.div_add_l by lia. done. }
  assert (Emod : idx mod Z.of_nat ncol = Z.of_nat (n mod ncol)).
  { rewrite Nat2Z.inj_mod, <- E, Z.add_comm, Z.mod_add by lia. done. }
  pose proof Hcfg as (_ & Hc & _).
  assert (Hd : (n / ncol / cvsz cfg ≤ n / ncol)%nat) by apply Nat.Div0.div_le_upper_bound, Nat.le_mul_l, Nat.neq_sym, Nat.lt_neq, cvsz_pos.
  assert (Hm : (n mod ncol < ncol)%nat) by (apply Nat.mod_upper_bound; lia).
  split_and!.
  - unfold cdiv. destruct (Z.eqb_spec (Z.of_nat ncol) 0); [lia|]. by rewrite Z.quot_div_nonneg by lia.
  - rewrite cmod_nonneg, Emod by lia. done.
  - rewrite Ediv, to_int_id by (unfold INT_MIN, INT_MAX in *; lia). lia.
  - unfold cdiv. destruct (Z.eqb_spec (columnvector_size cfg) 0); [lia|].
    rewrite Z.quot_div_nonneg by lia. f_equal. rewrite (Nat2Z.inj_div (n / ncol)). unfold cvsz. by rewrite Z2Nat.id by lia.
  - apply getDataFieldSds_ok; unfold INT_MIN, INT_MAX in *; lia.
Qed.

(** A round of the loop, for any value. *)
Lemma write_loop_round ncol st key row_number idx enroll x xs n :
  (1 ≤ ncol ≤ 100)%nat → 0 ≤ row_number → 0 ≤ idx →
  row_number * Z.of_nat ncol + idx = Z.of_nat n → Z.of_nat (n / ncol) < INT_MAX →
  write_loop cfg st key row_number (Z.of_nat ncol) idx enroll (x :: xs) =
    (y ← value_ptr st (choose_value x);
     '(init, st) ← insertKVpairToRelational cfg st key (next_field ncol (cvsz cfg) n) y;
     write_loop cfg (release_value st (choose_value x)) key row_number (Z.of_nat ncol) (idx + 1)
       (if init : bool then enroll + 1 else enroll) xs).
Proof.
  intros Hn Hr Hi E Hb. cbn [write_loop].
  destruct (loop_field ncol row_number idx n Hn Hr Hi E Hb) as (-> & -> & E1 & E2 & E3).
  res_step. res_step. rewrite E1, E2. res_step.
  assert (Hm : (n mod ncol < ncol)%nat) by (apply Nat.mod_upper_bound; lia).
  replace (Z.of_nat (n mod ncol) + 1 <=? MAX_COLUMN_NUMBER) with true
    by (symmetry; apply Z.leb_le; unfold MAX_COLUMN_NUMBER; lia).
  cbn [assert]. res_step. rewrite E3. res_step. done.
Qed.

Lemma write_loop_step ncol st key row_number idx enroll x xs n :
  (1 ≤ ncol ≤ 100)%nat → 0 ≤ row_number → 0 ≤ idx → plain x →
  row_number * Z.of_nat ncol + idx = Z.of_nat n → Z.of_nat (n / ncol) < INT_MAX →
  write_loop cfg st key row_number (Z.of_nat ncol) idx enroll (x :: xs) =
    ('(init, st) ← insertKVpairToRelational cfg st key (next_field ncol (cvsz cfg) n) x;
     write_loop cfg st key row_number (Z.of_nat ncol) (idx + 1) (if init : bool then enroll + 1 else enroll) xs).
Proof. intros Hn Hr Hi Hx E Hb. rewrite (write_loop_round ncol st key row_number idx enroll x xs n) by done. by rewrite Hx. Qed.

Lemma write_loop_existing ncol key loc row_number enroll xs : ∀ st a d vs idx,
  (1 ≤ ncol ≤ 100)%nat → 0 ≤ row_number → 0 ≤ idx → Forall plain xs →
  row_number * Z.of_nat ncol + idx = Z.of_nat (length vs) →
  Z.of_nat (length vs + length xs) ≤ Z.of_nat ncol * INT_MAX →
  expires (st_db st) !! key = None → dict (st_db st) !! key = Some a →
  st_heap st !! a = Some (rg_entry key loc d) → rg_rep ncol (cvsz cfg) vs d →
  ∃ d' n, write_loop cfg st key row_number (Z.of_nat ncol) idx enroll xs =
            Ok (enroll, with_heap st (<[a := rg_entry key loc d']> (st_heap st)) n)
          ∧ rg_rep ncol (cvsz cfg) (vs ++ xs) d'.
Proof.
  induction xs as [|x xs IH]; intros st a d vs idx Hn Hr Hi Hx E Hb He Hd Ha Hrep.
  - exists d, (st_dirty st). rewrite app_nil_r, insert_id by done. split; [|done]. by destruct st.
  - inversion Hx as [|? ? Hx1 Hxs]; subst.
    rewrite (write_loop_step ncol st key row_number idx enroll x xs (length vs)); [|done..|].
    2:{ rewrite Nat2Z.inj_div. apply Z.div_lt_upper_bound; [lia|]. simpl length in Hb. lia. }
    destruct (insert_existing st key a loc d ncol vs x He Hd Ha ltac:(lia) Hrep) as (d1 & -> & Hr1). res_step.
    destruct (IH (with_heap st (<[a := rg_entry key loc d1]> (st_heap st)) (st_dirty st + 1)) a d1 (vs ++ [x]) (idx + 1))
      as (d2 & n & E2 & Hr2); try done; try lia.
    + rewrite length_app. simpl length. lia.
    + rewrite length_app. simpl length in *. lia.
    + cbn. by rewrite lookup_insert_eq.
    + rewrite E2. exists d2, n. rewrite <- app_assoc in Hr2. split; [|done].
      unfold with_heap. cbn. by rewrite insert_insert_eq.
Qed.

Lemma write_loop_new ncol st key enroll xs :
  (1 ≤ ncol ≤ 100)%nat → Forall plain xs → xs ≠ [] →
  Z.of_nat (length xs) ≤ Z.of_nat ncol * INT_MAX →
  expires (st_db st) !! key = None → dict (st_db st) !! key = None →
  ∃ d' n, write_loop cfg st key 0 (Z.of_nat ncol) 0 enroll xs =
            Ok (enroll + 1, with_entry st key (rg_entry key LOCATION_REDIS_ONLY d') n)
          ∧ rg_rep ncol (cvsz cfg) xs d'.
Proof.
  intros Hn Hx Hne Hb He Hd. destruct xs as [|x xs]; [done|]. inversion Hx as [|? ? Hx1 Hxs]; subst.
  rewrite (write_loop_step ncol st key 0 0 enroll x xs 0); [|done..|].
  2:{ rewrite Nat.Div0.div_0_l. unfold INT_MAX. lia. }
  destruct (insert_new st key ncol x He Hd ltac:(lia)) as (d1 & -> & Hr1). res_step.
  change (0 + 1) with 1.
  destruct (write_loop_existing ncol key LOCATION_REDIS_ONLY 0 (enroll + 1) xs
    (with_entry st key (rg_entry key LOCATION_REDIS_ONLY d1) (st_dirty st + 1)) (st_next st) d1 [x] 1)
    as (d2 & n & E2 & Hr2); try done; try lia.
  - cbn. by rewrite lookup_insert_eq.
  - cbn. by rewrite lookup_insert_eq.
  - rewrite E2. exists d2, n. split; [|done]. unfold with_heap, with_entry. cbn. by rewrite insert_insert_eq.
Qed.

(** ** Counters of a partition *)

Definition key_info (t : Z) (p : bytes) (g n : Z) : NewDataKeyInfo :=
  mkKeyInfo t g n (PartitionString p).

(** The table keys that FPWRITE takes; [wf_tkey] has those whose row groups can be
    evicted. *)
Definition any_tkey (t : Z) (p : bytes) : Prop := INT_MIN ≤ t ≤ INT_MAX ∧ wf_part p ∧ (length p ≤ 126)%nat.

Lemma wf_tkey_any t p : wf_tkey t p → any_tkey t p.
Proof. intros (? & ? & ?). split; [done|]. split; [done|lia]. Qed.

Lemma any_tkey_length t p g : any_tkey t p → INT_MIN ≤ g ≤ INT_MAX → (length (data_key t p g) ≤ 156)%nat.
Proof. intros (Ht & _ & Hp) Hg. pose proof (data_key_length t p g Ht Hg). lia. Qed.

Lemma key_info_wf t p g n : any_tkey t p → INT_MIN ≤ g ≤ INT_MAX → wf_info (key_info t p g n).
Proof. intros (Ht & Hp & _) Hg. done. Qed.

Lemma key_info_data t p g n :
  any_tkey t p → INT_MIN ≤ g ≤ INT_MAX → generateDataKey (key_info t p g n) = Ok (data_key t p g).
Proof.
  intros Hk Hg. unfold generateDataKey. pose proof (any_tkey_length t p g Hk Hg).
  rewrite generateDataKeySds_ok; [done|by apply key_info_wf|].
  cbn [tableId partitionInfo part_text rowGroupId key_info]. unfold DATA_KEY_MAX_SIZE. lia.
Qed.

Lemma meta_key_length t p : any_tkey t p → (length (meta_key t p) < DATA_KEY_MAX_SIZE)%nat.
Proof.
  intros Hk. pose proof (any_tkey_length t p 0 Hk ltac:(unfold INT_MIN, INT_MAX; lia)) as Hl.
  unfold meta_key, data_key, key_text, DATA_KEY_MAX_SIZE in *.
  rewrite !length_app in *. cbn [length] in *.
  change (length RELMODEL_DATA_PREFIX) with 1%nat in Hl. change (length RELMODEL_META_PREFIX) with 1%nat. lia.
Qed.

Lemma key_info_meta t p g n :
  any_tkey t p → INT_MIN ≤ g ≤ INT_MAX →
  generateRgIdKeyForRowgroup (key_info t p g n) = Ok (meta_key t p) ∧
  setMetaKeyForRowgroup (key_info t p g n) = Ok (meta_key t p, key_info t p g n).
Proof.
  intros Hk Hg. pose proof (meta_key_length t p Hk).
  split; [by apply generateRgIdKey_ok; [apply key_info_wf|]|by apply setMetaKey_ok; [apply key_info_wf|]].
Qed.

(** The state with the hash of a partition replaced. *)
Definition with_meta st (key : bytes) (o : hashobj) (n : Z) : state Store :=
  let db := st_db st in
  mkState (st_heap st) (st_next st)
    (mkDb (dict db) (expires db) (<[key := o]> (Metadict db)) (EvictQueue db) (FreeQueue db) (persistent_store db))
    (st_nullValue st) (st_emptyString st) n (st_now st) (st_tiering st) (st_lazyfree st).

Lemma with_meta_twice st key o n o' n' :
  with_meta (with_meta st key o n) key o' n' = with_meta st key o' n'.
Proof. unfold with_meta. cbn. by rewrite insert_insert_eq. Qed.

Lemma with_meta_rep st key o n c : counters o c → meta_rep (with_meta st key o n) key (Some c).
Proof. intros Ho. unfold meta_rep. cbn. by rewrite lookup_insert_eq. Qed.

Definition counter_value (c : option (gmap Z Z)) (k : Z) : Z := default 0 (c ≫= (.!! k)).

(** [IncDecCount] on a partition whose counters are [c]. *)
Lemma IncDec_meta st key c k m :
  meta_rep st key c → LLONG_MIN ≤ k ≤ LLONG_MAX →
  INT_MIN ≤ counter_value c k ≤ INT_MAX → INT_MIN ≤ counter_value c k + m ≤ INT_MAX →
  ∃ o, IncDecCount cfg st key (SInt k) m =
         Ok (counter_value c k + m, with_meta st key o (st_dirty st + 1))
       ∧ counters o (<[k := counter_value c k + m]> (default ∅ c)).
Proof.
  intros Hm Hk Hv Hvm.
  destruct (IncDecCount_ok cfg st key c k m Hm Hk) as (o & E & Ho); [by apply int_long..|].
  exists o. rewrite E. fold (counter_value c k) in *. by rewrite to_int_id.
Qed.

Lemma incRowgroup_ok st t p g n c :
  any_tkey t p → INT_MIN ≤ g ≤ INT_MAX → meta_rep st (meta_key t p) c →
  0 ≤ counter_value c 0 < INT_MAX →
  ∃ o, IncRowgroupIdAndModifyInfo cfg st (key_info t p g n) 1 =
         Ok (counter_value c 0 + 1, key_info t p (counter_value c 0 + 1) n,
             with_meta st (meta_key t p) o (st_dirty st + 1))
       ∧ counters o (<[0 := counter_value c 0 + 1]> (default ∅ c)).
Proof.
  intros Hk Hg Hm Hv. unfold IncRowgroupIdAndModifyInfo, incRowgroupId.
  destruct (key_info_meta t p g n Hk Hg) as [-> _]. res_step.
  destruct (IncDec_meta st (meta_key t p) c 0 1 Hm) as (o & -> & Ho);
    [unfold LLONG_MIN, LLONG_MAX; lia|unfold INT_MIN, INT_MAX in *; lia|unfold INT_MIN, INT_MAX in *; lia|].
  res_step. by exists o.
Qed.

Lemma incRowNumber_ok st t p g n c m :
  any_tkey t p → 1 ≤ g ≤ INT_MAX → meta_rep st (meta_key t p) c →
  0 ≤ counter_value c g → 0 ≤ m → counter_value c g + m ≤ INT_MAX →
  ∃ o, incRowNumber cfg st (key_info t p g n) m =
         Ok (counter_value c g + m, with_meta st (meta_key t p) o (st_dirty st + 1))
       ∧ counters o (<[g := counter_value c g + m]> (default ∅ c)).
Proof.
  intros Hk Hg Hm Hv Hm0 Hvm. unfold incRowNumber. cbn [rowGroupId key_info].
  destruct (Z.eqb_spec g 0); [lia|]. cbn [negb assert]. res_step.
  destruct (key_info_meta t p g n Hk) as [E _]; [unfold INT_MIN, INT_MAX in *; lia|].
  rewrite E. res_step.
  rewrite long_object by (apply int_long; unfold INT_MIN, INT_MAX in *; lia).
  apply IncDec_meta; [done|apply int_long|..]; unfold INT_MIN, INT_MAX in *; lia.
Qed.

Lemma getRowGroup_ok st t p g n c :
  any_tkey t p → INT_MIN ≤ g ≤ INT_MAX → meta_rep st (meta_key t p) c →
  (∀ c', c = Some c' → ∃ v, c' !! 0 = Some v ∧ INT_MIN ≤ v ≤ INT_MAX) →
  getRowGroupInfoAndSetRowGroupInfo st (key_info t p g n) =
    Ok (counter_value c 0, key_info t p (counter_value c 0) n).
Proof.
  intros Hk Hg Hm Hv. unfold getRowGroupInfoAndSetRowGroupInfo.
  destruct (key_info_meta t p g n Hk Hg) as [_ ->]. res_step.
  rewrite (lookupRowGroup_ok st _ c Hm Hv). by res_step.
Qed.

Lemma getRowNumber_ok st t p g n c :
  any_tkey t p → INT_MIN ≤ g ≤ INT_MAX → meta_rep st (meta_key t p) c →
  INT_MIN ≤ counter_value c g ≤ INT_MAX →
  getRowNumberInfoAndSetRowNumberInfo st (key_info t p g n) =
    Ok (counter_value c g, key_info t p g (counter_value c g)).
Proof.
  intros Hk Hg Hm Hv. unfold getRowNumberInfoAndSetRowNumberInfo.
  destruct (key_info_meta t p g n Hk Hg) as [_ ->]. res_step. cbn [rowGroupId key_info].
  rewrite long_object by (by apply int_long).
  rewrite (lookupRowNumber_ok st _ c g Hm Hg); [by res_step|].
  intros c' v -> E. unfold counter_value in Hv. cbn in Hv. by rewrite E in Hv.
Qed.

(** ** The choice of the row group *)

Lemma wf_group_rows ncol g : (1 ≤ ncol)%nat → wf_group ncol g → 1 ≤ rows_of ncol g ≤ INT_MAX.
Proof.
  intros Hn (Hne & Hm & Hb & _). split; [|done]. unfold rows_of.
  pose proof (Nat.div_mod_eq (length g) ncol) as E. assert (length g ≠ 0)%nat by (by destruct g).
  destruct (decide (length g / ncol = 0)%nat) as [E0|]; [|lia]. rewrite E0 in E. lia.
Qed.

(** The counters of a table that exists. *)
Lemma table_counter T c i g :
  table_counters T c → t_groups T !! i = Some g →
  counter_value (Some c) (Z.of_nat i + 1) = rows_of (t_cols T) g.
Proof. intros [_ Hc] Hg. unfold counter_value. cbn. by rewrite Hc, Hg. Qed.

Lemma table_counter_0 T c :
  table_counters T c → counter_value (Some c) 0 = Z.of_nat (length (t_groups T)).
Proof. intros [Hc _]. unfold counter_value. cbn. by rewrite Hc. Qed.

(** The last part of [choose_rowgroup] when a new row group is started. *)
Lemma start_rowgroup st t p g n c :
  any_tkey t p → INT_MIN ≤ g ≤ INT_MAX → meta_rep st (meta_key t p) c → 0 ≤ counter_value c 0 < INT_MAX →
  ∃ o, ('(_, info, st) ← IncRowgroupIdAndModifyInfo cfg st (key_info t p g n) 1;
        dataKey ← generateDataKey info;
        Ok (dataKey, info, 0, st)) =
       Ok (data_key t p (counter_value c 0 + 1), key_info t p (counter_value c 0 + 1) n, 0,
           with_meta st (meta_key t p) o (st_dirty st + 1))
     ∧ counters o (<[0 := counter_value c 0 + 1]> (default ∅ c)).
Proof.
  intros Hk Hg Hm Hv. destruct (incRowgroup_ok st t p g n c Hk Hg Hm Hv) as (o & -> & Ho). res_step.
  rewrite key_info_data by (done || unfold INT_MIN, INT_MAX in *; lia). res_step. by exists o.
Qed.

(** Where a write to table [T] goes: the last row group, when it is only in memory
    and not full, else a new one. *)
Definition write_target st (T : table) (t : Z) (p : bytes) (c : gmap Z Z)
    (r : res (bytes * NewDataKeyInfo * Z * Z * state Store)) : Prop :=
  let G := Z.of_nat (length (t_groups T)) in
  (∃ g a d, last (t_groups T) = Some g ∧ dict (st_db st) !! data_key t p G = Some a ∧
     st_heap st !! a = Some (rg_entry (data_key t p G) LOCATION_REDIS_ONLY d) ∧
     rg_rep (t_cols T) (cvsz cfg) g d ∧ rows_of (t_cols T) g < rowgroup_size cfg ∧
     r = Ok (data_key t p G, key_info t p G (rows_of (t_cols T) g), rows_of (t_cols T) g, 0, st)) ∨
  (∃ n enroll o k, 0 ≤ enroll ∧ counters o (<[0 := G + 1]> c) ∧
     r = Ok (data_key t p (G + 1), key_info t p (G + 1) n, 0, enroll, with_meta st (meta_key t p) o k)).

Lemma choose_existing st tabs t p T c g0 n0 :
  Inv cfg st tabs → tabs !! (t, p) = Some T → Z.of_nat (length (t_groups T)) < INT_MAX →
  meta_rep st (meta_key t p) (Some c) → table_counters T c → INT_MIN ≤ g0 ≤ INT_MAX →
  write_target st T t p c (choose_rowgroup cfg st (key_info t p g0 n0)).
Proof.
  intros Hinv HT HG Hm Hc Hg0. destruct (inv_tables _ _ _ Hinv t p T HT) as [Hk (Hn & Hne & _ & Hgs)].
  destruct (t_groups T) as [|g' gs'] eqn:Egs using rev_ind; [done|]. clear IHgs'. rename g' into g, gs' into gs.
  unfold write_target. rewrite Egs. cbv zeta. set (G := Z.of_nat (length (gs ++ [g]))) in *.
  assert (HG1 : G = Z.of_nat (length gs) + 1) by (subst G; rewrite length_app; simpl; lia).
  assert (Hlook : t_groups T !! length gs = Some g) by (rewrite Egs; apply list_lookup_middle; done).
  assert (Hwg : wf_group (t_cols T) g) by (rewrite Forall_app, Forall_singleton in Hgs; tauto).
  pose proof (wf_group_rows (t_cols T) g ltac:(lia) Hwg) as Hrows.
  pose proof (table_counter_0 T c Hc) as Hc0. rewrite Egs in Hc0. fold G in Hc0.
  pose proof (table_counter T c _ _ Hc Hlook) as Hcg. rewrite <- HG1 in Hcg.
  set (rn := rows_of (t_cols T) g) in *.
  assert (Habs : dict (st_db st) !! data_key t p (G + 1) = None).
  { replace (G + 1) with (Z.of_nat (length (gs ++ [g])) + 1) by lia.
    apply (inv_absent _ _ _ Hinv); [done|]. intros T' HT'. rewrite HT in HT'. injection HT' as <-. by rewrite Egs. }
  assert (Hgrp : group_at tabs t p (length gs) (t_cols T) g) by (exists T; done).
  pose proof (inv_groups _ _ _ Hinv _ _ _ _ _ Hgrp) as Hloc. rewrite <- HG1 in Hloc. unfold group_loc in Hloc.
  apply wf_tkey_any in Hk. unfold choose_rowgroup, getRowgroupInfo.
  rewrite (getRowGroup_ok st t p g0 n0 (Some c) Hk Hg0 Hm).
  2:{ intros c' [= <-]. destruct Hc as [E _]. rewrite E, Egs. fold G. eexists. split; [done|].
      unfold INT_MIN. lia. }
  res_step. rewrite Hc0. destruct (Z.eqb_spec G 0); [lia|]. res_step.
  rewrite (getRowNumber_ok st t p G n0 (Some c) Hk) by (done || unfold INT_MIN in *; lia). res_step. rewrite Hcg.
  destruct (Z.eqb_spec rn 0); [lia|]. res_step.
  pose proof Hcfg as (HR & _).
  destruct (Z.leb_spec (rowgroup_size cfg) rn) as [Hfull|Hroom].
  - right. destruct (incRowgroup_ok st t p G rn (Some c) Hk) as (o & -> & Ho);
      [unfold INT_MIN in *; lia|done|lia|]. res_step. res_step. rewrite Hc0 in *. cbn [default] in Ho.
    rewrite key_info_data by (done || unfold INT_MIN, INT_MAX in *; lia). res_step.
    unfold dictFind. cbn [st_db with_meta dict]. rewrite Habs. cbn [Z.eqb negb andb]. res_step.
    replace (negb ((0 <? 0) || (rowgroup_size cfg <? 0))) with true by blia. cbn [assert]. res_step.
    eexists _, 1, o, _. split_and!; [lia|exact Ho|done].
  - res_step. rewrite key_info_data by (done || unfold INT_MIN, INT_MAX in *; lia). res_step.
    destruct (start_rowgroup st t p G rn (Some c) Hk ltac:(unfold INT_MIN in *; lia) Hm ltac:(lia)) as (o & Est & Ho).
    rewrite Hc0 in Est, Ho. cbn [default] in Ho. unfold dictFind.
    destruct (dict (st_db st) !! data_key t p G) as [a|] eqn:Ea.
    + destruct Hloc as (loc & d & Ha & Hisloc & Hrep & _). unfold entry_value, load. rewrite Ha.
      cbn [mbind res_bind deref de_val rg_entry location].
      destruct (Z.eqb_spec loc LOCATION_REDIS_ONLY) as [->|Hl]; cbn [negb andb Z.eqb].
      * left. exists g, a, d. rewrite last_snoc. res_step.
        replace (negb ((rn <? 0) || (rowgroup_size cfg <? rn))) with true by blia.
        split_and!; done || lia.
      * right. cbn [mbind res_bind] in Est. rewrite Est. res_step.
        replace (negb ((0 <? 0) || (rowgroup_size cfg <? 0))) with true by blia.
        eexists _, 0, o, _. split_and!; [lia|exact Ho|done].
    + right. destruct (Z.eqb_spec rn 0); [lia|]. cbn [negb andb Z.eqb].
      cbn [mbind res_bind] in Est |- *. rewrite Est. res_step.
      replace (negb ((0 <? 0) || (rowgroup_size cfg <? 0))) with true by blia.
      eexists _, 0, o, _. split_and!; [lia|exact Ho|done].
Qed.

Lemma choose_fresh st t p g0 n0 :
  any_tkey t p → meta_rep st (meta_key t p) None → dict (st_db st) !! data_key t p 1 = None → INT_MIN ≤ g0 ≤ INT_MAX →
  ∃ o k, counters o (<[1 := 0]> (<[0 := 1]> ∅)) ∧
    choose_rowgroup cfg st (key_info t p g0 n0) =
      Ok (data_key t p 1, key_info t p 1 0, 0, 0, with_meta st (meta_key t p) o k).
Proof.
  intros Hk Hm Habs Hg0.
  pose proof Hcfg as (HR & _).
  unfold choose_rowgroup, getRowgroupInfo. rewrite (getRowGroup_ok st t p g0 n0 None Hk Hg0 Hm) by done.
  res_step. change (counter_value None 0) with 0. cbn [Z.eqb].
  destruct (incRowgroup_ok st t p 0 n0 None Hk) as (o1 & -> & Ho1);
    [unfold INT_MIN, INT_MAX; lia|done|unfold counter_value, INT_MAX; cbn; lia|]. res_step.
  change (counter_value None 0 + 1) with 1 in *. cbn [default] in Ho1.
  pose proof (with_meta_rep st (meta_key t p) o1 (st_dirty st + 1) _ Ho1) as Hm1.
  assert (Hc1 : counter_value (Some (<[0 := 1]> (∅ : gmap Z Z))) 1 = 0) by done.
  rewrite (getRowNumber_ok _ t p 1 n0 (Some (<[0 := 1]> ∅)) Hk);
    [|unfold INT_MIN, INT_MAX; lia|done|rewrite Hc1; unfold INT_MIN, INT_MAX; lia].
  res_step. rewrite Hc1. cbn [Z.eqb].
  destruct (incRowNumber_ok (with_meta st (meta_key t p) o1 (st_dirty st + 1)) t p 1 0 (Some (<[0 := 1]> ∅)) 0 Hk)
    as (o2 & -> & Ho2); [unfold INT_MAX; lia|done|rewrite ?Hc1; unfold INT_MAX; lia..|].
  rewrite Hc1 in *. cbn [default] in Ho2. res_step. cbn [snd]. rewrite with_meta_twice. res_step.
  destruct (Z.leb_spec (rowgroup_size cfg) 0); [lia|]. res_step.
  rewrite key_info_data by (done || unfold INT_MIN, INT_MAX; lia). res_step.
  unfold dictFind. cbn [st_db with_meta dict]. rewrite Habs. cbn [Z.eqb negb andb]. res_step.
  replace (negb ((0 <? 0) || (rowgroup_size cfg <? 0))) with true by blia.
  eexists o2, _. split; [exact Ho2|done].
Qed.

Lemma choose_new st tabs t p g0 n0 :
  Inv cfg st tabs → tabs !! (t, p) = None → wf_tkey t p → INT_MIN ≤ g0 ≤ INT_MAX →
  ∃ o k, counters o (<[1 := 0]> (<[0 := 1]> ∅)) ∧
    choose_rowgroup cfg st (key_info t p g0 n0) =
      Ok (data_key t p 1, key_info t p 1 0, 0, 0, with_meta st (meta_key t p) o k).
Proof.
  intros Hinv HT Hk Hg0. pose proof (inv_meta _ _ _ Hinv t p Hk) as Hm. rewrite HT in Hm.
  apply choose_fresh; [by apply wf_tkey_any|done| |done].
  apply (inv_absent _ _ _ Hinv t p 0 Hk). intros T' HT'. congruence.
Qed.

(** ** The invariant after a write *)

(** Metadict after the counters of table [(t, p)] changed. *)
Lemma inv_meta_update st tabs t p T o k c :
  Inv cfg st tabs → wf_tkey t p → counters o c → table_counters T c →
  ∀ st', Metadict (st_db st') = Metadict (st_db (with_meta st (meta_key t p) o k)) →
  ∀ t0 p0, wf_tkey t0 p0 →
    match <[(t, p) := T]> tabs !! (t0, p0) with
    | None => meta_rep st' (meta_key t0 p0) None
    | Some T => ∃ c, meta_rep st' (meta_key t0 p0) (Some c) ∧ table_counters T c
    end.
Proof.
  intros Hinv Hk Ho Hc st' E t0 p0 Hk0. unfold meta_rep. rewrite E. cbn [Metadict st_db with_meta].
  destruct (decide ((t0, p0) = (t, p))) as [[= -> ->]|Hne].
  - rewrite lookup_insert_eq. exists c. by rewrite lookup_insert_eq.
  - rewrite lookup_insert_ne by congruence.
    rewrite lookup_insert_ne by (intros [? ?]%meta_key_inj; [congruence|done|done]).
    exact (inv_meta _ _ _ Hinv t0 p0 Hk0).
Qed.

(** Table [(t, p)] after the values [xs] were added to its last row group [g]. *)
Section append.
  Context (tabs : tables) (t : Z) (p : bytes) (cols : nat) (gs : list (list bytes)) (g xs : list bytes).
  Context (HT : tabs !! (t, p) = Some (mkTable cols (gs ++ [g]))).
Let key := data_key t p (Z.of_nat (length gs) + 1).
Let T' := mkTable cols (gs ++ [g ++ xs]).
Let tabs' := <[(t, p) := T']> tabs.

Lemma group_at_append_old t0 p0 i ncol g0 :
  group_at tabs' t0 p0 i ncol g0 → data_key t0 p0 (Z.of_nat i + 1) ≠ key → group_at tabs t0 p0 i ncol g0.
Proof.
  intros [(-> & -> & Hi & <-)|[_ Hg0]]%group_at_insert Hne; [|done].
  exists (mkTable cols (gs ++ [g])). split_and!; [done| |done]. cbn [t_groups T'] in *.
  destruct (decide (i = length gs)) as [->|Hi']; [done|].
  destruct (Nat.lt_ge_cases i (length gs)); [by rewrite !lookup_app_l in * by done|].
  rewrite lookup_ge_None_2 in Hi; [done|]. rewrite length_app. simpl. lia.
Qed.

Lemma group_at_append_mono t0 p0 i ncol g0 :
  group_at tabs t0 p0 i ncol g0 → ∃ g', group_at tabs' t0 p0 i ncol g'.
Proof.
  intros Hg0. unfold tabs'. setoid_rewrite group_at_insert.
  destruct (decide ((t0, p0) = (t, p))) as [[= -> ->]|Hne]; [|eauto].
  destruct Hg0 as (T0 & HT0 & Hi & <-). rewrite HT in HT0. injection HT0 as <-.
  apply lookup_lt_Some in Hi. cbn in Hi |- *.
  destruct (lookup_lt_is_Some_2 (gs ++ [g ++ xs]) i) as [g' Hg']; [rewrite length_app in *; done|].
  exists g'. left. done.
Qed.

Context (st : state Store) (Hinv : Inv cfg st tabs) (a : addr) (d d' : relation).
Context (Ha : dict (st_db st) !! key = Some a).
Context (Hha : st_heap st !! a = Some (rg_entry key LOCATION_REDIS_ONLY d)).
Let h' := <[a := rg_entry key LOCATION_REDIS_ONLY d']> (st_heap st).

Lemma entry_at_append b loc :
  entry_at (st_heap st) (dict (st_db st)) tabs b loc → entry_at h' (dict (st_db st)) tabs' b loc.
Proof.
  intros Hb. apply (entry_at_frame _ _ _ _ _ _ _ _ Hb); [done| |intros *; apply group_at_append_mono].
  intros k' d0 E. unfold h'. destruct (decide (b = a)) as [->|Hne].
  - rewrite Hha in E. injection E as <- <- <-. exists d'. by rewrite lookup_insert_eq.
  - exists d0. by rewrite lookup_insert_ne.
Qed.

Lemma tier_append le lf lj o n k :
  tier_inv cfg st tabs le lf lj →
  tier_inv cfg (with_meta (with_heap st h' n) (meta_key t p) o k) tabs' le lf lj.
Proof.
  intros []. split; try done; cbn.
  - eapply jobs_frame; [|done]. eapply Forall_impl; [done|]. intros b Hb Hp t0 p0 i ncol g0 Hg0 Hd0.
    apply Hp; [|done]. apply group_at_append_old; [done|]. intros E.
    rewrite E in Hd0. rewrite Ha in Hd0. injection Hd0 as <-.
    destruct Hb as (? & ? & ? & ? & ? & ? & _ & _ & Eb). rewrite Hha in Eb. by injection Eb.
  - eapply Forall_impl; [done|]. intros b. apply entry_at_append.
  - eapply Forall_impl; [done|]. intros b [Hb|Hb]; [left|right]; by apply entry_at_append.
  - eapply Forall_impl; [done|]. intros b. apply entry_at_append.
  - intros k0 b d0 Hk0. unfold h'. intros [[_ E]|[_ E]]%lookup_insert_Some; [done|by eapply ti_flush].
Qed.

Lemma inv_append o n k c :
  rg_rep cols (cvsz cfg) (g ++ xs) d' → wf_table T' → counters o c → table_counters T' c →
  Inv cfg (with_meta (with_heap st h' n) (meta_key t p) o k) tabs'.
Proof.
  intros Hrep HT' Ho Hc. destruct (inv_tables _ _ _ Hinv t p _ HT) as [Hk _].
  split.
  - intros t0 p0 T0 [[[= -> ->] <-]|[_ HT0]]%lookup_insert_Some; [done|]. by apply (inv_tables _ _ _ Hinv).
  - apply (inv_meta_update st tabs t p T' o k c Hinv Hk Ho Hc). done.
  - intros t0 p0 i ncol g0 Hg0. cbn [st_heap st_db with_meta with_heap dict persistent_store].
    destruct (decide (data_key t0 p0 (Z.of_nat i + 1) = key)) as [E|Hne].
    + rewrite E. unfold group_loc. rewrite Ha. exists LOCATION_REDIS_ONLY, d'.
      unfold h'. rewrite lookup_insert_eq. split; [done|]. split; [by left|]. split; [|done].
      assert (Hk0 : wf_tkey t0 p0).
      { apply group_at_insert in Hg0 as [(-> & -> & _)|[_ Hg0]]; [done|]. by eapply group_at_wf. }
      destruct (group_key_inj _ _ _ _ _ _ Hk0 Hk E) as (-> & -> & ->).
      apply group_at_insert in Hg0 as [(_ & _ & Hi & <-)|[Hne _]]; [|done].
      cbn in Hi. rewrite list_lookup_middle in Hi by done. by injection Hi as <-.
    + eapply group_loc_frame; [done| |by apply (inv_groups _ _ _ Hinv), group_at_append_old].
      intros b Hb. unfold h'. rewrite lookup_insert_ne; [done|]. intros <-. apply Hne. by eapply inv_entry_key.
  - intros t0 p0 i Hk0 Hlen. apply (inv_absent _ _ _ Hinv t0 p0 i Hk0). intros T0 HT0.
    unfold tabs' in Hlen. destruct (decide ((t0, p0) = (t, p))) as [[= -> ->]|Hne].
    + rewrite HT in HT0. injection HT0 as <-. specialize (Hlen T'). rewrite lookup_insert_eq in Hlen.
      specialize (Hlen eq_refl). cbn in *. rewrite length_app in *. done.
    + apply Hlen. by rewrite lookup_insert_ne by congruence.
  - exact (inv_expires _ _ _ Hinv).
  - intros k' b Hb. cbn. unfold h'. destruct (decide (b = a)) as [->|Hne].
    + rewrite lookup_insert_eq. eexists. split; [done|]. cbn. eapply inv_entry_key; [done|exact Ha|exact Hb].
    + rewrite lookup_insert_ne by done. by apply (inv_heap _ _ _ Hinv).
  - intros b. cbn. unfold h'. destruct (decide (b = a)) as [->|Hne].
    + intros _. apply (inv_next _ _ _ Hinv). by eexists.
    + rewrite lookup_insert_ne by done. apply (inv_next _ _ _ Hinv).
  - destruct (inv_tier _ _ _ Hinv) as (le & lf & lj & Ht). exists le, lf, lj. by apply tier_append.
  - intros t0 p0 T0 [[_ <-]|[_ HT0]]%lookup_insert_Some; [|by apply (inv_count _ _ _ Hinv t0 p0)].
    pose proof (inv_count _ _ _ Hinv t p _ HT) as E. cbn in *. by rewrite length_app in *.
  - exact (inv_room _ _ _ Hinv).
  - exact (inv_queues _ _ _ Hinv).
Qed.
End append.

(** The table with one more row group. *)
Definition add_group (oT : option table) (cols : nat) (xs : list bytes) : table :=
  mkTable cols (match oT with Some T => t_groups T | None => [] end ++ [xs]).

(** The state after a new row group was written. *)
Definition with_group st (key : bytes) (d : relation) (n : Z) (mk : bytes) (o : hashobj) (k : Z) (q : Queue)
    : state Store :=
  let st1 := with_meta (with_entry st key (rg_entry key LOCATION_REDIS_ONLY d) n) mk o k in
  set_queues st1 q (FreeQueue (st_db st1)).

Section new_group.
  Context (tabs : tables) (t : Z) (p : bytes) (cols : nat) (xs : list bytes).
  Context (Hcols : ∀ T, tabs !! (t, p) = Some T → t_cols T = cols).
Let T' := add_group (tabs !! (t, p)) cols xs.
Let tabs' := <[(t, p) := T']> tabs.
Let key := data_key t p (Z.of_nat (length (t_groups T'))).
Let gs := match tabs !! (t, p) with Some T => t_groups T | None => [] end.

Lemma new_key : key = data_key t p (Z.of_nat (length gs) + 1).
Proof.
  unfold key, T', add_group. cbn [t_groups]. fold gs. rewrite length_app. simpl. f_equal. lia.
Qed.

Lemma group_at_new_old t0 p0 i ncol g0 :
  group_at tabs' t0 p0 i ncol g0 → data_key t0 p0 (Z.of_nat i + 1) ≠ key → group_at tabs t0 p0 i ncol g0.
Proof.
  intros [(-> & -> & Hi & <-)|[_ Hg0]]%group_at_insert Hne; [|done].
  cbn [t_groups t_cols T' add_group] in *. fold gs in Hi.
  destruct (Nat.lt_ge_cases i (length gs)) as [Hlt|Hge].
  - rewrite lookup_app_l in Hi by done. subst gs. destruct (tabs !! (t, p)) as [T|] eqn:ET; [|done].
    exists T. split_and!; [done|done|by apply Hcols].
  - destruct (decide (i = length gs)) as [->|]; [by rewrite new_key in Hne|].
    rewrite lookup_ge_None_2 in Hi; [done|]. rewrite length_app. simpl. lia.
Qed.

Lemma group_at_new_mono t0 p0 i ncol g0 :
  group_at tabs t0 p0 i ncol g0 → ∃ g', group_at tabs' t0 p0 i ncol g'.
Proof.
  intros Hg0. unfold tabs'. setoid_rewrite group_at_insert.
  destruct (decide ((t0, p0) = (t, p))) as [[= -> ->]|Hne]; [|eauto].
  destruct Hg0 as (T0 & HT0 & Hi & <-). exists g0. left. cbn. rewrite HT0. split_and!; [done|done| |].
  - by apply lookup_app_l_Some.
  - symmetry. by apply Hcols.
Qed.

Lemma group_at_new : group_at tabs' t p (length gs) cols xs.
Proof. apply group_at_insert. left. split_and!; try done. cbn. fold gs. by apply list_lookup_middle. Qed.

Context (st : state Store) (Hinv : Inv cfg st tabs) (d : relation) (Hk : wf_tkey t p).
Let a := st_next st.
Let h' := <[a := rg_entry key LOCATION_REDIS_ONLY d]> (st_heap st).
Let dk' := <[key := a]> (dict (st_db st)).

Lemma new_live k' b : dict (st_db st) !! k' = Some b → b ≠ a.
Proof.
  intros Hb ->. destruct (inv_heap _ _ _ Hinv _ _ Hb) as (e & E & _).
  pose proof (inv_next _ _ _ Hinv a ltac:(by eexists)). subst a. lia.
Qed.

Lemma new_absent : dict (st_db st) !! key = None.
Proof.
  rewrite new_key. apply (inv_absent _ _ _ Hinv); [done|]. intros T HT. subst gs. rewrite HT. done.
Qed.

Lemma entry_at_new b loc :
  entry_at (st_heap st) (dict (st_db st)) tabs b loc → entry_at h' dk' tabs' b loc.
Proof.
  intros Hb. pose proof Hb as (t0 & p0 & i & ncol & g & d0 & _ & Hd & _). pose proof (new_live _ _ Hd).
  apply (entry_at_frame _ _ _ _ _ _ _ _ Hb); [| |intros *; apply group_at_new_mono].
  - intros k' Hk'. unfold dk'. rewrite lookup_insert_ne; [done|]. pose proof new_absent. congruence.
  - intros k' d1 E. exists d1. unfold h'. by rewrite lookup_insert_ne.
Qed.

Lemma tier_new_group le lf lj n o k q le' :
  tier_inv cfg st tabs le lf lj → queue_elems q (le' ++ [a]) → le' `prefix_of` le →
  tier_inv cfg (with_group st key d n (meta_key t p) o k q) tabs' (le' ++ [a]) lf lj.
Proof.
  intros Ht Hq' [z ->]. destruct Ht. apply Forall_app in ti_evict_loc as [He _].
  apply NoDup_app in ti_evict_nodup as (Hnd & _).
  split; try done; cbn.
  - eapply jobs_frame; [|done]. eapply Forall_impl; [done|]. intros b Hb Hp t0 p0 i ncol g0 Hg0 Hd0.
    assert (Hba : b ≠ a). { destruct Hb as (? & ? & ? & ? & ? & ? & _ & Hd & _). by eapply new_live. }
    apply lookup_insert_Some in Hd0 as [[_ E0]|[Hne Hd0]]; [by destruct Hba|].
    apply Hp; [|done]. by apply group_at_new_old.
  - apply Forall_app. split; [eapply Forall_impl; [done|]; intros b; apply entry_at_new|].
    apply Forall_singleton. exists t, p, (length gs), cols, xs, d. split; [apply group_at_new|].
    rewrite <- new_key, !lookup_insert_eq. done.
  - eapply Forall_impl; [done|]. intros b [Hb|Hb]; [left|right]; by apply entry_at_new.
  - eapply Forall_impl; [done|]. intros b. apply entry_at_new.
  - apply NoDup_app. split_and!; [done| |apply NoDup_singleton].
    intros b Hb ->%list_elem_of_singleton. rewrite Forall_forall in He.
    destruct (He _ Hb) as (? & ? & ? & ? & ? & ? & _ & Hd & _). by apply (new_live _ _ Hd).
  - intros k0 b d0 [[_ E0]|[_ Hk0]]%lookup_insert_Some [[_ E]|[Hne E]]%lookup_insert_Some; [done|done|done|].
    by eapply ti_flush.
Qed.

(** The new entry is queued for eviction. *)
Lemma new_enqueue : ∃ q, enqueue (EvictQueue (st_db st)) (Some a) = Ok (1, q) ∧ queue_bound st q ∧
  ∀ n o k, ∃ le lf lj, tier_inv cfg (with_group st key d n (meta_key t p) o k q) tabs' le lf lj.
Proof.
  destruct (inv_tier _ _ _ Hinv) as (le & lf & lj & Ht).
  destruct (enqueue_bound cfg st tabs (EvictQueue (st_db st)) le a Hinv) as (q & le' & E & Hq & Hpre & Hb);
    [apply (inv_queues _ _ _ Hinv)|by destruct Ht..| |].
  - destruct Ht. eapply Forall_impl; [done|]. intros b. by apply (entry_at_next cfg).
  - exists q. split; [done|]. split; [done|]. intros n o k. exists (le' ++ [a]), lf, lj. by apply (tier_new_group le).
Qed.

Lemma new_group_loc t0 p0 i ncol g0 :
  rg_rep cols (cvsz cfg) xs d → group_at tabs' t0 p0 i ncol g0 →
  group_loc cfg h' dk' (persistent_store (st_db st)) (data_key t0 p0 (Z.of_nat i + 1)) ncol g0.
Proof.
  intros Hrep Hg0. destruct (decide (data_key t0 p0 (Z.of_nat i + 1) = key)) as [E|Hne].
  - rewrite E. unfold group_loc, h', dk'. rewrite lookup_insert_eq. exists LOCATION_REDIS_ONLY, d.
    rewrite lookup_insert_eq. split; [done|]. split; [by left|]. split; [|done].
    assert (Hk0 : wf_tkey t0 p0).
    { apply group_at_insert in Hg0 as [(-> & -> & _)|[_ Hg0]]; [done|]. by eapply group_at_wf. }
    rewrite new_key in E. destruct (group_key_inj _ _ _ _ _ _ Hk0 Hk E) as (-> & -> & ->).
    destruct Hg0 as (T0 & HT0 & Hi & <-), group_at_new as (T1 & HT1 & Hi1 & Hc1).
    rewrite HT0 in HT1. injection HT1 as ->. rewrite Hi in Hi1. injection Hi1 as ->. by rewrite Hc1.
  - eapply group_loc_frame; [by apply lookup_insert_ne| |by apply (inv_groups _ _ _ Hinv), group_at_new_old].
    intros b Hb. unfold h'. rewrite lookup_insert_ne; [done|]. intros <-. by apply (new_live _ _ Hb).
Qed.

Lemma new_group_absent t0 p0 (i : nat) :
  wf_tkey t0 p0 → (∀ T, tabs' !! (t0, p0) = Some T → (length (t_groups T) ≤ i)%nat) →
  dk' !! data_key t0 p0 (Z.of_nat i + 1) = None.
Proof.
  intros Hk0 Hlen. unfold dk', tabs' in *. rewrite lookup_insert_ne.
  - apply (inv_absent _ _ _ Hinv t0 p0 i Hk0). intros T0 HT0.
    destruct (decide ((t0, p0) = (t, p))) as [[= -> ->]|Hne].
    + specialize (Hlen T'). rewrite lookup_insert_eq in Hlen. specialize (Hlen eq_refl).
      cbn in Hlen. rewrite HT0, length_app in Hlen. lia.
    + apply Hlen. by rewrite lookup_insert_ne by congruence.
  - rewrite new_key. intros E. destruct (group_key_inj _ _ _ _ _ _ Hk Hk0 E) as (-> & -> & <-).
    specialize (Hlen T'). rewrite lookup_insert_eq in Hlen. specialize (Hlen eq_refl).
    cbn in Hlen. fold gs in Hlen. rewrite length_app in Hlen. simpl in Hlen. lia.
Qed.

Lemma inv_new_group o n k c :
  Z.pos (st_next st) < MAX_ENTRIES →
  rg_rep cols (cvsz cfg) xs d → wf_table T' → counters o c → table_counters T' c →
  ∃ q, enqueue (EvictQueue (st_db st)) (Some a) = Ok (1, q) ∧
       Inv cfg (with_group st key d n (meta_key t p) o k q) tabs'.
Proof.
  intros Hmax Hrep HT' Ho Hc. destruct new_enqueue as (q & Eq & Hb & Htier).
  exists q. split; [done|]. split.
  - intros t0 p0 T0 [[[= -> ->] <-]|[_ HT0]]%lookup_insert_Some; [done|]. by apply (inv_tables _ _ _ Hinv).
  - apply (inv_meta_update st tabs t p T' o k c Hinv Hk Ho Hc). done.
  - intros t0 p0 i ncol g0 Hg0. by apply new_group_loc.
  - intros t0 p0 i Hk0 Hlen. by apply new_group_absent.
  - exact (inv_expires _ _ _ Hinv).
  - intros k' b. cbn. intros [[<- <-]|[Hne Hkb]]%lookup_insert_Some.
    + rewrite lookup_insert_eq. by eexists.
    + rewrite lookup_insert_ne by (intros E; by apply (new_live _ _ Hkb)). by apply (inv_heap _ _ _ Hinv).
  - intros b. cbn. fold a. destruct (decide (b = a)) as [->|Hne]; [lia|].
    rewrite lookup_insert_ne by done. intros Hh%(inv_next _ _ _ Hinv). subst a. lia.
  - apply Htier.
  - intros t0 p0 T0 HT0. cbn [st_next with_group with_meta with_entry set_queues set_db].
    apply lookup_insert_Some in HT0 as [[_ <-]|[_ HT0]].
    + unfold T', add_group. cbn [t_groups]. fold gs. rewrite length_app. simpl length.
      assert (Z.of_nat (length gs) < Z.pos (st_next st)); [|lia]. subst gs.
      destruct (tabs !! (t, p)) as [T|] eqn:ET; [by apply (inv_count _ _ _ Hinv t p)|simpl; lia].
    + pose proof (inv_count _ _ _ Hinv t0 p0 T0 HT0). lia.
  - cbn. lia.
  - destruct (inv_queues _ _ _ Hinv) as [_ Hf]. unfold queue_bound in *. cbn. split; lia.
Qed.
End new_group.

(** ** The command *)

(** Whole rows of plain values. *)
Definition wf_rows (ncol : nat) (xs : list bytes) : Prop :=
  xs ≠ [] ∧ (length xs mod ncol = 0)%nat ∧ Forall wf_value xs ∧ Forall plain xs ∧
  rowgroup_size cfg + rows_of ncol xs ≤ INT_MAX.

Lemma rows_exact ncol (xs : list bytes) :
  (1 ≤ ncol)%nat → (length xs mod ncol = 0)%nat →
  rows_of ncol xs * Z.of_nat ncol = Z.of_nat (length xs) ∧
  cdiv (Z.of_nat (length xs)) (Z.of_nat ncol) = Ok (rows_of ncol xs).
Proof.
  intros Hn Hm. unfold rows_of. pose proof (Nat.div_mod_eq (length xs) ncol) as E. split; [nia|].
  unfold cdiv. destruct (Z.eqb_spec (Z.of_nat ncol) 0); [lia|].
  by rewrite Z.quot_div_nonneg, Nat2Z.inj_div by lia.
Qed.

Lemma rows_app ncol g xs :
  (1 ≤ ncol)%nat → (length g mod ncol = 0)%nat → (length xs mod ncol = 0)%nat →
  rows_of ncol (g ++ xs) = rows_of ncol g + rows_of ncol xs ∧ (length (g ++ xs) mod ncol = 0)%nat.
Proof.
  intros Hn Hg Hx. apply Nat.Div0.mod_divides in Hg as [a Ea], Hx as [b Eb].
  unfold rows_of. rewrite length_app, Ea, Eb, <- Nat.mul_add_distr_l.
  rewrite !(Nat.mul_comm ncol), !Nat.div_mul, Nat.Div0.mod_mul by lia. split; [lia|done].
Qed.

Lemma wf_group_new ncol xs : (1 ≤ ncol)%nat → wf_rows ncol xs → wf_group ncol xs.
Proof.
  intros Hn (Hne & Hm & Hv & _ & Hb). pose proof Hcfg as (HR & _). split_and!; try done. lia.
Qed.

(** Rows added to the last row group. *)
Lemma write_rows_append st tabs t p cols gs g xs a d c :
  Inv cfg st tabs → tabs !! (t, p) = Some (mkTable cols (gs ++ [g])) → wf_rows cols xs →
  let G := Z.of_nat (length gs) + 1 in
  let T' := mkTable cols (gs ++ [g ++ xs]) in
  dict (st_db st) !! data_key t p G = Some a →
  st_heap st !! a = Some (rg_entry (data_key t p G) LOCATION_REDIS_ONLY d) →
  rg_rep cols (cvsz cfg) g d → rows_of cols g < rowgroup_size cfg →
  meta_rep st (meta_key t p) (Some c) → table_counters (mkTable cols (gs ++ [g])) c →
  ∃ st', write_rows cfg st (data_key t p G) (key_info t p G (rows_of cols g)) (rows_of cols g)
           (Z.of_nat cols) 0 (Z.of_nat (length xs)) xs = Ok st'
         ∧ Inv cfg st' (<[(t, p) := T']> tabs) ∧ (st_next st' ≤ Pos.succ (st_next st))%positive.
Proof.
  intros Hinv HT Hxs G T' Ha Hha Hrep Hroom Hm Hc.
  destruct (inv_tables _ _ _ Hinv t p _ HT) as [Hk (Hn & _ & Hlen & Hgs)]. cbn [t_cols t_groups] in *.
  rewrite Forall_app, Forall_singleton in Hgs. destruct Hgs as [Hgs (Hgne & Hgm & Hgb & Hgv)].
  pose proof (wf_group_new cols xs ltac:(lia) Hxs) as Hwx.
  destruct Hxs as (Hxne & Hxm & Hxv & Hxp & Hxb). unfold write_rows.
  destruct (rows_exact cols g ltac:(lia) Hgm) as [Eg _].
  destruct (rows_exact cols xs ltac:(lia) Hxm) as [Ex Ediv].
  assert (Hrg : 0 ≤ rows_of cols g) by (unfold rows_of; lia).
  assert (Hrx : 0 ≤ rows_of cols xs) by (unfold rows_of; lia).
  destruct (write_loop_existing cols (data_key t p G) LOCATION_REDIS_ONLY (rows_of cols g) 0 xs st a d g 0)
    as (d' & n & -> & Hrep'); try done; try lia.
  { rewrite Nat2Z.inj_add, <- Eg, <- Ex, <- Z.mul_add_distr_r, Z.mul_comm. apply Z.mul_le_mono_nonneg_l; lia. }
  { apply (inv_expires _ _ _ Hinv). done. }
  res_step. rewrite Ediv. res_step.
  rewrite (to_int_id (rows_of cols xs)) by (unfold INT_MIN; lia).
  assert (Hcv : counter_value (Some c) G = rows_of cols g).
  { apply (table_counter (mkTable cols (gs ++ [g])) c (length gs) g Hc). cbn. by apply list_lookup_middle. }
  rewrite length_app in Hlen. simpl in Hlen.
  destruct (incRowNumber_ok (with_heap st (<[a := rg_entry (data_key t p G) LOCATION_REDIS_ONLY d']> (st_heap st)) n)
    t p G (rows_of cols g) (Some c) (rows_of cols xs) (wf_tkey_any _ _ Hk)) as (o & -> & Ho); [lia|done|lia..|].
  res_step. cbn [Z.eqb negb]. eexists. split; [done|]. rewrite Hcv in Ho. change (default ∅ (Some c)) with c in Ho.
  destruct (rows_app cols g xs ltac:(lia) Hgm Hxm) as [Er Em].
  split; [|cbn; lia]. eapply inv_append; try done.
  - split_and!; cbn; [lia|lia|by destruct gs|rewrite length_app; simpl; lia|].
    apply Forall_app. split; [done|]. apply Forall_singleton. split_and!; [by destruct g|done|lia|].
    by apply Forall_app.
  - destruct Hc as [Hc0 Hci]. split.
    + rewrite lookup_insert_ne by lia. rewrite Hc0. cbn. by rewrite !length_app.
    + intros i. cbn [t_cols t_groups T']. destruct (decide (i = length gs)) as [->|Hne].
      * fold G. rewrite lookup_insert_eq, list_lookup_middle by done. cbn. by rewrite Er.
      * rewrite lookup_insert_ne by lia. rewrite Hci. cbn. f_equal.
        destruct (Nat.lt_ge_cases i (length gs)); [by rewrite !lookup_app_l by done|].
        rewrite !lookup_ge_None_2; [done|rewrite length_app; simpl; lia..].
Qed.

(** Rows written as a new row group; [c] are the counters after its id was taken. *)
Lemma write_rows_new st tabs t p cols xs o k c n enroll :
  Inv cfg st tabs → wf_tkey t p → (1 ≤ cols ≤ 100)%nat →
  (∀ T, tabs !! (t, p) = Some T → t_cols T = cols) → wf_rows cols xs → 0 ≤ enroll →
  let T' := add_group (tabs !! (t, p)) cols xs in
  let G := Z.of_nat (length (t_groups T')) in
  G ≤ INT_MAX → Z.pos (st_next st) < MAX_ENTRIES →
  counters o c → counter_value (Some c) G = 0 → table_counters T' (<[G := rows_of cols xs]> c) →
  ∃ st', write_rows cfg (with_meta st (meta_key t p) o k) (data_key t p G) (key_info t p G n) 0
           (Z.of_nat cols) enroll (Z.of_nat (length xs)) xs = Ok st'
         ∧ Inv cfg st' (<[(t, p) := T']> tabs) ∧ (st_next st' ≤ Pos.succ (st_next st))%positive.
Proof.
  intros Hinv Hk Hn Hcols Hxs Hen T' G HG Hmax Ho Hcv Hc.
  pose proof (wf_group_new cols xs ltac:(lia) Hxs) as Hwx.
  assert (HG1 : 1 ≤ G). { subst G T'. unfold add_group. cbn. rewrite length_app. simpl. lia. }
  assert (Hdk : dict (st_db st) !! data_key t p G = None).
  { replace G with (Z.of_nat (length (t_groups T') - 1) + 1) by lia.
    apply (inv_absent _ _ _ Hinv); [done|]. intros T HT. subst T'. unfold add_group. rewrite HT. cbn.
    rewrite length_app. simpl. lia. }
  pose proof Hxs as (Hxne & Hxm & Hxv & Hxp & Hxb). pose proof Hcfg as (HR & _). unfold write_rows.
  destruct (rows_exact cols xs ltac:(lia) Hxm) as [Ex Ediv].
  assert (Hrx : 0 ≤ rows_of cols xs) by (unfold rows_of; lia).
  destruct (write_loop_new cols (with_meta st (meta_key t p) o k) (data_key t p G) enroll xs)
    as (d & m & -> & Hrep); try done.
  { rewrite <- Ex, Z.mul_comm. apply Z.mul_le_mono_nonneg_l; lia. }
  { apply (inv_expires _ _ _ Hinv). done. }
  res_step. rewrite Ediv. res_step. rewrite (to_int_id (rows_of cols xs)) by (unfold INT_MIN; lia).
  set (st2 := with_entry (with_meta st (meta_key t p) o k) (data_key t p G)
    (rg_entry (data_key t p G) LOCATION_REDIS_ONLY d) m).
  assert (Hm2 : meta_rep st2 (meta_key t p) (Some c)).
  { unfold meta_rep. cbn. by rewrite lookup_insert_eq. }
  destruct (incRowNumber_ok st2 t p G n (Some c) (rows_of cols xs) (wf_tkey_any _ _ Hk)) as (o2 & -> & Ho2); [lia|done|lia..|].
  res_step. destruct (Z.eqb_spec (enroll + 1) 0); [lia|]. cbn [negb].
  rewrite Hcv in Ho2. change (default ∅ (Some c)) with c in Ho2. rewrite Z.add_0_l in Ho2.
  destruct (inv_new_group tabs t p cols xs Hcols st Hinv d Hk o2 m (st_dirty st2 + 1) (<[G := rows_of cols xs]> c))
    as (q & E & Hinv'); [done|done| |done|done|].
  { split_and!; cbn; [lia|lia|by intros [_ ?]%app_eq_nil|exact HG|].
    apply Forall_app. split; [|by apply Forall_singleton].
    destruct (tabs !! (t, p)) as [T|] eqn:ET; [|constructor].
    destruct (inv_tables _ _ _ Hinv t p T ET) as [_ (_ & _ & _ & Hgs)]. by rewrite <- (Hcols T eq_refl). }
  unfold dictFind. cbn [st2 st_db with_meta with_entry dict EvictQueue st_next].
  rewrite lookup_insert_eq, E. res_step. cbn [Z.eqb Pos.eqb negb assert]. res_step. eexists. split; [done|].
  split; [|cbn; lia]. match goal with |- Inv _ ?s _ =>
    replace s with (with_group st (data_key t p G) d m (meta_key t p) o2 (st_dirty st2 + 1) q); [done|] end.
  unfold with_group, set_queues, set_db, with_meta, with_entry, st2. cbn. by rewrite insert_insert_eq.
Qed.

(** The arguments of a write of the values [xs] to table [(t, p)]. *)
Definition write_args (argv : list bytes) (t : Z) (p : bytes) (ncol : nat) (xs : list bytes) : Prop :=
  ∃ cmd key part cols idx info, argv = cmd :: key :: part :: cols :: idx :: xs ∧
    parsingDataKeyInfo key = Ok (Some info) ∧ tableId info = t ∧
    partitionInfo info = PartitionString p ∧ atoi cols = Z.of_nat ncol.

(** All values of a table, row by row. *)
Definition contents (tabs : tables) (t : Z) (p : bytes) : list bytes :=
  match tabs !! (t, p) with Some T => concat (t_groups T) | None => [] end.

(** When a write is expected to succeed: the rows are whole and plain, fit the
    table, and another row group may be created. *)
Definition can_write st (tabs : tables) (t : Z) (p : bytes) (ncol : nat) (xs : list bytes) : Prop :=
  wf_tkey t p ∧ (1 ≤ ncol ≤ 100)%nat ∧ wf_rows ncol xs ∧
  (∀ T, tabs !! (t, p) = Some T → t_cols T = ncol) ∧ Z.pos (st_next st) < MAX_ENTRIES.

Lemma table_counters_add T cols xs c :
  t_cols T = cols → table_counters T c →
  let G := Z.of_nat (length (t_groups T)) in
  counter_value (Some (<[0 := G + 1]> c)) (G + 1) = 0 ∧
  table_counters (add_group (Some T) cols xs) (<[G + 1 := rows_of cols xs]> (<[0 := G + 1]> c)).
Proof.
  intros <- [Hc0 Hci] G. split.
  - unfold counter_value. cbn. rewrite lookup_insert_ne by lia. unfold G. rewrite Hci.
    by rewrite lookup_ge_None_2 by lia.
  - split; cbn.
    + rewrite lookup_insert_ne, lookup_insert_eq by lia. rewrite length_app. simpl. f_equal. lia.
    + intros i. destruct (decide (i = length (t_groups T))) as [->|Hne].
      * fold G. rewrite lookup_insert_eq, list_lookup_middle by done. done.
      * rewrite !lookup_insert_ne by lia. rewrite Hci. f_equal.
        destruct (Nat.lt_ge_cases i (length (t_groups T))); [by rewrite lookup_app_l by done|].
        rewrite !lookup_ge_None_2; [done|rewrite ?length_app; simpl; lia..].
Qed.

(** The part of the command after the checks. *)
Lemma write_body_ok st tabs t p ncol xs g0 n0 :
  Inv cfg st tabs → can_write st tabs t p ncol xs → INT_MIN ≤ g0 ≤ INT_MAX →
  ∃ st' T', ('(dataKey, info, row_number, enroll, st) ← choose_rowgroup cfg st (key_info t p g0 n0);
             write_rows cfg st dataKey info row_number (Z.of_nat ncol) enroll (Z.of_nat (length xs)) xs) = Ok st'
    ∧ Inv cfg st' (<[(t, p) := T']> tabs) ∧ concat (t_groups T') = contents tabs t p ++ xs ∧ t_cols T' = ncol
    ∧ (st_next st' ≤ Pos.succ (st_next st))%positive.
Proof.
  intros Hinv (Hk & Hn & Hxs & HT & Hmax) Hg0. unfold contents.
  destruct (tabs !! (t, p)) as [T|] eqn:ET.
  - pose proof (HT T eq_refl) as Hcols.
    assert (Hlen : Z.of_nat (length (t_groups T)) < INT_MAX).
    { pose proof (inv_count _ _ _ Hinv t p T ET). unfold MAX_ENTRIES, INT_MAX in *. lia. }
    pose proof (inv_meta _ _ _ Hinv t p Hk) as Hm. rewrite ET in Hm.
    destruct Hm as (c & Hm & Hc).
    destruct (choose_existing st tabs t p T c g0 n0 Hinv ET Hlen Hm Hc Hg0)
      as [(g & a & d & Hlast & Ha & Hha & Hrep & Hroom & ->)|(n & enroll & o & k & Hen & Ho & ->)]; res_step.
    + destruct T as [cols groups]. cbn [t_cols t_groups] in *. subst cols.
      apply last_Some in Hlast as [gs ->]. rewrite length_app in *. simpl length in *.
      replace (Z.of_nat (length gs + 1)) with (Z.of_nat (length gs) + 1) in * by lia.
      destruct (write_rows_append st tabs t p ncol gs g xs a d c) as (st' & E & Hinv' & Hnx); try done.
      exists st', (mkTable ncol (gs ++ [g ++ xs])). rewrite E. split_and!; [done|done| |done|done].
      cbn. rewrite !concat_app. cbn. by rewrite !app_nil_r, app_assoc.
    + destruct (table_counters_add T ncol xs c Hcols Hc) as [Hcv Hc'].
      set (G := Z.of_nat (length (t_groups T))) in *.
      assert (EG : Z.of_nat (length (t_groups (add_group (tabs !! (t, p)) ncol xs))) = G + 1).
      { rewrite ET. cbn. rewrite length_app. simpl. lia. }
      destruct (write_rows_new st tabs t p ncol xs o k (<[0 := G + 1]> c) n enroll) as (st' & E & Hinv' & Hnx);
        rewrite ?EG; try done; try lia; [intros T0 HT0; rewrite ET in HT0; injection HT0 as <-; done|by rewrite ET|].
      rewrite EG in E. rewrite ET in Hinv'. exists st', (add_group (Some T) ncol xs). rewrite E. split_and!; [done|done| |done|done].
      cbn. rewrite concat_app. cbn. by rewrite app_nil_r.
  - destruct (choose_new st tabs t p g0 n0 Hinv ET Hk Hg0) as (o & k & Ho & ->). res_step.
    destruct (write_rows_new st tabs t p ncol xs o k (<[1 := 0]> (<[0 := 1]> ∅)) 0 0) as (st' & E & Hinv' & Hnx);
      rewrite ?ET; try done; try lia.
    + split; [done|]. intros [|i]; cbn; [done|]. rewrite !lookup_insert_ne by lia. by rewrite lookup_empty.
    + rewrite ET in *. exists st', (add_group None ncol xs). cbn [add_group t_groups app length] in *.
      change (Z.of_nat 1) with 1 in E. rewrite E. split_and!; [done|done| |done|done]. cbn. by rewrite app_nil_r.
Qed.

(** The command up to the choice of the row group. *)
Lemma fpWrite_starts st argv t p ncol xs :
  write_args argv t p ncol xs → (1 ≤ ncol ≤ 100)%nat → (length xs mod ncol = 0)%nat →
  ∃ g0, any_tkey t p ∧ INT_MIN ≤ g0 ≤ INT_MAX ∧
    fpWriteCommand cfg st argv =
      ('(dataKey, info, row_number, enroll, st) ← choose_rowgroup cfg st (key_info t p g0 0);
       st ← write_rows cfg st dataKey info row_number (Z.of_nat ncol) enroll (Z.of_nat (length xs)) xs;
       Ok (RStatus (lit "OK"), st)).
Proof.
  intros (cmd & key & part & cols & idx & info & -> & Hp & Ht & Hpi & Hcols) Hn Hxm.
  destruct (parsing_wf key info Hp) as ((Hit & Hig & Hiw) & Hr0 & Hlen & _). exists (rowGroupId info).
  rewrite Hpi in Hlen, Hiw. cbn in Hlen. split; [subst; split; [done|]; by split|]. split; [done|].
  unfold fpWriteCommand. cbn [at_index lookup list_lookup mbind res_bind]. rewrite Hp. res_step. rewrite Hcols.
  replace (Z.of_nat ncol <=? MAX_COLUMN_NUMBER) with true by (symmetry; apply Z.leb_le; unfold MAX_COLUMN_NUMBER; lia).
  cbn [assert]. res_step.
  replace (Z.of_nat (length (cmd :: key :: part :: cols :: idx :: xs)) - 5) with (Z.of_nat (length xs)) by (cbn [length]; lia).
  rewrite cmod_nonneg by lia. rewrite <- Nat2Z.inj_mod, Hxm. res_step. cbn [Z.of_nat Z.eqb negb deref]. res_step.
  cbn [drop]. assert (key_info t p (rowGroupId info) 0 = info) as -> by (destruct info; cbn in *; by subst). done.
Qed.

Lemma fpWrite_ok st tabs argv t p ncol xs :
  Inv cfg st tabs → write_args argv t p ncol xs → can_write st tabs t p ncol xs →
  ∃ st' T', fpWriteCommand cfg st argv = Ok (RStatus (lit "OK"), st')
    ∧ Inv cfg st' (<[(t, p) := T']> tabs) ∧ concat (t_groups T') = contents tabs t p ++ xs ∧ t_cols T' = ncol
    ∧ (st_next st' ≤ Pos.succ (st_next st))%positive.
Proof.
  intros Hinv Hargs Hw. pose proof Hw as (Hk & Hn & (Hxne & Hxm & _) & _).
  destruct (fpWrite_starts st argv t p ncol xs Hargs Hn Hxm) as (g0 & _ & Hg0 & ->).
  destruct (write_body_ok st tabs t p ncol xs g0 0 Hinv Hw Hg0) as (st' & T' & E & H').
  exists st', T'. split; [|done]. apply bind_Ok in E as ([[[[dk i'] rn] en] st1] & -> & E). res_step. by rewrite E.
Qed.
End writespec.

(** ** Counters *)

(** the row counter of a row group.  [incRowNumber] returns the sum, and
    [getRowNumberInfoAndSetRowNumberInfo] reads it back; the counters of the other
    row groups of the partition and of all other partitions read as before. *)
Theorem row_counter_adds {Store} cfg (st : state Store) t p g n c m :
  wf_tkey t p → 1 ≤ g ≤ INT_MAX → meta_rep st (meta_key t p) c →
  0 ≤ counter_value c g → 0 ≤ m → counter_value c g + m ≤ INT_MAX →
  let get st t p g := getRowNumberInfoAndSetRowNumberInfo st (key_info t p g n) in
  ∃ st', incRowNumber cfg st (key_info t p g n) m = Ok (counter_value c g + m, st') ∧
    get st' t p g = Ok (counter_value c g + m, key_info t p g (counter_value c g + m)) ∧
    (∀ g', INT_MIN ≤ g' ≤ INT_MAX → g' ≠ g → INT_MIN ≤ counter_value c g' ≤ INT_MAX → get st' t p g' = get st t p g') ∧
    (∀ t' p' g', wf_tkey t' p' → (t', p') ≠ (t, p) → INT_MIN ≤ g' ≤ INT_MAX → get st' t' p' g' = get st t' p' g').
Proof.
  intros Hwk Hg Hm Hc Hm0 Hs get. pose proof (wf_tkey_any t p Hwk) as Hk. assert (HgI : INT_MIN ≤ g ≤ INT_MAX) by (unfold INT_MIN; lia).
  destruct (incRowNumber_ok cfg st t p g n c m Hk Hg Hm Hc Hm0 Hs) as (o & E & Ho).
  eexists. split; [exact E|]. pose proof (with_meta_rep st (meta_key t p) o (st_dirty st + 1) _ Ho) as Hm'.
  assert (Hcv : ∀ k, counter_value (Some (<[g := counter_value c g + m]> (default ∅ c))) k =
    if decide (k = g) then counter_value c g + m else counter_value c k).
  { intros k. unfold counter_value. cbn. case_decide as Hkg; [subst; by rewrite lookup_insert_eq|].
    rewrite lookup_insert_ne by done. by destruct c. }
  split_and!.
  - unfold get. rewrite (getRowNumber_ok _ t p g n _ Hk HgI Hm'); rewrite Hcv, decide_True by done; [done|unfold INT_MIN; lia].
  - intros g' Hg' Hne Hv. unfold get. rewrite (getRowNumber_ok _ t p g' n _ Hk Hg' Hm'), (getRowNumber_ok st t p g' n c) by
      (done || by rewrite Hcv, decide_False). by rewrite Hcv, decide_False.
  - intros t' p' g' Hk' Hne Hg'. unfold get, getRowNumberInfoAndSetRowNumberInfo.
    destruct (key_info_meta t' p' g' n (wf_tkey_any _ _ Hk') Hg') as [_ ->]. res_step. res_step.
    unfold lookupSDSKeyForMetadict. cbn [with_meta st_db Metadict].
    rewrite lookup_insert_ne; [done|]. intros [? ?]%meta_key_inj; [congruence|done|done].
Qed.

Lemma row_counter_adds_witness :
  let st := mkState ∅ 1%positive (mkDb ∅ ∅ ∅ (createArrayQueue 4) (createArrayQueue 4) tt) None None 0 0 [] [] in
  let cfg := mkConfig 2 2 1 512 0 false false false false in
  ∃ st', incRowNumber cfg st (key_info 7 (lit "1") 3 0) 5 = Ok (5, st') ∧
    getRowNumberInfoAndSetRowNumberInfo st' (key_info 7 (lit "1") 3 0) = Ok (5, key_info 7 (lit "1") 3 5).
Proof.
  intros st cfg. destruct (row_counter_adds cfg st 7 (lit "1") 3 0 None 5) as (st' & E & E' & _).
  - split; [unfold INT_MIN, INT_MAX; lia|]. split; [by apply (bool_decide_unpack _)|cbn; lia].
  - unfold INT_MAX. lia.
  - reflexivity.
  - cbn. lia.
  - lia.
  - cbn. unfold INT_MAX. lia.
  - exists st'. split; [exact E|exact E'].
Defined.
