(* ===== verification/Scan.v ===== *)
(** src/src/addb_relational.c (scan), src/src/addb_table.c (FPSCAN): a scan
    visits the row groups of a partition in order; a row group in memory is read
    from its column vectors, one that is only in RocksDB from the serialized
    vectors through an iterator. *)

From S2P Require Import Prelude CString Util Sds Vector Queue Keys Serialize Hash Db Meta Write.

Section scan.
  Context {Store : Type} `{RocksDB Store}.
  Implicit Types st : state Store.

(** ** Parameters *)

Record ColumnParameter := mkColumnParam {
  cp_original : bytes;
  cp_columnCount : Z;
  cp_columnIdList : Vector Z;
  cp_columnIdStrList : Vector bytes;
}.

Record RowGroupParameter := mkRowGroupParam {
  rp_dictObj : option addr;
  rp_isInRocksDb : bool;
  rp_rowCount : Z;
}.

Record ScanParameter := mkScanParam {
  sp_startRowGroupId : Z;
  sp_totalRowGroupCount : Z;
  sp_dataKeyInfo : NewDataKeyInfo;
  sp_rowGroupParams : list RowGroupParameter;
  sp_columnParam : ColumnParameter;
}.

(** The loop over the tokens of the column list. *)
Fixpoint column_loop (tokens : list bytes) (strs : Vector bytes) (ids : Vector Z)
    : res (Vector bytes * Vector Z) :=
  match tokens with
  | [] => Ok (strs, ids)
  | t :: tokens' =>
      '(_, strs) ← vectorAdd strs (Some t);
      '(_, ids) ← vectorAdd ids (Some (atoi t));
      column_loop tokens' strs ids
  end.

Definition parseColumnParameter (rawColumnIdsString : bytes) : res ColumnParameter :=
  let original := cstr rawColumnIdsString in
  match sdssplit original RELMODEL_COLUMN_DELIMITER with
  | None | Some [] => Fault Panic
  | Some tokens =>
      '(strs, ids) ← column_loop tokens (vectorTypeInit STL_TYPE_SDS) (vectorTypeInit STL_TYPE_LONG);
      Ok (mkColumnParam original (to_int (vectorCount ids)) ids strs)
  end.

Definition createScanParameter st (argv : list bytes) : res ScanParameter :=
  key ← at_index argv 1;
  info ← parsingDataKeyInfo key;
  info ← deref info;
  '(total, info) ← getRowGroupInfoAndSetRowGroupInfo st info;
  columns ← at_index argv 2;
  columnParam ← parseColumnParameter columns;
  Ok (mkScanParam 0 total info [] columnParam).

(** The row count is set by the caller. *)
Definition createRowGroupParameter (cfg : config) st (dataKey : bytes)
    : res (RowGroupParameter * state Store) :=
  '(_, st) ← expireIfNeeded cfg st dataKey;
  dictObj ← lookupKey st dataKey false;
  isInRocksDb ← (match dictObj with
                 | None => Ok true
                 | Some a => o ← entry_value st a; Ok (location o =? LOCATION_PERSISTED)
                 end);
  Ok (mkRowGroupParam dictObj isInRocksDb 0, st).

(** The loop over the row groups from index [i]: the parameters, the structure
    with its last row group, and the total count. *)
Fixpoint populate_loop (cfg : config) (n : nat) (i : Z) (columnCount : Z) st (info : NewDataKeyInfo)
    (total : Z) : res (list RowGroupParameter * NewDataKeyInfo * Z * state Store) :=
  match n with
  | O => Ok ([], info, total, st)
  | S n' =>
      let info := set_rowGroupId info (to_int (i + 1)) in
      dataKey ← generateDataKey info;
      '(param, st) ← createRowGroupParameter cfg st dataKey;
      '(rowCount, info) ← getRowNumberInfoAndSetRowNumberInfo st info;
      let param := mkRowGroupParam (rp_dictObj param) (rp_isInRocksDb param) (to_unsigned 63 rowCount) in
      '(params, info, total, st) ←
        populate_loop cfg n' (i + 1) columnCount st info (to_int (total + columnCount * rowCount));
      Ok (param :: params, info, total, st)
  end.

(** [totalRowGroupCount] is converted to [size_t] in the loop condition. *)
Definition populateScanParameter (cfg : config) st (p : ScanParameter)
    : res (Z * ScanParameter * state Store) :=
  '(params, info, total, st) ←
    populate_loop cfg (Z.to_nat (to_size_t (sp_totalRowGroupCount p))) 0
      (cp_columnCount (sp_columnParam p)) st (sp_dataKeyInfo p) 0;
  Ok (total, mkScanParam (sp_startRowGroupId p) (sp_totalRowGroupCount p) info params
               (sp_columnParam p), st).

(** ** Positions *)

(** [(rowId - 1) / columnvector_size + 1], computed as [size_t]. *)
Definition getColumnVectorId (cfg : config) (rowId : Z) : res Z :=
  q ← cdiv (to_size_t (rowId - 1)) (to_size_t (columnvector_size cfg));
  Ok (to_int (to_size_t (q + 1))).
Definition getColumnVectorIndex (cfg : config) (rowId : Z) : res Z :=
  cmod (to_size_t (rowId - 1)) (to_size_t (columnvector_size cfg)).

(** [(long) vectorGet(&columnIdList, k)]. *)
Definition column_id (cp : ColumnParameter) (k : Z) : res Z :=
  p ← vectorGet (cp_columnIdList cp) k; Ok (default 0 p).

(** ** Row groups in memory *)

(** One reply of [_cachedScan]: the vector of column [k] is looked up when the row
    starts a new column vector, and kept in the cache [ids]/[objs]. *)
Definition cached_cell (cfg : config) st (param : RowGroupParameter) (cp : ColumnParameter)
    (rowId k : Z) (ids : list Z) (objs : list (option (Vector bytes)))
    : res (bytes * list Z * list (option (Vector bytes))) :=
  columnId ← column_id cp k;
  columnVectorId ← getColumnVectorId cfg rowId;
  cached ← at_index ids (Z.to_nat k);
  '(ids, objs) ←
    (if negb (columnVectorId =? cached) then
       dataKey ← getDataFieldSds columnVectorId (to_int columnId);
       a ← deref (rp_dictObj param);
       o ← entry_value st a;
       hashDict ← rel_ptr (robj_ptr o);
       vec ← deref (hashDict !! dataKey);
       Ok (<[Z.to_nat k := columnVectorId]> ids, <[Z.to_nat k := Some vec]> objs)
     else Ok (ids, objs));
  obj ← at_index objs (Z.to_nat k);
  columnVector ← deref obj;
  idx ← getColumnVectorIndex cfg rowId;
  value ← vectorGet columnVector idx;
  value ← deref value;
  Ok (value, ids, objs).

Fixpoint cached_row (cfg : config) st (param : RowGroupParameter) (cp : ColumnParameter)
    (rowId : Z) (n : nat) (k : Z) (ids : list Z) (objs : list (option (Vector bytes)))
    : res (list bytes * list Z * list (option (Vector bytes))) :=
  match n with
  | O => Ok ([], ids, objs)
  | S n' =>
      '(value, ids, objs) ← cached_cell cfg st param cp rowId k ids objs;
      '(values, ids, objs) ← cached_row cfg st param cp rowId n' (k + 1) ids objs;
      Ok (value :: values, ids, objs)
  end.

Fixpoint cached_rows (cfg : config) st (param : RowGroupParameter) (cp : ColumnParameter)
    (n : nat) (j : Z) (ids : list Z) (objs : list (option (Vector bytes))) : res (list bytes) :=
  match n with
  | O => Ok []
  | S n' =>
      '(values, ids, objs) ←
        cached_row cfg st param cp (j + 1) (Z.to_nat (cp_columnCount cp)) 0 ids objs;
      rest ← cached_rows cfg st param cp n' (j + 1) ids objs;
      Ok (values ++ rest)
  end.

Definition _cachedScan (cfg : config) st (rowGroupId : Z) (p : ScanParameter) : res (list bytes) :=
  param ← at_index (sp_rowGroupParams p) (Z.to_nat (rowGroupId - 1));
  let cp := sp_columnParam p in
  let n := Z.to_nat (cp_columnCount cp) in
  cached_rows cfg st param cp (Z.to_nat (rp_rowCount param)) 0 (replicate n (-1)) (replicate n None).

(** ** Row groups in RocksDB *)

Definition getRawColumnVectorFromRocksDB st (dataRocksKey : bytes) : option bytes :=
  rocks_value (persistent_store (st_db st)) dataRocksKey.

(** One reply of [_cachedScanOnRocksDB_iterator].  The status of
    [makeColumnVectorIter] is not looked at: after [C_ERR] the iterator used is
    uninitialised memory. *)
Definition iter_cell (cfg : config) st (p : ScanParameter) (rowId k : Z) (ids : list Z)
    (iters : list (option ColumnVectorIter)) : res (bytes * list Z * list (option ColumnVectorIter)) :=
  columnId ← column_id (sp_columnParam p) k;
  q ← getColumnVectorId cfg rowId;
  let columnVectorId := to_size_t q in
  cached ← at_index ids (Z.to_nat k);
  '(ids, iters) ←
    (if negb (columnVectorId =? to_size_t cached) then
       dataKey ← generateDataRocksKeySds (sp_dataKeyInfo p) (to_int columnVectorId) (to_int columnId);
       made ← makeColumnVectorIter (getRawColumnVectorFromRocksDB st dataKey);
       match made with
       | None => Fault Uninitialised
       | Some (begin, _) =>
           Ok (<[Z.to_nat k := to_int columnVectorId]> ids, <[Z.to_nat k := Some begin]> iters)
       end
     else Ok (ids, iters));
  it ← at_index iters (Z.to_nat k);
  it ← deref it;
  value ← columnVectorIterGetNoCopy it;
  Ok (value, ids, <[Z.to_nat k := Some (columnVectorIterNext it).1]> iters).

Fixpoint iter_row (cfg : config) st (p : ScanParameter) (rowId : Z) (n : nat) (k : Z) (ids : list Z)
    (iters : list (option ColumnVectorIter)) : res (list bytes * list Z * list (option ColumnVectorIter)) :=
  match n with
  | O => Ok ([], ids, iters)
  | S n' =>
      '(value, ids, iters) ← iter_cell cfg st p rowId k ids iters;
      '(values, ids, iters) ← iter_row cfg st p rowId n' (k + 1) ids iters;
      Ok (value :: values, ids, iters)
  end.

Fixpoint iter_rows (cfg : config) st (p : ScanParameter) (n : nat) (j : Z) (ids : list Z)
    (iters : list (option ColumnVectorIter)) : res (list bytes) :=
  match n with
  | O => Ok []
  | S n' =>
      '(values, ids, iters) ←
        iter_row cfg st p (j + 1) (Z.to_nat (cp_columnCount (sp_columnParam p))) 0 ids iters;
      rest ← iter_rows cfg st p n' (j + 1) ids iters;
      Ok (values ++ rest)
  end.

Definition _cachedScanOnRocksDB_iterator (cfg : config) st (rowGroupId : Z) (p : ScanParameter)
    : res (list bytes) :=
  param ← at_index (sp_rowGroupParams p) (Z.to_nat (rowGroupId - 1));
  let n := Z.to_nat (cp_columnCount (sp_columnParam p)) in
  iter_rows cfg st p (Z.to_nat (rp_rowCount param)) 0 (replicate n (-1)) (replicate n None).

(** ** The command *)

(** The loop over the row groups from index [i]. *)
Fixpoint scan_loop (cfg : config) st (p : ScanParameter) (n : nat) (i : Z) : res (list bytes) :=
  match n with
  | O => Ok []
  | S n' =>
      let rowGroupId := i + 1 in
      let p := mkScanParam (sp_startRowGroupId p) (sp_totalRowGroupCount p)
                 (set_rowGroupId (sp_dataKeyInfo p) (to_int rowGroupId))
                 (sp_rowGroupParams p) (sp_columnParam p) in
      param ← at_index (sp_rowGroupParams p) (Z.to_nat (rowGroupId - 1));
      values ← (if rp_isInRocksDb param then _cachedScanOnRocksDB_iterator cfg st rowGroupId p
                else _cachedScan cfg st rowGroupId p);
      rest ← scan_loop cfg st p n' (i + 1);
      Ok (values ++ rest)
  end.

Definition scanDataFromADDB (cfg : config) st (p : ScanParameter) : res (list bytes) :=
  scan_loop cfg st p (Z.to_nat (to_size_t (sp_totalRowGroupCount p) - sp_startRowGroupId p))
    (sp_startRowGroupId p).

(** Releases the two lists of column ids. *)
Definition freeColumnParameter (cp : ColumnParameter) : res unit :=
  _ ← vectorFreeDeep (cp_columnIdList cp);
  _ ← vectorFreeDeep (cp_columnIdStrList cp);
  Ok tt.
Definition freeScanParameter (p : ScanParameter) : res unit := freeColumnParameter (sp_columnParam p).

(** The multi-bulk reply has as many elements as replies were added. *)
Definition fpScanCommand (cfg : config) st (argv : list bytes) : res (reply * state Store) :=
  p ← createScanParameter st argv;
  '(_, p, st) ← populateScanParameter cfg st p;
  values ← scanDataFromADDB cfg st p;
  _ ← freeScanParameter p;
  Ok (RMulti values, st).
End scan.
