(* ===== verification/ScanSpec.v ===== *)
(** Correctness of FPSCAN (Scan.v): under the invariant a scan returns the
    requested columns of every row of the table, in order, whichever of its row
    groups are in memory, being flushed, persisted, or only in RocksDB. *)

From S2P Require Import Prelude CString Util Sds Vector Queue Keys Serialize Hash Db Meta Table Invariant Write WriteSpec Scan.

Section scanspec.
  Context {Store : Type} `{RocksDB Store} (cfg : config) (Hcfg : wf_config cfg).
  Implicit Types (st : state Store).

(** ** Positions *)

Lemma columnvector_size_cvsz : to_size_t (columnvector_size cfg) = Z.of_nat (cvsz cfg).
Proof.
  destruct Hcfg as (_ & Hc & _). unfold cvsz, INT_MAX in *.
  rewrite Z2Nat.id, to_size_t_id by (unfold SIZE_MAX, ULLONG_MAX; lia). done.
Qed.

Lemma getColumnVectorId_ok (j : nat) :
  Z.of_nat j < INT_MAX → getColumnVectorId cfg (Z.of_nat j + 1) = Ok (Z.of_nat (j / cvsz cfg) + 1).
Proof.
  intros Hj. unfold getColumnVectorId. rewrite columnvector_size_cvsz. unfold INT_MAX in *.
  replace (Z.of_nat j + 1 - 1) with (Z.of_nat j) by lia.
  rewrite to_size_t_id by (unfold SIZE_MAX, ULLONG_MAX; lia).
  pose proof (cvsz_pos cfg Hcfg) as Hp. unfold cdiv. destruct (Z.eqb_spec (Z.of_nat (cvsz cfg)) 0); [lia|].
  res_step. rewrite Z.quot_div_nonneg, <- Nat2Z.inj_div by lia.
  assert (j / cvsz cfg ≤ j)%nat by (apply Nat.Div0.div_le_upper_bound; nia).
  rewrite to_size_t_id by (unfold SIZE_MAX, ULLONG_MAX; lia).
  rewrite to_int_id by (unfold INT_MIN, INT_MAX; lia). done.
Qed.

Lemma getColumnVectorIndex_ok (j : nat) :
  Z.of_nat j < INT_MAX → getColumnVectorIndex cfg (Z.of_nat j + 1) = Ok (Z.of_nat (j mod cvsz cfg)).
Proof.
  intros Hj. unfold getColumnVectorIndex. rewrite columnvector_size_cvsz. unfold INT_MAX in *.
  replace (Z.of_nat j + 1 - 1) with (Z.of_nat j) by lia.
  rewrite to_size_t_id by (unfold SIZE_MAX, ULLONG_MAX; lia).
  pose proof (cvsz_pos cfg Hcfg). rewrite cmod_nonneg, <- Nat2Z.inj_mod by lia. done.
Qed.

(** The requested columns, counted from 0. *)
Definition columns_rep (cp : ColumnParameter) (cs : list nat) : Prop :=
  vector_rep (cp_columnIdList cp) (map (fun c => Some (Z.of_nat c + 1)) cs) ∧
  cp_columnCount cp = Z.of_nat (length cs).

Lemma column_id_ok cp cs k c :
  columns_rep cp cs → cs !! k = Some c → column_id cp (Z.of_nat k) = Ok (Z.of_nat c + 1).
Proof.
  intros [Hr _] Hk. unfold column_id. rewrite (vectorGet_rep _ _ _ Hr), list_lookup_fmap, Hk. done.
Qed.

(** ** A row group in memory *)

Section memory.
  Context (st : state Store) (key : bytes) (loc : Z) (a : addr) (d : relation) (ncol : nat) (g : list bytes).
  Context (param : RowGroupParameter) (cp : ColumnParameter) (cs : list nat).
  Context (Hparam : rp_dictObj param = Some a) (Ha : st_heap st !! a = Some (rg_entry key loc d)).
  Context (Hncol : (1 ≤ ncol ≤ 100)%nat) (Hrep : rg_rep ncol (cvsz cfg) g d).
  Context (Hrows : rows_of ncol g ≤ INT_MAX) (Hcp : columns_rep cp cs) (Hcs : Forall (fun c => (c < ncol)%nat) cs).

(** The cache holds vectors of the right column. *)
Definition cache_inv (ids : list Z) (objs : list (option (Vector bytes))) : Prop :=
  length ids = length cs ∧ length objs = length cs ∧
  ∀ k c, cs !! k = Some c →
    ids !! k = Some (-1) ∨
    ∃ (cv : nat) v, ids !! k = Some (Z.of_nat cv + 1) ∧ objs !! k = Some (Some v) ∧
                    d !! cv_field cv c = Some v.

Lemma cell_exists j c :
  (j < length g / ncol)%nat → (c < ncol)%nat →
  g !! (j * ncol + c)%nat = Some (g !!! (j * ncol + c)%nat).
Proof.
  intros Hj Hc. apply list_lookup_lookup_total_lt.
  pose proof (Nat.div_mod_eq (length g) ncol). nia.
Qed.

Lemma cached_cell_ok j k c ids objs :
  cache_inv ids objs → (j < length g / ncol)%nat → cs !! k = Some c →
  ∃ ids' objs', cached_cell cfg st param cp (Z.of_nat j + 1) (Z.of_nat k) ids objs =
      Ok (g !!! (j * ncol + c)%nat, ids', objs') ∧ cache_inv ids' objs'.
Proof.
  intros (Hli & Hlo & Hcache) Hj Hk. pose proof (lookup_lt_Some _ _ _ Hk) as Hkl.
  rewrite Forall_forall in Hcs. assert (Hc : (c < ncol)%nat) by (eapply Hcs, list_elem_of_lookup_2; done).
  unfold rows_of, INT_MAX in Hrows. assert (Hjb : Z.of_nat j < INT_MAX) by (unfold INT_MAX; lia).
  unfold cached_cell. rewrite (column_id_ok cp cs k c Hcp Hk). res_step.
  rewrite getColumnVectorId_ok by done. res_step. rewrite Nat2Z.id.
  set (cv := (j / cvsz cfg)%nat).
  destruct (rg_rep_cell ncol (cvsz cfg) ltac:(lia) (cvsz_pos cfg Hcfg) g d j c _ Hrep Hc (cell_exists j c Hj Hc))
    as (v & Hv & Hget). fold cv in Hv.
  assert (Hcvb : (cv ≤ j)%nat) by (apply Nat.Div0.div_le_upper_bound; pose proof (cvsz_pos cfg Hcfg); nia).
  destruct (lookup_lt_is_Some_2 ids k) as [id Hid]; [lia|].
  destruct (lookup_lt_is_Some_2 objs k) as [ob Hob]; [lia|].
  rewrite (proj2 (at_index_Ok ids k id) Hid). res_step.
  assert (Hstep : ∃ ids' objs',
    (if negb (Z.of_nat cv + 1 =? id) then
       dataKey ← getDataFieldSds (Z.of_nat cv + 1) (to_int (Z.of_nat c + 1));
       a ← deref (rp_dictObj param); o ← entry_value st a; hashDict ← rel_ptr (robj_ptr o);
       vec ← deref (hashDict !! dataKey);
       Ok (<[k := Z.of_nat cv + 1]> ids, <[k := Some vec]> objs)
     else Ok (ids, objs)) = Ok (ids', objs') ∧ cache_inv ids' objs' ∧ objs' !! k = Some (Some v)).
  { destruct (Z.eqb_spec (Z.of_nat cv + 1) id) as [E|Hne]; cbn [negb].
    - exists ids, objs. split; [done|]. split; [done|].
      destruct (Hcache k c Hk) as [E'|(cv' & v' & E' & Eo & Ed)]; [rewrite Hid in E'; injection E' as ->; lia|].
      rewrite Hid in E'. injection E' as ->. assert (cv' = cv) as -> by lia. rewrite Hv in Ed. by injection Ed as <-.
    - rewrite (to_int_id (Z.of_nat c + 1)) by (unfold INT_MIN, INT_MAX; lia).
      rewrite getDataFieldSds_ok by (unfold INT_MIN, INT_MAX; lia). res_step. rewrite Hparam.
      unfold entry_value, load. cbn [deref mbind res_bind]. rewrite Ha.
      cbn [mbind res_bind deref de_val rg_entry robj_ptr rel_ptr].
      fold (cv_field cv c). rewrite Hv. cbn [deref]. eexists _, _. split; [done|]. split.
      + split_and!; [by rewrite length_insert|by rewrite length_insert|]. intros k' c' Hk'.
        destruct (decide (k' = k)) as [->|Hkk].
        * right. exists cv, v. rewrite !list_lookup_insert_eq by lia. rewrite Hk in Hk'. by injection Hk' as <-.
        * rewrite !list_lookup_insert_ne by done. by apply Hcache.
      + by rewrite list_lookup_insert_eq by lia. }
  destruct Hstep as (ids' & objs' & -> & Hci & Ho). res_step.
  rewrite (proj2 (at_index_Ok objs' k _) Ho). res_step. cbn [deref]. res_step.
  rewrite getColumnVectorIndex_ok by done. res_step. rewrite Hget. res_step. cbn [deref]. res_step. eauto.
Qed.

Lemma cached_row_ok j n : ∀ k ids objs,
  cache_inv ids objs → (j < length g / ncol)%nat → (k + n = length cs)%nat →
  ∃ ids' objs', cached_row cfg st param cp (Z.of_nat j + 1) n (Z.of_nat k) ids objs =
      Ok (map (fun c => g !!! (j * ncol + c)%nat) (drop k cs), ids', objs') ∧ cache_inv ids' objs'.
Proof.
  induction n as [|n IH]; intros k ids objs Hci Hj Hk; cbn [cached_row].
  { rewrite drop_ge by lia. eauto. }
  destruct (lookup_lt_is_Some_2 cs k) as [c Hc]; [lia|].
  destruct (cached_cell_ok j k c ids objs Hci Hj Hc) as (ids1 & objs1 & -> & Hci1). res_step.
  replace (Z.of_nat k + 1) with (Z.of_nat (S k)) by lia.
  destruct (IH (S k) ids1 objs1 Hci1 Hj ltac:(lia)) as (ids2 & objs2 & -> & Hci2). res_step.
  rewrite (drop_S cs c k Hc). eauto.
Qed.

Lemma cached_rows_ok n : ∀ j ids objs,
  cache_inv ids objs → (j + n = length g / ncol)%nat →
  cached_rows cfg st param cp n (Z.of_nat j) ids objs = Ok (scan_rows ncol g cs j n).
Proof.
  induction n as [|n IH]; intros j ids objs Hci Hj; cbn [cached_rows scan_rows]; [done|].
  destruct Hcp as [_ Hcnt]. rewrite Hcnt, Nat2Z.id.
  destruct (cached_row_ok j (length cs) 0 ids objs Hci ltac:(lia) ltac:(lia)) as (ids1 & objs1 & E & Hci1).
  change (Z.of_nat 0) with 0 in E. rewrite drop_0 in E. rewrite E. res_step.
  replace (Z.of_nat j + 1) with (Z.of_nat (S j)) by lia. rewrite (IH (S j)) by (done || lia). by res_step.
Qed.

Lemma memory_group_ok :
  cached_rows cfg st param cp (length g / ncol) 0 (replicate (length cs) (-1)) (replicate (length cs) None) =
    Ok (scan_group ncol cs g).
Proof.
  apply (cached_rows_ok (length g / ncol) 0); [|done]. split_and!; [by rewrite length_replicate..|].
  intros k c Hk. left. apply lookup_replicate. split; [done|]. by eapply lookup_lt_Some.
Qed.
End memory.

(** ** A row group in RocksDB *)

Section rocks.
  Context (st : state Store) (t : Z) (pt : bytes) (G : Z) (ncol : nat) (g : list bytes).
  Context (sp : ScanParameter) (cs : list nat).
  Context (Hk : wf_tkey t pt) (HG : INT_MIN ≤ G ≤ INT_MAX).
  Context (Hinfo : ∃ n, sp_dataKeyInfo sp = key_info t pt G n).
  Context (Hncol : (1 ≤ ncol ≤ 100)%nat).
  Context (Hrocks : rocks_rep ncol (cvsz cfg) (persistent_store (st_db st)) (data_key t pt G) g).
  Context (Hg : Forall wf_value g) (Hrows : rows_of ncol g ≤ INT_MAX).
  Context (Hcp : columns_rep (sp_columnParam sp) cs) (Hcs : Forall (fun c => (c < ncol)%nat) cs).

#[local] Abbreviation slice := (cv_slice ncol (cvsz cfg) g).

(** Where the iterator of column [c] stands before row [j]: at the row's value, or
    at an older column vector when the row starts a new one. *)
Definition iter_state (j : nat) (c : nat) (id : Z) (it : option ColumnVectorIter) : Prop :=
  if decide (j mod cvsz cfg = 0)%nat
  then -1 ≤ id ≤ INT_MAX ∧ id ≠ Z.of_nat (j / cvsz cfg) + 1
  else id = Z.of_nat (j / cvsz cfg) + 1 ∧
       ∃ pre, it = Some (iter_at pre (drop (j mod cvsz cfg) (slice (j / cvsz cfg) c)) [NUL]
                           STL_TYPE_SDS (length (slice (j / cvsz cfg) c))).

Definition iters_inv (j : nat) (k : nat) (ids : list Z) (iters : list (option ColumnVectorIter)) : Prop :=
  length ids = length cs ∧ length iters = length cs ∧
  ∀ i c id it, cs !! i = Some c → ids !! i = Some id → iters !! i = Some it →
    if decide (i < k)%nat then (S j < length g / ncol)%nat → iter_state (S j) c id it
    else iter_state j c id it.

Lemma slice_wf cv c : wf_values (slice cv c) ∧ Z.of_nat (length (slice cv c)) ≤ INT_MAX.
Proof.
  assert (Hin : ∀ x, x ∈ slice cv c → wf_value x).
  { intros x Hx. rewrite Forall_forall in Hg. apply Hg.
    by apply (cv_slice_in ncol (cvsz cfg) ltac:(lia) g cv c). }
  split; [split|].
  - apply Forall_forall. intros x Hx. by destruct (Hin x Hx) as (_ & ? & _).
  - intros x Hx. apply last_Some_elem_of in Hx. by destruct (Hin x Hx) as (_ & _ & ?).
  - pose proof (cv_slice_length ncol (cvsz cfg) g cv c) as Hl. destruct Hcfg as (_ & Hc & _). unfold cvsz in *. lia.
Qed.

Lemma wf_values_drop xs n : wf_values xs → wf_values (drop n xs).
Proof.
  intros [H1 H2]. split; [by apply Forall_drop|]. intros x Hx. apply H2.
  by rewrite <- (take_drop n xs), last_app, Hx.
Qed.

(** The iterator made from the stored text of a column vector. *)
Lemma fresh_iter cv c x :
  (c < ncol)%nat → slice cv c !! 0%nat = Some x →
  ∃ e, makeColumnVectorIter (getRawColumnVectorFromRocksDB st (rocks_key (data_key t pt G) (cv_field cv c))) =
    Ok (Some (iter_at (head_text STL_TYPE_SDS (length (slice cv c))) (slice cv c) [NUL] STL_TYPE_SDS
                (length (slice cv c)), e)).
Proof.
  intros Hc Hx. unfold getRawColumnVectorFromRocksDB. destruct (slice_wf cv c) as [[Hw _] Hl].
  rewrite Hrocks by (done || by destruct (slice cv c)).
  destruct (slice cv c) as [|y ys] using rev_ind; [done|]. clear IHys.
  rewrite Forall_app, Forall_singleton in Hw. rewrite length_app in Hl. simpl in Hl.
  destruct (makeIter_ok STL_TYPE_SDS ys y [NUL]) as (e & E & _);
    [unfold STL_TYPE_SDS; lia|simpl; lia|by right|tauto|]. eauto.
Qed.

Lemma iter_cell_ok j k c ids iters :
  iters_inv j k ids iters → (j < length g / ncol)%nat → cs !! k = Some c →
  ∃ ids' iters', iter_cell cfg st sp (Z.of_nat j + 1) (Z.of_nat k) ids iters =
      Ok (g !!! (j * ncol + c)%nat, ids', iters') ∧ iters_inv j (S k) ids' iters'.
Proof.
  intros (Hli & Hlt & Hst) Hj Hkc. pose proof (lookup_lt_Some _ _ _ Hkc) as Hkl.
  rewrite Forall_forall in Hcs. assert (Hc : (c < ncol)%nat) by (eapply Hcs, list_elem_of_lookup_2; done).
  pose proof (cvsz_pos cfg Hcfg) as Hcz.
  assert (Hjb : Z.of_nat j < INT_MAX) by (unfold rows_of in Hrows; lia).
  set (cv := (j / cvsz cfg)%nat) in *. set (m := (j mod cvsz cfg)%nat) in *.
  assert (Hcvb : (cv ≤ j)%nat) by (apply Nat.Div0.div_le_upper_bound; nia).
  assert (Hx : slice cv c !! m = Some (g !!! (j * ncol + c)%nat)).
  { subst cv m. rewrite cv_slice_lookup by lia. by apply (cell_exists ncol g Hncol). }
  set (x := g !!! (j * ncol + c)%nat) in *.
  destruct (lookup_lt_is_Some_2 ids k) as [id Hid]; [lia|].
  destruct (lookup_lt_is_Some_2 iters k) as [it Hit]; [lia|].
  pose proof (Hst k c id it Hkc Hid Hit) as Hs. rewrite decide_False in Hs by lia.
  unfold iter_cell. rewrite (column_id_ok _ cs k c Hcp Hkc). res_step.
  rewrite getColumnVectorId_ok by done. res_step. fold cv. rewrite Nat2Z.id.
  rewrite (proj2 (at_index_Ok ids k id) Hid). res_step.
  unfold INT_MAX in Hjb.
  rewrite (to_size_t_id (Z.of_nat cv + 1)) by (unfold SIZE_MAX, ULLONG_MAX; lia).
  rewrite (to_int_id (Z.of_nat cv + 1)) by (unfold INT_MIN, INT_MAX; lia).
  (* the iterator used for this cell *)
  assert (Hstep : ∃ ids' iters' pre,
    (if negb (Z.of_nat cv + 1 =? to_size_t id) then
       dataKey ← generateDataRocksKeySds (sp_dataKeyInfo sp) (Z.of_nat cv + 1) (to_int (Z.of_nat c + 1));
       made ← makeColumnVectorIter (getRawColumnVectorFromRocksDB st dataKey);
       match made with
       | None => Fault Uninitialised
       | Some (begin, _) => Ok (<[k := Z.of_nat cv + 1]> ids, <[k := Some begin]> iters)
       end
     else Ok (ids, iters)) = Ok (ids', iters') ∧
    ids' = <[k := Z.of_nat cv + 1]> ids ∧ (∃ it', iters' = <[k := it']> iters) ∧
    iters' !! k = Some (Some (iter_at pre (drop m (slice cv c)) [NUL] STL_TYPE_SDS (length (slice cv c))))).
  { unfold iter_state in Hs. fold m cv in Hs. case_decide as Hm.
    - destruct Hs as [Hidr Hne].
      assert (Hneq : (Z.of_nat cv + 1 =? to_size_t id) = false).
      { apply Z.eqb_neq. unfold INT_MAX in Hidr. destruct (decide (id = -1)) as [->|].
        - unfold to_size_t, to_unsigned. change ((-1) mod 2 ^ 64) with 18446744073709551615. lia.
        - rewrite to_size_t_id by (unfold SIZE_MAX, ULLONG_MAX; lia). lia. }
      rewrite Hneq. cbn [negb]. destruct Hinfo as [n ->].
      rewrite (to_int_id (Z.of_nat c + 1)) by (unfold INT_MIN, INT_MAX; lia).
      rewrite generateDataRocksKeySds_ok; [|by apply key_info_wf; [apply wf_tkey_any|]|cbn; destruct Hk as (_ & _ & ?); lia
        |unfold INT_MIN, INT_MAX; lia..].
      res_step. cbn [tableId partitionInfo part_text rowGroupId key_info]. fold (cv_field cv c).
      destruct (fresh_iter cv c x Hc) as (e & ->); [by rewrite <- Hm|]. res_step.
      eexists _, _, _. split; [done|]. split; [done|]. split; [by eexists|].
      rewrite list_lookup_insert_eq by lia. by rewrite Hm.
    - destruct Hs as [-> [pre ->]].
      rewrite to_size_t_id by (unfold SIZE_MAX, ULLONG_MAX; lia). rewrite Z.eqb_refl. cbn [negb].
      exists ids, iters, pre. rewrite list_insert_id by done. split; [done|]. split; [done|].
      split; [|done]. eexists. by rewrite list_insert_id. }
  destruct Hstep as (ids' & iters' & pre & -> & -> & [it' ->] & Hk'). res_step.
  rewrite (proj2 (at_index_Ok _ k _) Hk'). res_step. cbn [deref]. res_step.
  destruct (slice_wf cv c) as [Hw Hl]. apply (wf_values_drop _ m) in Hw.
  pose proof (length_drop (slice cv c) m) as Hld. rewrite (drop_S _ _ _ Hx) in *.
  destruct (iter_get pre x (drop (S m) (slice cv c)) [NUL] STL_TYPE_SDS (length (slice cv c))) as [-> _];
    [lia|done|done|]. res_step. eexists _, _. split; [done|].
  rewrite list_insert_insert_eq. split_and!; [by rewrite length_insert..|].
  intros i c0 id0 it0 Hi Hid0 Hit0. destruct (decide (i = k)) as [->|Hik].
  - rewrite decide_True by lia. intros Hj'. rewrite Hkc in Hi. injection Hi as <-.
    rewrite list_lookup_insert_eq in Hid0 by lia. rewrite list_lookup_insert_eq in Hit0 by lia. injection Hid0 as <-. injection Hit0 as <-.
    pose proof (Nat.div_mod_eq j (cvsz cfg)) as Edm. pose proof (Nat.mod_upper_bound j (cvsz cfg) ltac:(lia)) as Bm.
    fold cv m in Edm, Bm. unfold iter_state. destruct (decide (S m = cvsz cfg)) as [Em|Em].
    + assert (S j mod cvsz cfg = 0 ∧ S j / cvsz cfg = S cv)%nat as [-> ->].
      { split; symmetry; [apply Nat.mod_unique with (S cv)|apply Nat.div_unique with 0%nat]; lia. }
      rewrite decide_True by done. unfold INT_MAX. lia.
    + assert (S j mod cvsz cfg = S m ∧ S j / cvsz cfg = cv)%nat as [Emod Ediv].
      { split; symmetry; [apply Nat.mod_unique with cv|apply Nat.div_unique with (S m)]; lia. }
      rewrite Emod, Ediv, decide_False by done. split; [done|].
      assert (Hne : drop (S m) (slice cv c) ≠ []).
      { pose proof (cell_exists ncol g Hncol (S j) c Hj' Hc) as Hx'.
        rewrite <- (cv_slice_lookup ncol (cvsz cfg) ltac:(lia) Hcz), Emod, Ediv in Hx'.
        rewrite (drop_S _ _ _ Hx'). done. }
      rewrite iter_next by (done || lia). by eexists.
  - rewrite list_lookup_insert_ne in Hid0 by done. rewrite list_lookup_insert_ne in Hit0 by done.
    pose proof (Hst i c0 id0 it0 Hi Hid0 Hit0) as Hs0.
    destruct (decide (i < k)%nat); [rewrite decide_True by lia|rewrite decide_False by lia]; done.
Qed.

Lemma iter_row_ok j n : ∀ k ids iters,
  iters_inv j k ids iters → (j < length g / ncol)%nat → (k + n = length cs)%nat →
  ∃ ids' iters', iter_row cfg st sp (Z.of_nat j + 1) n (Z.of_nat k) ids iters =
      Ok (map (fun c => g !!! (j * ncol + c)%nat) (drop k cs), ids', iters') ∧
    iters_inv j (length cs) ids' iters'.
Proof.
  induction n as [|n IH]; intros k ids iters Hi Hj Hkn; cbn [iter_row].
  { rewrite drop_ge by lia. replace (length cs) with k by lia. eauto. }
  destruct (lookup_lt_is_Some_2 cs k) as [c Hc]; [lia|].
  destruct (iter_cell_ok j k c ids iters Hi Hj Hc) as (ids1 & iters1 & -> & Hi1). res_step.
  replace (Z.of_nat k + 1) with (Z.of_nat (S k)) by lia.
  destruct (IH (S k) ids1 iters1 Hi1 Hj ltac:(lia)) as (ids2 & iters2 & -> & Hi2). res_step.
  rewrite (drop_S cs c k Hc). eauto.
Qed.

Lemma iter_rows_ok n : ∀ j ids iters,
  ((0 < n)%nat → iters_inv j 0 ids iters) → (j + n = length g / ncol)%nat →
  iter_rows cfg st sp n (Z.of_nat j) ids iters = Ok (scan_rows ncol g cs j n).
Proof.
  induction n as [|n IH]; intros j ids iters Hi Hj; cbn [iter_rows scan_rows]; [done|].
  destruct Hcp as [_ Hcnt]. rewrite Hcnt, Nat2Z.id.
  destruct (iter_row_ok j (length cs) 0 ids iters (Hi ltac:(lia)) ltac:(lia) ltac:(lia)) as (ids1 & iters1 & E & Hi1).
  change (Z.of_nat 0) with 0 in E. rewrite drop_0 in E. rewrite E. res_step.
  replace (Z.of_nat j + 1) with (Z.of_nat (S j)) by lia. rewrite (IH (S j)); [by res_step| |lia].
  intros Hn. destruct Hi1 as (Hl1 & Hl2 & Hs). split_and!; [done|done|]. intros i c id it Hic Hid Hit.
  specialize (Hs i c id it Hic Hid Hit). rewrite decide_True in Hs by (by eapply lookup_lt_Some).
  rewrite decide_False by lia. apply Hs. lia.
Qed.

Lemma rocks_group_ok :
  iter_rows cfg st sp (length g / ncol) 0 (replicate (length cs) (-1)) (replicate (length cs) None) =
    Ok (scan_group ncol cs g).
Proof.
  apply (iter_rows_ok (length g / ncol) 0); [|done]. intros _. split_and!; [by rewrite length_replicate..|].
  intros k c id it Hk0 Hid _. rewrite decide_False by lia. unfold iter_state.
  rewrite Nat.Div0.mod_0_l, Nat.Div0.div_0_l, decide_True by done.
  apply lookup_replicate in Hid as [-> _]. unfold INT_MAX. lia.
Qed.
End rocks.

(** ** Parameters of the command *)

(** The text of a column list. *)
Definition columns_text (cs : list nat) : bytes :=
  sdsjoinsds (map (fun c => d2s (Z.of_nat c + 1)) cs) (lit ",").

Lemma column_loop_ok cs : ∀ strs ids l l',
  vector_rep strs l → vector_rep ids l' →
  Z.of_nat (length l + length cs) + 10 < 2 ^ 60 → Z.of_nat (length l' + length cs) + 10 < 2 ^ 60 →
  Forall (fun c => Z.of_nat c + 1 ≤ INT_MAX) cs →
  ∃ strs' ids', column_loop (map (fun c => d2s (Z.of_nat c + 1)) cs) strs ids = Ok (strs', ids')
    ∧ (∃ k, vector_rep strs' k) ∧ v_type strs' = v_type strs ∧ v_type ids' = v_type ids
    ∧ vector_rep ids' (l' ++ map (fun c => Some (Z.of_nat c + 1)) cs).
Proof.
  induction cs as [|c cs IH]; intros strs ids l l' Hs Hi Hl Hl' Hc; cbn [map column_loop].
  { exists strs, ids. rewrite app_nil_r. eauto 6. }
  inversion Hc as [|? ? Hc1 Hc2]; subst. simpl length in *.
  destruct (vectorAdd_rep strs l (Some (d2s (Z.of_nat c + 1))) Hs) as (s1 & -> & Hs1 & Ts1); [lia|]. res_step.
  rewrite atoi_d2s_nil by (unfold INT_MIN; lia).
  destruct (vectorAdd_rep ids l' (Some (Z.of_nat c + 1)) Hi) as (i1 & -> & Hi1 & Ti1); [lia|]. res_step.
  destruct (IH s1 i1 _ _ Hs1 Hi1) as (s2 & i2 & E & Hs2 & Ts2 & Ti2 & Hi2); [rewrite length_app; simpl; lia..|done|].
  exists s2, i2. split_and!; [done|done|congruence|congruence|]. by rewrite <- app_assoc in Hi2.
Qed.

Lemma columns_text_nonul cs : nonul (columns_text cs).
Proof.
  apply sdsjoinsds_nonul; [|by apply (bool_decide_unpack _)]. apply Forall_forall.
  intros x (c & -> & _)%list_elem_of_fmap. apply d2s_nonul.
Qed.

Lemma parseColumnParameter_ok cs :
  cs ≠ [] → Forall (fun c => (c < 100)%nat) cs → Z.of_nat (length cs) ≤ INT_MAX →
  ∃ cp, parseColumnParameter (columns_text cs) = Ok cp ∧ columns_rep cp cs ∧ freeColumnParameter cp = Ok tt.
Proof.
  intros Hne Hcs Hlen. unfold parseColumnParameter. rewrite (cstr_nonul _ (columns_text_nonul cs)).
  unfold sdssplit. change (cstr RELMODEL_COLUMN_DELIMITER) with [","%char]. unfold columns_text at 1.
  change (lit ",") with [","%char].
  rewrite (sdssplitlen_join (map (fun c => d2s (Z.of_nat c + 1)) cs) ","%char).
  - destruct cs as [|c0 cs0]; [done|]. set (cs := c0 :: cs0) in *.
    unfold INT_MAX in *. change (2 ^ 60) with 1152921504606846976 in *.
    destruct (column_loop_ok cs (vectorTypeInit STL_TYPE_SDS) (vectorTypeInit STL_TYPE_LONG) [] [])
      as (strs & ids & E & [kk Hstrs] & Ts & Ti & Hids);
      [apply vectorTypeInit_rep|apply vectorTypeInit_rep|cbn [length]; change (2 ^ 60) with 1152921504606846976; lia..| |].
    { eapply Forall_impl; [done|]. intros c. cbn. unfold INT_MAX. lia. }
    change (map (fun c => d2s (Z.of_nat c + 1)) cs) with (d2s (Z.of_nat c0 + 1) :: map (fun c => d2s (Z.of_nat c + 1)) cs0) in E |- *.
    cbv iota. rewrite E. res_step. eexists. split; [done|]. split.
    + split; [exact Hids|]. cbn. pose proof Hids as (_ & Hcnt & _). unfold vectorCount. rewrite Hcnt.
      cbn [app]. rewrite length_map, to_int_id; [done|unfold INT_MIN, INT_MAX; lia].
    + unfold freeColumnParameter. cbn [cp_columnIdList cp_columnIdStrList].
      destruct (vectorFreeDeep_rep ids _ Hids) as (? & ? & -> & _).
      { apply Forall_forall. intros q _ Hq. by rewrite Ti in Hq. }
      res_step. destruct (vectorFreeDeep_rep strs _ Hstrs) as (? & ? & -> & _); [|done].
      apply Forall_forall. intros q _ Hq. by rewrite Ts in Hq.
  - by destruct cs.
  - apply Forall_map, Forall_true. intros c. by apply d2s_no.
  - intros E. destruct cs as [|c cs]; [done|]. apply (d2s_nonempty (Z.of_nat c + 1)).
    cbn [map] in E. destruct cs as [|c' cs]; [done|]. rewrite sdsjoinsds_cons in E by done.
    by apply app_eq_nil in E as [? _].
Qed.

(** What the parameters of a row group tell about it. *)
Definition param_rep st (key : bytes) (ncol : nat) (g : list bytes) (param : RowGroupParameter) : Prop :=
  rp_rowCount param = rows_of ncol g ∧
  if rp_isInRocksDb param
  then rocks_rep ncol (cvsz cfg) (persistent_store (st_db st)) key g
  else ∃ a loc d, rp_dictObj param = Some a ∧ st_heap st !! a = Some (rg_entry key loc d) ∧
                  rg_rep ncol (cvsz cfg) g d.

Lemma createRowGroupParameter_ok st key ncol g :
  expires (st_db st) !! key = None →
  group_loc cfg (st_heap st) (dict (st_db st)) (persistent_store (st_db st)) key ncol g →
  ∃ param, createRowGroupParameter cfg st key = Ok (param, st) ∧
    ∀ n, n = rows_of ncol g →
      param_rep st key ncol g (mkRowGroupParam (rp_dictObj param) (rp_isInRocksDb param) n).
Proof.
  intros He Hl. unfold createRowGroupParameter, expireIfNeeded, getExpire. rewrite He. res_step.
  cbn [Z.ltb Z.compare]. res_step. unfold lookupKey, dictFind. unfold group_loc in Hl.
  destruct (dict (st_db st) !! key) as [a|] eqn:Ea; res_step.
  - destruct Hl as (loc & d & Ha & _ & Hrep & Hp). unfold entry_value, load. rewrite Ha.
    cbn [mbind res_bind deref de_val rg_entry location]. eexists. split; [done|]. intros n ->. split; [done|].
    cbn [rp_isInRocksDb rp_dictObj]. destruct (Z.eqb_spec loc LOCATION_PERSISTED); [by apply Hp|eauto 6].
  - eexists. split; [done|]. intros n ->. done.
Qed.

(** The parameters of the row groups [gs], the first of which has index [i]. *)
Lemma populate_ok st t p ncol total gs : ∀ (i : nat) g0 n0 cnt c,
  wf_tkey t p → meta_rep st (meta_key t p) (Some c) → (∀ k, expires (st_db st) !! data_key t p k = None) →
  Z.of_nat (i + length gs) ≤ INT_MAX →
  (∀ j g, gs !! j = Some g →
     c !! (Z.of_nat (i + j) + 1) = Some (rows_of ncol g) ∧ 0 ≤ rows_of ncol g ≤ INT_MAX ∧
     group_loc cfg (st_heap st) (dict (st_db st)) (persistent_store (st_db st))
       (data_key t p (Z.of_nat (i + j) + 1)) ncol g) →
  ∃ params g1 n1 total', populate_loop cfg (length gs) (Z.of_nat i) cnt st (key_info t p g0 n0) total =
      Ok (params, key_info t p g1 n1, total', st) ∧ length params = length gs ∧
    ∀ j g param, gs !! j = Some g → params !! j = Some param →
      param_rep st (data_key t p (Z.of_nat (i + j) + 1)) ncol g param.
Proof.
  revert total. induction gs as [|g gs IH]; intros total i g0 n0 cnt c Hk Hm He Hl Hg; cbn [length populate_loop].
  { eexists [], g0, n0, total. done. }
  simpl length in Hl. unfold INT_MAX in Hl.
  rewrite (to_int_id (Z.of_nat i + 1)) by (unfold INT_MIN, INT_MAX; lia).
  change (set_rowGroupId (key_info t p g0 n0) (Z.of_nat i + 1)) with (key_info t p (Z.of_nat i + 1) n0).
  rewrite key_info_data; [|by apply wf_tkey_any|unfold INT_MIN, INT_MAX; lia]. res_step.
  destruct (Hg 0%nat g eq_refl) as (Hc0 & Hr0 & Hl0). rewrite Nat.add_0_r in Hc0, Hl0.
  destruct (createRowGroupParameter_ok st _ ncol g (He (Z.of_nat i + 1)) Hl0) as (param & -> & Hp). res_step.
  assert (Hcv : counter_value (Some c) (Z.of_nat i + 1) = rows_of ncol g)
    by (unfold counter_value; cbn; by rewrite Hc0).
  rewrite (getRowNumber_ok st t p (Z.of_nat i + 1) n0 (Some c) (wf_tkey_any _ _ Hk)) by (done || rewrite ?Hcv; unfold INT_MIN, INT_MAX in *; lia).
  res_step. rewrite Hcv. replace (Z.of_nat i + 1) with (Z.of_nat (S i)) by lia.
  destruct (IH (to_int (total + cnt * rows_of ncol g)) (S i) (Z.of_nat (S i)) (rows_of ncol g) cnt c Hk Hm He)
    as (params & g1 & n1 & total' & -> & Hlen & Hps); [unfold INT_MAX; lia| |].
  { intros j g' Hj. specialize (Hg (S j) g' Hj). by rewrite Nat.add_succ_r in Hg. }
  res_step. eexists _, g1, n1, total'. split; [done|]. split; [simpl; lia|].
  intros [|j] g' param' Hj Hpj; cbn in Hj, Hpj.
  - injection Hj as <-. injection Hpj as <-. rewrite Nat.add_0_r. apply Hp. unfold to_unsigned, INT_MAX in *.
    apply Z.mod_small. change (2 ^ 63) with 9223372036854775808. lia.
  - rewrite Nat.add_succ_r. by apply (Hps j).
Qed.

(** ** The row groups in order *)

Lemma scan_loop_ok st t p ncol cs total params cp gs rest start : ∀ (i : nat) g0 n0,
  wf_tkey t p → (1 ≤ ncol ≤ 100)%nat → columns_rep cp cs → Forall (fun c => (c < ncol)%nat) cs →
  Z.of_nat (i + length gs) ≤ INT_MAX → length rest = i → Forall (wf_group ncol) gs →
  length params = length gs →
  (∀ j g param, gs !! j = Some g → params !! j = Some param →
     param_rep st (data_key t p (Z.of_nat (i + j) + 1)) ncol g param) →
  scan_loop cfg st (mkScanParam start total (key_info t p g0 n0) (rest ++ params) cp) (length gs) (Z.of_nat i) =
    Ok (concat (map (scan_group ncol cs) gs)).
Proof.
  revert params rest. induction gs as [|g gs IH]; intros params rest i g0 n0 Hk Hn Hcp Hcs Hl Hr Hgs Hlp Hps;
    cbn [length scan_loop map concat]; [done|].
  destruct params as [|param params]; [done|]. inversion Hgs as [|? ? Hg Hgs']; subst. simpl length in *.
  pose proof Hg as (_ & _ & Hrb & Hgv).
  unfold INT_MAX in Hl. cbn [sp_startRowGroupId sp_totalRowGroupCount sp_dataKeyInfo sp_rowGroupParams sp_columnParam].
  set (i := length rest) in *.
  rewrite (to_int_id (Z.of_nat i + 1)) by (unfold INT_MIN, INT_MAX; lia).
  change (set_rowGroupId (key_info t p g0 n0) (Z.of_nat i + 1)) with (key_info t p (Z.of_nat i + 1) n0).
  replace (Z.to_nat (Z.of_nat i + 1 - 1)) with i by lia.
  assert (Hpi : at_index (rest ++ param :: params) i = Ok param) by (apply at_index_Ok, lookup_app_mid).
  rewrite Hpi. res_step. specialize (Hps 0%nat g param eq_refl eq_refl) as Hp0. rewrite Nat.add_0_r in Hp0.
  destruct Hp0 as [Hrc Hp0].
  assert (Hcnt : Z.to_nat (cp_columnCount cp) = length cs) by (destruct Hcp as [_ ->]; lia).
  assert (Hrows : Z.to_nat (rp_rowCount param) = (length g / ncol)%nat) by (rewrite Hrc; unfold rows_of; lia).
  match goal with |- context [if rp_isInRocksDb param then ?x else ?y] =>
    assert (Ev : (if rp_isInRocksDb param then x else y) = Ok (scan_group ncol cs g)) end.
  { destruct (rp_isInRocksDb param).
    - unfold _cachedScanOnRocksDB_iterator. cbn [sp_rowGroupParams sp_columnParam].
      replace (Z.to_nat (Z.of_nat i + 1 - 1)) with i by lia. rewrite Hpi. res_step. rewrite Hcnt, Hrows.
      apply (rocks_group_ok st t p (Z.of_nat i + 1) ncol g _ cs); try done; [|by eexists].
      unfold INT_MIN, INT_MAX; lia.
    - destruct Hp0 as (a & loc & d & Ha & Hh & Hrep). unfold _cachedScan. cbn [sp_rowGroupParams sp_columnParam].
      replace (Z.to_nat (Z.of_nat i + 1 - 1)) with i by lia. rewrite Hpi. res_step. rewrite Hcnt, Hrows.
      by eapply memory_group_ok. }
  rewrite Ev. res_step. replace (Z.of_nat i + 1) with (Z.of_nat (S i)) by lia.
  rewrite cons_middle, app_assoc. rewrite (IH params (rest ++ [param]) (S i)); try done; try lia.
  - unfold INT_MAX. lia.
  - rewrite length_app. simpl. lia.
  - intros j g' param' Hj Hpj. rewrite Nat.add_succ_l, <- Nat.add_succ_r. by apply (Hps (S j)).
Qed.

(** ** The command *)

(** The arguments of a scan of the columns [cs] of table [(t, p)]. *)
Definition scan_args (argv : list bytes) (t : Z) (p : bytes) (cs : list nat) : Prop :=
  ∃ cmd key rest info, argv = cmd :: key :: columns_text cs :: rest ∧
    parsingDataKeyInfo key = Ok (Some info) ∧ tableId info = t ∧ partitionInfo info = PartitionString p.

(** The columns that a scan may ask for. *)
Definition can_scan (tabs : tables) (t : Z) (p : bytes) (cs : list nat) : Prop :=
  wf_tkey t p ∧ cs ≠ [] ∧ Forall (fun c => (c < 100)%nat) cs ∧ Z.of_nat (length cs) ≤ INT_MAX ∧
  ∀ T, tabs !! (t, p) = Some T → Forall (fun c => (c < t_cols T)%nat) cs.

(** The requested columns of all rows of a table. *)
Definition scan_result (tabs : tables) (t : Z) (p : bytes) (cs : list nat) : list bytes :=
  match tabs !! (t, p) with
  | Some T => scan_group (t_cols T) cs (concat (t_groups T))
  | None => []
  end.

Lemma createScanParameter_ok st argv t p cs c :
  scan_args argv t p cs → wf_tkey t p → cs ≠ [] → Forall (fun c => (c < 100)%nat) cs →
  Z.of_nat (length cs) ≤ INT_MAX → meta_rep st (meta_key t p) c →
  (∀ c', c = Some c' → ∃ v, c' !! 0 = Some v ∧ INT_MIN ≤ v ≤ INT_MAX) →
  ∃ cp, createScanParameter st argv =
      Ok (mkScanParam 0 (counter_value c 0) (key_info t p (counter_value c 0) 0) [] cp)
    ∧ columns_rep cp cs ∧ freeColumnParameter cp = Ok tt.
Proof.
  intros (cmd & key & rest & info & -> & Hp & Ht & Hpi) Hk Hne Hcs Hl Hm Hc.
  destruct (parseColumnParameter_ok cs Hne Hcs Hl) as (cp & Ecp & Hcp & Hfree).
  unfold createScanParameter. cbn [at_index lookup list_lookup mbind res_bind]. rewrite Hp. res_step.
  cbn [deref]. res_step. destruct (parsing_wf key info Hp) as (Hwf & Hr0 & _).
  assert (info = key_info t p (rowGroupId info) 0) as -> by (destruct info; cbn in *; by subst).
  rewrite (getRowGroup_ok st t p (rowGroupId info) 0 c (wf_tkey_any _ _ Hk)) by (done || by destruct Hwf as (_ & ? & _)).
  res_step. rewrite Ecp. res_step. eauto.
Qed.

Lemma fpScan_ok st tabs argv t p cs :
  Inv cfg st tabs → scan_args argv t p cs → can_scan tabs t p cs →
  fpScanCommand cfg st argv = Ok (RMulti (scan_result tabs t p cs), st).
Proof.
  intros Hinv Hargs (Hk & Hne & Hcs & Hl & Hcols). unfold fpScanCommand, scan_result.
  pose proof (inv_meta _ _ _ Hinv t p Hk) as Hm. destruct (tabs !! (t, p)) as [T|] eqn:ET.
  - destruct Hm as (c & Hm & Hc). pose proof (table_counter_0 T c Hc) as Hc0.
    destruct (inv_tables _ _ _ Hinv t p T ET) as [_ (Hn & _ & HG & Hgs)].
    specialize (Hcols T eq_refl).
    destruct (createScanParameter_ok st argv t p cs (Some c) Hargs Hk Hne Hcs Hl Hm) as (cp & -> & Hcp & Hfree).
    { intros c' [= <-]. destruct Hc as [-> _]. eexists. split; [done|]. unfold INT_MIN. lia. }
    res_step. rewrite Hc0. set (G := Z.of_nat (length (t_groups T))) in *.
    unfold populateScanParameter. cbn [sp_totalRowGroupCount sp_columnParam sp_dataKeyInfo sp_startRowGroupId].
    assert (EG : to_size_t G = G) by (apply to_size_t_id; unfold INT_MAX, SIZE_MAX, ULLONG_MAX in *; lia).
    rewrite EG. replace (Z.to_nat G) with (length (t_groups T)) by lia.
    destruct (populate_ok st t p (t_cols T) 0 (t_groups T) 0 G 0 (cp_columnCount cp) c Hk Hm)
      as (params & g1 & n1 & total' & E & Hlen & Hps); [intros k; by apply (inv_expires _ _ _ Hinv)|simpl; lia| |].
    { intros j g Hj. destruct Hc as [_ Hci]. cbn [Nat.add].
      assert (Hga : group_at tabs t p j (t_cols T) g) by (by exists T).
      destruct (group_at_wf cfg st tabs t p j _ g Hinv Hga) as (_ & _ & Hwg & _).
      pose proof (wf_group_rows (t_cols T) g ltac:(lia) Hwg). split; [by rewrite Hci, Hj|]. split; [lia|].
      by apply (inv_groups _ _ _ Hinv). }
    change (Z.of_nat 0) with 0 in E. rewrite E. res_step. res_step. unfold scanDataFromADDB.
    cbn [sp_totalRowGroupCount sp_startRowGroupId]. rewrite EG, Z.sub_0_r.
    replace (Z.to_nat G) with (length (t_groups T)) by lia.
    pose proof (scan_loop_ok st t p (t_cols T) cs G params cp (t_groups T) [] 0 0 g1 n1) as Hloop.
    cbn [app] in Hloop. change (Z.of_nat 0) with 0 in Hloop. rewrite Hloop by (done || simpl; lia).
    res_step. unfold freeScanParameter. cbn [sp_columnParam]. rewrite Hfree. res_step.
    rewrite scan_groups; [done|lia|done|]. eapply Forall_impl; [done|]. by intros g (_ & ? & _).
  - destruct (createScanParameter_ok st argv t p cs None Hargs Hk Hne Hcs Hl Hm) as (cp & -> & Hcp & Hfree); [done|].
    res_step. change (counter_value None 0) with 0. unfold populateScanParameter, scanDataFromADDB.
    cbn [sp_totalRowGroupCount sp_columnParam sp_dataKeyInfo sp_startRowGroupId].
    change (to_size_t 0) with 0. change (Z.to_nat 0) with O. cbn [populate_loop]. rewrite !bind_Ok_l. cbv beta iota.
    cbn [sp_totalRowGroupCount sp_startRowGroupId]. change (Z.to_nat (to_size_t 0 - 0)) with O. cbn [scan_loop]. res_step.
    unfold freeScanParameter. cbn [sp_columnParam]. rewrite Hfree. done.
Qed.
End scanspec.
