(* ===== verification/Tiering.v ===== *)
(** src/src/evict.c, src/src/lazyfree.c, src/src/bio.c, src/src/addb_relational.c
    (persistence), src/src/db.c (emptyDb): moving row groups to RocksDB.  The main
    thread takes entries from the eviction queue, marks them [FLUSH], appends them
    to the free queue and hands them to a background job; the job writes them to
    RocksDB in one batch and marks them [PERSISTED]; the main thread then releases
    persisted entries from the head of the free queue. *)

From S2P Require Import Prelude CString Util Sds Vector Queue Keys Serialize Hash Db Meta Write.

Definition SDS_DATA_KEY_MAX : nat := 12 + 256.

Section tiering.
  Context {Store : Type} `{RocksDB Store}.
  Implicit Types st : state Store.

(** ** Writing to RocksDB *)

(** The loop over the column vectors of one row group: [setPersistentKeyWithBatch]
    puts the key and the [strlen + 1] bytes of the serialized vector. *)
Fixpoint batch_fields (key : bytes) (fields : list (bytes * Vector bytes))
    (batch : list (bytes * bytes)) : res (list (bytes * bytes)) :=
  match fields with
  | [] => Ok batch
  | (field_key, vec) :: fields' =>
      keystr ← sprintf_at (new_buf SDS_DATA_KEY_MAX) 0
                 (cstr key ++ lit ":" ++ REL_MODEL_FIELD_PREFIX ++ cstr field_key);
      serialized ← vectorSerialize vec;
      batch_fields key fields' (batch ++ [(cstr keystr, cstr serialized ++ [NUL])])
  end.

(** [prepareWriteToRocksDB(db, keyobj, targetVal)]. *)
Definition prepareWriteToRocksDB st (key : bytes) (a : option addr) : res (state Store) :=
  a ← deref a;
  o ← entry_value st a;
  d ← rel_ptr (robj_ptr o);
  batch ← batch_fields key (map_to_list d) [];
  let '(s, err) := rocksdb_write (persistent_store (st_db st)) batch in
  if err : bool then Fault Panic else Ok (set_store st s).

(** The loop over the entries of a batch, from index [i]. *)
Fixpoint batch_entries st (n : nat) (i : Z) (keys rels : Vector addr) (batch : list (bytes * bytes))
    : res (list (bytes * bytes)) :=
  match n with
  | O => Ok batch
  | S n' =>
      key ← vectorGet keys i;
      rel ← vectorGet rels i;
      rel ← deref rel;
      o ← entry_value st rel;
      d ← rel_ptr (robj_ptr o);
      _ ← assert (bool_decide (is_Some key));
      key ← deref key;
      e ← load (st_heap st) key;
      batch ← batch_fields (de_key e) (map_to_list d) batch;
      batch_entries st n' (i + 1) keys rels batch
  end.

(** The loop that marks the values of the batch as persisted. *)
Fixpoint mark_entries (h : heap value) (n : nat) (i : Z) (rels : Vector addr) : res (heap value) :=
  match n with
  | O => Ok h
  | S n' =>
      rel ← vectorGet rels i;
      rel ← deref rel;
      h ← set_location h rel LOCATION_PERSISTED;
      mark_entries h n' (i + 1) rels
  end.

(** The part of [prepareBatchWriteToRocksDB] up to the write, and its error. *)
Definition batch_write st (keys rels : Vector addr) : res (state Store * bool) :=
  _ ← assert (vectorCount keys =? vectorCount rels);
  batch ← batch_entries st (Z.to_nat (vectorCount rels)) 0 keys rels [];
  let '(s, err) := rocksdb_write (persistent_store (st_db st)) batch in
  Ok (set_store st s, err).

(** The part after it. *)
Definition batch_mark st (rels : Vector addr) : res (state Store) :=
  h ← mark_entries (st_heap st) (Z.to_nat (vectorCount rels)) 0 rels;
  Ok (set_heap st h).

(** The values are marked before the error of the write is looked at. *)
Definition prepareBatchWriteToRocksDB st (keys rels : Vector addr) : res (state Store) :=
  '(st, err) ← batch_write st keys rels;
  st ← batch_mark st rels;
  if err : bool then Fault Panic else Ok st.

(** ** The background threads *)

(** One step of the [BIO_BATCH_TIERING] thread on the first job of its list: the
    write, or the marking, which comes before the error of the write is looked at,
    and the end of the job. *)
Definition bio_tiering_step st : res (state Store) :=
  match st_tiering st with
  | [] => Ok st
  | BatchTiering keys rels :: js =>
      '(st, err) ← batch_write st keys rels;
      Ok (set_jobs st (BatchMark rels err :: js) (st_lazyfree st))
  | BatchMark rels err :: js =>
      st ← batch_mark st rels;
      if err : bool then Fault Panic else Ok (set_jobs st js (st_lazyfree st))
  end.

(** The job at once, as [bioProcessBackgroundJobs] runs it when nothing
    interleaves. *)
Definition bioProcessBatchTiering st : res (state Store) :=
  match st_tiering st with
  | BatchTiering keys rels :: js =>
      st ← prepareBatchWriteToRocksDB st keys rels;
      Ok (set_jobs st js (st_lazyfree st))
  | _ => bio_tiering_step st
  end.

(** One job of the [BIO_LAZY_FREE] thread. *)
Definition bio_lazyfree_step st : state Store :=
  match st_lazyfree st with
  | [] => st
  | LazyFreeObject :: js => set_jobs st (st_tiering st) js
  | LazyFreeDb l :: js =>
      set_jobs (set_heap st (foldr delete (st_heap st) l)) (st_tiering st) js
  end.

(** ** Eviction *)

Definition dbPersistBatch_ st (keys rels : Vector addr) : state Store :=
  create_tiering_job st (BatchTiering keys rels).

(** [dbClear_] returns the status of [dictDelete]: [false] when it succeeds. *)
Definition dbClear_ st (key : bytes) : bool * state Store :=
  let '(found, st) := dictDelete st key in (negb found, st).

Definition _getRowCount st (dataKey : bytes) : res Z :=
  r ← toMetaKey dataKey;
  match r with
  | (C_OK, Some (metaKey, rowGroupId)) =>
      lookupCompInfoForRowNumberInMeta (lookupSDSKeyForMetadict st metaKey)
        (createStringObjectFromLongLong rowGroupId)
  | _ => Fault AssertFail
  end.

(** The loop of [_batchTiering] with [count] rows left. *)
Fixpoint tiering_loop (fuel : nat) st (count : Z) (keys rels : Vector addr)
    : res (state Store * Vector addr * Vector addr) :=
  if isEmpty (EvictQueue (st_db st)) || (count <=? 0) then Ok (st, keys, rels)
  else
    match fuel with
    | O => Fault OutOfFuel
    | S f =>
        '(de, h, eq, fq) ← chooseBestKeyFromQueue_ (st_heap st) (EvictQueue (st_db st)) (FreeQueue (st_db st));
        let st := set_queues (set_heap st h) eq fq in
        match de with
        | None => tiering_loop f st count keys rels
        | Some a =>
            e ← load (st_heap st) a;
            '(_, keys) ← vectorAdd keys (Some a);
            '(_, rels) ← vectorAdd rels (match de_val e with Some _ => Some a | None => None end);
            rowCount ← _getRowCount st (de_key e);
            tiering_loop f st (to_int (count - rowCount)) keys rels
        end
    end.

Definition _batchTiering (cfg : config) st (keys rels : Vector addr) : res (state Store) :=
  '(st, keys, rels) ← tiering_loop (Z.to_nat (max (EvictQueue (st_db st)))) st
                        (batch_tiering_size cfg) keys rels;
  Ok (dbPersistBatch_ st keys rels).

(** [_batchTiering] on two new vectors. *)
Definition evict_batch (cfg : config) st : res (state Store) :=
  evict_keys ← vectorCreate STL_TYPE_SDS INIT_VECTOR_SIZE;
  evict_relations ← vectorCreate STL_TYPE_ROBJ INIT_VECTOR_SIZE;
  _batchTiering cfg st evict_keys evict_relations.

(** The release of one victim from a free queue that is not empty. *)
Definition clear_one st : res (state Store) :=
  '(victim, fq) ← chooseClearKeyFromQueue_ (st_heap st) (FreeQueue (st_db st));
  let st := set_queues st (EvictQueue (st_db st)) fq in
  match victim with
  | None => Ok st
  | Some a =>
      e ← load (st_heap st) a;
      victVal ← deref (de_val e);
      _ ← assert (location victVal =? LOCATION_PERSISTED);
      let '(isFlushed, st) := dbClear_ st (de_key e) in
      _ ← assert (negb isFlushed);
      Ok st
  end.

(** The body of the loop of [freeMemoryIfNeeded]. *)
Definition free_memory_round (cfg : config) st : res (state Store) :=
  if negb (isEmpty (FreeQueue (st_db st))) then clear_one st else evict_batch cfg st.

(** The memory that the allocator reports, the memory that is not counted
    ([freeMemoryGetNotCountedMemory]), the size of the AOF buffers, and what the
    background threads did during round [i] of the loop. *)
Record memory_env := mkMemoryEnv {
  zmalloc_used_memory : state Store → Z;
  not_counted : Z;
  aof_buffers : Z;
  paused : bool;
  background : nat → state Store → res (state Store);
}.

Fixpoint free_memory_loop (cfg : config) (env : memory_env) (fuel : nat) (i : nat) st (mem_used : Z)
    : res (state Store) :=
  if mem_used <=? maxmemory cfg then Ok st
  else
    match fuel with
    | O => Fault OutOfFuel
    | S f =>
        st ← free_memory_round cfg st;
        st ← background env i st;
        free_memory_loop cfg env f (S i) st (to_size_t (zmalloc_used_memory env st - aof_buffers env))
    end.

(** With the policy [noeviction] the function only waits for lazy frees. *)
Definition freeMemoryIfNeeded (cfg : config) (env : memory_env) (fuel : nat) st : res (rc * state Store) :=
  if paused env then Ok (C_OK, st)
  else
    let mem_reported := zmalloc_used_memory env st in
    let limit := to_size_t (maxmemory cfg * 8) / 10 in
    if mem_reported <=? limit then Ok (C_OK, st)
    else
      let mem_used := if mem_reported >? not_counted env then mem_reported - not_counted env else 0 in
      if mem_used <=? limit then Ok (C_OK, st)
      else if no_eviction cfg then Ok (C_ERR, st)
      else
        st ← (if size (FreeQueue (st_db st)) <? DEFAULT_FREE_QUEUE_SIZE - 1 then evict_batch cfg st else Ok st);
        st ← free_memory_loop cfg env fuel 0 st mem_used;
        Ok (C_OK, st).

(** ** emptyDb *)

(** The databases of the server share the heap. *)
Definition db_entries (db : redisDb Store) : list addr := (map_to_list (dict db)).*2.

Definition dictEmpty_all (h : heap value) (db : redisDb Store) : heap value * redisDb Store :=
  (foldr delete h (db_entries db),
   mkDb ∅ ∅ ∅ (EvictQueue db) (FreeQueue db) (persistent_store db)).

(** [emptyDbAsync]: the entries are released later; Metadict is kept. *)
Definition emptyDbAsync (db : redisDb Store) : redisDb Store * lazy_job :=
  (mkDb ∅ ∅ (Metadict db) (EvictQueue db) (FreeQueue db) (persistent_store db), LazyFreeDb (db_entries db)).

(** The first loop, from database [j]. *)
Fixpoint empty_loop (dbnum : Z) (async : bool) (j : Z) (h : heap value) (dbs : list (redisDb Store))
    : Z * heap value * list (redisDb Store) * list lazy_job :=
  match dbs with
  | [] => (0, h, [], [])
  | db :: dbs' =>
      if negb (dbnum =? -1) && negb (dbnum =? j) then
        let '(removed, h, dbs', jobs) := empty_loop dbnum async (j + 1) h dbs' in
        (removed, h, db :: dbs', jobs)
      else
        let n := Z.of_nat (base.size (dict db)) + Z.of_nat (base.size (Metadict db)) in
        if async then
          let '(db, job) := emptyDbAsync db in
          let '(removed, h, dbs', jobs) := empty_loop dbnum async (j + 1) h dbs' in
          (n + removed, h, db :: dbs', job :: jobs)
        else
          let '(h, db) := dictEmpty_all h db in
          let '(removed, h, dbs', jobs) := empty_loop dbnum async (j + 1) h dbs' in
          (n + removed, h, db :: dbs', jobs)
  end.

(** The second loop: the queues of every database. *)
Fixpoint init_queues (h : heap value) (dbs : list (redisDb Store)) : res (list (redisDb Store)) :=
  match dbs with
  | [] => Ok []
  | db :: dbs' =>
      eq ← initializeQueue h (EvictQueue db);
      fq ← initializeQueue h (FreeQueue db);
      dbs' ← init_queues h dbs';
      Ok (mkDb (dict db) (expires db) (Metadict db) eq fq (persistent_store db) :: dbs')
  end.

(** The lazy-free thread may work on the jobs as soon as they are posted: it has
    released the entries that [freed] tells before they are read again. *)
Definition job_entries (j : lazy_job) : list addr := match j with LazyFreeObject => [] | LazyFreeDb l => l end.
Definition lazyfree_races (freed : addr → bool) (h : heap value) (jobs : list lazy_job) : heap value * list lazy_job :=
  (foldr delete h (List.filter freed (concat (map job_entries jobs))),
   map (fun j => match j with LazyFreeObject => j | LazyFreeDb l => LazyFreeDb (List.filter (fun a => negb (freed a)) l) end) jobs).

(** The number of removed keys, the heap, the databases and the lazy-free jobs that
    are left. *)
Definition emptyDb (h : heap value) (dbs : list (redisDb Store)) (dbnum : Z) (async : bool) (freed : addr → bool)
    : res (Z * heap value * list (redisDb Store) * list lazy_job) :=
  if (dbnum <? -1) || (Z.of_nat (length dbs) <=? dbnum) then Ok (-1, h, dbs, [])
  else
    let '(removed, h, dbs, jobs) := empty_loop dbnum async 0 h dbs in
    let '(h, jobs) := lazyfree_races freed h jobs in
    dbs ← init_queues h dbs;
    Ok (removed, h, dbs, jobs).
End tiering.
