(* ===== verification/TieringSpec.v ===== *)
(** Eviction, the background jobs and the release of persisted row groups keep the
    invariant of Invariant.v: none of them changes the contents of the tables. *)

From S2P Require Import Prelude CString Util Sds Vector Queue Keys Serialize Hash Db Meta Table Invariant Write WriteSpec Scan ScanSpec Tiering.

Section tieringspec.
  Context {Store : Type} `{RocksDB Store} (cfg : config).
  Implicit Types (st : state Store) (tabs : tables).

(** ** Moving row groups *)

(** A step that leaves the counters and the tables alone keeps the invariant if the
    dictionary and the heap only shrink or change in place, every row group is
    still found, and queues and jobs are in order. *)
Lemma inv_move st st' tabs :
  Inv cfg st tabs →
  Metadict (st_db st') = Metadict (st_db st) → expires (st_db st') = expires (st_db st) →
  st_next st' = st_next st → dict (st_db st') ⊆ dict (st_db st) →
  (∀ a, is_Some (st_heap st' !! a) → is_Some (st_heap st !! a)) →
  (∀ k a e, dict (st_db st') !! k = Some a → st_heap st !! a = Some e →
     ∃ e', st_heap st' !! a = Some e' ∧ de_key e' = de_key e) →
  (∀ t p i ncol g, group_at tabs t p i ncol g →
     group_loc cfg (st_heap st') (dict (st_db st')) (persistent_store (st_db st'))
       (data_key t p (Z.of_nat i + 1)) ncol g) →
  (∃ le lf lj, tier_inv cfg st' tabs le lf lj) →
  queue_bound st (EvictQueue (st_db st')) → queue_bound st (FreeQueue (st_db st')) →
  Inv cfg st' tabs.
Proof.
  intros Hinv Em Ee En Hd Hh Hk Hg Ht Hb1 Hb2. split.
  - exact (inv_tables _ _ _ Hinv).
  - intros t p Hw. unfold meta_rep. rewrite Em. exact (inv_meta _ _ _ Hinv t p Hw).
  - exact Hg.
  - intros t p i Hw Hl. pose proof (inv_absent _ _ _ Hinv t p i Hw Hl) as E. by eapply lookup_weaken_None.
  - rewrite Ee. exact (inv_expires _ _ _ Hinv).
  - intros k a Ha. destruct (inv_heap _ _ _ Hinv k a) as (e & E & <-); [by eapply lookup_weaken|].
    exact (Hk _ _ _ Ha E).
  - rewrite En. intros a Ha. by apply (inv_next _ _ _ Hinv), Hh.
  - exact Ht.
  - rewrite En. exact (inv_count _ _ _ Hinv).
  - rewrite En. exact (inv_room _ _ _ Hinv).
  - unfold queue_bound in *. rewrite En. done.
Qed.

(** [h'] is [h] with the row groups of the entries [l] moved to location [loc']. *)
Definition relocated (l : list addr) (loc' : Z) (h h' : heap value) : Prop :=
  (∀ a, a ∉ l → h' !! a = h !! a) ∧
  (∀ a k loc d, a ∈ l → h !! a = Some (rg_entry k loc d) → h' !! a = Some (rg_entry k loc' d)).

Lemma relocated_one a k loc loc' d (h : heap value) :
  h !! a = Some (rg_entry k loc d) → relocated [a] loc' h (<[a := rg_entry k loc' d]> h).
Proof.
  intros Ha. split.
  - intros b Hb%not_elem_of_cons. by rewrite lookup_insert_ne by naive_solver.
  - intros b k0 loc0 d0 ->%list_elem_of_singleton E. rewrite Ha in E. injection E as <- <- <-.
    by rewrite lookup_insert_eq.
Qed.

Section relocate.
  Context (l : list addr) (loc' : Z) (h h' : heap value) (Hrel : relocated l loc' h h').
  Context (dk : gmap bytes addr) (s : Store) (tabs : tables).

Lemma relocated_other b loc : b ∉ l → entry_at h dk tabs b loc → entry_at h' dk tabs b loc.
Proof.
  intros Hb (t & p & i & ncol & g & d & Hg & Hk & E). exists t, p, i, ncol, g, d.
  by rewrite (proj1 Hrel b Hb).
Qed.

Lemma relocated_in b loc : b ∈ l → entry_at h dk tabs b loc → entry_at h' dk tabs b loc'.
Proof.
  intros Hb (t & p & i & ncol & g & d & Hg & Hk & E). exists t, p, i, ncol, g, d.
  by rewrite (proj2 Hrel b _ _ _ Hb E).
Qed.

(** Entries of other locations are not among those moved. *)
Lemma entry_at_not_in b loc loc0 :
  Forall (fun a => entry_at h dk tabs a loc0) l → loc ≠ loc0 → entry_at h dk tabs b loc → b ∉ l.
Proof.
  intros Hl Hne Hb Hin. rewrite Forall_forall in Hl. apply Hne. by eapply entry_at_loc; [|apply Hl].
Qed.

Context (loc0 : Z) (Hl : Forall (fun a => entry_at h dk tabs a loc0) l).

Lemma relocated_same b loc : loc ≠ loc0 → entry_at h dk tabs b loc → entry_at h' dk tabs b loc.
Proof. intros Hne Hb. apply relocated_other; [by eapply entry_at_not_in|done]. Qed.

Lemma relocated_key a e :
  h !! a = Some e → ∃ e', h' !! a = Some e' ∧ de_key e' = de_key e.
Proof.
  intros E. destruct (decide (a ∈ l)) as [Hin|Hn]; [|exists e; by rewrite (proj1 Hrel a Hn)].
  rewrite Forall_forall in Hl. destruct (Hl a Hin) as (t & p & i & ncol & g & d & _ & _ & E').
  rewrite E in E'. injection E' as ->. eexists. split; [by apply (proj2 Hrel _ _ _ _ Hin E)|done].
Qed.

Lemma relocated_dom a : is_Some (h' !! a) → is_Some (h !! a).
Proof.
  intros Ha. destruct (decide (a ∈ l)) as [Hin|Hn]; [|by rewrite <- (proj1 Hrel a Hn)].
  rewrite Forall_forall in Hl. destruct (Hl a Hin) as (t & p & i & ncol & g & d & _ & _ & E'). by eexists.
Qed.

Lemma relocated_groups t p i ncol g :
  is_location loc' → (loc' = LOCATION_PERSISTED → Forall (persisted cfg dk s tabs) l) →
  group_at tabs t p i ncol g →
  group_loc cfg h dk s (data_key t p (Z.of_nat i + 1)) ncol g →
  group_loc cfg h' dk s (data_key t p (Z.of_nat i + 1)) ncol g.
Proof.
  intros Hloc Hp Hg. unfold group_loc. destruct (dk !! data_key t p (Z.of_nat i + 1)) as [a|] eqn:Ea; [|done].
  intros (loc & d & E & Hisl & Hrep & Hr). destruct (decide (a ∈ l)) as [Hin|Hn].
  - exists loc', d. split_and!; [by apply (proj2 Hrel _ _ _ _ Hin E)|done|done|].
    intros HP. specialize (Hp HP). rewrite Forall_forall in Hp. by eapply (Hp a Hin).
  - exists loc, d. by rewrite (proj1 Hrel a Hn).
Qed.
End relocate.

(** ** Eviction *)

Lemma getRowCount_ok st tabs t p i ncol g :
  Inv cfg st tabs → group_at tabs t p i ncol g →
  _getRowCount st (data_key t p (Z.of_nat i + 1)) = Ok (rows_of ncol g) ∧ 1 ≤ rows_of ncol g ≤ INT_MAX.
Proof.
  intros Hinv Hg. destruct (group_at_wf cfg st tabs t p i ncol g Hinv Hg) as (Hk & Hn & Hw & Hi).
  pose proof (wf_group_rows ncol g ltac:(lia) Hw) as Hrows. split; [|done].
  destruct Hg as (T & HT & HTi & <-). pose proof Hk as (Ht & Hp & _).
  assert (HI : INT_MIN ≤ Z.of_nat i + 1 ≤ INT_MAX) by (unfold INT_MIN; lia).
  pose proof (wf_tkey_length t p _ Hk HI). unfold _getRowCount.
  rewrite toMetaKey_ok by (done || unfold MAX_TMPBUF_SIZE; lia). res_step.
  rewrite long_object by (by apply int_long).
  pose proof (inv_meta _ _ _ Hinv t p Hk) as Hm. rewrite HT in Hm. destruct Hm as (c & Hm & _ & Hc).
  rewrite (lookupRowNumber_ok st _ (Some c)); [|done|done|].
  - cbn. by rewrite Hc, HTi.
  - intros c' v [= <-]. rewrite Hc, HTi. intros [= <-]. unfold INT_MIN. lia.
Qed.

(** The state while a batch is collected is seen as one with the job already
    queued. *)
#[local] Abbreviation with_job st keys rels := (create_tiering_job st (BatchTiering keys rels)).

Lemma tier_evict st tabs keys rels keys' rels' a le lf lf' lj l k d q fq :
  tier_inv cfg (with_job st keys rels) tabs (a :: le) lf (lj ++ [l]) →
  st_heap st !! a = Some (rg_entry k LOCATION_REDIS_ONLY d) →
  queue_elems q le → queue_elems fq (lf' ++ [a]) → lf' `prefix_of` lf →
  vector_rep keys' (map Some (l ++ [a])) → vector_rep rels' (map Some (l ++ [a])) →
  tier_inv cfg (with_job (set_queues (set_heap st (<[a := rg_entry k LOCATION_FLUSH d]> (st_heap st))) q fq) keys' rels')
    tabs le (lf' ++ [a]) (lj ++ [l ++ [a]]).
Proof.
  intros [He Hf Hj Hel Hfl Hjl Hen Hfn Hjn Hfs] Ha Hq Hfq [z ->] Hv1 Hv2. cbn in *.
  pose proof (relocated_one a k _ LOCATION_FLUSH d _ Ha) as Hrel.
  apply Forall_cons in Hel as [Hea Hel]. apply NoDup_cons in Hen as [Han Hen].
  apply Forall_app in Hfl as [Hfl _]. apply NoDup_app in Hfn as (Hfn & _). apply Forall2_snoc in Hj as [Hj _].
  assert (Hmoved : Forall (fun b => entry_at (st_heap st) (dict (st_db st)) tabs b LOCATION_REDIS_ONLY) [a])
    by (by apply Forall_singleton).
  pose proof (relocated_in _ _ _ _ Hrel (dict (st_db st)) tabs a _ ltac:(by apply list_elem_of_here) Hea) as Hnew.
  pose proof (relocated_same _ _ _ _ Hrel (dict (st_db st)) tabs _ Hmoved) as Hsame.
  assert (Hnot : ∀ b loc, loc ≠ LOCATION_REDIS_ONLY → entry_at (st_heap st) (dict (st_db st)) tabs b loc → b ≠ a).
  { intros b loc Hne Hb ->. by apply Hne, (entry_at_loc _ _ _ _ _ _ Hb Hea). }
  rewrite concat_app in *. cbn in *. rewrite app_nil_r in *. split; cbn; try done.
  - apply Forall2_snoc. split; [done|]. done.
  - rewrite Forall_forall in Hel |- *. intros b Hb. apply (relocated_other _ _ _ _ Hrel); [|auto].
    intros ->%list_elem_of_singleton. done.
  - apply Forall_app. split; [|by apply Forall_singleton; left].
    eapply Forall_impl; [exact Hfl|]. intros b [Hb|Hb]; [left|right]; by apply Hsame.
  - rewrite concat_app. cbn. rewrite app_nil_r, app_assoc. apply Forall_app. split; [|by apply Forall_singleton].
    eapply Forall_impl; [exact Hjl|]. intros b Hb. by apply Hsame.
  - apply NoDup_app. split_and!; [done| |apply NoDup_singleton]. intros b Hb ->%list_elem_of_singleton.
    rewrite Forall_forall in Hfl. destruct (Hfl a Hb) as [Hb'|Hb']; by eapply Hnot in Hb'.
  - rewrite concat_app. cbn. rewrite app_nil_r, app_assoc. apply NoDup_app. split_and!; [done| |apply NoDup_singleton].
    intros b Hb ->%list_elem_of_singleton. rewrite Forall_forall in Hjl. by eapply Hnot in Hjl.
  - intros k0 b d0 Hk0. rewrite concat_app. cbn. rewrite app_nil_r, app_assoc, elem_of_app, list_elem_of_singleton.
    intros [[-> _]|[Hne E]]%lookup_insert_Some; [by right|left]. by eapply Hfs.
Qed.

(** One round of the loop of [_batchTiering]. *)
Lemma evict_one st tabs keys rels a le lf lj l :
  Inv cfg (with_job st keys rels) tabs →
  tier_inv cfg (with_job st keys rels) tabs (a :: le) lf (lj ++ [l]) →
  ∃ k d q fq keys' rels' n lf',
    let st' := set_queues (set_heap st (<[a := rg_entry k LOCATION_FLUSH d]> (st_heap st))) q fq in
    st_heap st !! a = Some (rg_entry k LOCATION_REDIS_ONLY d) ∧
    chooseBestKeyFromQueue_ (st_heap st) (EvictQueue (st_db st)) (FreeQueue (st_db st)) =
      Ok (Some a, st_heap st', q, fq) ∧
    vectorAdd keys (Some a) = Ok (C_OK, keys') ∧ vectorAdd rels (Some a) = Ok (C_OK, rels') ∧
    _getRowCount st k = Ok n ∧ 1 ≤ n ≤ INT_MAX ∧
    Inv cfg (with_job st' keys' rels') tabs ∧
    tier_inv cfg (with_job st' keys' rels') tabs le lf' (lj ++ [l ++ [a]]) ∧ (length lf' ≤ S (length lf))%nat.
Proof.
  intros Hinv Ht. pose proof Ht as [He Hf Hj Hel Hfl Hjl Hen Hfn Hjn Hfs].
  apply Forall2_snoc in Hj as [_ [Hv1 Hv2]].
  apply Forall_cons in Hel as [Hea Hel]. pose proof Hea as (t & p & i & ncol & g & d & Hg & Hk & Ha).
  set (k := data_key t p (Z.of_nat i + 1)) in *. cbn [st_heap create_tiering_job set_jobs] in Ha.
  destruct (enqueue_bound cfg (with_job st keys rels) tabs (FreeQueue (st_db st)) lf a Hinv)
    as (fq & lf' & Efq & Hfq & Hpre & Hfb); [apply (inv_queues _ _ _ Hinv)|done|done| |].
  { eapply Forall_impl; [exact Hfl|]. intros b [Hb|Hb]; by eapply entry_at_next. }
  destruct (choose_best_cons (st_heap st) (EvictQueue (st_db st)) (FreeQueue (st_db st)) fq a le _ _ He Efq Ha eq_refl eq_refl)
    as (q & Eq & Hq & Hqm).
  assert (Hlen : Z.of_nat (length (map Some l)) + 10 < 2 ^ 60).
  { rewrite length_map. rewrite concat_app in Hjl, Hjn. cbn in Hjl, Hjn. rewrite app_nil_r in Hjl, Hjn.
    apply Forall_app in Hjl as [_ Hjl]. apply NoDup_app in Hjn as (_ & _ & Hjn).
    pose proof (nodup_pos_length l (st_next st) Hjn) as Hln. pose proof (inv_room _ _ _ Hinv) as Hroom. cbn in Hroom.
    unfold MAX_ENTRIES in Hroom. change (2 ^ 29) with 536870912 in Hroom. change (2 ^ 60) with 1152921504606846976.
    enough (Z.of_nat (length l) < Z.pos (st_next st)) by lia. apply Hln. eapply Forall_impl; [exact Hjl|].
    intros b Hb. exact (entry_at_next cfg _ _ _ _ Hinv Hb). }
  destruct (vectorAdd_rep keys _ (Some a) Hv1 Hlen) as (keys' & E1 & Hv1' & _).
  destruct (vectorAdd_rep rels _ (Some a) Hv2 Hlen) as (rels' & E2 & Hv2' & _).
  assert (Emap : map Some l ++ [Some a] = map Some (l ++ [a])) by (by rewrite map_app).
  rewrite Emap in Hv1'. rewrite Emap in Hv2'.
  destruct (getRowCount_ok _ _ _ _ _ _ _ Hinv Hg) as [En Hn].
  pose proof (tier_evict st tabs keys rels keys' rels' a le lf lf' lj l k d q fq Ht Ha Hq Hfq Hpre Hv1' Hv2') as Ht'.
  exists k, d, q, fq, keys', rels', (rows_of ncol g), (lf' ++ [a]). split_and!; try done; [lia|lia| |].
  2:{ apply prefix_length in Hpre. rewrite length_app. simpl. lia. }
  pose proof (relocated_one a k _ LOCATION_FLUSH d _ Ha) as Hrel.
  assert (Hmoved : Forall (fun b => entry_at (st_heap st) (dict (st_db st)) tabs b LOCATION_REDIS_ONLY) [a])
    by (by apply Forall_singleton).
  apply (inv_move _ _ _ Hinv); try done; cbn.
  - intros b. by apply (relocated_dom _ _ _ _ Hrel (dict (st_db st)) tabs _ Hmoved).
  - intros _ b e _. by apply (relocated_key _ _ _ _ Hrel (dict (st_db st)) tabs _ Hmoved).
  - intros t0 p0 i0 ncol0 g0 Hg0. apply (relocated_groups _ _ _ _ Hrel _ _ tabs); [by right; left|done|done|].
    exact (inv_groups _ _ _ Hinv _ _ _ _ _ Hg0).
  - eauto.
  - unfold queue_bound. rewrite Hqm. apply (inv_queues _ _ _ Hinv).
Qed.

(** How many entries of the eviction queue a batch of [count] rows takes: the
    shortest prefix that has so many rows, or all. *)
Fixpoint taken (rows : addr → Z) (count : Z) (le : list addr) : nat :=
  match le with
  | [] => 0
  | a :: le' => if count <=? 0 then 0 else S (taken rows (count - rows a) le')
  end.

Definition entry_rows st (a : addr) : Z :=
  match e ← load (st_heap st) a; _getRowCount st (de_key e) with Ok n => n | Fault _ => 0 end.

Lemma tiering_loop_ok rows tabs lj fuel : ∀ st count keys rels le lf l,
  Inv cfg (with_job st keys rels) tabs → tier_inv cfg (with_job st keys rels) tabs le lf (lj ++ [l]) →
  (length le ≤ fuel)%nat → count ≤ INT_MAX → Forall (fun a => entry_rows st a = rows a) le →
  ∃ st' keys' rels' lf', tiering_loop fuel st count keys rels = Ok (st', keys', rels') ∧
    Inv cfg (with_job st' keys' rels') tabs ∧ st_tiering st' = st_tiering st ∧ st_next st' = st_next st ∧
    tier_inv cfg (with_job st' keys' rels') tabs (drop (taken rows count le) le) lf'
      (lj ++ [l ++ take (taken rows count le) le]) ∧ (length lf' ≤ length lf + taken rows count le)%nat.
Proof.
  induction fuel as [|fuel IH]; intros st count keys rels le lf l Hinv Ht Hfuel Hcount Hrows;
    pose proof Ht as [He _ _ _ _ _ Hen _ _ _]; cbn [tiering_loop]; unfold isEmpty;
    cbn [st_db create_tiering_job set_jobs] in He; rewrite (queue_empty_iff _ _ He).
  - destruct le; [|simpl in *; lia]. cbn [bool_decide orb]. exists st, keys, rels, lf. cbn. rewrite app_nil_r. split_and!; done || lia.
  - destruct le as [|a le].
    { cbn [bool_decide orb]. exists st, keys, rels, lf. cbn. rewrite app_nil_r. split_and!; done || lia. }
    rewrite bool_decide_false by done. cbn [orb taken]. destruct (Z.leb_spec count 0) as [Hc|Hc].
    { exists st, keys, rels, lf. cbn. rewrite app_nil_r. split_and!; done || lia. }
    destruct (evict_one st tabs keys rels a le lf lj l Hinv Ht)
      as (k & d & q & fq & keys' & rels' & n & lf' & Ha & -> & Ek & Er & En & Hn & Hinv' & Ht' & Hlf).
    res_step. unfold load at 1. cbn [st_heap set_queues set_heap set_db]. rewrite lookup_insert_eq. res_step.
    cbn [rg_entry de_val de_key]. rewrite Ek. res_step. rewrite Er. res_step.
    inversion Hrows as [|? ? Hra Hrle]; subst.
    assert (Hna : rows a = n).
    { rewrite <- Hra. unfold entry_rows, load. rewrite Ha. res_step. cbn [rg_entry de_key]. by rewrite En. }
    match goal with |- context [_getRowCount ?s k] => change (_getRowCount s k) with (_getRowCount st k) end.
    rewrite En. res_step. rewrite to_int_id by (unfold INT_MIN, INT_MAX in *; lia). rewrite Hna.
    apply NoDup_cons in Hen as [Han _].
    edestruct IH as (st2 & keys2 & rels2 & lf2 & E & Hinv2 & Htier & Hnx & Ht2 & Hlf2);
      [exact Hinv'|exact Ht'|cbn [length] in Hfuel; lia| | |].
    { instantiate (1 := count - n). lia. }
    { rewrite Forall_forall in Hrle |- *. intros b Hb. rewrite <- (Hrle b Hb). unfold entry_rows, load.
      cbn [st_heap set_queues set_heap set_db]. rewrite lookup_insert_ne by (by intros ->). done. }
    exists st2, keys2, rels2, lf2. rewrite E. split_and!; [done|done|done|done| |lia].
    cbn [take drop]. by rewrite <- app_assoc in Ht2.
Qed.

Lemma with_job_empty st tabs keys rels :
  Inv cfg st tabs → vector_rep keys [] → vector_rep rels [] →
  ∀ le lf lj, tier_inv cfg st tabs le lf lj →
    tier_inv cfg (with_job st keys rels) tabs le lf (lj ++ [[]]) ∧ Inv cfg (with_job st keys rels) tabs.
Proof.
  intros Hinv H1 H2 le lf lj Ht. assert (Ht' : tier_inv cfg (with_job st keys rels) tabs le lf (lj ++ [[]])).
  { destruct Ht. split; try done; cbn; rewrite ?concat_app; cbn; rewrite ?app_nil_r; try done.
    apply Forall2_snoc. done. }
  split; [done|]. apply (inv_move _ _ _ Hinv); try done; cbn; try apply (inv_queues _ _ _ Hinv).
  - intros k a e _ E. by eexists.
  - intros *. apply (inv_groups _ _ _ Hinv).
  - eauto.
Qed.

(** [evict_batch] queues a job for a prefix of the eviction queue. *)
Lemma evict_batch_ok st tabs le :
  wf_config cfg → Inv cfg st tabs → queue_elems (EvictQueue (st_db st)) le →
  let n := taken (entry_rows st) (batch_tiering_size cfg) le in
  ∃ st' keys rels, evict_batch cfg st = Ok st' ∧ Inv cfg st' tabs ∧
    st_tiering st' = st_tiering st ++ [BatchTiering keys rels] ∧
    vector_rep keys (map Some (take n le)) ∧ vector_rep rels (map Some (take n le)) ∧
    queue_elems (EvictQueue (st_db st')) (drop n le) ∧ st_next st' = st_next st ∧
    ∀ lf, queue_elems (FreeQueue (st_db st)) lf →
      ∃ lf', queue_elems (FreeQueue (st_db st')) lf' ∧ (length lf' ≤ length lf + n)%nat.
Proof.
  intros (_ & _ & Hb) Hinv Hq n. unfold evict_batch, vectorCreate.
  destruct (vectorTypeInitWithSize_rep (A := addr) STL_TYPE_SDS INIT_VECTOR_SIZE) as (v1 & -> & Hv1 & _);
    [by unfold INIT_VECTOR_SIZE|]. res_step.
  destruct (vectorTypeInitWithSize_rep (A := addr) STL_TYPE_ROBJ INIT_VECTOR_SIZE) as (v2 & -> & Hv2 & _);
    [by unfold INIT_VECTOR_SIZE|]. res_step.
  destruct (inv_tier _ _ _ Hinv) as (le' & lf & lj & Ht).
  assert (le' = le) as -> by (eapply queue_elems_inj; [apply Ht|done]).
  destruct (with_job_empty st tabs v1 v2 Hinv Hv1 Hv2 le lf lj Ht) as [Ht0 Hinv0].
  destruct (tiering_loop_ok (entry_rows st) tabs lj (Z.to_nat (max (EvictQueue (st_db st)))) st
    (batch_tiering_size cfg) v1 v2 le lf [] Hinv0 Ht0) as (st' & keys & rels & lf' & E & Hinv' & Htj & Hnx & Ht' & Hlf).
  { destruct Hq as (? & _ & _ & ? & _). lia. } { lia. } { by apply Forall_true. }
  unfold _batchTiering. rewrite E. res_step. fold n in Ht'. pose proof Ht' as [He _ Hj _ _ _ _ _ _ _].
  apply Forall2_snoc in Hj as [_ [Hk Hr]].
  exists (with_job st' keys rels), keys, rels. split_and!; try done; [cbn; by rewrite Htj|].
  intros lf0 Hf0. assert (lf0 = lf) as -> by (eapply queue_elems_inj; [done|apply Ht]).
  exists lf'. split; [apply Ht'|done].
Qed.

(** ** Release of persisted row groups *)

Lemma set_queues_id st : set_queues st (EvictQueue (st_db st)) (FreeQueue (st_db st)) = st.
Proof. destruct st as [? ? []]. done. Qed.

(** The state after entry [a], with key [k], was released. *)
Definition released st (k : bytes) (a : addr) (fq : Queue) : state Store :=
  set_heap (set_dict (set_queues st (EvictQueue (st_db st)) fq) (delete k (dict (st_db st)))) (delete a (st_heap st)).

Section release.
  Context (st : state Store) (tabs : tables) (Hinv : Inv cfg st tabs) (a : addr) (k : bytes) (d : relation).
  Context (Hk : dict (st_db st) !! k = Some a).
  Context (Ha : st_heap st !! a = Some (rg_entry k LOCATION_PERSISTED d)).

Lemma released_entry b loc :
  b ≠ a → entry_at (st_heap st) (dict (st_db st)) tabs b loc →
  entry_at (delete a (st_heap st)) (delete k (dict (st_db st))) tabs b loc.
Proof.
  intros Hne Hb. apply (entry_at_frame _ _ _ _ _ _ _ _ Hb).
  - intros k' Hk'. rewrite lookup_delete_ne; [done|]. intros ->. congruence.
  - intros k' d' E. exists d'. by rewrite lookup_delete_ne.
  - eauto.
Qed.

Lemma released_other b loc :
  loc ≠ LOCATION_PERSISTED → entry_at (st_heap st) (dict (st_db st)) tabs b loc →
  entry_at (delete a (st_heap st)) (delete k (dict (st_db st))) tabs b loc.
Proof.
  intros Hne Hb. apply released_entry; [|done]. intros ->. apply Hne.
  destruct Hb as (? & ? & ? & ? & ? & ? & _ & _ & E). rewrite Ha in E. by injection E.
Qed.

Lemma tier_release le lf lj fq :
  tier_inv cfg st tabs le (a :: lf) lj → queue_elems fq lf →
  tier_inv cfg (released st k a fq) tabs le lf lj.
Proof.
  intros [He Hf Hj Hel Hfl Hjl Hen Hfn Hjn Hfs] Hfq. apply NoDup_cons in Hfn as [Han Hfn].
  apply Forall_cons in Hfl as [_ Hfl]. split; cbn; try done.
  - eapply jobs_frame; [|done]. apply Forall_true. intros b Hp t p i ncol g Hg [_ Hd]%lookup_delete_Some.
    by apply (Hp t p i ncol g).
  - eapply Forall_impl; [exact Hel|]. intros b Hb. by apply released_other.
  - rewrite Forall_forall in Hfl |- *. intros b Hb. assert (b ≠ a) by (by intros ->).
    destruct (Hfl b Hb) as [He'|He']; [left|right]; by apply released_entry.
  - eapply Forall_impl; [exact Hjl|]. intros b Hb. by apply released_other.
  - intros k0 b d0 [_ Hk0]%lookup_delete_Some [_ E]%lookup_delete_Some. by eapply Hfs.
Qed.

Lemma inv_release le lf lj fq :
  tier_inv cfg st tabs le (a :: lf) lj → queue_elems fq lf → queue_bound st fq →
  Inv cfg (released st k a fq) tabs.
Proof.
  intros Ht Hfq Hb. apply (inv_move _ _ _ Hinv); try done; cbn -[data_key].
  - apply delete_subseteq.
  - intros b Hb'. by destruct (decide (b = a)) as [->|Hne]; [rewrite lookup_delete_eq in Hb'; destruct Hb'|rewrite lookup_delete_ne in Hb'].
  - intros k' b e [Hne Hb']%lookup_delete_Some E. exists e. rewrite lookup_delete_ne; [done|].
    intros <-. apply Hne. by eapply inv_entry_key.
  - intros t p i ncol g Hg. pose proof (inv_groups _ _ _ Hinv _ _ _ _ _ Hg) as Hloc.
    destruct (decide (data_key t p (Z.of_nat i + 1) = k)) as [E|Hne].
    + unfold group_loc in *. rewrite E, lookup_delete_eq. rewrite E, Hk in Hloc.
      destruct Hloc as (loc & d0 & E0 & _ & _ & Hr). rewrite Ha in E0. injection E0 as <- _. by apply Hr.
    + eapply group_loc_frame; [by rewrite lookup_delete_ne| |exact Hloc].
      intros b Hb'. rewrite lookup_delete_ne; [done|]. intros <-. apply Hne. by eapply inv_entry_key.
  - exists le, lf, lj. by apply tier_release.
  - apply (inv_queues _ _ _ Hinv).
Qed.
End release.

(** [clear_one] removes the oldest entry of the free queue from memory if it is
    persisted, and otherwise does nothing. *)
Lemma clear_one_ok st tabs a lf :
  Inv cfg st tabs → queue_elems (FreeQueue (st_db st)) (a :: lf) →
  ∃ k loc d st', st_heap st !! a = Some (rg_entry k loc d) ∧ dict (st_db st) !! k = Some a ∧
    clear_one st = Ok st' ∧ Inv cfg st' tabs ∧
    ((loc = LOCATION_FLUSH ∧ st' = st) ∨
     (loc = LOCATION_PERSISTED ∧ ∃ fq, st' = released st k a fq ∧ queue_elems fq lf)).
Proof.
  intros Hinv Hq. destruct (inv_tier _ _ _ Hinv) as (le & lf' & lj & Ht).
  assert (lf' = a :: lf) as -> by (eapply queue_elems_inj; [apply Ht|done]).
  pose proof Ht as [_ _ _ _ Hfl _ _ _ _ _]. apply Forall_cons in Hfl as [Hea _].
  assert (∃ loc, (loc = LOCATION_FLUSH ∨ loc = LOCATION_PERSISTED) ∧ entry_at (st_heap st) (dict (st_db st)) tabs a loc)
    as (loc & Hloc & t & p & i & ncol & g & d & Hg & Hk & Ha) by naive_solver.
  set (k := data_key t p (Z.of_nat i + 1)) in *. exists k, loc, d.
  pose proof (dequeueForClear_cons (st_heap st) (FreeQueue (st_db st)) a lf _ (mkRobj loc (VRel d)) Hq Ha eq_refl) as Hdq.
  cbn [location] in Hdq. specialize (Hdq ltac:(destruct Hloc as [-> | ->]; done)).
  unfold clear_one, chooseClearKeyFromQueue_. destruct Hloc as [-> | ->].
  - cbn [Z.eqb LOCATION_FLUSH LOCATION_PERSISTED] in Hdq. change (LOCATION_FLUSH =? LOCATION_PERSISTED) with false in Hdq.
    rewrite Hdq. res_step. rewrite set_queues_id. exists st. split_and!; eauto.
  - change (LOCATION_PERSISTED =? LOCATION_PERSISTED) with true in Hdq. destruct Hdq as (fq & -> & Hfq & Hm).
    res_step. unfold load. cbn [st_heap set_queues set_db]. rewrite Ha. res_step. cbn [rg_entry de_val deref]. res_step.
    change (location _ =? LOCATION_PERSISTED) with true. cbn [assert]. res_step. change (de_key (rg_entry k LOCATION_PERSISTED d)) with k.
    unfold dbClear_, dictDelete, dictFind. cbn [st_db dict set_queues set_db]. rewrite Hk. cbn [negb assert].
    exists (released st k a fq). split_and!; [done|done|done| |].
    + eapply inv_release; try done. unfold queue_bound. rewrite Hm. apply (inv_queues _ _ _ Hinv).
    + right. eauto.
Qed.

(** ** The background job: marking *)

Lemma vectorGet_mid (v : Vector addr) pre a l :
  vector_rep v (map Some (pre ++ a :: l)) → vectorGet v (Z.of_nat (length pre)) = Ok (Some a).
Proof. intros Hv. by rewrite (vectorGet_rep _ _ _ Hv), list_lookup_fmap, lookup_app_mid. Qed.

Lemma mark_entries_ok rels l : ∀ pre h,
  vector_rep rels (map Some (pre ++ l)) → (∀ a, a ∈ l → ∃ k loc d, h !! a = Some (rg_entry k loc d)) →
  ∃ h', mark_entries h (length l) (Z.of_nat (length pre)) rels = Ok h' ∧ relocated l LOCATION_PERSISTED h h'.
Proof.
  induction l as [|a l IH]; intros pre h Hv Hl; cbn [length mark_entries].
  { exists h. split; [done|]. split; [done|]. intros ? ? ? ? ?%not_elem_of_nil. done. }
  rewrite (vectorGet_mid _ _ _ _ Hv). res_step. cbn [deref]. res_step. destruct (Hl a) as (k & loc & d & Ha); [by apply list_elem_of_here|].
  rewrite (set_location_ok _ _ _ _ LOCATION_PERSISTED Ha eq_refl). res_step. cbn [rg_entry de_key de_val robj_ptr].
  fold (rg_entry k LOCATION_PERSISTED d).
  replace (Z.of_nat (length pre) + 1) with (Z.of_nat (length (pre ++ [a]))) by (rewrite length_app; simpl; lia).
  set (h1 := <[a := rg_entry k LOCATION_PERSISTED d]> h).
  assert (Hh1 : ∀ b k0 loc0 d0, h !! b = Some (rg_entry k0 loc0 d0) → b ≠ a ∨ (k0 = k ∧ d0 = d)).
  { intros b k0 loc0 d0 Hb. destruct (decide (b = a)) as [->|]; [|by left]. rewrite Ha in Hb. injection Hb as <- _ <-. by right. }
  destruct (IH (pre ++ [a]) h1) as (h' & -> & Hrel1 & Hrel2).
  - by rewrite <- app_assoc.
  - intros b Hb. unfold h1. destruct (decide (b = a)) as [->|Hne]; [rewrite lookup_insert_eq; eauto|].
    rewrite lookup_insert_ne by done. apply Hl. by apply list_elem_of_further.
  - exists h'. split; [done|]. split.
    + intros b [Hne Hb]%not_elem_of_cons. rewrite (Hrel1 b Hb). unfold h1. by rewrite lookup_insert_ne.
    + intros b k0 loc0 d0 Hb E. destruct (decide (b ∈ l)) as [Hin|Hn].
      * destruct (decide (b = a)) as [->|Hne].
        -- destruct (Hh1 _ _ _ _ E) as [|[-> ->]]; [done|]. apply (Hrel2 a k LOCATION_PERSISTED d Hin).
           unfold h1. by rewrite lookup_insert_eq.
        -- apply (Hrel2 b k0 loc0 d0 Hin). unfold h1. by rewrite lookup_insert_ne.
      * assert (b = a) as -> by set_solver. destruct (Hh1 _ _ _ _ E) as [|[-> ->]]; [done|].
        rewrite (Hrel1 a Hn). unfold h1. by rewrite lookup_insert_eq.
Qed.

Lemma tier_mark st tabs rels err js le lf l lj h' :
  tier_inv cfg st tabs le lf (l :: lj) → st_tiering st = BatchMark rels err :: js →
  relocated l LOCATION_PERSISTED (st_heap st) h' →
  tier_inv cfg (set_jobs (set_heap st h') js (st_lazyfree st)) tabs le lf lj.
Proof.
  intros [He Hf Hj Hel Hfl Hjl Hen Hfn Hjn Hfs] Ej Hrel. cbn in Hjl, Hjn.
  apply Forall_app in Hjl as [Hl Hjl]. apply NoDup_app in Hjn as (Hn1 & Hdis & Hn2).
  rewrite Ej in Hj. apply Forall2_cons in Hj as [_ Hj].
  pose proof (relocated_same _ _ _ _ Hrel (dict (st_db st)) tabs _ Hl) as Hsame.
  split; cbn; try done.
  - eapply Forall_impl; [exact Hel|]. intros b Hb. by apply Hsame.
  - eapply Forall_impl; [exact Hfl|]. intros b [Hb|Hb]; [|right; by apply Hsame].
    destruct (decide (b ∈ l)) as [Hin|Hn]; [right; by eapply relocated_in|left; by eapply relocated_other].
  - rewrite Forall_forall in Hjl |- *. intros b Hb. eapply relocated_other; [done| |auto].
    intros Hin. by apply (Hdis b Hin).
  - intros k b d Hk E. destruct (decide (b ∈ l)) as [Hin|Hn].
    + rewrite Forall_forall in Hl. destruct (Hl b Hin) as (? & ? & ? & ? & ? & d0 & _ & _ & E0).
      apply (proj2 Hrel _ _ _ _ Hin) in E0. rewrite E in E0. by injection E0.
    + rewrite (proj1 Hrel b Hn) in E. pose proof (Hfs k b d Hk E) as Hc. cbn in Hc.
      by apply elem_of_app in Hc as [?|?].
Qed.

Lemma bio_mark_ok st tabs rels err js :
  Inv cfg st tabs → st_tiering st = BatchMark rels err :: js →
  ∃ st' l, bio_tiering_step st = Ok st' ∧ Inv cfg st' tabs ∧ st_tiering st' = js ∧
    vector_rep rels (map Some l) ∧ relocated l LOCATION_PERSISTED (st_heap st) (st_heap st') ∧
    st_next st' = st_next st ∧ st_db st' = st_db st.
Proof.
  intros Hinv Ej. destruct (inv_tier _ _ _ Hinv) as (le & lf & lj & Ht).
  pose proof Ht as [_ _ Hj _ _ Hjl _ _ _ _]. rewrite Ej in Hj.
  destruct lj as [|l lj']; [by inversion Hj|]. apply Forall2_cons in Hj as [(-> & Hv & Hp) Hj'].
  cbn in Hjl. apply Forall_app in Hjl as [Hl _].
  destruct (mark_entries_ok rels l [] (st_heap st)) as (h' & E & Hrel); [done| |].
  { intros a Ha. rewrite Forall_forall in Hl. destruct (Hl a Ha) as (? & ? & ? & ? & ? & ? & _ & _ & Ea). eauto. }
  unfold bio_tiering_step, batch_mark. rewrite Ej. pose proof Hv as (_ & Hc & _). unfold vectorCount.
  rewrite Hc, length_map, Nat2Z.id. change 0 with (Z.of_nat (length (@nil addr))). rewrite E. res_step. res_step.
  eexists _, l. split_and!; [done| |done|done|done|done|done].
  apply (inv_move _ _ _ Hinv); try done; cbn -[data_key]; try apply (inv_queues _ _ _ Hinv).
  - intros b. by apply (relocated_dom _ _ _ _ Hrel (dict (st_db st)) tabs _ Hl).
  - intros _ b e _. by apply (relocated_key _ _ _ _ Hrel (dict (st_db st)) tabs _ Hl).
  - intros t p i ncol g Hg. apply (relocated_groups _ _ _ _ Hrel _ _ tabs); [by right; right|done|done|].
    exact (inv_groups _ _ _ Hinv _ _ _ _ _ Hg).
  - exists le, lf, lj'. by eapply tier_mark.
Qed.
End tieringspec.
