(* ===== verification/PersistSpec.v ===== *)
(** The background write of a batch: what it puts into RocksDB is what a scan reads
    back, and row groups that were persisted before stay so. *)

From S2P Require Import Prelude CString Util Sds Vector Queue Keys Serialize Hash Db Meta Table Invariant Write WriteSpec Scan ScanSpec Tiering TieringSpec.

(** ** Batches *)

Lemma batch_get_Some b k v : batch_get b k = Some v → (k, v) ∈ b.
Proof.
  induction b as [|[k' v'] b IH]; cbn [batch_get]; [done|]. destruct (batch_get b k) as [w|].
  - intros [= ->]. apply list_elem_of_further. auto.
  - case_decide as E; [|done]. intros [= ->]. subst. apply list_elem_of_here.
Qed.

Lemma batch_get_None b k v : batch_get b k = None → (k, v) ∉ b.
Proof.
  induction b as [|[k' v'] b IH]; cbn [batch_get]; [intros _; apply not_elem_of_nil|].
  destruct (batch_get b k) as [w|]; [done|]. case_decide as E; [done|]. intros _.
  apply not_elem_of_cons. split; [congruence|auto].
Qed.

Lemma batch_fields_ok key fields : ∀ batch,
  nonul key → (length key ≤ 126)%nat →
  (∀ f v, (f, v) ∈ fields → nonul f ∧ (length f ≤ 23)%nat ∧ ∃ s, vectorSerialize v = Ok s ∧ nonul s) →
  ∃ b, batch_fields key fields batch = Ok (batch ++ b) ∧
    ∀ k x, (k, x) ∈ b ↔
      ∃ f v s, (f, v) ∈ fields ∧ vectorSerialize v = Ok s ∧ k = rocks_key key f ∧ x = s ++ [NUL].
Proof.
  induction fields as [|[f v] fields IH]; intros batch Hk Hlen Hf; cbn [batch_fields].
  { exists []. rewrite app_nil_r. split; [done|]. set_solver. }
  destruct (Hf f v) as (Hfn & Hfl & s & Es & Hs); [by apply list_elem_of_here|].
  rewrite !cstr_nonul by done.
  change (key ++ lit ":" ++ REL_MODEL_FIELD_PREFIX ++ f) with (rocks_key key f).
  assert (Hrn : nonul (rocks_key key f)).
  { unfold rocks_key. rewrite !nonul_app. split_and!; [done|by apply (bool_decide_unpack _)|done]. }
  rewrite sprintf_at_0 by (unfold rocks_key, SDS_DATA_KEY_MAX; rewrite !length_app; simpl; lia).
  res_step. rewrite Es. res_step. rewrite cstr_app, (cstr_nonul s) by done.
  change (cstr (NUL :: _)) with (@nil ascii). rewrite app_nil_r.
  destruct (IH (batch ++ [(rocks_key key f, s ++ [NUL])]) Hk Hlen) as (b & -> & Hb).
  { intros f' v' Hin. apply Hf. by apply list_elem_of_further. }
  exists ((rocks_key key f, s ++ [NUL]) :: b). rewrite <- app_assoc. split; [done|].
  intros k x. rewrite elem_of_cons, Hb. split.
  - intros [[= -> ->]|(f' & v' & s' & Hin & ?)].
    + exists f, v, s. split_and!; try done. by apply list_elem_of_here.
    + exists f', v', s'. split; [by apply list_elem_of_further|done].
  - intros (f' & v' & s' & Hin & Es' & -> & ->). apply elem_of_cons in Hin as [[= -> ->]|Hin].
    + left. rewrite Es in Es'. by injection Es' as ->.
    + right. eauto 8.
Qed.

Section persist.
  Context {Store : Type} `{RocksDB Store} (cfg : config) (Hcfg : wf_config cfg).
  Implicit Types (st : state Store) (tabs : tables).

(** The fields of a row group serialize to the texts of its column vectors. *)
Lemma field_ok ncol g d f v :
  (1 ≤ ncol ≤ 100)%nat → rg_rep ncol (cvsz cfg) g d → wf_group ncol g → d !! f = Some v →
  ∃ cv c, (c < ncol)%nat ∧ f = cv_field cv c ∧ cv_slice ncol (cvsz cfg) g cv c ≠ [] ∧ (length f ≤ 23)%nat ∧
    vectorSerialize v = Ok (serial_text STL_TYPE_SDS (cv_slice ncol (cvsz cfg) g cv c)) ∧
    nonul (serial_text STL_TYPE_SDS (cv_slice ncol (cvsz cfg) g cv c)).
Proof.
  intros Hn [Hd Hf] (_ & Hm & Hrows & Hg) Hv. destruct (Hf f ltac:(by eexists)) as (cv & c & Hc & ->).
  exists cv, c. specialize (Hd cv c Hc). rewrite Hv in Hd.
  set (l := cv_slice ncol (cvsz cfg) g cv c) in *.
  assert (Hne : l ≠ []) by (by destruct l).
  assert (∃ v', Some v = Some v' ∧ vector_rep v' (map Some l) ∧ v_type v' = STL_TYPE_SDS)
    as (v' & [= <-] & Hr & Hty) by (by destruct l).
  destruct Hcfg as (_ & Hcv & _).
  assert (Hcvp : (1 ≤ cvsz cfg)%nat) by (unfold cvsz; lia).
  assert (Hll : Z.of_nat (length l) ≤ INT_MAX).
  { pose proof (cv_slice_length ncol (cvsz cfg) g cv c) as Hl. fold l in Hl. unfold cvsz in *. lia. }
  assert (Hcvb : Z.of_nat cv + 1 ≤ INT_MAX).
  { assert (is_Some (l !! 0%nat)) as [x Hx] by (destruct l; [done|by eexists]). unfold l, cv_slice in Hx. apply lookup_take_Some in Hx as [Hx _]. rewrite lookup_drop, Nat.add_0_r in Hx.
    apply lookup_lt_Some, column_length in Hx; [|lia]. unfold rows_of in Hrows.
    pose proof (Nat.div_mod_eq (length g) ncol) as E. rewrite Hm in E.
    set (q := (length g / ncol)%nat) in *. set (u := (cv * cvsz cfg)%nat) in *.
    assert (u < q)%nat by (apply (Nat.mul_lt_mono_pos_r ncol); lia). assert (cv ≤ u)%nat by (unfold u; nia). lia. }
  split_and!; [done|done|done| | |].
  - apply data_field_length; unfold INT_MIN, INT_MAX in *; lia.
  - rewrite (vectorSerialize_ok v l Hr Hll). by rewrite Hty.
  - apply serial_text_nonul. apply Forall_forall. intros x Hx.
    rewrite Forall_forall in Hg. apply (Hg x). by apply (cv_slice_in ncol (cvsz cfg) ltac:(lia) g cv c).
Qed.

(** What the batch of the entries [l] puts. *)
Definition in_batch st (l : list addr) (k x : bytes) : Prop :=
  ∃ a key loc d f v s, a ∈ l ∧ st_heap st !! a = Some (rg_entry key loc d) ∧ d !! f = Some v ∧
    vectorSerialize v = Ok s ∧ k = rocks_key key f ∧ x = s ++ [NUL].

(** The entry of a row group, with what it represents. *)
Lemma entry_at_rep st tabs a loc :
  Inv cfg st tabs → entry_at (st_heap st) (dict (st_db st)) tabs a loc →
  ∃ t p i ncol g d, group_at tabs t p i ncol g ∧ wf_tkey t p ∧ (1 ≤ ncol ≤ 100)%nat ∧ wf_group ncol g ∧
    INT_MIN ≤ Z.of_nat i + 1 ≤ INT_MAX ∧ dict (st_db st) !! data_key t p (Z.of_nat i + 1) = Some a ∧
    st_heap st !! a = Some (rg_entry (data_key t p (Z.of_nat i + 1)) loc d) ∧ rg_rep ncol (cvsz cfg) g d.
Proof.
  intros Hinv (t & p & i & ncol & g & d & Hg & Hk & Ha). exists t, p, i, ncol, g, d.
  destruct (group_at_wf cfg st tabs t p i ncol g Hinv Hg) as (Htk & Hn & Hw & Hi).
  pose proof (inv_groups _ _ _ Hinv _ _ _ _ _ Hg) as Hl. unfold group_loc in Hl. rewrite Hk in Hl.
  destruct Hl as (loc0 & d0 & E & _ & Hrep & _). rewrite Ha in E. injection E as <- <-.
  split_and!; try done; unfold INT_MIN; lia.
Qed.

Lemma batch_entries_ok st tabs keys rels l : ∀ pre batch,
  Inv cfg st tabs → Forall (fun a => entry_at (st_heap st) (dict (st_db st)) tabs a LOCATION_FLUSH) l →
  vector_rep keys (map Some (pre ++ l)) → vector_rep rels (map Some (pre ++ l)) →
  ∃ b, batch_entries st (length l) (Z.of_nat (length pre)) keys rels batch = Ok (batch ++ b) ∧
    ∀ k x, (k, x) ∈ b ↔ in_batch st l k x.
Proof.
  induction l as [|a l IH]; intros pre batch Hinv Hl Hk Hr; cbn [length batch_entries].
  { exists []. rewrite app_nil_r. split; [done|]. intros k x. split; [set_solver|].
    by intros (? & ? & ? & ? & ? & ? & ? & ?%not_elem_of_nil & _). }
  apply Forall_cons in Hl as [Ha Hl].
  destruct (entry_at_rep st tabs a _ Hinv Ha) as (t & p & i & ncol & g & d & Hg & Htk & Hn & Hw & Hi & Hd & He & Hrep).
  rewrite (vectorGet_mid _ _ _ _ Hk). res_step. rewrite (vectorGet_mid _ _ _ _ Hr). res_step. cbn [deref]. res_step.
  unfold entry_value, load. rewrite He. res_step. cbn [rg_entry de_val deref]. res_step. cbn [robj_ptr rel_ptr]. res_step.
  rewrite bool_decide_true by (by eexists). cbn [assert]. res_step. res_step. rewrite ?He. res_step. cbn [rg_entry de_key].
  set (key := data_key t p (Z.of_nat i + 1)) in *.
  destruct (batch_fields_ok key (map_to_list d) batch) as (b1 & -> & Hb1).
  { apply data_key_nonul. apply Htk. } { by apply wf_tkey_length. }
  { intros f v Hfv%elem_of_map_to_list. destruct (field_ok ncol g d f v Hn Hrep Hw Hfv) as (cv & c & _ & -> & _ & Hfl & Es & Hs).
    split_and!; [apply data_field_nonul|done|eauto]. }
  res_step. replace (Z.of_nat (length pre) + 1) with (Z.of_nat (length (pre ++ [a]))) by (rewrite length_app; simpl; lia).
  destruct (IH (pre ++ [a]) (batch ++ b1) Hinv Hl) as (b2 & -> & Hb2); [by rewrite <- app_assoc..|].
  exists (b1 ++ b2). rewrite app_assoc. split; [done|]. intros k x. rewrite elem_of_app, Hb1, Hb2. split.
  - intros [(f & v & s & Hfv%elem_of_map_to_list & ?)|(a' & key' & loc & d' & f & v & s & Hin & ?)].
    + exists a, key, LOCATION_FLUSH, d, f, v, s. split; [by apply list_elem_of_here|]. done.
    + exists a', key', loc, d', f, v, s. split; [by apply list_elem_of_further|done].
  - intros (a' & key' & loc & d' & f & v & s & Hin & E & Hfv & Es & -> & ->).
    apply elem_of_cons in Hin as [->|Hin]; [left|right; by exists a', key', loc, d', f, v, s].
    rewrite He in E. injection E as <- _ <-. exists f, v, s. split_and!; [by apply elem_of_map_to_list|done..].
Qed.

(** A put of the batch under the key of a column vector is that vector. *)
Lemma in_batch_value st tabs l t p i ncol g cv c x :
  Inv cfg st tabs → Forall (fun a => entry_at (st_heap st) (dict (st_db st)) tabs a LOCATION_FLUSH) l →
  group_at tabs t p i ncol g →
  in_batch st l (rocks_key (data_key t p (Z.of_nat i + 1)) (cv_field cv c)) x →
  x = serial_text STL_TYPE_SDS (cv_slice ncol (cvsz cfg) g cv c) ++ [NUL].
Proof.
  intros Hinv Hl Hg (a & key & loc & d & f & v & s & Hin & He & Hfv & Es & E & ->).
  rewrite Forall_forall in Hl.
  destruct (entry_at_rep st tabs a _ Hinv (Hl a Hin)) as (t0 & p0 & i0 & ncol0 & g0 & d0 & Hg0 & Hk0 & Hn & Hw & _ & _ & He0 & Hrep).
  rewrite He in He0. injection He0 as -> -> ->.
  destruct (field_ok ncol0 g0 d0 f v Hn Hrep Hw Hfv) as (cv0 & c0 & Hc0 & -> & _ & _ & Es0 & _).
  rewrite Es in Es0. injection Es0 as ->.
  apply rocks_key_inj in E as [E1 E2]; [|apply data_field_no_F..].
  destruct (group_at_wf cfg st tabs t p i ncol g Hinv Hg) as (Hk & _).
  apply group_key_inj in E1 as (-> & -> & ->); [|done..]. apply cv_field_inj in E2 as [-> ->].
  destruct Hg as (T & HT & Hi & <-), Hg0 as (T0 & HT0 & Hi0 & <-). rewrite HT in HT0. injection HT0 as <-.
  rewrite Hi in Hi0. by injection Hi0 as <-.
Qed.

(** ** The write *)

Context `{!RocksDBLaws Store}.

Section write.
  Context (st : state Store) (tabs : tables) (Hinv : Inv cfg st tabs) (l : list addr).
  Context (Hl : Forall (fun a => entry_at (st_heap st) (dict (st_db st)) tabs a LOCATION_FLUSH) l).
  Context (b : list (bytes * bytes)) (Hb : ∀ k x, (k, x) ∈ b ↔ in_batch st l k x).
  Context (s' : Store) (Hw : rocksdb_write (persistent_store (st_db st)) b = (s', false)).

(** What was in RocksDB stays there. *)
Lemma write_keeps t p i ncol g :
  group_at tabs t p i ncol g →
  rocks_rep ncol (cvsz cfg) (persistent_store (st_db st)) (data_key t p (Z.of_nat i + 1)) g →
  rocks_rep ncol (cvsz cfg) s' (data_key t p (Z.of_nat i + 1)) g.
Proof.
  intros Hg Hr cv c Hc Hne. rewrite (rocks_value_write _ _ _ _ Hw).
  destruct (batch_get b _) as [x|] eqn:E; [|by apply Hr].
  apply batch_get_Some, Hb in E. f_equal. by eapply in_batch_value.
Qed.

(** The row groups of the batch are in RocksDB. *)
Lemma write_persists a : a ∈ l → persisted cfg (dict (st_db st)) s' tabs a.
Proof.
  intros Ha t p i ncol g Hg Hd cv c Hc Hne. rewrite (rocks_value_write _ _ _ _ Hw).
  set (K := rocks_key (data_key t p (Z.of_nat i + 1)) (cv_field cv c)).
  destruct (batch_get b K) as [x|] eqn:E.
  { apply batch_get_Some, Hb in E. f_equal. by eapply in_batch_value. }
  exfalso. pose proof (inv_groups _ _ _ Hinv _ _ _ _ _ Hg) as Hloc. unfold group_loc in Hloc. rewrite Hd in Hloc.
  destruct Hloc as (loc & d & He & _ & [Hf _] & _). specialize (Hf cv c Hc).
  destruct (cv_slice ncol (cvsz cfg) g cv c) as [|x0 xs0] eqn:Es; [done|]. destruct Hf as (v & Hv & Hrep & Hty).
  assert (Hlen : Z.of_nat (length (x0 :: xs0)) ≤ INT_MAX).
  { rewrite <- Es. pose proof (cv_slice_length ncol (cvsz cfg) g cv c). destruct Hcfg as (_ & ? & _). unfold cvsz in *. lia. }
  apply (batch_get_None _ _ (serial_text (v_type v) (x0 :: xs0) ++ [NUL])) in E. apply E, Hb.
  eexists a, _, loc, d, _, v, _. split_and!; [done|exact He|exact Hv|by apply vectorSerialize_ok|done|done].
Qed.

Lemma tier_write keys rels js le lf lj :
  st_tiering st = BatchTiering keys rels :: js → tier_inv cfg st tabs le lf (l :: lj) →
  tier_inv cfg (set_jobs (set_store st s') (BatchMark rels false :: js) (st_lazyfree st)) tabs le lf (l :: lj).
Proof.
  intros Ej [He Hf Hj Hel Hfl Hjl Hen Hfn Hjn Hfs]. rewrite Ej in Hj. apply Forall2_cons in Hj as [[_ Hr] Hj].
  split; cbn; try done. constructor.
  - split_and!; [done..|]. apply Forall_forall. intros a Ha. by apply write_persists.
  - eapply jobs_frame; [|done]. apply Forall_true. intros a Hp t p i ncol g Hg Hd. apply write_keeps; [done|].
    by apply Hp.
Qed.

Lemma inv_write keys rels js le lf lj :
  st_tiering st = BatchTiering keys rels :: js → tier_inv cfg st tabs le lf (l :: lj) →
  Inv cfg (set_jobs (set_store st s') (BatchMark rels false :: js) (st_lazyfree st)) tabs.
Proof.
  intros Ej Ht. apply (inv_move _ _ _ _ Hinv); try done; cbn -[data_key]; try apply (inv_queues _ _ _ Hinv).
  - intros k a e _ E. by exists e.
  - intros t p i ncol g Hg. pose proof (inv_groups _ _ _ Hinv _ _ _ _ _ Hg) as Hloc. unfold group_loc in *.
    destruct (dict (st_db st) !! _) as [a|]; [|by apply write_keeps].
    destruct Hloc as (loc & d & He & Hisl & Hrep & Hr). exists loc, d. split_and!; [done..|].
    intros HP. apply write_keeps; auto.
  - exists le, lf, (l :: lj). by eapply tier_write.
Qed.
End write.

(** The first step of a job: the batch is in RocksDB, unless it
    reports an error. *)
Lemma bio_write_ok st tabs keys rels js :
  Inv cfg st tabs → st_tiering st = BatchTiering keys rels :: js →
  ∃ batch, let '(s', err) := rocksdb_write (persistent_store (st_db st)) batch in
    bio_tiering_step st =
      Ok (set_jobs (set_store st s') (BatchMark rels err :: js) (st_lazyfree st)) ∧
    (err = false → Inv cfg (set_jobs (set_store st s') (BatchMark rels err :: js) (st_lazyfree st)) tabs).
Proof.
  intros Hinv Ej. destruct (inv_tier _ _ _ Hinv) as (le & lf & lj & Ht).
  pose proof Ht as [_ _ Hj _ _ Hjl _ _ _ _]. rewrite Ej in Hj.
  destruct lj as [|l lj']; [by inversion Hj|]. apply Forall2_cons in Hj as [[Hk Hr] _].
  cbn in Hjl. apply Forall_app in Hjl as [Hl _].
  destruct (batch_entries_ok st tabs keys rels l [] [] Hinv Hl Hk Hr) as (b & E & Hb). cbn [app] in E.
  exists b. destruct (rocksdb_write (persistent_store (st_db st)) b) as [s' err] eqn:Ew.
  unfold bio_tiering_step, batch_write. rewrite Ej. unfold vectorCount.
  pose proof Hk as (_ & Hck & _). pose proof Hr as (_ & Hcr & _). rewrite Hck, Hcr, !length_map, Z.eqb_refl.
  cbn [assert]. res_step. rewrite Nat2Z.id. change 0 with (Z.of_nat (length (@nil addr))). rewrite E. res_step.
  rewrite Ew. res_step. split; [done|]. intros ->. by eapply inv_write.
Qed.

(** ** The background thread *)

(** The steps that the jobs still need. *)
Definition jobs_weight (js : list tiering_job) : nat :=
  sum_list_with (fun j => match j with BatchTiering _ _ => 2 | BatchMark _ _ => 1 end)%nat js.

(** Every step of the thread returns, and keeps the tables, unless RocksDB reports
    an error. *)
Lemma bio_step_ok st tabs :
  Inv cfg st tabs → (∀ s b, (rocksdb_write s b).2 = false) →
  ∃ st', bio_tiering_step st = Ok st' ∧ Inv cfg st' tabs ∧ st_next st' = st_next st ∧
    EvictQueue (st_db st') = EvictQueue (st_db st) ∧ FreeQueue (st_db st') = FreeQueue (st_db st) ∧
    jobs_weight (st_tiering st') = pred (jobs_weight (st_tiering st)).
Proof.
  intros Hinv Hok. destruct (st_tiering st) as [|[keys rels|rels err] js] eqn:Ej.
  - exists st. unfold bio_tiering_step. rewrite Ej. done.
  - destruct (bio_write_ok st tabs keys rels js Hinv Ej) as (b & Hb). specialize (Hok (persistent_store (st_db st)) b).
    destruct (rocksdb_write _ b) as [s' err]. cbn in Hok. subst err. destruct Hb as [-> Hi].
    eexists. split_and!; [done|by apply Hi|done..].
  - destruct (bio_mark_ok cfg st tabs rels err js Hinv Ej) as (st' & l & ? & ? & Hjs & _ & _ & ? & Hdb).
    exists st'. by rewrite Hdb, Hjs.
Qed.
End persist.
