(* ===== verification/Commands.v ===== *)
(** src/src/addb_table.c: METAKEYS, and the commands that inspect or change the
    queues and single row groups (FIELDS, ROCKSKEY, QUEUESTATUS, DEQUEUEENTRY,
    EVICTBESTKEY, EMPTYQUEUE, CVSERIAL, CVDESERIAL).  The order in which a
    dictionary is walked is the one of [map_to_list]. *)

From S2P Require Import Prelude CString Util Glob Sds Vector Queue Keys Serialize Filter FilterSpec Hash Db Meta Table Invariant Write Tiering TieringSpec.

(** * METAKEYS *)

Definition PARTITION_FILTER_STATEMENT_SUFFIX : bytes := lit "$".

Definition validateStatements (rawStatementsStr : bytes) : bool := true.

(** Whether [pattern] is the string of one star. *)
Definition is_allkeys (pattern : bytes) : bool := bool_decide (cstr pattern = lit "*").

(** The walk over Metadict. *)
Fixpoint match_keys (allkeys : bool) (pattern : bytes) (keys : list bytes) (metakeys : Vector bytes)
    : res (Vector bytes) :=
  match keys with
  | [] => Ok metakeys
  | metakey :: keys' =>
      b ← (if allkeys then Ok true else stringmatchlen pattern metakey false);
      metakeys ← (if b : bool then r ← vectorAdd metakeys (Some metakey); Ok r.2 else Ok metakeys);
      match_keys allkeys pattern keys' metakeys
  end.

(** The loop that evaluates one filter on the keys from index [i]. *)
Fixpoint filter_keys (root : Condition) (metakeys : Vector bytes) (n : nat) (i : Z) (filteredMetakeys : Vector bytes)
    : res (Vector bytes) :=
  match n with
  | O => Ok filteredMetakeys
  | S n' =>
      p ← vectorGet metakeys i;
      metakey ← deref p;
      b ← evaluateCondition root metakey;
      filteredMetakeys ← (if b : bool then r ← vectorAdd filteredMetakeys (Some metakey); Ok r.2
                          else Ok filteredMetakeys);
      filter_keys root metakeys n' (i + 1) filteredMetakeys
  end.

(** One statement: the keys that are left, or [None] when it does not parse; then
    the tree is released. *)
Definition filter_statement (token : bytes) (metakeys : Vector bytes) : res (option (Condition * Vector bytes)) :=
  r ← parseStatement token;
  match r with
  | (C_ERR, _) => Ok None
  | (C_OK, root) =>
      root ← deref root;
      filtered ← filter_keys root metakeys (Z.to_nat (vectorCount metakeys)) 0 vectorInit;
      Ok (Some (root, filtered))
  end.

Fixpoint statements_loop (fuel : nat) (token : option bytes) (savePtr : bytes) (metakeys : Vector bytes)
    : res (option (Vector bytes)) :=
  match token with
  | None => Ok (Some metakeys)
  | Some tok =>
      match fuel with
      | O => Fault OutOfFuel
      | S f =>
          r ← filter_statement tok metakeys;
          match r with
          | None => Ok None
          | Some (root, filtered) =>
              _ ← freeConditions root;
              let '(token', savePtr') := strtok_r savePtr PARTITION_FILTER_STATEMENT_SUFFIX in
              statements_loop f token' savePtr' filtered
          end
      end
  end.

Fixpoint reply_loop (metakeys : Vector bytes) (n : nat) (i : Z) : res (list bytes) :=
  match n with
  | O => Ok []
  | S n' => p ← vectorGet metakeys i; s ← deref p; l ← reply_loop metakeys n' (i + 1); Ok (s :: l)
  end.

Definition _addReplyMetakeysResults (metakeys : Vector bytes) : res reply :=
  l ← reply_loop metakeys (Z.to_nat (vectorCount metakeys)) 0; Ok (RMulti l).

(** [addReplyErrorFormat] sends the formatted text without line breaks. *)
Definition addReplyErrorFormat (text : bytes) : reply :=
  RError (map (fun c => if bool_decide (c = "013"%char ∨ c = "010"%char) then " "%char else c) text).

Definition parser_error (rawStatementsStr : bytes) : reply :=
  addReplyErrorFormat (lit "[FILTER][FATAL] Stack condition parser failed, server would have a memory leak...: ["
          ++ cstr rawStatementsStr ++ lit "]").
Definition invalid_error (rawStatementsStr : bytes) : reply :=
  addReplyErrorFormat (lit "[FILTER] Stack structure is not valid form: [" ++ cstr rawStatementsStr ++ lit "]").

Section commands.
  Context {Store : Type} `{RocksDB Store}.
  Implicit Types st : state Store.

(** The keys of Metadict, as the iterator yields them. *)
Definition meta_keys st : list bytes := (map_to_list (Metadict (st_db st))).*1.

Definition metakeysCommand st (argv : list bytes) : res reply :=
  pattern ← at_index argv 1;
  metakeys ← match_keys (is_allkeys pattern) pattern (meta_keys st) (vectorTypeInit STL_TYPE_SDS);
  if (length argv <? 3)%nat then _addReplyMetakeysResults metakeys
  else
    rawStatementsStr ← at_index argv 2;
    if negb (validateStatements rawStatementsStr) then Ok (invalid_error rawStatementsStr)
    else
      let '(token, savePtr) := strtok_r (cstr rawStatementsStr) PARTITION_FILTER_STATEMENT_SUFFIX in
      r ← statements_loop (S (length rawStatementsStr)) token savePtr metakeys;
      match r with
      | None => Ok (parser_error rawStatementsStr)
      | Some metakeys => _addReplyMetakeysResults metakeys
      end.

(** * Row groups *)

Definition str_buf : bytes := new_buf 1024.

(** [addReplyBulkCString] of the buffer after [sprintf]. *)
Definition reply_line (text : bytes) : res bytes := b ← sprintf_at str_buf 0 text; Ok (cstr b).

Fixpoint value_lines (line : Z → bytes → bytes) (v : Vector bytes) (n : nat) (j : Z) : res (list bytes) :=
  match n with
  | O => Ok []
  | S n' =>
      p ← vectorGet v j;
      s ← deref p;
      l ← reply_line (line j (cstr s));
      ls ← value_lines line v n' (j + 1);
      Ok (l :: ls)
  end.

Definition fieldsAndValueCommand st (argv : list bytes) : res reply :=
  a1 ← at_index argv 1;
  a2 ← at_index argv 2;
  a3 ← at_index argv 3;
  match lookupSDSKeyFordict st (cstr a1) with
  | None => Ok RNullBulk
  | Some a =>
      hashdict ← entry_value st a;
      hashdictObj ← rel_ptr (robj_ptr hashdict);
      dataField ← getDataField (atoi a2) (atoi a3);
      match hashdictObj !! dataField with
      | None => Ok (RMulti [])
      | Some v =>
          ls ← value_lines (fun _ s => lit "field : " ++ cstr dataField ++ lit ", value : " ++ s)
                 v (Z.to_nat (to_int (v_count v))) 0;
          Ok (RMulti ls)
      end
  end.

Definition rocksdbkeyCommand st (argv : list bytes) : res (reply * state Store) :=
  a1 ← at_index argv 1;
  let pattern := cstr a1 in
  st ← prepareWriteToRocksDB st pattern (lookupSDSKeyFordict st pattern);
  Ok (RStatus (lit "OK"), st).

(** The text of one column vector, built with [sdscat]. *)
Fixpoint serial_loop (v : Vector bytes) (vector_count : Z) (n : nat) (i : Z) (serial_buf : bytes) : res bytes :=
  match n with
  | O => Ok serial_buf
  | S n' =>
      p ← vectorGet v i;
      element ← deref p;
      let serial_buf := serial_buf ++ element in
      let serial_buf := if i <? vector_count - 1 then serial_buf ++ RELMODEL_DELIMITER else serial_buf in
      serial_loop v vector_count n' (i + 1) serial_buf
  end.

Fixpoint serial_lines (pattern : bytes) (fields : list (bytes * Vector bytes)) : res (list bytes) :=
  match fields with
  | [] => Ok []
  | (key, v) :: fields' =>
      let vector_type := to_int (v_type v) in
      let vector_count := to_int (v_count v) in
      let serial_buf := RELMODEL_VECTOR_PREFIX ++ lit "{" ++ RELMODEL_VECTOR_TYPE_PREFIX ++ d2s vector_type
        ++ lit ":" ++ RELMODEL_VECTOR_COUNT_PREFIX ++ d2s vector_count ++ lit "}:" ++ RELMODEL_DATA_PREFIX
        ++ lit ":" ++ VECTOR_DATA_PREFIX in
      serial_buf ← serial_loop v vector_count (Z.to_nat vector_count) 0 serial_buf;
      l ← reply_line (lit "Datakey : " ++ cstr pattern ++ lit ", Field : " ++ cstr key
            ++ lit ", SerializeVector : " ++ cstr (serial_buf ++ VECTOR_DATA_SUFFIX));
      ls ← serial_lines pattern fields';
      Ok (l :: ls)
  end.

(** After the lines, [pattern] is released twice: with [sdsfree], then with
    [decrRefCount] (lines 789 and 790). *)
Definition serializeCommand st (argv : list bytes) : res reply :=
  a1 ← at_index argv 1;
  let pattern := cstr a1 in
  match lookupSDSKeyFordict st pattern with
  | None => Ok RNullBulk
  | Some a =>
      hashdict ← entry_value st a;
      hashdictObj ← rel_ptr (robj_ptr hashdict);
      _ ← serial_lines pattern (map_to_list hashdictObj);
      Fault UseAfterFree
  end.

Definition deserializeCommand st (argv : list bytes) : res reply :=
  a1 ← at_index argv 1;
  let pattern := cstr a1 in
  match rocks_value (persistent_store (st_db st)) pattern with
  | None => Ok (RError (lit "ERR"))
  | Some val =>
      v ← VectordeSerialize val;
      ls ← value_lines (fun i s => lit "VECTOR[" ++ d2s i ++ lit "], Value : " ++ s)
             v (Z.to_nat (to_int (v_count v))) 0;
      _ ← vectorFreeDeep v;
      Ok (RMulti ls)
  end.

(** * Queues *)

Definition set_evict st (q : Queue) : state Store := set_queues st q (FreeQueue (st_db st)).

Definition queue_empty_line (q : Queue) : res reply :=
  l ← reply_line (lit "Queue is empty, front : " ++ d2s (front q) ++ lit ", rear : " ++ d2s (rear q));
  Ok (RMulti [l]).

Fixpoint field_lines (prefix key : bytes) (fields : list (bytes * Vector bytes)) : res (list bytes) :=
  match fields with
  | [] => Ok []
  | (field_key, _) :: fields' =>
      l ← reply_line (prefix ++ lit "DataKey : " ++ cstr key ++ lit " Field : " ++ cstr field_key ++ lit " ]");
      ls ← field_lines prefix key fields';
      Ok (l :: ls)
  end.

Definition entry_lines st (prefix : bytes) (de : option addr) : res (list bytes) :=
  a ← deref de;
  e ← load (st_heap st) a;
  value ← deref (de_val e);
  hashdict ← rel_ptr (robj_ptr value);
  field_lines prefix (de_key e) (map_to_list hashdict).

(** The index is incremented without wrapping around: from [rear > front] it runs
    out of the array. *)
Fixpoint status_loop st (q : Queue) (fuel : nat) (idx : Z) : res (list bytes) :=
  if idx =? front q then Ok []
  else
    match fuel with
    | O => Fault OutOfFuel
    | S f =>
        de ← read_slot q idx;
        ls ← entry_lines st (lit "[Rear : " ++ d2s (rear q) ++ lit ", Front : " ++ d2s (front q)
               ++ lit ", idx : " ++ d2s idx ++ lit "]") de;
        ls' ← status_loop st q f (idx + 1);
        Ok (ls ++ ls')
    end.

Definition getQueueStatusCommand st : res reply :=
  let q := EvictQueue (st_db st) in
  if front q =? rear q then queue_empty_line q
  else ls ← status_loop st q (S (Z.to_nat (max q))) (rear q); Ok (RMulti ls).

Definition dequeueCommand st : res (reply * state Store) :=
  r ← dequeue (st_heap st) (EvictQueue (st_db st));
  Ok (match r.1 with None => RError (lit "ERR") | Some _ => RStatus (lit "OK") end, set_evict st r.2).

(** Without a best key the deferred reply is never filled in. *)
Definition chooseBestKeyCommand st : res (option reply * state Store) :=
  let q := EvictQueue (st_db st) in
  if front q =? rear q then r ← queue_empty_line q; Ok (Some r, st)
  else
    r ← chooseBestKeyFromQueue (st_heap st) q;
    match r.1 with
    | None => Ok (None, set_evict st r.2)
    | Some a =>
        ls ← entry_lines st (lit "[Rear : " ++ d2s (rear q) ++ lit "]") (Some a);
        Ok (Some (RMulti ls), set_evict st r.2)
    end.

(** For each database of the server: here the one of the state. *)
Definition queueEmptyCommand st : res (reply * state Store) :=
  eq ← initializeQueue (st_heap st) (EvictQueue (st_db st));
  fq ← initializeQueue (st_heap st) (FreeQueue (st_db st));
  Ok (RStatus (lit "OK"), set_queues st eq fq).
End commands.

(** * Facts about METAKEYS *)

(** Room for one more key in a vector. *)
Definition room (n : nat) : Prop := Z.of_nat n + 10 < 2 ^ 60.

Lemma add_if_ok (b : bool) v l (k : bytes) :
  vector_rep v (map Some l) → room (length l) →
  ∃ v', (if b then r ← vectorAdd v (Some k); Ok r.2 else Ok v) = Ok v' ∧
        vector_rep v' (map Some (l ++ (if b then [k] else []))).
Proof.
  intros Hr Hl. destruct b; [|exists v; by rewrite app_nil_r].
  destruct (vectorAdd_rep _ _ (Some k) Hr) as (v' & -> & Hr' & _); [by rewrite length_map|].
  res_step. exists v'. by rewrite map_app.
Qed.

Lemma filter_cons {A} (key : A → bytes) (f : A → bool) k ks l :
  l ++ map key (List.filter f (k :: ks)) =
  (l ++ (if f k then [key k] else [])) ++ map key (List.filter f ks).
Proof. cbn. destruct (f k); by rewrite <- app_assoc. Qed.

Lemma keep_all {A} (l : list A) : List.filter (fun _ => true) l = l.
Proof. induction l as [|x l IH]; cbn; by rewrite ?IH. Qed.

Lemma room_step (b : bool) (k : bytes) (l : list bytes) n :
  room (length l + S n) → room (length (l ++ (if b then [k] else [])) + n).
Proof. unfold room. rewrite length_app. destruct b; cbn [length]; lia. Qed.

Lemma match_keys_ok all pattern f keys : ∀ v l,
  (∀ k, k ∈ keys → (if all : bool then Ok true else stringmatchlen pattern k false) = Ok (f k)) →
  vector_rep v (map Some l) → room (length l + length keys) →
  ∃ v', match_keys all pattern keys v = Ok v' ∧ vector_rep v' (map Some (l ++ List.filter f keys)).
Proof.
  induction keys as [|k keys IH]; intros v l Hf Hr Hl; cbn [match_keys].
  { exists v. cbn. by rewrite app_nil_r. }
  rewrite Hf by apply list_elem_of_here. res_step.
  destruct (add_if_ok (f k) v l k Hr) as (v1 & -> & Hr1); [unfold room in *; cbn [length] in Hl; lia|]. res_step.
  pose proof (filter_cons id f k keys l) as E. rewrite !map_id in E. rewrite E.
  apply IH; [|done|by apply room_step]. intros k' Hk'. apply Hf. by apply list_elem_of_further.
Qed.

Lemma filter_keys_ok {A} (key : A → bytes) root f v ks : ∀ qs k w l,
  vector_rep v (map Some (map key ks)) → drop k ks = qs →
  (∀ q, q ∈ qs → evaluateCondition root (key q) = Ok (f q)) →
  vector_rep w (map Some l) → room (length l + length qs) →
  ∃ w', filter_keys root v (length qs) (Z.of_nat k) w = Ok w' ∧
        vector_rep w' (map Some (l ++ map key (List.filter f qs))).
Proof.
  induction qs as [|q qs IH]; intros k w l Hv Hd Hf Hw Hl; cbn [length filter_keys].
  { exists w. cbn. by rewrite app_nil_r. }
  assert (Hk : ks !! k = Some q) by (rewrite <- (Nat.add_0_r k), <- lookup_drop, Hd; done).
  rewrite (vectorGet_rep _ _ _ Hv), map_map, list_lookup_fmap, Hk. res_step.
  cbn [fmap option_fmap option_map from_option id deref]. res_step. rewrite Hf by apply list_elem_of_here. res_step.
  destruct (add_if_ok (f q) w l (key q) Hw) as (w1 & -> & Hw1); [unfold room in *; cbn [length] in Hl; lia|]. res_step.
  rewrite filter_cons. replace (Z.of_nat k + 1) with (Z.of_nat (S k)) by lia.
  apply IH; [done| | |done|by apply room_step].
  - pose proof (drop_S ks q k Hk) as E. rewrite Hd in E. by injection E.
  - intros q' Hq'. apply Hf. by apply list_elem_of_further.
Qed.

Lemma reply_loop_ok v ks : ∀ qs k,
  vector_rep v (map Some ks) → drop k ks = qs → reply_loop v (length qs) (Z.of_nat k) = Ok qs.
Proof.
  induction qs as [|q qs IH]; intros k Hv Hd; cbn [length reply_loop]; [done|].
  assert (Hk : ks !! k = Some q) by (rewrite <- (Nat.add_0_r k), <- lookup_drop, Hd; done).
  rewrite (vectorGet_rep _ _ _ Hv), list_lookup_fmap, Hk. res_step. cbn [fmap option_fmap option_map from_option id deref].
  res_step. replace (Z.of_nat k + 1) with (Z.of_nat (S k)) by lia. rewrite IH; [done|done|].
  pose proof (drop_S ks q k Hk) as E. rewrite Hd in E. by injection E.
Qed.

Lemma addReplyMetakeysResults_ok v ks : vector_rep v (map Some ks) → _addReplyMetakeysResults v = Ok (RMulti ks).
Proof.
  intros Hv. unfold _addReplyMetakeysResults, vectorCount. pose proof Hv as (_ & -> & _).
  rewrite length_map, Nat2Z.id. change 0 with (Z.of_nat 0). by rewrite (reply_loop_ok v ks ks 0 Hv).
Qed.

(** The test of a key against the pattern, with the shortcut for a single star. *)
Lemma pattern_test p ts k :
  glob_tokens p = Some ts → nonul p → k ≠ [] →
  (if is_allkeys p then Ok true else stringmatchlen p k false) = Ok (tmatch false ts k).
Proof.
  intros Hr Hn Hk. rewrite <- (stringmatchlen_reads false p ts k); [|by eapply tokens_of_reads|done]. unfold is_allkeys.
  rewrite cstr_nonul by done. case_bool_decide as E; [|done]. subst p.
  rewrite (stringmatchlen_reads false (lit "*") [TStar]); [|apply reads_star, reads_nil|done].
  by rewrite <- (some_suffix_nil k).
Qed.

(** The text of one filter, as the only statement. *)
Lemma one_statement t : t ≠ [] → nonul t → "$"%char ∉ t →
  strtok_r (cstr (t ++ lit "$")) PARTITION_FILTER_STATEMENT_SUFFIX = (Some t, []).
Proof.
  intros Hne Hn Hd. rewrite cstr_nonul by (rewrite nonul_app; split; [done|by apply (bool_decide_unpack _)]).
  apply strtok_r_token; [done| |by apply list_elem_of_here].
  apply Forall_forall. intros c Hc. unfold PARTITION_FILTER_STATEMENT_SUFFIX, lit. cbn.
  rewrite elem_of_cons, elem_of_nil. intros [->|[]]. done.
Qed.

Lemma ftext_nonempty e : wf_expr e → ftext e ≠ [].
Proof.
  intros Hw E. pose proof (parseStatement_ok e Hw) as Hp. rewrite E in Hp. discriminate Hp.
  vm_compute. lia.
Qed.

(** A partition of a table, and its key in Metadict. *)
Definition partition_key (q : Z * list (Z * bytes)) : bytes := meta_key q.1 (ptext q.2).
Definition wf_partition (q : Z * list (Z * bytes)) : Prop :=
  wf_ps q.2 ∧ INT_MIN ≤ q.1 ≤ INT_MAX ∧ (S (length (partition_key q)) < MAX_TMPBUF_SIZE)%nat.
Definition satisfies (e : fexpr) (q : Z * list (Z * bytes)) : bool := feval e (map param_of q.2).

Lemma filter_statement_ok e v parts :
  wf_expr e → (S (length (ftext e)) ≤ MAX_TMPBUF_SIZE)%nat → Forall wf_partition parts → room (length parts) →
  vector_rep v (map Some (map partition_key parts)) →
  ∃ v', filter_statement (ftext e) v = Ok (Some (compile e, v')) ∧
        vector_rep v' (map Some (map partition_key (List.filter (satisfies e) parts))).
Proof.
  intros Hw Hlen Hparts Hroom Hv. unfold filter_statement. rewrite parseStatement_ok by done. res_step.
  cbn [deref]. res_step. unfold vectorCount. pose proof Hv as (_ & -> & _). rewrite !length_map, Nat2Z.id.
  destruct (filter_keys_ok partition_key (compile e) (satisfies e) v parts parts 0 vectorInit [])
    as (v' & E & Hv'); [done|done| |apply (vectorTypeInit_rep 0)|done|].
  - intros q Hq. rewrite Forall_forall in Hparts. destruct (Hparts q Hq) as (Hps & Ht & Hl).
    by apply evaluate_meta_key.
  - change 0 with (Z.of_nat 0). rewrite E. res_step. eauto.
Qed.

(** * Facts about the queue commands *)

Section queues.
  Context {Store : Type} `{RocksDB Store} (cfg : config).
  Implicit Types (st : state Store) (tabs : tables).

(** The invariant does not say which entries are queued for eviction: removing some
    from the queues keeps it. *)
Lemma inv_fewer_queued st tabs le lf lj q fq le' lf' :
  Inv cfg st tabs → tier_inv cfg st tabs le lf lj →
  queue_elems q le' → queue_elems fq lf' → le' `suffix_of` le → lf' `suffix_of` lf →
  max q = max (EvictQueue (st_db st)) → max fq = max (FreeQueue (st_db st)) →
  Inv cfg (set_queues st q fq) tabs.
Proof.
  intros Hinv Ht Hq Hfq [xe ->] [xf ->] Hm1 Hm2. destruct (inv_queues _ _ _ Hinv) as [B1 B2].
  apply (inv_move _ _ _ _ Hinv); try done; cbn; [intros k a e _ E; by exists e|intros *; apply (inv_groups _ _ _ Hinv)| | |].
  - exists le', lf', lj. destruct Ht. split; cbn; try done.
    + by apply Forall_app in ti_evict_loc as [_ ?].
    + by apply Forall_app in ti_free_loc as [_ ?].
    + by apply NoDup_app in ti_evict_nodup as (_ & _ & ?).
    + by apply NoDup_app in ti_free_nodup as (_ & _ & ?).
  - unfold queue_bound. by rewrite Hm1.
  - unfold queue_bound. by rewrite Hm2.
Qed.

Lemma tier_live st tabs le lf lj :
  tier_inv cfg st tabs le lf lj → Forall (live (st_heap st)) le ∧ Forall (live (st_heap st)) lf.
Proof.
  intros []. split; (eapply Forall_impl; [eassumption|]; cbn; intros a).
  - apply entry_at_live.
  - intros [?|?]; by eapply entry_at_live.
Qed.

Lemma dequeueCommand_ok st tabs :
  Inv cfg st tabs →
  ∃ r st', dequeueCommand st = Ok (r, st') ∧ Inv cfg st' tabs ∧ st_next st' = st_next st.
Proof.
  intros Hinv. destruct (inv_tier _ _ _ Hinv) as (le & lf & lj & Ht). unfold dequeueCommand, set_evict.
  destruct (tier_live _ _ _ _ _ Ht) as [Hle _]. destruct le as [|a le].
  - rewrite (dequeue_nil _ _ (ti_evict _ _ _ _ _ _ Ht)). res_step. eexists _, st.
    split; [cbn [snd]; by rewrite set_queues_id|done].
  - apply Forall_cons in Hle as [Ha _].
    destruct (dequeue_cons _ _ _ _ (ti_evict _ _ _ _ _ _ Ht) Ha) as (q & -> & Hq & _ & Hm). res_step.
    eexists _, _. split; [done|]. split; [|done].
    apply (inv_fewer_queued st tabs (a :: le) lf lj q _ le lf); try done; [apply Ht|by exists [a]].
Qed.

Lemma queueEmptyCommand_ok st tabs :
  Inv cfg st tabs →
  ∃ st', queueEmptyCommand st = Ok (RStatus (lit "OK"), st') ∧ Inv cfg st' tabs ∧ st_next st' = st_next st.
Proof.
  intros Hinv. destruct (inv_tier _ _ _ Hinv) as (le & lf & lj & Ht). unfold queueEmptyCommand.
  destruct (tier_live _ _ _ _ _ Ht) as [Hle Hlf].
  destruct (initializeQueue_elems _ _ _ (ti_evict _ _ _ _ _ _ Ht) Hle) as (q & -> & Hq & Hm & _). res_step.
  destruct (initializeQueue_elems _ _ _ (ti_free _ _ _ _ _ _ Ht) Hlf) as (fq & -> & Hfq & Hm' & _). res_step.
  eexists. split; [done|]. split; [|done].
  apply (inv_fewer_queued st tabs le lf lj q fq [] []); try done; apply suffix_nil.
Qed.
End queues.

(** * Properties *)

Section properties.
  Context {Store : Type} `{RocksDB Store}.
  Implicit Types st : state Store.

(** C19: METAKEYS with a pattern answers with exactly the keys of Metadict that the
    pattern matches as a glob, the single star being tested before the matcher.  The
    pattern is any text without NUL bytes that reads as glob tokens, which excludes only a
    class that ends in a lone backslash; the keys are not empty. *)
Theorem metakeys_pattern st cmd p ts :
  glob_tokens p = Some ts → nonul p → Forall (fun k => k ≠ []) (meta_keys st) →
  Z.of_nat (length (meta_keys st)) < 2 ^ 59 →
  metakeysCommand st [cmd; p] = Ok (RMulti (List.filter (tmatch false ts) (meta_keys st))).
Proof.
  intros Hw Hn Hk Hlen. unfold metakeysCommand. cbn [at_index lookup list_lookup]. res_step.
  destruct (match_keys_ok (is_allkeys p) p (tmatch false ts) (meta_keys st)
    (vectorTypeInit STL_TYPE_SDS) []) as (v & -> & Hv).
  - intros k Hin. rewrite Forall_forall in Hk. by apply pattern_test; [| |apply Hk].
  - apply vectorTypeInit_rep.
  - unfold room. cbn [length]. change (2 ^ 59) with 576460752303423488 in Hlen.
    change (2 ^ 60) with 1152921504606846976. lia.
  - res_step. cbn [length Nat.ltb Nat.leb]. by apply addReplyMetakeysResults_ok.
Qed.

(** C12: METAKEYS with a filter: of the partitions in Metadict, the keys left when the
    statement has been evaluated are exactly those whose partition values satisfy
    it.  The command then releases the parsed filter.  When the filter has no
    comparison these keys are the answer; when it has one, the release reads freed
    memory. *)
Theorem metakeys_filter st cmd e parts :
  wf_expr e → (S (length (ftext e)) ≤ MAX_TMPBUF_SIZE)%nat → "$"%char ∉ ftext e →
  meta_keys st = map partition_key parts → Forall wf_partition parts → Z.of_nat (length parts) < 2 ^ 59 →
  (∃ v v', match_keys true (lit "*") (meta_keys st) (vectorTypeInit STL_TYPE_SDS) = Ok v ∧
     filter_statement (ftext e) v = Ok (Some (compile e, v')) ∧
     vector_rep v' (map Some (map partition_key (List.filter (satisfies e) parts)))) ∧
  metakeysCommand st [cmd; lit "*"; ftext e ++ lit "$"] =
    if has_cmp e then Fault UseAfterFree
    else Ok (RMulti (map partition_key (List.filter (satisfies e) parts))).
Proof.
  intros Hw Hl Hd Hkeys Hparts Hlen.
  assert (Hroom : room (length parts)).
  { unfold room. change (2 ^ 59) with 576460752303423488 in Hlen. change (2 ^ 60) with 1152921504606846976. lia. }
  destruct (match_keys_ok true (lit "*") (fun _ => true) (meta_keys st) (vectorTypeInit STL_TYPE_SDS) [])
    as (v & E & Hv); [done|apply vectorTypeInit_rep|by rewrite Hkeys, length_map|].
  rewrite keep_all, Hkeys in Hv. cbn [app] in Hv.
  destruct (filter_statement_ok e v parts Hw Hl Hparts Hroom Hv) as (v' & E' & Hv').
  split; [by exists v, v'|]. unfold metakeysCommand. cbn [at_index lookup list_lookup]. res_step.
  replace (is_allkeys (lit "*")) with true by reflexivity. rewrite E. res_step.
  cbn [length Nat.ltb Nat.leb at_index lookup list_lookup]. res_step. cbn [validateStatements negb].
  rewrite one_statement by (done || by apply ftext_nonempty || by apply ftext_nonul).
  cbn [statements_loop]. rewrite E'. res_step. pose proof (freeConditions_compile e) as Hfree.
  destruct (has_cmp e); [by rewrite Hfree|]. destruct Hfree as [fr ->]. res_step.
  rewrite strtok_r_nil. cbv beta iota. rewrite length_app, Nat.add_comm. cbn. by apply addReplyMetakeysResults_ok.
Qed.
End properties.

(** ** Examples *)

Module Partitions.
Definition parts : list (Z * list (Z * bytes)) :=
  [(30, [(2, lit "1"); (3, lit "x")]); (100, [(2, lit "1")]); (100, [(2, lit "0")])].

(** A server with the meta keys of [parts]. *)
Definition st : state (gmap bytes bytes) :=
  mkState ∅ 1%positive
    (mkDb ∅ ∅ (list_to_map (map (fun q => (partition_key q, HZiplist [])) parts))
       (createArrayQueue 2) (createArrayQueue 2) ∅)
    None None 0 0 [] [].

Definition pattern : list token :=
  map TLit (lit "M:{1") ++ [TClass false [CChar "0"; CRange "2" "5"]] ++ map TLit (lit "0:") ++ [TStar; TLit "}"%char].

Lemma walk : meta_keys st = map partition_key parts.
Proof. vm_compute. reflexivity. Qed.

Lemma parts_ok : Forall wf_partition parts.
Proof.
  repeat constructor; cbn; try done; try (unfold INT_MIN, INT_MAX; lia); try lia;
    by apply (bool_decide_unpack _).
Qed.
End Partitions.

Lemma metakeys_pattern_witness :
  metakeysCommand Partitions.st [lit "METAKEYS"; lit "M:{1[02-5]0:*}"] =
    Ok (RMulti [lit "M:{100:2:1}"; lit "M:{100:2:0}"]).
Proof.
  transitivity (Ok (RMulti (List.filter (tmatch false Partitions.pattern) (meta_keys Partitions.st))));
    [|vm_compute; reflexivity].
  apply metakeys_pattern.
  - vm_compute. reflexivity.
  - by apply (bool_decide_unpack _).
  - rewrite Partitions.walk. repeat constructor; discriminate.
  - rewrite Partitions.walk. vm_compute. reflexivity.
Defined.

Lemma metakeys_filter_witness :
  metakeysCommand Partitions.st [lit "METAKEYS"; lit "*"; lit "3*IsNull$"] =
    Ok (RMulti [lit "M:{100:2:1}"; lit "M:{100:2:0}"]) ∧
  metakeysCommand Partitions.st [lit "METAKEYS"; lit "*"; lit "1*2*EqualTo$"] = Fault UseAfterFree ∧
  List.filter (satisfies (FCmp CEq 2 (lit "1"))) Partitions.parts =
    [(30, [(2, lit "1"); (3, lit "x")]); (100, [(2, lit "1")])].
Proof.
  split; [|split; [|vm_compute; reflexivity]].
  - destruct (metakeys_filter Partitions.st (lit "METAKEYS") (FIsNull 3) Partitions.parts) as [_ E];
      [vm_compute; split; discriminate|by apply (bool_decide_unpack _)|by apply (bool_decide_unpack _)
      |apply Partitions.walk|apply Partitions.parts_ok|vm_compute; reflexivity|].
    replace (lit "3*IsNull$") with (ftext (FIsNull 3) ++ lit "$") by (vm_compute; reflexivity).
    rewrite E. vm_compute. reflexivity.
  - destruct (metakeys_filter Partitions.st (lit "METAKEYS") (FCmp CEq 2 (lit "1")) Partitions.parts) as [_ E];
      [|by apply (bool_decide_unpack _)|by apply (bool_decide_unpack _)
      |apply Partitions.walk|apply Partitions.parts_ok|vm_compute; reflexivity|].
    + split; [vm_compute; split; discriminate|]. split; [|done]. repeat split; by apply (bool_decide_unpack _).
    + replace (lit "1*2*EqualTo$") with (ftext (FCmp CEq 2 (lit "1")) ++ lit "$") by (vm_compute; reflexivity).
      rewrite E. reflexivity.
Defined.
