(* ===== verification/System.v ===== *)
(** The relational layer as a whole.  A server runs the commands FPWRITE and FPSCAN
    while eviction rounds, the background thread, the clock and the commands that
    empty the queues interleave with them in any order.  The abstract server is a map from tables to the list of their
    values; the theorems say that the real one cannot be told apart from it. *)

From S2P Require Import Prelude CString Util Sds Vector Queue Keys Serialize Hash Db Meta Table Invariant Write WriteSpec Scan ScanSpec Tiering TieringSpec PersistSpec Commands.

(** ** The abstract server *)

(** Per table id and partition: the number of columns and all values, row by row. *)
Abbreviation contents_map := (gmap (Z * bytes) (nat * list bytes)).

Inductive command :=
| CWrite (t : Z) (p : bytes) (ncol : nat) (xs : list bytes)
| CScan (t : Z) (p : bytes) (cs : list nat).

(** What a command answers, and the contents after it. *)
Definition spec_step (m : contents_map) (c : command) : reply * contents_map :=
  match c with
  | CWrite t p ncol xs => (RStatus (lit "OK"), <[(t, p) := (ncol, default [] (snd <$> m !! (t, p)) ++ xs)]> m)
  | CScan t p cs =>
      (RMulti (match m !! (t, p) with Some (ncol, vs) => scan_group ncol cs vs | None => [] end), m)
  end.

(** The commands a client may send: whole rows of plain values that fit the table,
    and columns that the table has. *)
Definition command_ok (cfg : config) (m : contents_map) (c : command) : Prop :=
  match c with
  | CWrite t p ncol xs =>
      wf_tkey t p ∧ (1 ≤ ncol ≤ 100)%nat ∧ wf_rows cfg ncol xs ∧
      ∀ n vs, m !! (t, p) = Some (n, vs) → n = ncol
  | CScan t p cs =>
      wf_tkey t p ∧ cs ≠ [] ∧ Forall (fun c => (c < 100)%nat) cs ∧ Z.of_nat (length cs) ≤ INT_MAX ∧
      ∀ n vs, m !! (t, p) = Some (n, vs) → Forall (fun c => (c < n)%nat) cs
  end.

(** ** The server *)

Inductive op :=
| OpWrite (argv : list bytes)
| OpScan (argv : list bytes)
| OpEvict                       (** the eviction at the start of [freeMemoryIfNeeded] *)
| OpRound                       (** one round of its loop *)
| OpBackground                  (** one step of the tiering thread *)
| OpDequeue                     (** DEQUEUEENTRY; what it answers is not recorded *)
| OpEmptyQueue                  (** EMPTYQUEUE, likewise *)
| OpTick (now : Z).

(** The command that the arguments of an operation spell. *)
Definition op_command (o : op) (c : option command) : Prop :=
  match o, c with
  | OpWrite argv, Some (CWrite t p ncol xs) => write_args argv t p ncol xs
  | OpScan argv, Some (CScan t p cs) => scan_args argv t p cs
  | (OpEvict | OpRound | OpBackground | OpDequeue | OpEmptyQueue | OpTick _), None => True
  | _, _ => False
  end.

Section system.
  Context {Store : Type} `{RocksDB Store} (cfg : config).
  Implicit Types (st : state Store) (tabs : tables) (m : contents_map).

(** The database after [initServer]; RocksDB may hold anything. *)
Definition initServer (s : Store) (now : Z) : state Store :=
  mkState ∅ 1%positive
    (mkDb ∅ ∅ ∅ (createArrayQueue DEFAULT_ARRAY_QUEUE_SIZE) (createArrayQueue DEFAULT_FREE_QUEUE_SIZE) s)
    (Some NULLVALUE) (Some []) 0 now [] [].

Definition exec st (o : op) : res (list reply * state Store) :=
  match o with
  | OpWrite argv => '(r, st) ← fpWriteCommand cfg st argv; Ok ([r], st)
  | OpScan argv => '(r, st) ← fpScanCommand cfg st argv; Ok ([r], st)
  | OpEvict => st ← evict_batch cfg st; Ok ([], st)
  | OpRound => st ← free_memory_round cfg st; Ok ([], st)
  | OpBackground => st ← bio_tiering_step st; Ok ([], st)
  | OpDequeue => '(_, st) ← dequeueCommand st; Ok ([], st)
  | OpEmptyQueue => '(_, st) ← queueEmptyCommand st; Ok ([], st)
  | OpTick now => Ok ([], set_now st now)
  end.

Fixpoint run st (os : list op) : res (list reply * state Store) :=
  match os with
  | [] => Ok ([], st)
  | o :: os' =>
      '(rs, st) ← exec st o;
      '(rs', st) ← run st os';
      Ok (rs ++ rs', st)
  end.

Fixpoint spec_run m (cs : list (option command)) : list reply * contents_map :=
  match cs with
  | [] => ([], m)
  | None :: cs' => spec_run m cs'
  | Some c :: cs' =>
      let '(r, m) := spec_step m c in
      let '(rs, m) := spec_run m cs' in
      (r :: rs, m)
  end.

(** The operations spell the commands, each allowed where it comes. *)
Fixpoint run_ok m (os : list op) (cs : list (option command)) : Prop :=
  match os, cs with
  | [], [] => True
  | o :: os', c :: cs' =>
      op_command o c ∧
      match c with
      | None => run_ok m os' cs'
      | Some c => command_ok cfg m c ∧ run_ok (spec_step m c).2 os' cs'
      end
  | _, _ => False
  end.

Definition is_write (o : op) : bool := match o with OpWrite _ => true | _ => false end.
Definition writes (os : list op) : nat := length (List.filter is_write os).

(** ** Refinement *)

Definition abs (tabs : tables) : contents_map := (fun T => (t_cols T, concat (t_groups T))) <$> tabs.

Lemma abs_lookup tabs t p n vs :
  abs tabs !! (t, p) = Some (n, vs) ↔ ∃ T, tabs !! (t, p) = Some T ∧ t_cols T = n ∧ concat (t_groups T) = vs.
Proof.
  unfold abs. rewrite lookup_fmap. destruct (tabs !! (t, p)) as [T|]; cbn; [|naive_solver].
  split; [intros [= <- <-]; eauto|]. by intros (T' & [= <-] & <- & <-).
Qed.

Lemma abs_contents tabs t p : default [] (snd <$> abs tabs !! (t, p)) = contents tabs t p.
Proof. unfold abs, contents. rewrite lookup_fmap. by destruct (tabs !! (t, p)). Qed.

Lemma initServer_inv s now : Inv cfg (initServer s now) ∅.
Proof.
  split; cbn.
  - intros t p T E. by rewrite lookup_empty in E.
  - intros t p _. rewrite lookup_empty. unfold meta_rep. cbn. by rewrite lookup_empty.
  - intros t p i ncol g (T & E & _). by rewrite lookup_empty in E.
  - intros t p i _ _. apply lookup_empty.
  - intros t p k _. apply lookup_empty.
  - intros k a E. by rewrite lookup_empty in E.
  - intros a [e E]. by rewrite lookup_empty in E.
  - exists [], [], []. split; cbn; try constructor; try apply createArrayQueue_rep; try done.
  - intros t p T E. by rewrite lookup_empty in E.
  - done.
  - unfold queue_bound. cbn. done.
Qed.

Context `{!RocksDBLaws Store} (Hcfg : wf_config cfg) (Hrocks : ∀ (s : Store) b, (rocksdb_write s b).2 = false).

Lemma write_ok st tabs argv t p ncol xs :
  Inv cfg st tabs → write_args argv t p ncol xs → command_ok cfg (abs tabs) (CWrite t p ncol xs) →
  Z.pos (st_next st) < MAX_ENTRIES →
  ∃ st' tabs', fpWriteCommand cfg st argv = Ok (RStatus (lit "OK"), st') ∧ Inv cfg st' tabs' ∧
    abs tabs' = (spec_step (abs tabs) (CWrite t p ncol xs)).2 ∧ (st_next st' ≤ Pos.succ (st_next st))%positive.
Proof.
  intros Hinv Hargs (Hk & Hn & Hxs & Hcols) Hmax.
  destruct (fpWrite_ok cfg Hcfg st tabs argv t p ncol xs Hinv Hargs) as (st' & T' & E & Hinv' & HT' & Hc' & Hnext).
  { split_and!; try done; try lia. intros T HT. apply (Hcols _ (concat (t_groups T))), abs_lookup. eauto. }
  exists st', (<[(t, p) := T']> tabs). split_and!; [done|done| |done].
  cbn [spec_step snd]. unfold abs at 1. rewrite fmap_insert, Hc', HT'. by rewrite abs_contents.
Qed.

Lemma scan_ok st tabs argv t p cs :
  Inv cfg st tabs → scan_args argv t p cs → command_ok cfg (abs tabs) (CScan t p cs) →
  fpScanCommand cfg st argv = Ok ((spec_step (abs tabs) (CScan t p cs)).1, st).
Proof.
  intros Hinv Hargs (Hk & Hne & Hcs & Hlen & Hcols). rewrite (fpScan_ok cfg Hcfg st tabs argv t p cs Hinv Hargs).
  - cbn [spec_step fst]. unfold scan_result, abs. rewrite lookup_fmap. by destruct (tabs !! (t, p)).
  - split_and!; try done. intros T HT. apply (Hcols _ (concat (t_groups T))), abs_lookup. eauto.
Qed.

(** An eviction round or release keeps the tables and the number of entries. *)
Lemma evict_ok st tabs :
  Inv cfg st tabs → ∃ st', evict_batch cfg st = Ok st' ∧ Inv cfg st' tabs ∧ st_next st' = st_next st.
Proof.
  intros Hinv. destruct (inv_tier _ _ _ Hinv) as (le & lf & lj & Ht).
  destruct (evict_batch_ok cfg st tabs le Hcfg Hinv) as (st' & k & r & E & Hi & _ & _ & _ & _ & Hnx & _); [apply Ht|]. eauto.
Qed.

Lemma round_ok st tabs :
  Inv cfg st tabs → ∃ st', free_memory_round cfg st = Ok st' ∧ Inv cfg st' tabs ∧ st_next st' = st_next st.
Proof.
  intros Hinv. destruct (inv_tier _ _ _ Hinv) as (le & lf & lj & Ht). unfold free_memory_round, isEmpty.
  rewrite (queue_empty_iff _ _ (ti_free _ _ _ _ _ _ Ht)). destruct lf as [|a lf]; [by apply evict_ok|].
  rewrite bool_decide_false by done. cbn [negb].
  destruct (clear_one_ok cfg st tabs a lf Hinv) as (k & loc & d & st' & _ & _ & E & Hi & Hst); [apply Ht|].
  exists st'. split_and!; [done|done|]. by destruct Hst as [[_ ->]|(_ & fq & -> & _)].
Qed.

Lemma set_now_inv st tabs now : Inv cfg st tabs → Inv cfg (set_now st now) tabs.
Proof.
  intros Hinv. apply (inv_move _ _ _ _ Hinv); try done; cbn; try apply (inv_queues _ _ _ Hinv).
  - intros k a e _ E. by exists e.
  - intros *. apply (inv_groups _ _ _ Hinv).
  - destruct (inv_tier _ _ _ Hinv) as (le & lf & lj & []). exists le, lf, lj. by split.
Qed.

Lemma exec_ok st tabs o c :
  Inv cfg st tabs → op_command o c → (∀ c', c = Some c' → command_ok cfg (abs tabs) c') →
  Z.pos (st_next st) < MAX_ENTRIES ∨ is_write o = false →
  ∃ st' tabs', exec st o = Ok ((spec_run (abs tabs) [c]).1, st') ∧ Inv cfg st' tabs' ∧
    abs tabs' = (spec_run (abs tabs) [c]).2 ∧
    Z.pos (st_next st') ≤ Z.pos (st_next st) + (if is_write o then 1 else 0).
Proof.
  intros Hinv Ho Hc Hnx. destruct o as [argv|argv| | | | | |now], c as [[t p ncol xs|t p cs]|]; try done; cbn in Ho;
    cbn [exec spec_run fst snd is_write].
  - destruct Hnx as [Hnx|]; [|done].
    destruct (write_ok st tabs argv t p ncol xs Hinv Ho (Hc _ eq_refl) Hnx) as (st' & tabs' & -> & Hi & Habs & Hle).
    res_step. exists st', tabs'. split_and!; [done..|lia].
  - rewrite (scan_ok st tabs argv t p cs Hinv Ho (Hc _ eq_refl)). res_step. exists st, tabs. split_and!; [done..|lia].
  - destruct (evict_ok st tabs Hinv) as (st' & -> & Hi & Hle). res_step. exists st', tabs. split_and!; [done..|lia].
  - destruct (round_ok st tabs Hinv) as (st' & -> & Hi & Hle). res_step. exists st', tabs. split_and!; [done..|lia].
  - destruct (bio_step_ok cfg Hcfg st tabs Hinv Hrocks) as (st' & -> & Hi & Hle & _). res_step.
    exists st', tabs. split_and!; [done..|lia].
  - destruct (dequeueCommand_ok cfg st tabs Hinv) as (r & st' & -> & Hi & Hle). res_step.
    exists st', tabs. split_and!; [done..|lia].
  - destruct (queueEmptyCommand_ok cfg st tabs Hinv) as (st' & -> & Hi & Hle). res_step.
    exists st', tabs. split_and!; [done..|lia].
  - exists (set_now st now), tabs. split_and!; [done|by apply set_now_inv|done|cbn; lia].
Qed.

Lemma run_simulates os : ∀ cs st tabs,
  Inv cfg st tabs → run_ok (abs tabs) os cs →
  Z.pos (st_next st) + Z.of_nat (writes os) ≤ MAX_ENTRIES →
  ∃ st' tabs', run st os = Ok ((spec_run (abs tabs) cs).1, st') ∧ Inv cfg st' tabs' ∧
    abs tabs' = (spec_run (abs tabs) cs).2.
Proof.
  induction os as [|o os IH]; intros [|c cs] st tabs Hinv Hok Hnx; try done; cbn [run_ok] in Hok.
  { exists st, tabs. done. }
  destruct Hok as [Ho Hok]. unfold writes in Hnx. cbn [List.filter] in Hnx.
  destruct (exec_ok st tabs o c Hinv Ho) as (st1 & tabs1 & E & Hinv1 & Habs & Hn1).
  { intros c' ->. by destruct Hok. }
  { destruct (is_write o); [left|by right]. cbn [length] in Hnx. lia. }
  destruct (IH cs st1 tabs1 Hinv1) as (st2 & tabs2 & E2 & Hinv2 & Habs2).
  { rewrite Habs. destruct c as [c|]; [|done]. cbn [spec_run]. destruct Hok as [_ Hok].
    by destruct (spec_step (abs tabs) c). }
  { unfold writes. destruct (is_write o); cbn [length] in Hnx; lia. }
  cbn [run]. rewrite E. res_step. rewrite E2. res_step. exists st2, tabs2.
  rewrite Habs2, Habs. destruct c as [c|]; cbn [spec_run]; [|done].
  destruct (spec_step (abs tabs) c) as [r m]. cbn [fst snd]. by destruct (spec_run m cs).
Qed.

(** C1: the server is a map from tables to rows.  Whatever the writes and scans of
    the clients, and however eviction, the release of persisted row groups, the
    background thread, the commands that take entries out of the queues and the
    clock interleave with them, every operation returns,
    each write is acknowledged, and each scan returns the requested columns of all
    rows written to the table so far, in order, whether they are in memory, in
    RocksDB, or on the way.  The clients send well-formed commands, RocksDB
    reports no error, and fewer than 2^29 writes are made. *)
Theorem server_refines_tables s now os cs :
  run_ok ∅ os cs → Z.of_nat (writes os) < MAX_ENTRIES →
  ∃ st, run (initServer s now) os = Ok ((spec_run ∅ cs).1, st).
Proof.
  intros Hok Hw. assert (Habs : abs ∅ = ∅) by (unfold abs; apply fmap_empty).
  destruct (run_simulates os cs (initServer s now) ∅ (initServer_inv s now)) as (st & tabs & E & _).
  - by rewrite Habs.
  - cbn. lia.
  - rewrite Habs in E. eauto.
Qed.

(** C2: after any such run the state satisfies the invariant of the layer for tables
    with the contents of the abstract server: the counters in Metadict, the row
    groups in memory and in RocksDB, both queues and the pending jobs agree. *)
Theorem server_invariant s now os cs :
  run_ok ∅ os cs → Z.of_nat (writes os) < MAX_ENTRIES →
  ∃ rs st tabs, run (initServer s now) os = Ok (rs, st) ∧ Inv cfg st tabs ∧ abs tabs = (spec_run ∅ cs).2.
Proof.
  intros Hok Hw. assert (Habs : abs ∅ = ∅) by (unfold abs; apply fmap_empty).
  destruct (run_simulates os cs (initServer s now) ∅ (initServer_inv s now)) as (st & tabs & E & Hinv & Ht).
  - by rewrite Habs.
  - cbn. lia.
  - rewrite Habs in *. eauto 8.
Qed.
End system.

(** ** An example run *)

Module Example.
Definition cfg : config := mkConfig 2 2 1 512 1000 false false false false.
Definition key : bytes := lit "D:{7:1:2}".
Definition write (xs : list bytes) : op := OpWrite (lit "FPWRITE" :: key :: lit "1:2" :: lit "2" :: lit "0" :: xs).
Definition scan : op := OpScan [lit "FPSCAN"; key; lit "2,1"].
Definition first : list bytes := [lit "a"; lit "b"; lit "c"; lit "d"].
Definition second : list bytes := [lit "e"; lit "f"].
Definition ops : list op :=
  [write first; OpEvict; scan; OpBackground; write second; OpBackground; OpDequeue; OpTick 5; OpRound; OpEmptyQueue; scan].
Definition cmds : list (option command) :=
  [Some (CWrite 7 (lit "1:2") 2 first); None; Some (CScan 7 (lit "1:2") [1; 0]%nat); None;
   Some (CWrite 7 (lit "1:2") 2 second); None; None; None; None; None; Some (CScan 7 (lit "1:2") [1; 0]%nat)].

Lemma rocks_ok (s : gmap bytes bytes) b : (rocksdb_write s b).2 = false.
Proof. done. Qed.

Lemma cfg_ok : wf_config cfg.
Proof. unfold wf_config. cbn. unfold INT_MAX. lia. Qed.

Lemma key_parses : parsingDataKeyInfo key = Ok (Some (mkKeyInfo 7 0 0 (PartitionString (lit "1:2")))).
Proof. vm_compute. reflexivity. Qed.

Lemma table_ok : wf_tkey 7 (lit "1:2").
Proof. split; [unfold INT_MIN, INT_MAX; lia|]. split; [by apply (bool_decide_unpack _)|cbn; lia]. Qed.

Lemma write_spelled xs : op_command (write xs) (Some (CWrite 7 (lit "1:2") 2 xs)).
Proof. do 6 eexists. split; [done|]. split; [exact key_parses|]. split; [done|]. split; [done|]. vm_compute. reflexivity. Qed.

Lemma scan_spelled : op_command scan (Some (CScan 7 (lit "1:2") [1; 0]%nat)).
Proof. do 4 eexists. split; [vm_compute; reflexivity|]. split; [exact key_parses|]. done. Qed.

Lemma rows_ok xs :
  xs = first ∨ xs = second → wf_rows cfg 2 xs.
Proof.
  intros [-> | ->]; (split; [done|]; split; [done|];
    split; [repeat constructor; by apply (bool_decide_unpack _)|]; split; [repeat constructor|]; done).
Qed.

Lemma ops_ok : run_ok cfg ∅ ops cmds.
Proof.
  unfold ops, cmds. cbn [run_ok].
  repeat (split; [first [apply write_spelled|apply scan_spelled|done]|];
          first [split; [split; [apply table_ok|split; [cbn; lia|split; [apply rows_ok; auto|intros n vs E; vm_compute in E; by simplify_eq]]]|]
                |split; [split; [apply table_ok|split; [done|split; [repeat constructor; lia|split; [done|
                   intros n vs E; vm_compute in E; simplify_eq; repeat constructor; lia]]]]|]
                |idtac]).
  done.
Qed.

(** The state after a write and what follows it in the background. *)
Lemma after_write (os : list op) (cs : list (option command)) :
  Forall2 (fun o c => op_command o c ∧ c = None ∧ is_write o = false) os cs →
  ∃ st tabs, run cfg (initServer (∅ : gmap bytes bytes) 0) (write first :: os) = Ok ([RStatus (lit "OK")], st) ∧
    Inv cfg st tabs ∧ abs tabs = {[(7, lit "1:2") := (2%nat, first)]}.
Proof.
  intros Hos.
  assert (Hcs : ∀ m, spec_run m cs = ([], m)).
  { intros m. induction Hos as [|o c os cs (_ & Hc & _) _ IH]; [done|]. by rewrite Hc. }
  assert (Hw : writes os = 0%nat).
  { clear -Hos. induction Hos as [|o c os cs (_ & _ & Ho) _ IH]; [done|]. unfold writes in *. cbn. by rewrite Ho. }
  destruct (run_simulates cfg cfg_ok rocks_ok (write first :: os) (Some (CWrite 7 (lit "1:2") 2 first) :: cs)
    (initServer (∅ : gmap bytes bytes) 0) ∅ (initServer_inv cfg ∅ 0)) as (st & tabs & E & Hinv & Ht).
  - cbn [run_ok]. split; [apply write_spelled|]. split.
    + split; [apply table_ok|]. split; [cbn; lia|]. split; [apply rows_ok; auto|]. intros n vs E. vm_compute in E. done.
    + generalize (spec_step (abs ∅) (CWrite 7 (lit "1:2") 2 first)).2. intros m.
      clear Hcs Hw. induction Hos as [|o c os cs (Ho & Hc & _) _ IH]; [done|]. cbn [run_ok]. split; [done|].
      by rewrite Hc.
  - cbn. unfold writes in *. cbn. rewrite Hw. vm_compute. discriminate.
  - cbn [spec_run spec_step fst snd] in E, Ht. rewrite Hcs in E, Ht. cbn [fst snd] in E, Ht.
    exists st, tabs. split; [exact E|]. split; [exact Hinv|]. rewrite Ht. vm_compute. reflexivity.
Qed.
End Example.

Lemma server_refines_tables_witness :
  ∃ st, run Example.cfg (initServer (∅ : gmap bytes bytes) 0) Example.ops =
    Ok ([RStatus (lit "OK"); RMulti [lit "b"; lit "a"; lit "d"; lit "c"]; RStatus (lit "OK");
         RMulti [lit "b"; lit "a"; lit "d"; lit "c"; lit "f"; lit "e"]], st).
Proof.
  destruct (server_refines_tables (Store := gmap bytes bytes) Example.cfg Example.cfg_ok Example.rocks_ok (∅ : gmap bytes bytes) 0
    Example.ops Example.cmds Example.ops_ok) as [st E]; [vm_compute; reflexivity|].
  exists st. rewrite E. vm_compute. reflexivity.
Defined.

Lemma server_invariant_witness :
  ∃ rs st tabs, run Example.cfg (initServer (∅ : gmap bytes bytes) 0) Example.ops = Ok (rs, st) ∧
    Inv Example.cfg st tabs ∧ abs tabs = {[(7, lit "1:2") := (2%nat, Example.first ++ Example.second)]}.
Proof.
  destruct (server_invariant (Store := gmap bytes bytes) Example.cfg Example.cfg_ok Example.rocks_ok (∅ : gmap bytes bytes) 0
    Example.ops Example.cmds Example.ops_ok) as (rs & st & tabs & E & Hi & Ht); [vm_compute; reflexivity|].
  exists rs, st, tabs. split; [exact E|]. split; [exact Hi|]. rewrite Ht. vm_compute. reflexivity.
Defined.
