(* ===== verification/Keyspace.v ===== *)
(** src/src/db.c: the commands that remove keys, DEL, UNLINK, FLUSHDB and FLUSHALL, and
    EXISTS.  They know nothing of the queues of the relational layer; the theorems show
    what they do to the keyspace, and what that does to the eviction. *)
From S2P Require Import Prelude CString Util Sds Vector Queue Keys Hash Db Meta Table Invariant Write Tiering System.
Local Open Scope Z_scope.

Section keyspace.
  Context {Store : Type} `{RocksDB Store}.
  Implicit Types (st : state Store).

(** * DEL, UNLINK, EXISTS *)

Fixpoint del_loop (cfg : config) (lazy : bool) st (keys : list bytes) (numdel : Z) : res (Z * state Store) :=
  match keys with
  | [] => Ok (numdel, st)
  | key :: keys =>
      '(_, st) ← expireIfNeeded cfg st key;
      '(deleted, st) ← (if lazy then dbAsyncDelete st key else Ok (dbSyncDelete st key));
      if deleted : bool then del_loop cfg lazy (incr_dirty st) keys (numdel + 1)
      else del_loop cfg lazy st keys numdel
  end.

Definition delGenericCommand (cfg : config) st (argv : list bytes) (lazy : bool) : res (reply * state Store) :=
  '(numdel, st) ← del_loop cfg lazy st (tail argv) 0;
  Ok (RInteger numdel, st).
Definition delCommand (cfg : config) st (argv : list bytes) : res (reply * state Store) := delGenericCommand cfg st argv false.
Definition unlinkCommand (cfg : config) st (argv : list bytes) : res (reply * state Store) := delGenericCommand cfg st argv true.

Definition dbExists st (key : bytes) : bool := bool_decide (is_Some (dictFind st key)).

Fixpoint exists_loop (cfg : config) st (keys : list bytes) (count : Z) : res (Z * state Store) :=
  match keys with
  | [] => Ok (count, st)
  | key :: keys =>
      '(_, st) ← expireIfNeeded cfg st key;
      exists_loop cfg st keys (if dbExists st key then count + 1 else count)
  end.
Definition existsCommand (cfg : config) st (argv : list bytes) : res (reply * state Store) :=
  '(count, st) ← exists_loop cfg st (tail argv) 0;
  Ok (RInteger count, st).

(** * FLUSHDB, FLUSHALL *)

Definition syntaxerr : bytes := lit "ERR syntax error".

(** The error sent to the client, or whether to empty in the background. *)
Definition getFlushCommandFlags (argv : list bytes) : reply + bool :=
  match argv with
  | [] | [_] => inr false
  | [_; a] => if strcasecmp_eq a (lit "async") then inr true else inl (RError syntaxerr)
  | _ => inl (RError syntaxerr)
  end.

(** These two work on the databases of the server: the heap they share, [server.db]
    and [server.dirty]; the last result is the jobs for the lazy-free thread, which
    may release entries of them while the command runs. *)
Definition server_dbs : Type := heap value * list (redisDb Store) * Z.

Definition flushdbCommand (srv : server_dbs) (id : Z) (argv : list bytes) (freed : addr → bool) : res (reply * server_dbs * list lazy_job) :=
  let '(h, dbs, dirty) := srv in
  match getFlushCommandFlags argv with
  | inl err => Ok (err, srv, [])
  | inr async =>
      '(removed, h, dbs, jobs) ← emptyDb h dbs id async freed;
      Ok (RStatus (lit "OK"), (h, dbs, dirty + removed), jobs)
  end.

Definition flushallCommand (srv : server_dbs) (argv : list bytes) (freed : addr → bool) : res (reply * server_dbs * list lazy_job) :=
  let '(h, dbs, dirty) := srv in
  match getFlushCommandFlags argv with
  | inl err => Ok (err, srv, [])
  | inr async =>
      '(removed, h, dbs, jobs) ← emptyDb h dbs (-1) async freed;
      Ok (RStatus (lit "OK"), (h, dbs, dirty + removed + 1), jobs)
  end.

(** * DEL and EXISTS on the keyspace *)

(** Every key has its entry, with a value. *)
Definition entries_ok st : Prop :=
  ∀ k a, dict (st_db st) !! k = Some a → ∃ e, st_heap st !! a = Some e ∧ de_key e = k ∧ is_Some (de_val e).

Definition no_expiry st (keys : list bytes) : Prop := ∀ k, k ∈ keys → expires (st_db st) !! k = None.

(** What a deletion leaves alone. *)
Definition same_but_dict st st' : Prop :=
  Metadict (st_db st') = Metadict (st_db st) ∧ EvictQueue (st_db st') = EvictQueue (st_db st) ∧
  FreeQueue (st_db st') = FreeQueue (st_db st) ∧ persistent_store (st_db st') = persistent_store (st_db st) ∧
  st_tiering st' = st_tiering st.

Lemma expire_none cfg st key : expires (st_db st) !! key = None → expireIfNeeded cfg st key = Ok (false, st).
Proof. intros E. unfold expireIfNeeded, getExpire. rewrite E. by res_step. Qed.

Lemma entries_ok_live st key : entries_ok st → ∀ a, dict (st_db st) !! key = Some a → live (st_heap st) a.
Proof. intros Hok a E. destruct (Hok key a E) as (e & He & _ & [o Ho]). by exists e, o. Qed.

(** One deletion, in either way. *)
Lemma delete_one (lazy : bool) st key :
  (∀ a, dict (st_db st) !! key = Some a → live (st_heap st) a) →
  ∃ st', (if lazy then dbAsyncDelete st key else Ok (dbSyncDelete st key)) = Ok (bool_decide (is_Some (dict (st_db st) !! key)), st') ∧
    dict (st_db st') = delete key (dict (st_db st)) ∧ expires (st_db st') = delete key (expires (st_db st)) ∧
    same_but_dict st st' ∧ st_dirty st' = st_dirty st ∧
    st_heap st' = match dict (st_db st) !! key with Some a => delete a (st_heap st) | None => st_heap st end.
Proof.
  intros Hok. destruct (dict (st_db st) !! key) as [a|] eqn:E.
  - destruct (Hok a eq_refl) as (e & o & He & Ho). destruct lazy.
    + unfold dbAsyncDelete, dictFind. cbn [expires_delete set_expires set_db st_db dict st_heap]. rewrite E. unfold load.
      rewrite He. res_step. rewrite Ho. cbn [deref]. res_step.
      destruct (_ >? _); unfold dictDelete, dictFind; cbn [create_lazy_job set_jobs st_db dict set_expires set_db expires_delete];
        rewrite E; cbn [snd]; by eexists.
    + unfold dbSyncDelete, dictDelete, dictFind. cbn [expires_delete set_expires set_db st_db dict]. rewrite E. by eexists.
  - assert (Ed : delete key (dict (st_db st)) = dict (st_db st)) by by apply delete_id.
    destruct lazy; unfold dbAsyncDelete, dbSyncDelete, dictDelete, dictFind;
      cbn [expires_delete set_expires set_db st_db dict]; rewrite E; by eexists.
Qed.

Lemma entries_ok_delete st st' key :
  entries_ok st → dict (st_db st') = delete key (dict (st_db st)) →
  st_heap st' = match dict (st_db st) !! key with Some a => delete a (st_heap st) | None => st_heap st end →
  entries_ok st'.
Proof.
  intros Hok Hd Hh k a. rewrite Hd, Hh. intros [Hne Hk]%lookup_delete_Some. destruct (Hok k a Hk) as (e & He & Hek & Hv).
  exists e. split; [|done]. destruct (dict (st_db st) !! key) as [b|] eqn:Eb; [|done].
  rewrite lookup_delete_ne; [done|]. intros ->. destruct (Hok key a Eb) as (e' & He' & Hek' & _). congruence.
Qed.

(** The keys of a list that exist, each once. *)
Definition existing st (keys : list bytes) : gset bytes := dom (dict (st_db st)) ∩ list_to_set keys.

Lemma existing_cons st st' key keys :
  dict (st_db st') = delete key (dict (st_db st)) →
  Z.of_nat (base.size (existing st (key :: keys))) =
    (if bool_decide (is_Some (dict (st_db st) !! key)) then 1 else 0) + Z.of_nat (base.size (existing st' keys)).
Proof.
  intros Hd. unfold existing. rewrite Hd, dom_delete_L. case_bool_decide as Hk.
  - apply elem_of_dom in Hk.
    assert (dom (dict (st_db st)) ∩ list_to_set (key :: keys) =
            {[key]} ∪ (dom (dict (st_db st)) ∖ {[key]}) ∩ list_to_set keys) as ->.
    { apply set_eq. intros k. destruct (decide (k = key)); set_solver. }
    rewrite size_union by set_solver. rewrite size_singleton. lia.
  - rewrite <- elem_of_dom in Hk.
    assert (dom (dict (st_db st)) ∩ list_to_set (key :: keys) = (dom (dict (st_db st)) ∖ {[key]}) ∩ list_to_set keys) as ->; [|lia].
    apply set_eq. intros k. destruct (decide (k = key)); set_solver.
Qed.

Lemma del_loop_ok cfg lazy keys : ∀ st numdel,
  entries_ok st → no_expiry st keys →
  ∃ st', del_loop cfg lazy st keys numdel = Ok (numdel + Z.of_nat (base.size (existing st keys)), st') ∧
    dict (st_db st') = filter (fun kv => kv.1 ∉ keys) (dict (st_db st)) ∧ entries_ok st' ∧ same_but_dict st st' ∧
    (∀ k, expires (st_db st) !! k = None → expires (st_db st') !! k = None) ∧
    st_dirty st' = st_dirty st + Z.of_nat (base.size (existing st keys)).
Proof.
  induction keys as [|key keys IH]; intros st numdel Hok Hx.
  { exists st. assert (existing st [] = ∅) as -> by (unfold existing; set_solver). rewrite size_empty, !Z.add_0_r.
    split; [done|]. split; [|by unfold same_but_dict]. symmetry. apply map_filter_id. intros k a _. apply not_elem_of_nil. }
  cbn [del_loop]. rewrite expire_none by (apply Hx; set_solver). res_step.
  destruct (delete_one lazy st key (entries_ok_live st key Hok)) as (st1 & -> & Hd & Hex & Hsame & Hdirty & Hh). res_step.
  pose proof (entries_ok_delete st st1 key Hok Hd Hh) as Hok1.
  assert (Hx1 : no_expiry st1 keys) by (intros k Hk; rewrite Hex; apply lookup_delete_None; right; apply Hx; set_solver).
  assert (Hf : filter (fun kv => kv.1 ∉ keys) (dict (st_db st1)) = filter (fun kv => kv.1 ∉ key :: keys) (dict (st_db st))).
  { rewrite Hd. apply map_eq. intros k. apply option_eq. intros a. rewrite !map_lookup_filter_Some, lookup_delete_Some. set_solver. }
  pose proof (existing_cons st st1 key keys Hd) as Hn.
  assert (Hall : ∀ k, expires (st_db st) !! k = None → expires (st_db st1) !! k = None).
  { intros k Hk. rewrite Hex. apply lookup_delete_None. by right. }
  destruct (bool_decide (is_Some (dict (st_db st) !! key))).
  - destruct (IH (incr_dirty st1) (numdel + 1)) as (st' & -> & Hd' & Hok' & Hs' & Hx' & Hdi'); [done|done|].
    exists st'. cbn [st_db incr_dirty st_dirty] in *. change (existing (incr_dirty st1) keys) with (existing st1 keys) in *.
    rewrite Hn. split; [do 2 f_equal; lia|]. rewrite <- Hf. split_and!; try done; [|eauto|lia].
    unfold same_but_dict in *. cbn in *. naive_solver congruence.
  - destruct (IH st1 numdel) as (st' & -> & Hd' & Hok' & Hs' & Hx' & Hdi'); [done|done|].
    exists st'. rewrite Hn. split; [do 2 f_equal; lia|]. rewrite <- Hf. split_and!; try done; [|eauto|lia].
    unfold same_but_dict in *. naive_solver congruence.
Qed.

Lemma exists_loop_ok cfg st keys : ∀ count,
  no_expiry st keys →
  exists_loop cfg st keys count = Ok (count + Z.of_nat (length (filter (fun k => is_Some (dict (st_db st) !! k)) keys)), st).
Proof.
  induction keys as [|key keys IH]; intros count Hx; cbn [exists_loop]; [by rewrite Z.add_0_r|].
  rewrite expire_none by (apply Hx; set_solver). res_step. rewrite IH by (intros k Hk; apply Hx; set_solver).
  unfold dbExists, dictFind. rewrite filter_cons. case_decide; case_bool_decide; try done; cbn [length]; do 2 f_equal; lia.
Qed.

(** C22: DEL and UNLINK of keys without expiry answer with the number of the keys that
    exist, each counted once, remove exactly these from the keyspace and leave Metadict,
    the queues, RocksDB and the tiering jobs alone; EXISTS of the same keys then answers 0. *)
Theorem del_removes cfg lazy st cmd cmd' keys :
  entries_ok st → no_expiry st keys →
  ∃ st', delGenericCommand cfg st (cmd :: keys) lazy = Ok (RInteger (Z.of_nat (base.size (existing st keys))), st') ∧
    dict (st_db st') = filter (fun kv => kv.1 ∉ keys) (dict (st_db st)) ∧ entries_ok st' ∧ same_but_dict st st' ∧
    existsCommand cfg st' (cmd' :: keys) = Ok (RInteger 0, st').
Proof.
  intros Hok Hx. destruct (del_loop_ok cfg lazy keys st 0 Hok Hx) as (st' & E & Hd & Hok' & Hs & Hx' & _).
  exists st'. unfold delGenericCommand, existsCommand. cbn [tail]. rewrite E. res_step. split_and!; try done.
  rewrite exists_loop_ok by (intros k Hk; apply Hx', Hx, Hk). res_step. do 3 f_equal.
  assert (Hnil : filter (fun k => is_Some (dict (st_db st') !! k)) keys = []); [|by rewrite Hnil].
  apply elem_of_nil_inv. intros k [[b Hb] Hk]%list_elem_of_filter. rewrite Hd in Hb.
  by apply map_lookup_filter_Some in Hb as [_ Hb].
Qed.

(** An eviction whose oldest candidate was released reads it. *)
Lemma evict_dangling cfg st a le :
  1 ≤ batch_tiering_size cfg → queue_elems (EvictQueue (st_db st)) (a :: le) → st_heap st !! a = None →
  evict_batch cfg st = Fault UseAfterFree.
Proof.
  intros Hb Hq Ha. unfold evict_batch, vectorCreate.
  destruct (vectorTypeInitWithSize_rep (A := addr) STL_TYPE_SDS INIT_VECTOR_SIZE) as (v1 & -> & _);
    [by unfold INIT_VECTOR_SIZE|]. res_step.
  destruct (vectorTypeInitWithSize_rep (A := addr) STL_TYPE_ROBJ INIT_VECTOR_SIZE) as (v2 & -> & _);
    [by unfold INIT_VECTOR_SIZE|]. res_step.
  unfold _batchTiering. destruct (Z.to_nat (max (EvictQueue (st_db st)))) as [|n] eqn:En; [destruct Hq; lia|].
  cbn [tiering_loop]. unfold isEmpty. rewrite (queue_empty_iff _ _ Hq), bool_decide_false by done.
  destruct (Z.leb_spec (batch_tiering_size cfg) 0); [lia|]. cbn [orb].
  unfold chooseBestKeyFromQueue_. by rewrite (dequeue_dangling _ _ _ _ Hq Ha).
Qed.

(** C36: DEL or UNLINK of the oldest row group in the eviction queue, of a server in any
    reachable state, succeeds and leaves the released entry in the queue; the next eviction
    reads it. *)
Theorem del_then_evict_faults cfg lazy st tabs cmd a le :
  wf_config cfg → Inv cfg st tabs → queue_elems (EvictQueue (st_db st)) (a :: le) →
  ∃ k st', dict (st_db st) !! k = Some a ∧
    delGenericCommand cfg st [cmd; k] lazy = Ok (RInteger 1, st') ∧ evict_batch cfg st' = Fault UseAfterFree.
Proof.
  intros (_ & _ & Hb) Hinv Hq. destruct (inv_tier _ _ _ Hinv) as (le' & lf & lj & Ht).
  assert (le' = a :: le) as -> by (eapply queue_elems_inj; [apply Ht|done]).
  pose proof (ti_evict_loc _ _ _ _ _ _ Ht) as Hl. apply Forall_cons in Hl as [(t & p & i & ncol & g & d & Hg & Hk & Ha) _].
  set (k := data_key t p (Z.of_nat i + 1)) in *. assert (Hwf : wf_tkey t p).
  { destruct Hg as (T & HT & _). by apply (inv_tables _ _ _ Hinv _ _ T). }
  destruct (delete_one lazy st k) as (st' & E & _ & _ & Hs & _ & Hh).
  { rewrite Hk. intros b [= <-]. by eexists _, _. }
  exists k, (incr_dirty st'). split; [done|]. unfold delGenericCommand. cbn [tail del_loop].
  rewrite expire_none by (by apply (inv_expires _ _ _ Hinv)). res_step. rewrite E, Hk. res_step.
  rewrite bool_decide_true by done. res_step. split; [done|]. rewrite Hk in Hh.
  apply (evict_dangling _ _ a le); [lia|destruct Hs as (_ & Hqe & _); cbn [st_db incr_dirty]; by rewrite Hqe|]. cbn [st_heap incr_dirty].
  rewrite Hh. apply lookup_delete_eq.
Qed.

(** * Asynchronous flushes *)

(** The queues of a database hold live entries. *)
Definition queues_live (h : heap value) (db : redisDb Store) : Prop :=
  ∃ le lf, queue_elems (EvictQueue db) le ∧ Forall (live h) le ∧ queue_elems (FreeQueue db) lf ∧ Forall (live h) lf.

(** [db'] is [db] with empty queues, and without keys if [flushed]. *)
Definition flushed_db (flushed : bool) (db db' : redisDb Store) : Prop :=
  dict db' = (if flushed then ∅ else dict db) ∧ expires db' = (if flushed then ∅ else expires db) ∧
  Metadict db' = Metadict db ∧ persistent_store db' = persistent_store db ∧
  queue_elems (EvictQueue db') [] ∧ queue_elems (FreeQueue db') [].

Definition named (dbnum j : Z) : bool := (dbnum =? -1) || (dbnum =? j).

(** The database after the first loop. *)
Definition async_db (dbnum : Z) (i : nat) (db : redisDb Store) : redisDb Store :=
  if named dbnum (Z.of_nat i) then (emptyDbAsync db).1 else db.

(** The entries that are to be released. *)
Definition flushed_entries (dbnum : Z) (dbs : list (redisDb Store)) : list addr :=
  concat (imap (fun i db => if named dbnum (Z.of_nat i) then db_entries db else []) dbs).

Lemma empty_loop_async dbnum h (dbs : list (redisDb Store)) : ∀ j,
  ∃ removed jobs, empty_loop dbnum true (Z.of_nat j) h dbs = (removed, h, imap (fun i => async_db dbnum (j + i)) dbs, jobs) ∧
    concat (map job_entries jobs) = concat (imap (fun i db => if named dbnum (Z.of_nat (j + i)) then db_entries db else []) dbs).
Proof.
  induction dbs as [|db dbs IH]; intros j; [by eexists _, []|]. cbn [empty_loop imap].
  destruct (IH (S j)) as (removed & jobs & E & Ej). replace (Z.of_nat j + 1) with (Z.of_nat (S j)) by lia. rewrite E.
  assert (Hn : named dbnum (Z.of_nat (j + 0)) = negb (negb (dbnum =? -1) && negb (dbnum =? Z.of_nat j))).
  { unfold named. rewrite Nat.add_0_r. by destruct (_ =? -1), (_ =? Z.of_nat j). }
  assert (Hi : ∀ A (f : nat → redisDb Store → A), imap (fun i => f (S j + i)%nat) dbs = imap ((fun i => f (j + i)%nat) ∘ S) dbs).
  { intros A f. apply imap_ext. intros i d _. cbn. by rewrite Nat.add_succ_r. }
  rewrite (Hi _ (async_db dbnum)). rewrite (Hi _ (fun i db => if named dbnum (Z.of_nat i) then db_entries db else [])) in Ej.
  assert (Hd : async_db dbnum (j + 0) db = if negb (dbnum =? -1) && negb (dbnum =? Z.of_nat j) then db else (emptyDbAsync db).1).
  { unfold async_db. rewrite Hn. by destruct (negb (_ =? -1) && _). }
  rewrite Hd, Hn. destruct (negb (_ =? -1) && _); cbn [negb].
  - eexists _, jobs. split; [done|]. rewrite Ej. done.
  - eexists _, (LazyFreeDb (db_entries db) :: jobs). split; [done|]. cbn [map concat job_entries]. by rewrite Ej.
Qed.

Lemma init_queues_ok h dbs :
  Forall (queues_live h) dbs → ∃ dbs', init_queues h dbs = Ok dbs' ∧ Forall2 (flushed_db false) dbs dbs'.
Proof.
  induction 1 as [|db dbs (le & lf & He & Hle & Hf & Hlf) _ (dbs' & IH & Hall)]; [by exists []|]. cbn [init_queues].
  destruct (initializeQueue_elems _ _ _ He Hle) as (eq & -> & Heq & _). res_step.
  destruct (initializeQueue_elems _ _ _ Hf Hlf) as (fq & -> & Hfq & _). res_step.
  rewrite IH. res_step. eexists. split; [done|]. by constructor.
Qed.

(** What is left of the heap when the thread has released [l]. *)
Lemma released_lookup (h : heap value) l a : foldr delete h l !! a = if bool_decide (a ∈ l) then None else h !! a.
Proof.
  induction l as [|b l IH]; cbn [foldr]; [done|]. destruct (decide (b = a)) as [->|Hne].
  - rewrite lookup_delete_eq. by rewrite bool_decide_true by left.
  - rewrite lookup_delete_ne, IH by done. repeat case_bool_decide; set_solver.
Qed.

(** The entries in the queues are live, and not among those that the thread has released. *)
Definition queues_safe (h : heap value) (freed : addr → bool) (db : redisDb Store) : Prop :=
  ∃ le lf, queue_elems (EvictQueue db) le ∧ queue_elems (FreeQueue db) lf ∧
    Forall (fun a => live h a ∧ freed a = false) (le ++ lf).

Lemma queues_safe_live h freed db l :
  queues_safe h freed db → queues_live (foldr delete h (List.filter freed l)) db.
Proof.
  intros (le & lf & He & Hf & Hall). apply Forall_app in Hall as [Hle Hlf].
  assert (Hl : ∀ a, live h a ∧ freed a = false → live (foldr delete h (List.filter freed l)) a).
  { intros a [(e & o & Ha & Ho) Hn]. exists e, o. split; [|done]. rewrite released_lookup, bool_decide_false; [done|].
    rewrite list_elem_of_In, List.filter_In. intros [_ ?]. congruence. }
  exists le, lf. split_and!; [done| |done|]; by eapply Forall_impl.
Qed.

Lemma emptyDb_async (h : heap value) dbs dbnum freed :
  -1 ≤ dbnum < Z.of_nat (length dbs) → Forall (queues_safe h freed) dbs →
  ∃ removed dbs' jobs, emptyDb h dbs dbnum true freed =
      Ok (removed, foldr delete h (List.filter freed (flushed_entries dbnum dbs)), dbs', jobs) ∧ length dbs' = length dbs ∧
    ∀ (i : nat) db db', dbs !! i = Some db → dbs' !! i = Some db' → flushed_db (named dbnum (Z.of_nat i)) db db'.
Proof.
  intros Hn Hq. unfold emptyDb.
  destruct (Z.ltb_spec dbnum (-1)); [lia|]. destruct (Z.leb_spec (Z.of_nat (length dbs)) dbnum); [lia|]. cbn [orb].
  destruct (empty_loop_async dbnum h dbs 0) as (removed & jobs & E & Ej). change (Z.of_nat 0) with 0 in E. rewrite E. unfold lazyfree_races. rewrite Ej.
  change (concat (imap _ dbs)) with (flushed_entries dbnum dbs). set (h' := foldr delete h _).
  set (dbs1 := imap _ dbs). assert (Hq1 : Forall (queues_live h') dbs1).
  { apply Forall_lookup_2. intros i d Hd. unfold dbs1 in Hd. rewrite list_lookup_imap in Hd.
    destruct (dbs !! i) as [d0|] eqn:E0; [|done]. pose proof (Forall_lookup_1 _ _ _ _ Hq E0) as Hd0.
    cbn in Hd. injection Hd as <-. apply (queues_safe_live _ _ _ (flushed_entries dbnum dbs)) in Hd0.
    unfold async_db. by destruct (named _ _). }
  destruct (init_queues_ok h' dbs1 Hq1) as (dbs' & -> & Hall). res_step. eexists removed, dbs', _.
  split; [done|]. split; [rewrite <- (Forall2_length _ _ _ Hall); apply length_imap|].
  intros i db db' Hi Hi'. assert (Hd1 : dbs1 !! i = Some (async_db dbnum i db)).
  { unfold dbs1. by rewrite list_lookup_imap, Hi. }
  pose proof (Forall2_lookup_lr _ _ _ _ _ _ Hall Hd1 Hi') as Hf. unfold async_db in Hf. by destruct (named _ _).
Qed.

(** C37: FLUSHDB ASYNC empties the keyspace of its database, FLUSHALL ASYNC of every database, if
    the lazy-free thread, which may run meanwhile, has not yet released an entry that one of
    the queues holds; it releases only entries of the flushed databases.  Metadict of every database
    keeps its counters, and the queues of every database are emptied, also of those that keep
    their row groups. *)
Theorem flush_async_effect (h : heap value) dbs dirty id cmd arg freed :
  strcasecmp_eq arg (lit "async") = true → 0 ≤ id < Z.of_nat (length dbs) → Forall (queues_safe h freed) dbs →
  (∃ dbs' dirty' jobs, flushdbCommand (h, dbs, dirty) id [cmd; arg] freed =
      Ok (RStatus (lit "OK"), (foldr delete h (List.filter freed (flushed_entries id dbs)), dbs', dirty'), jobs) ∧
    length dbs' = length dbs ∧
    ∀ (i : nat) db db', dbs !! i = Some db → dbs' !! i = Some db' → flushed_db (id =? Z.of_nat i) db db') ∧
  (∃ dbs' dirty' jobs, flushallCommand (h, dbs, dirty) [cmd; arg] freed =
      Ok (RStatus (lit "OK"), (foldr delete h (List.filter freed (flushed_entries (-1) dbs)), dbs', dirty'), jobs) ∧
    length dbs' = length dbs ∧
    ∀ (i : nat) db db', dbs !! i = Some db → dbs' !! i = Some db' → flushed_db true db db').
Proof.
  intros Harg Hid Hq. unfold flushdbCommand, flushallCommand, getFlushCommandFlags. rewrite Harg. split.
  - destruct (emptyDb_async h dbs id freed) as (removed & dbs' & jobs & -> & Hl & Hall); [lia|done|]. res_step.
    exists dbs', (dirty + removed), jobs. split_and!; [done|done|]. intros i db db' Hi Hi'.
    specialize (Hall i db db' Hi Hi'). unfold named in Hall. by destruct (Z.eqb_spec id (-1)); [lia|].
  - destruct (emptyDb_async h dbs (-1) freed) as (removed & dbs' & jobs & -> & Hl & Hall); [lia|done|]. res_step.
    exists dbs', (dirty + removed + 1), jobs. split_and!; [done|done|]. intros i db db' Hi Hi'. exact (Hall i db db' Hi Hi').
Qed.


End keyspace.

(** * Instances *)

Module KeyExample.
(** A server with one key, whose value takes more than 64 frees. *)
Definition one_key : state (gmap bytes bytes) :=
  set_next (set_heap (set_dict (initServer (∅ : gmap bytes bytes) 0) {[lit "k" := 1%positive]})
    {[1%positive := mkEntry (lit "k") (Some (mkRobj LOCATION_REDIS_ONLY (VOther 100)))]}) 2%positive.

Lemma one_key_ok : entries_ok one_key.
Proof.
  intros k a E. change (dict (st_db one_key)) with ({[lit "k" := 1%positive]} : gmap bytes addr) in E.
  apply lookup_singleton_Some in E as [<- <-]. by eexists.
Qed.
End KeyExample.

Lemma del_removes_witness :
  ∃ st', delGenericCommand Example.cfg KeyExample.one_key [lit "UNLINK"; lit "k"; lit "x"; lit "k"] true = Ok (RInteger 1, st') ∧
    dict (st_db st') = ∅ ∧ existsCommand Example.cfg st' [lit "EXISTS"; lit "k"; lit "x"; lit "k"] = Ok (RInteger 0, st').
Proof.
  destruct (del_removes Example.cfg true KeyExample.one_key (lit "UNLINK") (lit "EXISTS") [lit "k"; lit "x"; lit "k"])
    as (st' & E & Hd & _ & _ & Hex); [exact KeyExample.one_key_ok|intros k _; reflexivity|].
  exists st'. split; [rewrite E; vm_compute; reflexivity|]. split; [rewrite Hd; vm_compute; reflexivity|exact Hex].
Defined.

(** After a write of two rows its row group is the oldest candidate. *)
Lemma del_then_evict_faults_witness :
  ∃ st tabs a le k st', run Example.cfg (initServer (∅ : gmap bytes bytes) 0) [Example.write Example.first] =
      Ok ([RStatus (lit "OK")], st) ∧ Inv Example.cfg st tabs ∧ queue_elems (EvictQueue (st_db st)) (a :: le) ∧
    delGenericCommand Example.cfg st [lit "DEL"; k] false = Ok (RInteger 1, st') ∧
    evict_batch Example.cfg st' = Fault UseAfterFree.
Proof.
  destruct (Example.after_write [] [] ltac:(constructor)) as (st & tabs & E & Hinv & _).
  assert (Hne : match run Example.cfg (initServer (∅ : gmap bytes bytes) 0) [Example.write Example.first] with
                | Ok (_, st) => isEmpty (EvictQueue (st_db st))
                | Fault _ => true
                end = false) by (vm_compute; reflexivity).
  rewrite E in Hne. destruct (inv_tier _ _ _ Hinv) as (le & lf & lj & Ht).
  pose proof (ti_evict _ _ _ _ _ _ Ht) as Hle. unfold isEmpty in Hne. rewrite (queue_empty_iff _ _ Hle) in Hne.
  destruct le as [|a le]; [discriminate Hne|].
  destruct (del_then_evict_faults Example.cfg false st tabs (lit "DEL") a le Example.cfg_ok Hinv Hle) as (k & st' & _ & Hdel & Hev).
  exists st, tabs, a, le, k, st'. split; [exact E|]. split; [exact Hinv|]. split; [exact Hle|]. split; [exact Hdel|exact Hev].
Defined.

(** Two databases, the first flushed: the queues of the second, which keeps its key, are emptied. *)
Lemma flush_async_effect_witness :
  ∃ q dbs' dirty' jobs, enqueue (createArrayQueue 4) (Some 1%positive) = Ok (1, q) ∧
    let h : heap value := {[1%positive := mkEntry (lit "k") (Some (mkRobj 0 (VRel ∅)))]} in
    let db0 := mkDb ∅ ∅ ∅ (createArrayQueue 4) (createArrayQueue 4) (∅ : gmap bytes bytes) in
    let db1 := mkDb {[lit "k" := 1%positive]} ∅ ∅ q (createArrayQueue 4) (∅ : gmap bytes bytes) in
    flushdbCommand (h, [db0; db1], 0) 0 [lit "FLUSHDB"; lit "ASYNC"] (fun _ => false) = Ok (RStatus (lit "OK"), (h, dbs', dirty'), jobs) ∧
    ∀ db', dbs' !! 1%nat = Some db' → dict db' = {[lit "k" := 1%positive]} ∧ queue_elems (EvictQueue db') [].
Proof.
  destruct (enqueue_room (createArrayQueue 4) [] 1%positive) as (q & E & Hq & _);
    [apply createArrayQueue_rep; unfold QUEUE_MAX; lia|cbn; lia|].
  assert (Hnew : queue_elems (createArrayQueue 4) []) by (apply createArrayQueue_rep; unfold QUEUE_MAX; lia).
  pose (h := {[1%positive := mkEntry (lit "k") (Some (mkRobj 0 (VRel ∅)))]} : heap value).
  destruct (flush_async_effect h [mkDb ∅ ∅ ∅ (createArrayQueue 4) (createArrayQueue 4) (∅ : gmap bytes bytes);
      mkDb {[lit "k" := 1%positive]} ∅ ∅ q (createArrayQueue 4) (∅ : gmap bytes bytes)] 0 0 (lit "FLUSHDB") (lit "ASYNC") (fun _ => false))
    as ((dbs' & dirty' & jobs & Ef & _ & Hdb) & _).
  - vm_compute. reflexivity.
  - cbn. lia.
  - constructor; [exists [], []; auto|]. constructor; [|constructor]. exists [1%positive], []. split; [exact Hq|].
    split; [exact Hnew|]. constructor; [|constructor]. split; [|reflexivity]. eexists _, _. split; [apply lookup_singleton_eq|reflexivity].
  - exists q, dbs', dirty', jobs. split; [exact E|]. cbv zeta. split; [exact Ef|]. intros db' Hi.
    destruct (Hdb 1%nat _ db' eq_refl Hi) as (Hd & _ & _ & _ & He & _). split; [exact Hd|exact He].
Defined.

