(* ===== verification/Multi.v ===== *)
(** src/src/multi.c, and where server.c, networking.c and db.c use it: transactions.  A
    client has a flag word, a queue of commands and a list of watched keys; the server has,
    per database, the lists of the clients that watch a key.  The theorems hold for any
    commands, given by what they do to the data and which keys they touch.  A command that
    processCommand refuses comes with the reason for it.  The feed of
    monitors and the end of the backlog after a change of role are not represented. *)
From S2P Require Import Prelude CString Util Write Commands.
Local Open Scope Z_scope.

Definition CLIENT_MULTI : Z := Z.shiftl 1 3.
Definition CLIENT_DIRTY_CAS : Z := Z.shiftl 1 5.
Definition CLIENT_DIRTY_EXEC : Z := Z.shiftl 1 12.

Abbreviation clientid := positive.

(** A key of a database. *)
Abbreviation dbkey := (Z * bytes)%type.

(** The commands that a transaction may hold; [Flush true] is FLUSHALL. *)
Inductive qcmd :=
| Unwatch
| Select (arg : bytes)
| Flush (all : bool)
| Other (argv : list bytes).

Inductive cmd :=
| Multi
| Exec
| Discard
| Watch (keys : list bytes)
| Plain (q : qcmd).

(** A reply, the status QUEUED, the replies of a transaction, or a nil multi bulk. *)
Inductive treply :=
| TReply (r : reply)
| TExec (l : list reply)
| TNil.

Record client := mkClient {
  flags : Z;
  c_db : Z;
  mstate : list qcmd;
  watched_keys : list dbkey;
}.

(** What the data of the server is to the transactions: whether a key exists, what a
    command answers, does and touches, and the emptying of a database or of all (-1).  It
    includes the counter [server.dirty] and what was propagated; a command that is neither
    read-only nor administrative makes EXEC propagate MULTI for the database. *)
Class DataModel (D : Type) := {
  key_exists : D → dbkey → bool;
  run_command : D → Z → list bytes → reply * D * list dbkey;
  flush_db : D → Z → D;
  db_count : Z;
  cluster_enabled : bool;
  write_command : qcmd → bool;
  propagate_multi : D → Z → D;
  bump_dirty : D → D;
}.

Section multi.
  Context {D : Type} `{DataModel D}.

Record server := mkServer {
  clients : gmap clientid client;
  db_watched : gmap dbkey (list clientid);
  data : D;
}.

Definition set_clients (s : server) (cs : gmap clientid client) : server := mkServer cs (db_watched s) (data s).
Definition set_client (s : server) (id : clientid) (c : client) : server := set_clients s (<[id := c]> (clients s)).
Definition set_data (s : server) (d : D) : server := mkServer (clients s) (db_watched s) d.
Definition set_flags (c : client) (f : Z) : client := mkClient f (c_db c) (mstate c) (watched_keys c).

(** A pointer to a client that is gone is dangling. *)
Definition the_client (s : server) (id : clientid) : res client :=
  match clients s !! id with Some c => Ok c | None => Fault UseAfterFree end.

Definition has (f mask : Z) : bool := negb (Z.land f mask =? 0).

(** ** WATCH *)

Definition watchForKey (s : server) (id : clientid) (key : bytes) : res server :=
  c ← the_client s id;
  let wk := (c_db c, key) in
  if bool_decide (wk ∈ watched_keys c) then Ok s
  else
    let cl := default [] (db_watched s !! wk) in
    let c := mkClient (flags c) (c_db c) (mstate c) (watched_keys c ++ [wk]) in
    Ok (mkServer (<[id := c]> (clients s)) (<[wk := cl ++ [id]]> (db_watched s)) (data s)).

(** [listDelNode(clients, listSearchKey(clients, c))]. *)
Fixpoint del_client (l : list clientid) (id : clientid) : res (list clientid) :=
  match l with
  | [] => Fault NullDeref
  | x :: l' => if decide (x = id) then Ok l' else l'' ← del_client l' id; Ok (x :: l'')
  end.

Fixpoint unwatch_loop (s : server) (id : clientid) (wks : list dbkey) : res server :=
  match wks with
  | [] => Ok s
  | wk :: wks =>
      match db_watched s !! wk with
      | None => Fault AssertFail
      | Some cl =>
          cl ← del_client cl id;
          let w := match cl with [] => delete wk (db_watched s) | _ => <[wk := cl]> (db_watched s) end in
          c ← the_client s id;
          let c := mkClient (flags c) (c_db c) (mstate c) wks in
          unwatch_loop (mkServer (<[id := c]> (clients s)) w (data s)) id wks
      end
  end.

Definition unwatchAllKeys (s : server) (id : clientid) : res server :=
  c ← the_client s id; unwatch_loop s id (watched_keys c).

Fixpoint mark_dirty (s : server) (l : list clientid) : res server :=
  match l with
  | [] => Ok s
  | id :: l => c ← the_client s id; mark_dirty (set_client s id (set_flags c (Z.lor (flags c) CLIENT_DIRTY_CAS))) l
  end.

Definition touchWatchedKey (s : server) (wk : dbkey) : res server :=
  match db_watched s !! wk with None => Ok s | Some cl => mark_dirty s cl end.

Definition touchWatchedKeysOnFlush (s : server) (dbid : Z) : server :=
  set_clients s ((fun c => if existsb (fun wk => ((dbid =? -1) || (wk.1 =? dbid)) && key_exists (data s) wk) (watched_keys c)
                           then set_flags c (Z.lor (flags c) CLIENT_DIRTY_CAS) else c) <$> clients s).

Fixpoint watch_loop (s : server) (id : clientid) (keys : list bytes) : res server :=
  match keys with [] => Ok s | key :: keys => s ← watchForKey s id key; watch_loop s id keys end.

Definition err (t : bytes) : treply := TReply (RError t).
Definition ok : treply := TReply (RStatus (lit "OK")).

Definition watchCommand (s : server) (id : clientid) (keys : list bytes) : res (treply * server) :=
  c ← the_client s id;
  if has (flags c) CLIENT_MULTI then Ok (err (lit "WATCH inside MULTI is not allowed"), s)
  else s ← watch_loop s id keys; Ok (ok, s).

Definition unwatchCommand (s : server) (id : clientid) : res (reply * server) :=
  s ← unwatchAllKeys s id;
  c ← the_client s id;
  Ok (RStatus (lit "OK"), set_client s id (set_flags c (Z.land (flags c) (Z.lnot CLIENT_DIRTY_CAS)))).

(** ** MULTI, EXEC, DISCARD *)

Definition queueMultiCommand (s : server) (id : clientid) (q : qcmd) : res server :=
  c ← the_client s id;
  Ok (set_client s id (mkClient (flags c) (c_db c) (mstate c ++ [q]) (watched_keys c))).

Definition discardTransaction (s : server) (id : clientid) : res server :=
  c ← the_client s id;
  let f := Z.land (flags c) (Z.lnot (Z.lor (Z.lor CLIENT_MULTI CLIENT_DIRTY_CAS) CLIENT_DIRTY_EXEC)) in
  unwatchAllKeys (set_client s id (mkClient f (c_db c) [] (watched_keys c))) id.

Definition flagTransaction (s : server) (id : clientid) : res server :=
  c ← the_client s id;
  if has (flags c) CLIENT_MULTI then Ok (set_client s id (set_flags c (Z.lor (flags c) CLIENT_DIRTY_EXEC))) else Ok s.

Definition multiCommand (s : server) (id : clientid) : res (treply * server) :=
  c ← the_client s id;
  if has (flags c) CLIENT_MULTI then Ok (err (lit "MULTI calls can not be nested"), s)
  else Ok (ok, set_client s id (set_flags c (Z.lor (flags c) CLIENT_MULTI))).

Definition discardCommand (s : server) (id : clientid) : res (treply * server) :=
  c ← the_client s id;
  if negb (has (flags c) CLIENT_MULTI) then Ok (err (lit "DISCARD without MULTI"), s)
  else s ← discardTransaction s id; Ok (ok, s).

(** The parameter is an [int]. *)
Definition selectDb (s : server) (id : clientid) (n : Z) : res (bool * server) :=
  let dbid := to_int n in
  if (dbid <? 0) || (db_count <=? dbid) then Ok (false, s)
  else c ← the_client s id; Ok (true, set_client s id (mkClient (flags c) dbid (mstate c) (watched_keys c))).

(** The number is a [long], which [selectDb] narrows. *)
Definition selectCommand (s : server) (id : clientid) (arg : bytes) : res (reply * server) :=
  match string2ll arg with
  | None => Ok (RError (lit "invalid DB index"), s)
  | Some n =>
      if cluster_enabled && negb (n =? 0) then Ok (RError (lit "SELECT is not allowed in cluster mode"), s)
      else
        '(found, s) ← selectDb s id n;
        Ok (if found : bool then RStatus (lit "OK") else RError (lit "DB index is out of range"), s)
  end.

(** FLUSHDB and FLUSHALL: the watched keys are touched before the data goes. *)
Definition flush_command (s : server) (id : clientid) (all : bool) : res (reply * server) :=
  c ← the_client s id;
  let dbid := if all then -1 else c_db c in
  let s := touchWatchedKeysOnFlush s dbid in
  Ok (RStatus (lit "OK"), set_data s (flush_db (data s) dbid)).

(** [signalModifiedKey] for each key a command touches. *)
Fixpoint touch_keys (s : server) (wks : list dbkey) : res server :=
  match wks with [] => Ok s | wk :: wks => s ← touchWatchedKey s wk; touch_keys s wks end.

Definition other_command (s : server) (id : clientid) (argv : list bytes) : res (reply * server) :=
  c ← the_client s id;
  let '(r, d, touched) := run_command (data s) (c_db c) argv in
  s ← touch_keys (set_data s d) touched;
  Ok (r, s).

(** [call] of a command that can be queued. *)
Definition call (s : server) (id : clientid) (q : qcmd) : res (reply * server) :=
  match q with
  | Unwatch => unwatchCommand s id
  | Select arg => selectCommand s id arg
  | Flush all => flush_command s id all
  | Other argv => other_command s id argv
  end.

(** With whether MULTI was propagated. *)
Fixpoint exec_loop (s : server) (id : clientid) (must_propagate : bool) (qs : list qcmd) : res (list reply * bool * server) :=
  match qs with
  | [] => Ok ([], must_propagate, s)
  | q :: qs =>
      c ← the_client s id;
      let first := negb must_propagate && write_command q in
      let s := if first then set_data s (propagate_multi (data s) (c_db c)) else s in
      '(r, s) ← call s id q;
      '(rs, must_propagate, s) ← exec_loop s id (must_propagate || first) qs;
      Ok (r :: rs, must_propagate, s)
  end.

Definition execaborterr : bytes := lit "EXECABORT Transaction discarded because of previous errors.".

Definition execCommand (s : server) (id : clientid) : res (treply * server) :=
  c ← the_client s id;
  if negb (has (flags c) CLIENT_MULTI) then Ok (err (lit "EXEC without MULTI"), s)
  else if has (flags c) (Z.lor CLIENT_DIRTY_CAS CLIENT_DIRTY_EXEC) then
    let r := if has (flags c) CLIENT_DIRTY_EXEC then err execaborterr else TNil in
    s ← discardTransaction s id; Ok (r, s)
  else
    s ← unwatchAllKeys s id;
    '(rs, must_propagate, s) ← exec_loop s id false (mstate c);
    s ← discardTransaction s id;
    Ok (TExec rs, if must_propagate : bool then set_data s (bump_dirty (data s)) else s).

(** ** Clients *)

Definition queued : treply := TReply (RStatus (lit "QUEUED")).

(** The end of [processCommand]: a command is queued or called. *)
Definition processCommand (s : server) (id : clientid) (k : cmd) : res (treply * server) :=
  c ← the_client s id;
  match k with
  | Plain q =>
      if has (flags c) CLIENT_MULTI then s ← queueMultiCommand s id q; Ok (queued, s)
      else '(r, s) ← call s id q; Ok (TReply r, s)
  | Multi => multiCommand s id
  | Exec => execCommand s id
  | Discard => discardCommand s id
  | Watch keys => watchCommand s id keys
  end.

(** The early returns of [processCommand] that refuse a command, in its order.  The
    texts of a cluster redirection and of an error of the disk are given. *)
Inductive refusal :=
| UnknownCommand (name : bytes)
| WrongArity (name : bytes)
| NoAuth
| Redirect (e : bytes)
| OutOfMemory
| MisConf (e : bytes)
| NoReplicas
| ReadOnlySlave
| PubSubOnly
| MasterDown
| LoadingData
| SlowScript.

Definition refusal_reply (r : refusal) : reply :=
  match r with
  | UnknownCommand name => addReplyErrorFormat (lit "unknown command '" ++ cstr name ++ lit "'")
  | WrongArity name => addReplyErrorFormat (lit "wrong number of arguments for '" ++ cstr name ++ lit "' command")
  | NoAuth => RError (lit "NOAUTH Authentication required.")
  | Redirect e | MisConf e => RError e
  | OutOfMemory => RError (lit "OOM command not allowed when used memory > 'maxmemory'.")
  | NoReplicas => RError (lit "NOREPLICAS Not enough good slaves to write.")
  | ReadOnlySlave => RError (lit "READONLY You can't write against a read only slave.")
  | PubSubOnly => RError (lit "only (P)SUBSCRIBE / (P)UNSUBSCRIBE / PING / QUIT allowed in this context")
  | MasterDown => RError (lit "MASTERDOWN Link with MASTER is down and slave-serve-stale-data is set to 'no'.")
  | LoadingData => RError (lit "LOADING Redis is loading the dataset in memory")
  | SlowScript => RError (lit "BUSY Redis is busy running a script. You can only call SCRIPT KILL or SHUTDOWN NOSAVE.")
  end.

(** A command that is refused: most returns flag the transaction; a redirected EXEC
    discards it; a read-only slave, a subscriber and a server that is loading leave
    it as it is. *)
Definition rejectCommand (s : server) (id : clientid) (k : cmd) (r : refusal) : res (treply * server) :=
  s ← match r with
      | Redirect _ => match k with Exec => discardTransaction s id | _ => flagTransaction s id end
      | ReadOnlySlave | PubSubOnly | LoadingData => Ok s
      | _ => flagTransaction s id
      end;
  Ok (TReply (refusal_reply r), s).

Definition createClient (s : server) (id : clientid) : server := set_client s id (mkClient 0 0 [] []).

Definition freeClient (s : server) (id : clientid) : res server :=
  s ← unwatchAllKeys s id; Ok (set_clients s (delete id (clients s))).

(** What happens to the server: a client connects (with an id that is not in use), sends a
    command, sends one that is refused, or goes. *)
Inductive event :=
| Connect (id : clientid)
| Command (id : clientid) (k : cmd)
| Refused (id : clientid) (k : cmd) (r : refusal)
| Close (id : clientid).

Definition server_step (s : server) (ev : event) : res (option treply * server) :=
  match ev with
  | Connect id => Ok (None, match clients s !! id with Some _ => s | None => createClient s id end)
  | Command id k => '(r, s) ← processCommand s id k; Ok (Some r, s)
  | Refused id k r => '(r, s) ← rejectCommand s id k r; Ok (Some r, s)
  | Close id => s ← freeClient s id; Ok (None, s)
  end.

Fixpoint run_events (s : server) (evs : list event) : res (list (option treply) * server) :=
  match evs with
  | [] => Ok ([], s)
  | ev :: evs => '(r, s) ← server_step s ev; '(rs, s) ← run_events s evs; Ok (r :: rs, s)
  end.
End multi.
Arguments server D : clear implicits.
