(* ===== verification/MultiSpec.v ===== *)
(** Transactions against a specification in which a client is told of every touched key
    that it watches: no flag words, no lists of watchers. *)
From S2P Require Import Prelude CString Util Write Commands Multi.
Local Open Scope Z_scope.

(** * The specification *)

Record tclient := mkT {
  t_multi : bool;
  t_error : bool;
  t_touched : bool;
  t_db : Z;
  t_queue : list qcmd;
  t_watch : gset dbkey;
}.

Section spec.
  Context {D : Type} `{DataModel D}.

Record tserver := mkTS { ts_clients : gmap clientid tclient; ts_data : D }.

Definition with_client (T : tserver) (id : clientid) (f : tclient → tclient) : tserver :=
  mkTS (alter f id (ts_clients T)) (ts_data T).

Definition t_touch (P : dbkey → bool) (c : tclient) : tclient :=
  if existsb P (elements (t_watch c)) then mkT (t_multi c) (t_error c) true (t_db c) (t_queue c) (t_watch c) else c.

(** No transaction, nothing watched. *)
Definition t_idle (c : tclient) : tclient := mkT false false false (t_db c) [] ∅.

Definition spec_call (T : tserver) (id : clientid) (c : tclient) (q : qcmd) : reply * tserver :=
  match q with
  | Unwatch => (RStatus (lit "OK"), with_client T id (fun c => mkT (t_multi c) (t_error c) false (t_db c) (t_queue c) ∅))
  | Select arg =>
      match string2ll arg with
      | None => (RError (lit "invalid DB index"), T)
      | Some n =>
          if cluster_enabled && negb (n =? 0) then (RError (lit "SELECT is not allowed in cluster mode"), T)
          else if bool_decide (0 ≤ to_int n < db_count)
          then (RStatus (lit "OK"), with_client T id (fun c => mkT (t_multi c) (t_error c) (t_touched c) (to_int n) (t_queue c) (t_watch c)))
          else (RError (lit "DB index is out of range"), T)
      end
  | Flush all =>
      let dbid := if all then -1 else t_db c in
      (RStatus (lit "OK"),
       mkTS (t_touch (fun wk => ((dbid =? -1) || (wk.1 =? dbid)) && key_exists (ts_data T) wk) <$> ts_clients T)
            (flush_db (ts_data T) dbid))
  | Other argv =>
      let '(r, d, touched) := run_command (ts_data T) (t_db c) argv in
      (r, mkTS (t_touch (fun wk => bool_decide (wk ∈ touched)) <$> ts_clients T) d)
  end.

Definition ts_set_data (T : tserver) (d : D) : tserver := mkTS (ts_clients T) d.

Fixpoint spec_exec (T : tserver) (id : clientid) (prop : bool) (qs : list qcmd) : list reply * bool * tserver :=
  match qs with
  | [] => ([], prop, T)
  | q :: qs =>
      match ts_clients T !! id with
      | None => ([], prop, T)
      | Some c =>
          let first := negb prop && write_command q in
          let T := if first then ts_set_data T (propagate_multi (ts_data T) (t_db c)) else T in
          let '(r, T) := spec_call T id c q in
          let '(rs, prop, T) := spec_exec T id (prop || first) qs in (r :: rs, prop, T)
      end
  end.

(** EXEC runs the queue if nothing was refused in a way that counts and no watched key
    was touched. *)
Definition spec_command (T : tserver) (id : clientid) (c : tclient) (k : cmd) : treply * tserver :=
  match k with
  | Plain q =>
      if t_multi c
      then (queued, with_client T id (fun c => mkT true (t_error c) (t_touched c) (t_db c) (t_queue c ++ [q]) (t_watch c)))
      else let '(r, T) := spec_call T id c q in (TReply r, T)
  | Multi =>
      if t_multi c then (err (lit "MULTI calls can not be nested"), T)
      else (ok, with_client T id (fun c => mkT true (t_error c) (t_touched c) (t_db c) (t_queue c) (t_watch c)))
  | Discard => if t_multi c then (ok, with_client T id t_idle) else (err (lit "DISCARD without MULTI"), T)
  | Watch keys =>
      if t_multi c then (err (lit "WATCH inside MULTI is not allowed"), T)
      else (ok, with_client T id (fun c => mkT (t_multi c) (t_error c) (t_touched c) (t_db c) (t_queue c)
                                             (t_watch c ∪ list_to_set (map (pair (t_db c)) keys))))
  | Exec =>
      if negb (t_multi c) then (err (lit "EXEC without MULTI"), T)
      else if t_error c then (err execaborterr, with_client T id t_idle)
      else if t_touched c then (TNil, with_client T id t_idle)
      else
        let T := with_client T id (fun c => mkT (t_multi c) (t_error c) (t_touched c) (t_db c) (t_queue c) ∅) in
        let '(rs, prop, T) := spec_exec T id false (t_queue c) in
        let T := with_client T id t_idle in
        (TExec rs, if prop : bool then ts_set_data T (bump_dirty (ts_data T)) else T)
  end.

(** The refusals that make the next EXEC fail. *)
Definition counts (r : refusal) : bool :=
  match r with ReadOnlySlave | PubSubOnly | LoadingData => false | _ => true end.

(** A refusal that counts is remembered inside a transaction; a redirected EXEC ends
    it. *)
Definition spec_refused (k : cmd) (r : refusal) (c : tclient) : tclient :=
  match k, r with
  | Exec, Redirect _ => t_idle c
  | _, _ => mkT (t_multi c) (t_error c || (t_multi c && counts r)) (t_touched c) (t_db c) (t_queue c) (t_watch c)
  end.

Definition spec_event (T : tserver) (ev : event) : option treply * tserver :=
  match ev with
  | Connect id => (None, match ts_clients T !! id with
                         | Some _ => T
                         | None => mkTS (<[id := mkT false false false 0 [] ∅]> (ts_clients T)) (ts_data T)
                         end)
  | Command id k =>
      match ts_clients T !! id with
      | None => (None, T)
      | Some c => let '(r, T) := spec_command T id c k in (Some r, T)
      end
  | Refused id k r => (Some (TReply (refusal_reply r)), with_client T id (spec_refused k r))
  | Close id => (None, mkTS (delete id (ts_clients T)) (ts_data T))
  end.

Fixpoint spec_events (T : tserver) (evs : list event) : list (option treply) * tserver :=
  match evs with
  | [] => ([], T)
  | ev :: evs => let '(r, T) := spec_event T ev in let '(rs, T) := spec_events T evs in (r :: rs, T)
  end.

(** The connected clients, and events of connected clients only. *)
Definition ids_after (ids : gset clientid) (ev : event) : gset clientid :=
  match ev with Connect id => {[id]} ∪ ids | Close id => ids ∖ {[id]} | _ => ids end.

Fixpoint events_ok (ids : gset clientid) (evs : list event) : Prop :=
  match evs with
  | [] => True
  | ev :: evs =>
      match ev with Connect _ => True | Command id _ | Refused id _ _ | Close id => id ∈ ids end ∧
      events_ok (ids_after ids ev) evs
  end.

(** * Flags *)

Lemma has_lor_same f m : m ≠ 0 → has (Z.lor f m) m = true.
Proof.
  intros Hm. unfold has. rewrite Z.land_lor_distr_l, Z.land_diag. apply negb_true_iff, Z.eqb_neq.
  intros [_ ?]%Z.lor_eq_0_iff. done.
Qed.
Lemma has_lor_other f m m' : Z.land m m' = 0 → has (Z.lor f m) m' = has f m'.
Proof. intros E. unfold has. by rewrite Z.land_lor_distr_l, E, Z.lor_0_r. Qed.
Lemma has_clear f m m' : Z.land (Z.lnot m) m' = 0 → has (Z.land f (Z.lnot m)) m' = false.
Proof. intros E. unfold has. by rewrite <- Z.land_assoc, E, Z.land_0_r. Qed.
Lemma has_keep f m m' : Z.land (Z.lnot m) m' = m' → has (Z.land f (Z.lnot m)) m' = has f m'.
Proof. intros E. unfold has. by rewrite <- Z.land_assoc, E. Qed.
Lemma has_either f m m' : has f (Z.lor m m') = has f m || has f m'.
Proof.
  unfold has. rewrite Z.land_lor_distr_r. destruct (Z.eqb_spec (Z.lor (Z.land f m) (Z.land f m')) 0) as [E|E].
  - apply Z.lor_eq_0_iff in E as [-> ->]. done.
  - destruct (Z.eqb_spec (Z.land f m) 0) as [E1|]; [|done]. destruct (Z.eqb_spec (Z.land f m') 0) as [E2|]; [|done].
    by rewrite E1, E2 in E.
Qed.

(** * The state, abstractly *)

Definition abs_client (c : client) : tclient :=
  mkT (has (flags c) CLIENT_MULTI) (has (flags c) CLIENT_DIRTY_EXEC) (has (flags c) CLIENT_DIRTY_CAS)
      (c_db c) (mstate c) (list_to_set (watched_keys c)).
Definition abs_server (s : server D) : tserver := mkTS (abs_client <$> clients s) (data s).

(** The keys of the clients and the watchers of the keys agree. *)
Record watch_inv (s : server D) : Prop := {
  wi_keys : ∀ id c, clients s !! id = Some c →
    NoDup (watched_keys c) ∧ ∀ wk, wk ∈ watched_keys c → ∃ cl, db_watched s !! wk = Some cl ∧ id ∈ cl;
  wi_lists : ∀ wk cl, db_watched s !! wk = Some cl →
    NoDup cl ∧ ∀ id, id ∈ cl → ∃ c, clients s !! id = Some c ∧ wk ∈ watched_keys c;
}.

(** Changes that leave the watched keys of the clients alone. *)
Lemma watch_inv_clients (s s' : server D) :
  db_watched s' = db_watched s →
  (∀ id, watched_keys <$> clients s' !! id = watched_keys <$> clients s !! id) → watch_inv s → watch_inv s'.
Proof.
  intros Hw Hc [Hk Hl]. split.
  - intros id c E. specialize (Hc id). rewrite E in Hc. destruct (clients s !! id) as [c0|] eqn:E0; [|done].
    injection Hc as Hc. rewrite Hc, Hw. by apply (Hk id c0).
  - rewrite Hw. intros wk cl E. destruct (Hl wk cl E) as [Hn Hin]. split; [done|]. intros id Hid.
    destruct (Hin id Hid) as (c0 & E0 & Hwk). specialize (Hc id). rewrite E0 in Hc.
    destruct (clients s' !! id) as [c|]; [|done]. injection Hc as Hc. exists c. by rewrite Hc.
Qed.

Lemma abs_client_lookup (s : server D) id : ts_clients (abs_server s) !! id = abs_client <$> clients s !! id.
Proof. apply lookup_fmap. Qed.

Lemma with_client_insert (s : server D) id c c' w (f : tclient → tclient) :
  clients s !! id = Some c → abs_client c' = f (abs_client c) →
  abs_server (mkServer (<[id := c']> (clients s)) w (data s)) = with_client (abs_server s) id f.
Proof.
  intros Hc Hf. unfold abs_server, with_client. cbn. f_equal. apply map_eq. intros i. rewrite lookup_fmap.
  destruct (decide (i = id)) as [->|Hne].
  - rewrite lookup_insert_eq, lookup_alter_eq, lookup_fmap, Hc. cbn. by rewrite Hf.
  - rewrite lookup_insert_ne, lookup_alter_ne, lookup_fmap by done. done.
Qed.

(** A change of the flags, the database or the queue of one client. *)
Lemma set_client_sim (s : server D) id c c' (f : tclient → tclient) :
  watch_inv s → clients s !! id = Some c → watched_keys c' = watched_keys c → abs_client c' = f (abs_client c) →
  watch_inv (set_client s id c') ∧ abs_server (set_client s id c') = with_client (abs_server s) id f.
Proof.
  intros Hi Hc Hk Hf. split; [|by eapply with_client_insert]. apply (watch_inv_clients s); [done| |done].
  intros i. cbn. destruct (decide (i = id)) as [->|]; [rewrite lookup_insert_eq, Hc; cbn; by f_equal|by rewrite lookup_insert_ne].
Qed.

(** ** Touching keys *)

Definition touched_client (c : client) : client := set_flags c (Z.lor (flags c) CLIENT_DIRTY_CAS).

Lemma abs_touched c : abs_client (touched_client c) =
  mkT (t_multi (abs_client c)) (t_error (abs_client c)) true (c_db c) (mstate c) (t_watch (abs_client c)).
Proof.
  unfold abs_client, touched_client. cbn.
  by rewrite (has_lor_same _ CLIENT_DIRTY_CAS), (has_lor_other _ CLIENT_DIRTY_CAS CLIENT_MULTI), (has_lor_other _ CLIENT_DIRTY_CAS CLIENT_DIRTY_EXEC) by done.
Qed.

Lemma existsb_iff (P : dbkey → bool) l : existsb P l = true ↔ ∃ k, k ∈ l ∧ P k = true.
Proof. rewrite existsb_exists. by setoid_rewrite list_elem_of_In. Qed.

Lemma existsb_none (P : dbkey → bool) l : (∀ k, k ∈ l → P k = false) → existsb P l = false.
Proof. intros HP. apply not_true_iff_false. rewrite existsb_iff. intros (k & Hk & E). by rewrite HP in E. Qed.

Lemma t_touch_abs P c :
  t_touch P (abs_client c) = abs_client (if existsb P (watched_keys c) then touched_client c else c).
Proof.
  unfold t_touch. assert (E : existsb P (elements (t_watch (abs_client c))) = existsb P (watched_keys c)).
  { apply eq_true_iff_eq. rewrite !existsb_iff. cbn. set_solver. }
  rewrite E. destruct (existsb P (watched_keys c)); [by rewrite abs_touched|done].
Qed.

Lemma mark_dirty_ok cl : ∀ s : server D, (∀ id, id ∈ cl → is_Some (clients s !! id)) →
  ∃ s', mark_dirty s cl = Ok s' ∧ db_watched s' = db_watched s ∧ data s' = data s ∧
    ∀ id, clients s' !! id = (fun c => if bool_decide (id ∈ cl) then touched_client c else c) <$> clients s !! id.
Proof.
  induction cl as [|x cl IH]; intros s Hcl; cbn [mark_dirty].
  { exists s. split_and!; try done. intros id. rewrite bool_decide_false by apply not_elem_of_nil. by destruct (clients s !! id). }
  destruct (Hcl x) as [c Hc]; [by left|]. unfold the_client. rewrite Hc. res_step. fold (touched_client c).
  destruct (IH (set_client s x (touched_client c))) as (s' & -> & Hw & Hd & Hs').
  { intros id Hid. cbn. destruct (decide (id = x)) as [->|]; [by rewrite lookup_insert_eq|].
    rewrite lookup_insert_ne by done. apply Hcl. by right. }
  exists s'. split_and!; [done|done|done|]. intros id. rewrite Hs'. cbn. destruct (decide (id = x)) as [->|Hne].
  - rewrite lookup_insert_eq, Hc. cbn. rewrite (bool_decide_true (x ∈ x :: cl)) by by left. f_equal.
    case_bool_decide; [|done]. unfold touched_client, set_flags. cbn. f_equal. by rewrite <- Z.lor_assoc, Z.lor_diag.
  - rewrite lookup_insert_ne by done. destruct (clients s !! id) as [c'|]; [|done]. cbn. f_equal.
    by rewrite (bool_decide_ext (id ∈ x :: cl) (id ∈ cl)) by set_solver.
Qed.

(** A server whose clients were touched where [P] holds of a key they watch. *)
Definition touched_sim (s s' : server D) (P : dbkey → bool) : Prop :=
  watch_inv s' ∧ data s' = data s ∧ db_watched s' = db_watched s ∧
  clients s' = (fun c => if existsb P (watched_keys c) then touched_client c else c) <$> clients s.

Lemma touched_inv (s s' : server D) P :
  watch_inv s → data s' = data s → db_watched s' = db_watched s →
  clients s' = (fun c => if existsb P (watched_keys c) then touched_client c else c) <$> clients s → touched_sim s s' P.
Proof.
  intros Hi Hd Hw Hc. split; [|done]. apply (watch_inv_clients s); [done| |done].
  intros id. rewrite Hc, lookup_fmap. destruct (clients s !! id) as [c|]; [|done]. cbn. by destruct (existsb _ _).
Qed.

Lemma touched_abs (s s' : server D) P :
  touched_sim s s' P → ts_clients (abs_server s') = t_touch P <$> ts_clients (abs_server s).
Proof.
  intros (_ & _ & _ & E). cbn. rewrite E, <- !map_fmap_compose. apply map_fmap_ext. intros id c _. cbn. by rewrite t_touch_abs.
Qed.

Lemma touchWatchedKey_ok (s : server D) wk :
  watch_inv s → ∃ s', touchWatchedKey s wk = Ok s' ∧ touched_sim s s' (fun k => bool_decide (k = wk)).
Proof.
  intros Hi. unfold touchWatchedKey. assert (Hex : ∀ c, existsb (fun k => bool_decide (k = wk)) (watched_keys c) = bool_decide (wk ∈ watched_keys c)).
  { intros c. apply eq_true_iff_eq. rewrite existsb_iff, bool_decide_eq_true. setoid_rewrite bool_decide_eq_true. set_solver. }
  destruct (db_watched s !! wk) as [cl|] eqn:E.
  - destruct (wi_lists _ Hi wk cl E) as [_ Hcl]. destruct (mark_dirty_ok cl s) as (s' & -> & Hw & Hd & Hs').
    { intros id Hid. destruct (Hcl id Hid) as (c & -> & _). done. }
    exists s'. split; [done|]. apply touched_inv; try done. apply map_eq. intros id. rewrite Hs', lookup_fmap.
    destruct (clients s !! id) as [c|] eqn:Ec; [|done]. cbn. rewrite Hex. f_equal.
    rewrite (bool_decide_ext (id ∈ cl) (wk ∈ watched_keys c)); [done|]. split.
    + intros Hid. destruct (Hcl id Hid) as (c' & Ec' & ?). congruence.
    + intros Hk. destruct (wi_keys _ Hi id c Ec) as [_ Hk']. destruct (Hk' wk Hk) as (cl' & E' & ?). congruence.
  - exists s. split; [done|]. apply touched_inv; try done. symmetry. rewrite <- (map_fmap_id (clients s)) at 2.
    apply map_fmap_ext. intros id c Ec. rewrite Hex, bool_decide_false; [done|]. intros Hk.
    destruct (wi_keys _ Hi id c Ec) as [_ Hk']. destruct (Hk' wk Hk) as (cl' & E' & _). congruence.
Qed.

Lemma touch_keys_ok wks : ∀ s : server D,
  watch_inv s → ∃ s', touch_keys s wks = Ok s' ∧ touched_sim s s' (fun k => bool_decide (k ∈ wks)).
Proof.
  induction wks as [|wk wks IH]; intros s Hi; cbn [touch_keys].
  { exists s. split; [done|]. apply touched_inv; try done. symmetry. rewrite <- (map_fmap_id (clients s)) at 2.
    apply map_fmap_ext. intros id c _. rewrite existsb_none; [done|].
    intros k _. apply bool_decide_false, not_elem_of_nil. }
  destruct (touchWatchedKey_ok s wk Hi) as (s1 & -> & H1). res_step. pose proof H1 as (Hi1 & Hd1 & Hw1 & Hc1).
  destruct (IH s1 Hi1) as (s2 & -> & (Hi2 & Hd2 & Hw2 & Hc2)). exists s2. split; [done|].
  apply touched_inv; [done|congruence|congruence|]. rewrite Hc2, Hc1, <- map_fmap_compose. apply map_fmap_ext. intros id c _. cbn.
  set (P1 := fun k => bool_decide (k = wk)). set (P2 := fun k => bool_decide (k ∈ wks)).
  assert (E : existsb (fun k => bool_decide (k ∈ wk :: wks)) (watched_keys c) = existsb P1 (watched_keys c) || existsb P2 (watched_keys c)).
  { apply eq_true_iff_eq. rewrite orb_true_iff, !existsb_iff. unfold P1, P2.
    setoid_rewrite bool_decide_eq_true. set_solver. }
  rewrite E. destruct (existsb P1 (watched_keys c)); [|done]. cbn [orb]. destruct (existsb P2 _); [|done].
  unfold touched_client, set_flags. cbn. f_equal. by rewrite <- Z.lor_assoc, Z.lor_diag.
Qed.

(** ** Watching and unwatching *)

Definition set_watched (c : client) (wks : list dbkey) : client := mkClient (flags c) (c_db c) (mstate c) wks.

Lemma del_client_ok cl id : NoDup cl → id ∈ cl →
  ∃ cl', del_client cl id = Ok cl' ∧ NoDup cl' ∧ ∀ x, x ∈ cl' ↔ x ∈ cl ∧ x ≠ id.
Proof.
  induction cl as [|y cl IH]; intros Hn Hid; [by apply not_elem_of_nil in Hid|]. apply NoDup_cons in Hn as [Hy Hn].
  cbn [del_client]. destruct (decide (y = id)) as [->|Hne].
  - exists cl. split_and!; [done|done|]. set_solver.
  - destruct IH as (cl' & -> & Hn' & Hx); [done|set_solver|]. res_step. exists (y :: cl'). split; [done|].
    split; [apply NoDup_cons; split; [|done]; set_solver|]. set_solver.
Qed.

(** One key less. *)
Lemma unwatch_one (s : server D) id c wk wks cl cl' :
  watch_inv s → clients s !! id = Some c → watched_keys c = wk :: wks → db_watched s !! wk = Some cl →
  NoDup cl' → (∀ x, x ∈ cl' ↔ x ∈ cl ∧ x ≠ id) →
  watch_inv (mkServer (<[id := set_watched c wks]> (clients s))
    (match cl' with [] => delete wk (db_watched s) | _ => <[wk := cl']> (db_watched s) end) (data s)).
Proof.
  intros [Hk Hl] Hc Hwks Hcl Hn' Hx. destruct (Hk id c Hc) as [Hnd Hks]. rewrite Hwks in Hnd, Hks. apply NoDup_cons in Hnd as [Hwk Hnd].
  assert (Hold : ∀ k l, (match cl' with [] => delete wk (db_watched s) | _ => <[wk := cl']> (db_watched s) end) !! k = Some l ↔
    (k = wk ∧ l = cl' ∧ cl' ≠ []) ∨ (k ≠ wk ∧ db_watched s !! k = Some l)).
  { intros k l. destruct cl' as [|y cl'].
    - rewrite lookup_delete_Some. naive_solver.
    - rewrite lookup_insert_Some. naive_solver. }
  split; cbn.
  - intros i ci Hi. destruct (decide (i = id)) as [->|Hne].
    + rewrite lookup_insert_eq in Hi. injection Hi as <-. cbn. split; [done|]. intros k Hkin.
      destruct (Hks k) as (l & Hkl & Hid); [by right|]. exists l. split; [|done]. apply Hold. right. split; [by intros ->|done].
    + rewrite lookup_insert_ne in Hi by done. destruct (Hk i ci Hi) as [Hn Hks']. split; [done|]. intros k Hkin.
      destruct (Hks' k Hkin) as (l & Hkl & Hid). destruct (decide (k = wk)) as [->|Hkne].
      * exists cl'. assert (i ∈ cl') by (apply Hx; split; [congruence|done]). split; [|done]. apply Hold. left. split_and!; [done|done|]. by intros ->; apply not_elem_of_nil in H0.
      * exists l. split; [|done]. apply Hold. by right.
  - intros k l [(-> & -> & _)|[Hkne Hkl]]%Hold.
    + split; [done|]. intros i [Hi Hne]%Hx. destruct (Hl wk cl Hcl) as [_ Hl']. destruct (Hl' i Hi) as (ci & Hci & ?).
      exists ci. by rewrite lookup_insert_ne.
    + destruct (Hl k l Hkl) as [Hn Hl']. split; [done|]. intros i Hi. destruct (Hl' i Hi) as (ci & Hci & Hkin).
      destruct (decide (i = id)) as [->|Hne]; [|exists ci; by rewrite lookup_insert_ne].
      rewrite lookup_insert_eq. eexists. split; [done|]. cbn. assert (ci = c) as -> by congruence. rewrite Hwks in Hkin. set_solver.
Qed.

Lemma unwatch_loop_ok wks id : ∀ (s : server D) c,
  watch_inv s → clients s !! id = Some c → watched_keys c = wks →
  ∃ s', unwatch_loop s id wks = Ok s' ∧ watch_inv s' ∧ data s' = data s ∧
    clients s' = <[id := set_watched c []]> (clients s).
Proof.
  induction wks as [|wk wks IH]; intros s c Hi Hc Hk; cbn [unwatch_loop].
  { exists s. split_and!; [done|done|done|]. symmetry. apply insert_id. rewrite Hc. f_equal. destruct c. cbn in Hk. by subst. }
  destruct (wi_keys _ Hi id c Hc) as [_ Hks]. rewrite Hk in Hks. destruct (Hks wk) as (cl & Hcl & Hid); [by left|]. rewrite Hcl.
  destruct (wi_lists _ Hi wk cl Hcl) as [Hn _]. destruct (del_client_ok cl id Hn Hid) as (cl' & -> & Hn' & Hx). res_step.
  unfold the_client. rewrite Hc. res_step. fold (set_watched c wks).
  pose proof (unwatch_one s id c wk wks cl cl' Hi Hc Hk Hcl Hn' Hx) as Hi1.
  destruct (IH _ (set_watched c wks) Hi1) as (s' & -> & Hi' & Hd' & Hc'); [apply lookup_insert_eq|done|].
  exists s'. split_and!; [done|done|done|]. rewrite Hc'. cbn. by rewrite insert_insert_eq.
Qed.

Lemma unwatchAllKeys_ok (s : server D) id c :
  watch_inv s → clients s !! id = Some c →
  ∃ s', unwatchAllKeys s id = Ok s' ∧ watch_inv s' ∧ data s' = data s ∧ clients s' = <[id := set_watched c []]> (clients s).
Proof. intros Hi Hc. unfold unwatchAllKeys, the_client. rewrite Hc. res_step. by apply unwatch_loop_ok. Qed.

Lemma watchForKey_ok (s : server D) id c key :
  watch_inv s → clients s !! id = Some c →
  ∃ s' wks, watchForKey s id key = Ok s' ∧ watch_inv s' ∧ data s' = data s ∧
    clients s' = <[id := set_watched c wks]> (clients s) ∧
    (list_to_set wks : gset dbkey) = list_to_set (watched_keys c) ∪ {[(c_db c, key)]}.
Proof.
  intros Hi Hc. unfold watchForKey, the_client. rewrite Hc. res_step. set (wk := (c_db c, key)). case_bool_decide as Hin.
  { exists s, (watched_keys c). split_and!; [done|done|done| |set_solver]. symmetry. apply insert_id. rewrite Hc. by destruct c. }
  fold (set_watched c (watched_keys c ++ [wk])). eexists _, _. split; [done|]. split; [|split_and!; [done|done|set_solver]].
  destruct (wi_keys _ Hi id c Hc) as [Hnd Hks].
  assert (Hcl : NoDup (default [] (db_watched s !! wk)) ∧ ∀ i, i ∈ default [] (db_watched s !! wk) → i ≠ id ∧ ∃ ci, clients s !! i = Some ci ∧ wk ∈ watched_keys ci).
  { destruct (db_watched s !! wk) as [cl|] eqn:E; cbn; [|split; [constructor|by intros i ?%not_elem_of_nil]].
    destruct (wi_lists _ Hi wk cl E) as [Hn Hl]. split; [done|]. intros i Hi'. destruct (Hl i Hi') as (ci & Hci & ?).
    split; [|by exists ci]. intros ->. congruence. }
  destruct Hcl as [Hn Hcl]. split; cbn.
  - intros i ci Hci. destruct (decide (i = id)) as [->|Hne].
    + rewrite lookup_insert_eq in Hci. injection Hci as <-. cbn. split; [apply NoDup_app; split_and!; [done|set_solver|apply NoDup_singleton]|].
      intros k Hk. destruct (decide (k = wk)) as [->|Hkne]; [rewrite lookup_insert_eq; eexists; split; [done|set_solver]|].
      rewrite lookup_insert_ne by done. apply Hks. set_solver.
    + rewrite lookup_insert_ne in Hci by done. destruct (wi_keys _ Hi i ci Hci) as [Hn' Hks']. split; [done|]. intros k Hk.
      destruct (Hks' k Hk) as (l & Hl & Hil). destruct (decide (k = wk)) as [->|Hkne]; [|rewrite lookup_insert_ne by done; by exists l].
      rewrite lookup_insert_eq. eexists. split; [done|]. rewrite Hl. set_solver.
  - intros k l. rewrite lookup_insert_Some. intros [[<- <-]|[Hkne Hl]].
    + split; [apply NoDup_app; split_and!; [done| |apply NoDup_singleton]; intros i Hi' ->%list_elem_of_singleton; by apply Hcl in Hi' as []|].
      intros i [Hi'| ->%list_elem_of_singleton]%elem_of_app.
      * destruct (Hcl i Hi') as [Hne (ci & Hci & ?)]. exists ci. by rewrite lookup_insert_ne.
      * rewrite lookup_insert_eq. eexists. split; [done|]. cbn. set_solver.
    + destruct (wi_lists _ Hi k l Hl) as [Hn' Hl']. split; [done|]. intros i Hi'. destruct (Hl' i Hi') as (ci & Hci & Hk).
      destruct (decide (i = id)) as [->|Hne]; [|exists ci; by rewrite lookup_insert_ne].
      rewrite lookup_insert_eq. eexists. split; [done|]. cbn. assert (ci = c) as -> by congruence. set_solver.
Qed.

(** ** Commands *)

(** [s'] is [s] with client [id] changed from [c] to what [f] says. *)
Definition client_sim (s s' : server D) (id : clientid) (f : tclient → tclient) : Prop :=
  watch_inv s' ∧ abs_server s' = with_client (abs_server s) id f ∧ dom (clients s') = dom (clients s).

Lemma client_sim_insert (s s' : server D) id c c' f :
  clients s !! id = Some c → watch_inv s' → clients s' = <[id := c']> (clients s) → data s' = data s →
  abs_client c' = f (abs_client c) → client_sim s s' id f.
Proof.
  intros Hc Hi Hc' Hd Hf. split; [done|]. split.
  - rewrite <- (with_client_insert s id c c' (db_watched s') f Hc Hf), <- Hc', <- Hd. by destruct s'.
  - rewrite Hc'. apply dom_insert_lookup_L. by rewrite Hc.
Qed.

Lemma client_sim_set (s : server D) id c c' f :
  watch_inv s → clients s !! id = Some c → watched_keys c' = watched_keys c → abs_client c' = f (abs_client c) →
  client_sim s (set_client s id c') id f.
Proof.
  intros Hi Hc Hk Hf. destruct (set_client_sim s id c c' f Hi Hc Hk Hf) as [Hi' _]. by eapply client_sim_insert.
Qed.

Definition t_unwatch (c : tclient) : tclient := mkT (t_multi c) (t_error c) (t_touched c) (t_db c) (t_queue c) ∅.

Lemma unwatch_sim (s : server D) id c :
  watch_inv s → clients s !! id = Some c →
  ∃ s', unwatchAllKeys s id = Ok s' ∧ client_sim s s' id t_unwatch ∧ clients s' !! id = Some (set_watched c []).
Proof.
  intros Hi Hc. destruct (unwatchAllKeys_ok s id c Hi Hc) as (s' & -> & Hi' & Hd & Hc'). exists s'. split; [done|].
  split; [by eapply client_sim_insert|]. rewrite Hc'. apply lookup_insert_eq.
Qed.

Lemma with_client_twice (T : tserver) id f g : with_client (with_client T id f) id g = with_client T id (g ∘ f).
Proof.
  unfold with_client. cbn. f_equal. apply map_eq. intros i.
  destruct (decide (i = id)) as [->|]; [rewrite !lookup_alter_eq; by destruct (_ !! id)|by rewrite !lookup_alter_ne].
Qed.

Lemma with_client_ext (s : server D) id c f g :
  clients s !! id = Some c → f (abs_client c) = g (abs_client c) → with_client (abs_server s) id f = with_client (abs_server s) id g.
Proof.
  intros Hc E. unfold with_client. f_equal. apply alter_ext. intros x. rewrite abs_client_lookup, Hc. cbn. by intros [= <-].
Qed.

Lemma discard_sim (s : server D) id c :
  watch_inv s → clients s !! id = Some c → ∃ s', discardTransaction s id = Ok s' ∧ client_sim s s' id t_idle.
Proof.
  intros Hi Hc. unfold discardTransaction, the_client. rewrite Hc. res_step.
  set (c1 := mkClient (Z.land (flags c) _) (c_db c) [] (watched_keys c)).
  destruct (client_sim_set s id c c1 (fun c => mkT false false false (t_db c) [] (t_watch c)) Hi Hc eq_refl) as (Hi1 & Ha1 & Hd1).
  { unfold abs_client, c1. cbn [flags c_db mstate watched_keys t_db t_watch]. by rewrite !has_clear by done. }
  destruct (unwatch_sim (set_client s id c1) id c1 Hi1) as (s' & -> & (Hi2 & Ha2 & Hd2) & _); [apply lookup_insert_eq|].
  exists s'. split; [done|]. split; [done|]. split; [|congruence]. rewrite Ha2, Ha1, with_client_twice. done.
Qed.

Lemma call_sim (s : server D) id c q :
  watch_inv s → clients s !! id = Some c →
  ∃ r s', call s id q = Ok (r, s') ∧ spec_call (abs_server s) id (abs_client c) q = (r, abs_server s') ∧
    watch_inv s' ∧ dom (clients s') = dom (clients s).
Proof.
  intros Hi Hc. destruct q as [|arg|all|argv]; cbn [call spec_call].
  - unfold unwatchCommand. destruct (unwatch_sim s id c Hi Hc) as (s1 & -> & (Hi1 & Ha1 & Hd1) & Hc1). res_step.
    unfold the_client. rewrite Hc1. res_step.
    destruct (client_sim_set s1 id _ (set_flags (set_watched c []) (Z.land (flags c) (Z.lnot CLIENT_DIRTY_CAS)))
      (fun c => mkT (t_multi c) (t_error c) false (t_db c) (t_queue c) ∅) Hi1 Hc1 eq_refl) as (Hi2 & Ha2 & Hd2).
    { unfold abs_client. cbn [set_flags set_watched flags c_db mstate watched_keys t_multi t_error t_db t_queue].
      by rewrite (has_clear _ CLIENT_DIRTY_CAS CLIENT_DIRTY_CAS), !has_keep by done. }
    eexists _, _. split; [done|]. split_and!; [|done|exact (eq_trans Hd2 Hd1)].
    f_equal. symmetry. etrans; [exact Ha2|]. by rewrite Ha1, with_client_twice.
  - unfold selectCommand, selectDb. destruct (string2ll arg) as [n|]; [|by eexists _, _].
    destruct (cluster_enabled && negb (n =? 0)); [by eexists _, _|]. cbv zeta. set (dbid := to_int n). case_bool_decide as Hb.
    + destruct (Z.ltb_spec dbid 0); [lia|]. destruct (Z.leb_spec db_count dbid); [lia|]. cbn [orb].
      unfold the_client. rewrite Hc. do 2 res_step.
      destruct (client_sim_set s id c (mkClient (flags c) dbid (mstate c) (watched_keys c))
        (fun c => mkT (t_multi c) (t_error c) (t_touched c) dbid (t_queue c) (t_watch c)) Hi Hc eq_refl eq_refl) as (Hi2 & Ha2 & Hd2).
      eexists _, _. split; [done|]. split_and!; [by rewrite Ha2|done|done].
    + destruct ((dbid <? 0) || (db_count <=? dbid)) eqn:E; [res_step; by eexists _, _|].
      exfalso. revert E. blia.
  - unfold flush_command, the_client. rewrite Hc. res_step. set (dbid := if all then -1 else c_db c).
    assert (Ht : touched_sim s (touchWatchedKeysOnFlush s dbid) (fun wk => ((dbid =? -1) || (wk.1 =? dbid)) && key_exists (data s) wk)).
    { by apply touched_inv. }
    pose proof (touched_abs _ _ _ Ht) as Ha. destruct Ht as (Hi' & _ & _ & Hc').
    eexists _, _. split; [done|]. split_and!; [| |cbn; apply dom_fmap_L].
    + f_equal. apply (f_equal (fun cs => mkTS cs (flush_db (data s) dbid))). exact (eq_sym Ha).
    + by apply (watch_inv_clients (touchWatchedKeysOnFlush s dbid)).
  - unfold other_command, the_client. rewrite Hc. res_step. cbn [abs_server ts_data abs_client t_db].
    destruct (run_command (data s) (c_db c) argv) as [[r d] touched].
    destruct (touch_keys_ok touched (set_data s d)) as (s' & -> & Ht); [by apply (watch_inv_clients s)|].
    res_step. pose proof (touched_abs _ _ _ Ht) as Ha. destruct Ht as (Hi' & Hd' & _ & Hc').
    exists r, s'. split; [done|]. split_and!; [|done|rewrite Hc'; apply dom_fmap_L].
    f_equal. cbn in Hd'. rewrite <- Hd'. apply (f_equal (fun cs => mkTS cs (data s'))). exact (eq_sym Ha).
Qed.

Lemma dom_lookup (s s' : server D) id c :
  dom (clients s') = dom (clients s) → clients s !! id = Some c → ∃ c', clients s' !! id = Some c'.
Proof. intros Hd Hc. apply elem_of_dom. rewrite Hd. by apply elem_of_dom. Qed.

Lemma set_data_inv (s : server D) d : watch_inv s → watch_inv (set_data s d).
Proof. by apply watch_inv_clients. Qed.

Lemma exec_loop_sim qs id : ∀ (s : server D) prop,
  watch_inv s → is_Some (clients s !! id) →
  ∃ rs prop' s', exec_loop s id prop qs = Ok (rs, prop', s') ∧ spec_exec (abs_server s) id prop qs = (rs, prop', abs_server s') ∧
    watch_inv s' ∧ dom (clients s') = dom (clients s).
Proof.
  induction qs as [|q qs IH]; intros s prop Hi [c Hc]; cbn [exec_loop spec_exec]; [by eexists _, _, _|].
  unfold the_client. rewrite abs_client_lookup, Hc. cbn [fmap option_fmap option_map]. res_step.
  set (first := negb prop && write_command q). set (s0 := if first then _ else s).
  assert (Ha0 : (if first then ts_set_data (abs_server s) (propagate_multi (ts_data (abs_server s)) (t_db (abs_client c))) else abs_server s)
    = abs_server s0) by (unfold s0; by destruct first).
  assert (Hc0 : clients s0 = clients s) by (unfold s0; by destruct first).
  assert (Hi0 : watch_inv s0) by (unfold s0; destruct first; [by apply set_data_inv|done]).
  rewrite Ha0. destruct (call_sim s0 id c q Hi0) as (r & s1 & -> & -> & Hi1 & Hd1); [by rewrite Hc0|]. rewrite Hc0 in Hd1. res_step.
  destruct (IH s1 (prop || first) Hi1) as (rs & prop' & s2 & -> & -> & Hi2 & Hd2); [by eapply dom_lookup|]. res_step.
  eexists _, _, _. split; [done|]. split_and!; [done|done|congruence].
Qed.

Lemma exec_sim (s : server D) id c :
  watch_inv s → clients s !! id = Some c →
  ∃ r s', execCommand s id = Ok (r, s') ∧ spec_command (abs_server s) id (abs_client c) Exec = (r, abs_server s') ∧
    watch_inv s' ∧ dom (clients s') = dom (clients s).
Proof.
  intros Hi Hc. unfold execCommand, the_client. rewrite Hc. res_step. cbn [spec_command t_multi t_error t_touched t_queue abs_client].
  destruct (has (flags c) CLIENT_MULTI); cbn [negb]; [|by eexists _, _].
  destruct (discard_sim s id c Hi Hc) as (sd & Ed & Hid & Had & Hdd). rewrite has_either.
  destruct (has (flags c) CLIENT_DIRTY_EXEC), (has (flags c) CLIENT_DIRTY_CAS); cbn [orb];
    try (rewrite Ed; res_step; eexists _, _; split; [done|]; by rewrite Had).
  destruct (unwatch_sim s id c Hi Hc) as (s1 & -> & (Hi1 & Ha1 & Hd1) & Hc1). res_step.
  destruct (exec_loop_sim (mstate c) id s1 false Hi1) as (rs & prop & s2 & -> & Es & Hi2 & Hd2); [by rewrite Hc1|]. res_step.
  destruct (dom_lookup s1 s2 id _ Hd2 Hc1) as [c2 Hc2].
  destruct (discard_sim s2 id c2 Hi2 Hc2) as (s3 & -> & Hi3 & Ha3 & Hd3). res_step.
  change (with_client (abs_server s) id _) with (with_client (abs_server s) id t_unwatch).
  rewrite <- Ha1, Es, <- Ha3. eexists _, _. split; [done|].
  destruct prop; (split_and!; [done|first [done|by apply set_data_inv]|cbn; congruence]).
Qed.

Lemma watch_loop_sim keys id : ∀ (s : server D) c,
  watch_inv s → clients s !! id = Some c →
  ∃ s', watch_loop s id keys = Ok s' ∧ client_sim s s' id (fun c => mkT (t_multi c) (t_error c) (t_touched c) (t_db c) (t_queue c)
                                             (t_watch c ∪ list_to_set (map (pair (t_db c)) keys))).
Proof.
  induction keys as [|key keys IH]; intros s c Hi Hc; cbn [watch_loop].
  { exists s. split; [done|]. eapply client_sim_insert; [done|done|symmetry; by apply insert_id|done|].
    unfold abs_client. cbn. f_equal. set_solver. }
  destruct (watchForKey_ok s id c key Hi Hc) as (s1 & wks & -> & Hi1 & Hd1 & Hc1 & Hset). res_step.
  destruct (IH s1 (set_watched c wks) Hi1) as (s2 & -> & Hi2 & Ha2 & Hdom2); [rewrite Hc1; apply lookup_insert_eq|].
  exists s2. split; [done|]. destruct (client_sim_insert s s1 id c (set_watched c wks)
    (fun c => mkT (t_multi c) (t_error c) (t_touched c) (t_db c) (t_queue c) (t_watch c ∪ {[(t_db c, key)]})) Hc Hi1 Hc1 Hd1) as (_ & Ha1 & Hdom1).
  { unfold abs_client. cbn. by rewrite Hset. }
  split; [done|]. split; [|congruence]. rewrite Ha2, Ha1, with_client_twice. eapply with_client_ext; [exact Hc|]. cbn. f_equal. set_solver.
Qed.

Lemma command_sim (s : server D) id c k :
  watch_inv s → clients s !! id = Some c →
  ∃ r s', processCommand s id k = Ok (r, s') ∧ spec_command (abs_server s) id (abs_client c) k = (r, abs_server s') ∧
    watch_inv s' ∧ dom (clients s') = dom (clients s).
Proof.
  intros Hi Hc. unfold processCommand, the_client. rewrite Hc. res_step. destruct k as [| | |keys|q]; cbn [spec_command].
  - unfold multiCommand, the_client. rewrite Hc. res_step. cbn [t_multi abs_client].
    destruct (has (flags c) CLIENT_MULTI) eqn:E; [by eexists _, _|].
    destruct (client_sim_set s id c (set_flags c (Z.lor (flags c) CLIENT_MULTI))
      (fun c => mkT true (t_error c) (t_touched c) (t_db c) (t_queue c) (t_watch c)) Hi Hc eq_refl) as (Hi1 & Ha1 & Hd1).
    { unfold abs_client. cbn [set_flags flags c_db mstate watched_keys t_error t_touched t_db t_queue t_watch].
      by rewrite has_lor_same, !has_lor_other by done. }
    eexists _, _. split; [done|]. by rewrite Ha1.
  - by apply exec_sim.
  - unfold discardCommand, the_client. rewrite Hc. res_step. cbn [t_multi abs_client].
    destruct (has (flags c) CLIENT_MULTI); cbn [negb]; [|by eexists _, _].
    destruct (discard_sim s id c Hi Hc) as (s1 & -> & Hi1 & Ha1 & Hd1). res_step. eexists _, _. split; [done|]. by rewrite Ha1.
  - unfold watchCommand, the_client. rewrite Hc. res_step. cbn [t_multi abs_client].
    destruct (has (flags c) CLIENT_MULTI); [by eexists _, _|].
    destruct (watch_loop_sim keys id s c Hi Hc) as (s1 & -> & Hi1 & Ha1 & Hd1). res_step. eexists _, _. split; [done|]. by rewrite Ha1.
  - cbn [t_multi abs_client]. destruct (has (flags c) CLIENT_MULTI) eqn:E.
    + unfold queueMultiCommand, the_client. rewrite Hc. do 2 res_step.
      destruct (client_sim_set s id c (mkClient (flags c) (c_db c) (mstate c ++ [q]) (watched_keys c))
        (fun c => mkT true (t_error c) (t_touched c) (t_db c) (t_queue c ++ [q]) (t_watch c)) Hi Hc eq_refl) as (Hi1 & Ha1 & Hd1).
      { unfold abs_client. cbn. by rewrite E. }
      eexists _, _. split; [done|]. by rewrite Ha1.
    + destruct (call_sim s id c q Hi Hc) as (r & s1 & -> & Es & Hi1 & Hd1). res_step. eexists _, _. split; [done|].
      change (mkT _ _ _ _ _ _) with (abs_client c). by rewrite Es.
Qed.

(** ** Events *)

Lemma with_client_id (s : server D) id c f :
  clients s !! id = Some c → f (abs_client c) = abs_client c → with_client (abs_server s) id f = abs_server s.
Proof.
  intros Hc Hf. rewrite (with_client_ext s id c _ (fun c => c) Hc Hf). unfold with_client, abs_server. cbn. f_equal.
  apply map_eq. intros i. destruct (decide (i = id)) as [->|Hne]; [|by rewrite lookup_alter_ne].
  rewrite lookup_alter_eq, lookup_fmap, Hc. done.
Qed.

Lemma flag_sim (s : server D) id c f :
  watch_inv s → clients s !! id = Some c →
  f (abs_client c) = mkT (has (flags c) CLIENT_MULTI) (t_error (abs_client c) || has (flags c) CLIENT_MULTI) (t_touched (abs_client c))
    (c_db c) (mstate c) (t_watch (abs_client c)) →
  ∃ s', flagTransaction s id = Ok s' ∧ client_sim s s' id f.
Proof.
  intros Hi Hc Hf. unfold flagTransaction, the_client. rewrite Hc. res_step.
  destruct (has (flags c) CLIENT_MULTI) eqn:E; eexists; (split; [done|]).
  - apply (client_sim_set s id c (set_flags c (Z.lor (flags c) CLIENT_DIRTY_EXEC)) f Hi Hc eq_refl). rewrite Hf.
    unfold abs_client. cbn [set_flags flags c_db mstate watched_keys t_multi t_error t_touched t_db t_queue t_watch].
    by rewrite has_lor_same, !has_lor_other, E, orb_true_r by done.
  - unfold client_sim. split_and!; [done| |done]. symmetry. eapply with_client_id; [done|]. rewrite Hf, orb_false_r. unfold abs_client. cbn. by rewrite E.
Qed.

Lemma reject_sim (s : server D) id c k r :
  watch_inv s → clients s !! id = Some c →
  ∃ s', rejectCommand s id k r = Ok (TReply (refusal_reply r), s') ∧ client_sim s s' id (spec_refused k r).
Proof.
  intros Hi Hc. unfold rejectCommand.
  assert (Hflag : spec_refused k r = (fun c => mkT (t_multi c) (t_error c || (t_multi c && true)) (t_touched c) (t_db c) (t_queue c) (t_watch c)) →
    ∃ s', (s1 ← flagTransaction s id; Ok (TReply (refusal_reply r), s1)) = Ok (TReply (refusal_reply r), s') ∧
      client_sim s s' id (spec_refused k r)).
  { intros E. destruct (flag_sim s id c (spec_refused k r) Hi Hc) as (s' & -> & Hs); [|by exists s'].
    rewrite E. cbn. by rewrite andb_true_r. }
  assert (Hkeep : spec_refused k r = (fun c => mkT (t_multi c) (t_error c || (t_multi c && false)) (t_touched c) (t_db c) (t_queue c) (t_watch c)) →
    client_sim s s id (spec_refused k r)).
  { intros E. unfold client_sim. split_and!; [done| |done]. symmetry. eapply with_client_id; [done|].
    rewrite E. unfold abs_client. cbn. by rewrite andb_false_r, orb_false_r. }
  assert (Hk : ∀ e, k = Exec → r = Redirect e → ∃ s', discardTransaction s id = Ok s' ∧ client_sim s s' id (spec_refused k r)).
  { intros e -> ->. by apply (discard_sim s id c). }
  destruct r; try (by apply Hflag; destruct k); try (by eexists; split; [done|apply Hkeep; destruct k]).
  destruct k; try (by apply Hflag). destruct (Hk e eq_refl eq_refl) as (s' & -> & Hs). by exists s'.
Qed.

Lemma step_sim (s : server D) ev :
  watch_inv s → match ev with Connect _ => True | Command id _ | Refused id _ _ | Close id => id ∈ dom (clients s) end →
  ∃ r s', server_step s ev = Ok (r, s') ∧ spec_event (abs_server s) ev = (r, abs_server s') ∧ watch_inv s' ∧
    dom (clients s') = ids_after (dom (clients s)) ev.
Proof.
  intros Hi Hok. destruct ev as [id|id k|id k r|id]; cbn [server_step spec_event ids_after].
  - rewrite abs_client_lookup. eexists _, _. split; [done|]. destruct (clients s !! id) as [c|] eqn:E; cbn [fmap option_fmap option_map].
    + split_and!; [done|done|]. apply elem_of_dom_2 in E. set_solver.
    + split_and!; [|split; cbn|cbn; apply dom_insert_L].
      * unfold createClient, abs_server. cbn. by rewrite fmap_insert.
      * intros i c Hc. destruct (decide (i = id)) as [->|Hne].
        -- rewrite lookup_insert_eq in Hc. injection Hc as <-. split; [constructor|]. by intros wk ?%not_elem_of_nil.
        -- rewrite lookup_insert_ne in Hc by done. by apply (wi_keys _ Hi).
      * intros wk cl Hcl. destruct (wi_lists _ Hi wk cl Hcl) as [Hn Hl]. split; [done|]. intros i Hin.
        destruct (Hl i Hin) as (c & Hc & ?). exists c. rewrite lookup_insert_ne by (intros ->; congruence). done.
  - apply elem_of_dom in Hok as [c Hc]. rewrite abs_client_lookup, Hc. cbn [fmap option_fmap option_map].
    destruct (command_sim s id c k Hi Hc) as (r & s' & -> & -> & Hi' & Hd). res_step. by eexists _, _.
  - apply elem_of_dom in Hok as [c Hc]. destruct (reject_sim s id c k r Hi Hc) as (s' & -> & Hi1 & Ha1 & Hd1). res_step.
    eexists _, _. split; [done|]. by rewrite Ha1.
  - apply elem_of_dom in Hok as [c Hc]. unfold freeClient.
    destruct (unwatch_sim s id c Hi Hc) as (s1 & -> & (Hi1 & Ha1 & Hd1) & Hc1). do 2 res_step. eexists _, _. split; [done|].
    split_and!; [|split; cbn|cbn; rewrite dom_delete_L; congruence].
    + f_equal. injection Ha1 as Hac Had. unfold abs_server. cbn. rewrite fmap_delete, Hac, Had. f_equal. apply map_eq. intros i.
      destruct (decide (i = id)) as [->|Hne]; [by rewrite !lookup_delete_eq|by rewrite !lookup_delete_ne, lookup_alter_ne].
    + intros i ci [_ Hci]%lookup_delete_Some. by apply (wi_keys _ Hi1).
    + intros wk cl Hcl. destruct (wi_lists _ Hi1 wk cl Hcl) as [Hn Hl]. split; [done|]. intros i Hin.
      destruct (Hl i Hin) as (ci & Hci & Hk). exists ci. rewrite lookup_delete_ne; [done|]. intros <-.
      rewrite Hc1 in Hci. injection Hci as <-. by apply not_elem_of_nil in Hk.
Qed.

Lemma run_sim evs : ∀ s : server D,
  watch_inv s → events_ok (dom (clients s)) evs →
  ∃ s', run_events s evs = Ok ((spec_events (abs_server s) evs).1, s') ∧ abs_server s' = (spec_events (abs_server s) evs).2 ∧
    watch_inv s' ∧ dom (clients s') = foldl ids_after (dom (clients s)) evs.
Proof.
  induction evs as [|ev evs IH]; intros s Hi Hok; cbn [run_events spec_events foldl]; [by exists s|]. destruct Hok as [Hev Hok].
  destruct (step_sim s ev Hi Hev) as (r & s1 & -> & -> & Hi1 & Hd1). res_step. rewrite <- Hd1 in Hok |- *.
  destruct (IH s1 Hi1 Hok) as (s2 & -> & Ha2 & Hi2 & Hd2). res_step. exists s2.
  destruct (spec_events (abs_server s1) evs). done.
Qed.

Definition no_clients (d : D) : server D := mkServer ∅ ∅ d.

Lemma no_clients_inv d : watch_inv (no_clients d).
Proof. split; cbn; intros ? ? E; by rewrite lookup_empty in E. Qed.

(** C8: whatever clients connect, watch, queue, execute, discard and leave, in any order,
    the server answers as the specification in which EXEC runs the queue exactly if no command
    since MULTI was refused in a way that counts and no key that the client watches was
    touched; it neither fails an assertion nor follows a dangling pointer to a client.  The
    refusals of [processCommand] count but those of a read-only slave, of a client that
    subscribed and of a server that is loading: the transaction then runs without the refused
    command.  A redirected EXEC ends the transaction.  SELECT takes its number modulo the
    range of [int]. *)
Theorem transactions_refine_spec d evs :
  events_ok ∅ evs →
  ∃ s', run_events (no_clients d) evs = Ok ((spec_events (mkTS ∅ d) evs).1, s') ∧
    abs_server s' = (spec_events (mkTS ∅ d) evs).2.
Proof.
  intros Hok. destruct (run_sim evs (no_clients d) (no_clients_inv d)) as (s' & E & Ha & _).
  - cbn. by rewrite dom_empty_L.
  - assert (E0 : abs_server (no_clients d) = mkTS ∅ d) by (unfold abs_server; cbn; by rewrite fmap_empty).
    rewrite E0 in E, Ha. by exists s'.
Qed.

(** * What WATCH promises *)

(** Events after which client [id] still watches what it watched. *)
Definition keeps_watch (id : clientid) (ev : event) : bool :=
  match ev with
  | Command i Exec | Command i Discard | Command i (Plain Unwatch) | Refused i Exec (Redirect _) | Close i => negb (bool_decide (i = id))
  | _ => true
  end.

Definition told (T : tserver) (id : clientid) : Prop := ∃ c, ts_clients T !! id = Some c ∧ t_touched c = true.

Lemma told_touch (T : tserver) id P d : told T id → told (mkTS (t_touch P <$> ts_clients T) d) id.
Proof.
  intros (c & Hc & Ht). exists (t_touch P c). cbn. rewrite lookup_fmap, Hc. split; [done|]. unfold t_touch. by destruct (existsb _ _).
Qed.

Lemma told_other (T : tserver) id i f : i ≠ id → told T id → told (with_client T i f) id.
Proof. intros Hne (c & Hc & Ht). exists c. cbn. by rewrite lookup_alter_ne. Qed.

Lemma told_same (T : tserver) id i f : (∀ c, t_touched (f c) = t_touched c) → told T id → told (with_client T i f) id.
Proof.
  intros Hf Ht. destruct (decide (i = id)) as [->|Hne]; [|by apply told_other]. destruct Ht as (c & Hc & Ht).
  exists (f c). cbn. rewrite lookup_alter_eq, Hc. by rewrite Hf.
Qed.

Lemma told_call (T : tserver) id i c q : q ≠ Unwatch ∨ i ≠ id → told T id → told (spec_call T i c q).2 id.
Proof.
  intros Hq Ht. destruct q as [|arg|all|argv]; cbn [spec_call].
  - apply told_other; [by destruct Hq|done].
  - destruct (string2ll arg) as [n|]; [|done]. destruct (cluster_enabled && _); [done|].
    case_bool_decide; [|done]. by apply told_same.
  - by apply told_touch.
  - destruct (run_command _ _ _) as [[r d] touched]. by apply told_touch.
Qed.

Lemma told_exec id i qs : i ≠ id → ∀ (T : tserver) prop, told T id → told (spec_exec T i prop qs).2 id.
Proof.
  intros Hne. induction qs as [|q qs IH]; intros T prop Ht; cbn [spec_exec]; [done|]. destruct (ts_clients T !! i) as [c|]; [|done].
  set (first := negb prop && write_command q). set (T0 := if first then _ else T).
  assert (Ht0 : told T0 id) by (unfold T0; by destruct first).
  pose proof (told_call T0 id i c q (or_intror Hne) Ht0) as H1. destruct (spec_call T0 i c q) as [r T1].
  specialize (IH T1 (prop || first) H1). by destruct (spec_exec T1 i (prop || first) qs) as [[]].
Qed.

Lemma told_command (T : tserver) id i c k : keeps_watch id (Command i k) = true → told T id → told (spec_command T i c k).2 id.
Proof.
  intros Hk Ht. assert (Hne : match k with Exec | Discard | Plain Unwatch => i ≠ id | _ => True end).
  { destruct k as [| | | |[]]; cbn in Hk; try done; by destruct (decide (i = id)) as [->|]; [rewrite bool_decide_true in Hk|]. }
  destruct k as [| | |keys|q]; cbn [spec_command].
  - destruct (t_multi c); [done|]. by apply told_same.
  - destruct (t_multi c); cbn [negb]; [|done]. destruct (t_error c); [by apply told_other|]. destruct (t_touched c); [by apply told_other|].
    pose proof (told_exec id i (t_queue c) Hne _ false (told_other T id i t_unwatch Hne Ht)) as H1. unfold t_unwatch in H1.
    destruct (spec_exec _ i false (t_queue c)) as [[rs prop] T1]. pose proof (told_other T1 id i t_idle Hne H1). by destruct prop.
  - destruct (t_multi c); [by apply told_other|done].
  - destruct (t_multi c); [done|]. by apply told_same.
  - destruct (t_multi c); [by apply told_same|]. pose proof (told_call T id i c q) as H1.
    destruct (spec_call T i c q) as [r T1]. apply H1; [|done]. destruct q; auto.
Qed.

Lemma told_refused (T : tserver) id i k r :
  keeps_watch id (Refused i k r) = true → told T id → told (with_client T i (spec_refused k r)) id.
Proof.
  intros Hk Ht. destruct (decide (i = id)) as [->|Hne]; [|by apply told_other].
  apply told_same; [|done]. intros c. unfold spec_refused. destruct k; [done| |done..]. destruct r; try done.
  cbn in Hk. by rewrite bool_decide_true in Hk.
Qed.

Lemma told_step (T : tserver) id ev : keeps_watch id ev = true → told T id → told (spec_event T ev).2 id.
Proof.
  intros Hk Ht. destruct ev as [i|i k|i k r|i]; cbn [spec_event].
  - destruct (ts_clients T !! i) as [c|] eqn:E; [done|]. destruct Ht as (c & Hc & Ht). exists c. cbn.
    rewrite lookup_insert_ne by congruence. done.
  - destruct (ts_clients T !! i) as [c|]; [|done]. pose proof (told_command T id i c k Hk Ht). by destruct (spec_command T i c k).
  - by apply told_refused.
  - destruct Ht as (c & Hc & Ht). exists c. cbn. rewrite lookup_delete_ne; [done|]. intros ->. cbn in Hk. by rewrite bool_decide_true in Hk.
Qed.

Lemma told_events id evs : ∀ T : tserver, Forall (fun ev => keeps_watch id ev = true) evs → told T id → told (spec_events T evs).2 id.
Proof.
  induction evs as [|ev evs IH]; intros T Hall Ht; cbn [spec_events]; [done|]. apply Forall_cons in Hall as [Hev Hall].
  pose proof (told_step T id ev Hev Ht) as H1. destruct (spec_event T ev) as [r T1]. specialize (IH T1 Hall H1).
  by destruct (spec_events T1 evs).
Qed.

(** C13: WATCH is a compare-and-set.  If a client watches a key and a command of any client
    touches it, the next EXEC of the client does not run its queue and changes no data, unless the
    client has ended the watch in between. *)
Theorem watched_touch_aborts (s : server D) other argv post id c co wk :
  watch_inv s → clients s !! id = Some c → wk ∈ watched_keys c → clients s !! other = Some co →
  has (flags co) CLIENT_MULTI = false → wk ∈ (run_command (data s) (c_db co) argv).2 →
  Forall (fun ev => keeps_watch id ev = true) post → events_ok (dom (clients s)) post →
  ∃ rs s1 r s2, run_events s (Command other (Plain (Other argv)) :: post) = Ok (rs, s1) ∧
    server_step s1 (Command id Exec) = Ok (Some r, s2) ∧ (∀ l, r ≠ TExec l) ∧ data s2 = data s1.
Proof.
  intros Hi Hc Hwk Hco Hm Htouch Hpost Hok.
  destruct (run_sim (Command other (Plain (Other argv)) :: post) s Hi) as (s1 & E1 & Ha1 & Hi1 & Hd1).
  { split; [by apply elem_of_dom_2 in Hco|done]. }
  assert (Ht : told (abs_server s1) id).
  { rewrite Ha1. cbn [spec_events spec_event]. rewrite abs_client_lookup, Hco. cbn [fmap option_fmap option_map spec_command abs_client t_multi].
    rewrite Hm. cbn [spec_call abs_server ts_data]. change (t_db (abs_client co)) with (c_db co). destruct (run_command (data s) (c_db co) argv) as [[r d] touched]. cbn [snd] in Htouch.
    cbv beta iota zeta. match goal with |- context [spec_events ?T post] => set (T1 := T) end. pose proof (told_events id post T1 Hpost) as Hte. destruct (spec_events T1 post). apply Hte.
    eexists. unfold T1. cbn [ts_clients abs_server]. rewrite lookup_fmap, lookup_fmap, Hc. split; [done|].
    rewrite t_touch_abs. assert (existsb (fun k => bool_decide (k ∈ touched)) (watched_keys c) = true) as ->; [|by rewrite abs_touched].
    apply existsb_iff. exists wk. split; [done|]. by apply bool_decide_true. }
  destruct Ht as (tc & Htc & Ht). rewrite abs_client_lookup in Htc. destruct (clients s1 !! id) as [c1|] eqn:Hc1; [|done]. injection Htc as <-.
  destruct (exec_sim s1 id c1 Hi1 Hc1) as (r & s2 & E2 & Es & _).
  assert (E3 : server_step s1 (Command id Exec) = Ok (Some r, s2)).
  { unfold server_step, processCommand, the_client. rewrite Hc1. res_step. by rewrite E2. }
  eexists _, s1, r, s2. split; [exact E1|]. split; [exact E3|]. cbn [spec_command] in Es. rewrite Ht in Es.
  destruct (t_multi _); cbn [negb] in Es; [destruct (t_error _)|]; injection Es as <- _ Es; (split; [done|]); exact (eq_sym Es).
Qed.
End spec.

(** * Instances *)

(** Strings, a dirty counter and the databases MULTI was propagated for; SET writes its key
    and touches it. *)
Record texts := mkTexts { texts_of : gmap dbkey bytes; texts_dirty : Z; texts_feed : list Z }.

Definition text_run (d : texts) (db : Z) (argv : list bytes) : reply * texts * list dbkey :=
  match argv with
  | [_; k; v] => (RStatus (lit "OK"), mkTexts (<[(db, k) := v]> (texts_of d)) (texts_dirty d + 1) (texts_feed d), [(db, k)])
  | _ => (RError (lit "ERR"), d, [])
  end.
#[export] Instance text_data : DataModel texts := {
  key_exists d wk := bool_decide (is_Some (texts_of d !! wk));
  run_command := text_run;
  flush_db d dbid := mkTexts (if dbid =? -1 then ∅ else filter (fun kv => kv.1.1 ≠ dbid) (texts_of d)) (texts_dirty d) (texts_feed d);
  db_count := 16;
  cluster_enabled := false;
  write_command q := match q with Other _ | Flush _ => true | _ => false end;
  propagate_multi d db := mkTexts (texts_of d) (texts_dirty d) (texts_feed d ++ [db]);
  bump_dirty d := mkTexts (texts_of d) (texts_dirty d + 1) (texts_feed d);
}.

Definition no_texts : texts := mkTexts ∅ 0 [].

Module MultiExample.
Definition set (k v : bytes) : cmd := Plain (Other [lit "SET"; k; v]).
Definition opening : list event :=
  [Connect 1; Connect 2; Command 1 (Watch [lit "k"; lit "k"; lit "j"]); Command 1 Multi; Command 1 (set (lit "k") (lit "1"))].
Definition evs : list event :=
  opening ++ [Command 2 (set (lit "k") (lit "2")); Command 1 Exec; Command 1 Multi; Command 1 (set (lit "k") (lit "3"));
    Command 1 Exec; Command 2 Multi; Refused 2 (set (lit "k") (lit "4")) ReadOnlySlave;
    Command 2 (Plain (Select (lit "4294967296"))); Command 2 Exec; Command 2 Multi; Refused 2 (set (lit "k") (lit "5")) OutOfMemory;
    Command 2 Exec; Command 2 (Plain (Flush true)); Close 1].
End MultiExample.

Lemma transactions_refine_spec_witness :
  ∃ s', run_events (no_clients no_texts) MultiExample.evs =
    Ok ([None; None; Some ok; Some ok; Some queued; Some ok; Some TNil; Some ok; Some queued;
         Some (TExec [RStatus (lit "OK")]);
         Some ok; Some (err (lit "READONLY You can't write against a read only slave.")); Some queued; Some (TExec [RStatus (lit "OK")]);
         Some ok; Some (err (lit "OOM command not allowed when used memory > 'maxmemory'.")); Some (err execaborterr); Some ok; None], s').
Proof.
  destruct (transactions_refine_spec no_texts MultiExample.evs) as (s' & E & _).
  - cbn [MultiExample.evs MultiExample.opening app events_ok ids_after]. set_solver.
  - exists s'. rewrite E. vm_compute. reflexivity.
Defined.

Lemma watched_touch_aborts_witness :
  ∃ s rs s1 r s2, (∃ rs0, run_events (no_clients no_texts) MultiExample.opening = Ok (rs0, s)) ∧
    run_events s [Command 2 (MultiExample.set (lit "k") (lit "2")); Command 1 (MultiExample.set (lit "j") (lit "1"))] = Ok (rs, s1) ∧
    server_step s1 (Command 1 Exec) = Ok (Some r, s2) ∧ (∀ l, r ≠ TExec l) ∧ data s2 = data s1.
Proof.
  destruct (run_sim MultiExample.opening (no_clients no_texts) (no_clients_inv _)) as (s & E & _ & Hi & Hd).
  { cbn [MultiExample.opening events_ok ids_after]. set_solver. }
  assert (Hs : run_events (no_clients no_texts) MultiExample.opening = Ok ([None; None; Some ok; Some ok; Some queued],
    mkServer {[1%positive := mkClient CLIENT_MULTI 0 [Other [lit "SET"; lit "k"; lit "1"]] [(0, lit "k"); (0, lit "j")]; 2%positive := mkClient 0 0 [] []]}
      {[(0, lit "k") := [1%positive]; (0, lit "j") := [1%positive]]} no_texts)) by (vm_compute; reflexivity).
  rewrite E in Hs. apply Ok_inj, (f_equal snd) in Hs as Es. cbn [snd] in Es.
  destruct (watched_touch_aborts s 2 [lit "SET"; lit "k"; lit "2"] [Command 1 (MultiExample.set (lit "j") (lit "1"))] 1
    (mkClient CLIENT_MULTI 0 [Other [lit "SET"; lit "k"; lit "1"]] [(0, lit "k"); (0, lit "j")]) (mkClient 0 0 [] []) (0, lit "k"))
    as (rs & s1 & r & s2 & E1 & E2 & Hr & Hdata); try (rewrite Es; reflexivity).
  - exact Hi.
  - by left.
  - reflexivity.
  - rewrite Es. by left.
  - repeat constructor.
  - cbn [events_ok]. split; [|done]. rewrite Hd. cbn. set_solver.
  - exists s, rs, s1, r, s2. split; [eexists; exact E|]. split; [exact E1|]. split; [exact E2|]. split; [exact Hr|exact Hdata].
Defined.
