(* ===== verification/Faults.v ===== *)
(** Where the layer fails.  The commands and settings that the refinement theorem
    of System.v excludes, and what the code does on them. *)

From S2P Require Import Prelude CString Util Sds Vector Queue Keys Serialize Hash Db Meta Table Invariant Write WriteSpec Scan ScanSpec Tiering TieringSpec PersistSpec System.

Section faults.
  Context {Store : Type} `{RocksDB Store} (cfg : config).
  Implicit Types (st : state Store) (tabs : tables).

(** ** Refused writes *)

(** FPWRITE with a number of values that is not a multiple of the number of
    columns answers an error and changes nothing; with zero columns (or a column
    argument that is no number) it divides by zero. *)
Theorem fpWrite_refuses st cmd key part cols idx xs info :
  parsingDataKeyInfo key = Ok info → atoi cols ≤ MAX_COLUMN_NUMBER →
  let argv := cmd :: key :: part :: cols :: idx :: xs in
  (atoi cols = 0 → fpWriteCommand cfg st argv = Fault DivByZero) ∧
  (atoi cols ≠ 0 → Z.rem (Z.of_nat (length xs)) (atoi cols) ≠ 0 →
     fpWriteCommand cfg st argv = Ok (RError (lit "column_number Error"), st)).
Proof.
  intros Hp Hc argv. unfold fpWriteCommand, argv. cbn [at_index lookup list_lookup mbind res_bind]. rewrite Hp. res_step.
  replace (atoi cols <=? MAX_COLUMN_NUMBER) with true by (symmetry; by apply Z.leb_le).
  cbn [assert]. res_step. unfold cmod. destruct (Z.eqb_spec (atoi cols) 0) as [E|E]; [done|]. res_step.
  replace (Z.of_nat (length (cmd :: key :: part :: cols :: idx :: xs)) - 5) with (Z.of_nat (length xs)) by (cbn [length]; lia).
  split; [done|]. intros _ Hr. by destruct (Z.eqb_spec (Z.rem (Z.of_nat (length xs)) (atoi cols)) 0).
Qed.

(** ** The shared objects *)

(** How many of the values need the shared object for null, or the one for the empty
    string. *)
Definition nulls (xs : list bytes) : nat := sum_list_with (fun x => match choose_value x with VoNull => 1 | _ => 0 end)%nat xs.
Definition blanks (xs : list bytes) : nat := sum_list_with (fun x => match choose_value x with VoEmpty => 1 | _ => 0 end)%nat xs.

(** The values need one of the objects more often than it can be used: once if it is
    there, never if it was released. *)
Definition overused st (xs : list bytes) : Prop :=
  ((match st_nullValue st with Some _ => 1 | None => 0 end) < nulls xs)%nat ∨
  ((match st_emptyString st with Some _ => 1 | None => 0 end) < blanks xs)%nat.

(** The first value: its object is gone, or is used and released. *)
Lemma overused_cons st x xs :
  overused st (x :: xs) →
  value_ptr st (choose_value x) = Fault UseAfterFree ∨
  (∃ y, value_ptr st (choose_value x) = Ok y ∧ overused (release_value st (choose_value x)) xs).
Proof.
  unfold overused, nulls, blanks. cbn [sum_list_with].
  destruct (choose_value x); cbn; [right; eauto|destruct (st_nullValue st)|destruct (st_emptyString st)]; cbn; try (by left);
    intros Ho; right; eexists; (split; [done|]); lia.
Qed.

Lemma overused_nil st : ¬ overused st [].
Proof. unfold overused, nulls, blanks. cbn. lia. Qed.

Lemma overused_same st st' xs :
  st_nullValue st' = st_nullValue st → st_emptyString st' = st_emptyString st → overused st xs → overused st' xs.
Proof. unfold overused. by intros -> ->. Qed.

Lemma write_loop_overused ncol key loc row_number xs : ∀ st a d vs idx enroll,
  wf_config cfg → (1 ≤ ncol ≤ 100)%nat → 0 ≤ row_number → 0 ≤ idx →
  row_number * Z.of_nat ncol + idx = Z.of_nat (length vs) →
  Z.of_nat (length vs + length xs) ≤ Z.of_nat ncol * INT_MAX →
  expires (st_db st) !! key = None → dict (st_db st) !! key = Some a →
  st_heap st !! a = Some (rg_entry key loc d) → rg_rep ncol (cvsz cfg) vs d → overused st xs →
  write_loop cfg st key row_number (Z.of_nat ncol) idx enroll xs = Fault UseAfterFree.
Proof.
  induction xs as [|x xs IH]; intros st a d vs idx enroll Hcfg Hn Hr Hi E Hb He Hd Ha Hrep Ho; [by apply overused_nil in Ho|].
  rewrite (write_loop_round cfg Hcfg ncol st key row_number idx enroll x xs (length vs)); [|done..|].
  2:{ rewrite Nat2Z.inj_div. apply Z.div_lt_upper_bound; [lia|]. simpl length in Hb. lia. }
  destruct (overused_cons st x xs Ho) as [-> |(y & -> & Ho')]; [done|]. res_step.
  destruct (insert_existing cfg Hcfg st key a loc d ncol vs y He Hd Ha ltac:(lia) Hrep) as (d1 & -> & Hr1). res_step.
  apply (IH _ a d1 (vs ++ [y])); try done; try lia.
  - rewrite length_app. simpl length. lia.
  - rewrite length_app. simpl length in *. lia.
  - by destruct (choose_value x).
  - by destruct (choose_value x).
  - destruct (choose_value x); cbn; by rewrite lookup_insert_eq.
  - eapply overused_same; [..|exact Ho']; by destruct (choose_value x).
Qed.

Lemma write_loop_overused_new ncol st key xs enroll :
  wf_config cfg → (1 ≤ ncol ≤ 100)%nat → Z.of_nat (length xs) ≤ Z.of_nat ncol * INT_MAX →
  expires (st_db st) !! key = None → dict (st_db st) !! key = None → overused st xs →
  write_loop cfg st key 0 (Z.of_nat ncol) 0 enroll xs = Fault UseAfterFree.
Proof.
  intros Hcfg Hn Hb He Hd Ho. destruct xs as [|x xs]; [by apply overused_nil in Ho|].
  rewrite (write_loop_round cfg Hcfg ncol st key 0 0 enroll x xs 0); [|done..|].
  2:{ rewrite Nat.Div0.div_0_l. unfold INT_MAX. lia. }
  destruct (overused_cons st x xs Ho) as [-> |(y & -> & Ho')]; [done|]. res_step.
  destruct (insert_new cfg Hcfg st key ncol y He Hd ltac:(lia)) as (d1 & -> & Hr1). res_step. change (0 + 1) with 1.
  apply (write_loop_overused ncol key LOCATION_REDIS_ONLY 0 xs _ (st_next st) d1 [y] 1); try done; try lia.
  - by destruct (choose_value x).
  - destruct (choose_value x); cbn; by rewrite lookup_insert_eq.
  - destruct (choose_value x); cbn; by rewrite lookup_insert_eq.
  - eapply overused_same; [..|exact Ho']; by destruct (choose_value x).
Qed.

(** The loop over the values in the row group that is chosen for them. *)
Lemma choose_overused st tabs t p ncol xs g0 n0 :
  wf_config cfg → Inv cfg st tabs → wf_tkey t p → (1 ≤ ncol ≤ 100)%nat → (length xs mod ncol = 0)%nat →
  rowgroup_size cfg + rows_of ncol xs ≤ INT_MAX → (∀ T, tabs !! (t, p) = Some T → t_cols T = ncol) →
  overused st xs → INT_MIN ≤ g0 ≤ INT_MAX →
  ∃ dk info rn enroll st', choose_rowgroup cfg st (key_info t p g0 n0) = Ok (dk, info, rn, enroll, st') ∧
    write_loop cfg st' dk rn (Z.of_nat ncol) 0 enroll xs = Fault UseAfterFree.
Proof.
  intros Hcfg Hinv Hk Hn Hxm Hxb HT Ho Hg0. destruct (rows_exact ncol xs ltac:(lia) Hxm) as [Ex _].
  pose proof Hcfg as (HR & _). assert (Hrx : 0 ≤ rows_of ncol xs) by (unfold rows_of; lia).
  destruct (tabs !! (t, p)) as [T|] eqn:ET.
  - pose proof (HT T eq_refl) as Hcols. pose proof (inv_meta _ _ _ Hinv t p Hk) as Hm. rewrite ET in Hm. destruct Hm as (c & Hm & Hc).
    assert (Hlen : Z.of_nat (length (t_groups T)) < INT_MAX).
    { pose proof (inv_count _ _ _ Hinv t p T ET). pose proof (inv_room _ _ _ Hinv). unfold MAX_ENTRIES, INT_MAX in *. lia. }
    destruct (choose_existing cfg Hcfg st tabs t p T c g0 n0 Hinv ET Hlen Hm Hc Hg0)
      as [(g & a & d & Hlast & Ha & Hha & Hrep & Hroom & ->)|(n & enroll & o & k & _ & _ & ->)].
    + do 5 eexists. split; [done|]. destruct (inv_tables _ _ _ Hinv t p T ET) as [_ (_ & _ & _ & Hgs)].
      apply last_Some in Hlast as [gs Egs]. rewrite Egs, Forall_app, Forall_singleton in Hgs. destruct Hgs as [_ (_ & Hgm & _)].
      rewrite Hcols in *. destruct (rows_exact ncol g ltac:(lia) Hgm) as [Eg _].
      assert (0 ≤ rows_of ncol g) by (unfold rows_of; lia).
      eapply write_loop_overused; try done; try lia; [|by apply (inv_expires _ _ _ Hinv)].
      rewrite Nat2Z.inj_add, <- Eg, <- Ex, <- Z.mul_add_distr_r, Z.mul_comm. apply Z.mul_le_mono_nonneg_l; lia.
    + do 5 eexists. split; [done|]. apply write_loop_overused_new; try done.
      * rewrite <- Ex, Z.mul_comm. apply Z.mul_le_mono_nonneg_l; lia.
      * cbn. by apply (inv_expires _ _ _ Hinv).
      * cbn. apply (inv_absent _ _ _ Hinv); [done|]. intros T' HT'. rewrite ET in HT'. by injection HT' as <-.
  - destruct (choose_new cfg Hcfg st tabs t p g0 n0 Hinv ET Hk Hg0) as (o & k & _ & ->).
    do 5 eexists. split; [done|]. apply write_loop_overused_new; try done.
    + rewrite <- Ex, Z.mul_comm. apply Z.mul_le_mono_nonneg_l; lia.
    + cbn -[data_key]. by apply (inv_expires _ _ _ Hinv).
    + cbn -[data_key]. apply (inv_absent _ _ _ Hinv t p 0 Hk). intros T' HT'. congruence.
Qed.

(** The command up to the loop over the values. *)
Lemma fpWrite_loop_faults st argv t p ncol xs f :
  (1 ≤ ncol ≤ 100)%nat → write_args argv t p ncol xs → (length xs mod ncol = 0)%nat →
  (∀ g0 n0, INT_MIN ≤ g0 ≤ INT_MAX → ∃ dk info rn enroll st',
     choose_rowgroup cfg st (key_info t p g0 n0) = Ok (dk, info, rn, enroll, st') ∧
     write_loop cfg st' dk rn (Z.of_nat ncol) 0 enroll xs = Fault f) →
  fpWriteCommand cfg st argv = Fault f.
Proof.
  intros Hn Hargs Hxm Hloop. destruct (fpWrite_starts cfg st argv t p ncol xs Hargs Hn Hxm) as (g0 & _ & Hg0 & ->).
  destruct (Hloop g0 0 Hg0) as (dk & info' & rn & enroll & st' & -> & E). res_step. unfold write_rows. by rewrite E.
Qed.

(** C33: the shared objects for null and for the empty string are created with one
    reference, and FPWRITE releases the one that it puts in the place of a value.
    So a FPWRITE of which two values are null reads the object after it was freed,
    and likewise one of which two values are empty or start with a blank; if an
    earlier command has released the object, one such value is enough.  This holds
    for any other values, in any order, and for new and existing tables. *)
Theorem released_object_faults st tabs argv t p ncol x xs :
  wf_config cfg → Inv cfg st tabs → wf_tkey t p → (1 ≤ ncol ≤ 100)%nat →
  write_args argv t p ncol (x :: xs) → (length (x :: xs) mod ncol = 0)%nat →
  rowgroup_size cfg + rows_of ncol (x :: xs) ≤ INT_MAX → (∀ T, tabs !! (t, p) = Some T → t_cols T = ncol) →
  overused st (x :: xs) → fpWriteCommand cfg st argv = Fault UseAfterFree.
Proof.
  intros Hcfg Hinv Hk Hn Hargs Hm Hb HT Hx. eapply fpWrite_loop_faults; try done. intros g0 n0 Hg0. by eapply choose_overused.
Qed.

(** with [columnvector_size] at zero, its value when the configuration does not
    set it, the first FPWRITE divides by zero. *)
Theorem unset_columnvector_size_faults (s : Store) now argv t p ncol x xs :
  columnvector_size cfg = 0 → 1 ≤ rowgroup_size cfg ≤ INT_MAX → wf_tkey t p → (1 ≤ ncol ≤ 100)%nat →
  write_args argv t p ncol (x :: xs) → (length (x :: xs) mod ncol = 0)%nat →
  fpWriteCommand cfg (initServer s now) argv = Fault DivByZero.
Proof.
  intros Hcv Hrg Hk Hn Hargs Hm.
  eapply fpWrite_loop_faults; [exact Hn|exact Hargs|exact Hm|]. intros g0 n0 Hg0.
  set (cfg' := mkConfig (rowgroup_size cfg) 1 1 (hash_max_ziplist_entries cfg) (maxmemory cfg) (no_eviction cfg)
                 (lazyfree_lazy_expire cfg) (loading cfg) (slave cfg)).
  assert (Hcfg' : wf_config cfg') by (unfold wf_config, INT_MAX in *; cbn; lia).
  destruct (choose_new cfg' Hcfg' (initServer s now) ∅ t p g0 n0 (initServer_inv cfg' s now)) as (o & k & _ & E); [done|done|done|].
  do 5 eexists. split; [exact E|]. cbn [write_loop].
  destruct (loop_field cfg' Hcfg' ncol 0 0 0 Hn) as (E1 & E2 & _); [lia|lia|lia|rewrite Nat.Div0.div_0_l; unfold INT_MAX; lia|].
  rewrite E1. res_step. rewrite E2. res_step. unfold cdiv. rewrite Hcv. done.
Qed.

(** ** Long keys *)

(** The row group key does not fit the buffer of [parsingDataKeyInfo]. *)
Lemma long_key_row_count st t p g :
  wf_part p → (MAX_TMPBUF_SIZE ≤ S (length (data_key t p g)))%nat → _getRowCount st (data_key t p g) = Fault AssertFail.
Proof.
  intros (_ & Hpn & _) Hlong. unfold _getRowCount, toMetaKey, parsingDataKeyInfo.
  rewrite (cstr_nonul _ (data_key_nonul t p g Hpn)), Nat.eqb_refl. cbn [assert]. res_step.
  destruct (Nat.ltb_spec (S (length (data_key t p g))) MAX_TMPBUF_SIZE); [lia|]. done.
Qed.

(** An eviction that finds such a row group at the head of the queue. *)
Lemma long_key_evicted st t p g a le lf d :
  wf_config cfg → wf_part p → (MAX_TMPBUF_SIZE ≤ S (length (data_key t p g)))%nat →
  queue_elems (EvictQueue (st_db st)) (a :: le) → queue_elems (FreeQueue (st_db st)) lf →
  Z.of_nat (length lf) + 1 < max (FreeQueue (st_db st)) →
  st_heap st !! a = Some (rg_entry (data_key t p g) LOCATION_REDIS_ONLY d) → evict_batch cfg st = Fault AssertFail.
Proof.
  intros (_ & _ & Hb) Hp Hlong Hle Hlf Hroom Ha. unfold evict_batch, vectorCreate.
  destruct (vectorTypeInitWithSize_rep (A := addr) STL_TYPE_SDS INIT_VECTOR_SIZE) as (v1 & -> & Hv1 & _);
    [by unfold INIT_VECTOR_SIZE|]. res_step.
  destruct (vectorTypeInitWithSize_rep (A := addr) STL_TYPE_ROBJ INIT_VECTOR_SIZE) as (v2 & -> & Hv2 & _);
    [by unfold INIT_VECTOR_SIZE|]. res_step.
  unfold _batchTiering. assert (∃ f, Z.to_nat (max (EvictQueue (st_db st))) = S f) as [f ->].
  { pose proof Hle as (Hm & _). exists (pred (Z.to_nat (max (EvictQueue (st_db st))))). lia. }
  cbn [tiering_loop]. unfold isEmpty. rewrite (queue_empty_iff _ _ Hle), bool_decide_false by done.
  destruct (Z.leb_spec (batch_tiering_size cfg) 0); [lia|]. cbn [orb].
  destruct (enqueue_room (FreeQueue (st_db st)) lf a Hlf Hroom) as (fq & Efq & _).
  destruct (choose_best_cons (st_heap st) (EvictQueue (st_db st)) (FreeQueue (st_db st)) fq a le _ _ Hle Efq Ha eq_refl eq_refl)
    as (q & -> & _). res_step. unfold load. cbn [st_heap set_queues set_db set_heap]. rewrite lookup_insert_eq. res_step.
  destruct (vectorAdd_rep v1 [] (Some a) Hv1) as (v1' & -> & _); [cbn; lia|]. res_step. cbn [de_val].
  destruct (vectorAdd_rep v2 [] (Some a) Hv2) as (v2' & -> & _); [cbn; lia|]. res_step. cbn [de_key rg_entry].
  by rewrite long_key_row_count.
Qed.

(** C34: a table key can be so long that FPWRITE accepts it, while the keys of its row
    groups do not fit the buffer of [parsingDataKeyInfo]: on a new server a FPWRITE of
    plain values to such a table is acknowledged, and the eviction that follows fails
    an assertion. *)
Theorem long_key_breaks_eviction (s : Store) now argv t p ncol xs :
  wf_config cfg → (1 ≤ ncol ≤ 100)%nat → write_args argv t p ncol xs → wf_rows cfg ncol xs →
  (MAX_TMPBUF_SIZE ≤ S (length (data_key t p 1)))%nat →
  ∃ st, fpWriteCommand cfg (initServer s now) argv = Ok (RStatus (lit "OK"), st) ∧ evict_batch cfg st = Fault AssertFail.
Proof.
  intros Hcfg Hn Hargs (Hxne & Hxm & _ & Hxp & Hxb) Hlong. pose proof Hcfg as (HR & _).
  destruct (fpWrite_starts cfg (initServer s now) argv t p ncol xs Hargs Hn Hxm) as (g0 & Hk & Hg0 & ->).
  destruct (choose_fresh cfg Hcfg (initServer s now) t p g0 0 Hk) as (o & k & Ho & ->); [done..|]. res_step. unfold write_rows.
  destruct (rows_exact ncol xs ltac:(lia) Hxm) as [Ex Ediv]. assert (Hrx : 0 ≤ rows_of ncol xs) by (unfold rows_of; lia).
  destruct (write_loop_new cfg Hcfg ncol (with_meta (initServer s now) (meta_key t p) o k) (data_key t p 1) 0 xs)
    as (d & m & -> & _); try done.
  { rewrite <- Ex, Z.mul_comm. apply Z.mul_le_mono_nonneg_l; lia. }
  res_step. rewrite Ediv. res_step. rewrite (to_int_id (rows_of ncol xs)) by (unfold INT_MIN; lia).
  match goal with |- context [incRowNumber cfg ?s0 _ _] => set (st1 := s0) end.
  assert (Hm : meta_rep st1 (meta_key t p) (Some (<[1 := 0]> (<[0 := 1]> ∅)))).
  { unfold meta_rep. cbn. by rewrite lookup_insert_eq. }
  destruct (incRowNumber_ok cfg st1 t p 1 0 (Some (<[1 := 0]> (<[0 := 1]> ∅))) (rows_of ncol xs) Hk) as (o2 & -> & _);
    [unfold INT_MAX; lia|done|vm_compute; discriminate|lia| |].
  { change (counter_value (Some (<[1 := 0]> (<[0 := 1]> (∅ : gmap Z Z)))) 1) with 0. lia. }
  res_step. cbn [Z.add Z.eqb negb].
  destruct (enqueue_room (createArrayQueue DEFAULT_ARRAY_QUEUE_SIZE) [] 1%positive) as (q & Eq & Hq & _);
    [apply createArrayQueue_rep; unfold QUEUE_MAX, DEFAULT_ARRAY_QUEUE_SIZE; lia|unfold createArrayQueue, DEFAULT_ARRAY_QUEUE_SIZE; cbn [max length]; lia|].
  unfold dictFind. cbn [st1 st_db with_meta with_entry dict EvictQueue st_next initServer]. rewrite lookup_insert_eq, Eq. res_step.
  cbn [Z.eqb Pos.eqb negb assert]. res_step. eexists. split; [done|]. destruct Hk as (_ & Hp & _).
  by apply (long_key_evicted _ t p 1 1%positive [] [] d).
Qed.

(** ** emptyDb *)

(** C35: a synchronous FLUSHDB frees the entries of the dictionary and then empties
    the queues through them: if the eviction queue holds an entry of the
    dictionary it is read after it was freed. *)
Theorem emptyDb_reads_freed (h : heap value) (db : redisDb Store) dbnum freed a le k :
  dbnum = -1 ∨ dbnum = 0 → queue_elems (EvictQueue db) (a :: le) → rear (EvictQueue db) ≤ front (EvictQueue db) →
  dict db !! k = Some a → emptyDb h [db] dbnum false freed = Fault UseAfterFree.
Proof.
  intros Hdb Hq Hrf Hk. unfold emptyDb. cbn [length].
  replace ((dbnum <? -1) || (Z.of_nat 1 <=? dbnum)) with false by (destruct Hdb as [-> | ->]; done).
  cbn [empty_loop]. replace (negb (dbnum =? -1) && negb (dbnum =? 0)) with false by (destruct Hdb as [-> | ->]; done).
  unfold dictEmpty_all, lazyfree_races. cbn [init_queues EvictQueue map concat List.filter foldr].
  assert (Ha : foldr delete h (db_entries db) !! a = None).
  { assert (Hin : a ∈ db_entries db).
    { unfold db_entries. apply list_elem_of_fmap. exists (k, a). split; [done|]. by apply elem_of_map_to_list. }
    induction (db_entries db) as [|b l IH]; [by apply not_elem_of_nil in Hin|]. cbn.
    destruct (decide (b = a)) as [->|Hne]; [apply lookup_delete_eq|]. rewrite lookup_delete_ne by done.
    apply IH. by apply elem_of_cons in Hin as [->|?]. }
  unfold initializeQueue. assert (Hn : ∃ n, Z.to_nat (front (EvictQueue db) - rear (EvictQueue db) + 1) = S n).
  { exists (pred (Z.to_nat (front (EvictQueue db) - rear (EvictQueue db) + 1))). lia. }
  destruct Hn as [n ->]. cbn [force_loop]. unfold forceDequeue. rewrite (queue_empty_iff _ _ Hq), bool_decide_false by done.
  rewrite (read_rear _ _ _ Hq). res_step. unfold load. by rewrite Ha.
Qed.
End faults.


(** Two null values are enough: on a fresh server the first FPWRITE of a row with
    a null is acknowledged and releases the shared object, the same command again
    reads it after it was freed. *)
Lemma second_null_faults :
  let argv := [lit "FPWRITE"; lit "D:{7:1:2}"; lit "1:2"; lit "2"; lit "0"; lit "a"; lit "null"] in
  match fpWriteCommand Example.cfg (initServer (∅ : gmap bytes bytes) 0) argv with
  | Ok (r, st) => r = RStatus (lit "OK") ∧ st_nullValue st = None ∧
                  fpWriteCommand Example.cfg st argv = Fault UseAfterFree
  | Fault _ => False
  end.
Proof. vm_compute. auto. Qed.

(** ** Delimiters in values *)

(** values are written to RocksDB without escaping, so vectors with different
    values have the same stored text as soon as a value contains the delimiter. *)
Theorem delimiter_collides (v v' : Vector bytes) a b c :
  vector_rep v (map Some [a ++ lit ":" ++ b; c]) → vector_rep v' (map Some [a; b ++ lit ":" ++ c]) →
  v_type v = v_type v' → vectorSerialize v = vectorSerialize v'.
Proof.
  intros Hv Hv' Ht. rewrite (vectorSerialize_ok v _ Hv), (vectorSerialize_ok v' _ Hv') by (unfold INT_MAX; cbn; lia).
  rewrite Ht. unfold serial_text. do 3 f_equal. rewrite !sdsjoinsds_cons by done. cbn. by rewrite <- !app_assoc.
Qed.

(** ** Witnesses *)

Lemma fpWrite_refuses_witness :
  fpWriteCommand Example.cfg (initServer (∅ : gmap bytes bytes) 0)
    [lit "FPWRITE"; Example.key; lit "1:2"; lit "2"; lit "0"; lit "a"; lit "b"; lit "c"] =
  Ok (RError (lit "column_number Error"), initServer ∅ 0).
Proof.
  destruct (fpWrite_refuses Example.cfg (initServer (∅ : gmap bytes bytes) 0) (lit "FPWRITE") Example.key (lit "1:2")
    (lit "2") (lit "0") [lit "a"; lit "b"; lit "c"] _ Example.key_parses) as [_ E]; [vm_compute; discriminate|].
  apply E; vm_compute; discriminate.
Defined.

Lemma released_object_faults_witness :
  fpWriteCommand Example.cfg (initServer (∅ : gmap bytes bytes) 0)
    [lit "FPWRITE"; Example.key; lit "1:2"; lit "2"; lit "0"; lit "null"; lit "b"; lit "c"; lit "null"] = Fault UseAfterFree.
Proof.
  apply (released_object_faults Example.cfg _ ∅ _ 7 (lit "1:2") 2 (lit "null") [lit "b"; lit "c"; lit "null"]).
  - apply Example.cfg_ok.
  - apply initServer_inv.
  - apply Example.table_ok.
  - lia.
  - apply Example.write_spelled.
  - reflexivity.
  - vm_compute. discriminate.
  - intros T HT. by rewrite lookup_empty in HT.
  - left. vm_compute. lia.
Defined.

Lemma unset_columnvector_size_faults_witness :
  fpWriteCommand (mkConfig 50 0 1 512 0 false false false false) (initServer (∅ : gmap bytes bytes) 0)
    [lit "FPWRITE"; Example.key; lit "1:2"; lit "2"; lit "0"; lit "a"; lit "b"] = Fault DivByZero.
Proof.
  apply (unset_columnvector_size_faults (mkConfig 50 0 1 512 0 false false false false) ∅ 0 _ 7 (lit "1:2") 2 (lit "a") [lit "b"]).
  - reflexivity.
  - unfold INT_MAX. cbn. lia.
  - apply Example.table_ok.
  - lia.
  - apply Example.write_spelled.
  - reflexivity.
Defined.

Lemma long_key_breaks_eviction_witness :
  let p := replicate 120 "x"%char in
  let argv := [lit "FPWRITE"; lit "D:{7:" ++ p ++ lit "}"; p; lit "2"; lit "0"; lit "e"; lit "f"] in
  ∃ st, fpWriteCommand Example.cfg (initServer (∅ : gmap bytes bytes) 0) argv = Ok (RStatus (lit "OK"), st) ∧
    evict_batch Example.cfg st = Fault AssertFail.
Proof.
  apply (long_key_breaks_eviction Example.cfg ∅ 0 _ 7 (replicate 120 "x"%char) 2 Example.second).
  - apply Example.cfg_ok.
  - lia.
  - do 6 eexists. split; [reflexivity|]. vm_compute. split; [reflexivity|]. done.
  - apply Example.rows_ok. by right.
  - vm_compute. lia.
Defined.

Lemma emptyDb_reads_freed_witness :
  ∃ q, enqueue (createArrayQueue 4) (Some 1%positive) = Ok (1, q) ∧
    emptyDb {[1%positive := mkEntry (lit "k") (Some (mkRobj 0 (VRel ∅)))]}
      [mkDb {[lit "k" := 1%positive]} ∅ ∅ q (createArrayQueue 4) (∅ : gmap bytes bytes)] 0 false (fun _ => false) = Fault UseAfterFree.
Proof.
  destruct (enqueue_room (createArrayQueue 4) [] 1%positive) as (q & E & Hq & _ & _ & Hr);
    [apply createArrayQueue_rep; unfold QUEUE_MAX; lia|cbn; lia|].
  exists q. split; [exact E|].
  apply (emptyDb_reads_freed _ _ 0 _ 1%positive [] (lit "k")); [by right|exact Hq| |by apply lookup_singleton_eq].
  vm_compute in E. injection E as <-. vm_compute. discriminate.
Defined.

Lemma delimiter_collides_witness :
  ∃ v v', vectorAddAll (vectorTypeInit 1) [Some (lit "a:b"); Some (lit "c")] = Ok v ∧
    vectorAddAll (vectorTypeInit 1) [Some (lit "a"); Some (lit "b:c")] = Ok v' ∧ vectorSerialize v = vectorSerialize v'.
Proof.
  destruct (vectorAddAll_rep (vectorTypeInit (A := bytes) 1) [] [Some (lit "a:b"); Some (lit "c")]
    (vectorTypeInit_rep 1)) as (v & E & Hv & Ht); [cbn; lia|].
  destruct (vectorAddAll_rep (vectorTypeInit (A := bytes) 1) [] [Some (lit "a"); Some (lit "b:c")]
    (vectorTypeInit_rep 1)) as (v' & E' & Hv' & Ht'); [cbn; lia|].
  exists v, v'. split; [exact E|]. split; [exact E'|].
  apply (delimiter_collides v v' (lit "a") (lit "b") (lit "c") Hv Hv'). congruence.
Defined.
